(* ===== verification/_CoqProject ===== *)
-Q . S2P
Prelude.v
RustOrd.v
RustFloat.v
RustStr.v
RustText.v
RustChars.v
Center.v
CenterTiling.v
CenterEdit.v
CenterInv.v
Chrome.v
ChromeTiling.v
FrameLoop.v
LogIngress.v
LogDrain.v
Patch.v
PatchProps.v
PatchReparse.v
Todo.v
TodoProps.v
Template.v
Fold.v
FoldProps.v
Pipeline.v
Supervise.v
Reap.v
Image.v
Capacity.v
Broker.v
Host.v
HostMachine.v
Retry.v
HostFlow.v
HostFlowProps.v
Glob.v
GlobProps.v
GlobSpec.v
ChunkScope.v
ChunkProps.v
ReportText.v
Lease.v
Claim.v
Finisher.v
FinisherProps.v
Roster.v
RosterProps.v
RosterSafe.v
RosterRuns.v
Graveyard.v
Activity.v
ActivityProps.v
Attention.v
AttentionProps.v
MergeSweep.v
MergeQueue.v
MergeQueueProps.v
MergeDrain.v
McpProxy.v
McpProxyProps.v
Chrono.v
Gregorian.v
RecurRule.v
RecurRuleProps.v
RecurExpand.v
RecurProps.v
ProxyPool.v
ProxyLimit.v
ProxyLimitProps.v
ProxyBudget.v
ProxyBudgetProps.v
ProxyRoute.v
ProxyReply.v
ProxyRelay.v
ProxyRelayProps.v
ProxyEventsProps.v
ProxyRouter.v
ProxyRouterProps.v
ProxyStream.v
ProxyStreamProps.v
