(* ===== verification/Prelude.v ===== *)
(** * thegn: a verification development of its core

    thegn is a terminal workspace manager in Rust: a compositor (the crate
    thegn-host) lays out panes and chrome and runs an event loop over a pane
    daemon's terminals; a core crate without I/O (thegn-core) holds the
    decisions - merge queue, pipeline supervision, sandbox placement, patch
    staging, rebase lists, agent prompts, activity dots, session retention,
    the provisioning of remote hosts, the roster of dispatched agents, the
    tools agents may call - and a proxy (thegn-proxy) carries their model calls;
    service adapters (thegn-svc) sit between the two.  This
    library models the decision code as executable definitions and proves what
    the rest of the program relies on.

    ** The parts and where they are

    - This file: Rust's integer widths, [Result] with its [?], and the list
      lemmas and tactics every file shares.  [RustOrd]: Rust's [Ordering] and
      [sort_by], with the class of lawful comparators.  [RustFloat]: [f32] and [f64] on the
      Standard Library's [SpecFloat], with Rust's [max], [min], [clamp],
      [round] and saturating casts.  [RustStr]: strings as their UTF-8 bytes,
      with the [str] methods the code uses and decimal printing and parsing;
      [RustText] adds lines and trimming, [RustChars] the decoding of UTF-8 into
      characters and back.
    - [Center] (thegn-host/src/center.rs, the [Rect] of compositor.rs): the
      split-and-stack tree of a tab.  [CenterTiling] proves its layout an exact
      tiling, [CenterEdit] that [swap] exchanges two nodes, [CenterInv] the
      other edits, and by induction on a step relation over all of them, refused
      ones included, that no reachable layout overlaps, and that it still tiles
      as long as no stack lost its only pane.
    - [Chrome] (layout.rs): the surfaces around the center; the process-global
      width overrides are the record [LayoutCfg].  [ChromeTiling]: they
      partition the window, and the center keeps its floor.
    - [FrameLoop] (render_plan.rs, idle_poll.rs, the pacing half of
      loop_policy.rs, and the lines of run.rs that compose them): damage,
      render plans and the poll timeout of one iteration; frames are never lost
      and an idle loop never polls.
    - [LogIngress] (thegn-svc/src/log/ingress.rs): the bounded log queue, and
      the class [LogQueue] of what a consumer may rely on.  [LogDrain] (the log
      half of loop_policy.rs) is proved against that class, with the producer
      running concurrently.
    - [Patch] (thegn-core/src/patch.rs): parsing, rendering and partial patches.
      [PatchProps] holds the round trips and what a partial hunk contains,
      [PatchReparse] that whatever is handed to `git apply` is a well-formed
      diff whose headers count their bodies.
    - [Todo] (rebase_todo.rs): `git-rebase-todo` files and their edits.
      [TodoProps]: rewriting a file changes no instruction, and moves and fixups
      touch only what they name.
    - [Template] (agent_task.rs, [sh_quote] and [sh_join] of util.rs): the
      template engine and shell quoting, with a reader for POSIX words as the
      specification of the latter.
    - [Fold] (fold.rs): landing branches by merge, squash or rebase, written in
      a small state-and-error monad over the class [FoldGit], which stands for
      the trait of that name.  [FoldProps]: refinement of a specification in
      terms of git, every branch landed or deferred,
      ancestry under the laws of `git commit-tree`, and rebase all-or-nothing;
      a small object database shows the laws can hold.
    - [Pipeline] (pipeline_approval.rs, pipeline_validate.rs, parts of
      config_pipeline.rs and gate.rs): the recorded facts pipeline decisions
      rest on.  [Supervise] (pipeline_supervise.rs, the recording half of
      db_pipeline_supervise.rs): when a lane advances or lands unattended, and
      that validation cannot loop.  [Reap] (pipeline_reap.rs): when a dead row
      may be settled without a person.
    - [Capacity] (capacity.rs, trust_class.rs, the resolution of
      config_placement.rs) and [Broker] (scheduler.rs): where a sandbox is
      placed, as a refinement of the order of its lanes (for dedicated hosts the
      order of the code, which its comment states differently), and which hosts
      are given back.
    - [Image] (image.rs): digests and image references.  [Host] (host.rs, the
      delivery half of image.rs): probe reports, what a machine can receive and
      the selection of delivery routes against its specification.  [HostMachine]
      (host_machine.rs): the provisioning state machine, proved well typed over
      every run of a driver that answers what it is asked.  [Retry] (retry.rs):
      backoff and the retry loop over an abstract clock and operation.
      [HostFlow] (host_flow.rs, the writes of host_db.rs) composes them into the
      drive of one host over the class [HostRunner], the trait of
      thegn-svc/src/host/mod.rs; [HostFlowProps]: a drive settles, settles well,
      and installs nothing without consent.
    - [Glob] (the matcher of pipeline_chunk.rs): path patterns, matching with a
      memo and the intersection of two patterns by a bounded product search.
      [GlobProps] is the theory of such searches (what they decide and what they
      cost), [GlobSpec] the meaning of patterns and that both routines decide
      it.  [ChunkScope] (the rest of pipeline_chunk.rs): frontmatter, the index
      of earlier chunks and the verdict of the scope gate; [ChunkProps] what
      they mean.
    - [ReportText] (pipeline_report.rs): the cleaning of texts workers file.
      [Lease] (the leases of db_dispatch.rs): lead leases with fencing
      generations, as a step relation on the lease table.  [Claim]
      (pipeline_claim.rs, pipeline_identity.rs, the paths of pipeline_run.rs):
      identity of work and the claim decision.  [Roster] (the transactions of
      db_dispatch.rs with the row writers of db_notification.rs and the pruning
      of db_vacuum.rs): every write of the table of dispatched agents.
      [RosterProps] is what each write may change and the runs of the roster:
      any sequence of claims, finishers' claims and other writes, those of the
      parts that are not modelled (review tasks, sessions moved between profiles)
      as steps of which only [calm] is known, logged with the claims and the rows
      that became active without one.  [RosterSafe] is what holds in every run
      (file ownership, stage budgets, fenced runs, lead authority, lineage),
      [RosterRuns] concrete runs, among them the finisher that escapes the scope
      gate.
    - [Graveyard] (graveyard.rs): the daemon's bounded store of exited
      sessions, as a refinement of a list of burials.
    - [Activity] (activity_step.rs, session_activity.rs, config_activity.rs):
      the activity dots; [ActivityProps]: red is confirmed by two observations,
      never shown without an agent, and a settled session arms no timer.
    - [Finisher] (pipeline_resume.rs, the completion contract of
      stage_prompt.rs): the prompt that resumes an unfinished stage.
      [FinisherProps]: its evidence block cannot be forged by what the task,
      the paths or git say, and the contract carried over is that of the row.
    - [Attention] (attention.rs): what asks for the user, acknowledgements,
      episodes, the order of rows, and the status table of the merge queue.
      [AttentionProps]: exactly which facts need the user, and that repeated
      jumps reach every such worktree.
    - [MergeSweep] (merge_lifecycle.rs, merge_sweep.rs): what becomes of a
      landed worktree and when its cleanup is tried again.  [MergeQueue]
      (db_aux.rs, store/worktree_aux.rs, db_merge_landed.rs, the queue part of
      [del_worktree]): every transaction on the merge queue and its audit
      events.  [MergeQueueProps]: the invariant of every interleaving, that a
      claim is exclusive while its lease runs and that a superseded one is
      inert.  [MergeDrain] (merge_driver_claim.rs): a drain with its heartbeat
      over the store; it finishes when its clocks keep within the lease, and
      the operator's commands are the table of [Attention].
    - [McpProxy] (grants.rs, thegn-core/src/mcp/proxy, hub.rs and upstream.rs of
      thegn-host/src/mcp_proxy): the hub that offers the tools of several MCP
      servers to an agent.  [McpProxyProps]: calls stay within what the servers
      expose to the calling worktree, a dead upstream is called a bounded number
      of times, responses are routed once, a reconciliation reaches the new
      configuration and restarts nothing it need not, and templates are filled
      as written or not at all.
    - [RecurRule] and [RecurExpand] (thegn-core/src/calendar/recur.rs, the budget
      and event times of mod.rs, the resolution of local times of tz.rs):
      recurrence rules and their expansion, over the classes of [Chrono], which
      state what is used of the chrono crate; [Gregorian] shows that they can
      hold.  [RecurRuleProps]: a rule survives being written.  [RecurProps]: the
      jumps and early stops of the expander leave the plain recurrence, the two
      kinds of rules apart for which they do not, what an expansion contains, and
      what a wall time in a gap of the clocks becomes.
    - The model proxy (thegn-proxy with thegn-core/src/proxy).  [ProxyPool]
      (creds.rs): rotation among the keys of a provider, fair by weight.
      [ProxyLimit] (ratelimit.rs, backoff.rs, health.rs): token buckets, requests
      in flight and cooldowns; [ProxyLimitProps] their bounds.  [ProxyBudget]
      (attribution.rs, budget.rs, budget_alert.rs, the budget table): signed keys,
      who is charged and the check before routing; [ProxyBudgetProps]: keys are
      what the host signed, the check refuses exactly what it should, and the
      table accounts for every charge.  [ProxyRoute] (route_select.rs,
      transform.rs, usage_order.rs, cost.rs, model.rs) and [ProxyReply]
      (classify.rs, headers.rs, reset.rs): the pure choices and the reading of
      answers.  [ProxyRelay] (relay.rs, anthropic_stream.rs): streams of
      server-sent events, the class [StreamSink] and its two instances;
      [ProxyRelayProps]: what the passthrough passes on; [ProxyEventsProps]: the
      Anthropic events are words of the protocol.  [ProxyRouter] and [ProxyStream]
      (router.rs, the chat endpoint of server.rs): the buffered and the streaming
      cascade as programs over the shared state, in which other requests may step
      in before every access; [ProxyRouterProps] and [ProxyStreamProps] prove, for
      every environment, that a request returns, who answers it, that it is
      charged once or not at all, and that nothing leaves without a verified key.

    ** Conventions

    Mutable Rust values are threaded; a method that changes [self] returns the
    new value beside its result.  [usize] and [u64] are [N], [i64] is [Z]; a
    saturating or wrapping operation is written out where the code relies on
    it.  A mutex-protected object is one whose operations are atomic steps, and
    theorems quantify over all interleavings of those steps.  Wall-clock time
    is an argument, and a table of the database is the list of its rows in the
    order the query returns them, or a finite map by its key where no order is
    read; a transaction is one function on the tables.

    Fuel appears where a loop is not structural, and each time a theorem or
    lemma shows that the amount used is enough: [LogDrain.drain_logs]
    ([drain_terminates]: the length of the queue when the producer is silent, the
    index of the first clock reading past the deadline otherwise);
    [HostFlow.drive] ([drive_settles]: the number of volumes and twelve);
    [Retry.retry_loop] (the attempts the policy allows); [Glob.search]
    ([search_fuel], three visits per pair of positions) and [Glob.match_loop]
    ([match_fuel]); [Roster.prune_loop] (the number of candidates);
    [RecurExpand.walk] ([walk_total]: the work left, of which a period takes one
    unit at least), [RecurExpand.walk_times] (the code's own
    MAX_SUBDAILY_STEPS) and [RecurExpand.bisect] ([bisect_spec]: thirty-two
    halvings of thirty hours).  Every other
    recursion is structural, on the queue, tree, text or list the loop consumes.

    ** Limits

    Terminal and process I/O, dispatch, configuration loading and the service
    adapters are not modelled.  Of the database the tables of the host drive,
    the leases, the roster, the merge queue and the proxy's budgets are, as data: SQLite is taken to run a transaction
    alone and to completion, its I/O errors are left out, one transaction reads
    the clock once, and the generation counter of the leases is unbounded.
    serde_json, which stores the scope of a chunk, is a pair of parameters with
    the round trip of a list of strings as its hypothesis.  Patterns are matched
    by bytes: they are ASCII, and a literal of whole characters matches UTF-8
    text at character boundaries only.  Not modelled either are the line parser of the
    log (it rests on serde_json and chrono), the built-in prompt texts, and the
    vendored terminal crates.  Allocation failure and memory exhaustion are
    outside the model: the theorems about the log queue assume that a record
    fits the address space beside the queue.  Plain [u64] arithmetic of the
    capacity rule wraps as in a release build, and the broker's refinement is
    stated for hosts whose sizes keep it below [2^64].  Times of the calendar are
    whole seconds without leap seconds, the laws of chrono's text formats are
    stated for the years 0 to 9999, and the zones of chrono_tz are a class
    without laws: the theorems hold for any offsets.  Of the model proxy the HTTP
    clients are the environment, and HMAC, serde_json, the readers of dates and of
    floats, the regular expressions and Unicode lower case are parameters; the
    theorems that need something of them say what, and a witness shows that it can
    hold.  The cascade's theorems ask that the limiter can make the bucket of every
    lane whose rate it accepts, which is decidable for a configuration
    ([ProxyRouterProps.rate_ok]).

    ** Not modelled

    Decision code that is left out: the gate of merge admission
    (pipeline_merge_admission.rs), the verdict and evidence readers of
    pipeline_report.rs, the materialization of calendar events, the followers of a
    host drive, the reading of ssh messages (transport_error.rs), and of the model
    proxy the translation between the two wire protocols with the Anthropic
    endpoint, the loading of its configuration and the statistics rollup. *)

From stdpp Require Export base tactics list numbers strings option gmap.
From Stdlib Require Export Lia NArith ZArith.

(** ** Rust's fixed-width integers

    A [usize] or [u32] is an [N] and an [i64] a [Z].  Operations that can
    leave the width are written out where the source relies on them
    ([saturating_sub] is [N.sub], which stops at zero as the Rust method does;
    [saturating_add] is [u64_sat_add]). *)
Definition usize_max : N := 18446744073709551615%N.
Definition u64_max : N := 18446744073709551615%N.
Definition u32_max : N := 4294967295%N.
Definition i64_max : Z := 9223372036854775807%Z.
Definition i64_min : Z := (-9223372036854775808)%Z.

Definition u64_sat_add (a b : N) : N := N.min (a + b) u64_max.
Definition u64_sat_mul (a b : N) : N := N.min (a * b) u64_max.
Definition i64_sat_sub (a b : Z) : Z := Z.max i64_min (Z.min i64_max (a - b)).

(** ** Fallible code

    [result E A] is Rust's [Result<A, E>]; [let? x := e in k] is [?]. *)
Inductive result (E A : Type) : Type :=
| Ok (a : A)
| Err (e : E).
Arguments Ok {E A} a.
Arguments Err {E A} e.

Definition rbind {E A B} (m : result E A) (k : A -> result E B) : result E B :=
  match m with
  | Ok a => k a
  | Err e => Err e
  end.

Declare Scope thegn_scope.
Delimit Scope thegn_scope with thegn.
Notation "'let?' x ':=' e 'in' k" := (rbind e (fun x => k))
  (at level 10, x pattern, e at level 100, k at level 200) : thegn_scope.
Open Scope thegn_scope.

(** ** Automation shared by the components *)
Create HintDb thegn.

(** Split the conditionals of the goal and of the hypotheses, turning the
    boolean comparisons of the code into propositions [lia] can use. *)
Ltac bool_to_prop :=
  repeat match goal with
  | H : (_ && _)%bool = true |- _ => apply andb_true_iff in H as [? ?]
  | H : (_ || _)%bool = false |- _ => apply orb_false_iff in H as [? ?]
  | H : negb _ = true |- _ => apply negb_true_iff in H
  | H : negb _ = false |- _ => apply negb_false_iff in H
  | H : (_ <? _)%N = true |- _ => apply N.ltb_lt in H
  | H : (_ <? _)%N = false |- _ => apply N.ltb_ge in H
  | H : (_ <=? _)%N = true |- _ => apply N.leb_le in H
  | H : (_ <=? _)%N = false |- _ => apply N.leb_gt in H
  | H : (_ =? _)%N = true |- _ => apply N.eqb_eq in H
  | H : (_ =? _)%N = false |- _ => apply N.eqb_neq in H
  | H : (_ <? _)%Z = true |- _ => apply Z.ltb_lt in H
  | H : (_ <? _)%Z = false |- _ => apply Z.ltb_ge in H
  | H : (_ <=? _)%Z = true |- _ => apply Z.leb_le in H
  | H : (_ <=? _)%Z = false |- _ => apply Z.leb_gt in H
  | H : (_ =? _)%Z = true |- _ => apply Z.eqb_eq in H
  | H : (_ =? _)%Z = false |- _ => apply Z.eqb_neq in H
  | H : (_ <? _)%nat = true |- _ => apply Nat.ltb_lt in H
  | H : (_ <? _)%nat = false |- _ => apply Nat.ltb_ge in H
  | H : (_ <=? _)%nat = true |- _ => apply Nat.leb_le in H
  | H : (_ <=? _)%nat = false |- _ => apply Nat.leb_gt in H
  | H : (_ =? _)%nat = true |- _ => apply Nat.eqb_eq in H
  | H : (_ =? _)%nat = false |- _ => apply Nat.eqb_neq in H
  end.

Ltac split_ifs :=
  repeat match goal with
  | |- context [if ?b then _ else _] =>
      lazymatch type of b with bool => destruct b eqn:? end
  | H : context [if ?b then _ else _] |- _ =>
      lazymatch type of b with bool => destruct b eqn:? end
  end; bool_to_prop.

(** What a computation that succeeded went through. *)
Lemma rbind_Ok {E A B} (m : result E A) (k : A -> result E B) b :
  rbind m k = Ok b <-> exists a, m = Ok a /\ k a = Ok b.
Proof. destruct m; simpl; naive_solver. Qed.

Ltac rbind_inv :=
  repeat match goal with
  | H : rbind _ _ = Ok _ |- _ => apply rbind_Ok in H as (? & ? & H)
  end.

(** ** Lists *)

(** Rust's [iter().position(..)]: the index of the first match. *)
Fixpoint position {A} (f : A -> bool) (l : list A) : option nat :=
  match l with
  | [] => None
  | a :: l => if f a then Some 0 else S <$> position f l
  end.

(** Rust's [Vec::remove(i)] on an index in range. *)
Definition vec_remove {A} (i : nat) (l : list A) : list A :=
  take i l ++ drop (S i) l.

Lemma position_Some {A} (f : A -> bool) l i :
  position f l = Some i -> exists a, l !! i = Some a /\ f a = true.
Proof.
  revert i; induction l as [|b l IH]; intros i H; simpl in *; [done|].
  destruct (f b) eqn:E; [by inversion H; subst; eauto|].
  destruct (position f l) as [j|]; simplify_eq/=. eauto.
Qed.

Lemma position_None {A} (f : A -> bool) l :
  position f l = None <-> Forall (fun a => f a = false) l.
Proof.
  induction l as [|b l IH]; simpl; [done|].
  rewrite Forall_cons, <- IH. destruct (f b); [by split; [|intros []]|].
  rewrite fmap_None. tauto.
Qed.

Lemma NoDup_filter_b {A} (f : A -> bool) (l : list A) : NoDup l -> NoDup (List.filter f l).
Proof. rewrite !NoDup_ListNoDup. apply List.NoDup_filter. Qed.

Lemma vec_remove_perm {A} (l : list A) i a :
  l !! i = Some a -> l ≡ₚ a :: vec_remove i l.
Proof.
  intros H. rewrite <- (take_drop_middle l i a H) at 1.
  unfold vec_remove. by rewrite <- Permutation_middle.
Qed.

Lemma length_vec_remove {A} (l : list A) i a :
  l !! i = Some a -> length l = S (length (vec_remove i l)).
Proof. intros H. apply (Permutation_length (vec_remove_perm _ _ _ H)). Qed.

(** State threaded through a traversal, as an [FnMut] closure does. *)
Fixpoint map_state {S A B} (f : S -> A -> B * S) (s : S) (l : list A)
  : list B * S :=
  match l with
  | [] => ([], s)
  | a :: l =>
      let '(b, s) := f s a in
      let '(bs, s) := map_state f s l in
      (b :: bs, s)
  end.

Lemma map_state_app {S A B} (f : S -> A -> B * S) s l1 l2 :
  map_state f s (l1 ++ l2) =
    (let '(b1, s1) := map_state f s l1 in
     let '(b2, s2) := map_state f s1 l2 in (b1 ++ b2, s2)).
Proof.
  revert s; induction l1 as [|a l1 IH]; intros s; simpl.
  - by destruct (map_state f s l2).
  - destruct (f s a) as [b s']. rewrite IH.
    destruct (map_state f s' l1) as [b1 s1].
    by destruct (map_state f s1 l2).
Qed.
