(* ===== verification/RustOrd.v ===== *)
(** * Rust's [Ordering] and [sort_by]

    A comparator is a function to [comparison].  [LawfulCmp] states what
    [Ord] documents of one; comparators are built from smaller ones with
    [on] (compare a projection), [reverse] and [then_with], and the class is
    closed under the three.  [sort_by] is the stable insertion sort; its
    results are characterised by order and permutation, and for a comparator
    that is injective on a key the keys come out the same whatever the order of
    the input. *)
From Stdlib Require Import Ascii String.
From stdpp Require Export sorting.
From S2P Require Import Prelude.

(** [Ordering::then] / [then_with]. *)
Definition then_with (a b : comparison) : comparison :=
  match a with Eq => b | _ => a end.

Definition cmp_bool (a b : bool) : comparison :=
  match a, b with
  | false, true => Lt
  | true, false => Gt
  | _, _ => Eq
  end.

Class LawfulCmp {A} (cmp : A -> A -> comparison) : Prop := {
  cmp_sym : forall a b, cmp b a = CompOpp (cmp a b);
  cmp_trans : forall a b c, cmp a b <> Gt -> cmp b c <> Gt -> cmp a c <> Gt;
}.

Arguments cmp_sym {A} cmp {_} a b.
Arguments cmp_trans {A} cmp {_} a b c.

(** Equal comparison only of equal values. *)
Class EqCmp {A} (cmp : A -> A -> comparison) : Prop :=
  cmp_eq : forall a b, cmp a b = Eq -> a = b.

Definition cmp_le {A} (cmp : A -> A -> comparison) (a b : A) : Prop := cmp a b <> Gt.

Global Instance cmp_le_dec {A} (cmp : A -> A -> comparison) : RelDecision (cmp_le cmp).
Proof. intros a b. unfold cmp_le. destruct (cmp a b); [left|left|right]; congruence. Defined.

(** ** Building comparators *)

Definition reverse {A} (cmp : A -> A -> comparison) (a b : A) : comparison := cmp b a.
Definition on {A B} (f : A -> B) (cmp : B -> B -> comparison) (a b : A) : comparison :=
  cmp (f a) (f b).
Definition lex {A} (cmp1 cmp2 : A -> A -> comparison) (a b : A) : comparison :=
  then_with (cmp1 a b) (cmp2 a b).
#[global] Typeclasses Opaque reverse on lex.

Section Lawful.
Context {A B : Type}.

Lemma cmp_refl (cmp : A -> A -> comparison) `{!LawfulCmp cmp} a : cmp a a = Eq.
Proof. pose proof (cmp_sym cmp a a) as H. by destruct (cmp a a). Qed.

Lemma cmp_Eq_swap (cmp : A -> A -> comparison) `{!LawfulCmp cmp} a b :
  cmp a b <> Gt -> cmp b a <> Gt -> cmp a b = Eq.
Proof. rewrite (cmp_sym cmp a b). by destruct (cmp a b). Qed.

#[global] Instance reverse_lawful (cmp : A -> A -> comparison) :
  LawfulCmp cmp -> LawfulCmp (reverse cmp).
Proof.
  intros L. split; unfold reverse; [intros a b; apply (cmp_sym cmp)|].
  intros a b c H1 H2. by apply (cmp_trans cmp c b a).
Qed.

#[global] Instance on_lawful (f : A -> B) (cmp : B -> B -> comparison) :
  LawfulCmp cmp -> LawfulCmp (on f cmp).
Proof.
  intros L. split; unfold on; [intros a b; apply (cmp_sym cmp)|].
  intros a b c. apply (cmp_trans cmp).
Qed.

(** What the first comparator says of [a] and [c], given [b] between. *)
Lemma cmp_between (cmp : A -> A -> comparison) `{!LawfulCmp cmp} a b c :
  cmp a b <> Gt -> cmp b c <> Gt -> cmp a c = Eq -> cmp a b = Eq /\ cmp b c = Eq.
Proof.
  intros H1 H2 H3.
  assert (cmp c a <> Gt) as H4 by (rewrite (cmp_sym cmp a c), H3; done).
  split; apply (cmp_Eq_swap cmp); auto; [by apply (cmp_trans cmp b c a)|by apply (cmp_trans cmp c a b)].
Qed.

#[global] Instance lex_lawful (cmp1 cmp2 : A -> A -> comparison) :
  LawfulCmp cmp1 -> LawfulCmp cmp2 -> LawfulCmp (lex cmp1 cmp2).
Proof.
  intros L1 L2. split; unfold lex.
  - intros a b. rewrite (cmp_sym cmp1 a b), (cmp_sym cmp2 a b).
    by destruct (cmp1 a b), (cmp2 a b).
  - intros a b c H1 H2.
    assert (cmp1 a b <> Gt) as G1 by (by destruct (cmp1 a b)).
    assert (cmp1 b c <> Gt) as G2 by (by destruct (cmp1 b c)).
    pose proof (cmp_trans cmp1 a b c G1 G2) as G3.
    destruct (cmp1 a c) eqn:E; simpl; [|done|done].
    destruct (cmp_between cmp1 a b c G1 G2 E) as [E1 E2].
    rewrite E1 in H1. rewrite E2 in H2. simpl in *. by apply (cmp_trans cmp2 a b c).
Qed.
End Lawful.

#[global] Instance cmp_bool_lawful : LawfulCmp cmp_bool.
Proof. split; [by intros [] []|by intros [] [] []]. Qed.

#[global] Instance cmp_N_lawful : LawfulCmp N.compare.
Proof.
  split; [intros; apply N.compare_antisym|].
  intros a b c. rewrite !N.compare_le_iff. lia.
Qed.

(** Byte strings in lexicographic order, Rust's [Ord] of [str]. *)
#[global] Instance cmp_ascii_lawful : LawfulCmp Ascii.compare.
Proof. split; [intros; apply N.compare_antisym|]. intros a b c. apply (cmp_trans N.compare). Qed.

#[global] Instance cmp_string_lawful : LawfulCmp String.compare.
Proof.
  split; [intros; apply String.compare_antisym|].
  intros a. induction a as [|x a IH]; intros [|y b] [|z c]; simpl; try done.
  intros H1 H2.
  assert (Ascii.compare x y <> Gt) as G1 by (by destruct (Ascii.compare x y)).
  assert (Ascii.compare y z <> Gt) as G2 by (by destruct (Ascii.compare y z)).
  pose proof (cmp_trans Ascii.compare x y z G1 G2) as G3.
  destruct (Ascii.compare x z) eqn:E; [|done|done].
  destruct (cmp_between Ascii.compare x y z G1 G2 E) as [E1 E2].
  rewrite E1 in H1. rewrite E2 in H2. eauto.
Qed.

#[global] Instance cmp_string_eq : EqCmp String.compare.
Proof. intros a b. apply String.compare_eq_iff. Qed.

(** ** [slice::sort_by] *)

Fixpoint insert_by {A} (cmp : A -> A -> comparison) (x : A) (l : list A) : list A :=
  match l with
  | [] => [x]
  | y :: l' => match cmp x y with Gt => y :: insert_by cmp x l' | _ => x :: l end
  end.

Definition sort_by {A} (cmp : A -> A -> comparison) (l : list A) : list A :=
  foldr (insert_by cmp) [] l.

Section Sort.
Context {A : Type} (cmp : A -> A -> comparison).

Lemma insert_by_perm x l : insert_by cmp x l ≡ₚ x :: l.
Proof.
  induction l as [|y l IH]; simpl; [done|].
  destruct (cmp x y); [done|done|]. rewrite IH. apply Permutation_swap.
Qed.

Lemma sort_by_perm l : sort_by cmp l ≡ₚ l.
Proof. induction l as [|x l IH]; simpl; [done|]. by rewrite insert_by_perm, IH. Qed.

Lemma elem_of_sort_by x l : x ∈ sort_by cmp l <-> x ∈ l.
Proof. by rewrite sort_by_perm. Qed.

Lemma sort_by_nil l : sort_by cmp l = [] <-> l = [].
Proof.
  split; [|by intros ->]. intros H. apply Permutation_nil_r.
  by rewrite <- (sort_by_perm l), H.
Qed.

Context `{!LawfulCmp cmp}.

Lemma insert_by_sorted x l :
  StronglySorted (cmp_le cmp) l -> StronglySorted (cmp_le cmp) (insert_by cmp x l).
Proof.
  induction 1 as [|y l Hs IH Hy]; simpl; [by repeat constructor|].
  destruct (cmp x y) eqn:E.
  1, 2: constructor; [by constructor|]; constructor; [unfold cmp_le; congruence|];
    eapply Forall_impl; [exact Hy|]; intros z Hz; unfold cmp_le in *;
    apply (cmp_trans cmp x y z); congruence.
  constructor; [done|]. apply Forall_forall. intros z Hz.
  rewrite insert_by_perm in Hz. rewrite Forall_forall in Hy.
  apply elem_of_cons in Hz as [->|Hz]; [|by apply Hy].
  unfold cmp_le. rewrite (cmp_sym cmp x y), E. done.
Qed.

Lemma sort_by_sorted l : StronglySorted (cmp_le cmp) (sort_by cmp l).
Proof. induction l as [|x l IH]; simpl; [constructor|]. by apply insert_by_sorted. Qed.

(** The head is a minimum of the input. *)
Lemma sort_by_head x l l' y :
  sort_by cmp l = x :: l' -> y ∈ l -> cmp_le cmp x y.
Proof.
  intros H Hy. pose proof (sort_by_sorted l) as Hs. rewrite H in Hs.
  rewrite <- elem_of_sort_by, H in Hy. inversion Hs as [|? ? _ Hx]; subst.
  apply elem_of_cons in Hy as [->|Hy]; [unfold cmp_le; by rewrite cmp_refl|].
  rewrite Forall_forall in Hx. by apply Hx.
Qed.
End Sort.

(** ** Sorted and filtered lists *)

Lemma StronglySorted_mono {A} (R1 R2 : relation A) l :
  (forall a b, R1 a b -> R2 a b) -> StronglySorted R1 l -> StronglySorted R2 l.
Proof.
  intros HR. induction 1 as [|a l _ IH Ha]; constructor; [done|].
  eapply Forall_impl; [exact Ha|]. auto.
Qed.

Lemma StronglySorted_mono_in {A} (R1 R2 : relation A) l :
  (forall a b, a ∈ l -> b ∈ l -> R1 a b -> R2 a b) -> StronglySorted R1 l -> StronglySorted R2 l.
Proof.
  intros HR H. induction H as [|a l _ IH Ha]; constructor.
  - apply IH. intros x y Hx Hy. apply HR; by right.
  - rewrite Forall_forall in Ha |- *. intros b Hb. apply HR; [by left|by right|by apply Ha].
Qed.

Section Filter.
Context {A : Type} (p : A -> bool).

Lemma filter_perm l1 l2 : l1 ≡ₚ l2 -> List.filter p l1 ≡ₚ List.filter p l2.
Proof.
  induction 1 as [|a l1 l2 _ IH|a b l|l1 l2 l3 _ IH1 _ IH2]; simpl; [done|..].
  - destruct (p a); by rewrite IH.
  - destruct (p a), (p b); try done. apply Permutation_swap.
  - by rewrite IH1.
Qed.

Lemma filter_true l : (forall a, a ∈ l -> p a = true) -> List.filter p l = l.
Proof.
  induction l as [|a l IH]; simpl; [done|]. intros H.
  rewrite (H a) by set_solver. f_equal. apply IH. set_solver.
Qed.

Lemma filter_false l : (forall a, a ∈ l -> p a = false) -> List.filter p l = [].
Proof.
  induction l as [|a l IH]; simpl; [done|]. intros H.
  rewrite (H a) by set_solver. apply IH. set_solver.
Qed.

Lemma filter_split l : l ≡ₚ List.filter p l ++ List.filter (fun a => negb (p a)) l.
Proof.
  induction l as [|a l IH]; simpl; [done|]. destruct (p a); simpl.
  - by rewrite <- IH.
  - by rewrite <- Permutation_middle, <- IH.
Qed.

Lemma elem_of_filter_b a l : a ∈ List.filter p l <-> a ∈ l /\ p a = true.
Proof. by rewrite !list_elem_of_In, List.filter_In. Qed.
End Filter.

Lemma StronglySorted_filter {A} (R : relation A) (f : A -> bool) l :
  StronglySorted R l -> StronglySorted R (List.filter f l).
Proof.
  induction 1 as [|a l _ IH Ha]; simpl; [constructor|]. destruct (f a); [|done].
  constructor; [done|]. rewrite Forall_forall in Ha |- *. intros b [Hb _]%elem_of_filter_b. by apply Ha.
Qed.

(** When comparing is comparing keys, the sorted keys depend only on which
    elements there are. *)
Section Key.
Context {A K : Type} (key : A -> K) (cmp : K -> K -> comparison) `{!LawfulCmp cmp, !EqCmp cmp}.

Lemma sorted_keys l :
  StronglySorted (cmp_le (on key cmp)) l -> StronglySorted (cmp_le cmp) (key <$> l).
Proof. induction 1; simpl; constructor; [done|]. by apply Forall_fmap. Qed.

Lemma sorted_keys_unique l1 l2 :
  StronglySorted (cmp_le (on key cmp)) l1 -> StronglySorted (cmp_le (on key cmp)) l2 ->
  l1 ≡ₚ l2 -> key <$> l1 = key <$> l2.
Proof.
  intros H1 H2 Hp.
  assert (AntiSymm eq (cmp_le cmp)) as Ha.
  { intros a b Hab Hba. apply (cmp_eq (cmp := cmp)). by apply (cmp_Eq_swap cmp). }
  apply (StronglySorted_unique (cmp_le cmp)); [by apply sorted_keys..|]. by rewrite Hp.
Qed.

Lemma sort_by_key l1 l2 :
  l1 ≡ₚ l2 -> key <$> sort_by (on key cmp) l1 = key <$> sort_by (on key cmp) l2.
Proof.
  intros Hp. apply sorted_keys_unique; [apply sort_by_sorted; apply _..|].
  by rewrite !sort_by_perm, Hp.
Qed.
End Key.
