(* ===== verification/RustFloat.v ===== *)
(** * Rust's [f32] and [f64]

    IEEE 754 binary32 and binary64 on the Standard Library's axiom-free
    [SpecFloat] (precision 24 with [emax] 128, precision 53 with [emax] 1024;
    round to nearest, ties to even), with the methods and casts the modelled
    code uses.  Everything computes. *)

From S2P Require Import Prelude.
From Stdlib Require Import SpecFloat ZArith NArith Lia.

Local Open Scope Z_scope.

(** ** Operations shared by both widths *)
Section Ops.
Context (prec emax : Z).

(** A literal [num / den] written in the source as a decimal; the quotient of
    two exactly representable integers is rounded once, as a literal is. *)
Definition float_of_Z (z : Z) : spec_float := binary_normalize prec emax z 0 false.
Definition float_lit (num den : Z) : spec_float :=
  SFdiv prec emax (float_of_Z num) (float_of_Z den).

Definition is_nan (f : spec_float) : bool :=
  match f with S754_nan => true | _ => false end.

(** [f32::max] / [f32::min]: a NaN operand loses. *)
Definition fmax (a b : spec_float) : spec_float :=
  if is_nan a then b
  else if is_nan b then a
  else if SFltb a b then b else a.
Definition fmin (a b : spec_float) : spec_float :=
  if is_nan a then b
  else if is_nan b then a
  else if SFltb b a then b else a.

(** [f32::clamp]: a NaN receiver stays NaN. *)
Definition fclamp (a lo hi : spec_float) : spec_float :=
  let a := if SFltb a lo then lo else a in
  if SFltb hi a then hi else a.

(** [f32::round]: to the nearest integer, halves away from zero. *)
Definition fround (f : spec_float) : spec_float :=
  match f with
  | S754_finite s m e =>
      if 0 <=? e then f
      else
        let q := (Zpos m + 2 ^ (- e - 1)) / 2 ^ (- e) in
        binary_normalize prec emax (if s then - q else q) 0 s
  | _ => f
  end.

(** [as usize]: truncation, saturating; NaN is zero. *)
Definition float_to_usize (f : spec_float) : N :=
  match f with
  | S754_finite false m e =>
      let z := if 0 <=? e then Zpos m * 2 ^ e else Zpos m / 2 ^ (- e) in
      N.min (Z.to_N z) usize_max
  | S754_infinity false => usize_max
  | _ => 0%N
  end.

(** Truncation towards zero of a finite number; the casts saturate it. *)
Definition float_trunc (f : spec_float) : Z :=
  match f with
  | S754_finite s m e =>
      let z := if 0 <=? e then Zpos m * 2 ^ e else Zpos m / 2 ^ (- e) in if s then - z else z
  | _ => 0
  end.

(** [total_cmp]: negative before positive, negative zero before zero, NaN last. *)
Definition total_cmp (a b : spec_float) : comparison :=
  match a, b with
  | S754_nan, S754_nan => Eq
  | S754_nan, _ => Gt
  | _, S754_nan => Lt
  | S754_zero s, S754_zero s' => if Bool.eqb s s' then Eq else if s then Lt else Gt
  | _, _ => default Eq (SFcompare a b)
  end.

(** [Iterator::sum] starts from negative zero. *)
Definition fsum (l : list spec_float) : spec_float :=
  foldl (SFadd prec emax) (S754_zero true) l.

Lemma float_to_usize_bound f : (float_to_usize f <= usize_max)%N.
Proof. destruct f as [| [] | |[]]; simpl; unfold usize_max; lia. Qed.
End Ops.

(** ** binary32 *)
Module F32.
Definition add := SFadd 24 128.
Definition sub := SFsub 24 128.
Definition mul := SFmul 24 128.
Definition div := SFdiv 24 128.
Definition sum := fsum 24 128.
Definition round := fround 24 128.
Definition lit := float_lit 24 128.
(** [usize as f32]. *)
Definition of_usize (n : N) : spec_float := float_of_Z 24 128 (Z.of_N n).
Definition zero : spec_float := S754_zero false.
Definition one : spec_float := float_of_Z 24 128 1.
(** [f32::EPSILON], [2^-23]. *)
Definition epsilon : spec_float := S754_finite false 8388608 (-46).
End F32.
Abbreviation f32 := spec_float.

(** ** binary64 *)
Module F64.
Definition add := SFadd 53 1024.
Definition sub := SFsub 53 1024.
Definition mul := SFmul 53 1024.
Definition div := SFdiv 53 1024.
Definition round := fround 53 1024.
Definition lit := float_lit 53 1024.
Definition of_Z := float_of_Z 53 1024.
Definition zero : spec_float := S754_zero false.
Definition one : spec_float := of_Z 1.
End F64.
Abbreviation f64 := spec_float.

(** ** Facts about the specification the components share *)

(** Subtracting a finite float from itself is exactly (positive) zero. *)
Definition is_finite (f : spec_float) : bool :=
  match f with S754_zero _ | S754_finite _ _ _ => true | _ => false end.

Lemma SFsub_diag prec emax f :
  is_finite f = true -> SFsub prec emax f f = S754_zero false.
Proof.
  destruct f as [s|s| |s m e]; try done; intros _; simpl.
  - by destruct s.
  - rewrite Z.sub_diag. done.
Qed.

Lemma SFltb_irrefl f : SFltb f f = false.
Proof.
  unfold SFltb. destruct f as [s|s| |s m e]; simpl; try done.
  - by destruct s.
  - rewrite Z.compare_refl, Pos.compare_cont_refl. by destruct s.
Qed.

Lemma fmax_not_nan a b : is_nan b = false -> is_nan (fmax a b) = false.
Proof.
  unfold fmax. intros Hb. destruct (is_nan a) eqn:Ha; [done|].
  rewrite Hb. by destruct (SFltb a b).
Qed.

Example round_half_up : F32.round (F32.lit 5 2) = F32.lit 3 1.
Proof. reflexivity. Qed.

Example usize_trunc : float_to_usize (F32.lit 299 100) = 2%N.
Proof. reflexivity. Qed.
