(* ===== verification/RustStr.v ===== *)
(** * The part of Rust's [str] the modelled code uses

    A [str] is its UTF-8 bytes: a [string], one [ascii] per byte, so [len] is
    [String.length].  The functions follow the methods of the same name; the
    last part prints and parses [u32] in decimal as [format!] and
    [str::parse::<u32>] do, and proves the two inverse. *)
From Stdlib Require Import Ascii String DecimalString DecimalN DecimalFacts DecimalPos.
From S2P Require Import Prelude.

Local Open Scope string_scope.
Global Arguments String.append !_ _ / : simpl nomatch.

(** [s.strip_prefix(p)]. *)
Fixpoint strip_prefix (p s : string) : option string :=
  match p, s with
  | EmptyString, _ => Some s
  | String a p, String b s => if Ascii.eqb a b then strip_prefix p s else None
  | String _ _, EmptyString => None
  end.

Definition starts_with (p s : string) : bool :=
  match strip_prefix p s with Some _ => true | None => false end.

(** [s.contains(p)]. *)
Fixpoint contains (p s : string) : bool :=
  starts_with p s ||
  match s with
  | EmptyString => false
  | String _ s => contains p s
  end.

(** [s.strip_suffix(c)] for a one-byte [char]. *)
Fixpoint strip_suffix (c : ascii) (s : string) : option string :=
  match s with
  | EmptyString => None
  | String a EmptyString => if Ascii.eqb a c then Some EmptyString else None
  | String a s => String a <$> strip_suffix c s
  end.

(** [s.split(c)]: always at least one piece. *)
Fixpoint split_char (c : ascii) (s : string) : list string :=
  match s with
  | EmptyString => [EmptyString]
  | String a s =>
      if Ascii.eqb a c then EmptyString :: split_char c s
      else match split_char c s with
           | [] => [String a EmptyString]
           | w :: ws => String a w :: ws
           end
  end.

(** [s.split_once(p)] for a non-empty pattern: around the first occurrence. *)
Fixpoint split_once (p s : string) : option (string * string) :=
  match strip_prefix p s with
  | Some rest => Some (EmptyString, rest)
  | None =>
      match s with
      | EmptyString => None
      | String a s =>
          match split_once p s with
          | Some (l, r) => Some (String a l, r)
          | None => None
          end
      end
  end.

Definition is_empty (s : string) : bool :=
  match s with EmptyString => true | _ => false end.

(** The byte [n] of a string ([as_bytes()[n]]), and the slices [s[..n]] and
    [s[n..]] at a position in range. *)
Fixpoint byte_at (n : nat) (s : string) : option ascii :=
  match s, n with
  | EmptyString, _ => None
  | String a _, O => Some a
  | String _ s, S n => byte_at n s
  end.

Fixpoint str_take (n : nat) (s : string) : string :=
  match n, s with
  | S n, String a s => String a (str_take n s)
  | _, _ => EmptyString
  end.

Fixpoint str_drop (n : nat) (s : string) : string :=
  match n, s with
  | S n, String _ s => str_drop n s
  | _, _ => s
  end.

(** ** [split_whitespace]

    The separators are the code points with the Unicode [White_Space]
    property; [ws_len s] is the number of bytes of the one [s] begins with. *)
Definition byte_in (lo hi : N) (a : ascii) : bool :=
  ((lo <=? N_of_ascii a) && (N_of_ascii a <=? hi))%N.

Definition ws_len (s : string) : nat :=
  match s with
  | String a s1 =>
      if byte_in 9 13 a || byte_in 32 32 a then 1
      else match s1 with
      | String b s2 =>
          if byte_in 194 194 a && (byte_in 133 133 b || byte_in 160 160 b) then 2
          else match s2 with
          | String c _ =>
              if byte_in 225 225 a && byte_in 154 154 b && byte_in 128 128 c then 3
              else if byte_in 226 226 a && byte_in 128 128 b &&
                      (byte_in 128 138 c || byte_in 168 169 c || byte_in 175 175 c) then 3
              else if byte_in 226 226 a && byte_in 129 129 b && byte_in 159 159 c then 3
              else if byte_in 227 227 a && byte_in 128 128 b && byte_in 128 128 c then 3
              else 0
          | EmptyString => 0
          end
      | EmptyString => 0
      end
  | EmptyString => 0
  end.

(** Words in order, the empty ones left out; [skip] counts the bytes of a
    separator still to be passed over. *)
Fixpoint words_go (skip : nat) (cur : string) (s : string) : list string :=
  let flush := if is_empty cur then [] else [cur] in
  match s with
  | EmptyString => flush
  | String a s' =>
      match skip with
      | S k => words_go k cur s'
      | O =>
          match ws_len s with
          | O => words_go 0 (cur ++ String a EmptyString) s'
          | S k => flush ++ words_go k EmptyString s'
          end
      end
  end%list.

Definition split_whitespace (s : string) : list string := words_go 0 EmptyString s.

(** ** [str::trim] *)

Fixpoint trim_start_go (skip : nat) (s : string) : string :=
  match s with
  | EmptyString => EmptyString
  | String _ s' =>
      match skip with
      | S k => trim_start_go k s'
      | O => match ws_len s with O => s | S k => trim_start_go k s' end
      end
  end.

Fixpoint all_ws_go (skip : nat) (s : string) : bool :=
  match s with
  | EmptyString => true
  | String _ s' =>
      match skip with
      | S k => all_ws_go k s'
      | O => match ws_len s with O => false | S k => all_ws_go k s' end
      end
  end.

Fixpoint trim_end (s : string) : string :=
  if all_ws_go 0 s then EmptyString
  else match s with
       | EmptyString => EmptyString
       | String a s => String a (trim_end s)
       end.

Definition trim (s : string) : string := trim_end (trim_start_go 0 s).

(** ** [eq_ignore_ascii_case] *)

Definition to_lower (a : ascii) : ascii :=
  if byte_in 65 90 a then ascii_of_N (N_of_ascii a + 32) else a.

Fixpoint eq_ignore_case (a b : string) : bool :=
  match a, b with
  | EmptyString, EmptyString => true
  | String x a, String y b => Ascii.eqb (to_lower x) (to_lower y) && eq_ignore_case a b
  | _, _ => false
  end.

(** ** Decimal [u32] *)

(** [format!("{n}")]. *)
Definition fmt_N (n : N) : string := NilZero.string_of_uint (N.to_uint n).

(** The same of an [i64]. *)
Definition fmt_i64 (z : Z) : string :=
  if (z <? 0)%Z then ("-" ++ fmt_N (Z.to_N (- z)))%string else fmt_N (Z.to_N z).

(** [s.parse::<u32>().ok()] and the like: an optional [+], at least one digit,
    no overflow. *)
Definition parse_uint (max : N) (s : string) : option N :=
  let digits := match s with
                | String "+" rest => rest
                | _ => s
                end in
  if is_empty digits then None
  else match NilEmpty.uint_of_string digits with
       | Some d => if (N.of_uint d <=? max)%N then Some (N.of_uint d) else None
       | None => None
       end.

Definition parse_u32 : string -> option N := parse_uint u32_max.
Definition parse_u64 : string -> option N := parse_uint u64_max.

(** ** Lemmas *)

Lemma str_app_assoc (a b c : string) : (a ++ b) ++ c = a ++ (b ++ c).
Proof. induction a as [|x a IH]; simpl; [done|by rewrite IH]. Qed.

Lemma str_app_nil_r (a : string) : a ++ "" = a.
Proof. induction a as [|x a IH]; simpl; [done|by rewrite IH]. Qed.

Lemma strip_prefix_Some p s rest : strip_prefix p s = Some rest <-> s = p ++ rest.
Proof.
  revert s; induction p as [|a p IH]; intros s; simpl; [split; congruence|].
  destruct s as [|b s]; [done|]. destruct (Ascii.eqb_spec a b) as [->|Hne].
  - rewrite IH. split; congruence.
  - split; congruence.
Qed.

Lemma starts_with_app p s : starts_with p (p ++ s) = true.
Proof. unfold starts_with. by rewrite (proj2 (strip_prefix_Some p _ s) eq_refl). Qed.

Lemma contains_app_r p s t : contains p t = true -> contains p (s ++ t) = true.
Proof. induction s as [|a s IH]; simpl; [done|]. intros H. by rewrite IH, orb_true_r. Qed.

Lemma contains_start p s : contains p (p ++ s) = true.
Proof.
  pose proof (starts_with_app p s) as H. destruct (p ++ s); simpl; by rewrite H.
Qed.

(** The concatenation of pieces, each followed by the separator, undone. *)
Fixpoint no_char (c : ascii) (s : string) : bool :=
  match s with
  | EmptyString => true
  | String a s => negb (Ascii.eqb a c) && no_char c s
  end.

Lemma no_char_app c a b : no_char c (a ++ b) = no_char c a && no_char c b.
Proof. induction a as [|x a IH]; simpl; [done|]. by rewrite IH, andb_assoc. Qed.

Lemma split_char_ne c s : split_char c s <> [].
Proof. destruct s as [|a s]; simpl; [done|]. destruct (Ascii.eqb a c); [done|]. by destruct (split_char c s). Qed.

Lemma split_char_app c w s :
  no_char c w = true -> split_char c (w ++ String c s) = w :: split_char c s.
Proof.
  induction w as [|a w IH]; simpl; intros H.
  - by rewrite Ascii.eqb_refl.
  - apply andb_true_iff in H as [H1 H2]. apply negb_true_iff in H1.
    by rewrite H1, IH.
Qed.

Lemma split_char_single c w : no_char c w = true -> split_char c w = [w].
Proof.
  induction w as [|a w IH]; simpl; intros H; [done|].
  apply andb_true_iff in H as [H1 H2]. apply negb_true_iff in H1. by rewrite H1, IH.
Qed.

(** [split] loses nothing: joining the pieces gives the string back. *)
Fixpoint join (sep : string) (ws : list string) : string :=
  match ws with
  | [] => EmptyString
  | [w] => w
  | w :: ws => w ++ sep ++ join sep ws
  end.

Lemma join_cons sep w ws : ws <> [] -> join sep (w :: ws) = w ++ sep ++ join sep ws.
Proof. by destruct ws. Qed.

Lemma join_split c s : join (String c "") (split_char c s) = s.
Proof.
  induction s as [|a s IH]; simpl; [done|].
  destruct (Ascii.eqb_spec a c) as [->|Hne].
  - rewrite join_cons by apply split_char_ne. simpl. by rewrite IH.
  - pose proof (split_char_ne c s) as Hn. destruct (split_char c s) as [|w ws]; [done|].
    destruct ws; simpl in *; by rewrite IH.
Qed.

Lemma split_char_no_char c s : Forall (fun w => no_char c w = true) (split_char c s).
Proof.
  induction s as [|a s IH]; simpl; [by repeat constructor|].
  destruct (Ascii.eqb a c) eqn:E; [by constructor|].
  destruct (split_char c s) as [|w ws]; [by repeat constructor; simpl; rewrite E|].
  inversion IH; subst. constructor; [|done]. simpl. by rewrite E.
Qed.

(** A one-byte pattern absent from [l] splits right after [l]. *)
Lemma split_join_id c ws :
  ws <> [] -> Forall (fun w => no_char c w = true) ws -> split_char c (join (String c "") ws) = ws.
Proof.
  intros Hne Hf. induction Hf as [|w ws Hw Hf IH]; [done|]. destruct ws as [|w' ws].
  - by apply split_char_single.
  - rewrite join_cons by done. cbn [String.append]. rewrite split_char_app by done. by rewrite IH.
Qed.

Lemma split_once_char c l r :
  no_char c l = true -> split_once (String c "") (l ++ String c r) = Some (l, r).
Proof.
  induction l as [|a l IH]; simpl; intros H; [by rewrite Ascii.eqb_refl|].
  apply andb_true_iff in H as [H1 H2]. apply negb_true_iff in H1.
  rewrite Ascii.eqb_sym, H1. by rewrite IH.
Qed.

Lemma split_once_char_None c l : no_char c l = true -> split_once (String c "") l = None.
Proof.
  induction l as [|a l IH]; simpl; intros H; [done|].
  apply andb_true_iff in H as [H1 H2]. apply negb_true_iff in H1.
  rewrite Ascii.eqb_sym, H1. by rewrite IH.
Qed.

Lemma split_once_sound c s l r :
  split_once (String c "") s = Some (l, r) -> s = l ++ String c r /\ no_char c l = true.
Proof.
  revert l. induction s as [|a s IH]; intros l; simpl; [done|].
  destruct (Ascii.eqb_spec c a) as [->|Hne]; [by intros [= <- <-]|].
  destruct (split_once _ s) as [[l' r']|] eqn:E; [|done]. intros [= <- ->].
  destruct (IH l' eq_refl) as [-> H]. simpl. split; [done|]. by rewrite (proj2 (Ascii.eqb_neq a c)) by congruence.
Qed.

Lemma split_once_None c s : split_once (String c "") s = None -> no_char c s = true.
Proof.
  induction s as [|a s IH]; simpl; [done|]. rewrite Ascii.eqb_sym.
  destruct (Ascii.eqb a c); [done|]. destruct (split_once _ s) as [ []|]; [done|]. by intros ?%IH.
Qed.

Lemma no_char_join c a b x :
  no_char c (a ++ String x b) = true -> no_char c a = true /\ no_char c b = true.
Proof. rewrite no_char_app. simpl. intros [? [_ ?]%andb_true_iff]%andb_true_iff. done. Qed.

(** *** [trim] leaves text alone that has no whitespace byte at its ends *)

Fixpoint str_forall (p : ascii -> bool) (s : string) : bool :=
  match s with
  | EmptyString => true
  | String a s => p a && str_forall p s
  end.

(** The printable ASCII bytes other than the space. *)
Definition graphic (a : ascii) : bool := byte_in 33 126 a.

Lemma graphic_not lo hi a :
  graphic a = true -> ((hi < 33)%N \/ (126 < lo)%N) -> byte_in lo hi a = false.
Proof.
  unfold graphic, byte_in. intros H Hr. bool_to_prop. apply andb_false_iff.
  rewrite !N.leb_gt. lia.
Qed.

Ltac graphic_ws H :=
  cbn [ws_len String.append String.length];
  repeat (rewrite (graphic_not _ _ _ H) by (first [left; done|right; done]));
  rewrite ?andb_false_r, ?andb_false_l, ?orb_false_r; repeat case_match; first [done|lia].

Lemma graphic_ws_len a s : graphic a = true -> ws_len (String a s) = 0.
Proof. intros H. graphic_ws H. Qed.

Lemma trim_start_graphic a s : graphic a = true -> trim_start_go 0 (String a s) = String a s.
Proof. intros H. cbn [trim_start_go]. by rewrite (graphic_ws_len a s H). Qed.

(** No whitespace character ends in a graphic byte. *)
Lemma ws_len_graphic t a : graphic a = true -> ws_len (t ++ String a "") <= String.length t.
Proof.
  intros H. destruct t as [|b [|c [|d t] ] ]; graphic_ws H.
Qed.

Lemma all_ws_graphic t a k :
  graphic a = true -> k <= String.length t -> all_ws_go k (t ++ String a "") = false.
Proof.
  intros H. revert k. induction t as [|b t IH]; intros k Hk; simpl in Hk.
  - replace k with 0 by lia. cbn [String.append all_ws_go].
    by rewrite (graphic_ws_len a "" H).
  - cbn [String.append all_ws_go]. destruct k as [|k]; [|apply IH; lia].
    pose proof (ws_len_graphic (String b t) a H) as Hw. cbn [String.append] in Hw.
    destruct (ws_len _) as [|k]; [done|]. apply IH. simpl in Hw. lia.
Qed.

Lemma trim_end_graphic s a :
  graphic a = true -> trim_end (s ++ String a "") = s ++ String a "".
Proof.
  intros H. induction s as [|b s IH]; cbn [String.append trim_end].
  - pose proof (all_ws_graphic "" a 0 H (le_n 0)) as E. cbn [String.append] in E. by rewrite E.
  - pose proof (all_ws_graphic (String b s) a 0 H ltac:(simpl; lia)) as E.
    cbn [String.append] in E. by rewrite E, IH.
Qed.

Lemma str_last s : s <> "" -> exists t a, s = t ++ String a "".
Proof.
  induction s as [|a s IH]; [done|]. intros _. destruct s as [|b s]; [by exists "", a|].
  destruct IH as (t & c & ->); [done|]. by exists (String a t), c.
Qed.

Lemma str_forall_app p a b : str_forall p (a ++ b) = str_forall p a && str_forall p b.
Proof. induction a as [|x a IH]; simpl; [done|]. by rewrite IH, andb_assoc. Qed.

Lemma trim_graphic s : str_forall graphic s = true -> trim s = s.
Proof.
  intros H. unfold trim. destruct s as [|a s]; [done|].
  rewrite trim_start_graphic by (by simpl in H; apply andb_true_iff in H as [H _]).
  destruct (str_last (String a s)) as (t & b & E); [done|]. rewrite E in *.
  apply trim_end_graphic. rewrite str_forall_app in H. apply andb_true_iff in H as [_ H].
  simpl in H. by rewrite andb_true_r in H.
Qed.

(** *** Decimal round trip *)

Lemma fmt_N_eq n : fmt_N n = NilEmpty.string_of_uint (N.to_uint n).
Proof.
  unfold fmt_N. destruct (N.to_uint n) eqn:E; try done.
  pose proof (f_equal N.of_uint E) as E0. rewrite DecimalN.Unsigned.of_to in E0.
  simpl in E0. by subst.
Qed.

Lemma digits_chars d :
  forall c, (N_of_ascii c < 48)%N -> no_char c (NilEmpty.string_of_uint d) = true.
Proof.
  induction d; intros c Hc; [done|..]; cbn [NilEmpty.string_of_uint no_char];
    rewrite IHd by done; rewrite andb_true_r;
    apply negb_true_iff, Ascii.eqb_neq; intros <-; vm_compute in Hc; discriminate Hc.
Qed.

Lemma fmt_N_no_char n c : (N_of_ascii c < 48)%N -> no_char c (fmt_N n) = true.
Proof. rewrite fmt_N_eq. apply digits_chars. Qed.

Lemma fmt_N_nonempty n : is_empty (fmt_N n) = false.
Proof. unfold fmt_N. by destruct (N.to_uint n). Qed.

Lemma parse_fmt max n : (n <= max)%N -> parse_uint max (fmt_N n) = Some n.
Proof.
  intros Hn. unfold parse_uint.
  pose proof (fmt_N_no_char n "+" ltac:(done)) as Hp.
  assert (match fmt_N n with String "+" rest => rest | _ => fmt_N n end = fmt_N n) as ->.
  { destruct (fmt_N n) as [|a s]; [done|]. cbn [no_char] in Hp.
    apply andb_true_iff in Hp as [Hp _]. apply negb_true_iff, Ascii.eqb_neq in Hp.
    destruct a as [[][][][][][][][]]; done. }
  rewrite fmt_N_nonempty, fmt_N_eq, NilEmpty.usu, DecimalN.Unsigned.of_to.
  by rewrite (proj2 (N.leb_le _ _) Hn).
Qed.

Lemma parse_fmt_u32 n : (n <= u32_max)%N -> parse_u32 (fmt_N n) = Some n.
Proof. apply parse_fmt. Qed.

Lemma parse_u32_bound s n : parse_u32 s = Some n -> (n <= u32_max)%N.
Proof.
  unfold parse_u32, parse_uint. destruct (is_empty _); [done|]. destruct (DecimalString.NilEmpty.uint_of_string _); [|done].
  destruct (_ <=? _)%N eqn:E; [|done]. intros [= <-]. by apply N.leb_le.
Qed.

Lemma strip_suffix_app c s : strip_suffix c (s ++ String c "") = Some s.
Proof.
  induction s as [|a s IH]; simpl; [by rewrite Ascii.eqb_refl|].
  rewrite IH. by destruct s.
Qed.

Global Arguments strip_prefix : simpl never.
Global Arguments starts_with : simpl never.
Global Arguments split_once : simpl never.
Global Arguments contains : simpl never.
Global Arguments fmt_N : simpl never.
