(* ===== verification/RustText.v ===== *)
(** * Lines, whitespace and case of a text

    The [str] methods the readers of textual formats use beside [RustStr]:
    [lines], [split_once] at whitespace, the trimming methods and ASCII case
    folding, with the lemmas on what trimming removes. *)
From Stdlib Require Import Ascii String.
From S2P Require Import Prelude RustStr.
Local Open Scope list_scope.
Local Open Scope string_scope.

Definition newline : ascii := "010"%char.
Definition carriage_return : ascii := "013"%char.
Definition unit_separator : ascii := "031"%char.
Definition ch (a : ascii) : string := String a EmptyString.

(** ** [str] methods *)

Definition trim_start (s : string) : string := trim_start_go 0 s.

(** [s.split_once(char::is_whitespace)]. *)
Fixpoint split_ws (s : string) : option (string * string) :=
  match s with
  | EmptyString => None
  | String a s' =>
      match ws_len s with
      | O => match split_ws s' with Some (l, r) => Some (String a l, r) | None => None end
      | S k => Some (EmptyString, str_drop k s')
      end
  end.

(** [s.trim_end_matches(c)] for a one-byte [char]. *)
Fixpoint trim_end_matches (c : ascii) (s : string) : string :=
  match s with
  | EmptyString => EmptyString
  | String a s' =>
      let t := trim_end_matches c s' in
      if is_empty t && Ascii.eqb a c then EmptyString else String a t
  end.

(** [s.split_terminator('\n')]. *)
Definition split_terminator (s : string) : list string :=
  let ps := split_char newline s in
  match last ps with
  | Some EmptyString => removelast ps
  | _ => ps
  end.

(** [s.lines()]: a carriage return before a newline goes with it; the last
    piece has no newline after it. *)
Fixpoint lines_go (ps : list string) : list string :=
  match ps with
  | [] => []
  | [p] => if is_empty p then [] else [p]
  | p :: ps => default p (strip_suffix carriage_return p) :: lines_go ps
  end.

Definition lines (s : string) : list string := lines_go (split_char newline s).

(** [s.to_ascii_lowercase()]. *)
Fixpoint to_ascii_lowercase (s : string) : string :=
  match s with
  | EmptyString => EmptyString
  | String a s => String (to_lower a) (to_ascii_lowercase s)
  end.

(** ** Whitespace at the ends of a text *)

Lemma ws_len_app s t : ws_len s <> 0 -> ws_len (s ++ t) = ws_len s.
Proof.
  intros H. destruct s as [|a [|b [|c s] ] ]; [done|..]; revert H; cbn [String.append ws_len].
  - destruct (_ || _); done.
  - destruct (byte_in 9 13 a || _); [done|]. by destruct (_ && _).
  - done.
Qed.

(** A byte below 128 continues no character. *)
Definition is_ascii (a : ascii) : bool := byte_in 0 127 a.

Lemma ascii_not lo hi a : is_ascii a = true -> (127 < lo)%N -> byte_in lo hi a = false.
Proof.
  unfold is_ascii, byte_in. intros H Hr. bool_to_prop. apply andb_false_iff. rewrite N.leb_gt. lia.
Qed.

Lemma ws_len_ascii s a t :
  s <> "" -> is_ascii a = true -> ws_len (s ++ String a t) = ws_len s.
Proof.
  intros Hs Ha. destruct s as [|b [|c [|d s] ] ]; [done|..]; cbn [String.append ws_len].
  - rewrite !(ascii_not _ _ a Ha) by done. rewrite !andb_false_r. simpl.
    destruct (_ || _); [done|]. by destruct t.
  - destruct (_ || _); [done|]. destruct (_ && _); [done|].
    by rewrite !(ascii_not _ _ a Ha), !andb_false_r by done.
  - done.
Qed.

Lemma ws_len_ascii_le s a t :
  s <> "" -> is_ascii a = true -> ws_len (s ++ String a t) <= String.length s.
Proof.
  intros Hs Ha. rewrite ws_len_ascii by done. destruct s as [|b [|c [|d s] ] ]; [done|..]; simpl;
    repeat case_match; lia.
Qed.

Lemma ws_len_le s : ws_len s <= String.length s.
Proof. destruct s as [|b [|c [|d s] ] ]; simpl; repeat case_match; lia. Qed.

(** No non-empty end of the text is all whitespace. *)
Definition ends_clean (s : string) : Prop :=
  forall x y, s = x ++ y -> y <> "" -> all_ws_go 0 y = false.

Definition trimmed (s : string) : Prop := ends_clean s /\ ws_len s = 0.

Lemma ends_clean_nil : ends_clean "".
Proof. intros [|] [|]; simpl; congruence. Qed.

Lemma ends_clean_cons a s :
  all_ws_go 0 (String a s) = false -> ends_clean s -> ends_clean (String a s).
Proof.
  intros H Hs [|b x] y E Hy; simpl in E; [by subst|]. injection E as -> ->. by apply (Hs x y).
Qed.

Lemma ends_clean_suffix x y : ends_clean (x ++ y) -> ends_clean y.
Proof. intros H x' y' -> Hy. apply (H (x ++ x') y'); [by rewrite str_app_assoc|done]. Qed.

Lemma trim_end_id s : ends_clean s -> trim_end s = s.
Proof.
  induction s as [|a s IH]; intros H; [done|]. cbn [trim_end].
  rewrite (H "" (String a s)) by done. f_equal. apply IH. by apply (ends_clean_suffix (String a "")).
Qed.

Lemma all_ws_app u z k :
  all_ws_go k u = true -> k <= String.length u -> all_ws_go 0 z = true ->
  all_ws_go k (u ++ z) = true.
Proof.
  revert k. induction u as [|a u IH]; intros k Hu Hk Hz; simpl in Hk.
  - by replace k with 0 by lia.
  - cbn [String.append all_ws_go] in *. destruct k as [|k]; [|apply IH; [done|lia|done] ].
    pose proof (ws_len_le (String a u)) as Hl. cbn [String.length] in Hl.
    pose proof (ws_len_app (String a u) z) as Ha. cbn [String.append] in Ha.
    destruct (ws_len (String a u)) as [|k] eqn:E; [done|]. rewrite Ha by done.
    apply IH; [done|lia|done].
Qed.

(** What [trim_end] cuts off is whitespace, and nothing is left to cut. *)
Lemma trim_end_split s : exists z, s = trim_end s ++ z /\ all_ws_go 0 z = true.
Proof.
  induction s as [|a s IH]; [by exists ""|]. cbn [trim_end].
  destruct (all_ws_go 0 (String a s)) eqn:E; [by exists (String a s)|].
  destruct IH as (z & Hz & Hw). exists z. split; [|done]. simpl. by rewrite <- Hz.
Qed.

Lemma trim_end_clean s : ends_clean (trim_end s).
Proof.
  induction s as [|a s IH]; [apply ends_clean_nil|]. cbn [trim_end].
  destruct (all_ws_go 0 (String a s)) eqn:E; [apply ends_clean_nil|].
  apply ends_clean_cons; [|done]. apply not_true_iff_false. intros H.
  destruct (trim_end_split s) as (z & Hz & Hw).
  apply (all_ws_app _ z 0) in H; [|simpl; lia|done]. cbn [String.append] in H. rewrite <- Hz in H. congruence.
Qed.

Lemma trim_start_go_spec s k :
  exists x, s = x ++ trim_start_go k s /\ ws_len (trim_start_go k s) = 0.
Proof.
  revert k. induction s as [|a s IH]; intros k; [by exists ""|]. cbn [trim_start_go].
  destruct k as [|k].
  - destruct (ws_len (String a s)) as [|k] eqn:E; [by exists ""|].
    destruct (IH k) as (x & Hx & Hw). exists (String a x). simpl. by rewrite <- Hx.
  - destruct (IH k) as (x & Hx & Hw). exists (String a x). simpl. by rewrite <- Hx.
Qed.

Lemma trim_start_spec s : exists x, s = x ++ trim_start s /\ ws_len (trim_start s) = 0.
Proof. apply trim_start_go_spec. Qed.

Lemma trim_start_id s : ws_len s = 0 -> trim_start s = s.
Proof. unfold trim_start. destruct s as [|a s]; [done|]. cbn [trim_start_go]. by intros ->. Qed.

Lemma trim_trimmed s : trimmed (trim s).
Proof.
  split; [apply trim_end_clean|]. unfold trim.
  destruct (trim_start_spec s) as (_ & _ & Hw). fold (trim_start s).
  destruct (trim_end_split (trim_start s)) as (z & Hz & _).
  destruct (decide (ws_len (trim_end (trim_start s)) = 0)) as [|Hn]; [done|].
  rewrite Hz, ws_len_app in Hw; done.
Qed.

Lemma trim_id s : trimmed s -> trim s = s.
Proof.
  intros [Hc Hw]. unfold trim. fold (trim_start s). rewrite trim_start_id by done.
  by apply trim_end_id.
Qed.

Lemma trimmed_start x y : ends_clean (x ++ y) -> trimmed (trim_start y).
Proof.
  intros H. destruct (trim_start_spec y) as (z & Hz & Hw). split; [|done].
  apply (ends_clean_suffix (x ++ z)). by rewrite str_app_assoc, <- Hz.
Qed.

(** ** Words *)

Lemma split_ws_None_cons a s :
  split_ws (String a s) = None <-> ws_len (String a s) = 0 /\ split_ws s = None.
Proof.
  cbn [split_ws]. destruct (ws_len (String a s)); [|by split; [|intros []] ].
  destruct (split_ws s) as [ [] |]; split; try done; by intros [].
Qed.

Lemma no_ws_len s : split_ws s = None -> ws_len s = 0.
Proof. destruct s as [|a s]; [done|]. by intros [? _]%split_ws_None_cons. Qed.

Lemma no_ws_clean s : split_ws s = None -> ends_clean s.
Proof.
  induction s as [|a s IH]; intros H; [apply ends_clean_nil|].
  apply split_ws_None_cons in H as [Hw Hs]. apply ends_clean_cons; [|by apply IH].
  cbn [all_ws_go]. by rewrite Hw.
Qed.

(** A word, a space and the rest split again at the space. *)
Lemma split_ws_join l r : split_ws l = None -> split_ws (l ++ String " " r) = Some (l, r).
Proof.
  induction l as [|a l IH]; intros H; [done|].
  apply split_ws_None_cons in H as [Hw Hl]. cbn [String.append split_ws].
  pose proof (ws_len_ascii (String a l) " " r ltac:(done) eq_refl) as E.
  cbn [String.append] in E. by rewrite E, Hw, (IH Hl).
Qed.

Lemma str_take_drop k s : str_take k s ++ str_drop k s = s.
Proof. revert s. induction k as [|k IH]; intros [|a s]; simpl; [done..|]. by rewrite IH. Qed.

Lemma split_ws_Some s l r :
  split_ws s = Some (l, r) -> (exists w, s = l ++ w ++ r) /\ split_ws l = None.
Proof.
  revert l. induction s as [|a s IH]; intros l; [done|]. cbn [split_ws].
  destruct (ws_len (String a s)) as [|k] eqn:E.
  - destruct (split_ws s) as [ [l' r'] |]; [|done]. intros [= <- <-].
    destruct (IH l' eq_refl) as [ [w ->] Hl]. split; [by exists w|].
    apply split_ws_None_cons. split; [|done].
    destruct (decide (ws_len (String a l') = 0)) as [|Hn]; [done|].
    pose proof (ws_len_app (String a l') (w ++ r') Hn) as Ha. cbn [String.append] in Ha. congruence.
  - intros [= <- <-]. split; [|done]. exists (String a (str_take k s)). simpl.
    by rewrite str_take_drop.
Qed.

Lemma split_ws_Some_ne s l r : split_ws s = Some (l, r) -> ws_len s = 0 -> l <> "".
Proof.
  destruct s as [|a s]; [done|]. cbn [split_ws]. intros H Hw. rewrite Hw in H.
  destruct (split_ws s) as [ [] |]; [|done]. by injection H as <- _.
Qed.

(** A clean text after a space leaves the whole clean. *)
Lemma all_ws_space x y k :
  k <= String.length x -> all_ws_go 0 y = false -> all_ws_go k (x ++ String " " y) = false.
Proof.
  intros Hk Hy. revert k Hk. induction x as [|a x IH]; intros k Hk; simpl in Hk.
  - replace k with 0 by lia. done.
  - cbn [String.append all_ws_go]. destruct k as [|k]; [|apply IH; lia].
    pose proof (ws_len_ascii_le (String a x) " " y ltac:(done) eq_refl) as Hl.
    cbn [String.append String.length] in Hl.
    destruct (ws_len (String a (x ++ String " " y))) as [|k]; [done|]. apply IH. lia.
Qed.

Lemma ends_clean_space x y : ends_clean y -> y <> "" -> ends_clean (x ++ String " " y).
Proof.
  intros Hy Hn. induction x as [|a x IH]; cbn [String.append]; apply ends_clean_cons; try done.
  - apply (all_ws_space "" y 0); [simpl; lia|]. by apply (Hy "" y).
  - apply (all_ws_space (String a x) y 0); [simpl; lia|]. by apply (Hy "" y).
Qed.

(** ** Line endings *)

Lemma tem_last c s : trim_end_matches c s = s <-> forall x, s <> x ++ String c "".
Proof.
  induction s as [|a s IH].
  - split; [|done]. intros _ [|]; done.
  - cbn [trim_end_matches]. destruct s as [|b s].
    + simpl. destruct (Ascii.eqb_spec a c) as [->|Hne].
      * split; [done|]. intros H. by destruct (H "").
      * split; [|done]. intros _ [|d [|] ]; simpl; congruence.
    + assert (trim_end_matches c (String b s) = String b s <->
        (if is_empty (trim_end_matches c (String b s)) && Ascii.eqb a c then ""
         else String a (trim_end_matches c (String b s))) = String a (String b s)) as <-.
      { destruct (trim_end_matches c (String b s)) eqn:E; simpl.
        - destruct (Ascii.eqb a c); split; intros; congruence.
        - split; intros; congruence. }
      rewrite IH. split.
      * intros H [|d x] E; simpl in E; [congruence|]. injection E as _ E. by apply (H x).
      * intros H x E. apply (H (String a x)). simpl. by rewrite E.
Qed.

Lemma strip_suffix_Some c s t : strip_suffix c s = Some t -> s = t ++ String c "".
Proof.
  revert t. induction s as [|a s IH]; intros t; [done|]. cbn [strip_suffix].
  destruct s as [|b s].
  - destruct (Ascii.eqb_spec a c) as [->|]; [|done]. by intros [= <-].
  - destruct (strip_suffix c (String b s)) as [u|]; [|done]. intros [= <-].
    simpl. by rewrite <- (IH u eq_refl).
Qed.

Lemma tem_no_suffix c s : trim_end_matches c s = s -> strip_suffix c s = None.
Proof.
  intros H. destruct (strip_suffix c s) as [t|] eqn:E; [|done].
  apply strip_suffix_Some in E. by apply (proj1 (tem_last c s) H t) in E.
Qed.

Lemma clean_no_cr s : ends_clean s -> trim_end_matches carriage_return s = s.
Proof. intros H. apply tem_last. intros x E. by pose proof (H x _ E ltac:(done)). Qed.

Lemma tem_prefix c s : exists z, s = trim_end_matches c s ++ z.
Proof.
  induction s as [|a s [z Hz] ]; [by exists ""|]. cbn [trim_end_matches].
  destruct (_ && _); [by exists (String a s)|]. exists z. simpl. by rewrite <- Hz.
Qed.

Lemma tem_idem c s : trim_end_matches c (trim_end_matches c s) = trim_end_matches c s.
Proof.
  apply tem_last. induction s as [|a s IH]; [by intros [|] |]. cbn [trim_end_matches].
  destruct (trim_end_matches c s) as [|b t] eqn:E; simpl.
  - destruct (Ascii.eqb_spec a c) as [->|Hne]; [by intros [|] |].
    intros [|d [|] ]; simpl; congruence.
  - intros [|d x] E'; simpl in E'; [congruence|]. injection E' as _ E'. by apply (IH x).
Qed.

Lemma lines_join (ls : list string) :
  Forall (fun l => no_char newline l = true /\ strip_suffix carriage_return l = None) ls ->
  lines (foldr (fun l s => l ++ ch newline ++ s) "" ls) = ls.
Proof.
  unfold lines. induction 1 as [|l ls [Hl Hc] _ IH]; [done|]. cbn [foldr].
  change (ch newline ++ ?s) with (String newline s). rewrite split_char_app by done.
  pose proof (split_char_ne newline (foldr (fun l s => l ++ ch newline ++ s) "" ls)) as Hne.
  destruct (split_char newline _) as [|p ps]; [done|]. cbn [lines_go].
  rewrite Hc. simpl default. f_equal. exact IH.
Qed.

Lemma lines_no_newline text l : l ∈ lines text -> no_char newline l = true.
Proof.
  unfold lines. pose proof (split_char_no_char newline text) as H.
  induction H as [|p ps Hp Hps IH]; [by intros ?%not_elem_of_nil|]. cbn [lines_go].
  destruct ps as [|q ps].
  - destruct (is_empty p); [by intros ?%not_elem_of_nil|]. by intros ->%list_elem_of_singleton.
  - intros [->|Hl]%elem_of_cons; [|by apply IH].
    destruct (strip_suffix carriage_return p) as [t|] eqn:E; [|done].
    apply strip_suffix_Some in E. subst p. rewrite no_char_app in Hp.
    by apply andb_true_iff in Hp as [? _].
Qed.

(** ** Case *)

Lemma lower_app a b :
  to_ascii_lowercase (a ++ b) = (to_ascii_lowercase a ++ to_ascii_lowercase b)%string.
Proof. induction a as [|x a IH]; simpl; [done|]. by rewrite IH. Qed.
