(* ===== verification/RustChars.v ===== *)
(** * Rust's [char]s

    [chars] decodes the UTF-8 bytes of a [str] the way [str::chars] does (it
    relies on the bytes being well formed and does not check them), [of_chars]
    encodes; the two are inverse on every sequence of scalar values. *)
From Stdlib Require Import Ascii String.
From S2P Require Import Prelude RustStr.
Local Open Scope string_scope.
Local Open Scope list_scope.
Local Open Scope N_scope.

(** The six bits a continuation byte carries. *)
Definition cont (a : ascii) : N := N_of_ascii a mod 64.

Fixpoint chars (s : string) : list N :=
  match s with
  | EmptyString => []
  | String a s1 =>
      let x := N_of_ascii a in
      if x <? 128 then x :: chars s1
      else
        match s1 with
        | EmptyString => [x]
        | String b s2 =>
            if x <? 224 then ((x mod 32) * 64 + cont b) :: chars s2
            else
              match s2 with
              | EmptyString => [x]
              | String c s3 =>
                  if x <? 240 then ((x mod 16) * 4096 + cont b * 64 + cont c) :: chars s3
                  else
                    match s3 with
                    | EmptyString => [x]
                    | String d s4 => ((x mod 8) * 262144 + cont b * 4096 + cont c * 64 + cont d) :: chars s4
                    end
              end
        end
  end.

Definition tail_byte (n : N) : ascii := ascii_of_N (128 + n mod 64).

(** [String::push]. *)
Definition push_char (c : N) (s : string) : string :=
  if c <? 128 then String (ascii_of_N c) s
  else if c <? 2048 then String (ascii_of_N (192 + c / 64)) (String (tail_byte c) s)
  else if c <? 65536 then
    String (ascii_of_N (224 + c / 4096)) (String (tail_byte (c / 64)) (String (tail_byte c) s))
  else
    String (ascii_of_N (240 + c / 262144))
      (String (tail_byte (c / 4096)) (String (tail_byte (c / 64)) (String (tail_byte c) s))).

Definition of_chars (l : list N) : string := foldr push_char EmptyString l.

(** The values a [char] can take. *)
Definition scalar (c : N) : bool := (c <? 55296) || (57344 <=? c) && (c <? 1114112).

(** [char::is_control] and [char::is_whitespace]. *)
Definition is_control (c : N) : bool := (c <? 32) || (127 <=? c) && (c <? 160).

Definition char_in (lo hi c : N) : bool := (lo <=? c) && (c <=? hi).

Definition is_whitespace (c : N) : bool :=
  char_in 9 13 c || (c =? 32) || (c =? 133) || (c =? 160) || (c =? 5760) || char_in 8192 8202 c ||
  (c =? 8232) || (c =? 8233) || (c =? 8239) || (c =? 8287) || (c =? 12288).

(** [str::trim] on the characters. *)
Fixpoint trim_chars_start (l : list N) : list N :=
  match l with
  | c :: l' => if is_whitespace c then trim_chars_start l' else l
  | [] => []
  end.

Definition trim_chars (l : list N) : list N := rev (trim_chars_start (rev (trim_chars_start l))).

(** ** Decoding what was encoded *)

#[local] Ltac Zify.zify_post_hook ::= Z.to_euclidean_division_equations.

Lemma N_of_ascii_small n : n < 256 -> N_of_ascii (ascii_of_N n) = n.
Proof. apply N_ascii_embedding. Qed.

Lemma cont_tail n : cont (tail_byte n) = n mod 64.
Proof.
  unfold cont, tail_byte. rewrite N_of_ascii_small by lia. rewrite <- N.Div0.add_mod_idemp_l. change (128 mod 64) with 0.
  rewrite N.add_0_l, N.Div0.mod_mod. done.
Qed.

Lemma digits_64 c : c = c / 64 * 64 + c mod 64.
Proof. pose proof (N.Div0.div_mod c 64). lia. Qed.

Lemma chars_push c s : scalar c = true -> chars (push_char c s) = c :: chars s.
Proof.
  unfold scalar. intros Hc. assert (c < 1114112) as Hb.
  { apply orb_true_iff in Hc as [?%N.ltb_lt|[_ ?%N.ltb_lt]%andb_true_iff]; lia. }
  clear Hc. unfold push_char.
  destruct (N.ltb_spec c 128).
  { cbn [chars]. rewrite N_of_ascii_small by lia. destruct (N.ltb_spec c 128); [done|lia]. }
  destruct (N.ltb_spec c 2048).
  { cbn [chars]. rewrite N_of_ascii_small by lia.
    destruct (N.ltb_spec (192 + c / 64) 128); [lia|]. destruct (N.ltb_spec (192 + c / 64) 224); [|lia].
    rewrite cont_tail. f_equal. replace ((192 + c / 64) mod 32) with (c / 64) by lia. lia. }
  destruct (N.ltb_spec c 65536).
  { cbn [chars]. rewrite N_of_ascii_small by lia.
    destruct (N.ltb_spec (224 + c / 4096) 128); [lia|]. destruct (N.ltb_spec (224 + c / 4096) 224); [lia|].
    destruct (N.ltb_spec (224 + c / 4096) 240); [|lia].
    rewrite !cont_tail. f_equal. replace ((224 + c / 4096) mod 16) with (c / 4096) by lia. lia. }
  cbn [chars]. rewrite N_of_ascii_small by lia.
  destruct (N.ltb_spec (240 + c / 262144) 128); [lia|]. destruct (N.ltb_spec (240 + c / 262144) 224); [lia|].
  destruct (N.ltb_spec (240 + c / 262144) 240); [lia|].
  rewrite !cont_tail. f_equal. replace ((240 + c / 262144) mod 8) with (c / 262144) by lia. lia.
Qed.

Lemma chars_of_chars l : Forall (fun c => scalar c = true) l -> chars (of_chars l) = l.
Proof. induction 1 as [|c l Hc _ IH]; simpl; [done|]. by rewrite chars_push, IH. Qed.

(** ** Trimming *)

Lemma trim_start_suffix l : exists w, l = w ++ trim_chars_start l /\ Forall (fun c => is_whitespace c = true) w.
Proof.
  induction l as [|c l (w & E & Hw)]; simpl; [by exists []|]. destruct (is_whitespace c) eqn:Hc.
  - exists (c :: w). split; [by rewrite E at 1|by constructor].
  - by exists [].
Qed.

Lemma trim_start_head l : match trim_chars_start l with c :: _ => is_whitespace c = false | [] => True end.
Proof. induction l as [|c l IH]; simpl; [done|]. by destruct (is_whitespace c) eqn:E. Qed.

Lemma trim_start_fixed l :
  match l with c :: _ => is_whitespace c = false | [] => True end -> trim_chars_start l = l.
Proof. destruct l as [|c l]; simpl; [done|]. by intros ->. Qed.

Definition trimmed_chars (l : list N) : Prop := trim_chars_start l = l /\ trim_chars_start (rev l) = rev l.

Lemma trim_chars_fixed l : trimmed_chars l -> trim_chars l = l.
Proof. unfold trim_chars. intros [-> ->]. apply rev_involutive. Qed.

Lemma trim_chars_parts l :
  exists w1 w2, l = w1 ++ trim_chars l ++ w2 /\
    Forall (fun c => is_whitespace c = true) w1 /\ Forall (fun c => is_whitespace c = true) w2.
Proof.
  unfold trim_chars. destruct (trim_start_suffix l) as (w1 & E1 & H1).
  destruct (trim_start_suffix (rev (trim_chars_start l))) as (w2 & E2 & H2).
  exists w1, (rev w2). rewrite <- rev_app_distr, <- E2, rev_involutive. split; [done|]. split; [done|]. by apply Forall_rev.
Qed.

Lemma trim_chars_trimmed l : trimmed_chars (trim_chars l).
Proof.
  split.
  - destruct (trim_chars l) as [|c m] eqn:E; [done|]. apply trim_start_fixed.
    pose proof (trim_start_head l) as Hh. unfold trim_chars in E.
    destruct (trim_start_suffix (rev (trim_chars_start l))) as (w2 & E2 & H2).
    apply (f_equal (@rev N)) in E2. rewrite rev_involutive, rev_app_distr, E in E2. by rewrite E2 in Hh.
  - unfold trim_chars. rewrite rev_involutive. apply trim_start_fixed, trim_start_head.
Qed.
