(* ===== verification/Center.v ===== *)
(** * The center pane tree

    Model of [crates/thegn-host/src/center.rs] and of the [Rect] of
    [compositor.rs]: each tab owns a [CenterTree] of tiled splits and stacks,
    which the compositor lays out to cell rectangles and the user splits,
    closes, resizes, swaps and re-anchors.  A method taking [&mut self] returns
    the new tree beside its Rust result; a [panic!] is [None]. *)

From S2P Require Import Prelude RustFloat.
From Stdlib Require Import SpecFloat.

(** ** Geometry *)
Record Rect := mkRect { rect_x : N; rect_y : N; rect_cols : N; rect_rows : N }.

Definition Rect_contains (r : Rect) (x y : N) : bool :=
  ((rect_x r <=? x) && (x <? rect_x r + rect_cols r) &&
   (rect_y r <=? y) && (y <? rect_y r + rect_rows r))%N.

Definition Rect_full (cols rows : N) : Rect := mkRect 0 0 cols rows.

#[export] Instance Rect_eq_dec : EqDecision Rect.
Proof. solve_decision. Defined.

(** ** The tree *)
Abbreviation PaneId := N.

Inductive Dir := Row | Col.

#[export] Instance Dir_eq_dec : EqDecision Dir.
Proof. solve_decision. Defined.

Inductive CenterTree :=
| Leaf (p : PaneId)
| Split (dir : Dir) (children : list Branch)
| Stack (panes : list PaneId) (active : nat)
with Branch := mkBranch (weight : f32) (child : CenterTree).

Definition weight (b : Branch) : f32 := let 'mkBranch w _ := b in w.
Definition child (b : Branch) : CenterTree := let 'mkBranch _ c := b in c.

Definition STACK_MIN_EXPANDED_ROWS : N := 4.

(** The induction principle over the children of a split. *)
Section TreeInd.
Context (P : CenterTree -> Prop).
Hypothesis HLeaf : forall p, P (Leaf p).
Hypothesis HStack : forall panes active, P (Stack panes active).
Hypothesis HSplit : forall dir children,
  Forall (fun b => P (child b)) children -> P (Split dir children).

Fixpoint CenterTree_ind' (t : CenterTree) : P t :=
  match t with
  | Leaf p => HLeaf p
  | Stack panes active => HStack panes active
  | Split dir children =>
      HSplit dir children
        ((fix go (bs : list Branch) : Forall (fun b => P (child b)) bs :=
            match bs with
            | [] => Forall_nil_2 _
            | mkBranch w c :: bs' =>
                Forall_cons_2 _ (mkBranch w c) bs' (CenterTree_ind' c) (go bs')
            end) children)
  end.
End TreeInd.

Definition single (pane : PaneId) : CenterTree := Leaf pane.

(** ** Layout *)

(** The effective divisor of a split: the sum of the non-negative weights, or
    the number of children when that sum is not positive. *)
Definition split_total (children : list Branch) : f32 :=
  let total := F32.sum (map (fun b => fmax (weight b) F32.zero) children) in
  if SFleb total F32.zero
  then F32.of_usize (N.of_nat (length children)) else total.

(** The share of one child that is not the last one, before clamping. *)
Definition split_share (total w : f32) (extent : N) : N :=
  let w := if SFleb total F32.zero then F32.one else fmax w F32.zero in
  float_to_usize (F32.round (F32.mul (F32.div w total) (F32.of_usize extent))).

Definition split_extent (dir : Dir) (rect : Rect) : N :=
  match dir with Row => rect_cols rect | Col => rect_rows rect end.

Definition child_rect (dir : Dir) (rect : Rect) (offset size : N) : Rect :=
  match dir with
  | Row => mkRect (rect_x rect + offset) (rect_y rect) size (rect_rows rect)
  | Col => mkRect (rect_x rect) (rect_y rect + offset) (rect_cols rect) size
  end.

(** The bars of the collapsed members of a stack, in member order. *)
Definition stack_bar_rect (rect : Rect) (n a i : nat) : Rect :=
  let y := if (i <? a)%nat then (rect_y rect + N.of_nat i)%N
           else (rect_y rect + rect_rows rect - N.of_nat (n - i))%N in
  mkRect (rect_x rect) y (rect_cols rect) 1.

Section Visit.
Context {S : Type} (pane bar : PaneId -> Rect -> S -> S).

Fixpoint visit_stack_bars (rect : Rect) (n a i : nat) (panes : list PaneId)
    (s : S) : S :=
  match panes with
  | [] => s
  | p :: panes =>
      visit_stack_bars rect n a (1 + i) panes
        (if (i =? a)%nat then s else bar p (stack_bar_rect rect n a i) s)
  end.

Definition visit_stack (panes : list PaneId) (active : nat) (rect : Rect)
    (s : S) : S :=
  let a := if (active <? length panes)%nat then active else 0 in
  match panes !! a with
  | None => s
  | Some p =>
      let collapsed := (N.of_nat (length panes) - 1)%N in
      if ((collapsed =? 0) || (rect_cols rect <? 2) ||
          (rect_rows rect <? collapsed + STACK_MIN_EXPANDED_ROWS))%N
      then pane p rect s
      else
        pane p
          (mkRect (rect_x rect) (rect_y rect + N.of_nat a) (rect_cols rect)
             (rect_rows rect - collapsed))
          (visit_stack_bars rect (length panes) a 0 panes s)
  end.

Fixpoint visit_layout (t : CenterTree) (rect : Rect) (s : S) : S :=
  match t with
  | Leaf p => pane p rect s
  | Stack panes active => visit_stack panes active rect s
  | Split dir children =>
      let total := split_total children in
      let extent := split_extent dir rect in
      (fix go (bs : list Branch) (offset : N) (s : S) : S :=
         match bs with
         | [] => s
         | mkBranch w c :: bs' =>
             let remaining := (extent - offset)%N in
             let size :=
               match bs' with
               | [] => remaining
               | _ => N.min (split_share total w extent) remaining
               end in
             go bs' (offset + size)%N
               (visit_layout c (child_rect dir rect offset size) s)
         end) children 0%N s
  end.
End Visit.

Definition layout (t : CenterTree) (rect : Rect) : list (PaneId * Rect) :=
  visit_layout (fun p r out => out ++ [(p, r)]) (fun _ _ out => out) t rect [].

Definition stack_bars (t : CenterTree) (rect : Rect) : list (PaneId * Rect) :=
  visit_layout (fun _ _ out => out) (fun p r out => out ++ [(p, r)]) t rect [].

(** ** Frames *)

(** [inset] reads the process-global [PANE_HPAD], passed as [pad]. *)
Definition inset (pad : N) (r : Rect) : Rect :=
  mkRect (rect_x r + 1 + pad) (rect_y r + 1)
         (rect_cols r - (2 + 2 * pad)) (rect_rows r - 2).

Record FramedLayout := mkFramedLayout {
  frames : list (PaneId * Rect * Rect);
  bars : list (PaneId * Rect);
}.

Definition layout_framed (pad : N) (t : CenterTree) (rect : Rect)
    : list (PaneId * Rect * Rect) :=
  visit_layout (fun p r out => out ++ [(p, r, inset pad r)])
               (fun _ _ out => out) t rect [].

Definition layout_framed_with_bars (pad : N) (t : CenterTree) (rect : Rect)
    : FramedLayout :=
  visit_layout
    (fun p r out => mkFramedLayout (frames out ++ [(p, r, inset pad r)]) (bars out))
    (fun p r out => mkFramedLayout (frames out) (bars out ++ [(p, r)]))
    t rect (mkFramedLayout [] []).

(** ** Identities *)
Fixpoint pane_ids (t : CenterTree) : list PaneId :=
  match t with
  | Leaf p => [p]
  | Stack panes _ => panes
  | Split _ children =>
      (fix go (bs : list Branch) : list PaneId :=
         match bs with
         | [] => []
         | mkBranch _ c :: bs' => pane_ids c ++ go bs'
         end) children
  end.

(** [remap] with an [FnMut] carrying its own state. *)
Fixpoint remap {S} (f : S -> PaneId -> PaneId * S) (s : S) (t : CenterTree)
    : CenterTree * S :=
  match t with
  | Leaf p => let '(q, s) := f s p in (Leaf q, s)
  | Stack panes active =>
      let '(qs, s) := map_state f s panes in (Stack qs active, s)
  | Split dir children =>
      let '(bs, s) :=
        (fix go (s : S) (bs : list Branch) : list Branch * S :=
           match bs with
           | [] => ([], s)
           | mkBranch w c :: bs' =>
               let '(c', s) := remap f s c in
               let '(bs'', s) := go s bs' in
               (mkBranch w c' :: bs'', s)
           end) s children in
      (Split dir bs, s)
  end.

(** [iter_mut().any(..)]: the closure runs, and may mutate, until it answers
    [true]. *)
Definition any_mut {A} (f : A -> bool * A) : list A -> bool * list A :=
  fix go (l : list A) : bool * list A :=
    match l with
    | [] => (false, [])
    | a :: l =>
        let '(r, a') := f a in
        if r then (true, a' :: l)
        else let '(r, l') := go l in (r, a' :: l')
    end.

Fixpoint activate_stack_member (pane : PaneId) (t : CenterTree)
    : bool * CenterTree :=
  match t with
  | Leaf _ => (false, t)
  | Stack panes active =>
      match position (fun p => p =? pane)%N panes with
      | Some i => (true, Stack panes i)
      | None => (false, t)
      end
  | Split dir children =>
      let '(r, bs) :=
        any_mut (fun b => match b with
                          | mkBranch w c =>
                              let '(r, c') := activate_stack_member pane c in
                              (r, mkBranch w c')
                          end) children in
      (r, Split dir bs)
  end.

(** ** Splitting and closing *)
Definition even_pair (dir : Dir) (a b : CenterTree) : CenterTree :=
  Split dir [mkBranch F32.one a; mkBranch F32.one b].

Fixpoint split (target : PaneId) (dir : Dir) (new_id : PaneId) (t : CenterTree)
    : bool * CenterTree :=
  match t with
  | Leaf p =>
      if (p =? target)%N then (true, even_pair dir (Leaf p) (Leaf new_id))
      else (false, t)
  | Stack _ _ => (false, t)
  | Split d children =>
      let '(r, bs) :=
        any_mut (fun b => match b with
                          | mkBranch w c =>
                              let '(r, c') := split target dir new_id c in
                              (r, mkBranch w c')
                          end) children in
      (r, Split d bs)
  end.

Definition is_leaf (target : PaneId) (b : Branch) : bool :=
  match child b with Leaf p => (p =? target)%N | _ => false end.

Fixpoint remove (target : PaneId) (t : CenterTree) : bool * CenterTree :=
  match t with
  | Leaf _ => (false, t)
  | Stack panes active =>
      match position (fun p => p =? target)%N panes with
      | Some i =>
          let panes := vec_remove i panes in
          let active :=
            if (length panes <=? active)%nat then pred (length panes) else active in
          (negb (length panes =? 0)%nat, Stack panes active)
      | None => (false, t)
      end
  | Split dir children =>
      match position (is_leaf target) children with
      | Some i =>
          match vec_remove i children with
          | [only] => (true, child only)
          | rest => (true, Split dir rest)
          end
      | None =>
          let '(r, bs) :=
            any_mut (fun b => match b with
                              | mkBranch w c =>
                                  let '(r, c') := remove target c in
                                  (r, mkBranch w c')
                              end) children in
          (r, Split dir bs)
      end
  end.

(** ** Resizing *)
Inductive Move := MLeft | MRight | MUp | MDown.

Definition axis (mv : Move) : Dir :=
  match mv with MLeft | MRight => Row | MUp | MDown => Col end.

Definition toward_high (mv : Move) : bool :=
  match mv with MRight | MDown => true | MLeft | MUp => false end.

Definition RESIZE_STEP : f32 := F32.lit 6 100.
Definition MIN_SHARE : f32 := F32.lit 10 100.

Inductive ResizeOutcome := Resized | AtLimit | NoTarget.
Inductive WalkResize := NotFound | Contains | Done (changed : bool).

(** Both indices are in range at the one call site. *)
Definition shift_pair (children : list Branch) (grow shrink : nat) (step : f32)
    : bool * list Branch :=
  match children !! grow, children !! shrink with
  | Some (mkBranch wg cg), Some (mkBranch ws cs) =>
      let a := fmax wg F32.zero in
      let b := fmax ws F32.zero in
      let pair := F32.add a b in
      if SFleb pair F32.zero then (false, children)
      else
        let min := F32.mul MIN_SHARE pair in
        let delta :=
          fmax (fmin (F32.mul step pair) (F32.sub b min)) F32.zero in
        if SFleb delta F32.epsilon then (false, children)
        else
          (true,
           <[shrink := mkBranch (F32.sub b delta) cs]>
             (<[grow := mkBranch (F32.add a delta) cg]> children))
  | _, _ => (false, children)
  end.

(** What the walk does at a split once child [i] is known to hold the target. *)
Definition resize_here (dir ax : Dir) (high : bool) (step : f32) (i : nat)
    (children : list Branch) : WalkResize * list Branch :=
  if decide (dir = ax) then
    let neighbour :=
      if high
      then if (i + 1 <? length children)%nat then Some (i + 1) else None
      else match i with O => None | S j => Some j end in
    match neighbour with
    | Some j =>
        let '(changed, cs) := shift_pair children i j step in
        (Done changed, cs)
    | None => (Contains, children)
    end
  else (Contains, children).

Fixpoint resize_walk (target : PaneId) (ax : Dir) (high : bool) (step : f32)
    (t : CenterTree) : WalkResize * CenterTree :=
  match t with
  | Leaf p => (if (p =? target)%N then Contains else NotFound, t)
  | Stack panes _ => (if decide (target ∈ panes) then Contains else NotFound, t)
  | Split dir children =>
      let '(r, bs) :=
        (fix go (i : nat) (before bs : list Branch) : WalkResize * list Branch :=
           match bs with
           | [] => (NotFound, before)
           | mkBranch w c :: bs' =>
               let '(r, c') := resize_walk target ax high step c in
               match r with
               | Done changed => (Done changed, before ++ mkBranch w c' :: bs')
               | NotFound => go (S i) (before ++ [mkBranch w c']) bs'
               | Contains =>
                   resize_here dir ax high step i (before ++ mkBranch w c' :: bs')
               end
           end) 0 [] children in
      (r, Split dir bs)
  end.

Definition resize (target : PaneId) (mv : Move) (step : f32) (t : CenterTree)
    : ResizeOutcome * CenterTree :=
  let '(r, t') := resize_walk target (axis mv) (toward_high mv) step t in
  (match r with
   | Done true => Resized
   | Done false => AtLimit
   | NotFound | Contains => NoTarget
   end, t').

(** ** Swapping and re-anchoring *)
Definition find_map {A B} (f : A -> option B) : list A -> option B :=
  fix go (l : list A) : option B :=
    match l with
    | [] => None
    | a :: l => match f a with Some b => Some b | None => go l end
    end.

(** Writing through the reference [find_map] returned. *)
Definition update_first {A} (f : A -> option A) : list A -> option (list A) :=
  fix go (l : list A) : option (list A) :=
    match l with
    | [] => None
    | a :: l =>
        match f a with
        | Some a' => Some (a' :: l)
        | None => match go l with Some l' => Some (a :: l') | None => None end
        end
    end.

Definition is_positional (p : PaneId) (t : CenterTree) : bool :=
  match t with
  | Leaf id => (id =? p)%N
  | Stack panes _ => bool_decide (p ∈ panes)
  | Split _ _ => false
  end.

(** [positional_node_mut]: the node it points to, and the tree after a write
    through it. *)
Fixpoint positional_node (p : PaneId) (t : CenterTree) : option CenterTree :=
  match t with
  | Leaf _ | Stack _ _ => if is_positional p t then Some t else None
  | Split _ children =>
      find_map (fun b => match b with mkBranch _ c => positional_node p c end)
        children
  end.

Fixpoint positional_write (p : PaneId) (new : CenterTree) (t : CenterTree)
    : option CenterTree :=
  match t with
  | Leaf _ | Stack _ _ => if is_positional p t then Some new else None
  | Split dir children =>
      Split dir <$>
        update_first
          (fun b => match b with
                    | mkBranch w c => mkBranch w <$> positional_write p new c
                    end) children
  end.

Definition SENTINEL : PaneId := u32_max.

Definition swap (a b : PaneId) (t : CenterTree) : option (bool * CenterTree) :=
  if (a =? b)%N then Some (false, t)
  else
    match positional_node a t, positional_node b t with
    | Some a_node, Some _ =>
        t1 ← positional_write a (Leaf SENTINEL) t;
        b_node ← positional_node b t1;
        t2 ← positional_write b a_node t1;
        t3 ← positional_write SENTINEL b_node t2;
        Some (true, t3)
    | _, _ => Some (false, t)
    end.

Inductive Side := SLeft | SRight | STop | SBottom.

Definition anchor_dir (side : Side) : Dir :=
  match side with SLeft | SRight => Row | STop | SBottom => Col end.

Definition dragged_first (side : Side) : bool :=
  match side with SLeft | STop => true | SRight | SBottom => false end.

Definition anchor (dragged target : PaneId) (side : Side) (t : CenterTree)
    : bool * CenterTree :=
  if ((dragged =? target)%N || bool_decide (positional_node dragged t = None) ||
      bool_decide (positional_node target t = None))%bool
  then (false, t)
  else
    let '(removed, t) := remove dragged t in
    if negb removed then (false, t)
    else
      match positional_node target t with
      | None => (false, t)
      | Some target_sub =>
          let node :=
            if dragged_first side
            then even_pair (anchor_dir side) (Leaf dragged) target_sub
            else even_pair (anchor_dir side) target_sub (Leaf dragged) in
          match positional_write target node t with
          | Some t' => (true, t')
          | None => (false, t)
          end
      end.

(** ** Focus movement *)
Definition center_x (r : Rect) : Z := Z.of_N (rect_x r) + Z.of_N (rect_cols r) / 2.
Definition center_y (r : Rect) : Z := Z.of_N (rect_y r) + Z.of_N (rect_rows r) / 2.

Definition in_dir (dir : Move) (cur r : Rect) : bool :=
  match dir with
  | MLeft => center_x r <? center_x cur
  | MRight => center_x cur <? center_x r
  | MUp => center_y r <? center_y cur
  | MDown => center_y cur <? center_y r
  end%Z.

(** The integer divisions are of non-negative numbers. *)
Definition dist (dir : Move) (cur r : Rect) : Z :=
  let dx := Z.abs (center_x r - center_x cur) in
  let dy := Z.abs (center_y r - center_y cur) in
  match dir with
  | MLeft | MRight => dx + dy / 2
  | MUp | MDown => dy + dx / 2
  end%Z.

(** [Iterator::min_by_key]: the first of the minimal elements. *)
Fixpoint min_by_key {A} (key : A -> Z) (best : A) (l : list A) : A :=
  match l with
  | [] => best
  | a :: l => min_by_key key (if (key a <? key best)%Z then a else best) l
  end.

Definition neighbor (lay : list (PaneId * Rect)) (from : PaneId) (dir : Move)
    : option PaneId :=
  cur ← snd <$> list_find (fun e => fst e = from) lay;
  let cur := snd cur in
  let candidates :=
    omap (fun '(id, r) =>
            if in_dir dir cur r then Some (id, dist dir cur r) else None)
      (filter (fun e => fst e <> from) lay) in
  match candidates with
  | [] => None
  | c :: cs => Some (fst (min_by_key snd c cs))
  end.
