(* ===== verification/CenterTiling.v ===== *)
(** * The layout of the center tree tiles its rectangle

    Every cell of the rectangle given to [layout] is covered by exactly one
    pane or one stack bar, whatever the weights are; the visible panes do not
    depend on the geometry; the three layout walks agree. *)

From S2P Require Import Prelude RustFloat Center.
From Stdlib Require Import SpecFloat.

(** ** The walk as a list of placements *)
Inductive Placed := PaneAt (p : PaneId) (r : Rect) | BarAt (p : PaneId) (r : Rect).

Definition placed_rect (e : Placed) : Rect :=
  match e with PaneAt _ r | BarAt _ r => r end.

Definition placed (t : CenterTree) (rect : Rect) : list Placed :=
  visit_layout (fun p r out => out ++ [PaneAt p r])
               (fun p r out => out ++ [BarAt p r]) t rect [].

Definition run {S} (pane bar : PaneId -> Rect -> S -> S) (s : S) (e : Placed) : S :=
  match e with PaneAt p r => pane p r s | BarAt p r => bar p r s end.

(** The children of a split with the rectangle each is given. *)
Fixpoint split_slots (dir : Dir) (rect : Rect) (total : f32) (bs : list Branch)
    (offset : N) : list (CenterTree * Rect) :=
  match bs with
  | [] => []
  | mkBranch w c :: bs' =>
      let remaining := (split_extent dir rect - offset)%N in
      let size :=
        match bs' with
        | [] => remaining
        | _ => N.min (split_share total w (split_extent dir rect)) remaining
        end in
      (c, child_rect dir rect offset size) ::
        split_slots dir rect total bs' (offset + size)
  end.

Section Walk.
Context {S : Type} (pane bar : PaneId -> Rect -> S -> S).

Lemma visit_layout_split dir children rect s :
  visit_layout pane bar (Split dir children) rect s =
    foldl (fun s '(c, r) => visit_layout pane bar c r s) s
      (split_slots dir rect (split_total children) children 0).
Proof.
  simpl. generalize (split_total children) as total.
  generalize 0%N as off. intros off total. revert off s.
  induction children as [|[w c] bs IH]; intros off s; [done|].
  simpl. destruct bs; apply IH.
Qed.
End Walk.

(** Induction over a tree and the rectangle it is given, through the slots. *)
Lemma layout_ind (P : CenterTree -> Rect -> Prop) :
  (forall p rect, P (Leaf p) rect) ->
  (forall panes active rect, P (Stack panes active) rect) ->
  (forall dir children rect,
     Forall (fun s => P (fst s) (snd s))
       (split_slots dir rect (split_total children) children 0) ->
     P (Split dir children) rect) ->
  forall t rect, P t rect.
Proof.
  intros HL HK HS t. induction t as [p|panes active|dir children IH] using CenterTree_ind';
    intros rect; [apply HL|apply HK|apply HS].
  generalize (split_total children) as total. generalize 0%N as off.
  induction IH as [|[w c] bs Hc _ IHs]; intros off total; simpl; [done|].
  constructor; [apply Hc|apply IHs].
Qed.

Section WalkRun.
Context {S : Type} (pane bar : PaneId -> Rect -> S -> S).

Lemma visit_stack_bars_run rect n a i panes s l :
  visit_stack_bars bar rect n a i panes (foldl (run pane bar) s l) =
    foldl (run pane bar) s
      (visit_stack_bars (fun p r out => out ++ [BarAt p r]) rect n a i panes l).
Proof.
  revert i l. induction panes as [|p panes IH]; intros i l; simpl; [done|].
  destruct (i =? a)%nat; [apply IH|].
  rewrite <- IH. by rewrite foldl_app.
Qed.

Lemma visit_layout_run t rect s l :
  visit_layout pane bar t rect (foldl (run pane bar) s l) =
    foldl (run pane bar) s
      (visit_layout (fun p r out => out ++ [PaneAt p r])
         (fun p r out => out ++ [BarAt p r]) t rect l).
Proof.
  revert l. pattern t, rect. revert t rect.
  apply layout_ind; [intros p rect l|intros panes active rect l|intros dir children rect IH l].
  - simpl. by rewrite foldl_app.
  - simpl. unfold visit_stack. destruct (panes !! _); [|done].
    destruct (_ || _)%bool; rewrite foldl_app; simpl; [done|].
    by rewrite visit_stack_bars_run.
  - rewrite !visit_layout_split.
    revert l. induction IH as [|[c r] slots Hc _ IHs]; intros l; simpl in *; [done|].
    by rewrite Hc, IHs.
Qed.
End WalkRun.

(** Every walk is a fold over the placements. *)
Lemma visit_layout_placed {S} (pane bar : PaneId -> Rect -> S -> S) t rect s :
  visit_layout pane bar t rect s = foldl (run pane bar) s (placed t rect).
Proof. apply (visit_layout_run pane bar t rect s []). Qed.

Lemma foldl_push (l evs : list Placed) :
  foldl (run (fun p r out => out ++ [PaneAt p r])
             (fun p r out => out ++ [BarAt p r])) l evs = l ++ evs.
Proof.
  revert l. induction evs as [|[p r|p r] evs IH]; intros l; simpl.
  - by rewrite app_nil_r.
  - by rewrite IH, <- app_assoc.
  - by rewrite IH, <- app_assoc.
Qed.

Lemma placed_split dir children rect :
  placed (Split dir children) rect =
    mjoin ((fun '(c, r) => placed c r) <$>
             split_slots dir rect (split_total children) children 0).
Proof.
  unfold placed at 1. rewrite visit_layout_split.
  cut (forall slots l,
    foldl (fun s '(c, r) =>
             visit_layout (fun p r out => out ++ [PaneAt p r])
               (fun p r out => out ++ [BarAt p r]) c r s) l slots =
      l ++ mjoin ((fun '(c, r) => placed c r) <$> slots)); [intros H; apply (H _ [])|].
  induction slots as [|[c r] slots IH]; intros l; simpl; [by rewrite app_nil_r|].
  by rewrite IH, visit_layout_placed, foldl_push, <- app_assoc.
Qed.

(** ** Counting the placements over a cell *)
Definition ind (b : bool) : nat := if b then 1 else 0.

Definition cover (x y : N) (rs : list Rect) : nat :=
  sum_list_with (fun r => ind (Rect_contains r x y)) rs.

Lemma cover_app x y l1 l2 : cover x y (l1 ++ l2) = cover x y l1 + cover x y l2.
Proof. apply sum_list_with_app. Qed.

(** A tree with no hole: no split without children, no stack without panes. *)
Fixpoint solid (t : CenterTree) : bool :=
  match t with
  | Leaf _ => true
  | Stack panes _ => negb (length panes =? 0)%nat
  | Split _ children =>
      negb (length children =? 0)%nat &&
      (fix go (bs : list Branch) : bool :=
         match bs with
         | [] => true
         | mkBranch _ c :: bs' => solid c && go bs'
         end) children
  end.

Lemma solid_split dir children :
  solid (Split dir children) = true <->
  children <> [] /\ Forall (fun b => solid (child b) = true) children.
Proof.
  simpl. rewrite andb_true_iff, negb_true_iff, Nat.eqb_neq.
  assert (((fix go (bs : list Branch) : bool :=
         match bs with
         | [] => true
         | mkBranch _ c :: bs' => solid c && go bs'
         end) children = true) <-> Forall (fun b => solid (child b) = true) children) as ->.
  { induction children as [|[w c] bs IH]; [done|].
    rewrite andb_true_iff, Forall_cons, IH. done. }
  destruct children; simpl; [tauto|]. split; intros [? ?]; (split; [lia || done|done]).
Qed.

Ltac range_cases :=
  unfold ind, Rect_contains; simpl;
  repeat match goal with
  | |- context [(?a <=? ?b)%N] => destruct (N.leb_spec a b)
  | |- context [(?a <? ?b)%N] => destruct (N.ltb_spec a b)
  end; simpl; lia.

Lemma child_rect_split dir rect off size x y :
  (off + size <= split_extent dir rect)%N ->
  ind (Rect_contains (child_rect dir rect off size) x y) +
  ind (Rect_contains (child_rect dir rect (off + size)
                        (split_extent dir rect - (off + size))) x y) =
  ind (Rect_contains (child_rect dir rect off (split_extent dir rect - off)) x y).
Proof. destruct dir; simpl; intros; range_cases. Qed.

Lemma split_slots_cover dir rect total bs off x y :
  bs <> [] -> (off <= split_extent dir rect)%N ->
  cover x y (snd <$> split_slots dir rect total bs off) =
  ind (Rect_contains (child_rect dir rect off (split_extent dir rect - off)) x y).
Proof.
  revert off. induction bs as [|[w c] bs IH]; intros off Hne Hoff; [done|].
  destruct bs as [|b bs]; simpl; [unfold cover; simpl; lia|].
  set (size := N.min _ _).
  assert (off + size <= split_extent dir rect)%N by (subst size; lia).
  rewrite <- (child_rect_split dir rect off size) by done.
  rewrite <- IH by done. done.
Qed.

Lemma child_rect_whole dir rect : child_rect dir rect 0 (split_extent dir rect) = rect.
Proof. destruct dir, rect; simpl; f_equal; lia. Qed.

(** ** Stacks *)
Definition bar_list rect n a i panes : list Rect :=
  placed_rect <$>
    visit_stack_bars (fun p r out => out ++ [BarAt p r]) rect n a i panes [].

Lemma visit_stack_bars_push rect n a i panes l :
  visit_stack_bars (fun p r out => out ++ [BarAt p r]) rect n a i panes l =
  l ++ visit_stack_bars (fun p r out => out ++ [BarAt p r]) rect n a i panes [].
Proof.
  revert i l. induction panes as [|p panes IH]; intros i l; simpl; [by rewrite app_nil_r|].
  destruct (i =? a)%nat; [apply IH|].
  rewrite IH, (IH _ [_]), app_assoc. done.
Qed.

Lemma bar_list_cons rect n a i p panes :
  bar_list rect n a i (p :: panes) =
    (if (i =? a)%nat then [] else [stack_bar_rect rect n a i]) ++
    bar_list rect n a (1 + i) panes.
Proof.
  unfold bar_list. simpl. destruct (i =? a)%nat; [done|].
  by rewrite visit_stack_bars_push, fmap_app.
Qed.

Definition band (rect : Rect) (lo hi x y : N) : nat :=
  ind (Rect_contains (mkRect (rect_x rect) (rect_y rect + lo) (rect_cols rect) (hi - lo)) x y).

(** The bars from member [i] on: those above the expanded member and those
    below it are two contiguous bands. *)
Lemma bar_list_cover rect n a i panes x y :
  i + length panes = n -> a < n -> (N.of_nat n <= rect_rows rect)%N ->
  cover x y (bar_list rect n a i panes) =
    band rect (N.of_nat i) (N.of_nat (Nat.max i a)) x y +
    band rect (rect_rows rect - N.of_nat (n - Nat.max i (S a))) (rect_rows rect) x y.
Proof.
  revert i. induction panes as [|p panes IH]; intros i Hn Ha Hr.
  - simpl in Hn. unfold bar_list, cover, band; simpl.
    replace (n - Nat.max i (S a)) with 0 by lia.
    replace (Nat.max i a) with i by lia. range_cases.
  - simpl in Hn. rewrite bar_list_cons, cover_app, IH by lia.
    destruct (Nat.eqb_spec i a) as [->|Hne]; simpl.
    + replace (Nat.max (S a) a) with (S a) by lia.
      replace (Nat.max a a) with a by lia.
      replace (Nat.max a (S a)) with (S a) by lia.
      replace (Nat.max (S a) (S a)) with (S a) by lia.
      unfold band. range_cases.
    + unfold cover, stack_bar_rect; simpl. unfold band.
      destruct (Nat.ltb_spec i a).
      * replace (Nat.max (S i) a) with a by lia.
        replace (Nat.max i a) with a by lia.
        replace (Nat.max (S i) (S a)) with (S a) by lia.
        replace (Nat.max i (S a)) with (S a) by lia. range_cases.
      * replace (Nat.max (S i) a) with (S i) by lia.
        replace (Nat.max i a) with i by lia.
        replace (Nat.max (S i) (S a)) with (S i) by lia.
        replace (Nat.max i (S a)) with i by lia. range_cases.
Qed.

Lemma stack_cover panes active rect x y :
  panes <> [] ->
  cover x y (placed_rect <$> placed (Stack panes active) rect) =
  ind (Rect_contains rect x y).
Proof.
  intros Hne. unfold placed; simpl. unfold visit_stack.
  set (a := if (active <? length panes)%nat then active else 0).
  assert (Hlen : 0 < length panes) by (destruct panes; simpl; [done|lia]).
  assert (Ha : a < length panes) by (subst a; split_ifs; lia).
  destruct (lookup_lt_is_Some_2 panes a Ha) as [p ->].
  destruct (_ || _)%bool eqn:E; [unfold cover; simpl; lia|].
  bool_to_prop. rewrite fmap_app, cover_app. unfold STACK_MIN_EXPANDED_ROWS in *.
  change (placed_rect <$> visit_stack_bars _ rect (length panes) a 0 panes [])
    with (bar_list rect (length panes) a 0 panes).
  rewrite bar_list_cover by lia.
  replace (Nat.max 0 a) with a by lia. replace (Nat.max 0 (S a)) with (S a) by lia.
  unfold cover, band. simpl. rewrite !N.add_0_r. range_cases.
Qed.

Lemma placed_cover t rect x y :
  solid t = true ->
  cover x y (placed_rect <$> placed t rect) = ind (Rect_contains rect x y).
Proof.
  pattern t, rect. revert t rect.
  apply layout_ind; [intros p rect _|intros panes active rect H|intros dir children rect IH H].
  - unfold placed, cover; simpl. lia.
  - apply stack_cover. by destruct panes.
  - apply solid_split in H as [Hne Hs].
    rewrite placed_split.
    transitivity (cover x y (snd <$> split_slots dir rect (split_total children) children 0)).
    + clear Hne. revert IH. generalize (split_total children) as total.
      generalize 0%N as off. induction Hs as [|[w c] bs Hc _ IHs]; intros off total IH; [done|].
      simpl in *. inversion IH; subst. rewrite fmap_app, cover_app.
      rewrite (IHs _ total) by done. simpl in *. rewrite H1 by done. done.
    + rewrite split_slots_cover by (done || lia).
      by rewrite N.sub_0_r, child_rect_whole.
Qed.

(** Empty stacks and splits leave holes; nothing ever overlaps or reaches out. *)
Lemma stack_cover_le panes active rect x y :
  cover x y (placed_rect <$> placed (Stack panes active) rect) <= ind (Rect_contains rect x y).
Proof.
  destruct panes as [|p panes]; [unfold placed, cover; simpl; lia|]. by rewrite stack_cover.
Qed.

Lemma placed_cover_le t rect x y :
  cover x y (placed_rect <$> placed t rect) <= ind (Rect_contains rect x y).
Proof.
  pattern t, rect. revert t rect.
  apply layout_ind; [intros p rect|intros panes active rect|intros dir children rect IH].
  - unfold placed, cover; simpl. lia.
  - apply stack_cover_le.
  - rewrite placed_split. destruct children as [|b bs]; [unfold cover; simpl; lia|].
    transitivity (cover x y (snd <$> split_slots dir rect (split_total (b :: bs)) (b :: bs) 0)).
    + revert IH. generalize (split_total (b :: bs)) as total. generalize 0%N as off.
      generalize (b :: bs) as cs. clear b bs.
      induction cs as [|[w c] cs IHs]; intros off total IH; [done|].
      simpl in *. inversion IH as [|?? Hc Hcs]; subst. rewrite fmap_app, cover_app.
      specialize (IHs _ total Hcs). cbn [fst snd] in Hc.
      etransitivity; [apply Nat.add_le_mono; [exact Hc|exact IHs]|]. done.
    + rewrite split_slots_cover by (done || lia).
      by rewrite N.sub_0_r, child_rect_whole.
Qed.

(** ** The public walks *)
Definition pane_of (e : Placed) : option (PaneId * Rect) :=
  match e with PaneAt p r => Some (p, r) | BarAt _ _ => None end.
Definition bar_of (e : Placed) : option (PaneId * Rect) :=
  match e with PaneAt _ _ => None | BarAt p r => Some (p, r) end.

Lemma foldl_run_omap {B} (f : Placed -> option B) (l : list B) evs :
  foldl (fun l e => l ++ match f e with Some b => [b] | None => [] end) l evs =
  l ++ omap f evs.
Proof.
  revert l. induction evs as [|e evs IH]; intros l; simpl; [by rewrite app_nil_r|].
  rewrite IH. destruct (f e); by rewrite <- app_assoc.
Qed.

Lemma foldl_run_ext {S} (pane bar : PaneId -> Rect -> S -> S) (g : S -> Placed -> S) s evs :
  (forall s e, run pane bar s e = g s e) ->
  foldl (run pane bar) s evs = foldl g s evs.
Proof. intros H. revert s. induction evs; intros s; simpl; [done|]. by rewrite H. Qed.

Lemma layout_placed t rect : layout t rect = omap pane_of (placed t rect).
Proof.
  unfold layout. rewrite visit_layout_placed.
  rewrite (foldl_run_ext _ _ (fun l e => l ++ match pane_of e with Some b => [b] | None => [] end)).
  - apply (foldl_run_omap pane_of []).
  - intros s [p r|p r]; simpl; [done|]. by rewrite app_nil_r.
Qed.

Lemma stack_bars_placed t rect : stack_bars t rect = omap bar_of (placed t rect).
Proof.
  unfold stack_bars. rewrite visit_layout_placed.
  rewrite (foldl_run_ext _ _ (fun l e => l ++ match bar_of e with Some b => [b] | None => [] end)).
  - apply (foldl_run_omap bar_of []).
  - intros s [p r|p r]; simpl; [|done]. by rewrite app_nil_r.
Qed.

Lemma cover_panes_bars x y evs :
  cover x y (placed_rect <$> evs) =
  cover x y (snd <$> omap pane_of evs) + cover x y (snd <$> omap bar_of evs).
Proof.
  induction evs as [|[p r|p r] evs IH]; [done| |];
    unfold cover, fmap, omap in *; simpl in *; lia.
Qed.

(** C1. The layout of a tree without empty splits or stacks is an exact
    tiling: whatever the weights (NaN, infinite or negative ones included),
    every cell of the rectangle lies in exactly one pane frame or stack bar and
    no frame or bar reaches outside the rectangle. *)
Theorem layout_tiles (t : CenterTree) (rect : Rect) (x y : N) :
  solid t = true ->
  cover x y (snd <$> layout t rect) + cover x y (snd <$> stack_bars t rect) =
  ind (Rect_contains rect x y).
Proof.
  intros Hs. rewrite layout_placed, stack_bars_placed, <- cover_panes_bars.
  by apply placed_cover.
Qed.

Definition demo_tree : CenterTree :=
  Split Row
    [mkBranch (F32.lit 1 3) (Leaf 1);
     mkBranch S754_nan (Stack [2; 3; 4]%N 1);
     mkBranch F32.one (Split Col [mkBranch F32.one (Leaf 5); mkBranch F32.one (Leaf 6)])].

Lemma layout_tiles_witness :
  solid demo_tree = true /\
  cover 40 39 (snd <$> layout demo_tree (Rect_full 100 40)) +
  cover 40 39 (snd <$> stack_bars demo_tree (Rect_full 100 40)) = 1.
Proof.
  split; [reflexivity|].
  exact (layout_tiles demo_tree (Rect_full 100 40) 40 39 eq_refl).
Defined.

(** The panes a tree shows: each leaf and the expanded member of each stack. *)
Fixpoint visible_ids (t : CenterTree) : list PaneId :=
  match t with
  | Leaf p => [p]
  | Stack panes active =>
      match panes !! (if (active <? length panes)%nat then active else 0) with
      | Some p => [p]
      | None => []
      end
  | Split _ children =>
      (fix go (bs : list Branch) : list PaneId :=
         match bs with
         | [] => []
         | mkBranch _ c :: bs' => visible_ids c ++ go bs'
         end) children
  end.

Lemma bars_no_panes rect n a i panes :
  omap pane_of
    (visit_stack_bars (fun p r out => out ++ [BarAt p r]) rect n a i panes []) = [].
Proof.
  revert i. induction panes as [|p panes IH]; intros i; simpl; [done|].
  destruct (i =? a)%nat; [apply IH|].
  rewrite visit_stack_bars_push, omap_app. simpl. apply IH.
Qed.

(** Which panes are drawn, and in which order, depends on the tree alone:
    [layout] yields every leaf and the expanded member of every stack, however
    large or small the rectangle is. *)
Theorem layout_visible_ids (t : CenterTree) (rect : Rect) :
  fst <$> layout t rect = visible_ids t.
Proof.
  rewrite layout_placed. pattern t, rect. revert t rect.
  apply layout_ind; [done|intros panes active rect|intros dir children rect IH].
  - unfold placed; simpl. unfold visit_stack.
    destruct (panes !! _); [|done]. destruct (_ || _)%bool; [done|].
    by rewrite omap_app, bars_no_panes.
  - rewrite placed_split. revert IH. generalize (split_total children) as total.
    generalize 0%N as off. induction children as [|[w c] bs IHb]; intros off total IH; [done|].
    simpl in *. inversion IH; subst; simpl in *.
    rewrite omap_app, fmap_app, (IHb _ total) by done. by f_equal.
Qed.

(** ** Framed layout *)

Lemma framed_foldl pad evs fs bs :
  foldl (run (fun p r out => mkFramedLayout (frames out ++ [(p, r, inset pad r)]) (bars out))
             (fun p r out => mkFramedLayout (frames out) (bars out ++ [(p, r)])))
    (mkFramedLayout fs bs) evs =
  mkFramedLayout
    (fs ++ ((fun '(p, r) => (p, r, inset pad r)) <$> omap pane_of evs))
    (bs ++ omap bar_of evs).
Proof.
  revert fs bs. induction evs as [|[p r|p r] evs IH]; intros fs bs; simpl.
  - by rewrite !app_nil_r.
  - by rewrite IH, <- app_assoc.
  - by rewrite IH, <- app_assoc.
Qed.

Lemma framed_layout pad t rect :
  layout_framed_with_bars pad t rect =
  mkFramedLayout ((fun '(p, r) => (p, r, inset pad r)) <$> layout t rect)
    (stack_bars t rect).
Proof.
  unfold layout_framed_with_bars. rewrite visit_layout_placed, framed_foldl.
  by rewrite layout_placed, stack_bars_placed.
Qed.

Lemma layout_framed_layout pad t rect :
  layout_framed pad t rect = (fun '(p, r) => (p, r, inset pad r)) <$> layout t rect.
Proof.
  rewrite layout_placed. unfold layout_framed. rewrite visit_layout_placed.
  rewrite (foldl_run_ext _ _
    (fun l e => l ++ match (fun '(p, r) => (p, r, inset pad r)) <$> pane_of e with
                     | Some b => [b] | None => [] end)).
  - rewrite (foldl_run_omap (fun e => (fun '(p, r) => (p, r, inset pad r)) <$> pane_of e) []).
    simpl. induction (placed t rect) as [|[p r|p r] evs IH]; simpl; by f_equal.
  - intros s [p r|p r]; simpl; [done|]. by rewrite app_nil_r.
Qed.

Lemma inset_inside pad r x y :
  Rect_contains (inset pad r) x y = true ->
  Rect_contains r x y = true /\
  (rect_x r < x /\ x + 1 < rect_x r + rect_cols r /\
   rect_y r < y /\ y + 1 < rect_y r + rect_rows r)%N.
Proof. unfold Rect_contains; simpl. rewrite !andb_true_iff, !N.leb_le, !N.ltb_lt. lia. Qed.

(** The framed walks that rendering and mouse dispatch share report exactly
    the frames of [layout] and the bars of [stack_bars], and every content cell
    they hand to a pane's terminal lies strictly inside that pane's frame ring. *)
Theorem framed_agrees (pad : N) (t : CenterTree) (rect : Rect) :
  frames (layout_framed_with_bars pad t rect) = layout_framed pad t rect /\
  bars (layout_framed_with_bars pad t rect) = stack_bars t rect /\
  (fst <$> layout_framed pad t rect) = layout t rect /\
  Forall (fun '(_, frame, content) =>
    forall x y, Rect_contains content x y = true ->
      Rect_contains frame x y = true /\
      (rect_x frame < x /\ x + 1 < rect_x frame + rect_cols frame /\
       rect_y frame < y /\ y + 1 < rect_y frame + rect_rows frame)%N)
    (layout_framed pad t rect).
Proof.
  rewrite framed_layout; simpl. rewrite layout_framed_layout. split_and!; [done|done| |].
  - rewrite <- list_fmap_compose. rewrite <- (list_fmap_id (layout t rect)) at 2.
    apply list_fmap_ext. by intros ? [p r].
  - apply Forall_fmap, Forall_true. intros [p r] x y. apply inset_inside.
Qed.

(** ** All-zero weights *)

Lemma split_share_zero total s extent :
  SFleb total F32.zero = false -> split_share total (S754_zero s) extent = 0%N.
Proof.
  intros H. unfold split_share. rewrite H.
  destruct s, total as [?|[]| |[] m e]; try done; simpl;
    destruct (F32.of_usize extent) as [?|[]| |[] m' e']; done.
Qed.

(** When every weight of a split is zero the fallback divisor does not
    restore an even split: the first children get no cells at all and the last
    one takes the whole rectangle. *)
Theorem zero_weights_starve (dir : Dir) (p q : PaneId) (s1 s2 : bool) (rect : Rect) :
  layout (Split dir [mkBranch (S754_zero s1) (Leaf p); mkBranch (S754_zero s2) (Leaf q)]) rect =
  [(p, child_rect dir rect 0 0); (q, rect)].
Proof.
  unfold layout. rewrite visit_layout_split. unfold split_slots.
  rewrite split_share_zero by (by destruct s1, s2).
  rewrite N.min_0_l, N.add_0_r, N.sub_0_r, child_rect_whole. done.
Qed.
