(* ===== verification/CenterEdit.v ===== *)
(** * Editing the center tree

    Splitting, closing, swapping, re-anchoring and resizing panes: what each
    operation does to the panes of a tree, and the invariant all of them keep. *)

From S2P Require Import Prelude RustFloat Center CenterTiling.
From Stdlib Require Import SpecFloat.

(** ** The atomic nodes of a tree *)
Definition atomic (t : CenterTree) : bool :=
  match t with Split _ _ => false | _ => true end.

Fixpoint nodes (t : CenterTree) : list CenterTree :=
  match t with
  | Leaf _ | Stack _ _ => [t]
  | Split _ children =>
      (fix go (bs : list Branch) : list CenterTree :=
         match bs with
         | [] => []
         | mkBranch _ c :: bs' => nodes c ++ go bs'
         end) children
  end.

(** Rewriting every atomic node in place. *)
Fixpoint tmap (f : CenterTree -> CenterTree) (t : CenterTree) : CenterTree :=
  match t with
  | Leaf _ | Stack _ _ => f t
  | Split dir children =>
      Split dir
        ((fix go (bs : list Branch) : list Branch :=
            match bs with
            | [] => []
            | mkBranch w c :: bs' => mkBranch w (tmap f c) :: go bs'
            end) children)
  end.

Definition branch_map (f : CenterTree -> CenterTree) (b : Branch) : Branch :=
  mkBranch (weight b) (f (child b)).

Lemma nodes_split dir children :
  nodes (Split dir children) = mjoin ((fun b => nodes (child b)) <$> children).
Proof. simpl. induction children as [|[w c] bs IH]; simpl; [done|]. by rewrite IH. Qed.

Lemma tmap_split f dir children :
  tmap f (Split dir children) = Split dir (branch_map (tmap f) <$> children).
Proof. simpl. f_equal. induction children as [|[w c] bs IH]; simpl; [done|]. by rewrite IH. Qed.

Lemma pane_ids_split dir children :
  pane_ids (Split dir children) = mjoin ((fun b => pane_ids (child b)) <$> children).
Proof. simpl. induction children as [|[w c] bs IH]; simpl; [done|]. by rewrite IH. Qed.

Lemma pane_ids_nodes t : pane_ids t = mjoin (pane_ids <$> nodes t).
Proof.
  induction t as [p|panes active|dir children IH] using CenterTree_ind';
    [done|simpl; by rewrite app_nil_r|].
  rewrite pane_ids_split, nodes_split.
  induction IH as [|b bs Hb _ IHs]; csimpl; [done|].
  by rewrite fmap_app, join_app, <- Hb, <- IHs.
Qed.

Lemma nodes_atomic t : Forall (fun n => atomic n = true) (nodes t).
Proof.
  induction t as [p|panes active|dir children IH] using CenterTree_ind'; [by repeat constructor..|].
  rewrite nodes_split. induction IH; csimpl; [done|]. by apply Forall_app.
Qed.

Lemma tmap_ext f g t :
  Forall (fun n => f n = g n) (nodes t) -> tmap f t = tmap g t.
Proof.
  induction t as [p|panes active|dir children IH] using CenterTree_ind';
    [simpl; by rewrite Forall_singleton..|].
  rewrite nodes_split, !tmap_split. intros H. f_equal.
  induction IH as [|b bs Hb _ IHs]; csimpl in *; [done|].
  apply Forall_app in H as [H1 H2]. f_equal; [|by apply IHs].
  unfold branch_map. by rewrite Hb.
Qed.

Lemma tmap_id t : tmap (fun n => n) t = t.
Proof.
  induction t as [p|panes active|dir children IH] using CenterTree_ind'; [done..|].
  rewrite tmap_split. f_equal.
  induction IH as [|[w c] bs Hb _ IHs]; csimpl in *; [done|].
  unfold branch_map at 1; simpl. by rewrite Hb, IHs.
Qed.

Lemma tmap_tmap f g t :
  Forall (fun n => atomic (f n) = true) (nodes t) ->
  tmap g (tmap f t) = tmap (fun n => g (f n)) t.
Proof.
  assert (Hat : forall n, atomic n = true -> tmap g n = g n) by (by intros []).
  induction t as [p|panes active|dir children IH] using CenterTree_ind';
    [simpl; rewrite Forall_singleton; apply Hat..|].
  rewrite nodes_split, !tmap_split. intros H. f_equal.
  induction IH as [|b bs Hb _ IHs]; csimpl in *; [done|].
  apply Forall_app in H as [H1 H2]. f_equal; [|by apply IHs].
  unfold branch_map; simpl. by rewrite Hb.
Qed.

Lemma nodes_tmap f t :
  Forall (fun n => atomic (f n) = true) (nodes t) -> nodes (tmap f t) = f <$> nodes t.
Proof.
  assert (Hat : forall n, atomic n = true -> nodes n = [n]) by (by intros []).
  induction t as [p|panes active|dir children IH] using CenterTree_ind';
    [simpl; rewrite Forall_singleton; apply Hat..|].
  rewrite tmap_split, !nodes_split. intros H.
  induction IH as [|b bs Hb _ IHs]; csimpl in *; [done|].
  apply Forall_app in H as [H1 H2]. by rewrite fmap_app, Hb, IHs.
Qed.

Lemma is_positional_atomic p n : is_positional p n = true -> atomic n = true.
Proof. by destruct n. Qed.

Lemma is_positional_ids p n :
  atomic n = true -> is_positional p n = true <-> p ∈ pane_ids n.
Proof.
  destruct n as [q| |panes active]; simpl; try done; intros _.
  - rewrite N.eqb_eq, list_elem_of_singleton. naive_solver.
  - by rewrite bool_decide_eq_true.
Qed.

Lemma tmap_fresh p new t :
  p ∉ pane_ids t -> tmap (fun n => if is_positional p n then new else n) t = t.
Proof.
  intros Hp. rewrite <- (tmap_id t) at 2. apply tmap_ext.
  rewrite pane_ids_nodes in Hp. generalize (nodes_atomic t).
  induction (nodes t) as [|n ns IH]; intros Ha; [constructor|].
  inversion Ha; subst. simpl in Hp. apply not_elem_of_app in Hp as [Hn Hns].
  constructor; [|by apply IH].
  destruct (is_positional p n) eqn:E; [|done]. by apply is_positional_ids in E.
Qed.

Lemma pane_ids_tmap f t :
  pane_ids (tmap f t) = mjoin ((fun n => pane_ids (f n)) <$> nodes t).
Proof.
  induction t as [p|panes active|dir children IH] using CenterTree_ind';
    [simpl; by rewrite app_nil_r..|].
  rewrite tmap_split, pane_ids_split, nodes_split.
  induction IH as [|b bs Hb _ IHs]; csimpl in *; [done|].
  by rewrite fmap_app, join_app, Hb, IHs.
Qed.

(** ** The positional node of a pane *)
Definition retarget (p : PaneId) (new n : CenterTree) : CenterTree :=
  if is_positional p n then new else n.

Lemma positional_node_Some p t n :
  positional_node p t = Some n -> n ∈ nodes t /\ is_positional p n = true.
Proof.
  revert n. induction t as [q|panes active|dir children IH] using CenterTree_ind'; intros n.
  - simpl. destruct (_ =? _)%N eqn:E; [|done]. intros [= <-]; simpl. rewrite E.
    by rewrite list_elem_of_singleton.
  - simpl. destruct (bool_decide _) eqn:E; [|done]. intros [= <-]; simpl. rewrite E.
    by rewrite list_elem_of_singleton.
  - rewrite nodes_split. simpl.
    induction IH as [|[w c] bs Hb _ IHs]; csimpl in *; [done|].
    destruct (positional_node p c) as [n'|] eqn:E.
    + intros [= <-]. destruct (Hb _ eq_refl). rewrite elem_of_app. tauto.
    + intros H. apply IHs in H as []. rewrite elem_of_app. tauto.
Qed.

Lemma positional_node_None p t :
  positional_node p t = None <-> p ∉ pane_ids t.
Proof.
  induction t as [q|panes active|dir children IH] using CenterTree_ind'.
  - simpl. rewrite list_elem_of_singleton. destruct (N.eqb_spec q p); naive_solver.
  - simpl. case_bool_decide; naive_solver.
  - rewrite pane_ids_split. simpl.
    induction IH as [|[w c] bs Hb _ IHs]; csimpl in *.
    + split; [intros _; apply not_elem_of_nil|done].
    + rewrite not_elem_of_app, <- Hb, <- IHs.
      destruct (positional_node p c); intuition done.
Qed.

Lemma positional_node_is_Some p t :
  p ∈ pane_ids t -> exists n, positional_node p t = Some n.
Proof.
  intros H. destruct (positional_node p t) eqn:E; [eauto|].
  by apply positional_node_None in E.
Qed.

Lemma positional_write_None p new t :
  p ∉ pane_ids t -> positional_write p new t = None.
Proof.
  induction t as [q|panes active|dir children IH] using CenterTree_ind'.
  - simpl. rewrite list_elem_of_singleton. destruct (N.eqb_spec q p); naive_solver.
  - simpl. case_bool_decide; naive_solver.
  - rewrite pane_ids_split. simpl. intros Hp. apply fmap_None.
    induction IH as [|[w c] bs Hb _ IHs]; csimpl in *; [done|].
    apply not_elem_of_app in Hp as [Hc Hbs]. by rewrite Hb, IHs.
Qed.

Lemma positional_write_Some p new t :
  NoDup (pane_ids t) -> p ∈ pane_ids t ->
  positional_write p new t = Some (tmap (retarget p new) t).
Proof.
  induction t as [q|panes active|dir children IH] using CenterTree_ind'.
  - simpl. rewrite list_elem_of_singleton. intros _ ->. unfold retarget. simpl.
    by rewrite N.eqb_refl.
  - simpl. intros _ H. unfold retarget. simpl. by rewrite bool_decide_true.
  - rewrite pane_ids_split, tmap_split. intros Hnd Hp. simpl.
    enough (update_first (fun b => match b with
              | mkBranch w c => mkBranch w <$> positional_write p new c end) children =
            Some (branch_map (tmap (retarget p new)) <$> children)) as -> by done.
    induction IH as [|[w c] bs Hb _ IHs]; csimpl in *; [by apply elem_of_nil in Hp|].
    apply NoDup_app in Hnd as (Hn1 & Hdis & Hn2).
    destruct (decide (p ∈ pane_ids c)) as [Hc|Hc].
    + rewrite Hb by done. simpl. do 2 f_equal. symmetry.
      specialize (Hdis _ Hc). clear - Hdis.
      induction bs as [|[w c] bs IH]; csimpl in *; [done|].
      apply not_elem_of_app in Hdis as [H1 H2]. rewrite IH by done.
      unfold branch_map; simpl. unfold retarget. by rewrite tmap_fresh.
    + rewrite positional_write_None by done. simpl.
      apply elem_of_app in Hp as [?|Hp]; [done|].
      rewrite IHs by done. unfold branch_map; simpl.
      unfold retarget at 2. by rewrite tmap_fresh.
Qed.

(** The place of the positional node: everything outside it is untouched. *)
Lemma positional_split p t n :
  NoDup (pane_ids t) -> positional_node p t = Some n ->
  exists l r, nodes t = l ++ n :: r /\
    Forall (fun m => is_positional p m = false) (l ++ r).
Proof.
  intros Hnd Hn. apply positional_node_Some in Hn as [Hin Hpos].
  apply list_elem_of_split in Hin as (l & r & Heq). exists l, r.
  split; [done|].
  rewrite pane_ids_nodes, Heq, fmap_app, join_app in Hnd. csimpl in Hnd.
  pose proof (nodes_atomic t) as Ha. rewrite Heq in Ha.
  apply Forall_app in Ha as [Hal Har]. inversion Har as [|?? Han Har']; subst.
  apply is_positional_ids in Hpos; [|done].
  apply NoDup_app in Hnd as (_ & Hd1 & Hnd). apply NoDup_app in Hnd as (_ & Hd2 & _).
  assert (Hgen : forall ns, Forall (fun m => atomic m = true) ns ->
            p ∉ mjoin (pane_ids <$> ns) -> Forall (fun m => is_positional p m = false) ns).
  { clear. induction ns as [|m ns IH]; intros Ha Hp; [constructor|]. csimpl in *.
    inversion Ha; subst. apply not_elem_of_app in Hp as [Hm Hns].
    constructor; [|by apply IH].
    apply not_true_is_false. by rewrite is_positional_ids. }
  apply Forall_app. split; apply Hgen; try done.
  - intros Hp. apply (Hd1 p Hp). apply elem_of_app. by left.
  - by apply Hd2.
Qed.

Lemma fmap_retarget_id p new ns :
  Forall (fun m => is_positional p m = false) ns -> retarget p new <$> ns = ns.
Proof.
  induction 1 as [|m ns Hm _ IH]; csimpl; [done|]. rewrite IH. unfold retarget. by rewrite Hm.
Qed.

Lemma positional_write_ids p new t n :
  NoDup (pane_ids t) -> positional_node p t = Some n ->
  exists rest, pane_ids t ≡ₚ pane_ids n ++ rest /\
    pane_ids (tmap (retarget p new) t) ≡ₚ pane_ids new ++ rest.
Proof.
  intros Hnd Hn. pose proof (positional_node_Some _ _ _ Hn) as [_ Hpos].
  destruct (positional_split _ _ _ Hnd Hn) as (l & r & Heq & Hf).
  apply Forall_app in Hf as [Hl Hr].
  exists (mjoin (pane_ids <$> l) ++ mjoin (pane_ids <$> r)).
  rewrite pane_ids_tmap, (pane_ids_nodes t), Heq.
  change (fun n0 => pane_ids (retarget p new n0)) with (pane_ids ∘ retarget p new).
  rewrite list_fmap_compose, !fmap_app. csimpl.
  rewrite !fmap_retarget_id by done. unfold retarget. rewrite Hpos.
  rewrite !join_app. csimpl. split; apply Permutation_app_swap_app.
Qed.

(** ** Well-formed trees *)

(** Splits have at least two children, stacks at least one pane and an
    expanded member that exists. *)
Fixpoint well_formed (t : CenterTree) : bool :=
  match t with
  | Leaf _ => true
  | Stack panes active => (active <? length panes)%nat
  | Split _ children =>
      (2 <=? length children)%nat &&
      (fix go (bs : list Branch) : bool :=
         match bs with
         | [] => true
         | mkBranch _ c :: bs' => well_formed c && go bs'
         end) children
  end.

Lemma well_formed_split dir children :
  well_formed (Split dir children) = true <->
  2 <= length children /\ Forall (fun b => well_formed (child b) = true) children.
Proof.
  cbn [well_formed]. rewrite andb_true_iff, Nat.leb_le.
  assert (((fix go (bs : list Branch) : bool :=
         match bs with
         | [] => true
         | mkBranch _ c :: bs' => well_formed c && go bs'
         end) children = true) <-> Forall (fun b => well_formed (child b) = true) children) as ->.
  { induction children as [|[w c] bs IH]; [done|].
    rewrite andb_true_iff, Forall_cons, IH. done. }
  done.
Qed.

Lemma well_formed_solid t : well_formed t = true -> solid t = true.
Proof.
  induction t as [p|panes active|dir children IH] using CenterTree_ind'; [done| |].
  - simpl. intros H. apply Nat.ltb_lt in H. apply negb_true_iff, Nat.eqb_neq. lia.
  - rewrite well_formed_split, solid_split. intros [Hlen Hf].
    split; [by destruct children; simpl in *; [lia|]|].
    rewrite Forall_forall in IH, Hf |- *. eauto.
Qed.

Lemma well_formed_nodes t :
  well_formed t = true -> Forall (fun n => well_formed n = true) (nodes t).
Proof.
  induction t as [p|panes active|dir children IH] using CenterTree_ind';
    [by repeat constructor|by intros; repeat constructor|].
  rewrite well_formed_split, nodes_split. intros [_ Hf].
  induction IH as [|b bs Hb _ IHs]; csimpl; [done|].
  inversion Hf; subst. apply Forall_app. eauto.
Qed.

Lemma well_formed_tmap f t :
  well_formed t = true -> Forall (fun n => well_formed (f n) = true) (nodes t) ->
  well_formed (tmap f t) = true.
Proof.
  induction t as [p|panes active|dir children IH] using CenterTree_ind';
    [by simpl; rewrite Forall_singleton..|].
  rewrite tmap_split, nodes_split, !well_formed_split, length_fmap.
  intros [Hlen Hf] Hn. split; [done|]. clear Hlen.
  induction IH as [|b bs Hb _ IHs]; csimpl in *; [done|].
  inversion Hf; subst. apply Forall_app in Hn as [Hn1 Hn2]. constructor; [|eauto].
  simpl. eauto.
Qed.

Lemma well_formed_retarget p new t :
  well_formed t = true -> well_formed new = true ->
  well_formed (tmap (retarget p new) t) = true.
Proof.
  intros Ht Hnew. apply well_formed_tmap; [done|].
  eapply Forall_impl; [by apply well_formed_nodes|].
  intros n Hn. unfold retarget. by destruct (is_positional p n).
Qed.

(** ** Swapping *)
Lemma positional_node_unique p t n :
  NoDup (pane_ids t) -> n ∈ nodes t -> is_positional p n = true ->
  positional_node p t = Some n.
Proof.
  intros Hnd Hin Hpos.
  assert (Hp : p ∈ pane_ids t).
  { rewrite pane_ids_nodes. apply list_elem_of_join. exists (pane_ids n). split.
    - apply is_positional_ids; [|done]. by eapply is_positional_atomic.
    - by apply list_elem_of_fmap_2. }
  destruct (positional_node_is_Some _ _ Hp) as [m Hm].
  destruct (positional_split _ _ _ Hnd Hm) as (l & r & Heq & Hf).
  rewrite Heq in Hin. rewrite Hm. f_equal. rewrite Forall_forall in Hf.
  apply elem_of_app in Hin as [Hin|Hin]; [|apply elem_of_cons in Hin as [->|Hin]; [done|]];
    exfalso; specialize (Hf n); rewrite elem_of_app, Hpos in Hf; naive_solver.
Qed.

Lemma retarget_atomic p new t :
  atomic new = true -> Forall (fun n => atomic (retarget p new n) = true) (nodes t).
Proof.
  intros H. eapply Forall_impl; [apply nodes_atomic|].
  intros n Hn. unfold retarget. by destruct (is_positional p n).
Qed.

Lemma node_ids_sub p t n q :
  positional_node p t = Some n -> q ∈ pane_ids n -> q ∈ pane_ids t.
Proof.
  intros H Hq. apply positional_node_Some in H as [Hin _].
  rewrite pane_ids_nodes. apply list_elem_of_join.
  exists (pane_ids n). split; [done|]. by apply list_elem_of_fmap_2.
Qed.

Lemma positional_node_elem p t n : positional_node p t = Some n -> p ∈ pane_ids t.
Proof.
  intros H. destruct (decide (p ∈ pane_ids t)) as [|Hp]; [done|].
  apply positional_node_None in Hp. congruence.
Qed.

Definition exchange (a b : PaneId) (na nb n : CenterTree) : CenterTree :=
  if is_positional a n then nb else if is_positional b n then na else n.

Section Swap.
Context (a b : PaneId) (t na nb : CenterTree).
Hypothesis Hnd : NoDup (pane_ids t).
Hypothesis Hsent : SENTINEL ∉ pane_ids t.
Hypothesis Hna : positional_node a t = Some na.
Hypothesis Hnb : positional_node b t = Some nb.
Hypothesis Hapart : is_positional b na = false.

Lemma swap_pos_a : na ∈ nodes t /\ is_positional a na = true.
Proof using Hna. by apply positional_node_Some. Qed.

Lemma swap_pos_b : nb ∈ nodes t /\ is_positional b nb = true.
Proof using Hnb. by apply positional_node_Some. Qed.

Lemma swap_apart : is_positional a nb = false.
Proof using All.
  apply not_true_is_false. intros H.
  destruct swap_pos_b as [Hin Hpos].
  assert (positional_node a t = Some nb) by (by apply positional_node_unique).
  congruence.
Qed.

Lemma swap_ids_sentinel p n : positional_node p t = Some n -> p <> SENTINEL.
Proof using Hsent.
  intros Hn ->. by apply Hsent, positional_node_elem with n.
Qed.

Lemma sentinel_not_positional n : n ∈ nodes t -> is_positional SENTINEL n = false.
Proof using Hsent.
  intros Hin. apply not_true_is_false. intros Hpos. apply Hsent.
  rewrite pane_ids_nodes. apply list_elem_of_join. exists (pane_ids n).
  split; [|by apply list_elem_of_fmap_2].
  apply is_positional_ids; [by eapply is_positional_atomic|done].
Qed.

Local Abbreviation t1 := (tmap (retarget a (Leaf SENTINEL)) t).
Local Abbreviation t2 := (tmap (retarget b na) t1).

Lemma swap_t1_nodes : nodes t1 = retarget a (Leaf SENTINEL) <$> nodes t.
Proof using All. apply nodes_tmap, retarget_atomic. done. Qed.

Lemma swap_t1_nodup : NoDup (pane_ids t1).
Proof using All.
  destruct (positional_write_ids a (Leaf SENTINEL) t na Hnd Hna) as (rest & H1 & H2).
  rewrite H2. rewrite H1 in Hnd, Hsent. simpl.
  apply NoDup_app in Hnd as (_ & _ & Hr).
  apply NoDup_cons. split; [|done]. intros Hin. apply Hsent, elem_of_app. by right.
Qed.

Lemma swap_t1_b : positional_node b t1 = Some nb.
Proof using All.
  apply positional_node_unique; [apply swap_t1_nodup| |apply swap_pos_b].
  rewrite swap_t1_nodes. apply list_elem_of_fmap. exists nb. split; [|apply swap_pos_b].
  unfold retarget. by rewrite swap_apart.
Qed.

Lemma swap_t2_perm :
  exists rest, SENTINEL :: pane_ids t ≡ₚ pane_ids t2 ++ rest /\ rest ≡ₚ pane_ids nb.
Proof using All.
  destruct (positional_write_ids a (Leaf SENTINEL) t na Hnd Hna) as (r1 & H1 & H2).
  destruct (positional_write_ids b na t1 nb swap_t1_nodup swap_t1_b) as (r2 & H3 & H4).
  exists (pane_ids nb). split; [|done]. rewrite H4.
  rewrite H1, Permutation_middle.
  rewrite H2 in H3. simpl in H3. rewrite H3. solve_Permutation.
Qed.

Lemma swap_t2_nodup : NoDup (pane_ids t2).
Proof using All.
  destruct swap_t2_perm as (rest & H & _).
  assert (Hn : NoDup (SENTINEL :: pane_ids t)) by (by apply NoDup_cons).
  rewrite H in Hn. by apply NoDup_app in Hn as (? & _).
Qed.

Lemma swap_na_atomic : atomic na = true.
Proof using Hna. eapply is_positional_atomic, swap_pos_a. Qed.

Lemma swap_t2_sentinel : positional_node SENTINEL t2 = Some (Leaf SENTINEL).
Proof using All.
  assert (Hbs : b <> SENTINEL) by (by eapply swap_ids_sentinel).
  apply positional_node_unique; [apply swap_t2_nodup| |done].
  rewrite nodes_tmap by apply retarget_atomic, swap_na_atomic.
  apply list_elem_of_fmap. exists (Leaf SENTINEL). split.
  - unfold retarget; cbn [is_positional]. destruct (N.eqb_spec SENTINEL b); [congruence|done].
  - rewrite swap_t1_nodes. apply list_elem_of_fmap. exists na.
    split; [|apply swap_pos_a]. unfold retarget. by rewrite (proj2 swap_pos_a).
Qed.

Lemma swap_compose : tmap (retarget SENTINEL nb) t2 = tmap (exchange a b na nb) t.
Proof using All.
  rewrite tmap_tmap by apply retarget_atomic, swap_na_atomic.
  rewrite tmap_tmap by (by apply retarget_atomic).
  apply tmap_ext, Forall_forall. intros n Hin. unfold exchange, retarget.
  destruct (is_positional a n) eqn:E1; cbn [is_positional].
  - destruct (N.eqb_spec SENTINEL b) as [Heq|_]; cbn [is_positional].
    + by apply swap_ids_sentinel in Hnb.
    + by rewrite N.eqb_refl.
  - destruct (is_positional b n) eqn:E2.
    + by rewrite sentinel_not_positional by apply swap_pos_a.
    + by rewrite sentinel_not_positional.
Qed.

Lemma swap_result : swap a b t = Some (true, tmap (exchange a b na nb) t).
Proof using All.
  assert (Hab : a <> b) by (intros Eab; destruct swap_pos_a; congruence).
  unfold swap. rewrite (proj2 (N.eqb_neq a b) Hab), Hna, Hnb. simpl.
  rewrite positional_write_Some by eauto using positional_node_elem.
  simpl. rewrite swap_t1_b. simpl.
  rewrite positional_write_Some
    by eauto using positional_node_elem, swap_t1_b, swap_t1_nodup.
  simpl. rewrite positional_write_Some
    by eauto using swap_t2_nodup, swap_t2_sentinel, positional_node_elem.
  simpl. by rewrite swap_compose.
Qed.

Lemma swap_perm : pane_ids (tmap (exchange a b na nb) t) ≡ₚ pane_ids t.
Proof using All.
  rewrite <- swap_compose.
  destruct (positional_write_ids SENTINEL nb t2 _ swap_t2_nodup swap_t2_sentinel)
    as (rest & H1 & H2).
  destruct swap_t2_perm as (r & H3 & H4). rewrite H4, H1 in H3. simpl in H3.
  apply Permutation_cons_inv in H3. rewrite H2, H3. apply Permutation_app_comm.
Qed.

Lemma swap_exchange_involutive n :
  n ∈ nodes t -> exchange a b na nb (exchange a b na nb n) = n.
Proof using All.
  intros Hin. unfold exchange at 2.
  destruct (is_positional a n) eqn:E1; [|destruct (is_positional b n) eqn:E2].
  - assert (positional_node a t = Some n) by (by apply positional_node_unique).
    unfold exchange. rewrite swap_apart, (proj2 swap_pos_b). congruence.
  - assert (positional_node b t = Some n) by (by apply positional_node_unique).
    unfold exchange. rewrite (proj2 swap_pos_a). congruence.
  - unfold exchange. by rewrite E1, E2.
Qed.

Lemma swap_result_nodes : nodes (tmap (exchange a b na nb) t) = exchange a b na nb <$> nodes t.
Proof using Hna Hnb.
  apply nodes_tmap. eapply Forall_impl; [apply nodes_atomic|]. intros n Hn.
  pose proof (is_positional_atomic _ _ (proj2 swap_pos_a)).
  pose proof (is_positional_atomic _ _ (proj2 swap_pos_b)).
  unfold exchange. by repeat case_match.
Qed.
End Swap.

(** Swapping two panes that do not share a stack never panics: it moves
    each pane's positional node (the leaf, or the whole stack) into the other's
    slot and leaves the shape and every weight alone; no pane is lost or
    duplicated; and swapping again restores the tree exactly.  [SENTINEL] is
    the reserved id the code borrows while it moves the nodes. *)
Theorem swap_exchanges (a b : PaneId) (t na nb : CenterTree) :
  NoDup (pane_ids t) -> SENTINEL ∉ pane_ids t ->
  positional_node a t = Some na -> positional_node b t = Some nb ->
  is_positional b na = false ->
  swap a b t = Some (true, tmap (exchange a b na nb) t) /\
  pane_ids (tmap (exchange a b na nb) t) ≡ₚ pane_ids t /\
  swap a b (tmap (exchange a b na nb) t) = Some (true, t).
Proof.
  intros Hnd Hs Hna Hnb Hap.
  pose proof (swap_perm a b t na nb Hnd Hs Hna Hnb Hap) as Hperm.
  split_and!; [by apply swap_result|done|].
  assert (Hn : forall p n m, is_positional p n = true -> m ∈ nodes t ->
            n = exchange a b na nb m ->
            positional_node p (tmap (exchange a b na nb) t) = Some n).
  { intros p n m Hp Hm ->. apply positional_node_unique; [by rewrite Hperm| |done].
    rewrite swap_result_nodes by done. by apply list_elem_of_fmap_2. }
  pose proof (swap_pos_a a t na Hna) as [HaN HaP].
  pose proof (swap_pos_b b t nb Hnb) as [HbN HbP].
  assert (Hapart : is_positional a nb = false) by (by eapply swap_apart).
  rewrite (swap_result a b _ na nb); [|by rewrite Hperm..| | |done].
  - rewrite tmap_tmap.
    + do 2 f_equal. rewrite <- (tmap_id t) at 2. apply tmap_ext, Forall_forall.
      intros n Hin. by apply (swap_exchange_involutive a b t na nb).
    + pose proof (nodes_atomic (tmap (exchange a b na nb) t)) as Hat.
      rewrite swap_result_nodes in Hat by done. by apply Forall_fmap in Hat.
  - apply (Hn a na nb); [done..|]. unfold exchange. by rewrite Hapart, HbP.
  - apply (Hn b nb na); [done..|]. unfold exchange. by rewrite HaP.
Qed.

Lemma swap_exchanges_witness :
  swap 1 5 demo_tree = Some (true, tmap (exchange 1 5 (Leaf 1) (Leaf 5)) demo_tree).
Proof.
  apply (swap_exchanges 1 5 demo_tree (Leaf 1) (Leaf 5)); try reflexivity.
  - apply (bool_decide_unpack _). vm_compute. exact I.
  - apply (bool_decide_unpack _). vm_compute. exact I.
Defined.
