(* ===== verification/CenterInv.v ===== *)
(** * What every edit keeps

    [split], [remove], [anchor] and [resize] on the center tree, the defect of
    [remove] on a one-pane stack, and the invariant of all edits as a step
    relation. *)

From S2P Require Import Prelude RustFloat Center CenterTiling CenterEdit.
From Stdlib Require Import SpecFloat.

(** ** [any_mut] over the branches of a split *)
Section AnyMut.
Context (f : CenterTree -> bool * CenterTree).

Definition on_branch (b : Branch) : bool * Branch :=
  match b with mkBranch w c => let '(r, c') := f c in (r, mkBranch w c') end.

(** A closure that leaves a refused branch unchanged. *)
Lemma any_mut_true bs bs' :
  Forall (fun b => forall c', f (child b) = (false, c') -> c' = child b) bs ->
  any_mut on_branch bs = (true, bs') ->
  exists l w c c' r, bs = l ++ mkBranch w c :: r /\ f c = (true, c') /\
    bs' = l ++ mkBranch w c' :: r.
Proof.
  intros Hf. revert bs'. induction Hf as [|[w c] bs Hb _ IH]; intros bs'; simpl; [done|].
  destruct (f c) as [[] c'] eqn:E.
  - intros [= <-]. by exists [], w, c, c', bs.
  - apply Hb in E as E'. simpl in E'; subst c'.
    destruct (any_mut on_branch bs) as [r bs''] eqn:E2. intros [= -> <-].
    destruct (IH _ eq_refl) as (l & w2 & c2 & c2' & r2 & -> & Hc & ->).
    by exists (mkBranch w c :: l), w2, c2, c2', r2.
Qed.

Lemma any_mut_false bs bs' :
  any_mut on_branch bs = (false, bs') -> bs' = (fun b => snd (on_branch b)) <$> bs /\
  Forall (fun b => fst (f (child b)) = false) bs.
Proof.
  revert bs'. induction bs as [|[w c] bs IH]; intros bs'; simpl; [by intros [= <-]|].
  destruct (f c) as [[] c'] eqn:E; [done|].
  destruct (any_mut on_branch bs) as [r bs''] eqn:E2. intros [= -> <-].
  destruct (IH _ eq_refl) as [-> Hf]. split; [done|]. constructor; simpl; [by rewrite E|done].
Qed.

Lemma any_mut_skip bs :
  Forall (fun b => f (child b) = (false, child b)) bs ->
  any_mut on_branch bs = (false, bs).
Proof.
  induction 1 as [|[w c] bs Hb _ IH]; simpl in *; [done|]. by rewrite Hb, IH.
Qed.
End AnyMut.

(** ** Splitting *)
Lemma split_split target dir new d children :
  split target dir new (Split d children) =
  (let '(r, bs) := any_mut (on_branch (split target dir new)) children in (r, Split d bs)).
Proof. done. Qed.

Lemma split_false target dir new t t' : split target dir new t = (false, t') -> t' = t.
Proof.
  revert t'. induction t as [p|panes active|d children IH] using CenterTree_ind'; intros t'.
  - simpl. by destruct (_ =? _)%N; intros [= <-].
  - simpl. by intros [= <-].
  - rewrite split_split. destruct (any_mut _ _) as [r bs] eqn:E. intros [= -> <-].
    apply any_mut_false in E as [-> Hf]. f_equal.
    induction IH as [|[w c] bs Hb _ IHs]; [done|].
    inversion Hf as [|?? Hc Hfs]; subst. csimpl in *. rewrite IHs by done.
    destruct (split target dir new c) as [r c'] eqn:E. simpl in *; subst r.
    by rewrite (Hb _ eq_refl).
Qed.

Lemma split_true target dir new t t' :
  split target dir new t = (true, t') ->
  Leaf target ∈ nodes t /\ pane_ids t' ≡ₚ new :: pane_ids t /\
  (well_formed t = true -> well_formed t' = true).
Proof.
  revert t'. induction t as [p|panes active|d children IH] using CenterTree_ind'; intros t'.
  - simpl. destruct (N.eqb_spec p target) as [->|]; [|done]. intros [= <-].
    split_and!; [by apply list_elem_of_singleton| |done]. apply Permutation_swap.
  - done.
  - rewrite split_split. destruct (any_mut _ _) as [r bs] eqn:E. intros [= -> <-].
    apply any_mut_true in E as (l & w & c & c' & r & -> & Hc & ->);
      [|apply Forall_true; intros ? ? ?; by eapply split_false].
    apply Forall_app in IH as [_ IH]. inversion IH as [|?? IHc _]; subst.
    destruct (IHc _ Hc) as (Hin & Hp & Hwf). split_and!.
    + rewrite nodes_split, fmap_app, join_app. csimpl. rewrite !elem_of_app. tauto.
    + rewrite !pane_ids_split, !fmap_app, !join_app. csimpl.
      simpl in Hp. rewrite Hp. solve_Permutation.
    + rewrite !well_formed_split, !length_app, !Forall_app, !Forall_cons.
      simpl in *. intuition auto.
Qed.

Lemma split_found target dir new t :
  Leaf target ∈ nodes t -> exists t', split target dir new t = (true, t').
Proof.
  induction t as [p|panes active|d children IH] using CenterTree_ind'; intros Hin.
  - simpl in *. apply list_elem_of_singleton in Hin as [= ->]. rewrite N.eqb_refl. eauto.
  - by apply list_elem_of_singleton in Hin.
  - rewrite split_split, nodes_split in *.
    enough (exists bs, any_mut (on_branch (split target dir new)) children = (true, bs))
      as [bs ->] by eauto.
    induction IH as [|[w c] bs Hb _ IHs]; [by apply elem_of_nil in Hin|].
    csimpl in *. apply elem_of_app in Hin as [Hin|Hin].
    + destruct (Hb Hin) as [c' ->]. eauto.
    + destruct (split target dir new c) as [[] c']; [eauto|].
      destruct (IHs Hin) as [bs' ->]. eauto.
Qed.

(** Splitting succeeds exactly when the target is a tiled pane, adds
    exactly the new pane and keeps the tree well formed; a refused split
    changes nothing. *)
Theorem split_correct (target : PaneId) (dir : Dir) (new : PaneId) (t : CenterTree) :
  (fst (split target dir new t) = true <-> Leaf target ∈ nodes t) /\
  (fst (split target dir new t) = false -> snd (split target dir new t) = t) /\
  (fst (split target dir new t) = true ->
     pane_ids (snd (split target dir new t)) ≡ₚ new :: pane_ids t /\
     (well_formed t = true -> well_formed (snd (split target dir new t)) = true)).
Proof.
  destruct (split target dir new t) as [r t'] eqn:E; simpl. split_and!.
  - split.
    + intros ->. by apply split_true in E as (? & _).
    + intros H. apply (split_found target dir new) in H as [t'' H]. congruence.
  - intros ->. by apply split_false in E.
  - intros ->. by apply split_true in E as (_ & ?).
Qed.

(** ** Closing *)
Lemma remove_split target dir children :
  remove target (Split dir children) =
  match position (is_leaf target) children with
  | Some i =>
      match vec_remove i children with
      | [only] => (true, child only)
      | rest => (true, Split dir rest)
      end
  | None =>
      let '(r, bs) := any_mut (on_branch (remove target)) children in (r, Split dir bs)
  end.
Proof. done. Qed.

Lemma is_leaf_true target b : is_leaf target b = true -> child b = Leaf target.
Proof.
  unfold is_leaf. destruct (child b); try done.
  destruct (N.eqb_spec p target); [by subst|done].
Qed.

Lemma position_in target (panes : list PaneId) :
  position (fun p => p =? target)%N panes = None <-> target ∉ panes.
Proof.
  rewrite position_None, Forall_forall. split.
  - intros H Hin. apply H in Hin. by rewrite N.eqb_refl in Hin.
  - intros H p Hp. apply N.eqb_neq. congruence.
Qed.

Lemma remove_notin target t : target ∉ pane_ids t -> remove target t = (false, t).
Proof.
  induction t as [p|panes active|dir children IH] using CenterTree_ind'; intros Hp.
  - done.
  - simpl in *. by apply position_in in Hp as ->.
  - rewrite remove_split, pane_ids_split in *.
    assert (Hall : Forall (fun b => target ∉ pane_ids (child b)) children).
    { apply Forall_forall. intros b Hb Hin. apply Hp, list_elem_of_join.
      exists (pane_ids (child b)). split; [done|]. apply list_elem_of_fmap. eauto. }
    assert (position (is_leaf target) children = None) as ->.
    { apply position_None. eapply Forall_impl; [exact Hall|]. simpl. intros b Hb.
      apply not_true_is_false. intros H. apply Hb. rewrite (is_leaf_true _ _ H).
      by apply list_elem_of_singleton. }
    rewrite any_mut_skip; [done|].
    rewrite Forall_forall in IH, Hall |- *. eauto.
Qed.

Lemma remove_stack_true target panes active t' :
  remove target (Stack panes active) = (true, t') ->
  panes ≡ₚ target :: pane_ids t' /\
  (active < length panes -> well_formed t' = true).
Proof.
  simpl. destruct (position _ panes) as [i|] eqn:E; [|done]. intros [= Hlen <-].
  apply position_Some in E as (p & Hi & ->%N.eqb_eq). simpl.
  apply negb_true_iff, Nat.eqb_neq in Hlen.
  split; [by apply vec_remove_perm|]. intros Ha.
  apply length_vec_remove in Hi. apply Nat.ltb_lt. split_ifs; lia.
Qed.

(** Removing a direct leaf child collapses a split left with one child. *)
Lemma remove_direct target dir children i b :
  children !! i = Some b -> child b = Leaf target ->
  exists t',
    match vec_remove i children with
    | [only] => (true, child only)
    | rest => (true, Split dir rest)
    end = (true, t') /\
    pane_ids (Split dir children) ≡ₚ target :: pane_ids t' /\
    (well_formed (Split dir children) = true -> well_formed t' = true).
Proof.
  intros Hi Hb.
  assert (Hids : pane_ids (Split dir children) ≡ₚ
                 target :: mjoin ((fun b => pane_ids (child b)) <$> vec_remove i children)).
  { rewrite pane_ids_split. rewrite <- (take_drop_middle _ _ _ Hi) at 1.
    unfold vec_remove. rewrite !fmap_app, !join_app. csimpl. rewrite Hb. simpl.
    by rewrite Permutation_middle. }
  assert (Hwf : well_formed (Split dir children) = true ->
                1 <= length (vec_remove i children) /\
                Forall (fun b => well_formed (child b) = true) (vec_remove i children)).
  { rewrite well_formed_split. intros [Hlen Hf].
    pose proof (length_vec_remove _ _ _ Hi). split; [lia|].
    rewrite (vec_remove_perm _ _ _ Hi) in Hf. by inversion Hf. }
  destruct (vec_remove i children) as [|only [|c2 rest]].
  - eexists. split_and!; [done|done|]. intros H. apply Hwf in H as [? _]. simpl in *; lia.
  - eexists. split_and!; [done| |].
    + csimpl in Hids. by rewrite app_nil_r in Hids.
    + intros H. apply Hwf in H as [_ Hf]. by inversion Hf.
  - eexists. split_and!; [done|by rewrite (pane_ids_split dir (only :: c2 :: rest))|].
    intros H. apply Hwf in H as [_ Hf]. rewrite well_formed_split. simpl. split; [lia|done].
Qed.

Lemma remove_true target t t' :
  NoDup (pane_ids t) -> remove target t = (true, t') ->
  pane_ids t ≡ₚ target :: pane_ids t' /\
  (well_formed t = true -> well_formed t' = true).
Proof.
  revert t'. induction t as [p|panes active|dir children IH] using CenterTree_ind';
    intros t' Hnd.
  - done.
  - intros H. apply remove_stack_true in H as [? Hwf]. split; [done|].
    cbn [well_formed]. intros Ha. apply Hwf. by apply Nat.ltb_lt.
  - rewrite remove_split. destruct (position _ children) as [i|] eqn:E.
    + apply position_Some in E as (b & Hi & Hb%is_leaf_true).
      destruct (remove_direct target dir children i b Hi Hb) as (t'' & -> & H).
      by intros [= <-].
    + destruct (any_mut _ _) as [r bs] eqn:E2. intros [= -> <-]. clear E.
      revert bs E2. rewrite pane_ids_split in Hnd.
      enough (forall bs, any_mut (on_branch (remove target)) children = (true, bs) ->
        mjoin ((fun b => pane_ids (child b)) <$> children) ≡ₚ
          target :: mjoin ((fun b => pane_ids (child b)) <$> bs) /\
        length bs = length children /\
        (Forall (fun b => well_formed (child b) = true) children ->
         Forall (fun b => well_formed (child b) = true) bs)) as Hgen.
      { intros bs E2. destruct (Hgen _ E2) as (Hp & Hlen & Hwf).
        rewrite !pane_ids_split, !well_formed_split, Hlen. split; [done|]. intuition. }
      induction IH as [|[w c] bs Hb _ IHs]; intros bs'; [done|].
      csimpl in Hnd. apply NoDup_app in Hnd as (Hn1 & Hdis & Hn2). csimpl.
      destruct (remove target c) as [[] c'] eqn:Ec.
      * intros [= <-]. destruct (Hb _ Hn1 Ec) as [Hp Hwf]. csimpl in *. split_and!; [|done|].
        -- by rewrite Hp.
        -- rewrite !Forall_cons. simpl. tauto.
      * destruct (any_mut _ bs) as [r bs''] eqn:E2. intros [= -> <-].
        destruct (IHs Hn2 _ eq_refl) as (Hp & Hlen & Hwf). csimpl.
        assert (target ∉ pane_ids c) as Hc.
        { intros Hin. apply (Hdis _ Hin). rewrite Hp. by left. }
        apply remove_notin in Hc. rewrite Hc in Ec. injection Ec as <-.
        rewrite Hlen, !Forall_cons, Hp. csimpl. split_and!; [|done|tauto].
        by rewrite Permutation_middle.
Qed.

Definition no_lone (target : PaneId) (t : CenterTree) : Prop :=
  forall a, Stack [target] a ∉ nodes t.

Lemma no_lone_split target dir children :
  no_lone target (Split dir children) <-> Forall (fun b => no_lone target (child b)) children.
Proof.
  unfold no_lone. rewrite nodes_split, Forall_forall. split.
  - intros H b Hb a Hin. apply (H a), list_elem_of_join. exists (nodes (child b)).
    split; [done|]. apply list_elem_of_fmap. eauto.
  - intros H a Hin. apply list_elem_of_join in Hin as (l & Hin & Hl).
    apply list_elem_of_fmap in Hl as (b & -> & Hb). by apply (H b Hb a).
Qed.

Lemma remove_false target t t' :
  no_lone target t -> remove target t = (false, t') -> t' = t.
Proof.
  revert t'. induction t as [p|panes active|dir children IH] using CenterTree_ind';
    intros t' Hl.
  - by intros [= <-].
  - simpl. destruct (position _ panes) as [i|] eqn:E; [|by intros [= <-]].
    intros [= Hlen <-]. exfalso. apply (Hl active).
    apply position_Some in E as (p & Hi & ->%N.eqb_eq).
    apply negb_false_iff, Nat.eqb_eq in Hlen.
    pose proof (vec_remove_perm _ _ _ Hi) as Hp.
    destruct (vec_remove i panes); [|done].
    apply Permutation_singleton_r in Hp as ->. by apply list_elem_of_singleton.
  - rewrite remove_split. destruct (position _ children) as [i|] eqn:E.
    + by destruct (vec_remove i children) as [|? []].
    + destruct (any_mut _ _) as [r bs] eqn:E2. intros [= -> <-]. clear E. f_equal.
      apply any_mut_false in E2 as [-> Hf]. apply no_lone_split in Hl.
      induction IH as [|[w c] bs Hb _ IHs]; [done|].
      inversion Hf as [|?? Hc Hfs]; inversion Hl as [|?? Hlc Hls]; subst.
      csimpl in *. rewrite IHs by done.
      destruct (remove target c) as [r c'] eqn:E. simpl in *; subst r.
      by rewrite (Hb _ Hlc eq_refl).
Qed.

Lemma remove_found target t :
  no_lone target t -> target ∈ pane_ids t -> t <> Leaf target ->
  exists t', remove target t = (true, t').
Proof.
  induction t as [p|panes active|dir children IH] using CenterTree_ind'; intros Hl Hin Hne.
  - simpl in Hin. apply list_elem_of_singleton in Hin. congruence.
  - simpl in *. destruct (position _ panes) as [i|] eqn:E; [|by apply position_in in E].
    destruct (remove target (Stack panes active)) as [[] t'] eqn:Er; simpl in Er; rewrite E in Er.
    + injection Er as -> ->. eauto.
    + exfalso. assert (Hr : remove target (Stack panes active) = (false, t')).
      { simpl. by rewrite E. }
      apply remove_false in Hr; [|done]. subst t'. injection Er as _ Hv _.
      apply position_Some in E as (p & Hi & _). apply length_vec_remove in Hi.
      rewrite Hv in Hi. lia.
  - rewrite remove_split. destruct (position (is_leaf target) children) as [i|] eqn:E.
    { destruct (vec_remove i children) as [|? []]; eauto. }
    apply position_None in E.
    enough (exists bs, any_mut (on_branch (remove target)) children = (true, bs))
      as [bs ->] by eauto.
    apply no_lone_split in Hl. rewrite pane_ids_split in Hin. clear Hne.
    induction IH as [|[w c] bs Hb _ IHs]; [by apply elem_of_nil in Hin|].
    inversion E as [|?? Ec Es]; inversion Hl as [|?? Hlc Hls]; subst. csimpl in *.
    destruct (remove target c) as [[] c'] eqn:Er; [eauto|].
    apply elem_of_app in Hin as [Hin|Hin].
    + destruct Hb as [? ?]; [done|done| |congruence].
      intros ->. unfold is_leaf in Ec. simpl in Ec. by rewrite N.eqb_refl in Ec.
    + destruct IHs as [bs' ->]; eauto.
Qed.

(** Closing a pane of a tree with distinct panes and no stack holding only
    that pane: it succeeds exactly when the pane is in the tree and is not the
    whole tree, takes away exactly that pane and keeps the tree well formed; a
    refusal changes nothing. *)
Theorem remove_correct (target : PaneId) (t : CenterTree) :
  NoDup (pane_ids t) -> no_lone target t ->
  (fst (remove target t) = true <-> target ∈ pane_ids t /\ t <> Leaf target) /\
  (fst (remove target t) = true ->
     pane_ids t ≡ₚ target :: pane_ids (snd (remove target t)) /\
     (well_formed t = true -> well_formed (snd (remove target t)) = true)) /\
  (fst (remove target t) = false -> snd (remove target t) = t).
Proof.
  intros Hnd Hl. destruct (remove target t) as [r t'] eqn:E; simpl. split_and!.
  - split.
    + intros ->. split; [|by intros ->].
      apply remove_true in E as [-> _]; [by left|done].
    + intros [Hin Hne]. destruct (remove_found _ _ Hl Hin Hne). congruence.
  - intros ->. by apply remove_true in E.
  - intros ->. by apply remove_false in E.
Qed.

Lemma remove_correct_witness :
  pane_ids demo_tree ≡ₚ 3%N :: pane_ids (snd (remove 3 demo_tree)).
Proof.
  apply (remove_correct 3 demo_tree).
  - apply (bool_decide_unpack _). vm_compute. exact I.
  - intros a. simpl. rewrite !not_elem_of_cons. split_and!; try done. apply not_elem_of_nil.
  - reflexivity.
Defined.

(** Closing the pane of a one-pane stack reports that nothing was removed,
    yet the pane is gone from the tree: the stack stays behind empty, and its
    whole rectangle is left without any pane or bar. *)
Theorem remove_lone_stack (dir : Dir) (p q : PaneId) (w1 w2 : f32) (a : nat) (rect : Rect) :
  p <> q ->
  let t := Split dir [mkBranch w1 (Stack [p] a); mkBranch w2 (Leaf q)] in
  let t' := Split dir [mkBranch w1 (Stack [] 0); mkBranch w2 (Leaf q)] in
  remove p t = (false, t') /\ pane_ids t' = [q] /\
  (fst <$> layout t' rect) = [q] /\ stack_bars t' rect = [].
Proof.
  intros Hne t t'. split_and!.
  - subst t. rewrite remove_split. unfold is_leaf; simpl.
    rewrite (proj2 (N.eqb_neq q p)) by congruence. simpl. by rewrite N.eqb_refl.
  - done.
  - reflexivity.
  - done.
Qed.

Lemma remove_lone_stack_witness :
  remove 1 (Split Row [mkBranch F32.one (Stack [1%N] 0); mkBranch F32.one (Leaf 2)]) =
  (false, Split Row [mkBranch F32.one (Stack [] 0); mkBranch F32.one (Leaf 2)]).
Proof. apply (remove_lone_stack Row 1 2 F32.one F32.one 0 (Rect_full 80 24)). lia. Defined.

(** ** Re-anchoring *)
Lemma even_pair_ids dir a b : pane_ids (even_pair dir a b) = pane_ids a ++ pane_ids b.
Proof. simpl. by rewrite app_nil_r. Qed.

Lemma even_pair_wf dir a b :
  well_formed a = true -> well_formed b = true -> well_formed (even_pair dir a b) = true.
Proof. intros Ha Hb. simpl. by rewrite Ha, Hb. Qed.

Lemma anchor_true dragged target side t t' :
  NoDup (pane_ids t) -> anchor dragged target side t = (true, t') ->
  pane_ids t' ≡ₚ pane_ids t /\ (well_formed t = true -> well_formed t' = true).
Proof.
  intros Hnd. unfold anchor.
  destruct (_ || _)%bool; [done|].
  destruct (remove dragged t) as [r t1] eqn:Er. destruct r; simpl; [|done].
  apply remove_true in Er as [Hp Hwf]; [|done].
  destruct (positional_node target t1) as [sub|] eqn:En; [|done].
  assert (Hnd1 : NoDup (pane_ids t1)) by (rewrite Hp in Hnd; by apply NoDup_cons in Hnd as [_ ?]).
  rewrite positional_write_Some by eauto using positional_node_elem. intros [= <-].
  set (node := if dragged_first side then _ else _).
  assert (Hids : pane_ids node ≡ₚ dragged :: pane_ids sub).
  { subst node. destruct (dragged_first side); rewrite even_pair_ids; simpl; [done|].
    apply Permutation_app_comm. }
  destruct (positional_write_ids target node t1 sub Hnd1 En) as (rest & H1 & H2).
  split; [by rewrite H2, Hids, Hp, H1|]. intros Ht. apply Hwf in Ht.
  apply well_formed_retarget; [done|].
  assert (well_formed sub = true).
  { apply positional_node_Some in En as [Hin _].
    apply well_formed_nodes in Ht. rewrite Forall_forall in Ht. eauto. }
  subst node. destruct (dragged_first side); by apply even_pair_wf.
Qed.

(** Dragging a pane next to another one succeeds whenever both are in the
    tree, differ, and the dragged pane does not fill a stack by itself; it
    loses and duplicates no pane and keeps the tree well formed. *)
Theorem anchor_correct (dragged target : PaneId) (side : Side) (t : CenterTree) :
  NoDup (pane_ids t) -> no_lone dragged t ->
  dragged ∈ pane_ids t -> target ∈ pane_ids t -> dragged <> target ->
  fst (anchor dragged target side t) = true /\
  pane_ids (snd (anchor dragged target side t)) ≡ₚ pane_ids t /\
  (well_formed t = true -> well_formed (snd (anchor dragged target side t)) = true).
Proof.
  intros Hnd Hl Hd Ht Hne.
  enough (exists t', anchor dragged target side t = (true, t')) as [t' E].
  { rewrite E. split; [done|]. by apply anchor_true in E. }
  unfold anchor. rewrite (proj2 (N.eqb_neq _ _) Hne).
  rewrite !bool_decide_false by (by rewrite positional_node_None; auto). simpl.
  assert (Hleaf : t <> Leaf dragged).
  { intros ->. simpl in Ht. apply list_elem_of_singleton in Ht. congruence. }
  destruct (remove_found _ _ Hl Hd Hleaf) as [t1 E1]. rewrite E1. simpl.
  destruct (remove_true _ _ _ Hnd E1) as [Hp _].
  assert (Ht1 : target ∈ pane_ids t1).
  { rewrite Hp in Ht. apply elem_of_cons in Ht as [->|]; done. }
  destruct (positional_node_is_Some _ _ Ht1) as [sub ->].
  rewrite positional_write_Some; [eauto| |done].
  rewrite Hp in Hnd. by apply NoDup_cons in Hnd as [_ ?].
Qed.

Lemma anchor_correct_witness :
  pane_ids (snd (anchor 1 6 STop demo_tree)) ≡ₚ pane_ids demo_tree.
Proof.
  apply (anchor_correct 1 6 STop demo_tree).
  - apply (bool_decide_unpack _). vm_compute. exact I.
  - intros a. simpl. rewrite !not_elem_of_cons. split_and!; try done. apply not_elem_of_nil.
  - apply (bool_decide_unpack _). vm_compute. exact I.
  - apply (bool_decide_unpack _). vm_compute. exact I.
  - lia.
Defined.

(** ** Resizing *)

(** A tree with its weights forgotten. *)
Fixpoint erase (t : CenterTree) : CenterTree :=
  match t with
  | Leaf _ | Stack _ _ => t
  | Split dir children =>
      Split dir
        ((fix go (bs : list Branch) : list Branch :=
            match bs with
            | [] => []
            | mkBranch _ c :: bs' => mkBranch F32.zero (erase c) :: go bs'
            end) children)
  end.

Definition erase_branch (b : Branch) : Branch := mkBranch F32.zero (erase (child b)).

Lemma erase_split dir children :
  erase (Split dir children) = Split dir (erase_branch <$> children).
Proof. simpl. f_equal. induction children as [|[w c] bs IH]; simpl; [done|]. by rewrite IH. Qed.

Lemma shift_pair_shape children g s step :
  erase_branch <$> snd (shift_pair children g s step) = erase_branch <$> children /\
  (fst (shift_pair children g s step) = false ->
     snd (shift_pair children g s step) = children) /\
  (forall k, k <> g -> k <> s ->
     snd (shift_pair children g s step) !! k = children !! k).
Proof.
  unfold shift_pair.
  destruct (children !! g) as [[wg cg]|] eqn:Hg; [|done].
  destruct (children !! s) as [[ws cs]|] eqn:Hs; [|done].
  destruct (SFleb _ F32.zero); [done|]. destruct (SFleb _ F32.epsilon); [done|].
  simpl. split_and!; [|done|].
  - rewrite !list_fmap_insert. unfold erase_branch at 1 2; simpl.
    rewrite (list_insert_id (_ <$> children) g); [rewrite list_insert_id; [done|]|].
    + by rewrite list_lookup_fmap, Hs.
    + by rewrite list_lookup_fmap, Hg.
  - intros k H1 H2. by rewrite !list_lookup_insert_ne by congruence.
Qed.

Lemma resize_here_shape dir ax high step i children :
  erase_branch <$> snd (resize_here dir ax high step i children) = erase_branch <$> children /\
  (fst (resize_here dir ax high step i children) <> Done true ->
     snd (resize_here dir ax high step i children) = children).
Proof.
  unfold resize_here. destruct (decide (dir = ax)); [|done].
  destruct (if high then _ else _) as [j|]; [|done].
  pose proof (shift_pair_shape children i j step) as (H1 & H2 & _).
  destruct (shift_pair children i j step) as [[] cs]; simpl in *; [done|]. auto.
Qed.

Fixpoint resize_loop (target : PaneId) (dir ax : Dir) (high : bool) (step : f32)
    (i : nat) (before bs : list Branch) : WalkResize * list Branch :=
  match bs with
  | [] => (NotFound, before)
  | mkBranch w c :: bs' =>
      let '(r, c') := resize_walk target ax high step c in
      match r with
      | Done changed => (Done changed, before ++ mkBranch w c' :: bs')
      | NotFound => resize_loop target dir ax high step (S i) (before ++ [mkBranch w c']) bs'
      | Contains => resize_here dir ax high step i (before ++ mkBranch w c' :: bs')
      end
  end.

Lemma resize_walk_split target ax high step dir children :
  resize_walk target ax high step (Split dir children) =
  (let '(r, bs) := resize_loop target dir ax high step 0 [] children in (r, Split dir bs)).
Proof.
  cbn [resize_walk].
  match goal with
  | |- (let '(_, _) := ?go 0 [] children in _) = _ =>
      enough (forall i before, go i before children =
                resize_loop target dir ax high step i before children) as H
        by (by rewrite H)
  end.
  induction children as [|[w c] bs IH]; intros i before; simpl; [done|].
  by destruct (resize_walk target ax high step c) as [[| |[]] c'].
Qed.

Lemma resize_walk_shape target ax high step t :
  erase (snd (resize_walk target ax high step t)) = erase t /\
  (fst (resize_walk target ax high step t) <> Done true ->
     snd (resize_walk target ax high step t) = t).
Proof.
  induction t as [p|panes active|dir children IH] using CenterTree_ind'; [done|done|].
  rewrite resize_walk_split.
  enough (forall i before,
    erase_branch <$> snd (resize_loop target dir ax high step i before children) =
      erase_branch <$> (before ++ children) /\
    (fst (resize_loop target dir ax high step i before children) <> Done true ->
       snd (resize_loop target dir ax high step i before children) = before ++ children)) as H.
  { specialize (H 0 []). destruct (resize_loop _ _ _ _ _ _ _ _) as [r bs]; cbn [fst snd app] in *.
    rewrite !erase_split. destruct H as [-> H]. split; [done|]. intros. f_equal. auto. }
  induction IH as [|[w c] bs Hc _ IHs]; intros i before; simpl.
  { by rewrite app_nil_r. }
  simpl in Hc. destruct (resize_walk target ax high step c) as [r c'].
  simpl in Hc. destruct Hc as [He Hu].
  assert (Hbe : forall b, erase_branch <$> (b ++ mkBranch w c' :: bs) =
                          erase_branch <$> (b ++ mkBranch w c :: bs)).
  { intros b. rewrite !fmap_app. csimpl. do 2 f_equal. unfold erase_branch; simpl. by rewrite He. }
  destruct r as [| |changed].
  - rewrite Hu by done. specialize (IHs (S i) (before ++ [mkBranch w c])).
    rewrite <- app_assoc in IHs. done.
  - rewrite Hu by done. apply resize_here_shape.
  - simpl. split; [apply Hbe|]. intros H. by rewrite Hu.
Qed.

(** A resize never adds, drops, reorders or re-nests panes: it can change
    weights only, and reports [Resized] whenever it changed anything at all, so
    the caller persists exactly the layouts that moved. *)
Theorem resize_correct (target : PaneId) (mv : Move) (step : f32) (t : CenterTree) :
  erase (snd (resize target mv step t)) = erase t /\
  (fst (resize target mv step t) <> Resized -> snd (resize target mv step t) = t).
Proof.
  unfold resize. pose proof (resize_walk_shape target (axis mv) (toward_high mv) step t) as [H1 H2].
  destruct (resize_walk _ _ _ _ _) as [[| |[]] t']; simpl in *; auto.
Qed.

(** Forgetting weights keeps the panes and the shape. *)
Lemma erase_ids t : pane_ids (erase t) = pane_ids t.
Proof.
  induction t as [p|panes active|dir children IH] using CenterTree_ind'; [done|done|].
  rewrite erase_split, !pane_ids_split.
  induction IH as [|b bs Hb _ IHs]; csimpl in *; [done|]. by rewrite Hb, IHs.
Qed.

Lemma erase_wf t : well_formed (erase t) = well_formed t.
Proof.
  induction t as [p|panes active|dir children IH] using CenterTree_ind'; [done|done|].
  apply eq_true_iff_eq. rewrite erase_split, !well_formed_split, length_fmap.
  assert (Forall (fun b => well_formed (child b) = true) (erase_branch <$> children) <->
          Forall (fun b => well_formed (child b) = true) children) as ->; [|done].
  induction IH as [|b bs Hb _ IHs]; csimpl in *; [done|].
  rewrite !Forall_cons, IHs. simpl. by rewrite Hb.
Qed.

(** ** Expanding a stack member *)
Lemma activate_ids pane t :
  pane_ids (snd (activate_stack_member pane t)) = pane_ids t /\
  (well_formed t = true -> well_formed (snd (activate_stack_member pane t)) = true).
Proof.
  induction t as [p|panes active|dir children IH] using CenterTree_ind'; [done| |].
  - simpl. destruct (position _ panes) as [i|] eqn:E; [|done]. simpl. split; [done|].
    intros _. apply position_Some in E as (p & Hi & _).
    apply Nat.ltb_lt. by apply lookup_lt_Some in Hi.
  - change (activate_stack_member pane (Split dir children))
      with (let '(r, bs) := any_mut (on_branch (activate_stack_member pane)) children in
            (r, Split dir bs)).
    enough (forall bs r, any_mut (on_branch (activate_stack_member pane)) children = (r, bs) ->
      mjoin ((fun b => pane_ids (child b)) <$> bs) =
        mjoin ((fun b => pane_ids (child b)) <$> children) /\
      length bs = length children /\
      (Forall (fun b => well_formed (child b) = true) children ->
       Forall (fun b => well_formed (child b) = true) bs)) as Hgen.
    { destruct (any_mut _ _) as [r bs]. destruct (Hgen _ _ eq_refl) as (Hp & Hlen & Hwf).
      cbn [snd]. rewrite !pane_ids_split, !well_formed_split, Hlen. split; [done|]. intuition. }
    induction IH as [|[w c] bs Hb _ IHs]; intros bs' r; simpl; [by intros [= <- <-]|].
    simpl in Hb. destruct (activate_stack_member pane c) as [rc c'].
    simpl in Hb. destruct Hb as [Hi Hw]. destruct rc.
    + intros [= <- <-]. csimpl. rewrite Hi, !Forall_cons. simpl. tauto.
    + destruct (any_mut _ bs) as [r' bs'']. intros [= <- <-].
      destruct (IHs _ _ eq_refl) as (Hp & Hlen & Hwf). csimpl.
      rewrite Hi, Hp, Hlen, !Forall_cons. simpl. tauto.
Qed.

(** Two panes of one stack share a positional node: swapping them would hit
    the [expect] of the source.  The host only swaps two panes it shows. *)
Lemma swap_shared a b t na :
  NoDup (pane_ids t) -> SENTINEL ∉ pane_ids t -> positional_node a t = Some na ->
  is_positional b na = true -> forall t', swap a b t <> Some (true, t').
Proof.
  intros Hnd Hs Hna Hb t'. unfold swap. destruct (a =? b)%N; [congruence|].
  rewrite Hna. destruct (positional_node b t) as [nb|] eqn:Hnb; [|congruence].
  rewrite positional_write_Some by eauto using positional_node_elem. simpl.
  destruct (positional_write_ids a (Leaf SENTINEL) t na Hnd Hna) as (rest & H1 & H2).
  apply is_positional_ids in Hb; [|by eapply is_positional_atomic, positional_node_Some].
  rewrite H1 in Hnd, Hs. apply NoDup_app in Hnd as (_ & Hd & _).
  rewrite (proj2 (positional_node_None b _)); [done|].
  rewrite H2. simpl. rewrite elem_of_cons. intros [->|Hr]; [|by apply (Hd b)].
  apply Hs, elem_of_app. by left.
Qed.

(** ** The invariant of all edits *)

(** A refused close: either it changed nothing, or the pane was the only one of
    a stack, which is left behind empty. *)
Definition emptied (p : PaneId) (t t' : CenterTree) : Prop :=
  (exists a, Stack [p] a ∈ nodes t) /\ remove p t = (false, t').

Lemma refused_close p t t' : remove p t = (false, t') -> t' = t \/ emptied p t t'.
Proof.
  intros E. set (lone n := match n with Stack [q] _ => (q =? p)%N | _ => false end).
  destruct (decide (Exists (fun n => lone n = true) (nodes t))) as [H|H].
  { apply Exists_exists in H as (n & Hn & Hp). right. split; [|done].
    destruct n as [| |[|q []] a]; try done. apply N.eqb_eq in Hp as ->. by exists a. }
  left. apply (remove_false p t t'); [|done]. intros a Hin. apply H, Exists_exists.
  exists (Stack [p] a). split; [done|]. apply N.eqb_refl.
Qed.

(** No close, refused or not, makes a pane up or doubles one. *)
Lemma remove_sub p t : pane_ids (snd (remove p t)) ⊆+ pane_ids t.
Proof.
  induction t as [q|panes active|dir children IH] using CenterTree_ind'; [done| |].
  - simpl. destruct (position _ panes) as [i|] eqn:E; [|done].
    apply position_Some in E as (q & Hi & _). simpl.
    etransitivity; [|apply Permutation_submseteq; symmetry; exact (vec_remove_perm _ _ _ Hi)].
    by apply submseteq_cons.
  - rewrite remove_split. destruct (position _ children) as [i|] eqn:E.
    { apply position_Some in E as (b & Hi & Hb%is_leaf_true).
      destruct (remove_direct p dir children i b Hi Hb) as (t'' & -> & -> & _).
      by apply submseteq_cons. }
    rewrite pane_ids_split. clear E.
    enough (mjoin ((fun b => pane_ids (child b)) <$>
              snd (any_mut (on_branch (remove p)) children)) ⊆+
            mjoin ((fun b => pane_ids (child b)) <$> children)) as H.
    { destruct (any_mut _ _) as [r bs]. simpl in H. cbn [snd]. by rewrite pane_ids_split. }
    induction IH as [|[w c] bs Hc _ IHs]; [done|]. cbn [any_mut on_branch]. simpl in Hc.
    destruct (remove p c) as [[] c']; simpl in Hc |- *.
    + by apply submseteq_app.
    + destruct (any_mut _ bs) as [r bs']. simpl in *. by apply submseteq_app.
Qed.

(** A refused drag is a refused close of the dragged pane, or changed nothing. *)
Lemma anchor_false dragged target side t t' :
  NoDup (pane_ids t) -> anchor dragged target side t = (false, t') ->
  t' = t \/ remove dragged t = (false, t').
Proof.
  intros Hnd. unfold anchor. destruct (_ || _)%bool eqn:E0; [intros [= <-]; by left|].
  destruct (remove dragged t) as [[] t1] eqn:E1; simpl; [|by intros [= <-]; right].
  destruct (remove_true _ _ _ Hnd E1) as [Hp _].
  assert (Ht1 : target ∈ pane_ids t1).
  { apply orb_false_iff in E0 as [[Hne _]%orb_false_iff Ht].
    apply N.eqb_neq in Hne. apply bool_decide_eq_false in Ht.
    rewrite positional_node_None in Ht. destruct (decide (target ∈ pane_ids t)) as [Hin|]; [|done].
    rewrite Hp in Hin. apply elem_of_cons in Hin as [->|]; done. }
  destruct (positional_node_is_Some _ _ Ht1) as [sub ->].
  rewrite positional_write_Some; [done| |done].
  rewrite Hp in Hnd. by apply NoDup_cons in Hnd as [_ ?].
Qed.

(** One operation on a tab's tree, with whatever it answers: the callers that
    close a dead pane look at no answer.  A split adds a pane that was just
    spawned, whose id is neither in use nor the reserved [SENTINEL]; a swap
    that panics leaves no tree. *)
Inductive edit : CenterTree -> CenterTree -> Prop :=
| edit_split target dir new t :
    new ∉ pane_ids t -> new <> SENTINEL -> edit t (snd (split target dir new t))
| edit_remove target t : edit t (snd (remove target t))
| edit_activate pane t : edit t (snd (activate_stack_member pane t))
| edit_resize target mv step t : edit t (snd (resize target mv step t))
| edit_swap a b t r t' : swap a b t = Some (r, t') -> edit t t'
| edit_anchor dragged target side t : edit t (snd (anchor dragged target side t)).

Definition ids_inv (t : CenterTree) : Prop := NoDup (pane_ids t) /\ SENTINEL ∉ pane_ids t.

Definition tree_inv (t : CenterTree) : Prop := well_formed t = true /\ ids_inv t.

Lemma ids_inv_sub t t' : pane_ids t' ⊆+ pane_ids t -> ids_inv t -> ids_inv t'.
Proof.
  intros Hs [Hnd Hn]. apply submseteq_Permutation in Hs as [k Hk]. unfold ids_inv in *.
  rewrite Hk in Hnd, Hn. apply NoDup_app in Hnd as (? & _ & _).
  split; [done|]. intros Hin. apply Hn, elem_of_app. by left.
Qed.

Lemma swap_inv a b t r t' :
  ids_inv t -> swap a b t = Some (r, t') ->
  pane_ids t' ≡ₚ pane_ids t /\ (well_formed t = true -> well_formed t' = true).
Proof.
  intros [Hnd Hs] E. destruct r.
  2:{ unfold swap in E. destruct (a =? b)%N; [by injection E as <-|].
      destruct (positional_node a t), (positional_node b t); try by injection E as <-.
      destruct (positional_write a _ t) as [t1|]; [|done]. simpl in E.
      destruct (positional_node b t1); [|done]. simpl in E.
      destruct (positional_write b _ t1) as [t2|]; [|done]. simpl in E.
      by destruct (positional_write SENTINEL _ t2). }
  assert (exists na, positional_node a t = Some na) as [na Hna].
  { unfold swap in E. destruct (a =? b)%N; [done|]. destruct (positional_node a t); [eauto|done]. }
  assert (exists nb, positional_node b t = Some nb) as [nb Hnb].
  { unfold swap in E. destruct (a =? b)%N; [done|].
    destruct (positional_node a t), (positional_node b t); eauto; done. }
  assert (Hap : is_positional b na = false).
  { apply not_true_is_false. intros Hb. by apply (swap_shared a b t na Hnd Hs Hna Hb) in E. }
  rewrite (swap_result a b t na nb) in E by auto. injection E as <-.
  split; [by apply swap_perm|]. intros Hwf. apply well_formed_tmap; [done|].
  pose proof (well_formed_nodes _ Hwf) as Hn. rewrite Forall_forall in Hn |- *.
  apply positional_node_Some in Hna as [Hina _], Hnb as [Hinb _].
  intros n Hin. unfold exchange. repeat case_match; auto.
Qed.

Lemma edit_ids t t' : edit t t' -> ids_inv t -> ids_inv t'.
Proof.
  intros H Hi. destruct H as
    [target dir new t Hnew Hs|target t|pane t|target mv step t|a b t r t' E|d tg side t].
  - destruct (split target dir new t) as [[] t'] eqn:E; simpl; [|by apply split_false in E as ->].
    apply split_true in E as (_ & Hp & _). unfold ids_inv in *.
    rewrite Hp, NoDup_cons, not_elem_of_cons. naive_solver.
  - by apply (ids_inv_sub t), Hi; apply remove_sub.
  - unfold ids_inv. by rewrite (proj1 (activate_ids pane t)).
  - unfold ids_inv. by rewrite <- erase_ids, (proj1 (resize_correct target mv step t)), erase_ids.
  - unfold ids_inv. by rewrite (proj1 (swap_inv a b t r t' Hi E)).
  - destruct (anchor d tg side t) as [[] t'] eqn:E; simpl.
    + unfold ids_inv. by rewrite (proj1 (anchor_true d tg side t t' (proj1 Hi) E)).
    + apply anchor_false in E as [->|E]; [done| |by destruct Hi].
      apply (ids_inv_sub t); [|done]. pose proof (remove_sub d t) as Hr. by rewrite E in Hr.
Qed.

Lemma close_wf p t :
  ids_inv t -> well_formed t = true ->
  well_formed (snd (remove p t)) = true \/ emptied p t (snd (remove p t)).
Proof.
  intros [Hnd _] Hwf. destruct (remove p t) as [[] t'] eqn:E; simpl.
  - left. by apply remove_true in E as [_ ?]; auto.
  - by apply refused_close in E as [->|]; auto.
Qed.

Lemma edit_wf t t' :
  edit t t' -> ids_inv t -> well_formed t = true ->
  well_formed t' = true \/ exists p, emptied p t t'.
Proof.
  intros H Hi Hwf. destruct H as
    [target dir new t Hnew Hs|target t|pane t|target mv step t|a b t r t' E|d tg side t].
  - left. destruct (split target dir new t) as [[] t'] eqn:E; simpl;
      [|by apply split_false in E as ->]. apply split_true in E as (_ & _ & Hw). auto.
  - destruct (close_wf target t Hi Hwf); eauto.
  - left. by apply activate_ids.
  - left. by rewrite <- erase_wf, (proj1 (resize_correct target mv step t)), erase_wf.
  - left. by apply (swap_inv a b t r t' Hi E).
  - destruct (anchor d tg side t) as [[] t'] eqn:E; simpl.
    + left. apply anchor_true in E as [_ Hw]; [auto|by destruct Hi].
    + apply anchor_false in E as [->|E]; [by left| |by destruct Hi].
      destruct (close_wf d t Hi Hwf) as [?|?]; rewrite E in *; simpl in *; eauto.
Qed.

Lemma edits_ids t t' : rtc edit t t' -> ids_inv t -> ids_inv t'.
Proof. induction 1; eauto using edit_ids. Qed.

(** C40. Whatever sequence of operations a session applies to a tab, refused
    ones included, starting from a fresh pane or any well-formed tree with
    distinct panes: the panes stay distinct, and in every rectangle no cell is
    ever given to two frames or bars and none of them reaches outside.  The tree
    stays well formed and its layout covers every cell exactly once, unless at
    some point the only pane of a stack was closed or dragged away, which
    answers [false] and leaves the empty stack in the tree. *)
Theorem edits_keep_tiling (t t' : CenterTree) :
  tree_inv t -> rtc edit t t' ->
  ids_inv t' /\
  (forall rect x y,
     cover x y (snd <$> layout t' rect) + cover x y (snd <$> stack_bars t' rect) <=
     ind (Rect_contains rect x y)) /\
  ((well_formed t' = true /\
    forall rect x y,
      cover x y (snd <$> layout t' rect) + cover x y (snd <$> stack_bars t' rect) =
      ind (Rect_contains rect x y)) \/
   exists t1 p t2, rtc edit t t1 /\ tree_inv t1 /\ emptied p t1 t2 /\ edit t1 t2 /\ rtc edit t2 t').
Proof.
  intros [Hwf Hi] Hr. split_and!; [by eapply edits_ids| |].
  { intros rect x y. rewrite layout_placed, stack_bars_placed, <- cover_panes_bars.
    apply placed_cover_le. }
  enough (well_formed t' = true \/ exists t1 p t2,
    rtc edit t t1 /\ tree_inv t1 /\ emptied p t1 t2 /\ edit t1 t2 /\ rtc edit t2 t')
    as [H|H]; [left|by right|].
  { split; [done|]. intros rect x y.
    rewrite layout_placed, stack_bars_placed, <- cover_panes_bars.
    by apply placed_cover, well_formed_solid. }
  revert Hwf Hi. induction Hr as [t|t t1 t' Hstep Hr IH]; intros Hwf Hi; [by left|].
  destruct (edit_wf _ _ Hstep Hi Hwf) as [Hw1|[p Hp]].
  - destruct (IH Hw1) as [?|(u & q & u' & Hu & ?)]; [by eapply edit_ids|by left|].
    right. exists u, q, u'. split; [by eapply rtc_l|done].
  - right. exists t, p, t1. by split_and!; [apply rtc_refl| | | |].
Qed.

Lemma edits_keep_tiling_witness :
  let t1 := snd (split 1 Row 2 (single 1)) in
  let t2 := snd (split 2 Col 3 t1) in
  let t3 := snd (remove 9 (snd (remove 1 t2))) in
  ids_inv t3 /\
  cover 7 20 (snd <$> layout t3 (Rect_full 80 24)) +
  cover 7 20 (snd <$> stack_bars t3 (Rect_full 80 24)) <= 1.
Proof.
  intros t1 t2 t3. destruct (edits_keep_tiling (single 1) t3) as (H & Hc & _).
  - split; [done|]. split; [apply NoDup_singleton|].
    simpl. by rewrite list_elem_of_singleton.
  - apply rtc_l with t1.
    { apply (edit_split 1 Row 2); [|done]. simpl. rewrite list_elem_of_singleton. lia. }
    apply rtc_l with t2.
    { apply (edit_split 2 Col 3); [|done]. simpl. rewrite !elem_of_cons, elem_of_nil. lia. }
    apply rtc_l with (snd (remove 1 t2)); [constructor|]. apply rtc_once. constructor.
  - split; [exact H|]. exact (Hc (Rect_full 80 24) 7%N 20%N).
Defined.

(** ** Remapping a resurrected tree *)

Lemma remap_ids {S} (f : S -> PaneId -> PaneId * S) (s : S) (t : CenterTree) :
  (pane_ids (fst (remap f s t)), snd (remap f s t)) = map_state f s (pane_ids t).
Proof.
  revert s. induction t as [p|panes active|dir children IH] using CenterTree_ind'; intros s.
  - simpl. by destruct (f s p).
  - simpl. by destruct (map_state f s panes).
  - rewrite (pane_ids_split dir children). cbn [remap].
    match goal with
    | |- context [let '(_, _) := ?go s children in _] =>
        enough (forall s,
          (mjoin ((fun b => pane_ids (child b)) <$> fst (go s children)), snd (go s children)) =
          map_state f s (mjoin ((fun b => pane_ids (child b)) <$> children))) as H
    end.
    { rewrite <- H. destruct (_ s children) as [bs s']. cbn [fst snd].
      by rewrite pane_ids_split. }
    clear s. induction IH as [|[w c] bs Hb _ IHs]; intros s; csimpl; [done|].
    rewrite map_state_app. simpl in Hb. rewrite <- Hb.
    destruct (remap f s c) as [c' s1]. simpl.
    rewrite <- IHs. by destruct (_ s1 bs) as [bs' s2].
Qed.

(** A tree without its pane ids. *)
Fixpoint skeleton (t : CenterTree) : CenterTree :=
  match t with
  | Leaf _ => Leaf 0
  | Stack panes active => Stack (replicate (length panes) 0%N) active
  | Split dir children =>
      Split dir (map (fun b => match b with mkBranch w c => mkBranch w (skeleton c) end) children)
  end.

Lemma length_map_state {S A B} (f : S -> A -> B * S) s l :
  length (fst (map_state f s l)) = length l.
Proof.
  revert s; induction l as [|a l IH]; intros s; simpl; [done|].
  destruct (f s a) as [b s1]. specialize (IH s1). destruct (map_state f s1 l). simpl in *. congruence.
Qed.

Lemma remap_skeleton {S} (f : S -> PaneId -> PaneId * S) (s : S) (t : CenterTree) :
  skeleton (fst (remap f s t)) = skeleton t.
Proof.
  revert s. induction t as [p|panes active|dir children IH] using CenterTree_ind'; intros s.
  - simpl. by destruct (f s p).
  - simpl. pose proof (length_map_state f s panes) as Hl. destruct (map_state f s panes).
    simpl in *. by rewrite Hl.
  - cbn [remap].
    match goal with
    | |- context [let '(_, _) := ?go s children in _] =>
        enough (forall s, map (fun b => match b with mkBranch w c => mkBranch w (skeleton c) end)
          (fst (go s children)) =
          map (fun b => match b with mkBranch w c => mkBranch w (skeleton c) end) children) as H
    end.
    { specialize (H s). destruct (_ s children) as [bs s']. cbn [fst skeleton] in *. by rewrite H. }
    clear s. induction IH as [|[w c] bs Hb _ IHs]; intros s; [done|]. simpl in Hb.
    specialize (Hb s). destruct (remap f s c) as [c' s1]. specialize (IHs s1).
    destruct (_ s1 bs) as [bs' s2]. simpl in *. by rewrite Hb, IHs.
Qed.

(** [remap] rewrites every pane exactly once, in the order [pane_ids]
    lists them (so a closure that spawns panes sees each stale id once), and
    leaves directions, weights and expanded members alone. *)
Theorem remap_order {S} (f : S -> PaneId -> PaneId * S) (s : S) (t : CenterTree) :
  (pane_ids (fst (remap f s t)), snd (remap f s t)) = map_state f s (pane_ids t) /\
  skeleton (fst (remap f s t)) = skeleton t.
Proof. split; [apply remap_ids|apply remap_skeleton]. Qed.

(** ** Focus movement *)
Lemma min_by_key_spec {A} (key : A -> Z) best l :
  min_by_key key best l ∈ best :: l /\
  Forall (fun a => key (min_by_key key best l) <= key a)%Z (best :: l).
Proof.
  revert best. induction l as [|a l IH]; intros best; simpl.
  { split; [by apply list_elem_of_singleton|]. by repeat constructor. }
  destruct (IH (if (key a <? key best)%Z then a else best)) as [Hin Hall].
  inversion Hall as [|?? Hb Hl]; subst.
  split.
  - apply elem_of_cons in Hin as [->|]; [|by right; right].
    destruct (key a <? key best)%Z; [by right; left|by left].
  - destruct (Z.ltb_spec (key a) (key best)); repeat constructor; (lia || done).
Qed.

Definition candidate (lay : list (PaneId * Rect)) (from : PaneId) (dir : Move)
    (cur : Rect) (id : PaneId) (r : Rect) : Prop :=
  (id, r) ∈ lay /\ id <> from /\ in_dir dir cur r = true.

Lemma neighbor_candidates lay from dir cur c :
  c ∈ omap (fun '(id, r) => if in_dir dir cur r then Some (id, dist dir cur r) else None)
        (filter (fun e => fst e <> from) lay) <->
  exists r, candidate lay from dir cur (fst c) r /\ snd c = dist dir cur r.
Proof.
  rewrite list_elem_of_omap. split.
  - intros ([id r] & Hin & E). apply list_elem_of_filter in Hin as [Hne Hin].
    destruct (in_dir dir cur r) eqn:Ed; [|done]. injection E as <-. simpl in *.
    exists r. unfold candidate. auto.
  - destruct c as [id d]; simpl. intros (r & (Hin & Hne & Hd) & ->).
    exists (id, r). rewrite Hd. split; [|done]. by apply list_elem_of_filter.
Qed.

(** Moving the focus picks a pane whose center lies strictly in the asked
    direction and that no other such pane beats on the weighted distance, and
    finds one whenever there is one. *)
Theorem neighbor_correct (lay : list (PaneId * Rect)) (from : PaneId) (dir : Move)
    (i : nat) (cur : Rect) :
  list_find (fun e => fst e = from) lay = Some (i, (from, cur)) ->
  match neighbor lay from dir with
  | Some id =>
      exists r, candidate lay from dir cur id r /\
        forall id' r', candidate lay from dir cur id' r' ->
          (dist dir cur r <= dist dir cur r')%Z
  | None => forall id' r', ~ candidate lay from dir cur id' r'
  end.
Proof.
  intros Hf. unfold neighbor. rewrite Hf. simpl.
  pose proof (neighbor_candidates lay from dir cur) as Hc.
  destruct (omap _ _) as [|c cs].
  - intros id' r' Hcand.
    assert (Hin : (id', dist dir cur r') ∈ []) by (apply Hc; eauto).
    by apply elem_of_nil in Hin.
  - pose proof (min_by_key_spec snd c cs) as [Hin Hmin].
    apply Hc in Hin as (r & Hr & Hd). exists r. split; [done|].
    intros id' r' Hcand. rewrite <- Hd. rewrite Forall_forall in Hmin.
    apply (Hmin (id', dist dir cur r')). apply Hc. eauto.
Qed.

Definition demo_layout : list (PaneId * Rect) :=
  [(1, mkRect 0 0 50 40); (2, mkRect 50 0 50 20); (3, mkRect 50 20 50 20)]%N.

Lemma neighbor_correct_witness :
  exists r, candidate demo_layout 3 MUp (mkRect 50 20 50 20) 2 r.
Proof.
  pose proof (neighbor_correct demo_layout 3 MUp 2 (mkRect 50 20 50 20) eq_refl) as H.
  assert (E : neighbor demo_layout 3 MUp = Some 2%N) by reflexivity.
  rewrite E in H. destruct H as (r & Hr & _). exists r. exact Hr.
Defined.
