(* ===== verification/Chrome.v ===== *)
(** * The chrome cross

    Model of [crates/thegn-host/src/layout.rs]: the fixed arrangement of
    masthead, divider, sidebar, center column, panel, strip, drawer and
    statusbar around the pane tree.  The process-global width overrides
    (atomics in the source) are the record [LayoutCfg], passed explicitly. *)

From S2P Require Import Prelude RustFloat Center.
From Stdlib Require Import SpecFloat String.

Local Open Scope N_scope.

Definition PANEL_MIN_COLS : N := 100.
Definition SIDEBAR_MIN_COLS : N := 76.
Definition MASTHEAD_ROWS : N := 1.
Definition STATUSBAR_ROWS : N := 1.
Definition SIDEBAR_COLS : N := 32.
Definition PANEL_COLS : N := 44.
Definition RAIL_COLS : N := 4.
Definition STRIP_MIN_ROWS : N := 3.
Definition SIDEBAR_MIN_WIDTH : N := 12.
Definition SIDEBAR_MAX_WIDTH : N := 48.

(** ** Width overrides *)
Record LayoutCfg := mkLayoutCfg {
  PANEL_NORMAL_COLS : N;
  PANEL_HALF_PCT : N;
  SIDEBAR_NORMAL_COLS : N;
  SIDEBAR_WIDE_PCT : N;
  WINDOW_COLS : N;
}.

Definition cfg_initial : LayoutCfg := mkLayoutCfg 0 0 0 0 0.

Definition usize_clamp (lo hi n : N) : N := N.max lo (N.min hi n).

Definition set_panel_width_cfg (normal_cols : option N) (half_ratio : option f32)
    (c : LayoutCfg) : LayoutCfg :=
  mkLayoutCfg
    (default 0 (usize_clamp 30 200 <$> normal_cols))
    (default 0 ((fun r => float_to_usize
                   (F32.mul (fclamp r (F32.lit 3 10) (F32.lit 9 10)) (F32.lit 100 1)))
                <$> half_ratio))
    (SIDEBAR_NORMAL_COLS c) (SIDEBAR_WIDE_PCT c) (WINDOW_COLS c).

Definition panel_normal_cols (c : LayoutCfg) : N :=
  if PANEL_NORMAL_COLS c =? 0 then PANEL_COLS else PANEL_NORMAL_COLS c.

Definition pct_ratio (pct : N) : f32 :=
  if pct =? 0 then F32.lit 1 2 else F32.div (F32.of_usize pct) (F32.lit 100 1).

Definition panel_half_ratio (c : LayoutCfg) : f32 := pct_ratio (PANEL_HALF_PCT c).

Definition set_sidebar_width_cfg (normal_cols : option N) (wide_ratio : option f32)
    (c : LayoutCfg) : LayoutCfg :=
  mkLayoutCfg
    (PANEL_NORMAL_COLS c) (PANEL_HALF_PCT c)
    (default 0 (usize_clamp SIDEBAR_MIN_WIDTH 200 <$> normal_cols))
    (default 0 ((fun r => float_to_usize
                   (F32.mul (fclamp r (F32.lit 2 10) (F32.lit 9 10)) (F32.lit 100 1)))
                <$> wide_ratio))
    (WINDOW_COLS c).

Definition sidebar_default_cols (c : LayoutCfg) : N :=
  if SIDEBAR_NORMAL_COLS c =? 0 then SIDEBAR_COLS else SIDEBAR_NORMAL_COLS c.

Definition sidebar_wide_ratio (c : LayoutCfg) : f32 := pct_ratio (SIDEBAR_WIDE_PCT c).

Definition set_window_cols (cols : N) (c : LayoutCfg) : LayoutCfg :=
  mkLayoutCfg (PANEL_NORMAL_COLS c) (PANEL_HALF_PCT c) (SIDEBAR_NORMAL_COLS c)
    (SIDEBAR_WIDE_PCT c) cols.

Definition sidebar_max_width (c : LayoutCfg) : N :=
  if WINDOW_COLS c =? 0 then SIDEBAR_MAX_WIDTH
  else N.max (WINDOW_COLS c / 2) SIDEBAR_MIN_WIDTH.

(** ** Width states *)
Module PanelWidth.
Inductive t := Normal | Half | Full.

Definition cycle (w : t) : t :=
  match w with Normal => Half | Half => Full | Full => Normal end.
Definition cycle_back (w : t) : t :=
  match w with Normal => Full | Half => Normal | Full => Half end.
Definition is_expanded (w : t) : bool :=
  match w with Normal => false | _ => true end.
Definition as_key (w : t) : string :=
  match w with Normal => "normal" | Half => "half" | Full => "full" end.
Definition from_key (s : string) : t :=
  if String.eqb s "half" then Half
  else if String.eqb s "full" then Full else Normal.
Definition is_full (w : t) : bool :=
  match w with Full => true | _ => false end.
End PanelWidth.

Module SidebarMode.
Inductive t := Full | Rail | Hidden.

Definition cycle (m : t) : t :=
  match m with Full => Rail | Rail => Hidden | Hidden => Full end.
Definition as_key (m : t) : string :=
  match m with Full => "full" | Rail => "rail" | Hidden => "hidden" end.
Definition from_key (s : string) : t :=
  if String.eqb s "rail" then Rail
  else if String.eqb s "hidden" then Hidden else Full.
End SidebarMode.

(** ** The layout *)
Record ChromeLayout := mkChromeLayout {
  masthead : Rect;
  divider : Rect;
  statusbar : Rect;
  sidebar : option Rect;
  panel : option Rect;
  sep_left : option N;
  sep_right : option N;
  center_tabs : Rect;
  strip : option Rect;
  center : Rect;
  drawer : option Rect;
  drawer_divider : option Rect;
}.

Definition masthead_stats_row (l : ChromeLayout) : Rect :=
  mkRect (rect_x (masthead l)) (rect_y (masthead l)) (rect_cols (masthead l))
    (N.min (rect_rows (masthead l)) 1).

Definition usize_of_bool (b : bool) : N := if b then 1 else 0.
Definition then_some {A} (b : bool) (a : A) : option A := if b then Some a else None.

(** Columns the surfaces need, with their separators and one center column. *)
Definition used (l r : N) : N :=
  l + r + usize_of_bool (0 <? l) + usize_of_bool (0 <? r) + 1.

(** The [while] loop trading width back to the center; [fuel] is the number of
    columns there are to give back. *)
Fixpoint shrink (fuel : nat) (cols left right : N) : N * N :=
  match fuel with
  | O => (left, right)
  | S fuel =>
      if (cols <? used left right) && ((0 <? left) || (0 <? right)) then
        if (left <=? right) && (0 <? right) then shrink fuel cols left (right - 1)
        else if 0 <? left then shrink fuel cols (left - 1) right
        else (left, right)
      else (left, right)
  end.

Definition fit (cols left right : N) : N * N :=
  shrink (N.to_nat (left + right)) cols left right.

Definition want_left (cols sidebar_cols : N) (want_sidebar : bool) (pw : PanelWidth.t) : N :=
  let rail := sidebar_cols <=? RAIL_COLS in
  let show_sidebar :=
    want_sidebar && (rail || (SIDEBAR_MIN_COLS <=? cols)) && negb (PanelWidth.is_full pw) in
  if show_sidebar
  then N.max sidebar_cols (if rail then RAIL_COLS else SIDEBAR_MIN_WIDTH) else 0.

Definition want_right (c : LayoutCfg) (cols : N) (want_panel panel_forced : bool)
    (pw : PanelWidth.t) : N :=
  let show_panel := want_panel && ((PANEL_MIN_COLS <=? cols) || panel_forced) in
  if show_panel then
    match pw with
    | PanelWidth.Normal => panel_normal_cols c
    | PanelWidth.Half =>
        N.max (float_to_usize (F32.mul (F32.of_usize cols) (panel_half_ratio c)))
          (panel_normal_cols c)
    | PanelWidth.Full => cols - 2
    end
  else 0.

Definition strip_rows_of (want_strip : bool) (strip_ratio : f32) (column_rows : N) : N :=
  if want_strip then
    let r := float_to_usize
               (F32.round (F32.mul (F32.of_usize column_rows)
                             (fclamp strip_ratio F32.zero (F32.lit 9 10)))) in
    let r := N.max r STRIP_MIN_ROWS in
    if r + STRIP_MIN_ROWS <=? column_rows then r else 0
  else 0.

Definition compute_full_bars (c : LayoutCfg) (cols rows : N)
    (want_sidebar want_panel panel_forced : bool) (panel_width : PanelWidth.t)
    (sidebar_cols : N) (want_strip : bool) (strip_ratio : f32) (drawer_rows : N)
    (drawer_full_width want_masthead want_statusbar : bool) : ChromeLayout :=
  let masthead_rows := if want_masthead then N.min MASTHEAD_ROWS rows else 0 in
  let status_rows :=
    if want_statusbar then N.min (rows - masthead_rows) STATUSBAR_ROWS else 0 in
  let divider_rows := N.min (rows - (masthead_rows + status_rows)) 1 in
  let band_y := masthead_rows + divider_rows in
  let band_rows := rows - (band_y + status_rows) in
  let full_drawer_rows :=
    if (0 <? drawer_rows) && drawer_full_width &&
       (drawer_rows + 1 + STRIP_MIN_ROWS <=? band_rows)
    then drawer_rows else 0 in
  let drawer_reserve := if 0 <? full_drawer_rows then full_drawer_rows + 1 else 0 in
  let col_rows := band_rows - drawer_reserve in
  let '(left_cols, right_cols) :=
    fit cols (want_left cols sidebar_cols want_sidebar panel_width)
      (want_right c cols want_panel panel_forced panel_width) in
  let sep_left_w := usize_of_bool (0 <? left_cols) in
  let sep_right_w := usize_of_bool (0 <? right_cols) in
  let panel_x := cols - right_cols in
  let center_x := left_cols + sep_left_w in
  let center_cols := cols - (left_cols + sep_left_w + sep_right_w + right_cols) in
  let tabs_rows := N.min col_rows 1 in
  let strip_rows := strip_rows_of want_strip strip_ratio (col_rows - tabs_rows) in
  let center_y := band_y + tabs_rows + strip_rows in
  let center_rows := col_rows - (tabs_rows + strip_rows) in
  let center_drawer :=
    (full_drawer_rows =? 0) && (0 <? drawer_rows) && negb drawer_full_width &&
    (drawer_rows + 1 + STRIP_MIN_ROWS <=? center_rows) in
  let center_rows' := if center_drawer then center_rows - (drawer_rows + 1) else center_rows in
  let div_y := if 0 <? full_drawer_rows then band_y + col_rows else center_y + center_rows' in
  {| masthead := mkRect 0 0 cols masthead_rows;
     divider := mkRect 0 masthead_rows cols divider_rows;
     statusbar := mkRect 0 (rows - status_rows) cols status_rows;
     sidebar := then_some (0 <? left_cols) (mkRect 0 band_y left_cols col_rows);
     panel := then_some (0 <? right_cols) (mkRect panel_x band_y right_cols col_rows);
     sep_left := then_some (0 <? left_cols) left_cols;
     sep_right := then_some (0 <? right_cols) (panel_x - 1);
     center_tabs := mkRect center_x band_y center_cols tabs_rows;
     strip := then_some (0 <? strip_rows)
                (mkRect center_x (band_y + tabs_rows) center_cols strip_rows);
     center := mkRect center_x center_y center_cols center_rows';
     drawer :=
       if 0 <? full_drawer_rows then Some (mkRect 0 (div_y + 1) cols full_drawer_rows)
       else then_some center_drawer (mkRect center_x (div_y + 1) center_cols drawer_rows);
     drawer_divider :=
       if 0 <? full_drawer_rows then Some (mkRect 0 div_y cols 1)
       else then_some center_drawer (mkRect center_x div_y center_cols 1) |}.

Definition compute_full (c : LayoutCfg) (cols rows : N)
    (want_sidebar want_panel panel_forced : bool) (panel_width : PanelWidth.t)
    (sidebar_cols : N) (want_strip : bool) (strip_ratio : f32) (drawer_rows : N)
    (drawer_full_width : bool) : ChromeLayout :=
  compute_full_bars c cols rows want_sidebar want_panel panel_forced panel_width
    sidebar_cols want_strip strip_ratio drawer_rows drawer_full_width true true.

Definition compute_with_width (c : LayoutCfg) (cols rows : N)
    (want_sidebar want_panel : bool) (sidebar_cols : N) : ChromeLayout :=
  compute_full c cols rows want_sidebar want_panel false PanelWidth.Normal
    sidebar_cols false F32.zero 0 false.

Definition compute (c : LayoutCfg) (cols rows : N) (want_sidebar want_panel : bool)
    : ChromeLayout :=
  compute_full c cols rows want_sidebar want_panel false PanelWidth.Normal
    SIDEBAR_COLS false F32.zero 0 false.

Definition compute_with_strip (c : LayoutCfg) (cols rows : N)
    (want_sidebar want_panel want_strip : bool) (strip_ratio : f32) : ChromeLayout :=
  compute_full c cols rows want_sidebar want_panel false PanelWidth.Normal
    SIDEBAR_COLS want_strip strip_ratio 0 false.

Definition compute_with_drawer (c : LayoutCfg) (cols rows : N)
    (want_sidebar want_panel : bool) (drawer_rows : N) (drawer_full_width : bool)
    : ChromeLayout :=
  compute_full c cols rows want_sidebar want_panel false PanelWidth.Normal
    SIDEBAR_COLS false F32.zero drawer_rows drawer_full_width.

(** ** Fitting the widths *)
Lemma shrink_spec fuel cols l r :
  l + r <= N.of_nat fuel ->
  let '(l', r') := shrink fuel cols l r in
  l' <= l /\ r' <= r /\ (used l' r' <= cols \/ (l' = 0 /\ r' = 0)).
Proof.
  revert l r. induction fuel as [|fuel IH]; intros l r H; cbn [shrink].
  { assert (l = 0 /\ r = 0) as [-> ->] by lia. lia. }
  destruct ((cols <? used l r) && ((0 <? l) || (0 <? r))) eqn:E.
  - destruct ((l <=? r) && (0 <? r)) eqn:E2; bool_to_prop.
    + specialize (IH l (r - 1)). destruct (shrink fuel cols l (r - 1)). lia.
    + destruct (0 <? l) eqn:E3; bool_to_prop.
      * specialize (IH (l - 1) r). destruct (shrink fuel cols (l - 1) r). lia.
      * apply andb_false_iff in E2 as [E2|E2]; bool_to_prop; lia.
  - apply andb_false_iff in E as [E|E]; bool_to_prop; lia.
Qed.

Lemma fit_spec cols l r :
  let '(l', r') := fit cols l r in
  l' <= l /\ r' <= r /\ (used l' r' <= cols \/ (l' = 0 /\ r' = 0)).
Proof. apply shrink_spec. lia. Qed.
