(* ===== verification/ChromeTiling.v ===== *)
(** * The chrome cross tiles the screen

    Whatever the window size, the toggles, the ratios and the overrides, the
    rectangles of [compute_full_bars] cover each screen cell exactly once. *)

From S2P Require Import Prelude RustFloat Center CenterTiling Chrome.
From Stdlib Require Import SpecFloat.

Local Open Scope N_scope.
Local Infix "+n" := Nat.add (at level 50, left associativity).

(** The cells of a separator: one column beside the surface it bounds. *)
Definition sep_rect (edge : option Rect) (sep : option N) : list Rect :=
  match edge, sep with
  | Some e, Some x => [mkRect x (rect_y e) 1 (rect_rows e)]
  | _, _ => []
  end.

Definition regions (l : ChromeLayout) : list Rect :=
  [masthead l; divider l; statusbar l; center_tabs l; center l] ++
  option_list (sidebar l) ++ option_list (panel l) ++
  sep_rect (sidebar l) (sep_left l) ++ sep_rect (panel l) (sep_right l) ++
  option_list (strip l) ++ option_list (drawer l) ++ option_list (drawer_divider l).

Section Cell.
Context (x y : N).

Definition cell (x0 y0 c r : N) : nat := ind (Rect_contains (mkRect x0 y0 c r) x y).

Lemma cell_v x0 y0 c r1 r2 :
  cell x0 y0 c r1 +n cell x0 (y0 + r1) c r2 = cell x0 y0 c (r1 + r2).
Proof. unfold cell. range_cases. Qed.

Lemma cell_h x0 y0 c1 c2 r :
  cell x0 y0 c1 r +n cell (x0 + c1) y0 c2 r = cell x0 y0 (c1 + c2) r.
Proof. unfold cell. range_cases. Qed.

Lemma cell_0r x0 y0 c : cell x0 y0 c 0 = 0%nat.
Proof. unfold cell. range_cases. Qed.

Lemma cell_0c x0 y0 r : cell x0 y0 0 r = 0%nat.
Proof. unfold cell. range_cases. Qed.

Lemma cover_then_some (b : bool) r :
  cover x y (option_list (then_some b r)) = if b then ind (Rect_contains r x y) else 0%nat.
Proof. destruct b; unfold cover; simpl; lia. Qed.

(** A region that is present exactly when its extent is positive counts the
    same as the plain rectangle. *)
Lemma cover_then_some_rows x0 y0 c r :
  cover x y (option_list (then_some (0 <? r) (mkRect x0 y0 c r))) = cell x0 y0 c r.
Proof.
  destruct (N.ltb_spec 0 r); simpl; [unfold cover; simpl; unfold cell; lia|].
  assert (r = 0) as -> by lia. by rewrite cell_0r.
Qed.

Lemma cover_then_some_cols x0 y0 c r :
  cover x y (option_list (then_some (0 <? c) (mkRect x0 y0 c r))) = cell x0 y0 c r.
Proof.
  destruct (N.ltb_spec 0 c); simpl; [unfold cover; simpl; unfold cell; lia|].
  assert (c = 0) as -> by lia. by rewrite cell_0c.
Qed.

(** The columns of the band. *)
Lemma columns_cover cols l r y0 h :
  used l r <= cols \/ (l = 0 /\ r = 0) ->
  cell 0 y0 l h +n
   cover x y (sep_rect (then_some (0 <? l) (mkRect 0 y0 l h)) (then_some (0 <? l) l)) +n
   cell (l + usize_of_bool (0 <? l)) y0
     (cols - (l + usize_of_bool (0 <? l) + usize_of_bool (0 <? r) + r)) h +n
   cover x y (sep_rect (then_some (0 <? r) (mkRect (cols - r) y0 r h))
                (then_some (0 <? r) (cols - r - 1))) +n
   cell (cols - r) y0 r h = cell 0 y0 cols h.
Proof.
  intros Hu.
  assert (Hl : cover x y (sep_rect (then_some (0 <? l) (mkRect 0 y0 l h))
                 (then_some (0 <? l) l)) = cell l y0 (usize_of_bool (0 <? l)) h).
  { destruct (0 <? l); simpl; [unfold cover; simpl; unfold cell; lia|by rewrite cell_0c]. }
  assert (Hr : cover x y (sep_rect (then_some (0 <? r) (mkRect (cols - r) y0 r h))
                 (then_some (0 <? r) (cols - r - 1))) =
               cell (cols - r - usize_of_bool (0 <? r)) y0 (usize_of_bool (0 <? r)) h).
  { destruct (0 <? r); simpl; [unfold cover; simpl; unfold cell; lia|by rewrite cell_0c]. }
  rewrite Hl, Hr. clear Hl Hr. unfold used in Hu.
  remember (usize_of_bool (0 <? l)) as sl eqn:El.
  remember (usize_of_bool (0 <? r)) as sr eqn:Er.
  assert (l + sl + sr + r <= cols).
  { destruct Hu as [?|[-> ->]]; subst; simpl; lia. }
  rewrite <- (N.add_0_l l) at 2. rewrite (cell_h 0 y0 l sl).
  rewrite <- (N.add_0_l (l + sl)) at 2. rewrite (cell_h 0 y0 (l + sl)).
  set (cc := cols - (l + sl + sr + r)).
  replace (cols - r - sr) with (0 + (l + sl + cc)) by lia. rewrite cell_h.
  replace (cols - r) with (0 + (l + sl + cc + sr)) by lia. rewrite cell_h.
  f_equal. lia.
Qed.
End Cell.

Lemma strip_rows_bound w ratio n : strip_rows_of w ratio n <= n.
Proof. unfold strip_rows_of. split_ifs; lia. Qed.

(** The center column: tab bar, strip, panes, and a center-only drawer. *)
Lemma center_column_cover x y cx cy cc h tabs strip_r rest (dr : N) (d : bool) :
  h = tabs + strip_r + rest -> (d = true -> dr + 1 <= rest) ->
  let rest' := if d then rest - (dr + 1) else rest in
  let div_y := cy + tabs + strip_r + rest' in
  cell x y cx cy cc tabs +n
  cell x y cx (cy + tabs) cc strip_r +n
  cell x y cx (cy + tabs + strip_r) cc rest' +n
  cover x y (option_list (then_some d (mkRect cx (div_y + 1) cc dr))) +n
  cover x y (option_list (then_some d (mkRect cx div_y cc 1))) =
  cell x y cx cy cc h.
Proof.
  intros -> Hd rest' div_y. rewrite cell_v.
  rewrite <- (N.add_assoc cy). rewrite cell_v.
  rewrite !cover_then_some. subst div_y.
  destruct d; [|subst rest'; lia].
  change (ind (Rect_contains (mkRect ?a ?b ?c ?d) x y)) with (cell x y a b c d).
  rewrite <- !(N.add_assoc cy).
  specialize (Hd eq_refl).
  transitivity (cell x y cx cy cc (tabs + strip_r + rest' + 1 + dr)).
  - rewrite <- (cell_v x y cx cy cc (tabs + strip_r + rest' + 1) dr).
    rewrite <- (cell_v x y cx cy cc (tabs + strip_r + rest') 1). lia.
  - f_equal. subst rest'. simpl. lia.
Qed.

(** The horizontal bands: masthead, divider, columns, full-width drawer with its
    rule, statusbar. *)
Lemma bands_cover x y cols rows mr dvr sr band fdr :
  mr + dvr + sr <= rows -> band = rows - (mr + dvr + sr) -> (fdr = 0 \/ fdr + 1 <= band) ->
  let cr := band - (if 0 <? fdr then fdr + 1 else 0) in
  cell x y 0 0 cols mr +n cell x y 0 mr cols dvr +n
  cell x y 0 (mr + dvr) cols cr +n
  (if 0 <? fdr
   then cell x y 0 (mr + dvr + cr + 1) cols fdr +n cell x y 0 (mr + dvr + cr) cols 1
   else 0%nat) +n
  cell x y 0 (rows - sr) cols sr = cell x y 0 0 cols rows.
Proof.
  intros Hdv -> Hfdr cr. set (band := rows - (mr + dvr + sr)) in *.
  rewrite <- (N.add_0_l mr) at 2. rewrite cell_v.
  rewrite <- (N.add_0_l (mr + dvr)) at 2. rewrite cell_v.
  replace (rows - sr) with (0 + (mr + dvr + band)) by lia.
  replace (cell x y 0 0 cols rows) with (cell x y 0 0 cols (mr + dvr + band + sr))
    by (f_equal; lia).
  rewrite <- (cell_v x y 0 0 cols (mr + dvr + band) sr). f_equal.
  subst cr. destruct (N.ltb_spec 0 fdr).
  - replace (mr + dvr + band)
      with (mr + dvr + (band - (fdr + 1)) + 1 + fdr) by lia.
    rewrite <- !(cell_v x y 0 0 cols). rewrite !N.add_0_l. lia.
  - rewrite N.sub_0_r. lia.
Qed.

(** C33. The chrome cross is an exact partition of the window: for every window
    size, toggle state, width override and ratio, each cell of the screen
    belongs to exactly one of masthead, divider, statusbar, sidebar, panel,
    their separators, tab bar, strip, center, drawer and drawer rule, and no
    surface reaches outside the screen. *)
Theorem chrome_tiles (c : LayoutCfg) (cols rows : N)
    (want_sidebar want_panel panel_forced : bool) (panel_width : PanelWidth.t)
    (sidebar_cols : N) (want_strip : bool) (strip_ratio : f32) (drawer_rows : N)
    (drawer_full_width want_masthead want_statusbar : bool) (x y : N) :
  cover x y
    (regions (compute_full_bars c cols rows want_sidebar want_panel panel_forced
                panel_width sidebar_cols want_strip strip_ratio drawer_rows
                drawer_full_width want_masthead want_statusbar)) =
  ind (Rect_contains (Rect_full cols rows) x y).
Proof.
  unfold compute_full_bars.
  pose proof (fit_spec cols (want_left cols sidebar_cols want_sidebar panel_width)
                (want_right c cols want_panel panel_forced panel_width)) as Hfit.
  destruct (fit _ _ _) as [l r]. destruct Hfit as (_ & _ & Hfit).
  set (mr := if want_masthead then _ else 0).
  assert (Hmr : mr <= rows) by (subst mr; split_ifs; lia).
  set (sr := if want_statusbar then _ else 0).
  assert (Hsr : mr + sr <= rows) by (subst sr; split_ifs; lia).
  set (dvr := N.min (rows - (mr + sr)) 1).
  assert (Hdv : mr + dvr + sr <= rows) by (subst dvr; lia).
  set (band := rows - (mr + dvr + sr)).
  set (fdr := if _ && _ && _ then drawer_rows else 0).
  assert (Hfdr : fdr = 0 \/ fdr + 1 <= band).
  { subst fdr. destruct (_ && _ && _) eqn:E; [|by left]. bool_to_prop.
    unfold STRIP_MIN_ROWS in *. lia. }
  set (cr := band - _).
  set (tabs := N.min cr 1).
  set (st := strip_rows_of want_strip strip_ratio (cr - tabs)).
  assert (Hst : st <= cr - tabs) by apply strip_rows_bound.
  set (cd := (fdr =? 0) && _ && _ && _).
  pose proof (columns_cover x y cols l r (mr + dvr) cr Hfit) as Hcols.
  pose proof (center_column_cover x y (l + usize_of_bool (0 <? l)) (mr + dvr)
    (cols - (l + usize_of_bool (0 <? l) + usize_of_bool (0 <? r) + r)) cr tabs st
    (cr - (tabs + st)) drawer_rows cd) as Hcc.
  cbv zeta in Hcc. rewrite <- Hcc in Hcols; clear Hcc.
  2: { subst tabs. lia. }
  2: { intros Hcd. subst cd. unfold STRIP_MIN_ROWS in *. bool_to_prop. lia. }
  unfold regions.
  cbn [masthead divider statusbar center_tabs center sidebar panel sep_left sep_right
       strip drawer drawer_divider].
  rewrite !cover_app. rewrite !cover_then_some_cols, cover_then_some_rows.
  pose proof (bands_cover x y cols rows mr dvr sr band fdr Hdv eq_refl Hfdr) as Hwhole.
  cbv zeta in Hwhole. change (band - _) with cr in Hwhole.
  change (ind (Rect_contains (Rect_full cols rows) x y)) with (cell x y 0 0 cols rows).
  rewrite <- Hwhole, <- Hcols. clear Hwhole Hcols.
  assert (Hcd : (0 <? fdr) = true -> cd = false).
  { intros H. subst cd. bool_to_prop. by rewrite (proj2 (N.eqb_neq fdr 0)) by lia. }
  destruct (0 <? fdr).
  - rewrite Hcd by done. unfold cover, cell; simpl. lia.
  - unfold cover at 1. unfold cell. cbn [sum_list_with]. lia.
Qed.

(** No surface starves the panes: on a window with at least one column the
    center keeps at least one column whatever widths the sidebar and the panel
    ask for; a visible strip leaves it at least [STRIP_MIN_ROWS] rows, and so
    does a center-only drawer, while a full-width drawer leaves it two. *)
Theorem chrome_floors (c : LayoutCfg) (cols rows : N)
    (want_sidebar want_panel panel_forced : bool) (panel_width : PanelWidth.t)
    (sidebar_cols : N) (want_strip : bool) (strip_ratio : f32) (drawer_rows : N)
    (drawer_full_width want_masthead want_statusbar : bool) :
  let l := compute_full_bars c cols rows want_sidebar want_panel panel_forced
             panel_width sidebar_cols want_strip strip_ratio drawer_rows
             drawer_full_width want_masthead want_statusbar in
  (1 <= cols -> 1 <= rect_cols (center l)) /\
  (strip l <> None -> STRIP_MIN_ROWS <= rect_rows (center l)) /\
  (drawer l <> None -> 2 <= rect_rows (center l)) /\
  (drawer l <> None -> drawer_full_width = false -> STRIP_MIN_ROWS <= rect_rows (center l)).
Proof.
  unfold compute_full_bars.
  pose proof (fit_spec cols (want_left cols sidebar_cols want_sidebar panel_width)
                (want_right c cols want_panel panel_forced panel_width)) as Hfit.
  destruct (fit _ _ _) as [l r]. destruct Hfit as (_ & _ & Hfit).
  set (mr := if want_masthead then _ else 0). set (sr := if want_statusbar then _ else 0).
  set (dvr := N.min (rows - (mr + sr)) 1). set (band := rows - (mr + dvr + sr)).
  set (fdr := if _ && _ && _ then drawer_rows else 0).
  assert (Hfdr : fdr = 0 \/ fdr + 1 + STRIP_MIN_ROWS <= band /\ drawer_full_width = true).
  { subst fdr. destruct (_ && _ && _) eqn:E; [|by left]. bool_to_prop. by right. }
  set (cr := band - _). set (tabs := N.min cr 1).
  set (st := strip_rows_of want_strip strip_ratio (cr - tabs)).
  set (cd := (fdr =? 0) && _ && _ && _).
  cbn [center strip drawer rect_cols rect_rows].
  assert (Hst : st = 0 \/ st + STRIP_MIN_ROWS <= cr - tabs).
  { subst st. unfold strip_rows_of. split_ifs; lia. }
  assert (Hcd : cd = true -> drawer_rows + 1 + STRIP_MIN_ROWS <= cr - (tabs + st)).
  { intros H. subst cd. bool_to_prop. lia. }
  assert (Hfd : 0 < fdr -> STRIP_MIN_ROWS <= cr /\ drawer_full_width = true).
  { subst cr. intros H. rewrite (proj2 (N.ltb_lt 0 fdr) H).
    destruct Hfdr as [?|[? ?]]; [lia|]. split; [lia|done]. }
  unfold STRIP_MIN_ROWS in *. split_and!.
  - unfold used in Hfit. intros Hc.
    destruct Hfit as [?|[-> ->]]; simpl; [|lia].
    destruct (0 <? l), (0 <? r); simpl in *; lia.
  - destruct (N.ltb_spec 0 st); simpl; [|done]. intros _.
    destruct cd; [specialize (Hcd eq_refl)|]; lia.
  - destruct (N.ltb_spec 0 fdr) as [H|H]; [specialize (Hfd H)|]; intros Hn.
    + assert (cd = false) as -> by (subst cd; by rewrite (proj2 (N.eqb_neq fdr 0)) by lia).
      subst tabs. lia.
    + destruct cd; [specialize (Hcd eq_refl); lia|done].
  - intros Hn Hf. destruct (N.ltb_spec 0 fdr) as [H|H].
    + specialize (Hfd H). destruct Hfd. congruence.
    + destruct cd; [specialize (Hcd eq_refl); lia|done].
Qed.

(** The persisted width states round-trip through their keys, an unknown
    key falls back to the resting state, and the reverse panel cycle undoes the
    forward one. *)
Theorem width_keys_roundtrip (w : PanelWidth.t) (m : SidebarMode.t) (s : string) :
  PanelWidth.from_key (PanelWidth.as_key w) = w /\
  SidebarMode.from_key (SidebarMode.as_key m) = m /\
  PanelWidth.cycle_back (PanelWidth.cycle w) = w /\
  PanelWidth.cycle (PanelWidth.cycle_back w) = w /\
  (PanelWidth.as_key (PanelWidth.from_key s) = s \/ PanelWidth.from_key s = PanelWidth.Normal) /\
  (SidebarMode.as_key (SidebarMode.from_key s) = s \/ SidebarMode.from_key s = SidebarMode.Full).
Proof.
  split_and!; [by destruct w|by destruct m|by destruct w|by destruct w| |].
  - unfold PanelWidth.from_key. destruct (String.eqb_spec s "half"), (String.eqb_spec s "full");
      subst; auto.
  - unfold SidebarMode.from_key. destruct (String.eqb_spec s "rail"), (String.eqb_spec s "hidden");
      subst; auto.
Qed.
