(* ===== verification/FrameLoop.v ===== *)
(** * The frame decision of the event loop

    Model of [render_plan.rs], [idle_poll.rs] and the pacing half of
    [loop_policy.rs] in [crates/thegn-host/src], and of the lines of [run.rs]
    that compose them into one iteration.  A [Duration] or [Instant] is a number
    of nanoseconds. *)

From S2P Require Import Prelude Center.
From stdpp Require Import sorting.

Local Open Scope N_scope.

Abbreviation Duration := N.
Abbreviation Instant := N.
Definition from_millis (ms : N) : Duration := ms * 1000000.

(** ** Damage and plans *)
Record Damage := mkDamage {
  full : bool;
  chrome : bool;
  switch : bool;
  panes : gset PaneId;
  bars_dmg : bool;
  statusbar_dmg : bool;
  sidebar_dmg : bool;
}.

Definition damage_default : Damage := mkDamage false false false ∅ false false false.

Definition panes_empty (d : Damage) : bool := bool_decide (panes d = ∅).

Definition is_empty (d : Damage) : bool :=
  negb (full d) && negb (chrome d) && negb (switch d) && negb (bars_dmg d) &&
  negb (statusbar_dmg d) && negb (sidebar_dmg d) && panes_empty d.

Definition clear (d : Damage) : Damage := damage_default.

Record Overlays := mkOverlays {
  layers : bool;
  app_tile : bool;
  selection : bool;
  replay : bool;
}.

Definition any (o : Overlays) : bool :=
  layers o || app_tile o || selection o || replay o.

Inductive RenderPlan :=
| Skip
| Full
| Incremental (panes : list PaneId) (bars statusbar sidebar : bool).

(** [sort_unstable] on distinct ids. *)
Definition sort_ids (l : list PaneId) : list PaneId := merge_sort N.le l.

Definition plan (damage : Damage) (overlays : Overlays) : RenderPlan :=
  if full damage then Full
  else if chrome damage || switch damage || any overlays then Full
  else if negb (panes_empty damage) || bars_dmg damage || statusbar_dmg damage ||
          sidebar_dmg damage
  then Incremental (sort_ids (elements (panes damage))) (bars_dmg damage)
         (statusbar_dmg damage) (sidebar_dmg damage)
  else Skip.

Definition scroll_fast_ok (scroll_only : bool) (damage : Damage) (guards_clear : bool)
    : bool := scroll_only && guards_clear && is_empty damage.

Definition fold_refused_wheel (damage : Damage) (scroll_dirty scroll_fast : bool) : Damage :=
  mkDamage (full damage) (chrome damage || (scroll_dirty && negb scroll_fast))
    (switch damage) (panes damage) (bars_dmg damage) (statusbar_dmg damage)
    (sidebar_dmg damage).

(** ** Polling *)
Definition BATCH_POLL : Duration := from_millis 8.

Definition poll_timeout (defer : option Duration) (dirty pending_input budget_exhausted : bool)
    : option Duration :=
  match defer with
  | Some remaining => Some remaining
  | None => if dirty || pending_input || budget_exhausted then Some BATCH_POLL else None
  end.

Definition fold_deadline (timeout : option Duration) (deadline : option Instant)
    (now : Instant) : option Duration :=
  match timeout, deadline with
  | None, None => None
  | Some timeout, None => Some timeout
  | None, Some deadline => Some (deadline - now)
  | Some timeout, Some deadline => Some (N.min timeout (deadline - now))
  end.

(** ** Pacing *)
Record DrainBudget := mkDrainBudget { max_bytes : N; drain_deadline : Duration }.

Definition drain_budget (input_pending : bool) : DrainBudget :=
  if input_pending then mkDrainBudget (16 * 1024) (from_millis 2)
  else mkDrainBudget (128 * 1024) (from_millis 5).

Definition BACKLOG_HIGH_WATER : N := 1024 * 1024.
Definition MAX_SLICE : N := 16 * 1024.
Definition SLICE_FLOOR : N := 8 * 1024.

Definition pane_slice (remaining_bytes panes_with_backlog : N) : N :=
  if panes_with_backlog =? 0 then 0
  else N.max SLICE_FLOOR (N.min MAX_SLICE (remaining_bytes / panes_with_backlog)).

Inductive FrameGate := RenderNow | Defer (remaining : Duration).

Definition PANE_FRAME_WINDOW : Duration := from_millis 8.

Definition frame_gate (input_awaiting_frame input_queued pane_only_damage : bool)
    (since_last_flush window : Duration) : FrameGate :=
  if input_awaiting_frame then RenderNow
  else if input_queued then Defer 0
  else if negb pane_only_damage then RenderNow
  else if window <=? since_last_flush then RenderNow
  else Defer (window - since_last_flush).

(** ** One iteration of [run.rs]

    The loop's state as far as the frame decision reads it. *)
Record LoopState := mkLoopState {
  ls_damage : Damage;         (** the dirty flags, as the render block packs them *)
  ls_scroll_dirty : bool;
  ls_input_at : bool;         (** a dispatched input awaits its frame *)
  ls_input_queued : bool;     (** a key, mouse or paste event is queued *)
  ls_pending_input : bool;    (** any event is queued *)
  ls_writer_busy : bool;
  ls_backlog : bool;          (** [budget_exhausted || log_backlog || plugin_backlog] *)
  ls_app_deadline : option Instant;
  ls_now : Instant;
  ls_last_flush : Instant;
}.

Definition have_damage (s : LoopState) : bool :=
  let d := ls_damage s in
  chrome d || full d || negb (panes_empty d) || bars_dmg d || statusbar_dmg d ||
  sidebar_dmg d || ls_scroll_dirty s.

Definition pane_only_damage (s : LoopState) : bool :=
  let d := ls_damage s in
  negb (chrome d) && negb (full d) && negb (switch d) && negb (bars_dmg d) &&
  negb (statusbar_dmg d) && negb (sidebar_dmg d) && negb (panes_empty d).

Definition gate (s : LoopState) : FrameGate :=
  frame_gate (ls_input_at s) (ls_input_queued s) (pane_only_damage s)
    (ls_now s - ls_last_flush s) PANE_FRAME_WINDOW.

Definition should_render (s : LoopState) : bool :=
  have_damage s && negb (ls_writer_busy s) &&
  match gate s with RenderNow => true | Defer _ => false end.

Definition defer_timeout (s : LoopState) : option Duration :=
  if ls_writer_busy s && have_damage s then Some (from_millis 2)
  else if have_damage s && negb (ls_writer_busy s) then
    match gate s with RenderNow => None | Defer r => Some r end
  else None.

(** The timeout the iteration polls with, [dirty] as the render block left it. *)
Definition iteration_timeout (s : LoopState) (dirty : bool) : option Duration :=
  fold_deadline
    (poll_timeout (defer_timeout s) dirty (ls_pending_input s) (ls_backlog s))
    (ls_app_deadline s) (ls_now s).

(** The plan of a frame that is rendered. *)
Definition frame_plan (s : LoopState) (scroll_only guards_clear : bool) (o : Overlays)
    : option RenderPlan :=
  let scroll_fast := scroll_fast_ok scroll_only (ls_damage s) guards_clear in
  if should_render s then
    Some (plan (fold_refused_wheel (ls_damage s) (ls_scroll_dirty s) scroll_fast) o)
  else None.

(** ** The regions of a frame *)
Inductive Region := RMasthead | RStatusbar | RSidebar | RPane (p : PaneId) | RChrome.

(** Which regions hold content the damage record marks as changed. *)
Definition damaged (d : Damage) (r : Region) : Prop :=
  full d = true \/ chrome d = true \/ switch d = true \/
  match r with
  | RMasthead => bars_dmg d = true
  | RStatusbar => bars_dmg d = true \/ statusbar_dmg d = true
  | RSidebar => sidebar_dmg d = true
  | RPane p => p ∈ panes d
  | RChrome => False
  end.

(** Which regions a plan repaints. *)
Definition repaints (p : RenderPlan) (r : Region) : Prop :=
  match p with
  | Skip => False
  | Full => True
  | Incremental ps b st sb =>
      match r with
      | RMasthead => b = true
      | RStatusbar => b = true \/ st = true
      | RSidebar => sb = true
      | RPane q => q ∈ ps
      | RChrome => False
      end
  end.

Lemma elem_of_sort_ids p l : p ∈ sort_ids l <-> p ∈ l.
Proof. unfold sort_ids. by rewrite merge_sort_Permutation. Qed.

Lemma sort_ids_strict l : NoDup l -> StronglySorted N.lt (sort_ids l).
Proof.
  intros Hnd. assert (Hs : StronglySorted N.le (sort_ids l)).
  { apply StronglySorted_merge_sort; [apply _|]. intros a b. destruct (N.le_ge_cases a b); auto. }
  assert (Hnd' : NoDup (sort_ids l)) by (unfold sort_ids; by rewrite merge_sort_Permutation).
  induction Hs as [|a l' Hs IH Hall]; [constructor|].
  apply NoDup_cons in Hnd' as [Hin Hnd']. constructor; [by apply IH|].
  rewrite Forall_forall in Hall |- *. intros b Hb.
  specialize (Hall b Hb). assert (a <> b) by congruence. lia.
Qed.

Lemma panes_empty_spec d : panes_empty d = true <-> panes d = ∅.
Proof. apply bool_decide_eq_true. Qed.

Lemma is_empty_damaged d : is_empty d = true -> forall r, ~ damaged d r.
Proof.
  unfold is_empty. intros H r Hd. bool_to_prop.
  rewrite panes_empty_spec in *.
  destruct Hd as [?|[?|[?|Hd]]]; [congruence..|].
  destruct r; [congruence|destruct Hd; congruence|congruence| |done].
  match goal with E : panes d = ∅ |- _ => rewrite E in Hd end. by apply elem_of_empty in Hd.
Qed.

(** The three shapes of a plan. *)
Lemma plan_cases d o :
  (plan d o = Full /\
   (full d = true \/ chrome d = true \/ switch d = true \/ any o = true)) \/
  (full d = false /\ chrome d = false /\ switch d = false /\ any o = false /\
   is_empty d = false /\
   plan d o = Incremental (sort_ids (elements (panes d))) (bars_dmg d)
                (statusbar_dmg d) (sidebar_dmg d)) \/
  (any o = false /\ is_empty d = true /\ plan d o = Skip).
Proof.
  unfold plan, is_empty.
  destruct (full d), (chrome d), (switch d), (any o), (panes_empty d),
    (bars_dmg d), (statusbar_dmg d), (sidebar_dmg d); simpl; tauto.
Qed.

Lemma is_empty_false_full d :
  full d = true \/ chrome d = true \/ switch d = true -> is_empty d = false.
Proof.
  unfold is_empty. destruct (full d), (chrome d), (switch d); simpl; intuition done.
Qed.

(** C34. The plan is sound and no more than sound: every region whose content
    changed is repainted; a live overlay always gets a full frame; an
    incremental frame repaints only damaged regions, naming each damaged pane
    once, in increasing order; and the frame is skipped exactly when nothing
    changed and no overlay is up. *)
Theorem plan_refines_damage (d : Damage) (o : Overlays) :
  (forall r, damaged d r -> repaints (plan d o) r) /\
  (any o = true -> plan d o = Full) /\
  (plan d o = Skip <-> is_empty d = true /\ any o = false) /\
  (forall ps b st sb, plan d o = Incremental ps b st sb ->
     StronglySorted N.lt ps /\ (forall p, p ∈ ps <-> p ∈ panes d) /\
     forall r, repaints (Incremental ps b st sb) r -> damaged d r).
Proof.
  destruct (plan_cases d o) as [[-> H]|[(Hf & Hc & Hs & Ho & He & ->)|(Ho & He & ->)]].
  - split_and!; try done. split; [done|]. intros [He Ho]. exfalso.
    rewrite is_empty_false_full in He; [done|]. rewrite Ho in H. intuition done.
  - split_and!.
    + intros r [?|[?|[?|Hr]]]; [congruence..|].
      destruct r; simpl in *; try done. by rewrite elem_of_sort_ids, elem_of_elements.
    + congruence.
    + split; [done|]. rewrite He. by intros [? _].
    + intros ps b st sb [= <- <- <- <-]. split_and!.
      * apply sort_ids_strict, NoDup_elements.
      * intros p. by rewrite elem_of_sort_ids, elem_of_elements.
      * intros r Hr. unfold damaged. do 3 right. destruct r; simpl in *; try done.
        by rewrite elem_of_sort_ids, elem_of_elements in Hr.
  - split_and!; [|congruence|done|done].
    intros r Hr. by apply (is_empty_damaged d He) in Hr.
Qed.

(** No frame is ever lost: whenever the loop holds damage, it either
    renders in this iteration or polls with a finite timeout no longer than the
    pacing window, whatever input, writer, backlog and deadline state it is in. *)
Theorem frame_never_lost (s : LoopState) (dirty : bool) :
  have_damage s = true ->
  should_render s = true \/
  exists t, iteration_timeout s dirty = Some t /\ t <= PANE_FRAME_WINDOW.
Proof.
  intros Hd. unfold should_render, iteration_timeout, defer_timeout, gate, frame_gate.
  rewrite Hd. simpl.
  unfold PANE_FRAME_WINDOW, from_millis.
  destruct (ls_writer_busy s); simpl; [right|].
  - destruct (ls_app_deadline s); simpl; eexists; (split; [reflexivity|lia]).
  - destruct (ls_input_at s); [by left|]. destruct (ls_input_queued s); simpl; [right|].
    { destruct (ls_app_deadline s); simpl; eexists; (split; [reflexivity|lia]). }
    destruct (pane_only_damage s); simpl; [|by left].
    destruct (_ <=? _) eqn:E; bool_to_prop; [by left|right].
    destruct (ls_app_deadline s); simpl; eexists; (split; [reflexivity|lia]).
Qed.

Definition pane_output (last now : N) : LoopState :=
  mkLoopState (mkDamage false false false {[7]} false false false)
    false false false false false false None now last.

Lemma frame_never_lost_witness :
  should_render (pane_output 0 3000000) = false /\
  exists t, iteration_timeout (pane_output 0 3000000) false = Some t /\ t <= PANE_FRAME_WINDOW.
Proof.
  split; [reflexivity|].
  destruct (frame_never_lost (pane_output 0 3000000) false eq_refl) as [H|H]; [discriminate H|exact H].
Defined.

(** The idle contract: with no damage, no queued event, no backlog and no
    application deadline the loop blocks without any timeout; and it never polls
    with a timeout unless one of these holds. *)
Theorem idle_blocks (s : LoopState) (dirty : bool) :
  iteration_timeout s dirty = None <->
  defer_timeout s = None /\ dirty = false /\ ls_pending_input s = false /\
  ls_backlog s = false /\ ls_app_deadline s = None.
Proof.
  unfold iteration_timeout, poll_timeout.
  destruct (defer_timeout s), dirty, (ls_pending_input s), (ls_backlog s), (ls_app_deadline s);
    simpl; split; try discriminate; try (by intros _);
    intros (Hd & Hdirty & Hi & Hb & Ha); discriminate.
Qed.

(** The state after waiting [t] with nothing else happening. *)
Definition after (t : Duration) (s : LoopState) : LoopState :=
  mkLoopState (ls_damage s) (ls_scroll_dirty s) (ls_input_at s) (ls_input_queued s)
    (ls_pending_input s) (ls_writer_busy s) (ls_backlog s) (ls_app_deadline s)
    (ls_now s + t) (ls_last_flush s).

(** The trailing frame: a frame the gate deferred for pacing is rendered
    once the deferral has been waited out, and not before. *)
Theorem deferred_frame_flushes (s : LoopState) (r t : Duration) :
  have_damage s = true -> ls_writer_busy s = false -> ls_input_queued s = false ->
  ls_last_flush s <= ls_now s ->
  gate s = Defer r -> (should_render (after t s) = true <-> r <= t).
Proof.
  intros Hd Hw Hq Hle. unfold gate, frame_gate. rewrite Hq.
  destruct (ls_input_at s) eqn:Ei; [done|]. destruct (pane_only_damage s) eqn:Ep; [|done]. simpl.
  destruct (N.leb_spec PANE_FRAME_WINDOW (ls_now s - ls_last_flush s)); [done|].
  intros [= <-]. unfold should_render, gate, frame_gate. simpl. rewrite Hw, Hq, Ei.
  change (have_damage (after t s)) with (have_damage s).
  change (pane_only_damage (after t s)) with (pane_only_damage s). rewrite Hd, Ep. simpl.
  destruct (N.leb_spec PANE_FRAME_WINDOW (ls_now s + t - ls_last_flush s)); split; (lia || done).
Qed.

Lemma deferred_frame_flushes_witness :
  should_render (after 5000000 (pane_output 0 3000000)) = true.
Proof.
  apply (deferred_frame_flushes (pane_output 0 3000000) 5000000 5000000);
    try reflexivity; vm_compute; congruence.
Defined.

(** A wheel scroll loses no damage: when the single-pane fast path is
    refused the frame is full, and when it is taken no other region was
    damaged. *)
Theorem wheel_keeps_damage (s : LoopState) (scroll_only guards : bool) (o : Overlays) p :
  ls_scroll_dirty s = true -> frame_plan s scroll_only guards o = Some p ->
  if scroll_fast_ok scroll_only (ls_damage s) guards
  then forall r, ~ damaged (ls_damage s) r
  else p = Full.
Proof.
  intros Hs. unfold frame_plan. destruct (should_render s); [|done]. rewrite Hs.
  destruct (scroll_fast_ok _ _ _) eqn:E.
  - intros _. apply is_empty_damaged. unfold scroll_fast_ok in E. by bool_to_prop.
  - intros [= <-]. unfold plan; simpl. rewrite orb_true_r. simpl. by destruct (full _).
Qed.

Lemma wheel_keeps_damage_witness :
  let s := mkLoopState (mkDamage false false false {[7]} true false false)
             true false false false false false None 9000000 0 in
  frame_plan s true true (mkOverlays false false false false) = Some Full.
Proof.
  intros s. destruct (frame_plan s true true (mkOverlays false false false false)) as [p|] eqn:E.
  - f_equal. exact (wheel_keeps_damage s true true _ p eq_refl E).
  - discriminate E.
Defined.
