(* ===== verification/LogIngress.v ===== *)
(** * The bounded log ingress

    thegn-svc/src/log/ingress.rs: the drop-oldest queue between the log tailer
    and the host loop, with the [ParsedLog] of thegn-core/src/log/parser.rs.
    The queue is behind a mutex, so every method is one atomic step; a run of
    the system is a sequence of [push] and [take] steps in any order.
    [LogQueue] is what the host loop relies on; [LogDrain] is proved against it. *)
From Stdlib Require Import Ascii String.
From S2P Require Import Prelude RustStr.
Local Open Scope N_scope.

(** ** The records *)

Inductive LogLevel := Trace | Debug_ | Info_ | Warn | Error | Fatal.

Global Instance LogLevel_eq_dec : EqDecision LogLevel.
Proof. solve_decision. Defined.

Record ParsedLog := mkParsedLog {
  timestamp : string;
  level : LogLevel;
  message : string;
  original : string;
  worktree : option string;
  target : option string;
}.

(** Instants and durations in nanoseconds. *)
Abbreviation Instant := N (only parsing).

Definition MAX_PENDING_RECORDS : N := 2000.
Definition MAX_PENDING_BYTES : N := 1024 * 1024.
Definition MAX_RECORD_BYTES : N := 8 * 1024.
Definition RECORD_OVERHEAD : N := 128.

Record Entry := mkEntry { at_ : Instant; cost : N; log : ParsedLog }.

Record State := mkState {
  queue : list Entry;
  bytes : N;
  gap : N;
  dropped_total : N;
  pushed_total : N;
  taken_total : N;
  gap_markers_total : N;
}.

Definition new : State := mkState [] 0 0 0 0 0 0.

Definition str_len (s : string) : N := N.of_nat (String.length s).

Definition parsed_cost (l : ParsedLog) : N :=
  RECORD_OVERHEAD + str_len (original l) + str_len (message l) +
  str_len (timestamp l) + from_option str_len 0 (worktree l).

(** ** Clamping a raw line *)

(** [is_char_boundary(i)]: the ends, or a byte that is not a UTF-8
    continuation byte. *)
Definition is_char_boundary (i : nat) (s : string) : bool :=
  (i =? 0)%nat || (i =? String.length s)%nat ||
  match byte_at i s with
  | Some a => negb (byte_in 128 191 a)
  | None => false
  end.

Fixpoint boundary_below (cut : nat) (s : string) : nat :=
  if is_char_boundary cut s then cut
  else match cut with
       | O => O
       | S c => boundary_below c s
       end.

Definition clamp_record (line : string) : string :=
  if MAX_RECORD_BYTES <? str_len line
  then (str_take (boundary_below (N.to_nat MAX_RECORD_BYTES) line) line ++ " [record truncated]")%string
  else line.

(** ** Operations *)

(** The eviction loop, on the queue it pops from the front. *)
Fixpoint evict (q : list Entry) (by_ gap_ dropped : N) : list Entry * N * N * N :=
  if (MAX_PENDING_RECORDS <? N.of_nat (length q)) || (MAX_PENDING_BYTES <? by_)
  then match q with
       | [] => (q, by_, gap_, dropped)
       | old :: q => evict q (by_ - cost old) (u64_sat_add gap_ 1) (u64_sat_add dropped 1)
       end
  else (q, by_, gap_, dropped).

Definition push_one (now : Instant) (st : State) (l : ParsedLog) : State :=
  let c := parsed_cost l in
  let '(q, by_, g, d) :=
    evict (queue st ++ [mkEntry now c l]) (N.min (bytes st + c) usize_max)
      (gap st) (dropped_total st) in
  mkState q by_ g d (pushed_total st) (taken_total st) (gap_markers_total st).

Definition push (now : Instant) (batch : list ParsedLog) (st : State) : bool * State :=
  let was_empty := match queue st with [] => true | _ => false end in
  let st := foldl (push_one now) st batch in
  (was_empty,
   mkState (queue st) (bytes st) (gap st) (dropped_total st)
     (u64_sat_add (pushed_total st) (N.of_nat (length batch)))
     (taken_total st) (gap_markers_total st)).

Definition gap_marker (count : N) : ParsedLog :=
  let m := ("[" ++ fmt_N count ++ " log lines dropped under overload]")%string in
  mkParsedLog "" Warn m m None None.

(** The popping loop of [take]. *)
Fixpoint pop (max_records : N) (q : list Entry) (by_ taken : N)
  : list ParsedLog * list Entry * N * N :=
  match q with
  | [] => ([], [], by_, taken)
  | e :: q' =>
      if max_records =? 0 then ([], q, by_, taken)
      else
        let '(out, rest, by_, taken) :=
          pop (max_records - 1) q' (by_ - cost e) (u64_sat_add taken 1) in
        (log e :: out, rest, by_, taken)
  end.

Definition take_ (max_records : N) (st : State) : list ParsedLog * State :=
  let '(out, q, by_, taken) := pop max_records (queue st) (bytes st) (taken_total st) in
  if 0 <? gap st
  then (gap_marker (gap st) :: out,
        mkState q by_ 0 (dropped_total st) (pushed_total st) taken
          (u64_sat_add (gap_markers_total st) 1))
  else (out, mkState q by_ (gap st) (dropped_total st) (pushed_total st) taken
               (gap_markers_total st)).

Definition has_pending (st : State) : bool :=
  negb (match queue st with [] => true | _ => false end) || (0 <? gap st).

Record IngressStats := mkIngressStats {
  s_pending : N;
  s_pending_bytes : N;
  s_dropped_total : N;
  s_pushed_total : N;
  s_taken_total : N;
  s_gap_markers_total : N;
  s_oldest_age : option N;
}.

Definition stats (now : Instant) (st : State) : IngressStats :=
  mkIngressStats (N.of_nat (length (queue st))) (bytes st) (dropped_total st)
    (pushed_total st) (taken_total st) (gap_markers_total st)
    ((fun e => now - at_ e) <$> head (queue st)).

(** The marker test of the host (thegn-host/src/loop_policy.rs). *)
Definition is_gap_marker (l : ParsedLog) : bool :=
  is_empty (timestamp l) && bool_decide (level l = Warn) &&
  match target l with None => true | Some _ => false end &&
  contains "log lines dropped under overload" (message l).

(** ** The interface the host drains through *)

(** The records of a slice, the leading marker not counted. *)
Definition slice_records (slice : list ParsedLog) : N :=
  N.of_nat (length slice) -
  match slice with l :: _ => if is_gap_marker l then 1 else 0 | [] => 0 end.

Class LogQueue (Q : Type) := {
  lq_push : Instant -> list ParsedLog -> Q -> bool * Q;
  lq_take : N -> Q -> list ParsedLog * Q;
  lq_has_pending : Q -> bool;
  lq_size : Q -> nat;
  lq_take_bound : forall n q, slice_records (fst (lq_take n q)) <= n;
  lq_take_progress : forall n q, 0 < n ->
    fst (lq_take n q) <> [] -> (lq_size (snd (lq_take n q)) < lq_size q)%nat;
  lq_take_none : forall n q, 0 < n -> (fst (lq_take n q) = [] <-> lq_has_pending q = false);
}.

(** ** Lemmas on the loops *)

Definition costs (q : list Entry) : N := foldr (fun e s => cost e + s) 0 q.

Lemma costs_app q1 q2 : costs (q1 ++ q2) = costs q1 + costs q2.
Proof. induction q1 as [|e q1 IH]; simpl; [done|]. unfold costs in *. simpl. lia. Qed.

(** Eviction drops a prefix, one count each, until both bounds hold. *)
Lemma evict_spec q by_ g d q' by' g' d' :
  evict q by_ g d = (q', by', g', d') -> by_ = costs q ->
  exists old, q = old ++ q' /\ by' = costs q' /\
    N.of_nat (length q') <= MAX_PENDING_RECORDS /\ by' <= MAX_PENDING_BYTES /\
    (g + N.of_nat (length old) <= u64_max -> g' = g + N.of_nat (length old)) /\
    (d + N.of_nat (length old) <= u64_max -> d' = d + N.of_nat (length old)).
Proof.
  revert by_ g d; induction q as [|e q IH]; intros by_ g d He Hb; simpl in He.
  - assert (by_ = 0) as -> by done. simpl in He. injection He as <- <- <- <-.
    exists []. simpl. unfold MAX_PENDING_RECORDS, MAX_PENDING_BYTES. repeat split; try done; lia.
  - destruct ((_ <? _) || (_ <? _)) eqn:E.
    + apply IH in He as (old & -> & ? & ? & ? & Hg & Hd); [|simpl in Hb; rewrite Hb; unfold costs; simpl; lia].
      exists (e :: old). simpl length. unfold u64_sat_add in *.
      repeat split; try done; intros Hm.
      * rewrite Hg; lia.
      * rewrite Hd; lia.
    + injection He as <- <- <- <-. bool_to_prop. exists []. simpl length.
      repeat split; try done; lia.
Qed.

(** A record alone within the byte bound is never evicted by its own push. *)
Lemma evict_keeps_last q e by_ g d :
  by_ = costs (q ++ [e]) -> cost e <= MAX_PENDING_BYTES ->
  fst (fst (fst (evict (q ++ [e]) by_ g d))) <> [].
Proof.
  revert by_ g d; induction q as [|x q IH]; intros by_ g d Hb Hc; cbn [app evict].
  - destruct ((_ <? _) || (_ <? _)) eqn:E; [|done]. exfalso.
    apply orb_true_iff in E as [E|E]; bool_to_prop.
    + unfold MAX_PENDING_RECORDS in E. simpl in E. lia.
    + unfold costs in Hb. simpl in Hb. lia.
  - destruct ((_ <? _) || (_ <? _)); [|by simpl].
    apply IH; [|done]. simpl in Hb. rewrite Hb. unfold costs. simpl. lia.
Qed.

Lemma pop_spec n q by_ t out rest by' t' :
  pop n q by_ t = (out, rest, by', t') -> by_ = costs q ->
  exists got, q = got ++ rest /\ out = log <$> got /\ by' = costs rest /\
    N.of_nat (length got) = N.min n (N.of_nat (length q)) /\
    (t + N.of_nat (length got) <= u64_max -> t' = t + N.of_nat (length got)).
Proof.
  revert n by_ t out; induction q as [|e q IH]; intros n by_ t out Hp Hb; simpl in Hp.
  - injection Hp as <- <- <- <-. exists []. simpl. repeat split; try done; lia.
  - destruct (N.eqb_spec n 0) as [->|Hn].
    + injection Hp as <- <- <- <-. exists []. simpl length. repeat split; try done; lia.
    + destruct (pop _ _ _ _) as [[[o r] b] tt] eqn:E. injection Hp as <- <- <- <-.
      apply IH in E as (got & -> & -> & -> & Hl & Ht); [|rewrite Hb; unfold costs; simpl; lia].
      exists (e :: got). simpl length. unfold u64_sat_add in Ht. repeat split; try done.
      * lia.
      * intros Hm. rewrite Ht; lia.
Qed.

(** [pop]'s output and rest do not depend on the byte counter. *)
Lemma pop_out n q by_ t :
  fst (fst (fst (pop n q by_ t))) = log <$> (take (N.to_nat n) q) /\
  snd (fst (fst (pop n q by_ t))) = drop (N.to_nat n) q.
Proof.
  revert n by_ t; induction q as [|e q IH]; intros n by_ t; simpl.
  - by rewrite take_nil, drop_nil.
  - destruct (N.eqb_spec n 0) as [->|Hn]; [done|].
    specialize (IH (n - 1) (by_ - cost e) (u64_sat_add t 1)).
    destruct (pop _ _ _ _) as [[[o r] b] tt]. simpl in *. destruct IH as [-> ->].
    by replace (N.to_nat n) with (S (N.to_nat (n - 1))) by lia.
Qed.

Lemma is_gap_marker_gap n : is_gap_marker (gap_marker n) = true.
Proof.
  assert (contains "log lines dropped under overload" (message (gap_marker n)) = true) as H.
  { apply (contains_app_r _ "["), contains_app_r, (contains_app_r _ " ").
    exact (contains_start "log lines dropped under overload" "]"). }
  unfold is_gap_marker. by rewrite H.
Qed.

(** ** The queue implements the interface *)

Lemma take_eq n st :
  take_ n st =
    (let out := log <$> take (N.to_nat n) (queue st) in
     (if 0 <? gap st then gap_marker (gap st) :: out else out,
      mkState (drop (N.to_nat n) (queue st))
        (snd (fst (pop n (queue st) (bytes st) (taken_total st)))) 0
        (dropped_total st) (pushed_total st)
        (snd (pop n (queue st) (bytes st) (taken_total st)))
        (if 0 <? gap st then u64_sat_add (gap_markers_total st) 1 else gap_markers_total st))).
Proof.
  unfold take_. pose proof (pop_out n (queue st) (bytes st) (taken_total st)) as [Ho Hr].
  destruct (pop _ _ _ _) as [[[o r] b] t]. simpl in *. subst.
  destruct (N.ltb_spec 0 (gap st)); [done|]. by replace (gap st) with 0 by lia.
Qed.

Lemma length_take_le (n : N) (q : list Entry) :
  N.of_nat (length (log <$> take (N.to_nat n) q)) <= n.
Proof. rewrite length_fmap, length_take. lia. Qed.

Global Instance State_LogQueue : LogQueue State.
Proof.
  refine {| lq_push := push; lq_take := take_; lq_has_pending := has_pending;
    lq_size := fun st => (length (queue st) + if (0 <? gap st)%N then 1 else 0)%nat |}.
  - intros n st. rewrite take_eq. simpl. pose proof (length_take_le n (queue st)).
    destruct (0 <? gap st); unfold slice_records.
    + rewrite is_gap_marker_gap. simpl length. lia.
    + destruct (log <$> _); [simpl; lia|]. destruct (is_gap_marker _); lia.
  - intros n st Hn. rewrite take_eq. simpl. rewrite length_drop.
    destruct (0 <? gap st); [lia|]. intros Hne.
    destruct (queue st); [by rewrite take_nil in Hne|]. simpl. lia.
  - intros n st Hn. rewrite take_eq. unfold has_pending. simpl.
    destruct (0 <? gap st); [split; [done|by rewrite orb_true_r]|].
    destruct (queue st); [by rewrite take_nil|].
    by replace (N.to_nat n) with (S (N.to_nat (n - 1))) by lia.
Defined.

(** ** Runs of the queue *)

(** One atomic step of a run, with the records it hands out. *)
Inductive op :=
| OPush (now : Instant) (batch : list ParsedLog)
| OTake (max_records : N).

Definition step (st : State) (o : op) : list ParsedLog * State :=
  match o with
  | OPush now batch => ([], snd (push now batch st))
  | OTake n => take_ n st
  end.

(** The state after a run and everything it handed out, in order. *)
Definition run (ops : list op) (st : State) : list ParsedLog * State :=
  foldl (fun '(out, st) o => let '(o, st) := step st o in (out ++ o, st)) ([], st) ops.

Definition pushed (ops : list op) : list ParsedLog :=
  ops ≫= fun o => match o with OPush _ b => b | OTake _ => [] end.

(** What became of the records that left the queue, in source order: handed
    out, or dropped; a gap of [n] was reported by a marker at its place. *)
Inductive fate := Handed (l : ParsedLog) | Dropped (l : ParsedLog) | Marker (n : N).

Definition fate_source (f : fate) : option ParsedLog :=
  match f with Handed l | Dropped l => Some l | Marker _ => None end.
Definition fate_out (f : fate) : option ParsedLog :=
  match f with Handed l => Some l | Dropped _ => None | Marker n => Some (gap_marker n) end.
Definition fate_handed (f : fate) : N := match f with Handed _ => 1 | _ => 0 end.
Definition fate_dropped (f : fate) : N := match f with Dropped _ => 1 | _ => 0 end.
Definition fate_reported (f : fate) : N := match f with Marker n => n | _ => 0 end.

Definition total (f : fate -> N) (fs : list fate) : N := foldr (fun x s => f x + s) 0 fs.

Lemma total_app f l1 l2 : total f (l1 ++ l2) = total f l1 + total f l2.
Proof. unfold total. induction l1; simpl; [done|]. lia. Qed.

(** Where the markers stand: after [g] drops not reported yet, the fates [fs] leave
    the result unreported.  A marker counts exactly the drops since the last one
    and follows them at once; nothing is handed out before it. *)
Fixpoint unreported (g : N) (fs : list fate) : option N :=
  match fs with
  | [] => Some g
  | Handed _ :: fs => if g =? 0 then unreported 0 fs else None
  | Dropped _ :: fs => unreported (g + 1) fs
  | Marker n :: fs => if (0 <? g) && (n =? g) then unreported 0 fs else None
  end.

Lemma unreported_app g fs fs' : unreported g (fs ++ fs') = unreported g fs ≫= fun g => unreported g fs'.
Proof. revert g; induction fs as [|[l|l|n] fs IH]; intros g; csimpl; [done|..]; try case_match; auto. Qed.

Lemma unreported_drops g old : unreported g ((fun e => Dropped (log e)) <$> old) = Some (g + N.of_nat (length old)).
Proof. revert g; induction old as [|e old IH]; intros g; csimpl; [f_equal; lia|]. rewrite IH. f_equal. lia. Qed.

Lemma unreported_handed ls : unreported 0 (Handed <$> ls) = Some 0.
Proof. by induction ls. Qed.

(** Every allocation in the address space fits with room for the queue. *)
Definition fits (l : ParsedLog) : Prop := parsed_cost l <= usize_max - MAX_PENDING_BYTES.

(** The bounds of the queue. *)
Definition bounded (st : State) : Prop :=
  bytes st = costs (queue st) /\
  Forall (fun e => cost e = parsed_cost (log e)) (queue st) /\
  N.of_nat (length (queue st)) <= MAX_PENDING_RECORDS /\ bytes st <= MAX_PENDING_BYTES.

(** The history of a run in terms of fates. *)
Definition history (src out : list ParsedLog) (fs : list fate) (st : State) : Prop :=
  src = omap fate_source fs ++ (log <$> queue st) /\
  out = omap fate_out fs /\
  taken_total st = total fate_handed fs /\
  dropped_total st = total fate_dropped fs /\
  dropped_total st = total fate_reported fs + gap st /\
  unreported 0 fs = Some (gap st).

Lemma total_source fs :
  N.of_nat (length (omap fate_source fs)) = total fate_handed fs + total fate_dropped fs.
Proof.
  induction fs as [|[l|l|n] fs IH]; [done|..]; csimpl; unfold total in *; simpl; lia.
Qed.

Lemma push_one_step now st l src out fs :
  bounded st -> history src out fs st -> fits l ->
  N.of_nat (length src) < u64_max ->
  bounded (push_one now st l) /\ pushed_total (push_one now st l) = pushed_total st /\
  exists fs', history (src ++ [l]) out (fs ++ fs') (push_one now st l).
Proof.
  intros (Hb & Hc & Hn & Hm) (Hsrc & Hout & Ht & Hd & Hg & Hr) Hfit Hu.
  unfold push_one, fits in *. rewrite N.min_l by (unfold usize_max, MAX_PENDING_BYTES in *; lia).
  destruct (evict _ _ _ _) as [[[q by_] g] d] eqn:E.
  pose proof (total_source fs) as Hts.
  apply evict_spec in E as (old & Hq & Hby & Hlen & Hbm & Hg' & Hd');
    [|rewrite costs_app, Hb; unfold costs; simpl; lia].
  assert (Forall (fun e => cost e = parsed_cost (log e)) (old ++ q)) as Hall.
  { rewrite <- Hq. apply Forall_app. split; [done|]. by repeat constructor. }
  assert (length old + length q = length (queue st) + 1)%nat as Hlq.
  { rewrite <- !length_app, <- Hq, length_app. done. }
  assert (N.of_nat (length src) = total fate_handed fs + total fate_dropped fs +
    N.of_nat (length (queue st))) as Hls.
  { rewrite Hsrc, length_app, length_fmap. lia. }
  rewrite Hg' by lia. rewrite Hd' by lia. clear Hg' Hd'.
  apply Forall_app in Hall as [_ Hall].
  split; [|split; [done|]]; [by repeat split|].
  exists ((fun e => Dropped (log e)) <$> old). unfold history. simpl.
  rewrite !omap_app, !total_app, unreported_app, Hr. cbn [mbind option_bind]. rewrite unreported_drops.
  assert (omap fate_source ((fun e => Dropped (log e)) <$> old) = log <$> old) as ->.
  { clear. induction old; simpl; [done|]. by f_equal. }
  assert (omap fate_out ((fun e => Dropped (log e)) <$> old) = []) as ->.
  { clear. induction old; simpl; done. }
  assert (total fate_handed ((fun e => Dropped (log e)) <$> old) = 0 /\
    total fate_dropped ((fun e => Dropped (log e)) <$> old) = N.of_nat (length old) /\
    total fate_reported ((fun e => Dropped (log e)) <$> old) = 0) as (-> & -> & ->).
  { clear. unfold total. induction old as [|e old IH]; [done|]. csimpl.
    destruct IH as (IH1 & IH2 & IH3). repeat split; lia. }
  split; [|split; [|split_and!; [lia..|done] ] ].
  - rewrite <- app_assoc, <- fmap_app, <- Hq, fmap_app, Hsrc. by rewrite app_assoc.
  - by rewrite app_nil_r.
Qed.

Lemma push_step now batch st src out fs :
  bounded st -> history src out fs st -> Forall fits batch ->
  N.of_nat (length (src ++ batch)) <= u64_max ->
  let st' := snd (push now batch st) in
  bounded st' /\ pushed_total st' = u64_sat_add (pushed_total st) (N.of_nat (length batch)) /\
  exists fs', history (src ++ batch) out (fs ++ fs') st'.
Proof.
  unfold push. simpl. intros Hb Hh Hf Hu.
  assert (bounded (foldl (push_one now) st batch) /\
    pushed_total (foldl (push_one now) st batch) = pushed_total st /\
    exists fs', history (src ++ batch) out (fs ++ fs') (foldl (push_one now) st batch))
    as (H1 & H2 & H3).
  { revert st src fs Hb Hh Hu; induction Hf as [|l batch Hl Hf IH]; intros st src fs Hb Hh Hu; simpl.
    - split; [done|]. split; [done|]. exists []. by rewrite !app_nil_r.
    - destruct (push_one_step now st l src out fs Hb Hh Hl) as (Hb' & Hp & fs' & Hh').
      { rewrite length_app in Hu. simpl in Hu. lia. }
      destruct (IH _ (src ++ [l]) (fs ++ fs') Hb' Hh') as (? & Hp2 & fs2 & Hh2).
      { rewrite <- app_assoc. done. }
      split; [done|]. split; [congruence|].
      exists (fs' ++ fs2). by rewrite <- !app_assoc in Hh2. }
  split; [exact H1|]. rewrite H2. split; [done|exact H3].
Qed.

Lemma take_step n st src out fs :
  bounded st -> history src out fs st -> N.of_nat (length src) <= u64_max ->
  let '(o, st') := take_ n st in
  bounded st' /\ pushed_total st' = pushed_total st /\
  exists fs', history src (out ++ o) (fs ++ fs') st'.
Proof.
  intros (Hb & Hc & Hn & Hm) (Hsrc & Hout & Ht & Hd & Hg & Hun) Hu. rewrite take_eq. simpl.
  destruct (pop n (queue st) (bytes st) (taken_total st)) as [[[o rest] by_] t] eqn:E.
  pose proof (pop_out n (queue st) (bytes st) (taken_total st)) as [Ho Hr]. rewrite E in Ho, Hr.
  simpl in *. apply pop_spec in E as (got & Hq & Ho' & Hby & Hl & Htk); [|done].
  pose proof (total_source fs) as Hts.
  assert (N.of_nat (length src) = total fate_handed fs + total fate_dropped fs +
    N.of_nat (length (queue st))) as Hls.
  { rewrite Hsrc, length_app, length_fmap. lia. }
  assert (length (queue st) = length got + length rest)%nat as Hlq by (by rewrite Hq, length_app).
  rewrite <- Hr, <- Ho, Ho', Hby. rewrite Htk by lia.
  assert (costs rest <= costs (queue st)) by (rewrite Hq, costs_app; lia).
  split; [|split; [done|]].
  { rewrite Hq in Hc. apply Forall_app in Hc as [_ Hc]. repeat split; simpl; try done; lia. }
  exists ((if 0 <? gap st then [Marker (gap st)] else []) ++ (Handed <$> (log <$> got))).
  unfold history. simpl. rewrite !omap_app, !total_app.
  assert (forall ls, omap fate_source (Handed <$> ls) = ls /\ omap fate_out (Handed <$> ls) = ls /\
    total fate_handed (Handed <$> ls) = N.of_nat (length ls) /\
    total fate_dropped (Handed <$> ls) = 0 /\ total fate_reported (Handed <$> ls) = 0) as HH.
  { clear. induction ls as [|l ls (I1 & I2 & I3 & I4 & I5)]; [done|]. csimpl.
    unfold total in *. repeat split; csimpl; try congruence; lia. }
  destruct (HH (log <$> got)) as (-> & -> & -> & -> & ->). rewrite length_fmap.
  rewrite Hsrc, Hout, Hq, fmap_app.
  assert (unreported 0 (fs ++ (if 0 <? gap st then [Marker (gap st)] else []) ++ (Handed <$> (log <$> got))) = Some 0) as ->.
  { rewrite !unreported_app, Hun. cbn [mbind option_bind]. rewrite unreported_app.
    destruct (N.ltb_spec 0 (gap st)) as [Hpos|]; cbn [unreported].
    - apply N.ltb_lt in Hpos. rewrite Hpos, N.eqb_refl. cbn. apply unreported_handed.
    - replace (gap st) with 0 by lia. apply unreported_handed. }
  destruct (N.ltb_spec 0 (gap st)); unfold total; csimpl; split_and!;
    rewrite <- ?app_assoc, ?app_nil_r; try done; fold (total fate_handed fs);
    unfold total in *; lia.
Qed.

Lemma run_snoc ops o st :
  run (ops ++ [o]) st =
    (let '(out, s) := run ops st in let '(o', s) := step s o in (out ++ o', s)).
Proof. unfold run. rewrite foldl_app. simpl. by destruct (foldl _ _ ops). Qed.

Lemma pushed_snoc ops o :
  pushed (ops ++ [o]) = pushed ops ++ match o with OPush _ b => b | OTake _ => [] end.
Proof. unfold pushed. rewrite bind_app. simpl. by rewrite app_nil_r. Qed.

(** The invariant of every run. *)
Lemma run_invariant ops :
  Forall fits (pushed ops) -> N.of_nat (length (pushed ops)) <= u64_max ->
  bounded (snd (run ops new)) /\
  pushed_total (snd (run ops new)) = N.of_nat (length (pushed ops)) /\
  exists fs, history (pushed ops) (fst (run ops new)) fs (snd (run ops new)).
Proof.
  induction ops as [|o ops IH] using rev_ind; intros Hf Hu.
  - split; [|split; [done|by exists []]]. repeat split; try done; by vm_compute.
  - rewrite run_snoc. rewrite pushed_snoc in *. apply Forall_app in Hf as [Hf1 Hf2].
    destruct IH as (Hb & Hp & fs & Hh); [done|rewrite length_app in Hu; lia|].
    destruct (run ops new) as [out st]. simpl in Hb, Hp, Hh. destruct o as [now b|n].
    + destruct (push_step now b st _ _ _ Hb Hh Hf2 Hu) as (Hb' & Hp' & fs' & Hh').
      simpl. rewrite app_nil_r. split; [exact Hb'|split; [|by eexists]].
      change (pushed_total (snd (push now b st)) = N.of_nat (length (pushed ops ++ b))).
      rewrite Hp', Hp. unfold u64_sat_add. rewrite length_app in *. lia.
    + rewrite app_nil_r in *. pose proof (take_step n st _ _ _ Hb Hh Hu) as Ht. cbn [step].
      destruct (take_ n st) as [o st']. destruct Ht as (? & Hp' & fs' & ?). simpl.
      split; [done|split; [congruence|by eexists]].
Qed.

(** The queue's bounds hold at every point of every run of pushes and
    takes: at most 2,000 records, at most 1 MiB of estimated payload, and the
    byte counter is exactly the cost of the queued records, so its
    subtractions never wrap. *)
Theorem ingress_bounded (ops : list op) :
  Forall fits (pushed ops) -> N.of_nat (length (pushed ops)) <= u64_max ->
  let st := snd (run ops new) in
  N.of_nat (length (queue st)) <= MAX_PENDING_RECORDS /\
  bytes st <= MAX_PENDING_BYTES /\
  bytes st = foldr (fun e s => parsed_cost (log e) + s) 0 (queue st).
Proof.
  intros Hf Hu. destruct (run_invariant ops Hf Hu) as [(Hb & Hc & Hn & Hm) _]. simpl.
  repeat split; [done|done|]. rewrite Hb. clear -Hc. induction Hc as [|e q He Hc IH]; [done|].
  unfold costs in *. simpl. congruence.
Qed.

(** C38. Records come out in source order and each pushed record meets exactly
    one fate: handed out, dropped, or still pending.  The pending ones are the
    newest, and the totals count the fates.  Each gap marker stands in the output
    where its drops happened, before any later record, and counts exactly the
    drops since the marker before it; the drops not reported yet are the gap. *)
Theorem ingress_conserves (ops : list op) :
  Forall fits (pushed ops) -> N.of_nat (length (pushed ops)) <= u64_max ->
  let '(out, st) := run ops new in
  exists fs : list fate,
    pushed ops = omap fate_source fs ++ (log <$> queue st) /\
    out = omap fate_out fs /\
    taken_total st = total fate_handed fs /\
    dropped_total st = total fate_dropped fs /\
    unreported 0 fs = Some (gap st) /\
    pushed_total st = taken_total st + dropped_total st + s_pending (stats 0 st).
Proof.
  intros Hf Hu. destruct (run_invariant ops Hf Hu) as (_ & Hp & fs & H1 & H2 & H3 & H4 & _ & H5).
  destruct (run ops new) as [out st]. simpl in *. exists fs. repeat (split; [done|]).
  rewrite Hp, H1, H3, H4, length_app, length_fmap. pose proof (total_source fs). lia.
Qed.

(** A run that overflows the record bound by one. *)
Definition small_record (m : string) : ParsedLog := mkParsedLog "t" Info_ m m None (Some "m").

Definition overload : list op :=
  [OPush 0 (small_record "first" :: repeat (small_record "x") 1999);
   OPush 1 [small_record "last"]; OTake 1].

Lemma overload_fits :
  Forall fits (pushed overload) /\ N.of_nat (length (pushed overload)) <= u64_max.
Proof.
  split; [|by vm_compute]. apply Forall_forall. intros l Hl.
  assert (forallb (fun l => parsed_cost l <=? usize_max - MAX_PENDING_BYTES)
    (pushed overload) = true) as H by by vm_compute.
  rewrite forallb_forall in H. apply N.leb_le, H. by apply list_elem_of_In.
Qed.

Lemma ingress_bounded_witness : bytes (snd (run overload new)) <= MAX_PENDING_BYTES.
Proof.
  destruct overload_fits as [H1 H2].
  exact (proj1 (proj2 (ingress_bounded overload H1 H2))).
Defined.

Lemma overload_totals :
  dropped_total (snd (run overload new)) = 1 /\ taken_total (snd (run overload new)) = 1.
Proof. by vm_compute. Qed.

Lemma ingress_conserves_witness :
  exists fs, fst (run overload new) = omap fate_out fs /\
    total fate_dropped fs = 1 /\ total fate_handed fs = 1.
Proof.
  destruct overload_fits as [H1 H2].
  pose proof (ingress_conserves overload H1 H2) as H. pose proof overload_totals as [Ed Et].
  destruct (run overload new) as [out st]. cbn [fst snd] in *.
  destruct H as (fs & _ & Ho & Ht & Hd & _). exists fs. by rewrite <- Ht, <- Hd.
Defined.
