(* ===== verification/LogDrain.v ===== *)
(** * Draining the log ingress on the event loop

    The log half of thegn-host/src/loop_policy.rs: the record and time budget,
    the display rows with their sequence number, and [drain_logs].  It is
    written against [LogQueue], so its theorems hold for any queue with those
    laws; the producer runs concurrently, and [arrivals k] is the batch it
    pushes between the reader's critical sections. *)
From Stdlib Require Import Ascii String.
From S2P Require Import Prelude RustStr LogIngress.
Local Open Scope N_scope.

Definition LOG_RETAIN : N := 1000.
Definition LOG_CHUNK : N := 32.

Record LogBudget := mkLogBudget { max_records : N; log_deadline : N }.

Definition log_budget (input_pending : bool) : LogBudget :=
  if input_pending then mkLogBudget 32 1000000 else mkLogBudget 256 2000000.

Record LogDrain := mkLogDrain {
  ld_applied : N;
  ld_took : bool;
  ld_dirty : bool;
  ld_backlog : bool;
}.

Definition is_render_noise (l : ParsedLog) : bool :=
  match target l with
  | None => false
  | Some t =>
      String.eqb t "thegn::frame" || String.eqb t "thegn::perf" ||
      starts_with "thegn::frame::" t || starts_with "thegn::perf::" t
  end.

(** [rows] and [first_seq] after the slice, with the dirty result. *)
Definition apply_log_slice (rows : list ParsedLog) (first_seq : N)
    (slice : list ParsedLog) (visible : bool) : bool * (list ParsedLog * N) :=
  match slice with
  | [] => (false, (rows, first_seq))
  | _ =>
      let dirty := visible && existsb (fun l => negb (is_render_noise l)) slice in
      let rows := rows ++ slice in
      let len := N.of_nat (length rows) in
      if LOG_RETAIN <? len
      then let overflow := len - LOG_RETAIN in
           (dirty, (drop (N.to_nat overflow) rows, first_seq + overflow))
      else (dirty, (rows, first_seq))
  end.

Section Drain.
Context {Q : Type} `{!LogQueue Q}.
Variable budget : LogBudget.
Variable visible : bool.
(** The [k]-th reading of the clock and the [k]-th concurrent push. *)
Variable now : nat -> Instant.
Variable arrivals : nat -> list ParsedLog.

Definition arrive (k : nat) (q : Q) : Q :=
  match arrivals k with
  | [] => q
  | batch => snd (lq_push (now k) batch q)
  end.

(** What the loop keeps: the queue, the display rows, the locals, and (a
    ghost) everything taken so far. *)
Record Drain := mkDrain {
  d_queue : Q;
  d_rows : list ParsedLog;
  d_first_seq : N;
  d_applied : N;
  d_took : bool;
  d_dirty : bool;
  d_taken : list ParsedLog;
}.

(** One pass of the [while] body; [inr] leaves the loop. *)
Definition drain_pass (k : nat) (d : Drain) : Drain + Drain :=
  if d_applied d <? max_records budget then
    let count := N.min LOG_CHUNK (max_records budget - d_applied d) in
    let '(slice, q) := lq_take count (arrive k (d_queue d)) in
    match slice with
    | [] => inr (mkDrain q (d_rows d) (d_first_seq d) (d_applied d)
                   (d_took d) (d_dirty d) (d_taken d))
    | _ =>
        let '(dirty, (rows, first_seq)) :=
          apply_log_slice (d_rows d) (d_first_seq d) slice visible in
        let applied := d_applied d + slice_records slice in
        let d' := mkDrain q rows first_seq applied true
                    (d_dirty d || dirty) (d_taken d ++ slice) in
        if (max_records budget <=? applied) ||
           (log_deadline budget <=? now (S k) - now 0)
        then inr d' else inl d'
    end
  else inr d.

Fixpoint drain_loop (fuel k : nat) (d : Drain) : option (nat * Drain) :=
  match fuel with
  | O => None
  | S fuel =>
      match drain_pass k d with
      | inl d => drain_loop fuel (S k) d
      | inr d => Some (S k, d)
      end
  end.

Definition drain_logs (fuel : nat) (q : Q) (rows : list ParsedLog) (first_seq : N)
    : option (LogDrain * Drain) :=
  match drain_loop fuel 0 (mkDrain q rows first_seq 0 false false []) with
  | None => None
  | Some (k, d) =>
      Some (mkLogDrain (d_applied d) (d_took d) (d_dirty d)
              (lq_has_pending (arrive k (d_queue d))), d)
  end.

(** ** Lemmas *)

(** The newest [LOG_RETAIN] of a list. *)
Definition newest (l : list ParsedLog) : list ParsedLog :=
  drop (length l - N.to_nat LOG_RETAIN) l.

Lemma newest_app a b : newest (newest a ++ b) = newest (a ++ b).
Proof.
  unfold newest. generalize (N.to_nat LOG_RETAIN). intros r.
  rewrite !length_app, length_drop.
  destruct (decide (length a <= r)%nat).
  - replace (length a - r)%nat with 0%nat by lia. simpl. by rewrite Nat.sub_0_r.
  - replace (length a - (length a - r) + length b - r)%nat with (length b) by lia.
    replace (length a + length b - r)%nat with ((length a - r) + length b)%nat by lia.
    by rewrite <- drop_drop, (drop_app_le a) by lia.
Qed.

Lemma newest_idemp a : newest (newest a) = newest a.
Proof. rewrite <- (app_nil_r (newest a)) at 1. by rewrite newest_app, app_nil_r. Qed.

Lemma length_newest l : N.of_nat (length (newest l)) <= LOG_RETAIN.
Proof. unfold newest. rewrite length_drop. unfold LOG_RETAIN. lia. Qed.

Lemma apply_log_slice_spec rows seq slice :
  rows = newest rows -> slice <> [] ->
  apply_log_slice rows seq slice visible =
    (visible && existsb (fun l => negb (is_render_noise l)) slice,
     (newest (rows ++ slice),
      seq + N.of_nat (length (rows ++ slice)) - N.of_nat (length (newest (rows ++ slice))))).
Proof.
  intros Hr Hs. unfold apply_log_slice. destruct slice as [|l slice]; [done|].
  set (n := rows ++ _). unfold newest. rewrite length_drop.
  destruct (N.ltb_spec LOG_RETAIN (N.of_nat (length n))) as [H|H].
  - do 2 f_equal; [f_equal; unfold LOG_RETAIN in *; lia|unfold LOG_RETAIN in *; lia].
  - replace (length n - N.to_nat LOG_RETAIN)%nat with 0%nat by lia. simpl. do 2 f_equal. lia.
Qed.

(** The loop invariant, from the rows [r0] and sequence number [s0] it
    started with. *)
Definition drain_inv (r0 : list ParsedLog) (s0 : N) (d : Drain) : Prop :=
  d_rows d = newest (r0 ++ d_taken d) /\
  d_first_seq d + N.of_nat (length (d_rows d)) = s0 + N.of_nat (length (r0 ++ d_taken d)) /\
  d_applied d <= max_records budget /\
  d_took d = negb (match d_taken d with [] => true | _ => false end) /\
  d_dirty d = visible && existsb (fun l => negb (is_render_noise l)) (d_taken d).

Lemma drain_pass_inv r0 s0 k d :
  drain_inv r0 s0 d ->
  drain_inv r0 s0 (match drain_pass k d with inl d => d | inr d => d end).
Proof.
  intros (Hr & Hs & Ha & Ht & Hd). unfold drain_pass.
  destruct (N.ltb_spec (d_applied d) (max_records budget)) as [Hlt|]; [|done].
  pose proof (lq_take_bound (N.min LOG_CHUNK (max_records budget - d_applied d))
    (arrive k (d_queue d))) as Hb.
  destruct (lq_take _ _) as [slice q]. simpl in Hb. destruct slice as [|l slice]; [done|].
  assert (d_rows d = newest (d_rows d)) as Hrr by (rewrite Hr; symmetry; apply newest_idemp).
  rewrite (apply_log_slice_spec _ _ _ Hrr) by done.
  set (sl := l :: slice) in *.
  assert (drain_inv r0 s0 (mkDrain q (newest (d_rows d ++ sl))
    (d_first_seq d + N.of_nat (length (d_rows d ++ sl)) - N.of_nat (length (newest (d_rows d ++ sl))))
    (d_applied d + slice_records sl) true
    (d_dirty d || visible && existsb (fun l => negb (is_render_noise l)) sl)
    (d_taken d ++ sl))) as Hinv.
  { unfold drain_inv. simpl. assert (newest (d_rows d ++ sl) = newest (r0 ++ d_taken d ++ sl)) as E
      by (rewrite Hr, newest_app, app_assoc; done).
    assert (length (newest (d_rows d ++ sl)) <= length (d_rows d ++ sl))%nat
      by (unfold newest; rewrite length_drop; lia).
    rewrite app_assoc in *. rewrite !length_app in *.
    repeat split; [done|lia|lia|by destruct (d_taken d)|].
    rewrite Hd, existsb_app. by destruct visible. }
  match goal with |- context [if ?b then inr _ else _] => by destruct b end.
Qed.

Lemma drain_loop_inv r0 s0 fuel k d k' d' :
  drain_inv r0 s0 d -> drain_loop fuel k d = Some (k', d') -> drain_inv r0 s0 d'.
Proof.
  revert k d; induction fuel as [|fuel IH]; intros k d Hi Hl; [done|]. simpl in Hl.
  pose proof (drain_pass_inv r0 s0 k d Hi) as Hp.
  destruct (drain_pass k d); [by eapply IH|]. by simplify_eq.
Qed.

(** Progress: without arrivals a pass that goes on shrinks the queue. *)
Lemma drain_pass_progress k d d' :
  arrivals k = [] -> drain_pass k d = inl d' ->
  (lq_size (d_queue d') < lq_size (d_queue d))%nat.
Proof.
  intros Hk. unfold drain_pass, arrive. rewrite Hk.
  destruct (N.ltb_spec (d_applied d) (max_records budget)) as [Hlt|]; [|done].
  set (n := N.min _ _). assert (0 < n) as Hn by (unfold n, LOG_CHUNK; lia).
  pose proof (lq_take_progress n (d_queue d) Hn) as Hp.
  destruct (lq_take n (d_queue d)) as [slice q]. simpl in Hp.
  destruct slice as [|l slice]; [done|].
  destruct (apply_log_slice _ _ _ _) as [? [? ?]]. 
  match goal with |- context [if ?b then inr _ else _] => destruct b; [done|] end.
  intros [= <-]. simpl. by apply Hp.
Qed.

Lemma drain_loop_quiet fuel k d :
  (forall k, arrivals k = []) -> (lq_size (d_queue d) < fuel)%nat ->
  is_Some (drain_loop fuel k d).
Proof.
  intros Ha. revert k d; induction fuel as [|fuel IH]; intros k d Hf; [lia|]. simpl.
  destruct (drain_pass k d) as [d'|d'] eqn:E; [|by eexists].
  apply IH. apply drain_pass_progress in E; [lia|done].
Qed.

(** The time backstop: a pass after which the deadline has passed is the last. *)
Lemma drain_loop_deadline fuel k d n :
  (k < n <= k + fuel)%nat -> log_deadline budget <= now n - now 0 ->
  is_Some (drain_loop fuel k d).
Proof.
  revert k d; induction fuel as [|fuel IH]; intros k d Hn Hd; [lia|]. simpl.
  destruct (drain_pass k d) as [d'|d'] eqn:E; [|by eexists].
  destruct (decide (n = S k)) as [->|]; [|apply IH; [lia|done]].
  exfalso. unfold drain_pass in E. destruct (_ <? _); [|done].
  destruct (lq_take _ _) as [[|l slice] q]; [done|].
  destruct (apply_log_slice _ _ _ _) as [? [? ?]].
  rewrite (proj2 (N.leb_le _ _) Hd), orb_true_r in E. done.
Qed.

(** Draining: with rows that already respect the retention bound, the
    rows afterwards are the newest 1,000 of the old rows followed by
    everything taken, [first_seq] numbers the first of them, at most
    [max_records] records are applied whatever the producer does meanwhile,
    and the frame is dirtied only for a visible panel that got a row other
    than render noise. *)
Theorem drain_correct (fuel : nat) (q : Q) (rows : list ParsedLog) (seq : N) res d :
  N.of_nat (length rows) <= LOG_RETAIN ->
  drain_logs fuel q rows seq = Some (res, d) ->
  d_rows d = newest (rows ++ d_taken d) /\
  N.of_nat (length (d_rows d)) <= LOG_RETAIN /\
  d_first_seq d + N.of_nat (length (d_rows d)) =
    seq + N.of_nat (length rows) + N.of_nat (length (d_taken d)) /\
  ld_applied res <= max_records budget /\
  (ld_took res = true <-> d_taken d <> []) /\
  (ld_dirty res = true <->
    visible = true /\ exists l, l ∈ d_taken d /\ is_render_noise l = false).
Proof.
  intros Hr. unfold drain_logs. destruct (drain_loop _ _ _) as [[k d']|] eqn:E; [|done].
  intros [= <- <-]. apply (drain_loop_inv rows seq) in E.
  - destruct E as (H1 & H2 & H3 & H4 & H5). rewrite length_app in H2. cbn [ld_applied ld_took ld_dirty].
    split; [done|]. split; [rewrite H1; apply length_newest|]. split; [lia|]. split; [done|].
    rewrite H4, H5. split; [by destruct (d_taken d')|].
    rewrite andb_true_iff, existsb_exists. setoid_rewrite list_elem_of_In.
    by setoid_rewrite negb_true_iff.
  - unfold drain_inv. simpl. rewrite app_nil_r, andb_false_r.
    assert (newest rows = rows) as Hn
      by (unfold newest; by replace (length rows - N.to_nat LOG_RETAIN)%nat with 0%nat by lia).
    repeat split; [done|lia].
Qed.

(** Draining returns: within as many passes as the queue is long when
    the producer is silent, and whatever the producer does by the first
    clock reading past the deadline. *)
Theorem drain_terminates (fuel : nat) (q : Q) (rows : list ParsedLog) (seq : N) :
  ((forall k, arrivals k = []) /\ (lq_size q < fuel)%nat) \/
  (exists n, (0 < n <= fuel)%nat /\ log_deadline budget <= now n - now 0) ->
  exists res d, drain_logs fuel q rows seq = Some (res, d).
Proof.
  intros H. unfold drain_logs.
  assert (is_Some (drain_loop fuel 0 (mkDrain q rows seq 0 false false []))) as [[k d] ->].
  { destruct H as [[Ha Hf]|(n & Hn & Hd)];
      [by apply drain_loop_quiet|by eapply drain_loop_deadline; [|exact Hd]; lia]. }
  by eexists _, _.
Qed.
End Drain.

(** Two chunks of a queue of forty records with a clock that stands still,
    while the producer pushes one more. *)
Definition forty : State :=
  snd (push 0 (repeat (small_record "x") 40) new).
Definition one_late (k : nat) : list ParsedLog :=
  match k with 1%nat => [small_record "late"] | _ => [] end.

Lemma drain_correct_witness :
  exists res d, drain_logs (log_budget false) true (fun _ => 0) one_late 5 forty [] 7 = Some (res, d) /\
    ld_applied res = 41 /\ ld_dirty res = true /\
    d_first_seq d + N.of_nat (length (d_rows d)) = 48.
Proof.
  destruct (drain_logs (log_budget false) true (fun _ => 0) one_late 5 forty [] 7)
    as [[res d]|] eqn:E; [|exfalso; vm_compute in E; discriminate E].
  exists res, d. split; [done|].
  destruct (drain_correct (log_budget false) true (fun _ => 0) one_late 5 forty [] 7 res d)
    as (_ & _ & Hs & _); [by vm_compute|exact E|].
  assert (ld_applied res = 41 /\ ld_dirty res = true /\ length (d_taken d) = 41%nat) as (H1 & H2 & H3).
  { vm_compute in E. injection E as <- <-. by vm_compute. }
  rewrite H3 in Hs. split; [done|]. split; [done|]. exact Hs.
Defined.

Lemma drain_terminates_witness :
  exists res d, drain_logs (log_budget true) true (fun k => 600000 * N.of_nat k)
    (fun _ => [small_record "again"]) 2 new [] 0 = Some (res, d).
Proof.
  apply drain_terminates. right. exists 2%nat. split; [lia|by vm_compute].
Defined.
