(* ===== verification/Patch.v ===== *)
(** * The line-staging patch engine

    thegn-core/src/patch.rs: parsing `git diff` output into addressable lines,
    rendering it back, and building the partial patch of a line selection for
    `git apply [--reverse]`.  Text is bytes ([RustStr]); a [String] the code
    appends to is threaded through the loop that does so.  The theorems are in
    [PatchProps]. *)
From Stdlib Require Import Ascii String.
From S2P Require Import Prelude RustStr.
Local Open Scope string_scope.
Local Open Scope list_scope.

(** ** Data *)

Inductive LineKind := Context_ | Add | Del | NoNewlineOld | NoNewlineNew.

Global Instance LineKind_eq_dec : EqDecision LineKind.
Proof. solve_decision. Defined.

Record PatchLine := mkPatchLine { kind : LineKind; text : string }.

Record PatchHunk := mkPatchHunk {
  old_start : N;
  old_count : N;
  new_start : N;
  new_count : N;
  heading : string;
  header_line : string;
  lines : list PatchLine;
}.

Inductive FileKind := Modified | Added | Deleted | Binary | ModeOnly | Submodule.

Global Instance FileKind_eq_dec : EqDecision FileKind.
Proof. solve_decision. Defined.

Record PatchFile := mkPatchFile {
  header : list string;
  old_path : string;
  new_path : string;
  file_kind : FileKind;
  hunks : list PatchHunk;
}.

(** The bytes the code names. *)
Definition newline : ascii := "010"%char.
Definition carriage_return : ascii := "013"%char.
Definition tab : ascii := "009"%char.
Definition quote : ascii := "034"%char.
Definition backslash : ascii := "092"%char.
Definition ch (a : ascii) : string := String a EmptyString.

(** ** Headers *)

Definition parse_range (part : string) (sign : ascii) : option (N * N) :=
  rest ← strip_prefix (ch sign) part;
  match split_once "," rest with
  | Some (start, count) => s ← parse_u32 start; c ← parse_u32 count; Some (s, c)
  | None => s ← parse_u32 rest; Some (s, 1%N)
  end.

Definition parse_hunk_header (line : string) : option (N * N * N * N * string) :=
  rest ← strip_prefix "@@ " line;
  '(ranges, tail) ← split_once " @@" rest;
  match List.filter (fun p => negb (is_empty p)) (split_char " " ranges) with
  | [o; n] =>
      '(os, oc) ← parse_range o "-";
      '(ns, nc) ← parse_range n "+";
      Some (os, oc, ns, nc, default tail (strip_prefix " " tail))
  | _ => None
  end.

Definition strip_ab (s : string) : string :=
  match strip_prefix "a/" s with
  | Some r => r
  | None => default s (strip_prefix "b/" s)
  end.

Definition header_path (raw : string) : option string :=
  let raw := default raw (strip_suffix carriage_return raw) in
  let raw := default raw (strip_suffix tab raw) in
  if String.eqb raw "/dev/null" then None
  else
    let raw := default raw (s ← strip_prefix (ch quote) raw; strip_suffix quote s) in
    Some (strip_ab raw).

(** The equal-length midpoint split of an unquoted path pair. *)
Definition midpoint_paths (rest : string) : option (string * string) :=
  let len := String.length rest in
  let mid := (len / 2)%nat in
  if ((5 <=? len) && (len mod 2 =? 1))%nat &&
     match byte_at mid rest with Some c => Ascii.eqb c " " | None => false end
  then
    match strip_prefix "a/" (str_take mid rest), strip_prefix "b/" (str_drop (S mid) rest) with
    | Some a, Some b => if String.eqb a b then Some (a, b) else None
    | _, _ => None
    end
  else None.

Definition diff_line_paths (rest : string) : option (string * string) :=
  let rest := default rest (strip_suffix carriage_return rest) in
  match strip_prefix (ch quote) rest with
  | Some inner =>
      '(first, rem) ← split_once (ch quote) inner;
      r1 ← strip_prefix " " rem;
      r2 ← strip_prefix (ch quote) r1;
      second ← strip_suffix quote r2;
      Some (strip_ab first, strip_ab second)
  | None =>
      match midpoint_paths rest with
      | Some p => Some p
      | None =>
          '(l, r) ← split_once " " rest;
          Some (strip_ab l, strip_ab r)
      end
  end.

Definition is_submodule_header (line : string) : bool :=
  let mode_160000 := existsb (fun part => String.eqb part "160000") (split_whitespace line) in
  mode_160000 &&
  (starts_with "index " line || starts_with "new file mode " line ||
   starts_with "deleted file mode " line || starts_with "old mode " line ||
   starts_with "new mode " line).

(** ** The section under construction *)

Record FileBuilder := mkFileBuilder {
  b_header : list string;
  b_diff_rest : string;
  b_minus : option (option string);
  b_plus : option (option string);
  b_added : bool;
  b_deleted : bool;
  b_binary : bool;
  b_submodule : bool;
  b_hunks : list PatchHunk;
}.

Definition FileBuilder_new (line rest : string) : FileBuilder :=
  mkFileBuilder [line] rest None None false false false false [].

Definition absorb_header (b : FileBuilder) (line : string) : FileBuilder :=
  let '(mkFileBuilder h r m p a d bi su hu) := b in
  let h := h ++ [line] in
  match strip_prefix "--- " line with
  | Some rest => mkFileBuilder h r (Some (header_path rest)) p a d bi su hu
  | None =>
  match strip_prefix "+++ " line with
  | Some rest => mkFileBuilder h r m (Some (header_path rest)) a d bi su hu
  | None =>
      if starts_with "new file mode" line then mkFileBuilder h r m p true d bi su hu
      else if starts_with "deleted file mode" line then mkFileBuilder h r m p a true bi su hu
      else if is_submodule_header line then mkFileBuilder h r m p a d bi true hu
      else if starts_with "Binary files " line || starts_with "GIT binary patch" line
      then mkFileBuilder h r m p a d true su hu
      else mkFileBuilder h r m p a d bi su hu
  end end.

(** [Option<Option<T>>::flatten]. *)
Definition flatten {A} (o : option (option A)) : option A :=
  match o with Some x => x | None => None end.

Definition builder_kind (b : FileBuilder) : FileKind :=
  let minus_devnull := match b_minus b with Some None => true | _ => false end in
  let plus_devnull := match b_plus b with Some None => true | _ => false end in
  let submodule := b_submodule b ||
    existsb (fun l => starts_with "Subproject commit " (text l)) (b_hunks b ≫= lines) in
  if submodule then Submodule
  else if b_binary b then Binary
  else if b_added b || minus_devnull then Added
  else if b_deleted b || plus_devnull then Deleted
  else if match b_hunks b with [] => true | _ => false end then ModeOnly
  else Modified.

Definition finish (b : FileBuilder) : PatchFile :=
  let guess := diff_line_paths (b_diff_rest b) in
  let or_guess (o : option string) (g : option string) :=
    default EmptyString (match o with Some x => Some x | None => g end) in
  let old_path := or_guess (flatten (b_minus b)) (fst <$> guess) in
  let new_path := or_guess (flatten (b_plus b)) (snd <$> guess) in
  let k := builder_kind b in
  mkPatchFile (b_header b)
    (match k with Added => new_path | _ => old_path end)
    (match k with Deleted => old_path | _ => new_path end)
    k (b_hunks b).

(** ** Parsing *)

Record ParseState := mkParseState {
  p_files : list PatchFile;
  p_file : option FileBuilder;
  p_hunk : option PatchHunk;
  p_in_hunks : bool;
}.

Definition push_hunk (b : FileBuilder) (h : PatchHunk) : FileBuilder :=
  mkFileBuilder (b_header b) (b_diff_rest b) (b_minus b) (b_plus b) (b_added b)
    (b_deleted b) (b_binary b) (b_submodule b) (b_hunks b ++ [h]).

Definition close_hunk (file : option FileBuilder) (hunk : option PatchHunk)
  : option FileBuilder :=
  match hunk, file with
  | Some h, Some f => Some (push_hunk f h)
  | _, _ => file
  end.

(** The kind of a body line from its first byte and the line before it. *)
Definition body_kind (h : PatchHunk) (line : string) : option LineKind :=
  match line with
  | EmptyString => None
  | String c _ =>
      if Ascii.eqb c " " then Some Context_
      else if Ascii.eqb c "+" then Some Add
      else if Ascii.eqb c "-" then Some Del
      else if Ascii.eqb c backslash then
        Some (match kind <$> last (lines h) with
              | Some Add => NoNewlineNew
              | _ => NoNewlineOld
              end)
      else None
  end.

Definition push_line (h : PatchHunk) (l : PatchLine) : PatchHunk :=
  mkPatchHunk (old_start h) (old_count h) (new_start h) (new_count h)
    (heading h) (header_line h) (lines h ++ [l]).

Definition flush_file (files : list PatchFile) (file : option FileBuilder) : list PatchFile :=
  match file with Some f => files ++ [finish f] | None => files end.

(** The body of the loop over the lines. *)
Definition parse_line (st : ParseState) (line : string) : ParseState :=
  let '(mkParseState files file hunk in_hunks) := st in
  match strip_prefix "diff --git " line with
  | Some rest =>
      mkParseState (flush_file files (close_hunk file hunk))
        (Some (FileBuilder_new line rest)) None false
  | None =>
  match file with
  | None => st
  | Some f =>
      if starts_with "@@" line then
        mkParseState files (close_hunk file hunk)
          (match parse_hunk_header line with
           | Some (os, oc, ns, nc, hd) => Some (mkPatchHunk os oc ns nc hd line [])
           | None => None
           end) true
      else
      match hunk with
      | Some h =>
          match body_kind h line with
          | Some k => mkParseState files file (Some (push_line h (mkPatchLine k (str_drop 1 line)))) in_hunks
          | None => mkParseState files (close_hunk file hunk) None in_hunks
          end
      | None =>
          if negb in_hunks
          then mkParseState files (Some (absorb_header f line)) hunk in_hunks
          else st
      end
  end end.

(** The lines of the text: split at every newline, the empty piece after a
    final newline left out. *)
Definition segments (diff : string) : list string :=
  let s := split_char newline diff in
  match last s with
  | Some EmptyString => removelast s
  | _ => s
  end.

Definition parse_patch (diff : string) : list PatchFile :=
  let st := foldl parse_line (mkParseState [] None None false) (segments diff) in
  flush_file (p_files st) (close_hunk (p_file st) (p_hunk st)).

(** ** Rendering *)

Definition marker_char (k : LineKind) : ascii :=
  match k with
  | Context_ => " "
  | Add => "+"
  | Del => "-"
  | NoNewlineOld | NoNewlineNew => backslash
  end%char.

Definition format_hunk_header (os oc ns nc : N) (hd : string) : string :=
  let s := ("@@ -" ++ fmt_N os ++ "," ++ fmt_N oc ++ " +" ++ fmt_N ns ++ "," ++ fmt_N nc ++ " @@")%string in
  if is_empty hd then s else (s ++ " " ++ hd)%string.

Definition push_body (out : string) (ls : list PatchLine) : string :=
  foldl (fun out l => out ++ ch (marker_char (kind l)) ++ text l ++ ch newline)%string out ls.

Definition push_header (out : string) (hs : list string) : string :=
  foldl (fun out line => out ++ line ++ ch newline)%string out hs.

Definition render_hunk (out : string) (h : PatchHunk) : string :=
  let hl := if is_empty (header_line h)
            then format_hunk_header (old_start h) (old_count h) (new_start h) (new_count h) (heading h)
            else header_line h in
  push_body (out ++ hl ++ ch newline)%string (lines h).

Definition render_patch (files : list PatchFile) : string :=
  foldl (fun out f => foldl render_hunk (push_header out (header f)) (hunks f)) EmptyString files.

(** ** Selections *)

Abbreviation Selection := (gset (nat * nat)) (only parsing).

Definition sel_insert (s : Selection) (hunk line : nat) : Selection := {[ (hunk, line) ]} ∪ s.
Definition sel_remove (s : Selection) (hunk line : nat) : bool * Selection :=
  (bool_decide ((hunk, line) ∈ s), s ∖ {[ (hunk, line) ]}).
Definition sel_contains (s : Selection) (hunk line : nat) : bool := bool_decide ((hunk, line) ∈ s).

Definition whole_hunk (file : PatchFile) (hunk : nat) : Selection :=
  match hunks file !! hunk with
  | Some h => list_to_set ((fun line => (hunk, line)) <$> seq 0 (length (lines h)))
  | None => ∅
  end.

Definition whole_file (file : PatchFile) : Selection :=
  list_to_set (seq 0 (length (hunks file)) ≫= fun hi =>
    match hunks file !! hi with
    | Some h => (fun li => (hi, li)) <$> seq 0 (length (lines h))
    | None => []
    end).

Inductive SelectionError := SubmoduleAtomic.

Definition validate (s : Selection) (file : PatchFile) : result SelectionError unit :=
  if bool_decide (file_kind file = Submodule) && negb (bool_decide (s = ∅))
  then Err SubmoduleAtomic else Ok tt.

(** ** Partial patches *)

Record TState := mkTState {
  t_out : list PatchLine;
  t_pending : list PatchLine;
  t_saw_dropped : bool;
  t_prev_dropped : bool;
}.

Definition is_change (k : LineKind) : bool :=
  match k with Add | Del => true | _ => false end.

Definition transform_line (hunk_idx : nat) (sel : Selection) (reverse : bool)
    (st : TState) (li : nat) (line : PatchLine) : TState :=
  let '(mkTState out pending saw prev) := st in
  match kind line with
  | Context_ => mkTState (out ++ pending ++ [line]) [] false false
  | NoNewlineOld | NoNewlineNew =>
      if negb prev then mkTState (out ++ pending ++ [line]) [] saw prev else st
  | Add | Del =>
      let old_side := xorb (bool_decide (kind line = Del)) reverse in
      if sel_contains sel hunk_idx li then
        if old_side || saw
        then mkTState (out ++ pending ++ [line]) [] saw false
        else mkTState (out ++ [line]) pending saw false
      else if old_side
      then mkTState out (pending ++ [mkPatchLine Context_ (text line)]) saw false
      else mkTState out pending true true
  end.

(** The lines in order, numbered from [li]. *)
Fixpoint transform_go (hunk_idx : nat) (sel : Selection) (reverse : bool)
    (st : TState) (li : nat) (ls : list PatchLine) : TState :=
  match ls with
  | [] => st
  | l :: ls => transform_go hunk_idx sel reverse (transform_line hunk_idx sel reverse st li l) (S li) ls
  end.

Definition transform_hunk_lines (hunk : PatchHunk) (hunk_idx : nat) (sel : Selection)
    (reverse : bool) : list PatchLine :=
  let st := transform_go hunk_idx sel reverse (mkTState [] [] false false) 0 (lines hunk) in
  t_out st ++ t_pending st.

Definition count_kinds (ls : list PatchLine) (a b : LineKind) : Z :=
  Z.of_nat (length (List.filter (fun l => bool_decide (kind l = a) || bool_decide (kind l = b)) ls)).

(** An [i64] cast to [u32] keeps the low 32 bits. *)
Definition as_u32 (z : Z) : N := Z.to_N (z mod 4294967296)%Z.

Record EmitState := mkEmitState {
  e_body : string;
  e_emitted : bool;
  e_delta : Z;
  e_context : bool;
}.

Definition emit_hunk (sel : Selection) (reverse : bool) (st : EmitState) (hi : nat)
    (hunk : PatchHunk) : EmitState :=
  let '(mkEmitState body emitted delta ctx) := st in
  let ls := transform_hunk_lines hunk hi sel reverse in
  let oc := count_kinds ls Context_ Del in
  let nc := count_kinds ls Context_ Add in
  if existsb (fun l => is_change (kind l)) ls then
    let ctx := ctx || existsb (fun l => bool_decide (kind l = Context_)) ls in
    let adjust := if (oc =? 0)%Z then 1%Z else if (nc =? 0)%Z then (-1)%Z else 0%Z in
    let ns := as_u32 (Z.max (Z.of_N (old_start hunk) + delta + adjust) 0) in
    let body := (body ++ format_hunk_header (old_start hunk) (as_u32 (Z.max oc 0)) ns
                   (as_u32 (Z.max nc 0)) (heading hunk) ++ ch newline)%string in
    mkEmitState (push_body body ls) true (delta + (nc - oc))%Z ctx
  else mkEmitState body emitted (delta + (nc - oc))%Z ctx.

Fixpoint emit_hunks (sel : Selection) (reverse : bool) (st : EmitState) (hi : nat)
    (hs : list PatchHunk) : EmitState :=
  match hs with
  | [] => st
  | h :: hs => emit_hunks sel reverse (emit_hunk sel reverse st hi h) (S hi) hs
  end.

Definition mirror_side (surviving_body from to : string) : string :=
  let marker := if String.eqb to "a/" then "--- " else "+++ " in
  match strip_prefix (ch quote) surviving_body with
  | Some inner =>
      match strip_prefix from inner with
      | Some rest => marker ++ ch quote ++ to ++ rest
      | None => marker ++ ch quote ++ to ++ inner
      end
  | None =>
      match strip_prefix from surviving_body with
      | Some rest => marker ++ to ++ rest
      | None => marker ++ to ++ surviving_body
      end
  end%string.

Record Sides := mkSides {
  minus_devnull : bool;
  plus_devnull : bool;
  minus_real : option string;
  plus_real : option string;
}.

Definition scan_side (s : Sides) (line : string) : Sides :=
  let is_null rest := String.eqb (default rest (strip_suffix carriage_return rest)) "/dev/null" in
  let '(mkSides md pd mr pr) := s in
  match strip_prefix "--- " line with
  | Some rest => if is_null rest then mkSides true pd mr pr else mkSides md pd (Some rest) pr
  | None =>
  match strip_prefix "+++ " line with
  | Some rest => if is_null rest then mkSides md true mr pr else mkSides md pd mr (Some rest)
  | None => s
  end end.

Definition rewrite_line (fixed_minus fixed_plus : option string) (out line : string) : string :=
  let keep := (out ++ line ++ ch newline)%string in
  if starts_with "deleted file mode" line || starts_with "new file mode" line then out
  else match (if starts_with "--- " line then fixed_minus else None) with
  | Some fixed => (out ++ fixed ++ ch newline)%string
  | None =>
  match (if starts_with "+++ " line then fixed_plus else None) with
  | Some fixed => (out ++ fixed ++ ch newline)%string
  | None => keep
  end end.

Definition rewrite_partial_whole_file_header (hdr : list string) : option string :=
  let s := foldl scan_side (mkSides false false None None) hdr in
  let go fm fp := foldl (rewrite_line fm fp) EmptyString hdr in
  if plus_devnull s then
    real ← minus_real s; Some (go None (Some (mirror_side real "a/" "b/")))
  else if minus_devnull s then
    real ← plus_real s; Some (go (Some (mirror_side real "b/" "a/")) None)
  else None.

Definition transform (file : PatchFile) (sel : Selection) (reverse : bool) : option string :=
  if bool_decide (file_kind file = Binary) || bool_decide (file_kind file = Submodule)
  then None
  else
    let st := emit_hunks sel reverse (mkEmitState EmptyString false 0 false) 0 (hunks file) in
    if negb (e_emitted st) then None
    else
      let hdr :=
        if e_context st &&
           ((negb reverse && bool_decide (file_kind file = Deleted)) ||
            (reverse && bool_decide (file_kind file = Added)))
        then rewrite_partial_whole_file_header (header file) else None in
      let out := match hdr with
                 | Some rewritten => rewritten
                 | None => push_header EmptyString (header file)
                 end in
      Some (out ++ e_body st)%string.

Definition transform_all (files : list PatchFile) (sels : gmap string (gset (nat * nat)))
    (reverse : bool) : option string :=
  let out := foldl (fun out f =>
    match sels !! new_path f with
    | Some sel =>
        match transform f sel reverse with
        | Some t => (out ++ t)%string
        | None => out
        end
    | None => out
    end) EmptyString files in
  if is_empty out then None else Some out.
