(* ===== verification/PatchProps.v ===== *)
(** * Theorems about the patch engine

    Round trips of parsing and rendering, and what a partial patch contains. *)
From Stdlib Require Import Ascii String.
From S2P Require Import Prelude RustStr Patch.
Local Open Scope string_scope.
Local Open Scope list_scope.

(** ** Text as lines *)

Fixpoint unlines (ls : list string) : string :=
  match ls with
  | [] => EmptyString
  | l :: ls => (l ++ ch newline ++ unlines ls)%string
  end.

Lemma unlines_app a b : unlines (a ++ b) = (unlines a ++ unlines b)%string.
Proof. induction a as [|l a IH]; simpl; [done|]. by rewrite IH, !str_app_assoc. Qed.

Definition one_line (s : string) : Prop := no_char newline s = true.

Lemma split_unlines ls :
  Forall one_line ls -> split_char newline (unlines ls) = ls ++ [EmptyString].
Proof.
  induction 1 as [|l ls Hl H IH]; [done|]. simpl. by rewrite split_char_app, IH.
Qed.

Lemma segments_unlines ls : Forall one_line ls -> segments (unlines ls) = ls.
Proof.
  intros H. unfold segments. rewrite (split_unlines ls H), last_snoc. apply removelast_last.
Qed.

(** A text that is empty or ends in a newline is its lines. *)
Lemma unlines_segments d :
  last (split_char newline d) = Some EmptyString -> unlines (segments d) = d.
Proof.
  unfold segments. intros E. rewrite E.
  pose proof (join_split newline d) as Hj.
  destruct (exists_last (split_char_ne newline d)) as (ls & w & Hs).
  rewrite Hs in *. rewrite last_snoc in E. injection E as ->. rewrite removelast_last.
  rewrite <- Hj. clear. induction ls as [|l ls IH]; [done|].
  rewrite <- app_comm_cons, join_cons by (by destruct ls). simpl. by rewrite IH.
Qed.

(** ** The lines a value renders to *)

Definition body_line (l : PatchLine) : string := (ch (marker_char (kind l)) ++ text l)%string.

Definition hunk_header (h : PatchHunk) : string :=
  if is_empty (header_line h)
  then format_hunk_header (old_start h) (old_count h) (new_start h) (new_count h) (heading h)
  else header_line h.

Definition hunk_lines (h : PatchHunk) : list string := hunk_header h :: (body_line <$> lines h).
Definition file_lines (f : PatchFile) : list string := header f ++ (hunks f ≫= hunk_lines).

Lemma push_header_unlines out hs : push_header out hs = (out ++ unlines hs)%string.
Proof.
  unfold push_header. revert out; induction hs as [|l hs IH]; intros out; simpl.
  - by rewrite str_app_nil_r.
  - by rewrite IH, !str_app_assoc.
Qed.

Lemma push_body_unlines out ls : push_body out ls = (out ++ unlines (body_line <$> ls))%string.
Proof.
  unfold push_body. revert out; induction ls as [|l ls IH]; intros out; [by rewrite str_app_nil_r|].
  rewrite fmap_cons. cbn [foldl unlines]. rewrite IH. unfold body_line at 2.
  by rewrite !str_app_assoc.
Qed.

Lemma render_hunk_unlines out h : render_hunk out h = (out ++ unlines (hunk_lines h))%string.
Proof.
  unfold render_hunk. rewrite push_body_unlines. fold (hunk_header h).
  unfold hunk_lines. cbn [unlines]. by rewrite !str_app_assoc.
Qed.

Lemma render_hunks_unlines out hs :
  foldl render_hunk out hs = (out ++ unlines (hs ≫= hunk_lines))%string.
Proof.
  revert out; induction hs as [|h hs IH]; intros out; [by rewrite str_app_nil_r|]. cbn [foldl].
  rewrite IH, render_hunk_unlines, bind_cons, unlines_app. by rewrite str_app_assoc.
Qed.

(** Rendering is the concatenation of the files' lines. *)
Lemma render_patch_unlines fs : render_patch fs = unlines (fs ≫= file_lines).
Proof.
  unfold render_patch.
  assert (forall out, foldl (fun out f => foldl render_hunk (push_header out (header f)) (hunks f)) out fs
    = (out ++ unlines (fs ≫= file_lines))%string) as H; [|apply (H EmptyString)].
  induction fs as [|f fs IH]; intros out; [by rewrite str_app_nil_r|]. cbn [foldl].
  rewrite IH, render_hunks_unlines, push_header_unlines, bind_cons. unfold file_lines at 2.
  rewrite !unlines_app. by rewrite !str_app_assoc.
Qed.

(** ** Well-formed diffs *)

(** What git emits: sections that start with [diff --git], header lines up to
    the first [@@], then hunks with a readable header and body lines that
    start with one of the four markers. *)
Inductive region := RStart | RHeader | RBody.

Definition is_body_line (s : string) : bool :=
  match s with
  | String c _ => Ascii.eqb c " " || Ascii.eqb c "+" || Ascii.eqb c "-" || Ascii.eqb c backslash
  | EmptyString => false
  end.

Fixpoint clean_lines (r : region) (ls : list string) : bool :=
  match ls with
  | [] => true
  | l :: ls =>
      if starts_with "diff --git " l then clean_lines RHeader ls
      else match r with
      | RStart => false
      | _ =>
          if starts_with "@@" l
          then bool_decide (is_Some (parse_hunk_header l)) && clean_lines RBody ls
          else match r with
          | RBody => is_body_line l && clean_lines RBody ls
          | _ => clean_lines r ls
          end
      end
  end.

Definition clean_diff (d : string) : bool :=
  bool_decide (last (split_char newline d) = Some EmptyString) &&
  clean_lines RStart (segments d).

(** The lines a parser state stands for. *)
Definition builder_lines (b : FileBuilder) : list string := b_header b ++ (b_hunks b ≫= hunk_lines).
Definition state_lines (st : ParseState) : list string :=
  (p_files st ≫= file_lines) ++
  from_option builder_lines [] (p_file st) ++ from_option hunk_lines [] (p_hunk st).

(** How the parser's state relates to the region of the text. *)
Definition in_region (r : region) (st : ParseState) : Prop :=
  match r with
  | RStart => p_file st = None /\ p_hunk st = None
  | RHeader => (exists b, p_file st = Some b /\ b_hunks b = []) /\ p_hunk st = None /\ p_in_hunks st = false
  | RBody => is_Some (p_file st) /\ (exists h, p_hunk st = Some h) /\ p_in_hunks st = true
  end.

Lemma finish_lines b : file_lines (finish b) = builder_lines b.
Proof. done. Qed.

Lemma close_lines f h :
  is_Some f -> from_option builder_lines [] (close_hunk f h) =
    from_option builder_lines [] f ++ from_option hunk_lines [] h.
Proof.
  intros [b ->]. destruct h as [h|]; simpl; [|by rewrite app_nil_r].
  unfold builder_lines. simpl. rewrite bind_app, bind_singleton. by rewrite app_assoc.
Qed.

Lemma flush_lines fs f :
  flush_file fs f ≫= file_lines = (fs ≫= file_lines) ++ from_option builder_lines [] f.
Proof.
  destruct f as [f|]; simpl; [|by rewrite app_nil_r].
  by rewrite bind_app, bind_singleton, finish_lines.
Qed.

Lemma region_close r st :
  in_region r st -> from_option builder_lines [] (close_hunk (p_file st) (p_hunk st)) =
    from_option builder_lines [] (p_file st) ++ from_option hunk_lines [] (p_hunk st).
Proof.
  destruct r; simpl.
  - by intros [-> ->].
  - intros ((b & -> & _) & -> & _). simpl. by rewrite app_nil_r.
  - intros (? & _). by apply close_lines.
Qed.

Lemma absorb_lines b l :
  b_hunks b = [] -> b_hunks (absorb_header b l) = [] /\
  builder_lines (absorb_header b l) = builder_lines b ++ [l].
Proof.
  intros Hb. unfold builder_lines. destruct b as [h r m p a d bi su hu]. simpl in *. subst.
  destruct (strip_prefix "--- " l); simpl; [by rewrite !app_nil_r|].
  destruct (strip_prefix "+++ " l); simpl; [by rewrite !app_nil_r|].
  repeat match goal with |- context [if ?b then _ else _] => destruct b end;
    simpl; by rewrite !app_nil_r.
Qed.

Lemma body_kind_line h l :
  is_body_line l = true -> exists k, body_kind h l = Some k /\
    body_line (mkPatchLine k (str_drop 1 l)) = l.
Proof.
  unfold is_body_line, body_kind, body_line. destruct l as [|c l]; [done|]. simpl.
  destruct (Ascii.eqb_spec c " "); [subst; by eexists|].
  destruct (Ascii.eqb_spec c "+"); [subst; by eexists|].
  destruct (Ascii.eqb_spec c "-"); [subst; by eexists|].
  destruct (Ascii.eqb_spec c backslash); [subst|done]. intros _.
  destruct (kind <$> last (lines h)) as [[]|]; by eexists.
Qed.

(** One line: the state keeps standing for the text read so far. *)
Lemma parse_line_lines r st l ls :
  clean_lines r (l :: ls) = true -> in_region r st ->
  exists r', clean_lines r' ls = true /\ in_region r' (parse_line st l) /\
    state_lines (parse_line st l) = state_lines st ++ [l].
Proof.
  cbn [clean_lines]. intros Hc Hr. pose proof (region_close r st Hr) as Hcl.
  destruct st as [fs f h ih]. unfold parse_line, state_lines, starts_with in *.
  cbn [p_files p_file p_hunk p_in_hunks] in *.
  destruct (strip_prefix "diff --git " l) as [rest|] eqn:Ed.
  { exists RHeader. split; [done|]. split; [split; [by eexists|done]|]. simpl.
    rewrite flush_lines, Hcl. by rewrite <- app_assoc. }
  destruct r; [done|..]; simpl in Hr.
  - destruct Hr as ((b & -> & Hb) & -> & ->). destruct (strip_prefix "@@" l) as [rest|] eqn:Ea.
    + apply andb_true_iff in Hc as [Hp Hc]. apply bool_decide_eq_true in Hp as [t Ht].
      rewrite Ht. destruct t as [[[[os oc] ns] nc] hd]. exists RBody. split; [done|].
      split; [by split_and!; eauto|]. simpl. rewrite app_nil_r.
      apply strip_prefix_Some in Ea as ->. by rewrite <- app_assoc.
    + exists RHeader. split; [done|]. destruct (absorb_lines b l Hb) as [Hb' Hl]. simpl.
      split; [by split_and!; eauto|]. rewrite Hl, !app_nil_r. by rewrite <- app_assoc.
  - destruct Hr as ([b ->] & (hk & ->) & ->). destruct (strip_prefix "@@" l) as [rest|] eqn:Ea.
    + apply andb_true_iff in Hc as [Hp Hc]. apply bool_decide_eq_true in Hp as [t Ht].
      rewrite Ht. destruct t as [[[[os oc] ns] nc] hd]. exists RBody. split; [done|].
      split; [by split_and!; eauto|]. simpl. simpl in Hcl. rewrite Hcl.
      apply strip_prefix_Some in Ea as ->. by rewrite <- !app_assoc.
    + apply andb_true_iff in Hc as [Hp Hc]. exists RBody. split; [done|].
      destruct (body_kind_line hk l Hp) as (k & Hk & Hl). rewrite Hk. cbn [from_option p_files p_file p_hunk p_in_hunks].
      split; [by split_and!; eauto|]. rewrite <- !app_assoc. do 2 f_equal.
      unfold hunk_lines. cbn [push_line lines]. rewrite fmap_app, fmap_cons, fmap_nil, Hl. done.
Qed.

Lemma parse_lines_lines r st ls :
  clean_lines r ls = true -> in_region r st ->
  let st' := foldl parse_line st ls in
  state_lines st' = state_lines st ++ ls /\ exists r', in_region r' st'.
Proof.
  revert r st; induction ls as [|l ls IH]; intros r st Hc Hr; simpl.
  - rewrite app_nil_r. eauto.
  - destruct (parse_line_lines r st l ls Hc Hr) as (r' & Hc' & Hr' & Hl).
    destruct (IH r' _ Hc' Hr') as [H1 H2]. split; [|done].
    rewrite H1, Hl. by rewrite <- app_assoc.
Qed.

(** The files a clean line sequence parses to render to those lines. *)
Lemma parse_clean_lines ls :
  clean_lines RStart ls = true ->
  let st := foldl parse_line (mkParseState [] None None false) ls in
  flush_file (p_files st) (close_hunk (p_file st) (p_hunk st)) ≫= file_lines = ls.
Proof.
  intros Hc. destruct (parse_lines_lines RStart (mkParseState [] None None false) ls Hc)
    as [Hl [r Hr]]; [done|]. simpl.
  rewrite flush_lines, (region_close r _ Hr). exact Hl.
Qed.

(** C24. Byte fidelity: for every well-formed diff, rendering what was parsed
    gives back the text, byte for byte. *)
Theorem parse_render_roundtrip (d : string) :
  clean_diff d = true -> render_patch (parse_patch d) = d.
Proof.
  unfold clean_diff, parse_patch. intros H. apply andb_true_iff in H as [Hd Hc].
  apply bool_decide_eq_true in Hd.
  by rewrite render_patch_unlines, (parse_clean_lines _ Hc), unlines_segments.
Qed.

Definition sample_diff : string := unlines
  ["diff --git a/x y.txt b/x y.txt"; "index 1..2 100644"; "--- a/x y.txt"; "+++ b/x y.txt";
   "@@ -1,3 +1,3 @@ fn main"; " a"; "-b"; "+c"; "\ No newline at end of file";
   "diff --git a/z b/z"; "old mode 100644"; "new mode 100755"].

Lemma parse_render_roundtrip_witness : render_patch (parse_patch sample_diff) = sample_diff.
Proof. apply parse_render_roundtrip. by vm_compute. Defined.

(** ** Hunk headers *)

Lemma split_once_skip p a s l r :
  starts_with p (String a s) = false -> split_once p s = Some (l, r) ->
  split_once p (String a s) = Some (String a l, r).
Proof.
  unfold starts_with. intros H1 H2. unfold split_once. fold split_once.
  destruct (strip_prefix p (String a s)); [done|]. by rewrite H2.
Qed.

(** Text without a space, or whose spaces are not followed by [@], has no
    [" @@"] in it. *)
Lemma split_once_at_skip w r l t :
  no_char " " w = true -> split_once " @@" r = Some (l, t) ->
  split_once " @@" (w ++ r)%string = Some ((w ++ l)%string, t).
Proof.
  intros Hw Hr. induction w as [|a w IH]; [done|]. cbn [no_char] in Hw.
  apply andb_true_iff in Hw as [Ha Hw]. change (String a w ++ r)%string with (String a (w ++ r)).
  apply split_once_skip; [|by apply IH]. unfold starts_with, strip_prefix.
  apply negb_true_iff in Ha. by rewrite Ascii.eqb_sym, Ha.
Qed.

Definition range_text (sign : ascii) (a b : N) : string :=
  (ch sign ++ fmt_N a ++ "," ++ fmt_N b)%string.

Lemma range_text_no_space sign a b :
  Ascii.eqb sign " " = false -> no_char " " (range_text sign a b) = true.
Proof.
  intros Hs. unfold range_text. rewrite !no_char_app, !fmt_N_no_char by done. simpl. by rewrite Hs.
Qed.

Lemma parse_range_text sign a b :
  (a <= u32_max)%N -> (b <= u32_max)%N -> parse_range (range_text sign a b) sign = Some (a, b).
Proof.
  intros Ha Hb. unfold parse_range, range_text.
  rewrite (proj2 (strip_prefix_Some (ch sign) _ _) eq_refl). simpl.
  change ("," ++ fmt_N b)%string with (String "," (fmt_N b)).
  rewrite split_once_char by (by apply fmt_N_no_char).
  by rewrite !parse_fmt_u32.
Qed.

Lemma format_hunk_header_eq os oc ns nc hd :
  format_hunk_header os oc ns nc hd =
  ("@@ " ++ range_text "-" os oc ++ " " ++ range_text "+" ns nc ++ " @@" ++
     (if is_empty hd then "" else " " ++ hd))%string.
Proof.
  unfold format_hunk_header, range_text. destruct (is_empty hd); rewrite ?str_app_nil_r;
    by rewrite !str_app_assoc.
Qed.

Lemma parse_format_hunk_header (os oc ns nc : N) (hd : string) :
  (os <= u32_max)%N -> (oc <= u32_max)%N -> (ns <= u32_max)%N -> (nc <= u32_max)%N ->
  parse_hunk_header (format_hunk_header os oc ns nc hd) = Some (os, oc, ns, nc, hd).
Proof.
  intros H1 H2 H3 H4. unfold parse_hunk_header. rewrite format_hunk_header_eq.
  rewrite (proj2 (strip_prefix_Some "@@ " _ _) eq_refl).
  set (tail := (if is_empty hd then "" else " " ++ hd)%string).
  assert (split_once " @@" (range_text "-" os oc ++ " " ++ range_text "+" ns nc ++ " @@" ++ tail)%string
    = Some ((range_text "-" os oc ++ " " ++ range_text "+" ns nc ++ "")%string, tail)) as Hs.
  { apply split_once_at_skip; [by apply range_text_no_space|].
    change (" " ++ (range_text "+" ns nc ++ " @@" ++ tail))%string
      with (String " " (range_text "+" ns nc ++ " @@" ++ tail)).
    apply split_once_skip; [by destruct tail|].
    apply split_once_at_skip; [by apply range_text_no_space|]. by destruct tail. }
  rewrite str_app_nil_r in Hs. cbn [mbind option_bind]. rewrite Hs. cbn [mbind option_bind].
  change (range_text "-" os oc ++ " " ++ range_text "+" ns nc)%string
    with (range_text "-" os oc ++ String " " (range_text "+" ns nc))%string.
  rewrite split_char_app, split_char_single by (by apply range_text_no_space).
  change (List.filter _ [range_text "-" os oc; range_text "+" ns nc])
    with [range_text "-" os oc; range_text "+" ns nc]. cbv beta iota.
  rewrite !parse_range_text by done. cbn [mbind option_bind]. unfold tail.
  by destruct hd.
Qed.

(** Hunk headers round trip: parsing a formatted header gives back the
    four numbers and the heading, whatever text the heading is. *)
Theorem hunk_header_roundtrip (os oc ns nc : N) (hd : string) :
  (os <= u32_max)%N -> (oc <= u32_max)%N -> (ns <= u32_max)%N -> (nc <= u32_max)%N ->
  parse_hunk_header (format_hunk_header os oc ns nc hd) = Some (os, oc, ns, nc, hd).
Proof. apply parse_format_hunk_header. Qed.

Lemma hunk_header_roundtrip_witness :
  parse_hunk_header (format_hunk_header 12 0 4294967295 7 " @@ -1 +1 @@") =
    Some (12, 0, 4294967295, 7, " @@ -1 +1 @@")%N.
Proof. apply hunk_header_roundtrip; by vm_compute. Defined.

(** ** Partial hunks *)

(** The side a partial patch must leave as it is: the old side for a patch
    that is applied forward, the new side for one applied in reverse. *)
Definition on_anchor (reverse : bool) (l : PatchLine) : bool :=
  match kind l with
  | Context_ => true
  | Del => negb reverse
  | Add => reverse
  | _ => false
  end.

Definition change_line (l : PatchLine) : bool := is_change (kind l).
Definition context_line (l : PatchLine) : bool := bool_decide (kind l = Context_).

(** Lines with the index the selection addresses them by. *)
Definition numbered (li : nat) (ls : list PatchLine) : list (nat * PatchLine) :=
  zip (seq li (length ls)) ls.

Definition selected_line (sel : gset (nat * nat)) (hi : nat) (il : nat * PatchLine) : bool :=
  change_line (snd il) && sel_contains sel hi (fst il).

(** Lines of the original that must appear as context: its context, and the
    unselected changes of the anchored side. *)
Definition becomes_context (sel : gset (nat * nat)) (hi : nat) (reverse : bool)
    (il : nat * PatchLine) : bool :=
  on_anchor reverse (snd il) && negb (selected_line sel hi il).

Definition result_lines (st : TState) : list PatchLine := t_out st ++ t_pending st.

Lemma filter_context p (ls : list PatchLine) :
  Forall (fun l => kind l = Context_) ls ->
  (forall l, kind l = Context_ -> p l = false) -> List.filter p ls = [].
Proof. induction 1 as [|l ls Hl _ IH]; intros Hp; simpl; [done|]. by rewrite Hp, IH. Qed.

(** One line's contribution to the result. *)
Lemma transform_line_spec hi sel rev st li l :
  Forall (fun l => kind l = Context_) (t_pending st) ->
  let st' := transform_line hi sel rev st li l in
  Forall (fun l => kind l = Context_) (t_pending st') /\
  text <$> List.filter (on_anchor rev) (result_lines st') =
    (text <$> List.filter (on_anchor rev) (result_lines st)) ++
    (if on_anchor rev l then [text l] else []) /\
  List.filter change_line (result_lines st') =
    List.filter change_line (result_lines st) ++
    (if selected_line sel hi (li, l) then [l] else []) /\
  text <$> List.filter context_line (result_lines st') =
    (text <$> List.filter context_line (result_lines st)) ++
    (if becomes_context sel hi rev (li, l) then [text l] else []).
Proof.
  destruct st as [out pend saw prev], l as [k t]. unfold result_lines. simpl. intros Hp.
  assert (List.filter change_line pend = []) as Hch.
  { apply filter_context; [done|]. intros l Hl. unfold change_line. by rewrite Hl. }
  unfold becomes_context, selected_line, change_line, context_line, on_anchor in *.
  destruct k; simpl;
    [|destruct (sel_contains sel hi li), rev, saw; simpl|
      destruct (sel_contains sel hi li), rev, saw; simpl|
      destruct prev; simpl|destruct prev; simpl];
    rewrite ?List.filter_app, ?Hch; simpl; rewrite ?List.filter_app, ?Hch; simpl;
    rewrite ?fmap_app, ?app_nil_r, <- ?app_assoc; simpl;
    repeat split; try done; by apply Forall_app; repeat constructor.
Qed.

Lemma numbered_cons li l ls : numbered li (l :: ls) = (li, l) :: numbered (S li) ls.
Proof. done. Qed.

Lemma transform_go_spec hi sel rev ls :
  forall st li,
  Forall (fun l => kind l = Context_) (t_pending st) ->
  let st' := transform_go hi sel rev st li ls in
  text <$> List.filter (on_anchor rev) (result_lines st') =
    (text <$> List.filter (on_anchor rev) (result_lines st)) ++
    (text <$> List.filter (on_anchor rev) ls) /\
  List.filter change_line (result_lines st') =
    List.filter change_line (result_lines st) ++
    (snd <$> List.filter (selected_line sel hi) (numbered li ls)) /\
  text <$> List.filter context_line (result_lines st') =
    (text <$> List.filter context_line (result_lines st)) ++
    ((fun il => text (snd il)) <$> List.filter (becomes_context sel hi rev) (numbered li ls)).
Proof.
  induction ls as [|l ls IH]; intros st li Hp; [by rewrite !app_nil_r|].
  rewrite numbered_cons. cbn [transform_go List.filter].
  destruct (transform_line_spec hi sel rev st li l Hp) as (Hp' & H1 & H2 & H3).
  destruct (IH (transform_line hi sel rev st li l) (S li) Hp') as (I1 & I2 & I3).
  rewrite I1, I2, I3, H1, H2, H3, <- !app_assoc.
  split; [by destruct (on_anchor rev l)|].
  split; [by destruct (selected_line sel hi (li, l))|by destruct (becomes_context sel hi rev (li, l))].
Qed.

Lemma transform_hunk_lines_spec h hi sel rev :
  let out := transform_hunk_lines h hi sel rev in
  text <$> List.filter (on_anchor rev) out = text <$> List.filter (on_anchor rev) (lines h) /\
  List.filter change_line out = snd <$> List.filter (selected_line sel hi) (numbered 0 (lines h)) /\
  text <$> List.filter context_line out =
    (fun il => text (snd il)) <$> List.filter (becomes_context sel hi rev) (numbered 0 (lines h)).
Proof. apply (transform_go_spec hi sel rev (lines h) (mkTState [] [] false false) 0). constructor. Qed.

(** A partial hunk changes what was selected and nothing else: the side
    it is applied to (the old side forward, the new side in reverse) is
    exactly that of the full hunk, so it applies wherever the full hunk does;
    its change lines are exactly the selected ones, in order and verbatim; and
    its context is the full hunk's plus the unselected changes of that side, in
    order. *)
Theorem partial_hunk_correct (h : PatchHunk) (hi : nat) (sel : gset (nat * nat)) (reverse : bool) :
  let out := transform_hunk_lines h hi sel reverse in
  text <$> List.filter (on_anchor reverse) out =
    text <$> List.filter (on_anchor reverse) (lines h) /\
  List.filter change_line out =
    snd <$> List.filter (selected_line sel hi) (numbered 0 (lines h)) /\
  text <$> List.filter context_line out =
    (fun il => text (snd il)) <$> List.filter (becomes_context sel hi reverse) (numbered 0 (lines h)).
Proof. apply transform_hunk_lines_spec. Qed.

(** ** The emitted hunks *)

Definition has_selected (sel : gset (nat * nat)) (hi : nat) (h : PatchHunk) : bool :=
  existsb (selected_line sel hi) (numbered 0 (lines h)).

(** The hunk of a partial patch, after emitted hunks that grew the file by
    [delta] lines: counts from its body, and a new side that starts where the
    old one does, shifted by what came before, and by one where a side is
    empty. *)
Definition partial_hunk (sel : gset (nat * nat)) (reverse : bool) (delta : Z) (hi : nat)
    (h : PatchHunk) : PatchHunk :=
  let ls := transform_hunk_lines h hi sel reverse in
  let oc := count_kinds ls Context_ Del in
  let nc := count_kinds ls Context_ Add in
  let adjust := if (oc =? 0)%Z then 1%Z else if (nc =? 0)%Z then (-1)%Z else 0%Z in
  mkPatchHunk (old_start h) (as_u32 oc) (as_u32 (Z.max (Z.of_N (old_start h) + delta + adjust) 0))
    (as_u32 nc) (heading h) EmptyString ls.

Definition growth (ls : list PatchLine) : Z :=
  (count_kinds ls Context_ Add - count_kinds ls Context_ Del)%Z.

(** One hunk per hunk with a selected change; the shift accumulates over the
    emitted ones. *)
Fixpoint partial_hunks (sel : gset (nat * nat)) (reverse : bool) (delta : Z) (hi : nat)
    (hs : list PatchHunk) : list PatchHunk :=
  match hs with
  | [] => []
  | h :: hs =>
      if has_selected sel hi h then
        let p := partial_hunk sel reverse delta hi h in
        p :: partial_hunks sel reverse (delta + growth (lines p))%Z (S hi) hs
      else partial_hunks sel reverse delta (S hi) hs
  end.

Lemma existsb_filter {A} (p : A -> bool) l :
  existsb p l = negb (match List.filter p l with [] => true | _ => false end).
Proof. induction l as [|a l IH]; simpl; [done|]. by destruct (p a). Qed.

Lemma has_selected_spec h hi sel rev :
  existsb (fun l => is_change (kind l)) (transform_hunk_lines h hi sel rev) = has_selected sel hi h.
Proof.
  unfold has_selected. rewrite (existsb_filter (selected_line sel hi)).
  change (fun l => is_change (kind l)) with change_line.
  rewrite existsb_filter, (proj1 (proj2 (transform_hunk_lines_spec h hi sel rev))).
  by destruct (List.filter _ (numbered _ _)).
Qed.

(** A hunk with no change left neither grows nor shrinks the file. *)
Lemma growth_no_change ls : existsb (fun l => is_change (kind l)) ls = false -> growth ls = 0%Z.
Proof.
  unfold growth, count_kinds. induction ls as [|[k t] ls IH]; [done|]. cbn [existsb kind].
  intros H. apply orb_false_iff in H as [Hk H]. specialize (IH H).
  destruct k; simpl in *; try done; lia.
Qed.

Lemma count_kinds_nonneg ls a b : (0 <= count_kinds ls a b)%Z.
Proof. unfold count_kinds. lia. Qed.

Lemma emit_hunk_spec sel rev st hi h :
  emit_hunk sel rev st hi h =
    if has_selected sel hi h then
      let p := partial_hunk sel rev (e_delta st) hi h in
      mkEmitState (e_body st ++ unlines (hunk_lines p))%string true
        (e_delta st + growth (lines p))%Z (e_context st || existsb context_line (lines p))
    else st.
Proof.
  destruct st as [body em delta ctx]. unfold emit_hunk. rewrite has_selected_spec.
  destruct (has_selected sel hi h) eqn:E; cbn zeta.
  - rewrite !(Z.max_l (count_kinds _ _ _)) by apply count_kinds_nonneg.
    rewrite push_body_unlines. unfold hunk_lines. cbn [unlines]. by rewrite !str_app_assoc.
  - rewrite <- (has_selected_spec h hi sel rev) in E. apply growth_no_change in E.
    unfold growth in E. by rewrite E, Z.add_0_r.
Qed.

Lemma emit_hunks_spec sel rev hs :
  forall hi st, let st' := emit_hunks sel rev st hi hs in
  let ps := partial_hunks sel rev (e_delta st) hi hs in
  e_body st' = (e_body st ++ unlines (ps ≫= hunk_lines))%string /\
  e_emitted st' = e_emitted st || negb (match ps with [] => true | _ => false end) /\
  e_context st' = e_context st || existsb context_line (ps ≫= lines).
Proof.
  induction hs as [|h hs IH]; intros hi st; cbn [emit_hunks partial_hunks].
  - by rewrite str_app_nil_r, !orb_false_r.
  - cbn zeta in *. destruct (IH (S hi) (emit_hunk sel rev st hi h)) as (-> & -> & ->).
    rewrite emit_hunk_spec. destruct (has_selected sel hi h) eqn:E; [|done].
    cbn [e_body e_emitted e_context e_delta].
    rewrite !bind_cons, existsb_app, unlines_app, str_app_assoc.
    by rewrite orb_true_r, orb_assoc.
Qed.

Lemma numbered_lookup li ls i l :
  (i, l) ∈ numbered li ls <-> li <= i /\ ls !! (i - li) = Some l.
Proof.
  revert li; induction ls as [|x ls IH]; intros li.
  - split; [by intros ?%elem_of_nil|by intros []].
  - rewrite numbered_cons, elem_of_cons, IH. split.
    + intros [[= -> ->]|[? Hl]]; [by rewrite Nat.sub_diag|].
      split; [lia|]. by replace (i - li) with (S (i - S li)) by lia.
    + intros [Hi Hl]. destruct (decide (i = li)) as [->|].
      * left. rewrite Nat.sub_diag in Hl. simpl in Hl. by injection Hl as ->.
      * right. split; [lia|]. by replace (i - li) with (S (i - S li)) in Hl by lia.
Qed.

Lemma has_selected_true sel hi h :
  has_selected sel hi h = true <->
  exists li l, lines h !! li = Some l /\ is_change (kind l) = true /\ (hi, li) ∈ sel.
Proof.
  unfold has_selected. rewrite existsb_exists. split.
  - intros ([li l] & Hin & Hs). apply list_elem_of_In, numbered_lookup in Hin as [_ Hin].
    rewrite Nat.sub_0_r in Hin. apply andb_true_iff in Hs as [H1 H2].
    apply bool_decide_eq_true in H2. eauto.
  - intros (li & l & Hl & Hk & Hs). exists (li, l). split.
    + apply list_elem_of_In, numbered_lookup. rewrite Nat.sub_0_r. split; [lia|done].
    + unfold selected_line, change_line, sel_contains. simpl. rewrite Hk. by apply bool_decide_eq_true.
Qed.

Lemma partial_hunks_nil sel rev delta hi hs :
  partial_hunks sel rev delta hi hs = [] <->
  forall i h, hs !! i = Some h -> has_selected sel (hi + i) h = false.
Proof.
  revert delta hi; induction hs as [|h hs IH]; intros delta hi; simpl; [done|].
  destruct (has_selected sel hi h) eqn:E.
  - split; [done|]. intros H. specialize (H 0 h eq_refl). rewrite Nat.add_0_r in H. congruence.
  - rewrite IH. split.
    + intros H [|i] x Hx; simpl in Hx; [by simplify_eq; rewrite Nat.add_0_r|].
      replace (hi + S i) with (S hi + i) by lia. by apply H.
    + intros H i x Hx. replace (S hi + i) with (hi + S i) by lia. by apply H.
Qed.

(** The header of a partial patch, as lines. *)
Definition rewritten_line (fm fp : option string) (line : string) : option string :=
  if starts_with "deleted file mode" line || starts_with "new file mode" line then None
  else Some (match (if starts_with "--- " line then fm else None) with
             | Some fixed => fixed
             | None => default line (if starts_with "+++ " line then fp else None)
             end).

Lemma rewrite_lines_unlines fm fp out hdr :
  foldl (rewrite_line fm fp) out hdr = (out ++ unlines (omap (rewritten_line fm fp) hdr))%string.
Proof.
  revert out; induction hdr as [|l hdr IH]; intros out; [by rewrite str_app_nil_r|].
  cbn [foldl]. rewrite IH. unfold rewrite_line. csimpl. unfold rewritten_line at 2.
  destruct (_ || _); [done|].
  destruct (if starts_with "--- " l then fm else None) as [x|]; cbn [unlines];
    [by rewrite !str_app_assoc|].
  destruct (if starts_with "+++ " l then fp else None) as [x|]; cbn [unlines default from_option id];
    by rewrite !str_app_assoc.
Qed.

Definition fixed_sides (hdr : list string) : option (option string * option string) :=
  let s := foldl scan_side (mkSides false false None None) hdr in
  if plus_devnull s then
    real ← minus_real s; Some (None, Some (mirror_side real "a/" "b/"))
  else if minus_devnull s then
    real ← plus_real s; Some (Some (mirror_side real "b/" "a/"), None)
  else None.

(** Whether the header announces a whole-file change the patch no longer is. *)
Definition downgraded (f : PatchFile) (reverse : bool) (ps : list PatchHunk) : bool :=
  existsb context_line (ps ≫= lines) &&
  ((negb reverse && bool_decide (file_kind f = Deleted)) ||
   (reverse && bool_decide (file_kind f = Added))).

Definition patch_header (f : PatchFile) (reverse : bool) (ps : list PatchHunk) : list string :=
  match (if downgraded f reverse ps then fixed_sides (header f) else None) with
  | Some (fm, fp) => omap (rewritten_line fm fp) (header f)
  | None => header f
  end.

Definition stageable (k : FileKind) : bool :=
  match k with Binary | Submodule => false | _ => true end.

(** [transform] in terms of the hunks it emits. *)
Lemma transform_eq f sel rev :
  transform f sel rev =
    if stageable (file_kind f) then
      match partial_hunks sel rev 0 0 (hunks f) with
      | [] => None
      | ps => Some (unlines (patch_header f rev ps ++ (ps ≫= hunk_lines)))
      end
    else None.
Proof.
  unfold transform.
  destruct (emit_hunks_spec sel rev (hunks f) 0 (mkEmitState EmptyString false 0 false))
    as (Hb & He & Hc). cbn [e_body e_emitted e_context e_delta orb] in Hb, He, Hc.
  cbn zeta. rewrite Hb, He, Hc. clear Hb He Hc. cbn [String.append].
  set (ps := partial_hunks sel rev 0 0 (hunks f)).
  assert (forall b : bool, b = stageable (file_kind f) ->
    bool_decide (file_kind f = Binary) || bool_decide (file_kind f = Submodule) = negb b) as Hk.
  { intros b ->. by destruct (file_kind f). }
  rewrite (Hk _ eq_refl). destruct (stageable (file_kind f)); [|done]. simpl negb.
  destruct ps as [|p ps']; [done|]. cbn [negb]. set (ps := p :: ps') in *.
  f_equal. rewrite unlines_app. f_equal. unfold patch_header. fold (downgraded f rev ps).
  destruct (downgraded f rev ps); [|apply push_header_unlines].
  unfold rewrite_partial_whole_file_header, fixed_sides.
  destruct (plus_devnull _).
  { destruct (minus_real _); simpl; [apply (rewrite_lines_unlines _ _ EmptyString)|apply push_header_unlines]. }
  destruct (minus_devnull _); [|apply push_header_unlines].
  destruct (plus_real _); simpl; [apply (rewrite_lines_unlines _ _ EmptyString)|apply push_header_unlines].
Qed.

(** No patch exactly when there is nothing to stage: [transform] refuses
    binary files and submodules, and otherwise returns a patch if and only if
    the selection addresses an added or deleted line of the file. *)
Theorem transform_none_iff (f : PatchFile) (sel : gset (nat * nat)) (reverse : bool) :
  transform f sel reverse = None <->
  file_kind f = Binary \/ file_kind f = Submodule \/
  forall hi h li l, hunks f !! hi = Some h -> lines h !! li = Some l ->
    is_change (kind l) = true -> (hi, li) ∉ sel.
Proof.
  rewrite transform_eq.
  assert (stageable (file_kind f) = false <-> file_kind f = Binary \/ file_kind f = Submodule) as Hk
    by (destruct (file_kind f); simpl; split; intuition congruence).
  assert (partial_hunks sel reverse 0 0 (hunks f) = [] <->
    forall hi h li l, hunks f !! hi = Some h -> lines h !! li = Some l ->
      is_change (kind l) = true -> (hi, li) ∉ sel) as Hn.
  { rewrite partial_hunks_nil. split.
    - intros H hi h li l Hh Hl Hc Hs. specialize (H hi h Hh). simpl in H.
      rewrite (proj2 (has_selected_true sel hi h)) in H; [done|eauto].
    - intros H hi h Hh. apply not_true_is_false. intros (li & l & Hl & Hc & Hs)%has_selected_true.
      by eapply H. }
  destruct (stageable (file_kind f)).
  - destruct (partial_hunks sel reverse 0 0 (hunks f)); [|split; [done|]].
    + split; [intros _; right; right; by apply Hn|done].
    + intros [H|[H|H]]; [apply or_introl with (B := file_kind f = Submodule), Hk in H; done|..].
      * apply or_intror with (A := file_kind f = Binary), Hk in H; done.
      * apply Hn in H. done.
  - split; [|done]. intros _. destruct Hk as [Hk _]. destruct (Hk eq_refl); tauto.
Qed.
