(* ===== verification/PatchReparse.v ===== *)
(** * Partial patches parse back

    What [transform] hands to `git apply`: for a file section of any parsed
    text, a well-formed diff whose hunk headers count their bodies. *)
From Stdlib Require Import Ascii String.
From S2P Require Import Prelude RustStr Patch PatchProps.
Local Open Scope string_scope.
Local Open Scope list_scope.

(** ** What parsing guarantees of a file section *)

Definition header_rest (l : string) : Prop :=
  starts_with "diff --git " l = false /\ starts_with "@@" l = false.

Definition wf_header (hdr : list string) : Prop :=
  (exists d rest, hdr = d :: rest /\ starts_with "diff --git " d = true /\ Forall header_rest rest) /\
  Forall one_line hdr.

Definition wf_hunk (h : PatchHunk) : Prop :=
  (old_start h <= u32_max)%N /\ one_line (heading h) /\ Forall (fun l => one_line (text l)) (lines h).

Definition wf_state (st : ParseState) : Prop :=
  Forall (fun f => wf_header (header f) /\ Forall wf_hunk (hunks f)) (p_files st) /\
  match p_file st with
  | Some b => wf_header (b_header b) /\ Forall wf_hunk (b_hunks b)
  | None => True
  end /\
  match p_hunk st with Some h => wf_hunk h | None => True end.

Lemma split_once_Some p s l r : split_once p s = Some (l, r) -> s = (l ++ p ++ r)%string.
Proof.
  revert l; induction s as [|a s IH]; intros l; unfold split_once; fold split_once.
  - destruct (strip_prefix p "") eqn:E; [|done]. intros [= <- <-]. by apply strip_prefix_Some in E.
  - destruct (strip_prefix p (String a s)) eqn:E.
    + intros [= <- <-]. by apply strip_prefix_Some in E.
    + destruct (split_once p s) as [[l' r']|]; [|done]. intros [= <- <-]. by rewrite (IH l' eq_refl).
Qed.

Lemma parse_range_bound part sign a b : parse_range part sign = Some (a, b) -> (a <= u32_max)%N.
Proof.
  unfold parse_range. destruct (strip_prefix (ch sign) part) as [r|]; [|done]. cbn [mbind option_bind].
  destruct (split_once "," r) as [[x y]|].
  - destruct (parse_u32 x) eqn:Ex; [|done]. cbn [mbind option_bind].
    destruct (parse_u32 y); [|done]. intros [= <- _]. by apply parse_u32_bound in Ex.
  - destruct (parse_u32 r) eqn:Ex; [|done]. intros [= <- _]. by apply parse_u32_bound in Ex.
Qed.

Lemma one_line_strip p s r : one_line s -> strip_prefix p s = Some r -> one_line r.
Proof.
  unfold one_line. intros H E. apply strip_prefix_Some in E as ->.
  rewrite no_char_app in H. by apply andb_true_iff in H as [_ H].
Qed.

Lemma starts_with_true p s : starts_with p s = true -> exists r, s = (p ++ r)%string.
Proof.
  unfold starts_with. destruct (strip_prefix p s) as [r|] eqn:E; [|done].
  apply strip_prefix_Some in E. eauto.
Qed.

Lemma parse_hunk_header_wf line os oc ns nc hd :
  one_line line -> parse_hunk_header line = Some (os, oc, ns, nc, hd) ->
  (os <= u32_max)%N /\ one_line hd.
Proof.
  intros Hl. unfold parse_hunk_header.
  destruct (strip_prefix "@@ " line) as [rest|] eqn:E1; [|done]. cbn [mbind option_bind].
  pose proof (one_line_strip _ _ _ Hl E1) as Hr.
  destruct (split_once " @@" rest) as [[ranges tail]|] eqn:E2; [|done]. cbn [mbind option_bind].
  apply split_once_Some in E2 as ->. unfold one_line in Hr. rewrite !no_char_app in Hr.
  apply andb_true_iff in Hr as [_ Hr]. apply andb_true_iff in Hr as [_ Hr].
  destruct (List.filter _ _) as [|o [|n [|]]]; try done.
  destruct (parse_range o "-") as [[a b]|] eqn:Eo; [|done]. apply parse_range_bound in Eo.
  cbn [mbind option_bind].
  destruct (parse_range n "+") as [[c e]|]; [|done]. intros [= <- _ _ _ <-].
  split; [done|]. destruct (strip_prefix " " tail) as [t|] eqn:Et; simpl; [|done].
  by eapply one_line_strip; [|exact Et].
Qed.

Lemma wf_close f h :
  match f with Some b => wf_header (b_header b) /\ Forall wf_hunk (b_hunks b) | None => True end ->
  match h with Some h => wf_hunk h | None => True end ->
  match close_hunk f h with Some b => wf_header (b_header b) /\ Forall wf_hunk (b_hunks b) | None => True end.
Proof.
  destruct f as [b|], h as [h|]; simpl; try done. intros [H1 H2] H3. split; [done|].
  apply Forall_app. split; [done|by apply Forall_singleton].
Qed.

Lemma wf_flush fs f :
  Forall (fun f => wf_header (header f) /\ Forall wf_hunk (hunks f)) fs ->
  match f with Some b => wf_header (b_header b) /\ Forall wf_hunk (b_hunks b) | None => True end ->
  Forall (fun f => wf_header (header f) /\ Forall wf_hunk (hunks f)) (flush_file fs f).
Proof. destruct f; simpl; [|done]. intros H1 H2. apply Forall_app. split; [done|by apply Forall_singleton]. Qed.

Lemma absorb_header_fields b l :
  b_header (absorb_header b l) = b_header b ++ [l] /\ b_hunks (absorb_header b l) = b_hunks b.
Proof.
  destruct b. simpl. destruct (strip_prefix "--- " l); [done|].
  destruct (strip_prefix "+++ " l); [done|].
  repeat match goal with |- context [if ?c then _ else _] => destruct c end; done.
Qed.

Lemma wf_parse_line st l : one_line l -> wf_state st -> wf_state (parse_line st l).
Proof.
  destruct st as [fs f h ih]. unfold wf_state, parse_line. cbn [p_files p_file p_hunk].
  intros Hl (Hfs & Hf & Hh). pose proof (wf_close f h Hf Hh) as Hc.
  destruct (strip_prefix "diff --git " l) as [rest|] eqn:Ed; cbn [p_files p_file p_hunk].
  { split; [by apply wf_flush|]. split; [|done]. split; [|by constructor].
    split; [|by apply Forall_singleton]. exists l, []. split_and!; [done| |done].
    unfold starts_with. by rewrite Ed. }
  destruct f as [b|]; [|done]. destruct (starts_with "@@" l) eqn:Ea; cbn [p_files p_file p_hunk].
  { split_and!; [done|done|]. destruct (parse_hunk_header l) as [[[[[os oc] ns] nc] hd]|] eqn:Ep; [|done].
    apply parse_hunk_header_wf in Ep as [? ?]; [|done]. done. }
  destruct h as [h|].
  - destruct (body_kind h l); cbn [p_files p_file p_hunk]; [|done]. split; [done|]. split; [done|].
    destruct Hh as (H1 & H2 & H3). split; [done|]. split; [done|]. simpl. apply Forall_app. split; [done|].
    apply Forall_singleton. simpl. destruct l as [|a l]; [done|]. simpl.
    unfold one_line in *. cbn [no_char] in Hl. by apply andb_true_iff in Hl as [_ Hl].
  - destruct (negb ih); [|done]. cbn [p_files p_file p_hunk].
    destruct (absorb_header_fields b l) as [-> ->]. split; [done|]. split; [|done].
    destruct Hf as [[(d & rest & Hd & Hs & Hr) Ho] Hb]. split; [|done]. split.
    + exists d, (rest ++ [l]). rewrite Hd. split_and!; [done|done|]. apply Forall_app. split; [done|].
      apply Forall_singleton. split; [unfold starts_with; by rewrite Ed|done].
    + apply Forall_app. split; [done|by apply Forall_singleton].
Qed.

(** Every file section of any parsed text is well formed. *)
Lemma parse_patch_wf d f :
  f ∈ parse_patch d -> wf_header (header f) /\ Forall wf_hunk (hunks f).
Proof.
  unfold parse_patch.
  assert (Forall one_line (segments d)) as Hseg.
  { pose proof (split_char_no_char newline d) as H. unfold segments.
    destruct (last _) as [[|]|]; try done.
    destruct (exists_last (split_char_ne newline d)) as (ls & w & E). rewrite E in *.
    rewrite removelast_last. by apply Forall_app in H as [H _]. }
  assert (forall st, wf_state st -> wf_state (foldl parse_line st (segments d))) as Hst.
  { induction Hseg as [|l ls Hl _ IH]; intros st Hs; simpl; [done|]. by apply IH, wf_parse_line. }
  destruct (Hst (mkParseState [] None None false)) as (H1 & H2 & H3); [by repeat constructor|].
  pose proof (wf_flush _ _ H1 (wf_close _ _ H2 H3)) as H. rewrite Forall_forall in H. apply H.
Qed.

(** ** Parsing rendered hunks *)

(** The kind the parser gives a no-newline marker: that of the line before. *)
Definition relabel_kind (prev : option LineKind) (k : LineKind) : LineKind :=
  match k with
  | NoNewlineOld | NoNewlineNew =>
      match prev with Some Add => NoNewlineNew | _ => NoNewlineOld end
  | k => k
  end.

Fixpoint relabel (prev : option LineKind) (ls : list PatchLine) : list PatchLine :=
  match ls with
  | [] => []
  | l :: ls =>
      let k := relabel_kind prev (kind l) in
      mkPatchLine k (text l) :: relabel (Some k) ls
  end.

Definition with_lines (h : PatchHunk) (ls : list PatchLine) : PatchHunk :=
  mkPatchHunk (old_start h) (old_count h) (new_start h) (new_count h) (heading h) (header_line h) ls.

(** A programmatically built hunk as it parses back. *)
Definition reparse (p : PatchHunk) : PatchHunk :=
  mkPatchHunk (old_start p) (old_count p) (new_start p) (new_count p) (heading p)
    (hunk_header p) (relabel None (lines p)).

Lemma relabel_body prev ls : body_line <$> relabel prev ls = body_line <$> ls.
Proof.
  revert prev; induction ls as [|[k t] ls IH]; intros prev; [done|]. csimpl. rewrite IH.
  f_equal. unfold body_line. simpl. by destruct k, prev as [[]|].
Qed.

Lemma relabel_count prev ls a :
  a = Add \/ a = Del -> count_kinds (relabel prev ls) Context_ a = count_kinds ls Context_ a.
Proof.
  intros Ha. unfold count_kinds. f_equal.
  revert prev; induction ls as [|[k t] ls IH]; intros prev; [done|].
  specialize (IH (Some (relabel_kind prev k))). csimpl.
  destruct Ha as [-> | ->], k, prev as [[]|]; simpl in *; congruence.
Qed.

Lemma body_line_not_header l :
  strip_prefix "diff --git " (body_line l) = None /\ starts_with "@@" (body_line l) = false.
Proof. destruct l as [[] t]; done. Qed.

Lemma parse_body fs b ls : forall h ih,
  foldl parse_line (mkParseState fs (Some b) (Some h) ih) (body_line <$> ls) =
  mkParseState fs (Some b) (Some (with_lines h (lines h ++ relabel (kind <$> last (lines h)) ls))) ih.
Proof.
  induction ls as [|l ls IH]; intros h ih.
  - csimpl. rewrite app_nil_r. by destruct h.
  - rewrite fmap_cons. cbn [foldl]. unfold parse_line at 2.
    destruct (body_line_not_header l) as [-> ->].
    assert (body_kind h (body_line l) = Some (relabel_kind (kind <$> last (lines h)) (kind l))) as ->.
    { destruct l as [[] t]; simpl; try done; by destruct (last (lines h)) as [[[] ?]|]. }
    rewrite IH. do 2 f_equal. destruct h as [os oc ns nc hd hl ols]. unfold with_lines, push_line.
    cbn. f_equal. rewrite last_snoc, <- app_assoc. by destruct l.
Qed.

Definition u32_hunk (p : PatchHunk) : Prop :=
  header_line p = EmptyString /\
  (old_start p <= u32_max)%N /\ (old_count p <= u32_max)%N /\
  (new_start p <= u32_max)%N /\ (new_count p <= u32_max)%N.

Lemma hunk_header_at p :
  header_line p = EmptyString ->
  starts_with "@@" (hunk_header p) = true /\ strip_prefix "diff --git " (hunk_header p) = None.
Proof. intros H. unfold hunk_header. rewrite H. cbn [is_empty]. by rewrite format_hunk_header_eq. Qed.

Lemma parse_own_header p :
  u32_hunk p -> parse_hunk_header (hunk_header p) =
    Some (old_start p, old_count p, new_start p, new_count p, heading p).
Proof.
  intros (H & ? & ? & ? & ?). unfold hunk_header. rewrite H. cbn [is_empty].
  by apply parse_format_hunk_header.
Qed.

Lemma parse_hunk fs b hk ih p :
  u32_hunk p ->
  foldl parse_line (mkParseState fs (Some b) hk ih) (hunk_lines p) =
  mkParseState fs (close_hunk (Some b) hk) (Some (reparse p)) true.
Proof.
  intros Hp. unfold hunk_lines. cbn [foldl]. unfold parse_line at 2.
  destruct (hunk_header_at p) as [-> ->]; [apply Hp|]. rewrite (parse_own_header p Hp).
  assert (exists b', close_hunk (Some b) hk = Some b') as [b' ->] by (destruct hk; by eexists).
  by rewrite parse_body.
Qed.

Lemma parse_hunks fs ps : Forall u32_hunk ps -> forall b hk ih,
  exists b', let st := foldl parse_line (mkParseState fs (Some b) hk ih) (ps ≫= hunk_lines) in
    p_files st = fs /\ close_hunk (p_file st) (p_hunk st) = Some b' /\
    b_header b' = b_header b /\
    b_hunks b' = b_hunks b ++ option_list hk ++ (reparse <$> ps).
Proof.
  induction 1 as [|p ps Hp _ IH]; intros b hk ih.
  - exists (match hk with Some h => push_hunk b h | None => b end).
    destruct hk; simpl; by rewrite ?app_nil_r.
  - rewrite bind_cons, foldl_app, (parse_hunk _ _ _ _ _ Hp).
    assert (exists b1, close_hunk (Some b) hk = Some b1 /\ b_header b1 = b_header b /\
      b_hunks b1 = b_hunks b ++ option_list hk) as (b1 & -> & H1 & H2).
    { destruct hk; simpl; eexists; (split; [done|]); simpl; by rewrite ?app_nil_r. }
    destruct (IH b1 (Some (reparse p)) true) as (b' & I1 & I2 & I3 & I4).
    exists b'. cbn zeta. rewrite I1, I2, I3, I4, H1, H2, <- app_assoc. done.
Qed.

Lemma parse_rest rest : Forall header_rest rest -> forall b, b_hunks b = [] ->
  exists b', foldl parse_line (mkParseState [] (Some b) None false) rest =
      mkParseState [] (Some b') None false /\ b_hunks b' = [] /\ b_header b' = b_header b ++ rest.
Proof.
  induction 1 as [|l rest [Hd Ha] _ IH]; intros b Hb; [exists b; by rewrite app_nil_r|].
  cbn [foldl]. unfold parse_line at 2. unfold starts_with in Hd.
  destruct (strip_prefix "diff --git " l); [done|]. rewrite Ha. simpl negb. cbv iota.
  destruct (absorb_header_fields b l) as [H1 H2].
  destruct (IH (absorb_header b l)) as (b' & I1 & I2 & I3); [congruence|].
  exists b'. rewrite I3, H1, <- app_assoc. done.
Qed.

(** A well-formed header followed by built hunks parses to one section. *)
Lemma parse_section hdr ps :
  wf_header hdr -> Forall u32_hunk ps ->
  Forall one_line (ps ≫= hunk_lines) ->
  exists g, parse_patch (unlines (hdr ++ (ps ≫= hunk_lines))) = [g] /\
    header g = hdr /\ hunks g = reparse <$> ps.
Proof.
  intros [(d & rest & -> & Hd & Hr) Ho] Hp Hl. unfold parse_patch.
  rewrite segments_unlines by (by apply Forall_app).
  apply starts_with_true in Hd as [r ->].
  destruct (parse_rest rest Hr (FileBuilder_new ("diff --git " ++ r)%string r) eq_refl) as (b & Hf & Hb & Hh).
  assert (foldl parse_line (mkParseState [] None None false)
      ((("diff --git " ++ r)%string :: rest) ++ (ps ≫= hunk_lines)) =
    foldl parse_line (mkParseState [] (Some b) None false) (ps ≫= hunk_lines)) as ->.
  { by rewrite <- Hf, foldl_app. }
  destruct (parse_hunks [] ps Hp b None false) as (b' & H1 & H2 & H3 & H4).
  cbn zeta in H1, H2. rewrite H1, H2. exists (finish b'). split; [done|].
  change (b_header b' = ("diff --git " ++ r)%string :: rest /\ b_hunks b' = reparse <$> ps).
  by rewrite H3, H4, Hb, Hh.
Qed.

Lemma clean_hunks ps r :
  r <> RStart -> Forall u32_hunk ps -> clean_lines r (ps ≫= hunk_lines) = true.
Proof.
  intros Hr Hp. revert r Hr; induction Hp as [|p ps Hp _ IH]; intros r Hr; [done|].
  rewrite bind_cons. unfold hunk_lines at 1. cbn [app clean_lines].
  destruct (hunk_header_at p) as [Ha Hd]; [apply Hp|].
  assert (starts_with "diff --git " (hunk_header p) = false) as -> by (unfold starts_with; by rewrite Hd).
  rewrite Ha, (parse_own_header p Hp).
  assert (clean_lines RBody ((body_line <$> lines p) ++ (ps ≫= hunk_lines)) = true) as Hc.
  { induction (lines p) as [|l ls IHl]; [by apply IH|]. csimpl.
    destruct (body_line_not_header l) as [H1 H2]. unfold starts_with at 1. rewrite H1, H2, IHl.
    by destruct l as [[] t]. }
  destruct r; [done|..]; by rewrite Hc, bool_decide_eq_true_2 by (by eexists).
Qed.

Lemma clean_section hdr ps :
  wf_header hdr -> Forall u32_hunk ps -> Forall one_line (ps ≫= hunk_lines) ->
  clean_diff (unlines (hdr ++ (ps ≫= hunk_lines))) = true.
Proof.
  intros [(d & rest & -> & Hd & Hr) Ho] Hp Hl. unfold clean_diff.
  assert (Forall one_line ((d :: rest) ++ (ps ≫= hunk_lines))) as Hall by (by apply Forall_app).
  rewrite (segments_unlines _ Hall), (split_unlines _ Hall), last_snoc.
  rewrite bool_decide_eq_true_2 by done. cbn [andb app clean_lines]. rewrite Hd.
  clear -Hr Hp. induction Hr as [|l rest [H1 H2] _ IH]; [by apply clean_hunks|].
  cbn [app clean_lines]. by rewrite H1, H2.
Qed.

(** ** The emitted hunks are renderable *)

Lemma transform_texts P h hi sel rev :
  Forall (fun l => P (text l)) (lines h) ->
  Forall (fun l => P (text l)) (transform_hunk_lines h hi sel rev).
Proof.
  unfold transform_hunk_lines. intros H.
  enough (forall li st, Forall (fun l => P (text l)) (result_lines st) ->
    Forall (fun l => P (text l)) (result_lines (transform_go hi sel rev st li (lines h)))) as Hg
    by (by apply Hg).
  induction H as [|l ls Hl _ IH]; intros li st Hst; [done|]. apply IH. clear IH.
  destruct st as [out pend saw prev]. unfold result_lines in *. simpl in Hst |- *.
  apply Forall_app in Hst as [H1 H2]. destruct l as [k t]; simpl in *.
  destruct k; simpl; repeat match goal with |- context [if ?b then _ else _] => destruct b end;
    simpl; rewrite ?Forall_app, ?Forall_singleton, ?Forall_nil; simpl; tauto.
Qed.

Lemma transform_length h hi sel rev :
  length (transform_hunk_lines h hi sel rev) <= length (lines h).
Proof.
  unfold transform_hunk_lines.
  enough (forall li st, length (result_lines (transform_go hi sel rev st li (lines h)))
    <= length (result_lines st) + length (lines h)) as Hg by (apply (Hg 0 (mkTState [] [] false false))).
  induction (lines h) as [|l ls IH]; intros li st; simpl; [lia|].
  rewrite IH. clear IH. destruct st as [out pend saw prev], l as [k t]. unfold result_lines.
  destruct k; simpl; repeat match goal with |- context [if ?b then _ else _] => destruct b end;
    simpl; rewrite ?length_app; simpl; rewrite ?length_app; simpl; lia.
Qed.

Lemma as_u32_bound z : (as_u32 z <= u32_max)%N.
Proof. unfold as_u32, u32_max. pose proof (Z.mod_pos_bound z 4294967296). lia. Qed.

Lemma count_kinds_le ls a b : (count_kinds ls a b <= Z.of_nat (length ls))%Z.
Proof. unfold count_kinds. pose proof (List.filter_length_le (fun l => bool_decide (kind l = a) || bool_decide (kind l = b)) ls). lia. Qed.

(** Counts that agree with the body. *)
Definition counted (h : PatchHunk) : Prop :=
  Z.of_N (old_count h) = count_kinds (lines h) Context_ Del /\
  Z.of_N (new_count h) = count_kinds (lines h) Context_ Add.

Definition small_hunk (h : PatchHunk) : Prop := (N.of_nat (length (lines h)) <= u32_max)%N.

Lemma as_u32_small ls a b :
  (N.of_nat (length ls) <= u32_max)%N -> Z.of_N (as_u32 (count_kinds ls a b)) = count_kinds ls a b.
Proof.
  intros H. pose proof (count_kinds_le ls a b). pose proof (count_kinds_nonneg ls a b).
  unfold as_u32, u32_max in *. rewrite Z.mod_small by lia. lia.
Qed.

Definition renderable (p : PatchHunk) : Prop :=
  u32_hunk p /\ Forall one_line (hunk_lines p) /\ counted p.

Lemma hunk_header_one_line p : header_line p = EmptyString -> one_line (heading p) -> one_line (hunk_header p).
Proof.
  intros H Hh. unfold hunk_header, one_line. rewrite H. cbn [is_empty].
  rewrite format_hunk_header_eq. unfold range_text. rewrite !no_char_app, !fmt_N_no_char by done.
  destruct (is_empty (heading p)); [done|]. by rewrite no_char_app, Hh.
Qed.

Lemma partial_hunk_renderable sel rev delta hi h :
  wf_hunk h -> small_hunk h -> renderable (partial_hunk sel rev delta hi h).
Proof.
  intros (H1 & H2 & H3) Hs. unfold small_hunk in Hs.
  pose proof (transform_length h hi sel rev) as Hl. split; [|split].
  - split; [done|]. simpl. repeat split; [done|apply as_u32_bound..].
  - constructor; [by apply hunk_header_one_line|]. simpl.
    apply Forall_fmap. eapply Forall_impl; [by apply (transform_texts one_line), H3|].
    intros [k t] Ht. unfold compose, body_line, one_line in *. simpl in *. by rewrite Ht; destruct k.
  - split; simpl; apply as_u32_small; lia.
Qed.

Lemma partial_hunks_renderable sel rev hs : Forall wf_hunk hs -> Forall small_hunk hs ->
  forall delta hi, Forall renderable (partial_hunks sel rev delta hi hs).
Proof.
  induction 1 as [|h hs Hh _ IH]; intros Hs delta hi; [constructor|].
  apply Forall_cons in Hs as [Hs1 Hs2]. cbn [partial_hunks].
  destruct (has_selected sel hi h); [|by apply IH].
  constructor; [by apply partial_hunk_renderable|by apply IH].
Qed.

(** ** The header stays well formed *)

Lemma mirror_side_line body from to :
  to = "a/" \/ to = "b/" -> one_line body ->
  header_rest (mirror_side body from to) /\ one_line (mirror_side body from to).
Proof.
  intros Ht Hb. unfold mirror_side, header_rest, one_line in *.
  destruct (strip_prefix (ch quote) body) as [inner|] eqn:E.
  - pose proof (one_line_strip _ _ _ Hb E) as Hi. unfold one_line in Hi.
    destruct (strip_prefix from inner) as [rest|] eqn:E2;
      [pose proof (one_line_strip _ _ _ Hi E2) as Hr; unfold one_line in Hr|];
      destruct Ht as [-> | ->]; rewrite !no_char_app; simpl; by rewrite ?Hr, ?Hi.
  - destruct (strip_prefix from body) as [rest|] eqn:E2;
      [pose proof (one_line_strip _ _ _ Hb E2) as Hr; unfold one_line in Hr|];
      destruct Ht as [-> | ->]; rewrite !no_char_app; simpl; by rewrite ?Hr, ?Hb.
Qed.

Lemma scan_side_real hdr : Forall one_line hdr -> forall s,
  (forall r, minus_real s = Some r -> one_line r) -> (forall r, plus_real s = Some r -> one_line r) ->
  let s' := foldl scan_side s hdr in
  (forall r, minus_real s' = Some r -> one_line r) /\ (forall r, plus_real s' = Some r -> one_line r).
Proof.
  induction 1 as [|l hdr Hl _ IH]; intros s Hm Hp; [done|]. cbn [foldl].
  destruct s as [md pd mr pr]. apply IH; unfold scan_side;
    destruct (strip_prefix "--- " l) eqn:E1; [|destruct (strip_prefix "+++ " l) eqn:E2| |destruct (strip_prefix "+++ " l) eqn:E2];
    try (destruct (String.eqb _ _)); simpl; try done;
    intros r [= <-]; by eapply one_line_strip.
Qed.

Definition good_fix (o : option string) : Prop :=
  match o with Some x => header_rest x /\ one_line x | None => True end.

Lemma fixed_sides_good hdr fm fp :
  Forall one_line hdr -> fixed_sides hdr = Some (fm, fp) -> good_fix fm /\ good_fix fp.
Proof.
  intros Ho. unfold fixed_sides.
  destruct (scan_side_real hdr Ho (mkSides false false None None)) as [Hm Hp]; [done..|].
  set (s := foldl _ _ _) in *. destruct (plus_devnull s).
  - destruct (minus_real s) as [r|]; [|done]. intros [= <- <-]. split; [done|].
    apply mirror_side_line; [by right|by apply Hm].
  - destruct (minus_devnull s); [|done]. destruct (plus_real s) as [r|]; [|done].
    intros [= <- <-]. split; [|done]. apply mirror_side_line; [by left|by apply Hp].
Qed.

Lemma rewritten_line_good fm fp l x :
  good_fix fm -> good_fix fp -> one_line l -> rewritten_line fm fp l = Some x ->
  one_line x /\ (header_rest l -> header_rest x).
Proof.
  intros Hm Hp Hl. unfold rewritten_line. destruct (_ || _); [done|]. intros [= <-].
  destruct (starts_with "--- " l), (starts_with "+++ " l), fm, fp; simpl in *; tauto.
Qed.

Lemma patch_header_wf f rev ps : wf_header (header f) -> wf_header (patch_header f rev ps).
Proof.
  intros Hw. unfold patch_header. destruct (downgraded f rev ps); [|done].
  destruct (fixed_sides (header f)) as [[fm fp]|] eqn:E; [|done].
  destruct Hw as [(d & rest & Hd & Hs & Hr) Ho]. destruct (fixed_sides_good _ _ _ Ho E) as [Hm Hp].
  rewrite Hd in *. apply Forall_cons in Ho as [Ho1 Ho2]. clear E.
  assert (rewritten_line fm fp d = Some d) as Hdd.
  { apply starts_with_true in Hs as [r ->]. done. }
  assert (Forall header_rest (omap (rewritten_line fm fp) rest) /\
    Forall one_line (omap (rewritten_line fm fp) rest)) as [H1 H2].
  { clear Hdd Hs Hd. induction Hr as [|l rest Hl _ IH]; [done|]. apply Forall_cons in Ho2 as [Hol Ho2].
    csimpl. destruct (rewritten_line fm fp l) as [x|] eqn:E; [|by apply IH].
    destruct (rewritten_line_good _ _ _ _ Hm Hp Hol E) as [? ?].
    rewrite !Forall_cons. destruct (IH Ho2). tauto. }
  csimpl. rewrite Hdd. split; [by exists d, (omap (rewritten_line fm fp) rest)|].
  by apply Forall_cons.
Qed.

(** C3. What is handed to `git apply` is a valid patch: for a file section of
    any parsed text, whenever a partial patch is built, it is a well-formed
    diff of one section; its hunks carry the selected bodies, in order, and
    every hunk header states exactly the old and new line counts of its body. *)
Theorem transform_reparses (d : string) (f : PatchFile) (sel : gset (nat * nat))
    (reverse : bool) (s : string) :
  f ∈ parse_patch d -> Forall small_hunk (hunks f) -> transform f sel reverse = Some s ->
  clean_diff s = true /\
  exists g, parse_patch s = [g] /\
    Forall counted (hunks g) /\
    (fun h => body_line <$> lines h) <$> hunks g =
      (fun p => body_line <$> lines p) <$> partial_hunks sel reverse 0 0 (hunks f).
Proof.
  intros Hf Hs Ht. apply parse_patch_wf in Hf as [Hw Hh]. rewrite transform_eq in Ht.
  destruct (stageable (file_kind f)); [|done].
  pose proof (partial_hunks_renderable sel reverse (hunks f) Hh Hs 0 0) as Hr.
  destruct (partial_hunks sel reverse 0 0 (hunks f)) as [|p0 ps0]; [done|].
  set (ps := p0 :: ps0) in *.
  assert (unlines (patch_header f reverse ps ++ (ps ≫= hunk_lines)) = s) as <- by congruence.
  assert (Forall u32_hunk ps) as Hu by (eapply Forall_impl; [exact Hr|by intros x []]).
  assert (Forall one_line (ps ≫= hunk_lines)) as Hl.
  { clear -Hr. induction Hr as [|p ps (_ & H & _) _ IH]; [done|]. rewrite bind_cons. by apply Forall_app. }
  pose proof (patch_header_wf f reverse ps Hw) as Hph.
  split; [by apply clean_section|].
  destruct (parse_section _ _ Hph Hu Hl) as (g & Hg & _ & Hgh). exists g. split; [done|]. rewrite Hgh.
  split.
  - apply Forall_fmap. eapply Forall_impl; [exact Hr|]. intros p (_ & _ & Hc1 & Hc2).
    unfold compose, counted. simpl. by rewrite !relabel_count by auto.
  - rewrite <- list_fmap_compose. apply list_fmap_ext. intros i p _. apply relabel_body.
Qed.

Lemma transform_reparses_witness :
  exists f s, parse_patch sample_diff !! 0 = Some f /\ transform f {[ (0, 2) ]} false = Some s /\
    clean_diff s = true.
Proof.
  destruct (parse_patch sample_diff) as [|f fs] eqn:E; [exfalso; vm_compute in E; discriminate E|].
  exists f. destruct (transform f {[ (0, 2) ]} false) as [s|] eqn:Et.
  - exists s. split; [done|]. split; [done|].
    apply (transform_reparses sample_diff f {[ (0, 2) ]} false s); [rewrite E; by left| |exact Et].
    vm_compute in E. injection E as <- _. repeat constructor; by vm_compute.
  - exfalso. vm_compute in E. injection E as <- _. vm_compute in Et. discriminate Et.
Defined.
