(* ===== verification/Todo.v ===== *)
(** * Interactive-rebase todo lists

    thegn-core/src/rebase_todo.rs: the reader and writer of `git-rebase-todo`
    files and the edits the interface makes to one - changing an action, moving
    a commit past its neighbour, placing a fixup under its target.  The
    theorems are in [TodoProps]. *)
From Stdlib Require Import Ascii String.
From S2P Require Import Prelude RustStr RustText.
Local Open Scope string_scope.
Local Open Scope list_scope.

(** ** Data *)

Inductive TodoAction :=
| Pick | Reword | Edit | Squash | Fixup | FixupC | Drop_ | Break_
| Exec (cmd : string)
| Label (name : string)
| Reset_ (name : string)
| Merge (rest : string)
| UpdateRef (name : string)
| Noop
| Unknown (line : string).

Global Instance TodoAction_eq_dec : EqDecision TodoAction.
Proof. solve_decision. Defined.

Definition is_commit (a : TodoAction) : bool :=
  match a with
  | Pick | Reword | Edit | Squash | Fixup | FixupC | Drop_ => true
  | _ => false
  end.

Definition is_structural (a : TodoAction) : bool :=
  match a with
  | Label _ | Reset_ _ | Merge _ | UpdateRef _ | Unknown _ => true
  | _ => false
  end.

Record TodoEntry := mkTodoEntry { action : TodoAction; sha : string; subject : string }.

Inductive TodoError :=
| ShaNotFound (sha : string)
| CannotMove (why : string).

Definition sha_matches (a b : string) : bool :=
  negb (is_empty a) && negb (is_empty b) && (starts_with b a || starts_with a b).

Definition entry (a : TodoAction) : TodoEntry := mkTodoEntry a EmptyString EmptyString.

(** ** Reading *)

Definition commit_entry (a : TodoAction) (rest : string) : option TodoEntry :=
  if is_empty rest then None
  else
    let '(sha, subject) :=
      match split_ws rest with
      | Some (sha, subject) => (sha, trim_start subject)
      | None => (rest, EmptyString)
      end in
    Some (mkTodoEntry a sha subject).

Definition arg_entry (mk : string -> TodoAction) (rest : string) : option TodoEntry :=
  if is_empty rest then None else Some (entry (mk rest)).

Definition word_is (word long short : string) : bool :=
  String.eqb word long || String.eqb word short.

Definition fixup_entry (rest : string) : option TodoEntry :=
  match (match strip_prefix "-C " rest with
         | Some r => Some r
         | None => strip_prefix "-c " rest
         end) with
  | Some r => commit_entry FixupC (trim_start r)
  | None =>
      if String.eqb rest "-C" || String.eqb rest "-c" then None else commit_entry Fixup rest
  end.

Definition parse_action (word rest : string) : option TodoEntry :=
  if word_is word "pick" "p" then commit_entry Pick rest
  else if word_is word "reword" "r" then commit_entry Reword rest
  else if word_is word "edit" "e" then commit_entry Edit rest
  else if word_is word "squash" "s" then commit_entry Squash rest
  else if word_is word "drop" "d" then commit_entry Drop_ rest
  else if word_is word "fixup" "f" then fixup_entry rest
  else if word_is word "exec" "x" then arg_entry Exec rest
  else if word_is word "label" "l" then arg_entry Label rest
  else if word_is word "reset" "t" then arg_entry Reset_ rest
  else if word_is word "merge" "m" then arg_entry Merge rest
  else if word_is word "update-ref" "u" then arg_entry UpdateRef rest
  else if word_is word "break" "b" then (if is_empty rest then Some (entry Break_) else None)
  else if String.eqb word "noop" then (if is_empty rest then Some (entry Noop) else None)
  else None.

Definition parse_line (line : string) : option TodoEntry :=
  let '(word, rest) :=
    match split_ws line with
    | Some (word, rest) => (word, trim_start rest)
    | None => (line, EmptyString)
    end in
  parse_action word rest.

(** The body of the loop: nothing for a blank line or a comment. *)
Definition parse_raw (raw : string) : list TodoEntry :=
  let line := trim_end_matches carriage_return raw in
  let trimmed := trim line in
  if is_empty trimmed || starts_with "#" trimmed then []
  else [default (entry (Unknown line)) (parse_line trimmed)].

Definition parse_todo (text : string) : list TodoEntry := lines text ≫= parse_raw.

(** ** Writing *)

Definition push_commit (word : string) (e : TodoEntry) : string :=
  (word ++ " " ++ sha e ++
   (if is_empty (subject e) then EmptyString else " " ++ subject e))%string.

Definition push_arg (word arg : string) : string := (word ++ " " ++ arg)%string.

Definition serialize_entry (e : TodoEntry) : string :=
  match action e with
  | Pick => push_commit "pick" e
  | Reword => push_commit "reword" e
  | Edit => push_commit "edit" e
  | Squash => push_commit "squash" e
  | Fixup => push_commit "fixup" e
  | FixupC => push_commit "fixup -C" e
  | Drop_ => push_commit "drop" e
  | Exec cmd => push_arg "exec" cmd
  | Label name => push_arg "label" name
  | Reset_ name => push_arg "reset" name
  | Merge rest => push_arg "merge" rest
  | UpdateRef name => push_arg "update-ref" name
  | Break_ => "break"
  | Noop => "noop"
  | Unknown line => line
  end.

Fixpoint serialize_todo (entries : list TodoEntry) : string :=
  match entries with
  | [] => EmptyString
  | e :: es => (serialize_entry e ++ ch newline ++ serialize_todo es)%string
  end.

(** ** From a log *)

Inductive LogRowError :=
| MissingSeparator (row : nat)
| ExpectedShaAndSubject (row : nat)
| InvalidSha (row : nat)
| DuplicateCommit (row : nat) (sha : string).

Definition is_hex (a : ascii) : bool := byte_in 48 57 a || byte_in 97 102 a.

Definition full_sha (s : string) : bool :=
  (Nat.eqb (String.length s) 40 || Nat.eqb (String.length s) 64) && str_forall is_hex s.

Fixpoint log_rows (row : nat) (seen : gset string) (rows : list string)
  : result LogRowError (list TodoEntry) :=
  match rows with
  | [] => Ok []
  | raw :: rows =>
      let line := default raw (strip_suffix carriage_return raw) in
      if is_empty line then log_rows (S row) seen rows
      else
        match strip_prefix (ch unit_separator) line with
        | None => Err (MissingSeparator row)
        | Some record =>
            match split_once (ch unit_separator) record with
            | None => Err (ExpectedShaAndSubject row)
            | Some (sha, subject) =>
                if negb (full_sha sha) then Err (InvalidSha row)
                else if bool_decide (sha ∈ seen) then Err (DuplicateCommit row sha)
                else
                  let? es := log_rows (S row) ({[sha]} ∪ seen) rows in
                  Ok (mkTodoEntry Pick sha (trim_end_matches carriage_return subject) :: es)
            end
        end
  end.

Definition todo_from_log (log_out : string) : result LogRowError (list TodoEntry) :=
  log_rows 1 ∅ (split_terminator log_out).

(** ** Edits *)

Definition commit_match (s : string) (e : TodoEntry) : bool :=
  is_commit (action e) && sha_matches (sha e) s.

Definition find_commit (entries : list TodoEntry) (s : string) : result TodoError nat :=
  match position (commit_match s) entries with
  | Some i => Ok i
  | None => Err (ShaNotFound s)
  end.

Definition set_action (a : TodoAction) (e : TodoEntry) : TodoEntry :=
  mkTodoEntry a (sha e) (subject e).

Fixpoint retag (entries : list TodoEntry) (targets : list string) (a : TodoAction)
  : result TodoError (list TodoEntry) :=
  match targets with
  | [] => Ok entries
  | target :: targets =>
      if existsb (commit_match target) entries
      then retag ((fun e => if commit_match target e then set_action a e else e) <$> entries) targets a
      else Err (ShaNotFound target)
  end.

(** The loop of [move_entry] towards the top, from index [to]. *)
Fixpoint neighbour_up (entries : list TodoEntry) (to : nat) : result TodoError nat :=
  match to with
  | O => Err (CannotMove "already first")
  | S t =>
      match entries !! t with
      | None => Err (CannotMove "index out of range")
      | Some e =>
          if is_commit (action e) then Ok t
          else if is_structural (action e)
          then Err (CannotMove "would cross a structural rebase line")
          else neighbour_up entries t
      end
  end.

(** The loop towards the bottom: [rest] are the entries after index [to]. *)
Fixpoint neighbour_down (to : nat) (rest : list TodoEntry) : result TodoError nat :=
  match rest with
  | [] => Err (CannotMove "already last")
  | e :: rest =>
      if is_commit (action e) then Ok (S to)
      else if is_structural (action e)
      then Err (CannotMove "would cross a structural rebase line")
      else neighbour_down (S to) rest
  end.

(** [slice::swap] on indices in range. *)
Definition vec_swap {A} (i j : nat) (l : list A) : list A :=
  match l !! i, l !! j with
  | Some a, Some b => <[j:=a]> (<[i:=b]> l)
  | _, _ => l
  end.

Definition move_entry (entries : list TodoEntry) (s : string) (up : bool)
  : result TodoError (list TodoEntry) :=
  let? from := find_commit entries s in
  let? to := if up then neighbour_up entries from
             else neighbour_down from (drop (S from) entries) in
  Ok (vec_swap from to entries).

(** [Vec::insert(i, x)] on an index in range. *)
Definition vec_insert {A} (i : nat) (x : A) (l : list A) : list A := take i l ++ x :: drop i l.

Definition place_fixup (entries : list TodoEntry) (fixup_sha target_sha : string)
  : result TodoError (list TodoEntry) :=
  let? from := find_commit entries fixup_sha in
  let? target := find_commit entries target_sha in
  if Nat.eqb from target then Err (CannotMove "fixup and target are the same commit")
  else
    match entries !! from with
    | None => Err (CannotMove "index out of range")
    | Some fix_ =>
        let out := vec_remove from entries in
        let target := if (from <? target)%nat then target - 1 else target in
        Ok (vec_insert (S target) (set_action Fixup fix_) out)
    end.
