(* ===== verification/TodoProps.v ===== *)
(** * Correctness of the rebase todo engine

    Rewriting a todo file never loses or changes an instruction: what is read
    back after writing is what was read before, for any text
    ([todo_rewrite_stable]).  The edits do exactly what the interface promises
    and refuse what would reorder structural lines. *)
From Stdlib Require Import Ascii String.
From S2P Require Import Prelude RustStr RustText Todo.
Local Open Scope list_scope.
Local Open Scope string_scope.

(** ** Entries that can be written *)

Definition commit_ok (e : TodoEntry) : Prop :=
  sha e <> "" /\ split_ws (sha e) = None /\ trimmed (subject e) /\
  no_char newline (sha e) = true /\ no_char newline (subject e) = true.

Definition arg_ok (s : string) : Prop := s <> "" /\ trimmed s /\ no_char newline s = true.

(** A flag read as a sha. *)
Definition flag_sha (e : TodoEntry) : Prop :=
  action e = Fixup /\ (sha e = "-C" \/ sha e = "-c").

Definition authored (e : TodoEntry) : Prop :=
  match action e with
  | Pick | Reword | Edit | Squash | Drop_ | FixupC => commit_ok e
  | Fixup => commit_ok e /\ ~ flag_sha e
  | Exec s | Label s | Reset_ s | Merge s | UpdateRef s =>
      e = entry (action e) /\ arg_ok s
  | Break_ | Noop => e = entry (action e)
  | Unknown l =>
      e = entry (action e) /\ no_char newline l = true /\
      trim_end_matches carriage_return l = l /\ trim l <> "" /\
      starts_with "#" (trim l) = false /\ parse_line (trim l) = None
  end.

(** *** Writing and reading one line *)

Definition tail_of (e : TodoEntry) : string :=
  sha e ++ (if is_empty (subject e) then "" else " " ++ subject e).

Lemma tail_split e :
  commit_ok e ->
  split_ws (tail_of e) = if is_empty (subject e) then None else Some (sha e, subject e).
Proof.
  intros (_ & Hs & _). unfold tail_of. destruct (subject e) as [|a s]; simpl.
  - by rewrite str_app_nil_r.
  - by apply split_ws_join.
Qed.

Lemma tail_trimmed e : commit_ok e -> trimmed (tail_of e) /\ tail_of e <> "".
Proof.
  intros (Hn & Hs & [Hc _] & _). unfold tail_of. destruct (subject e) as [|a s]; simpl.
  - rewrite str_app_nil_r. split; [|done]. split; [by apply no_ws_clean|by apply no_ws_len].
  - split; [|by destruct (sha e)]. split; [by apply ends_clean_space|].
    rewrite ws_len_ascii by done. by apply no_ws_len.
Qed.

Lemma tail_no_newline e : commit_ok e -> no_char newline (tail_of e) = true.
Proof.
  intros (_ & _ & _ & Hn & Hs). unfold tail_of. rewrite no_char_app, Hn.
  by destruct (subject e).
Qed.

Lemma commit_entry_tail e :
  commit_ok e -> commit_entry (action e) (tail_of e) = Some e.
Proof.
  intros He. pose proof (tail_split e He) as Hs. destruct (tail_trimmed e He) as [_ Hne].
  unfold commit_entry. rewrite Hs. destruct (tail_of e) as [|b t] eqn:E; [done|]. cbn [is_empty].
  destruct He as (_ & _ & [_ Hw] & _). unfold tail_of in E. destruct e as [a h s]. simpl in *.
  destruct s as [|c s]; cbn [is_empty].
  - rewrite str_app_nil_r in E. by rewrite E.
  - by rewrite trim_start_id.
Qed.

Lemma fixup_entry_tail e :
  commit_ok e -> action e = Fixup -> ~ flag_sha e -> fixup_entry (tail_of e) = Some e.
Proof.
  intros He Ha Hf. pose proof (tail_split e He) as Hs. unfold fixup_entry.
  assert (forall f r, f = "-C" \/ f = "-c" -> tail_of e <> f ++ String " " r) as Hflag.
  { intros f r Hc E. rewrite E in Hs. rewrite split_ws_join in Hs by (by destruct Hc as [-> | ->]).
    destruct (is_empty (subject e)); [done|]. injection Hs as -> ->.
    apply Hf. split; [done|]. destruct Hc; auto. }
  destruct (strip_prefix "-C " (tail_of e)) as [r|] eqn:E1.
  { apply strip_prefix_Some in E1. by destruct (Hflag "-C" r (or_introl eq_refl)). }
  destruct (strip_prefix "-c " (tail_of e)) as [r|] eqn:E2.
  { apply strip_prefix_Some in E2. by destruct (Hflag "-c" r (or_intror eq_refl)). }
  assert (forall f, f = "-C" \/ f = "-c" -> tail_of e <> f) as Hexact.
  { intros f Hc E. rewrite E in Hs. assert (split_ws f = None) as Hf0 by (by destruct Hc as [-> | ->]).
    rewrite Hf0 in Hs. unfold tail_of in E. destruct (subject e); [|done].
    cbn [is_empty] in E. rewrite str_app_nil_r in E. apply Hf. split; [done|].
    destruct Hc; subst f; auto. }
  destruct (String.eqb_spec (tail_of e) "-C") as [E|_]; [by destruct (Hexact "-C" (or_introl eq_refl))|].
  destruct (String.eqb_spec (tail_of e) "-c") as [E|_]; [by destruct (Hexact "-c" (or_intror eq_refl))|].
  simpl. rewrite <- Ha. by apply commit_entry_tail.
Qed.

(** A keyword, a space and a clean argument. *)
Lemma keyword_line w r :
  str_forall graphic w = true -> w <> "" -> split_ws w = None ->
  trimmed r -> r <> "" ->
  trimmed (w ++ String " " r) /\ parse_line (w ++ String " " r) = parse_action w r.
Proof.
  intros Hg Hn Hw [Hc Hr] Hne. split; [split|].
  - by apply ends_clean_space.
  - destruct w as [|a w]; [done|]. cbn [String.append]. apply graphic_ws_len.
    simpl in Hg. by apply andb_true_iff in Hg as [Hg _].
  - unfold parse_line. rewrite split_ws_join by done. by rewrite trim_start_id.
Qed.

(** A trimmed line that is neither blank nor a comment is read as its action. *)
Lemma parse_raw_line l e :
  trimmed l -> starts_with "#" l = false -> parse_line l = Some e -> parse_raw l = [e].
Proof.
  intros Hl Hh Hp. unfold parse_raw. rewrite clean_no_cr by apply Hl. rewrite trim_id by done.
  rewrite Hh, Hp. destruct l; [done|]. done.
Qed.

(** What writing a line must achieve to survive the reader. *)
Definition survives (e : TodoEntry) : Prop :=
  let l := serialize_entry e in
  no_char newline l = true /\ strip_suffix carriage_return l = None /\ parse_raw l = [e].

Lemma survives_keyword w r e :
  serialize_entry e = w ++ String " " r ->
  str_forall graphic w = true -> w <> "" -> split_ws w = None -> no_char newline w = true ->
  starts_with "#" (w ++ String " " r) = false ->
  trimmed r -> r <> "" -> no_char newline r = true ->
  parse_action w r = Some e -> survives e.
Proof.
  intros El Hg Hn Hw Hwn Hh Hr Hrn Hrl Hp.
  destruct (keyword_line w r Hg Hn Hw Hr Hrn) as [Ht Hl]. unfold survives. rewrite El.
  split; [|split].
  - rewrite no_char_app, Hwn. simpl. by rewrite Hrl.
  - apply tem_no_suffix, clean_no_cr, Ht.
  - apply parse_raw_line; [done..|]. by rewrite Hl.
Qed.

Lemma survives_arg w mk s :
  serialize_entry (entry (mk s)) = w ++ String " " s ->
  str_forall graphic w = true -> w <> "" -> split_ws w = None -> no_char newline w = true ->
  starts_with "#" (w ++ String " " s) = false ->
  parse_action w s = arg_entry mk s -> arg_ok s -> survives (entry (mk s)).
Proof.
  intros El Hg Hn Hw Hwn Hh Hp (Hs & Ht & Hl). apply (survives_keyword w s); try done.
  rewrite Hp. by destruct s.
Qed.

Lemma survives_commit w e :
  serialize_entry e = w ++ String " " (tail_of e) ->
  str_forall graphic w = true -> w <> "" -> split_ws w = None -> no_char newline w = true ->
  starts_with "#" (w ++ String " " (tail_of e)) = false ->
  parse_action w (tail_of e) = Some e -> commit_ok e -> survives e.
Proof.
  intros El Hg Hn Hw Hwn Hh Hp H. destruct (tail_trimmed e H).
  apply (survives_keyword w (tail_of e)); try done. by apply tail_no_newline.
Qed.

Lemma survives_fixup_c e : action e = FixupC -> commit_ok e -> survives e.
Proof.
  intros Ea H. destruct (tail_trimmed e H) as [H1 H2].
  apply (survives_keyword "fixup" ("-C" ++ String " " (tail_of e))); try done.
  - unfold serialize_entry. by rewrite Ea.
  - split; [apply ends_clean_space; [apply H1|done]|done].
  - cbn. by apply tail_no_newline.
  - change (fixup_entry ("-C " ++ tail_of e) = Some e). unfold fixup_entry.
    rewrite (proj2 (strip_prefix_Some "-C " _ (tail_of e)) eq_refl).
    rewrite trim_start_id by apply H1. rewrite <- Ea. by apply commit_entry_tail.
Qed.

Lemma survives_unknown l :
  no_char newline l = true -> trim_end_matches carriage_return l = l -> trim l <> "" ->
  starts_with "#" (trim l) = false -> parse_line (trim l) = None -> survives (entry (Unknown l)).
Proof.
  intros Hl Hc Ht Hh Hp. unfold survives. change (serialize_entry (entry (Unknown l))) with l.
  split; [done|]. split; [by apply tem_no_suffix|]. unfold parse_raw. rewrite Hc, Hh, Hp.
  by destruct (trim l).
Qed.

Lemma authored_survives e : authored e -> survives e.
Proof.
  destruct e as [a h s]. unfold authored. cbn [action].
  destruct a as [| | | | | | | |c|c|c|c|c| |l]; intros H.
  - by apply (survives_commit "pick"); try apply commit_entry_tail.
  - by apply (survives_commit "reword"); try apply commit_entry_tail.
  - by apply (survives_commit "edit"); try apply commit_entry_tail.
  - by apply (survives_commit "squash"); try apply commit_entry_tail.
  - destruct H as [H Hf]. apply (survives_commit "fixup"); try done. by apply fixup_entry_tail.
  - by apply survives_fixup_c.
  - by apply (survives_commit "drop"); try apply commit_entry_tail.
  - injection H as -> ->. by vm_compute.
  - destruct H as [ [= -> ->] H]. by apply (survives_arg "exec" Exec).
  - destruct H as [ [= -> ->] H]. by apply (survives_arg "label" Label).
  - destruct H as [ [= -> ->] H]. by apply (survives_arg "reset" Reset_).
  - destruct H as [ [= -> ->] H]. by apply (survives_arg "merge" Merge).
  - destruct H as [ [= -> ->] H]. by apply (survives_arg "update-ref" UpdateRef).
  - injection H as -> ->. by vm_compute.
  - destruct H as ([= -> ->] & Hl & Hc & Ht & Hh & Hp). by apply survives_unknown.
Qed.

(** Every todo list of well-formed entries is read back exactly as it was
    written. *)
Lemma todo_roundtrip (es : list TodoEntry) :
  Forall authored es -> parse_todo (serialize_todo es) = es.
Proof.
  intros H. unfold parse_todo.
  assert (serialize_todo es =
    foldr (fun l s => l ++ ch newline ++ s) "" (serialize_entry <$> es)) as ->.
  { clear H. induction es as [|e es IH]; simpl; [done|]. by rewrite IH. }
  assert (Forall survives es) as Hs by (eapply Forall_impl; [exact H|apply authored_survives]).
  rewrite lines_join.
  - induction Hs as [|e es (_ & _ & Hp) _ IH]; simpl; [done|].
    inversion H; subst. rewrite Hp. simpl. f_equal. auto.
  - apply Forall_fmap. eapply Forall_impl; [exact Hs|]. by intros e (? & ? & _).
Qed.

(** *** Everything the reader produces can be written *)

Lemma no_char_split c x y :
  no_char c (x ++ y) = true -> no_char c x = true /\ no_char c y = true.
Proof. rewrite no_char_app. apply andb_true_iff. Qed.

(** After a split at whitespace: the word, and the trimmed rest. *)
Lemma split_rest s w r :
  trimmed s -> no_char newline s = true -> split_ws s = Some (w, r) ->
  w <> "" /\ split_ws w = None /\ no_char newline w = true /\
  trimmed (trim_start r) /\ no_char newline (trim_start r) = true.
Proof.
  intros [Hc Hw] Hn H. pose proof (split_ws_Some_ne s w r H Hw) as Hne.
  apply split_ws_Some in H as [ [x ->] Hs]. rewrite <- str_app_assoc in Hc.
  apply no_char_split in Hn as [H1 [_ H2]%no_char_split]. split_and!; try done.
  - by apply (trimmed_start (w ++ x)).
  - destruct (trim_start_spec r) as (z & Hz & _). rewrite Hz in H2. by apply no_char_split in H2 as [_ ?].
Qed.

Lemma commit_entry_ok a rest e :
  trimmed rest -> no_char newline rest = true -> commit_entry a rest = Some e ->
  action e = a /\ commit_ok e.
Proof.
  intros Ht Hn. unfold commit_entry. destruct (is_empty rest) eqn:E; [done|].
  destruct (split_ws rest) as [ [w r] |] eqn:Es; intros [= <-]; (split; [done|]).
  - destruct (split_rest _ _ _ Ht Hn Es) as (? & ? & ? & ? & ?). done.
  - unfold commit_ok. simpl. split; [by destruct rest|]. split_and!; try done. split; [apply ends_clean_nil|done].
Qed.

Lemma arg_entry_ok mk rest e :
  trimmed rest -> no_char newline rest = true -> arg_entry mk rest = Some e ->
  e = entry (mk rest) /\ arg_ok rest.
Proof.
  intros Ht Hn. unfold arg_entry. destruct rest as [|a rest]; [done|]. intros [= <-]. done.
Qed.

Lemma fixup_entry_ok rest e :
  trimmed rest -> no_char newline rest = true -> fixup_entry rest = Some e ->
  (action e = FixupC \/ action e = Fixup) /\ commit_ok e.
Proof.
  intros Ht Hn. unfold fixup_entry.
  assert (forall f r, strip_prefix f rest = Some r ->
    trimmed (trim_start r) /\ no_char newline (trim_start r) = true) as Hr.
  { intros f r ->%strip_prefix_Some. destruct Ht as [Hc _]. split; [by apply (trimmed_start f)|].
    apply no_char_split in Hn as [_ Hn]. destruct (trim_start_spec r) as (z & Hz & _).
    rewrite Hz in Hn. by apply no_char_split in Hn as [_ ?]. }
  destruct (strip_prefix "-C " rest) as [r|] eqn:E1.
  { destruct (Hr _ _ E1). intros [? ?]%commit_entry_ok; auto. }
  destruct (strip_prefix "-c " rest) as [r|] eqn:E2.
  { destruct (Hr _ _ E2). intros [? ?]%commit_entry_ok; auto. }
  case_match; [done|]. intros [? ?]%commit_entry_ok; auto.
Qed.

Lemma parse_action_authored w rest e :
  trimmed rest -> no_char newline rest = true -> parse_action w rest = Some e ->
  authored e \/ flag_sha e.
Proof.
  intros Ht Hn. unfold parse_action, authored.
  assert (forall a, commit_entry a rest = Some e -> action e = a /\ commit_ok e) as Hc
    by eauto using commit_entry_ok.
  assert (forall mk, arg_entry mk rest = Some e -> e = entry (mk rest) /\ arg_ok rest) as Ha
    by eauto using arg_entry_ok.
  repeat lazymatch goal with |- (if word_is w ?l ?s then _ else _) = _ -> _ =>
    destruct (word_is w l s) end;
    try (intros [Ea Ho]%Hc; left; by rewrite Ea);
    try (intros [-> Ho]%Ha; left; by split).
  - intros [ [Ea|Ea] Ho]%fixup_entry_ok; [left; by rewrite Ea| |done..].
    unfold flag_sha. rewrite Ea.
    destruct (decide (sha e = "-C" \/ sha e = "-c")); [by right|left; naive_solver].
  - destruct (is_empty rest); [|done]. intros [= <-]. by left.
  - destruct (String.eqb w "noop"); [|done]. destruct (is_empty rest); [|done].
    intros [= <-]. by left.
Qed.

Lemma parse_line_authored l e :
  trimmed l -> no_char newline l = true -> parse_line l = Some e -> authored e \/ flag_sha e.
Proof.
  intros Ht Hn. unfold parse_line. destruct (split_ws l) as [ [w r] |] eqn:Es.
  - destruct (split_rest _ _ _ Ht Hn Es) as (_ & _ & _ & Hr & Hrn). by apply parse_action_authored.
  - apply parse_action_authored; [|done]. split; [apply ends_clean_nil|done].
Qed.

Lemma parse_raw_authored raw e :
  no_char newline raw = true -> e ∈ parse_raw raw -> authored e \/ flag_sha e.
Proof.
  intros Hn. unfold parse_raw. set (line := trim_end_matches carriage_return raw).
  assert (no_char newline line = true) as Hl.
  { destruct (tem_prefix carriage_return raw) as [z Hz]. fold line in Hz. rewrite Hz in Hn.
    by apply no_char_split in Hn as [? _]. }
  destruct (is_empty (trim line) || starts_with "#" (trim line)) eqn:E;
    [by intros ?%not_elem_of_nil|].
  apply orb_false_iff in E as [E1 E2]. intros ->%list_elem_of_singleton.
  destruct (parse_line (trim line)) as [e|] eqn:Ep; simpl.
  - apply (parse_line_authored (trim line)); [apply trim_trimmed| |done].
    unfold trim. fold (trim_start line).
    destruct (trim_end_split (trim_start line)) as (z & Hz & _).
    destruct (trim_start_spec line) as (x & Hx & _). rewrite Hx, Hz in Hl.
    by apply no_char_split in Hl as [_ [Hl _]%no_char_split].
  - left. unfold authored. simpl. split_and!; try done; [apply tem_idem|]. by destruct (trim line).
Qed.

(** C16. Rewriting a live todo file never drops or alters an instruction: for any
    text, writing what was read and reading it again gives the same entries.
    The one exception is an entry whose flag was taken for its sha
    ([fixup_tab_misread]). *)
Theorem todo_rewrite_stable (text : string) :
  Forall (fun e => ~ flag_sha e) (parse_todo text) ->
  parse_todo (serialize_todo (parse_todo text)) = parse_todo text.
Proof.
  intros Hf. apply todo_roundtrip. apply Forall_forall. intros e He.
  rewrite Forall_forall in Hf. specialize (Hf e He). unfold parse_todo in He.
  apply list_elem_of_bind in He as (raw & Hraw & Hl).
  destruct (parse_raw_authored raw e (lines_no_newline _ _ Hl) Hraw); done.
Qed.

Definition demo_text : string :=
  "pick 1234abc first subject" ++ ch newline ++ "# comment" ++ ch newline ++
  "f  -C 99  Fix  it" ++ String carriage_return (ch newline) ++ "exec make test" ++ ch newline ++
  "weird line" ++ ch newline.

Lemma todo_rewrite_stable_witness :
  length (parse_todo demo_text) = 4 /\
  parse_todo (serialize_todo (parse_todo demo_text)) = parse_todo demo_text.
Proof.
  split; [by vm_compute|]. apply (todo_rewrite_stable demo_text).
  repeat constructor; intros [ [=] _].
Defined.

(** A tab after the flag: the flag is read as the sha, and writing the list back
    turns the line into another instruction. *)
Example fixup_tab_misread :
  let es := parse_todo ("fixup -C" ++ String "009" "1234abc" ++ ch newline) in
  es = [mkTodoEntry Fixup "-C" "1234abc"] /\
  parse_todo (serialize_todo es) = [mkTodoEntry FixupC "1234abc" ""].
Proof. by vm_compute. Qed.

(** ** Moving a commit *)

Definition inert (e : TodoEntry) : Prop :=
  is_commit (action e) = false /\ is_structural (action e) = false.

Lemma neighbour_down_spec rest to :
  match neighbour_down to rest with
  | Ok j => exists mid e post, rest = (mid ++ e :: post)%list /\ Forall inert mid /\
      is_commit (action e) = true /\ j = S (to + length mid)
  | Err (CannotMove _) =>
      Forall inert rest \/
      exists mid e post, rest = (mid ++ e :: post)%list /\ Forall inert mid /\ is_structural (action e) = true
  | Err (ShaNotFound _) => False
  end.
Proof.
  revert to. induction rest as [|e rest IH]; intros to; simpl; [by left|].
  destruct (is_commit (action e)) eqn:Ec.
  { exists [], e, rest. split_and!; simpl; first [done|lia]. }
  destruct (is_structural (action e)) eqn:Es; [right; by exists [], e, rest|].
  specialize (IH (S to)). destruct (neighbour_down (S to) rest) as [j|[]]; [|done|].
  - destruct IH as (mid & x & post & -> & Hm & Hx & ->). exists (e :: mid), x, post.
    split_and!; [done|by constructor|done|simpl; lia].
  - destruct IH as [IH|(mid & x & post & -> & Hm & Hx)]; [left; by constructor|].
    right. exists (e :: mid), x, post. split_and!; [done|by constructor|done].
Qed.

Lemma neighbour_up_spec es to :
  to <= length es ->
  match neighbour_up es to with
  | Ok j => exists pre e mid, take to es = (pre ++ e :: mid)%list /\ Forall inert mid /\
      is_commit (action e) = true /\ j = length pre
  | Err (CannotMove _) =>
      Forall inert (take to es) \/
      exists pre e mid, take to es = (pre ++ e :: mid)%list /\ Forall inert mid /\
        is_structural (action e) = true
  | Err (ShaNotFound _) => False
  end.
Proof.
  induction to as [|t IH]; intros Ht; simpl; [by left|].
  destruct (lookup_lt_is_Some_2 es t ltac:(lia)) as [e He]. rewrite He.
  rewrite (take_S_r _ _ _ He).
  destruct (is_commit (action e)) eqn:Ec.
  { exists (take t es), e, []. split_and!; try done. rewrite length_take. lia. }
  destruct (is_structural (action e)) eqn:Es; [right; by exists (take t es), e, []|].
  specialize (IH ltac:(lia)). destruct (neighbour_up es t) as [j|[]]; [|done|].
  - destruct IH as (pre & x & mid & -> & Hm & Hx & ->). exists pre, x, (mid ++ [e])%list.
    split_and!; [by rewrite <- app_assoc|by apply Forall_app; repeat constructor|done..].
  - destruct IH as [IH|(pre & x & mid & -> & Hm & Hx)];
      [left; by apply Forall_app; repeat constructor|].
    right. exists pre, x, (mid ++ [e])%list.
    split_and!; [by rewrite <- app_assoc|by apply Forall_app; repeat constructor|done].
Qed.

Lemma vec_swap_middle {A} (pre mid post : list A) a b :
  let l := (pre ++ a :: mid ++ b :: post)%list in
  let out := (pre ++ b :: mid ++ a :: post)%list in
  vec_swap (length pre) (S (length pre + length mid)) l = out /\
  vec_swap (S (length pre + length mid)) (length pre) l = out.
Proof.
  intros l out. unfold vec_swap, l, out.
  assert ((pre ++ a :: mid ++ b :: post)%list !! length pre = Some a) as H1.
  { by rewrite list_lookup_middle. }
  assert ((pre ++ a :: mid ++ b :: post)%list !! S (length pre + length mid) = Some b) as H2.
  { rewrite lookup_app_r by lia. replace (S _ - _) with (S (length mid)) by lia.
    simpl. by rewrite list_lookup_middle. }
  rewrite H1, H2. split.
  - rewrite (insert_app_r_alt _ _ (length pre)) by lia. rewrite Nat.sub_diag. simpl.
    rewrite insert_app_r_alt by lia. replace (S _ - _) with (S (length mid)) by lia. simpl.
    rewrite insert_app_r_alt by lia. by rewrite Nat.sub_diag.
  - rewrite (insert_app_r_alt _ _ (S _)) by lia. replace (S _ - _) with (S (length mid)) by lia. simpl.
    rewrite (insert_app_r_alt mid) by lia. rewrite Nat.sub_diag. simpl.
    rewrite insert_app_r_alt by lia. by rewrite Nat.sub_diag.
Qed.

Lemma position_first {A} (f : A -> bool) l i :
  position f l = Some i ->
  exists pre a post, l = (pre ++ a :: post)%list /\ length pre = i /\ f a = true /\
    Forall (fun x => f x = false) pre.
Proof.
  revert i. induction l as [|b l IH]; intros i H; simpl in H; [done|].
  destruct (f b) eqn:E.
  - injection H as <-. by exists [], b, l.
  - destruct (position f l) as [j|]; [|done]. injection H as <-.
    destruct (IH j eq_refl) as (pre & a & post & -> & <- & Ha & Hp).
    exists (b :: pre), a, post. by split_and!; [| |done|constructor].
Qed.

(** The first commit entry that matches [s] is [e]. *)
Definition first_match (s : string) (es pre : list TodoEntry) (e : TodoEntry) (post : list TodoEntry)
  : Prop :=
  es = (pre ++ e :: post)%list /\ commit_match s e = true /\
  Forall (fun x => commit_match s x = false) pre.

Lemma find_commit_spec es s :
  match find_commit es s with
  | Ok i => exists pre e post, first_match s es pre e post /\ i = length pre
  | Err x => x = ShaNotFound s /\ Forall (fun e => commit_match s e = false) es
  end.
Proof.
  unfold find_commit. destruct (position (commit_match s) es) as [i|] eqn:E.
  - apply position_first in E as (pre & e & post & -> & <- & He & Hp).
    by exists pre, e, post.
  - split; [done|]. by apply position_None.
Qed.

Lemma first_match_commit s es pre e post :
  first_match s es pre e post -> is_commit (action e) = true.
Proof. intros (_ & H & _). unfold commit_match in H. by apply andb_true_iff in H as [? _]. Qed.

(** Moving a commit exchanges it with the next commit in that direction and
    nothing else: only inert lines lie between the two, and they stay where
    they are.  It is refused exactly when there is no such commit before the
    end of the list or a structural line. *)
Theorem move_correct (es : list TodoEntry) (s : string) (up : bool) :
  match move_entry es s up with
  | Ok out =>
      exists pre a mid b post,
        es = (pre ++ a :: mid ++ b :: post)%list /\ out = (pre ++ b :: mid ++ a :: post)%list /\
        is_commit (action a) = true /\ is_commit (action b) = true /\ Forall inert mid /\
        (if up then first_match s es (pre ++ a :: mid)%list b post
         else first_match s es pre a (mid ++ b :: post)%list)
  | Err (ShaNotFound x) => x = s /\ Forall (fun e => commit_match s e = false) es
  | Err (CannotMove _) =>
      exists pre e post, first_match s es pre e post /\
        if up then Forall inert pre \/
          exists x y z, pre = (x ++ y :: z)%list /\ Forall inert z /\ is_structural (action y) = true
        else Forall inert post \/
          exists x y z, post = (x ++ y :: z)%list /\ Forall inert x /\ is_structural (action y) = true
  end.
Proof.
  unfold move_entry. pose proof (find_commit_spec es s) as Hf.
  destruct (find_commit es s) as [i|x]; simpl; [|by destruct Hf as [-> ?] ].
  destruct Hf as (pre & e & post & Hm & ->). pose proof (first_match_commit _ _ _ _ _ Hm) as Hc.
  pose proof Hm as (-> & _). destruct up.
  - pose proof (neighbour_up_spec (pre ++ e :: post) (length pre)) as Hn.
    rewrite take_app_length, length_app in Hn. specialize (Hn ltac:(simpl; lia)).
    destruct (neighbour_up _ _) as [j|[]]; simpl; [|done|by exists pre, e, post].
    destruct Hn as (p & a & mid & -> & Hmid & Ha & ->).
    exists p, a, mid, e, post. rewrite <- app_assoc in *. split_and!; try done.
    rewrite length_app. cbn [length]. rewrite Nat.add_succ_r. apply vec_swap_middle.
  - assert (drop (S (length pre)) (pre ++ e :: post)%list = post) as ->.
    { change (e :: post) with ([e] ++ post)%list. rewrite app_assoc. apply drop_app_length'.
      rewrite length_app. simpl. lia. }
    pose proof (neighbour_down_spec post (length pre)) as Hn.
    destruct (neighbour_down _ _) as [j|[]]; simpl; [|done|by exists pre, e, post].
    destruct Hn as (mid & b & q & -> & Hmid & Hb & ->).
    exists pre, e, mid, b, q. split_and!; try done. apply vec_swap_middle.
Qed.

Lemma move_correct_example :
  let e a h := mkTodoEntry a h "" in
  move_entry [e Pick "aa"; entry (Exec "make"); e Pick "bb"; entry (Label "x"); e Pick "cc"] "bb" true =
    Ok [e Pick "bb"; entry (Exec "make"); e Pick "aa"; entry (Label "x"); e Pick "cc"] /\
  move_entry [e Pick "aa"; entry (Label "x"); e Pick "cc"] "cc" true =
    Err (CannotMove "would cross a structural rebase line").
Proof. by vm_compute. Qed.

(** ** Placing a fixup *)

Lemma split_twice {A} (pre1 pre2 post1 post2 : list A) e1 e2 :
  (pre1 ++ e1 :: post1)%list = (pre2 ++ e2 :: post2)%list -> length pre1 < length pre2 ->
  exists m, pre2 = (pre1 ++ e1 :: m)%list /\ post1 = (m ++ e2 :: post2)%list.
Proof.
  revert pre2. induction pre1 as [|x pre1 IH]; intros [|y pre2] E Hl; simpl in *; try lia.
  - injection E as -> ->. by exists pre2.
  - injection E as -> E. destruct (IH pre2 E ltac:(lia)) as (m & -> & ->). by exists m.
Qed.

Lemma same_index {A} (pre1 pre2 post1 post2 : list A) e1 e2 :
  (pre1 ++ e1 :: post1)%list = (pre2 ++ e2 :: post2)%list -> length pre1 = length pre2 ->
  pre1 = pre2 /\ e1 = e2 /\ post1 = post2.
Proof. intros E Hl. apply app_inj_1 in E as [-> [= -> ->] ]; done. Qed.

Lemma vec_remove_middle {A} (pre post : list A) a :
  vec_remove (length pre) (pre ++ a :: post)%list = (pre ++ post)%list.
Proof.
  unfold vec_remove. rewrite take_app_length. f_equal.
  change (a :: post) with ([a] ++ post)%list. rewrite app_assoc. apply drop_app_length'.
  rewrite length_app. simpl. lia.
Qed.

Lemma vec_insert_at {A} (l1 l2 : list A) n x :
  n = length l1 -> vec_insert n x (l1 ++ l2)%list = (l1 ++ x :: l2)%list.
Proof. intros ->. unfold vec_insert. by rewrite take_app_length, drop_app_length. Qed.

(** Placing a fixup puts it, with the action [fixup], directly under its
    target and moves nothing else, whichever of the two came first.  It fails
    only when one of the two is missing or they are the same entry. *)
Theorem place_fixup_correct (es : list TodoEntry) (f t : string) :
  match place_fixup es f t with
  | Ok out =>
      exists p x m y q, es = (p ++ x :: m ++ y :: q)%list /\
        (first_match f es p x (m ++ y :: q)%list /\ first_match t es (p ++ x :: m)%list y q /\
           out = (p ++ m ++ y :: set_action Fixup x :: q)%list \/
         first_match t es p x (m ++ y :: q)%list /\ first_match f es (p ++ x :: m)%list y q /\
           out = (p ++ x :: set_action Fixup y :: m ++ q)%list)
  | Err (ShaNotFound s) => (s = f \/ s = t) /\ Forall (fun e => commit_match s e = false) es
  | Err (CannotMove _) => exists p e q, first_match f es p e q /\ first_match t es p e q
  end.
Proof.
  unfold place_fixup. pose proof (find_commit_spec es f) as Hf.
  pose proof (find_commit_spec es t) as Ht.
  destruct (find_commit es f) as [i|x]; simpl; [|destruct Hf as [-> ?]; auto].
  destruct (find_commit es t) as [j|x]; simpl; [|destruct Ht as [-> ?]; auto].
  destruct Hf as (p1 & e1 & q1 & H1 & ->), Ht as (p2 & e2 & q2 & H2 & ->).
  pose proof H1 as (-> & _). pose proof H2 as (E & _).
  destruct (Nat.eqb_spec (length p1) (length p2)) as [Hl|Hl].
  { destruct (same_index _ _ _ _ _ _ E Hl) as (-> & -> & ->). by exists p2, e2, q2. }
  rewrite list_lookup_middle, vec_remove_middle by done.
  destruct (Nat.ltb_spec (length p1) (length p2)) as [Hlt|Hge].
  - destruct (split_twice _ _ _ _ _ _ E Hlt) as (m & -> & ->).
    exists p1, e1, m, e2, q2. split; [done|]. left. split_and!; [done..|].
    replace (p1 ++ m ++ e2 :: q2)%list with ((p1 ++ m ++ [e2]) ++ q2)%list
      by (by rewrite <- !app_assoc).
    rewrite vec_insert_at by (rewrite !length_app; simpl; lia). by rewrite <- !app_assoc.
  - destruct (split_twice _ _ _ _ _ _ (eq_sym E) ltac:(lia)) as (m & -> & ->).
    exists p2, e2, m, e1, q1. rewrite <- app_assoc in *. split; [done|]. right. split_and!; [done..|].
    assert (((p2 ++ e2 :: m) ++ q1)%list = ((p2 ++ [e2]) ++ m ++ q1)%list) as ->
      by (by rewrite <- !app_assoc).
    rewrite (vec_insert_at (p2 ++ [e2]) (m ++ q1)) by (rewrite length_app; simpl; lia). by rewrite <- !app_assoc.
Qed.

(** ** Changing actions *)

Lemma existsb_fmap_same {A} (p : A -> bool) (g : A -> A) l :
  (forall x, p (g x) = p x) -> existsb p (g <$> l) = existsb p l.
Proof.
  intros H. induction l as [|x l IH]; [done|]. rewrite fmap_cons. cbn [existsb]. by rewrite H, IH.
Qed.

Lemma match_retagged a s t e :
  is_commit a = true -> commit_match t e = true ->
  commit_match s (set_action a e) = commit_match s e.
Proof.
  unfold commit_match. simpl. intros -> [-> _]%andb_true_iff. done.
Qed.

(** Retagging with a commit action changes exactly the commit entries some
    target matches, and only their action; it is all or nothing, and fails
    exactly when a target matches no commit. *)
Theorem retag_correct (es : list TodoEntry) (targets : list string) (a : TodoAction) :
  is_commit a = true ->
  match retag es targets a with
  | Ok out =>
      out = (fun e => if existsb (fun t => commit_match t e) targets then set_action a e else e) <$> es /\
      Forall (fun t => existsb (commit_match t) es = true) targets
  | Err x => exists t, x = ShaNotFound t /\ t ∈ targets /\
               Forall (fun e => commit_match t e = false) es
  end.
Proof.
  intros Ha. revert es. induction targets as [|t ts IH]; intros es; simpl.
  - split; [|done]. by rewrite list_fmap_id.
  - destruct (existsb (commit_match t) es) eqn:Et; cycle 1.
    { exists t. split_and!; [done|set_solver|]. apply Forall_forall. intros e He.
      apply not_true_iff_false. intros Hm.
      assert (existsb (commit_match t) es = true); [|congruence].
      apply existsb_exists. exists e. split; [by apply list_elem_of_In|done]. }
    set (g := fun e => if commit_match t e then set_action a e else e).
    assert (forall s e, commit_match s (g e) = commit_match s e) as Hg.
    { intros s e. unfold g. destruct (commit_match t e) eqn:E; [|done]. by eapply match_retagged. }
    assert (forall s, existsb (commit_match s) (g <$> es) = existsb (commit_match s) es) as He.
    { intros s. by apply existsb_fmap_same. }
    specialize (IH (g <$> es)). destruct (retag (g <$> es) ts a) as [out|x].
    + destruct IH as [-> Hts]. split.
      * rewrite <- list_fmap_compose. apply list_fmap_ext. intros _ e _. simpl.
        assert (existsb (fun s => commit_match s (g e)) ts = existsb (fun s => commit_match s e) ts) as ->.
        { clear -Hg. induction ts as [|s ts IH]; simpl; [done|]. by rewrite Hg, IH. }
        unfold g. destruct (commit_match t e); simpl; [|done]. by destruct (existsb _ ts).
      * constructor; [done|]. eapply Forall_impl; [exact Hts|]. intros s Hs. by rewrite <- He.
    + destruct IH as (s & -> & Hs & Hn). exists s. split_and!; [done|set_solver|].
      apply Forall_fmap in Hn. eapply Forall_impl; [exact Hn|]. intros e Hx. by rewrite <- Hg.
Qed.

Lemma retag_correct_witness :
  retag [mkTodoEntry Pick "aa1" "x"; mkTodoEntry Pick "bb2" "y"] ["aa"] Squash =
    Ok [mkTodoEntry Squash "aa1" "x"; mkTodoEntry Pick "bb2" "y"] /\
  Forall (fun t => existsb (commit_match t) [mkTodoEntry Pick "aa1" "x"; mkTodoEntry Pick "bb2" "y"] = true)
    ["aa"].
Proof.
  split; [by vm_compute|].
  exact (proj2 (retag_correct [mkTodoEntry Pick "aa1" "x"; mkTodoEntry Pick "bb2" "y"] ["aa"] Squash eq_refl)).
Defined.

(** ** From a log *)

Lemma log_rows_sound row seen rows es :
  log_rows row seen rows = Ok es ->
  NoDup (sha <$> es) /\
  Forall (fun e => action e = Pick /\ full_sha (sha e) = true /\ (sha e ∉ seen)) es.
Proof.
  revert row seen es. induction rows as [|raw rows IH]; intros row seen es; simpl.
  { intros [= <-]. by repeat constructor. }
  destruct (is_empty _); [by apply IH|]. destruct (strip_prefix _ _) as [record|]; [|done].
  destruct (split_once _ record) as [ [h s] |]; [|done].
  destruct (full_sha h) eqn:Eh; [|done]. case_bool_decide as Hs; [done|]. simpl.
  destruct (log_rows (S row) _ rows) as [es'|] eqn:Er; [|done]. intros [= <-].
  apply IH in Er as [Hn Hf]. split.
  - rewrite fmap_cons. constructor; [|done]. intros (e & Heq & He)%list_elem_of_fmap.
    rewrite Forall_forall in Hf. destruct (Hf e He) as (_ & _ & Hnot). simpl in Heq. set_solver.
  - constructor; [done|]. eapply Forall_impl; [exact Hf|]. simpl. intros e (? & ? & ?). set_solver.
Qed.

(** A todo list made from a log holds one pick per commit, each with a full
    object id, and no commit twice. *)
Theorem log_picks_distinct (log : string) (es : list TodoEntry) :
  todo_from_log log = Ok es ->
  NoDup (sha <$> es) /\ Forall (fun e => action e = Pick /\ full_sha (sha e) = true) es.
Proof.
  intros [Hn Hf]%log_rows_sound. split; [done|]. eapply Forall_impl; [exact Hf|]. by intros e (? & ? & _).
Qed.
