(* ===== verification/Template.v ===== *)
(** * Templates and shell quoting

    The template engine of thegn-core/src/agent_task.rs (agent prompts,
    commands, land messages) and the POSIX quoting of thegn-core/src/util.rs it
    substitutes values with. *)
From Stdlib Require Import Ascii String.
From S2P Require Import Prelude RustStr.
Local Open Scope string_scope.
Local Open Scope list_scope.

Definition ch (a : ascii) : string := String a EmptyString.
Definition squote : ascii := "039"%char.
Definition dquote : ascii := "034"%char.
Definition bslash : ascii := "092"%char.

(** ** Shell quoting *)

Definition is_alnum (a : ascii) : bool :=
  byte_in 48 57 a || byte_in 65 90 a || byte_in 97 122 a.

Definition is_bare (a : ascii) : bool :=
  is_alnum a || negb (no_char a "-_./=:@%+,").

(** [s.replace('\'', "'\\''")]. *)
Fixpoint replace_quote (s : string) : string :=
  match s with
  | EmptyString => EmptyString
  | String a s =>
      if Ascii.eqb a squote
      then (ch squote ++ ch bslash ++ ch squote ++ ch squote ++ replace_quote s)%string
      else String a (replace_quote s)
  end.

Definition sh_quote (s : string) : string :=
  if negb (is_empty s) && str_forall is_bare s then s
  else (ch squote ++ replace_quote s ++ ch squote)%string.

Definition sh_join (argv : list string) : string := join " " (sh_quote <$> argv).

(** ** Templates *)

Abbreviation TaskVars := (gmap string string) (only parsing).

Inductive TemplateError :=
| Unterminated
| EmptyPlaceholder
| UnknownVar (name : string) (valid : list string)
| QuotedPlaceholder (name : string).

Inductive Piece := Lit (s : string) | Var (s : string).

Definition lit_piece (lit : string) : list Piece := if is_empty lit then [] else [Lit lit].

(** The parser's loop: [lit] is the literal run so far, [Some name] the state
    between the braces of a placeholder. *)
Fixpoint parse_go (inside : option string) (lit : string) (s : string)
  : result TemplateError (list Piece) :=
  match inside with
  | Some name =>
      match s with
      | EmptyString => Err Unterminated
      | String c s =>
          if Ascii.eqb c "}" then
            let name := trim name in
            if is_empty name then Err EmptyPlaceholder
            else let? rest := parse_go None EmptyString s in
                 Ok (lit_piece lit ++ Var name :: rest)
          else parse_go (Some (name ++ ch c)%string) lit s
      end
  | None =>
      match s with
      | EmptyString => Ok (lit_piece lit)
      | String c s' =>
          if Ascii.eqb c "{" then
            match s' with
            | String d s'' =>
                if Ascii.eqb d "{" then parse_go None (lit ++ "{")%string s''
                else parse_go (Some EmptyString) lit s'
            | EmptyString => parse_go (Some EmptyString) lit s'
            end
          else if Ascii.eqb c "}" then
            match s' with
            | String d s'' =>
                if Ascii.eqb d "}" then parse_go None (lit ++ "}")%string s''
                else parse_go None (lit ++ ch c)%string s'
            | EmptyString => parse_go None (lit ++ ch c)%string s'
            end
          else parse_go None (lit ++ ch c)%string s'
      end
  end.

Definition parse_template (template : string) : result TemplateError (list Piece) :=
  parse_go None EmptyString template.

(** The bound names in the [BTreeMap]'s order, that of the bytes. *)
Fixpoint insert_name (n : string) (ns : list string) : list string :=
  match ns with
  | [] => [n]
  | m :: ns' => if String.leb n m then n :: ns else m :: insert_name n ns'
  end.

Definition names (vars : TaskVars) : list string :=
  foldr insert_name [] (map_to_list vars).*1.

Fixpoint render_pieces (vars : TaskVars) (quote : bool) (out : string) (ps : list Piece)
  : result TemplateError string :=
  match ps with
  | [] => Ok out
  | Lit s :: ps => render_pieces vars quote (out ++ s)%string ps
  | Var name :: ps =>
      match vars !! name with
      | None => Err (UnknownVar name (names vars))
      | Some value =>
          render_pieces vars quote (out ++ if quote then sh_quote value else value)%string ps
      end
  end.

Definition render (template : string) (vars : TaskVars) (quote : bool) : result TemplateError string :=
  let? ps := parse_template template in render_pieces vars quote EmptyString ps.

Definition render_prompt (template : string) (vars : TaskVars) : result TemplateError string :=
  render template vars false.

Definition substitute_command (template prompt : string) (vars : TaskVars)
  : result TemplateError string :=
  render template (<["prompt" := prompt]> vars) true.

(** ** Checking templates *)

(** The quote state over one literal run. *)
Fixpoint scan_lit (escaped in_single in_double : bool) (s : string) : bool * bool :=
  match s with
  | EmptyString => (in_single, in_double)
  | String c s =>
      if escaped then scan_lit false in_single in_double s
      else if Ascii.eqb c bslash && negb in_single then scan_lit true in_single in_double s
      else if Ascii.eqb c squote && negb in_double then scan_lit false (negb in_single) in_double s
      else if Ascii.eqb c dquote && negb in_single then scan_lit false in_single (negb in_double) s
      else scan_lit false in_single in_double s
  end.

Fixpoint quoted_in (in_single in_double : bool) (ps : list Piece) : option string :=
  match ps with
  | [] => None
  | Lit s :: ps => let '(a, b) := scan_lit false in_single in_double s in quoted_in a b ps
  | Var name :: ps => if in_single || in_double then Some name else quoted_in in_single in_double ps
  end.

Definition quoted_placeholder (template : string) : option string :=
  match parse_template template with
  | Ok ps => quoted_in false false ps
  | Err _ => None
  end.

Fixpoint check_vars (allowed : list string) (ps : list Piece) : result TemplateError unit :=
  match ps with
  | [] => Ok tt
  | Var name :: ps =>
      if bool_decide (name ∈ allowed) then check_vars allowed ps
      else Err (UnknownVar name allowed)
  | Lit _ :: ps => check_vars allowed ps
  end.

Definition validate_template (template : string) (allowed : list string) (is_command : bool)
  : result TemplateError unit :=
  let? ps := parse_template template in
  let? _ := check_vars allowed ps in
  match (if is_command then quoted_placeholder template else None) with
  | Some name => Err (QuotedPlaceholder name)
  | None => Ok tt
  end.

Definition push_new (out : list string) (p : Piece) : list string :=
  match p with
  | Var name => if bool_decide (name ∈ out) then out else out ++ [name]
  | Lit _ => out
  end.

Definition template_vars (template : string) : result TemplateError (list string) :=
  let? ps := parse_template template in Ok (foldl push_new [] ps).

(** ** The POSIX reading of a quoted word *)

(** Shell Command Language, 2.2: outside quotes a backslash keeps the next
    byte, a single quote opens a run that keeps every byte up to the next one,
    and an unquoted space ends the word.  [cur] is the word read so far; other
    special characters are refused, so a result means none was met unquoted. *)
Fixpoint sh_words (single : bool) (cur : option string) (s : string) : option (list string) :=
  match s with
  | EmptyString => if single then None else Some (option_list cur)
  | String c s =>
      let grow := Some (default EmptyString cur ++ ch c)%string in
      if single then
        if Ascii.eqb c squote then sh_words false cur s else sh_words true grow s
      else if Ascii.eqb c squote then sh_words true (Some (default EmptyString cur)) s
      else if Ascii.eqb c bslash then
        match s with
        | String d s => sh_words false (Some (default EmptyString cur ++ ch d)%string) s
        | EmptyString => None
        end
      else if Ascii.eqb c " " then
        match sh_words false None s with
        | Some ws => Some (option_list cur ++ ws)
        | None => None
        end
      else if is_bare c then sh_words false grow s
      else None
  end.

Lemma is_bare_plain c :
  is_bare c = true -> Ascii.eqb c squote = false /\ Ascii.eqb c bslash = false /\ Ascii.eqb c " " = false.
Proof. by destruct c as [[][][][][][][][]]. Qed.

Lemma sh_words_bare w cur s :
  str_forall is_bare w = true -> is_empty w = false ->
  sh_words false cur (w ++ s)%string = sh_words false (Some (default EmptyString cur ++ w)%string) s.
Proof.
  revert cur; induction w as [|c w IH]; intros cur Hb He; [done|].
  cbn [str_forall] in Hb. apply andb_true_iff in Hb as [Hc Hb].
  destruct (is_bare_plain c Hc) as (H1 & H2 & H3).
  change (String c w ++ s)%string with (String c (w ++ s)). cbn [sh_words].
  rewrite H1, H2, H3, Hc. destruct w as [|d w]; [done|].
  rewrite IH by done. cbn [default from_option id]. by rewrite str_app_assoc.
Qed.

(** Inside a run, the replaced text reads as the original. *)
Lemma sh_words_run w acc s :
  sh_words true (Some acc) (replace_quote w ++ String squote s)%string =
  sh_words false (Some (acc ++ w)%string) s.
Proof.
  revert acc; induction w as [|c w IH]; intros acc; cbn [replace_quote].
  - by rewrite str_app_nil_r.
  - destruct (Ascii.eqb_spec c squote) as [->|Hc].
    + simpl. rewrite IH, str_app_assoc. done.
    + simpl. rewrite (proj2 (Ascii.eqb_neq c squote) Hc), IH, str_app_assoc. done.
Qed.

Lemma sh_words_quote w s :
  sh_words false None (sh_quote w ++ s)%string = sh_words false (Some w) s.
Proof.
  unfold sh_quote. destruct (negb (is_empty w) && str_forall is_bare w) eqn:E.
  - apply andb_true_iff in E as [He Hb]. apply negb_true_iff in He. by rewrite sh_words_bare.
  - change (ch squote ++ replace_quote w ++ ch squote)%string
      with (String squote (replace_quote w ++ ch squote)).
    change (String squote (replace_quote w ++ ch squote) ++ s)%string
      with (String squote ((replace_quote w ++ ch squote) ++ s)).
    cbn [sh_words]. rewrite str_app_assoc. apply sh_words_run.
Qed.

(** Quoting is faithful and injection-free: read by the shell's word
    rules, a joined command line is exactly the argument list it was made from,
    whatever bytes the arguments hold, the empty argument included. *)
Theorem sh_join_roundtrip (argv : list string) : sh_words false None (sh_join argv) = Some argv.
Proof.
  unfold sh_join. induction argv as [|w argv IH]; [done|]. rewrite fmap_cons.
  destruct argv as [|w' argv].
  - cbn [join fmap list_fmap]. rewrite <- (str_app_nil_r (sh_quote w)), sh_words_quote. done.
  - rewrite join_cons by done. rewrite sh_words_quote.
    change (" " ++ join " " (sh_quote <$> w' :: argv))%string
      with (String " " (join " " (sh_quote <$> w' :: argv))).
    generalize dependent (join " " (sh_quote <$> w' :: argv)). intros j IH.
    simpl. by rewrite IH.
Qed.

(** ** Validation and rendering agree *)

Lemma check_vars_ok allowed ps :
  check_vars allowed ps = Ok tt <-> forall name, Var name ∈ ps -> name ∈ allowed.
Proof.
  induction ps as [|[s|name] ps IH]; simpl.
  - split; [by intros _ n ?%elem_of_nil|done].
  - rewrite IH. setoid_rewrite elem_of_cons. split; [intros H n [?|?]; [done|by apply H]|auto].
  - case_bool_decide as Hn.
    + rewrite IH. setoid_rewrite elem_of_cons.
      split; [intros H n [[= ->]|?]; [done|by apply H]|auto].
    + split; [done|]. intros H. destruct Hn. apply H. by left.
Qed.

Lemma render_pieces_ok vars quote ps : forall out,
  (exists s, render_pieces vars quote out ps = Ok s) <-> forall name, Var name ∈ ps -> is_Some (vars !! name).
Proof.
  induction ps as [|[s|name] ps IH]; intros out; simpl.
  - split; [by intros _ n ?%elem_of_nil|by eexists].
  - rewrite IH. setoid_rewrite elem_of_cons. split; [intros H n [?|?]; [done|by apply H]|auto].
  - destruct (vars !! name) as [v|] eqn:E.
    + rewrite IH. setoid_rewrite elem_of_cons.
      split; [intros H n [[= ->]|?]; [by rewrite E|by apply H]|auto].
    + split; [by intros [? ?]|]. intros H. destruct (H name); [by left|congruence].
Qed.

Lemma validate_parses t allowed is_command :
  validate_template t allowed is_command = Ok tt ->
  exists ps, parse_template t = Ok ps /\ check_vars allowed ps = Ok tt.
Proof.
  unfold validate_template. destruct (parse_template t) as [ps|e]; [|done]. simpl.
  destruct (check_vars allowed ps) as [[]|e] eqn:E; [|done]. by eexists.
Qed.

(** A template can never validate one way and render another: accepted
    against the set of bound names, it renders; and a template the validator
    refuses as prose for its variables or its syntax does not render. *)
Theorem validated_iff_renders (t : string) (vars : gmap string string) (quote : bool) :
  validate_template t (map_to_list vars).*1 false = Ok tt <->
  exists s, render t vars quote = Ok s.
Proof.
  unfold validate_template, render. destruct (parse_template t) as [ps|e]; simpl; [|split; [done|by intros []]].
  rewrite render_pieces_ok.
  assert (check_vars (map_to_list vars).*1 ps = Ok tt <->
    forall name, Var name ∈ ps -> is_Some (vars !! name)) as <-.
  { rewrite check_vars_ok. apply forall_proper. intros name.
    assert (name ∈ (map_to_list vars).*1 <-> is_Some (vars !! name)) as ->; [|done].
    rewrite list_elem_of_fmap. split.
    - intros ([k v] & -> & Hin). apply elem_of_map_to_list in Hin. by eexists.
    - intros [v Hv]. exists (name, v). by rewrite elem_of_map_to_list. }
  by destruct (check_vars _ ps) as [[]|e].
Qed.

(** Braces doubled. *)
Fixpoint escape (s : string) : string :=
  match s with
  | EmptyString => EmptyString
  | String c s =>
      if Ascii.eqb c "{" || Ascii.eqb c "}" then String c (String c (escape s)) else String c (escape s)
  end.

Lemma parse_escape s lit : parse_go None lit (escape s) = Ok (lit_piece (lit ++ s)%string).
Proof.
  revert lit; induction s as [|c s IH]; intros lit; [by rewrite str_app_nil_r|].
  cbn [escape]. destruct (Ascii.eqb_spec c "{") as [->|H1]; [|destruct (Ascii.eqb_spec c "}") as [->|H2]]; simpl.
  - by rewrite IH, str_app_assoc.
  - by rewrite IH, str_app_assoc.
  - rewrite (proj2 (Ascii.eqb_neq c "{") H1), (proj2 (Ascii.eqb_neq c "}") H2).
    by rewrite IH, str_app_assoc.
Qed.
