(* ===== verification/Fold.v ===== *)
(** * The merge queue's fold engine

    thegn-core/src/fold.rs: landing an ordered list of branches on a running
    tip by merge, squash or rebase.  Git is injected in the source behind the
    trait [FoldGit]; here it is the class of the same name, over an object
    database [W] the operations thread and an error type [GE].  [FoldGitLaws]
    is what `git commit-tree` documents about ancestry. *)
From Stdlib Require Import Ascii String.
From S2P Require Import Prelude RustStr Template.
Local Open Scope string_scope.
Local Open Scope list_scope.

(** ** Data *)

Inductive LandStrategy := LMerge | LSquash | LRebase.

Record SubmoduleConflict := mkSubmoduleConflict { sc_path : string; ours_sha : string; theirs_sha : string }.

Inductive MergeOutcome :=
| Clean (tree : string)
| Conflict (paths : list string)
| SubConflict (paths : list string) (conflicts : list SubmoduleConflict).

Record Author := mkAuthor { a_name : string; a_email : string; a_date : string }.

Record CommitMeta := mkCommitMeta {
  oid : string;
  parent : string;
  parents : list string;
  c_message : string;
  author : Author;
}.

(** The first line of the message, trimmed. *)
Definition subject (c : CommitMeta) : string :=
  match split_char "010" (c_message c) with
  | l :: _ => trim (default l (strip_suffix "013" l))
  | [] => EmptyString
  end.

Record Branch := mkBranch { b_name : string; b_tip : string }.

Inductive ConflictKind := Textual | Regenerable | UnsupportedMergeHistory.

Record Deferred := mkDeferred {
  d_branch : Branch;
  d_paths : list string;
  d_kind : ConflictKind;
  d_submodule_conflicts : list SubmoduleConflict;
}.

Record Landed := mkLanded { l_branch : Branch; l_commit : string }.

Record FoldPlan := mkFoldPlan {
  fp_original : string;
  fp_final_tip : string;
  fp_landed : list Landed;
  fp_deferred : list Deferred;
}.

Definition advanced (p : FoldPlan) : bool := negb (String.eqb (fp_final_tip p) (fp_original p)).

Record LandOpts := mkLandOpts {
  strategy : LandStrategy;
  message_template : string;
  lo_target : string;
}.

Definition merge_default : LandOpts := mkLandOpts LMerge "" "".

Definition merge_msg (b : Branch) : string := ("Merge branch '" ++ b_name b ++ "' (fold-actor)")%string.
Definition squash_msg (b : Branch) : string := ("Squash branch '" ++ b_name b ++ "' (fold-actor)")%string.

(** ** Classifying conflicts *)

(** [path.strip_suffix(rest).is_some_and(|p| p.ends_with('/'))]. *)
Fixpoint under_dir (rest path : string) : bool :=
  match path with
  | EmptyString => false
  | String c path => (Ascii.eqb c "/" && String.eqb path rest) || under_dir rest path
  end.

Definition is_regenerable (path : string) (regenerate_paths : list string) : bool :=
  existsb (fun entry =>
    match strip_prefix "**/" entry with
    | Some rest => negb (is_empty rest) && no_char "*" rest && (String.eqb path rest || under_dir rest path)
    | None => no_char "*" entry && String.eqb entry path
    end) regenerate_paths.

Definition classify (paths regenerate_paths : list string) : ConflictKind :=
  if negb (match paths with [] => true | _ => false end) &&
     forallb (fun p => is_regenerable p regenerate_paths) paths
  then Regenerable else Textual.

(** ** The commit walk *)

Definition sole_parent (p : string) (c : CommitMeta) : bool :=
  match parents c with [q] => eq_ignore_case q p | _ => false end.

Definition expected_parent (index : nat) (what want : string) (found : string) : string :=
  ("commit at index " ++ fmt_N (N.of_nat index) ++ " expected " ++ what ++ " " ++ want ++ ", found " ++ found)%string.

(** The check on one commit: its only parent, and its replay parent, is [p]. *)
Definition check_parent (index : nat) (p : string) (c : CommitMeta) : result string unit :=
  if negb (sole_parent p c)
  then Err (expected_parent index "sole parent" p ("[" ++ join ", " (parents c) ++ "]"))
  else if negb (eq_ignore_case (parent c) p)
  then Err (expected_parent index "replay parent" p (parent c))
  else Ok tt.

(** The loop over [windows(2)]: the commits after [previous]. *)
Fixpoint check_windows (index : nat) (previous : CommitMeta) (rest : list CommitMeta)
  : result string unit :=
  match rest with
  | [] => Ok tt
  | current :: rest =>
      let? _ := check_parent (S index) (oid previous) current in
      check_windows (S index) current rest
  end.

Definition verify_linear_walk (base tip : string) (commits : list CommitMeta) : result string unit :=
  match commits with
  | [] => if eq_ignore_case base tip then Ok tt
          else Err "empty walk but the merge base is not the tip"
  | first :: rest =>
      let? _ := check_parent 0 base first in
      let? _ := check_windows 0 first rest in
      let last_index := length rest in
      let last_commit := List.last commits first in
      if negb (eq_ignore_case (oid last_commit) tip)
      then Err (expected_parent last_index "tip" tip (oid last_commit))
      else Ok tt
  end.

(** ** Git *)

Class FoldGit (W GE : Type) := {
  merge_tree : string -> string -> W -> result GE MergeOutcome * W;
  commit_tree : string -> list string -> string -> W -> result GE string * W;
  merge_tree_base : string -> string -> string -> W -> result GE MergeOutcome * W;
  commit_tree_author : string -> list string -> string -> Author -> W -> result GE string * W;
  merge_base : string -> string -> W -> result GE (option string) * W;
  commits : string -> string -> W -> result GE (list CommitMeta) * W;
}.

Inductive FoldError (GE : Type) :=
| GitError (e : GE)
| IncoherentCommitWalk (branch reason : string).
Arguments GitError {GE} e.
Arguments IncoherentCommitWalk {GE} branch reason.

Inductive One :=
| OLanded (commit : string)
| ODeferred (paths : list string) (submodule_conflicts : list SubmoduleConflict)
| OUnsupported.

Section Engine.
Context {W GE : Type} `{!FoldGit W GE}.

(** Computations that thread the database and may fail. *)
Definition M (A : Type) : Type := W -> result (FoldError GE) A * W.
Definition ret {A} (a : A) : M A := fun w => (Ok a, w).
Definition fail {A} (e : FoldError GE) : M A := fun w => (Err e, w).
Definition bind {A B} (m : M A) (k : A -> M B) : M B := fun w =>
  match m w with
  | (Ok a, w) => k a w
  | (Err e, w) => (Err e, w)
  end.
Definition git {A} (m : W -> result GE A * W) : M A := fun w =>
  match m w with
  | (Ok a, w) => (Ok a, w)
  | (Err e, w) => (Err (GitError e), w)
  end.

Notation "'let!' x ':=' m 'in' k" := (bind m (fun x => k))
  (at level 10, x name, m at level 100, k at level 200).

Definition subjects (tip branch_tip : string) : M (list string) :=
  let! base := git (merge_base tip branch_tip) in
  let! cs := git (commits (default tip base) branch_tip) in
  ret (subject <$> cs).

Definition subjects_block (ss : list string) : string :=
  join (String "010" "") ((fun s => "- " ++ s)%string <$> ss).

Definition land_message (tip : string) (b : Branch) (opts : LandOpts) (squash : bool) : M string :=
  let tmpl := trim (message_template opts) in
  if is_empty tmpl then
    if squash then
      let! ss := subjects tip (b_tip b) in
      ret (match ss with
           | [] => squash_msg b
           | _ => squash_msg b ++ String "010" (String "010" "") ++ subjects_block ss
           end)%string
    else ret (merge_msg b)
  else
    let vars : gmap string string := <["target" := lo_target opts]> (<["branch" := b_name b]> ∅) in
    let! vars := (if contains "subjects" tmpl
              then let! ss := subjects tip (b_tip b) in ret (<["subjects" := subjects_block ss]> vars)
              else ret vars) in
    ret (match render_prompt tmpl vars with
         | Ok m => m
         | Err _ => if squash then squash_msg b else merge_msg b
         end).

(** The replay loop over the branch's commits. *)
Fixpoint replay (running : string) (cs : list CommitMeta) : M One :=
  match cs with
  | [] => ret (OLanded running)
  | c :: cs =>
      let! out := git (merge_tree_base (parent c) running (oid c)) in
      match out with
      | Clean tree =>
          let! running := git (commit_tree_author tree [running] (c_message c) (author c)) in
          replay running cs
      | Conflict paths => ret (ODeferred paths [])
      | SubConflict paths conflicts => ret (ODeferred paths conflicts)
      end
  end.

Definition rebase_replay (tip : string) (b : Branch) : M One :=
  let! base := git (merge_base tip (b_tip b)) in
  match base with
  | None => ret OUnsupported
  | Some base =>
      let! cs := git (commits base (b_tip b)) in
      if existsb (fun c => (length (parents c) =? 0)%nat || (1 <? length (parents c))%nat) cs then ret OUnsupported
      else match verify_linear_walk base (b_tip b) cs with
      | Err reason => fail (IncoherentCommitWalk (b_name b) reason)
      | Ok _ => replay tip cs
      end
  end.

(** The [Merge] and [Squash] arms, which differ in the parents of the commit. *)
Definition merge_land (tip : string) (b : Branch) (opts : LandOpts) (squash : bool) : M One :=
  let! out := git (merge_tree tip (b_tip b)) in
  match out with
  | Clean tree =>
      let! msg := land_message tip b opts squash in
      let! c := git (commit_tree tree (if squash then [tip] else [tip; b_tip b]) msg) in
      ret (OLanded c)
  | Conflict paths => ret (ODeferred paths [])
  | SubConflict paths conflicts => ret (ODeferred paths conflicts)
  end.

Definition fold_one (tip : string) (b : Branch) (opts : LandOpts) : M One :=
  match strategy opts with
  | LMerge => merge_land tip b opts false
  | LSquash => merge_land tip b opts true
  | LRebase => rebase_replay tip b
  end.

(** What the loop records of one branch. *)
Definition deferred_of (b : Branch) (regenerate_paths : list string) (o : One) : option Deferred :=
  match o with
  | OLanded _ => None
  | ODeferred paths sub =>
      Some (mkDeferred b paths
        (match sub with [] => classify paths regenerate_paths | _ => Textual end) sub)
  | OUnsupported => Some (mkDeferred b [] UnsupportedMergeHistory [])
  end.

Fixpoint fold_loop (regenerate_paths : list string) (opts : LandOpts) (tip : string)
    (landed : list Landed) (deferred : list Deferred) (bs : list Branch)
  : M (string * list Landed * list Deferred) :=
  match bs with
  | [] => ret (tip, landed, deferred)
  | b :: bs =>
      let! o := fold_one tip b opts in
      match o with
      | OLanded commit =>
          fold_loop regenerate_paths opts commit (landed ++ [mkLanded b commit]) deferred bs
      | _ =>
          fold_loop regenerate_paths opts tip landed
            (deferred ++ option_list (deferred_of b regenerate_paths o)) bs
      end
  end.

Definition fold (start_tip : string) (branches : list Branch) (regenerate_paths : list string)
    (opts : LandOpts) : M FoldPlan :=
  let! r := fold_loop regenerate_paths opts start_tip [] [] branches in
  let '(tip, landed, deferred) := r in
  ret (mkFoldPlan start_tip tip landed deferred).

End Engine.
