(* ===== verification/FoldProps.v ===== *)
(** * Theorems about the fold engine

    [fold] computes the plan that a specification in terms of git gives; what lands
    descends from the target; a rebase replays the whole linear chain or nothing. *)
From Stdlib Require Import Ascii String.
From S2P Require Import Prelude RustStr Template Fold.
Local Open Scope string_scope.
Local Open Scope list_scope.

Section Refinement.
Context {W GE : Type} `{!FoldGit W GE}.
Implicit Types (w : W).
#[local] Abbreviation MW := (@M W GE) (only parsing).

Definition next_tip (tip : string) (o : One) : string :=
  match o with OLanded c => c | _ => tip end.

(** One branch after the other, each folded onto the tip the landed ones
    before it left; a branch that does not land leaves the tip alone. *)
Inductive folds (opts : LandOpts) : string -> W -> list (Branch * One) -> string -> W -> Prop :=
| folds_nil tip w : folds opts tip w [] tip w
| folds_cons tip w b o w1 outs tip' w' :
    fold_one tip b opts w = (Ok o, w1) ->
    folds opts (next_tip tip o) w1 outs tip' w' ->
    folds opts tip w ((b, o) :: outs) tip' w'.

Definition landed_of (bo : Branch * One) : option Landed :=
  match snd bo with OLanded c => Some (mkLanded (fst bo) c) | _ => None end.

Definition plan_of (start final : string) (regen : list string) (outs : list (Branch * One)) : FoldPlan :=
  mkFoldPlan start final (omap landed_of outs)
    (omap (fun bo => deferred_of (fst bo) regen (snd bo)) outs).

Lemma fold_loop_spec regen opts bs : forall tip la de w tip' la' de' w',
  fold_loop regen opts tip la de bs w = (Ok (tip', la', de'), w') <->
  exists outs, outs.*1 = bs /\ folds opts tip w outs tip' w' /\
    la' = la ++ omap landed_of outs /\
    de' = de ++ omap (fun bo => deferred_of (fst bo) regen (snd bo)) outs.
Proof.
  induction bs as [|b bs IH]; intros tip la de w tip' la' de' w'; cbn [fold_loop].
  - split.
    + intros [= <- <- <- <-]. exists []. rewrite !app_nil_r. by repeat constructor.
    + intros ([|] & E & H & -> & ->); [|done]. inversion H; subst. by rewrite !app_nil_r.
  - unfold bind. destruct (fold_one tip b opts w) as [[o|e] w1] eqn:E.
    + assert (forall outs, omap landed_of ((b, o) :: outs) = option_list (landed_of (b, o)) ++ omap landed_of outs /\
        omap (fun bo => deferred_of (fst bo) regen (snd bo)) ((b, o) :: outs) =
        option_list (deferred_of b regen o) ++ omap (fun bo => deferred_of (fst bo) regen (snd bo)) outs) as Ho
        by (intros; by destruct o).
      assert ((match o with
        | OLanded commit => fold_loop regen opts commit (la ++ [mkLanded b commit]) de bs
        | _ => fold_loop regen opts tip la (de ++ option_list (deferred_of b regen o)) bs end) w1 =
        fold_loop regen opts (next_tip tip o) (la ++ option_list (landed_of (b, o)))
          (de ++ option_list (deferred_of b regen o)) bs w1) as ->
        by (destruct o; simpl; by rewrite ?app_nil_r).
      rewrite IH. split.
      * intros (outs & <- & H & -> & ->). exists ((b, o) :: outs).
        destruct (Ho outs) as [-> ->]. rewrite <- !app_assoc. split; [done|]. split; [by econstructor|done].
      * intros ([|[b' o'] outs] & Eb & H & -> & ->); [done|]. injection Eb as -> Eb.
        inversion H; subst. assert (o' = o /\ w2 = w1) as [-> ->] by (split; congruence).
        destruct (Ho outs) as [-> ->]. exists outs. by rewrite <- !app_assoc.
    + split; [done|]. intros ([|[b' o'] outs] & Eb & H & _); [done|]. injection Eb as -> Eb.
      inversion H; subst. congruence.
Qed.

Lemma fold_spec start bs regen opts w plan w' :
  fold start bs regen opts w = (Ok plan, w') <->
  exists outs, outs.*1 = bs /\ folds opts start w outs (fp_final_tip plan) w' /\
    plan = plan_of start (fp_final_tip plan) regen outs.
Proof.
  unfold fold, bind.
  destruct (fold_loop regen opts start [] [] bs w) as [[[[tip la] de]|e] w1] eqn:E.
  - apply fold_loop_spec in E as (outs & H1 & H2 & -> & ->). unfold ret. split.
    + intros [= <- <-]. exists outs. done.
    + intros (outs' & H1' & H2' & Hp).
      assert (fold_loop regen opts start [] [] bs w =
        (Ok (fp_final_tip plan, omap landed_of outs',
             omap (fun bo => deferred_of (fst bo) regen (snd bo)) outs'), w')) as E'
        by (apply fold_loop_spec; by exists outs').
      assert (fold_loop regen opts start [] [] bs w =
        (Ok (tip, omap landed_of outs,
             omap (fun bo => deferred_of (fst bo) regen (snd bo)) outs), w1)) as E
        by (apply fold_loop_spec; by exists outs).
      rewrite E in E'. injection E' as -> H3 H4 ->. unfold plan_of in Hp.
      rewrite <- H3, <- H4 in Hp. rewrite Hp. done.
  - split; [done|]. intros (outs & H1 & H2 & Hp).
    assert (fold_loop regen opts start [] [] bs w =
      (Ok (fp_final_tip plan, omap landed_of outs,
           omap (fun bo => deferred_of (fst bo) regen (snd bo)) outs), w')) as E'
      by (apply fold_loop_spec; by exists outs). congruence.
Qed.

(** ** Ancestry *)

(** What git documents: commits have the parents they were created with, and
    no operation of the engine removes an object. *)
Class FoldGitLaws := {
  ancestor : W -> string -> string -> Prop;
  ancestor_refl : forall w a, ancestor w a a;
  ancestor_trans : forall w a b c, ancestor w a b -> ancestor w b c -> ancestor w a c;
  commit_tree_parents : forall t ps m w c w', commit_tree t ps m w = (Ok c, w') ->
    forall p, p ∈ ps -> ancestor w' p c;
  commit_tree_author_parents : forall t ps m au w c w', commit_tree_author t ps m au w = (Ok c, w') ->
    forall p, p ∈ ps -> ancestor w' p c;
  merge_tree_keeps : forall x y w r w', merge_tree x y w = (r, w') ->
    forall a b, ancestor w a b -> ancestor w' a b;
  commit_tree_keeps : forall t ps m w r w', commit_tree t ps m w = (r, w') ->
    forall a b, ancestor w a b -> ancestor w' a b;
  merge_tree_base_keeps : forall x y z w r w', merge_tree_base x y z w = (r, w') ->
    forall a b, ancestor w a b -> ancestor w' a b;
  commit_tree_author_keeps : forall t ps m au w r w', commit_tree_author t ps m au w = (r, w') ->
    forall a b, ancestor w a b -> ancestor w' a b;
  merge_base_keeps : forall x y w r w', merge_base x y w = (r, w') ->
    forall a b, ancestor w a b -> ancestor w' a b;
  commits_keeps : forall x y w r w', commits x y w = (r, w') ->
    forall a b, ancestor w a b -> ancestor w' a b;
}.

Context {GL : FoldGitLaws}.

(** A computation that only adds to the history. *)
Definition keeps {A} (m : MW A) : Prop := forall w r w', m w = (r, w') ->
  forall a b, ancestor w a b -> ancestor w' a b.

Lemma keeps_ret {A} (a : A) : keeps (ret a).
Proof. by intros w r w' [= _ <-]. Qed.

Lemma keeps_bind {A B} (m : MW A) (k : A -> MW B) :
  keeps m -> (forall a, keeps (k a)) -> keeps (bind m k).
Proof.
  intros Hm Hk w r w'. unfold bind. destruct (m w) as [[a|e] w1] eqn:E; intros H x y Hxy.
  - eapply Hk; [exact H|]. by eapply Hm.
  - injection H as <- <-. by eapply Hm.
Qed.

Lemma keeps_git {A} (m : W -> result GE A * W) :
  (forall w r w', m w = (r, w') -> forall a b, ancestor w a b -> ancestor w' a b) -> keeps (git m).
Proof.
  intros Hm w r w'. unfold git. destruct (m w) as [[a|e] w1] eqn:E; intros [= _ <-]; by eapply Hm.
Qed.

Hint Resolve keeps_ret keeps_bind keeps_git merge_tree_keeps commit_tree_keeps merge_tree_base_keeps
  commit_tree_author_keeps merge_base_keeps commits_keeps : thegn.

Lemma keeps_subjects tip t : keeps (subjects tip t).
Proof. unfold subjects. apply keeps_bind; [eauto with thegn|]. intros. apply keeps_bind; eauto with thegn. Qed.

Lemma keeps_land_message tip b opts squash : keeps (land_message tip b opts squash).
Proof.
  pose proof keeps_subjects. unfold land_message. destruct (is_empty _); [destruct squash|].
  - apply keeps_bind; [done|]. eauto with thegn.
  - apply keeps_ret.
  - apply keeps_bind; [|eauto with thegn]. destruct (contains _ _); [|apply keeps_ret].
    apply keeps_bind; [done|]. eauto with thegn.
Qed.

Lemma git_Ok {A} (m : W -> result GE A * W) w a w' : git m w = (Ok a, w') -> m w = (Ok a, w').
Proof. unfold git. destruct (m w) as [[x|e] w1]; [by intros [= -> ->]|done]. Qed.

Lemma bind_Ok {A B} (m : MW A) (k : A -> MW B) w r w' :
  bind m k w = (Ok r, w') -> exists a w1, m w = (Ok a, w1) /\ k a w1 = (Ok r, w').
Proof. unfold bind. destruct (m w) as [[a|e] w1] eqn:E; [|done]. eauto. Qed.

Lemma keeps_replay cs running : keeps (replay running cs).
Proof.
  revert running; induction cs as [|c cs IH]; intros running; cbn [replay]; [apply keeps_ret|].
  apply keeps_bind; [eauto with thegn|]. intros [t|p|p q]; [|apply keeps_ret..].
  apply keeps_bind; [eauto with thegn|]. done.
Qed.

Lemma keeps_fold_one tip b opts : keeps (fold_one tip b opts).
Proof.
  pose proof keeps_land_message. pose proof keeps_replay.
  assert (forall sq, keeps (merge_land tip b opts sq)) as Hm.
  { intros sq. unfold merge_land. apply keeps_bind; [eauto with thegn|].
    intros [t|p|p q]; [|apply keeps_ret..]. apply keeps_bind; [done|]. intros m.
    apply keeps_bind; [eauto with thegn|]. eauto with thegn. }
  unfold fold_one. destruct (strategy opts); [done..|]. unfold rebase_replay.
  apply keeps_bind; [eauto with thegn|]. intros [base|]; [|apply keeps_ret].
  apply keeps_bind; [eauto with thegn|]. intros cs. destruct (existsb _ _); [apply keeps_ret|].
  destruct (verify_linear_walk _ _ _); [done|]. by intros w r w' [= _ <-].
Qed.

Lemma replay_descends cs : forall running w c w',
  replay running cs w = (Ok (OLanded c), w') -> ancestor w' running c.
Proof.
  induction cs as [|x cs IH]; intros running w c w'; cbn [replay].
  - intros [= <- <-]. apply ancestor_refl.
  - intros (out & w1 & H1 & H2)%bind_Ok. destruct out as [t|p|p q]; [|done..].
    apply bind_Ok in H2 as (r & w2 & H2 & H3). apply git_Ok in H2.
    eapply ancestor_trans; [|by eapply IH]. eapply keeps_replay; [exact H3|].
    eapply commit_tree_author_parents; [exact H2|by left].
Qed.

Lemma merge_land_descends tip b opts sq w c w' :
  merge_land tip b opts sq w = (Ok (OLanded c), w') ->
  ancestor w' tip c /\ (sq = false -> ancestor w' (b_tip b) c).
Proof.
  unfold merge_land. intros (out & w1 & _ & H2)%bind_Ok. destruct out as [t|p|p q]; [|done..].
  apply bind_Ok in H2 as (m & w2 & _ & H2). apply bind_Ok in H2 as (c' & w3 & H2 & H3).
  injection H3 as -> ->. apply git_Ok in H2.
  split; [|intros ->]; (eapply commit_tree_parents; [exact H2|]);
    [destruct sq; left|right; left].
Qed.

Lemma fold_one_descends tip b opts w c w' :
  fold_one tip b opts w = (Ok (OLanded c), w') ->
  ancestor w' tip c /\ (strategy opts = LMerge -> ancestor w' (b_tip b) c).
Proof.
  unfold fold_one. destruct (strategy opts).
  - intros [? ?]%merge_land_descends. split; [done|]. auto.
  - intros [? ?]%merge_land_descends. done.
  - unfold rebase_replay. intros (base & w1 & _ & H)%bind_Ok. split; [|done].
    destruct base as [base|]; [|done]. apply bind_Ok in H as (cs & w2 & _ & H).
    destruct (existsb _ _); [done|]. destruct (verify_linear_walk _ _ _); [|done].
    by eapply replay_descends.
Qed.

Lemma folds_keeps opts tip w outs tip' w' :
  folds opts tip w outs tip' w' -> forall a b, ancestor w a b -> ancestor w' a b.
Proof. induction 1; [done|]. intros x y Hxy. apply IHfolds. by eapply keeps_fold_one. Qed.

Lemma folds_descends opts tip w outs tip' w' :
  folds opts tip w outs tip' w' ->
  ancestor w' tip tip' /\
  Forall (fun l => ancestor w' (l_commit l) tip' /\
    (strategy opts = LMerge -> ancestor w' (b_tip (l_branch l)) tip')) (omap landed_of outs).
Proof.
  induction 1 as [tip w|tip w b o w1 outs tip' w' Ho Hf [IH1 IH2]];
    [split; [apply ancestor_refl|constructor]|]. csimpl.
  pose proof (folds_keeps _ _ _ _ _ _ Hf) as Hk.
  destruct o as [c|p s|]; simpl in *; [|done..].
  apply fold_one_descends in Ho as [H1 H2].
  split; [eapply ancestor_trans; [by apply Hk|done]|]. constructor; [|done]. simpl.
  split; [done|]. intros Hs. eapply ancestor_trans; [by apply Hk, H2|done].
Qed.

(** A landed plan fast-forwards the target: the final tip descends from
    the original tip and from every landed commit, so the compare-and-swap of
    the target is a fast-forward; under the merge strategy it also contains
    every landed branch's own tip. *)
Theorem fold_descends (start : string) (bs : list Branch) (regen : list string) (opts : LandOpts)
    (w : W) (plan : FoldPlan) (w' : W) :
  fold start bs regen opts w = (Ok plan, w') ->
  ancestor w' start (fp_final_tip plan) /\
  forall l, l ∈ fp_landed plan -> ancestor w' (l_commit l) (fp_final_tip plan) /\
    (strategy opts = LMerge -> ancestor w' (b_tip (l_branch l)) (fp_final_tip plan)).
Proof.
  intros (outs & _ & Hf & Hp)%fold_spec. apply folds_descends in Hf as [H1 H2]. split; [done|].
  rewrite Forall_forall in H2. rewrite Hp. exact H2.
Qed.

(** ** Rebase: all or nothing *)

(** [cs] is the ancestor-first chain of single-parent commits from [base]
    (exclusive) to [tip] (inclusive). *)
Fixpoint linear_chain (base tip : string) (cs : list CommitMeta) : Prop :=
  match cs with
  | [] => eq_ignore_case base tip = true
  | c :: cs =>
      (exists p, parents c = [p] /\ eq_ignore_case p base = true) /\
      eq_ignore_case (parent c) base = true /\ linear_chain (oid c) tip cs
  end.

(** Every commit replayed in order: its own delta merges cleanly onto the
    running tip and is committed there with its message and author. *)
Inductive replays : string -> list CommitMeta -> W -> string -> W -> Prop :=
| replays_nil tip w : replays tip [] w tip w
| replays_cons running c cs w tree w1 next w2 final w' :
    merge_tree_base (parent c) running (oid c) w = (Ok (Clean tree), w1) ->
    commit_tree_author tree [running] (c_message c) (author c) w1 = (Ok next, w2) ->
    replays next cs w2 final w' ->
    replays running (c :: cs) w final w'.

Lemma check_parent_ok i p c :
  check_parent i p c = Ok tt <->
  (exists q, parents c = [q] /\ eq_ignore_case q p = true) /\ eq_ignore_case (parent c) p = true.
Proof.
  unfold check_parent, sole_parent. destruct (parents c) as [|q [|r rs]] eqn:E; simpl.
  - split; [done|]. by intros [(q & ? & _) _].
  - destruct (eq_ignore_case q p) eqn:Eq; simpl.
    + destruct (eq_ignore_case (parent c) p); simpl; split; try done; [by eauto|by intros []].
    + split; [done|]. intros [(q' & [= <-] & ?) _]. congruence.
  - split; [done|]. by intros [(q' & ? & _) _].
Qed.

Lemma last_default {A} (a d e : A) l : List.last (a :: l) d = List.last (a :: l) e.
Proof. revert a; induction l as [|b l IH]; intros a; [done|]. apply IH. Qed.

Lemma check_windows_ok tip rest : forall i c,
  (check_windows i c rest = Ok tt /\ eq_ignore_case (oid (List.last (c :: rest) c)) tip = true) <->
  linear_chain (oid c) tip rest.
Proof.
  induction rest as [|d rest IH]; intros i c; [simpl; tauto|].
  cbn [check_windows linear_chain]. rewrite <- (IH (S i) d).
  assert (List.last (c :: d :: rest) c = List.last (d :: rest) d) as ->.
  { apply (last_default d c d rest). }
  pose proof (check_parent_ok (S i) (oid c) d) as Hc.
  destruct (check_parent (S i) (oid c) d) as [[]|e]; simpl.
  - destruct Hc as [Hc _]. specialize (Hc eq_refl). tauto.
  - split; [by intros []|]. intros (H1 & H2 & _). destruct Hc as [_ Hc]. discriminate Hc. by split.
Qed.

Lemma verify_linear_walk_ok base tip cs :
  verify_linear_walk base tip cs = Ok tt <-> linear_chain base tip cs.
Proof.
  destruct cs as [|c cs]; simpl; [by destruct (eq_ignore_case base tip)|].
  rewrite <- (check_windows_ok tip cs 0 c).
  pose proof (check_parent_ok 0 base c) as Hc. destruct (check_parent 0 base c) as [[]|e]; simpl.
  - destruct Hc as [Hc _]. specialize (Hc eq_refl).
    destruct (check_windows 0 c cs) as [[]|e]; simpl; [|split; [done|by intros (_ & _ & ? & _)]].
    destruct (eq_ignore_case _ tip); simpl; intuition done.
  - split; [done|]. intros (H1 & H2 & _). destruct Hc as [_ Hc]. discriminate Hc. by split.
Qed.

Lemma replay_ok cs : forall running w c w',
  replay running cs w = (Ok (OLanded c), w') <-> replays running cs w c w'.
Proof.
  induction cs as [|x cs IH]; intros running w c w'; cbn [replay].
  - split; [intros [= <- <-]; constructor|by inversion 1].
  - split.
    + intros (out & w1 & H1 & H2)%bind_Ok. apply git_Ok in H1. destruct out as [t|p|p q]; [|done..].
      apply bind_Ok in H2 as (r & w2 & H2 & H3). apply git_Ok in H2. apply IH in H3. by econstructor.
    + inversion 1 as [|? ? ? ? tree w1 next w2 ? ? H1 H2 H3]; subst. apply IH in H3.
      unfold bind, git. by rewrite H1, H2.
Qed.

Lemma linear_chain_single base tip cs :
  linear_chain base tip cs ->
  existsb (fun c => (length (parents c) =? 0)%nat || (1 <? length (parents c))%nat) cs = false.
Proof.
  revert base; induction cs as [|c cs IH]; intros base; [done|].
  intros ((p & Hp & _) & _ & H). simpl. rewrite Hp, (IH _ H). done.
Qed.

(** A rebase is all or nothing and replays the whole branch: a commit is
    landed exactly when the walk is the linear chain from the merge base to the
    branch tip and every commit of it replays cleanly, in order and under its
    own author; in every other case no replayed commit is landed. *)
Theorem rebase_all_or_nothing (tip : string) (b : Branch) (w : W) (c : string) (w' : W) :
  rebase_replay tip b w = (Ok (OLanded c), w') <->
  exists base cs w1 w2,
    merge_base tip (b_tip b) w = (Ok (Some base), w1) /\
    commits base (b_tip b) w1 = (Ok cs, w2) /\
    linear_chain base (b_tip b) cs /\ replays tip cs w2 c w'.
Proof.
  unfold rebase_replay. split.
  - intros (base & w1 & H1 & H)%bind_Ok. apply git_Ok in H1. destruct base as [base|]; [|done].
    apply bind_Ok in H as (cs & w2 & H2 & H). apply git_Ok in H2.
    destruct (existsb _ cs); [done|]. destruct (verify_linear_walk _ _ _) as [[]|e] eqn:E; [|done].
    apply verify_linear_walk_ok in E. apply replay_ok in H. by exists base, cs, w1, w2.
  - intros (base & cs & w1 & w2 & H1 & H2 & Hc & Hr). unfold bind, git. rewrite H1, H2.
    rewrite (linear_chain_single _ _ _ Hc), (proj2 (verify_linear_walk_ok _ _ _) Hc).
    by apply replay_ok.
Qed.

(** ** The plan, in terms of git *)

(** The replay of the branch's commits stops at the first conflict. *)
Inductive stops : string -> list CommitMeta -> W -> list string -> list SubmoduleConflict -> W -> Prop :=
| stops_conflict running c cs w paths w1 :
    merge_tree_base (parent c) running (oid c) w = (Ok (Conflict paths), w1) -> stops running (c :: cs) w paths [] w1
| stops_submodule running c cs w paths subs w1 :
    merge_tree_base (parent c) running (oid c) w = (Ok (SubConflict paths subs), w1) -> stops running (c :: cs) w paths subs w1
| stops_later running c cs w tree w1 next w2 paths subs w' :
    merge_tree_base (parent c) running (oid c) w = (Ok (Clean tree), w1) ->
    commit_tree_author tree [running] (c_message c) (author c) w1 = (Ok next, w2) ->
    stops next cs w2 paths subs w' -> stops running (c :: cs) w paths subs w'.

(** The branch lands on [tip] as the commit [c]. *)
Inductive lands (opts : LandOpts) (tip : string) (b : Branch) : W -> string -> W -> Prop :=
| lands_merge w tree w1 msg w2 c w' :
    strategy opts = LMerge -> merge_tree tip (b_tip b) w = (Ok (Clean tree), w1) ->
    land_message tip b opts false w1 = (Ok msg, w2) -> commit_tree tree [tip; b_tip b] msg w2 = (Ok c, w') ->
    lands opts tip b w c w'
| lands_squash w tree w1 msg w2 c w' :
    strategy opts = LSquash -> merge_tree tip (b_tip b) w = (Ok (Clean tree), w1) ->
    land_message tip b opts true w1 = (Ok msg, w2) -> commit_tree tree [tip] msg w2 = (Ok c, w') ->
    lands opts tip b w c w'
| lands_rebase w base w1 cs w2 c w' :
    strategy opts = LRebase -> merge_base tip (b_tip b) w = (Ok (Some base), w1) ->
    commits base (b_tip b) w1 = (Ok cs, w2) -> linear_chain base (b_tip b) cs -> replays tip cs w2 c w' ->
    lands opts tip b w c w'.

(** A conflict can be regenerated when it is in files only, in one at least, and
    each of them is listed. *)
Definition conflict_kind (regen paths : list string) (subs : list SubmoduleConflict) (k : ConflictKind) : Prop :=
  let regenerable := subs = [] /\ paths <> [] /\ Forall (fun p => is_regenerable p regen = true) paths in
  match k with Regenerable => regenerable | Textual => ~ regenerable | UnsupportedMergeHistory => False end.

(** The branch is put off, and what is recorded of it. *)
Inductive defers (opts : LandOpts) (regen : list string) (tip : string) (b : Branch) : W -> Deferred -> W -> Prop :=
| defers_conflict w paths k w1 :
    strategy opts <> LRebase -> merge_tree tip (b_tip b) w = (Ok (Conflict paths), w1) ->
    conflict_kind regen paths [] k -> defers opts regen tip b w (mkDeferred b paths k []) w1
| defers_submodule w paths subs k w1 :
    strategy opts <> LRebase -> merge_tree tip (b_tip b) w = (Ok (SubConflict paths subs), w1) ->
    conflict_kind regen paths subs k -> defers opts regen tip b w (mkDeferred b paths k subs) w1
| defers_unrelated w w1 :
    strategy opts = LRebase -> merge_base tip (b_tip b) w = (Ok None, w1) ->
    defers opts regen tip b w (mkDeferred b [] UnsupportedMergeHistory []) w1
| defers_merges w base w1 cs w2 :
    strategy opts = LRebase -> merge_base tip (b_tip b) w = (Ok (Some base), w1) -> commits base (b_tip b) w1 = (Ok cs, w2) ->
    Exists (fun c => length (parents c) <> 1%nat) cs ->
    defers opts regen tip b w (mkDeferred b [] UnsupportedMergeHistory []) w2
| defers_replay w base w1 cs w2 paths subs k w' :
    strategy opts = LRebase -> merge_base tip (b_tip b) w = (Ok (Some base), w1) -> commits base (b_tip b) w1 = (Ok cs, w2) ->
    linear_chain base (b_tip b) cs -> stops tip cs w2 paths subs w' -> conflict_kind regen paths subs k ->
    defers opts regen tip b w (mkDeferred b paths k subs) w'.

(** Every branch of the queue lands or is put off, in order; only one that lands
    moves the tip. *)
Inductive plans (opts : LandOpts) (regen : list string) : string -> W -> list Branch -> string -> list Landed -> list Deferred -> W -> Prop :=
| plans_done tip w : plans opts regen tip w [] tip [] [] w
| plans_land tip w b c w1 bs final landed deferred w' :
    lands opts tip b w c w1 -> plans opts regen c w1 bs final landed deferred w' ->
    plans opts regen tip w (b :: bs) final (mkLanded b c :: landed) deferred w'
| plans_defer tip w b d w1 bs final landed deferred w' :
    defers opts regen tip b w d w1 -> plans opts regen tip w1 bs final landed deferred w' ->
    plans opts regen tip w (b :: bs) final landed (d :: deferred) w'.

Lemma conflict_kind_ok regen paths subs k :
  conflict_kind regen paths subs k <-> k = match subs with [] => classify paths regen | _ => Textual end.
Proof.
  assert (Hr : subs = [] /\ paths <> [] /\ Forall (fun p => is_regenerable p regen = true) paths <->
    match subs with [] => classify paths regen | _ => Textual end = Regenerable).
  { unfold classify. rewrite Forall_forall. destruct subs; [|by split; [intros [? _]|] ].
    destruct (forallb _ paths) eqn:E; rewrite ?andb_true_r, ?andb_false_r.
    - rewrite forallb_forall in E. setoid_rewrite <- list_elem_of_In in E. destruct paths; naive_solver.
    - split; [|done]. intros (_ & _ & H). assert (forallb (fun p => is_regenerable p regen) paths = true); [|congruence].
      apply forallb_forall. intros x. rewrite <- list_elem_of_In. auto. }
  assert (Hu : match subs with [] => classify paths regen | _ => Textual end <> UnsupportedMergeHistory)
    by (unfold classify; destruct subs; [destruct (_ && _)|]; done).
  unfold conflict_kind. cbv zeta. set (kind := match subs with [] => _ | _ => _ end) in *. destruct k.
  - split; [intros H; destruct kind; [done|by destruct H; apply Hr|done]|]. intros E H%Hr. congruence.
  - by rewrite Hr.
  - by split; [|intros E; symmetry in E].
Qed.

Lemma replay_stops cs : forall running w paths subs w',
  replay running cs w = (Ok (ODeferred paths subs), w') <-> stops running cs w paths subs w'.
Proof.
  induction cs as [|x cs IH]; intros running w paths subs w'; cbn [replay]; [by split; [|inversion 1]|]. split.
  - intros (out & w1 & H1 & H2)%bind_Ok. apply git_Ok in H1. destruct out as [t|p|p q].
    + apply bind_Ok in H2 as (r & w2 & H2 & H3). apply git_Ok in H2. apply IH in H3. by eapply stops_later.
    + injection H2 as <- <- <-. by constructor.
    + injection H2 as <- <- <-. by constructor.
  - inversion 1 as [? ? ? ? ? ? H1|? ? ? ? ? ? ? H1|? ? ? ? ? ? ? ? ? ? ? H1 H2 H3]; subst; unfold bind, git; rewrite H1; [done..|].
    rewrite H2. by apply IH.
Qed.

Lemma replay_supported cs : forall running w w', replay running cs w <> (Ok OUnsupported, w').
Proof.
  induction cs as [|x cs IH]; intros running w w'; cbn [replay]; [done|]. intros (out & w1 & _ & H)%bind_Ok.
  destruct out; [|done..]. apply bind_Ok in H as (r & w2 & _ & H). by apply IH in H.
Qed.

Lemma nonlinear_ok cs :
  existsb (fun c => (length (parents c) =? 0)%nat || (1 <? length (parents c))%nat) cs = true <-> Exists (fun c => length (parents c) <> 1%nat) cs.
Proof.
  rewrite existsb_exists, Exists_exists. setoid_rewrite list_elem_of_In. setoid_rewrite orb_true_iff. setoid_rewrite Nat.eqb_eq. setoid_rewrite Nat.ltb_lt.
  split; intros (c & Hc & H); exists c; (split; [done|lia]).
Qed.

Lemma merge_land_out tip b opts sq w o w' :
  merge_land tip b opts sq w = (Ok o, w') <->
  exists out w1, merge_tree tip (b_tip b) w = (Ok out, w1) /\
    match out with
    | Clean tree => exists msg w2 c, land_message tip b opts sq w1 = (Ok msg, w2) /\
        commit_tree tree (if sq then [tip] else [tip; b_tip b]) msg w2 = (Ok c, w') /\ o = OLanded c
    | Conflict paths => o = ODeferred paths [] /\ w1 = w'
    | SubConflict paths subs => o = ODeferred paths subs /\ w1 = w'
    end.
Proof.
  unfold merge_land. split.
  - intros (out & w1 & H1%git_Ok & H2)%bind_Ok. exists out, w1. split; [done|]. destruct out as [t|p|p q].
    + apply bind_Ok in H2 as (m & w2 & H2 & H3). apply bind_Ok in H3 as (c & w3 & H3%git_Ok & [= <- <-]). by exists m, w2, c.
    + by injection H2 as <- <-.
    + by injection H2 as <- <-.
  - intros (out & w1 & H1 & H2). unfold bind, git. rewrite H1. destruct out as [t|p|p q].
    + destruct H2 as (m & w2 & c & H2 & H3 & ->). by rewrite H2, H3.
    + by destruct H2 as [-> ->].
    + by destruct H2 as [-> ->].
Qed.

Lemma rebase_out tip b w o w' :
  rebase_replay tip b w = (Ok o, w') <->
  exists base w1, merge_base tip (b_tip b) w = (Ok base, w1) /\
    match base with
    | None => o = OUnsupported /\ w1 = w'
    | Some base => exists cs w2, commits base (b_tip b) w1 = (Ok cs, w2) /\
        (Exists (fun c => length (parents c) <> 1%nat) cs /\ o = OUnsupported /\ w2 = w' \/
         linear_chain base (b_tip b) cs /\ replay tip cs w2 = (Ok o, w'))
    end.
Proof.
  unfold rebase_replay. split.
  - intros (base & w1 & H1%git_Ok & H)%bind_Ok. exists base, w1. split; [done|]. destruct base as [base|]; [|by injection H as <- <-].
    apply bind_Ok in H as (cs & w2 & H2%git_Ok & H). exists cs, w2. split; [done|]. destruct (existsb _ cs) eqn:E.
    + left. split; [by apply nonlinear_ok|]. by injection H as <- <-.
    + right. destruct (verify_linear_walk _ _ _) as [ []|e] eqn:Ev; [|done]. by apply verify_linear_walk_ok in Ev.
  - intros (base & w1 & H1 & H). unfold bind, git. rewrite H1. destruct base as [base|]; [|by destruct H as [-> ->] ].
    destruct H as (cs & w2 & H2 & [ (E & -> & ->)|[Hc H] ]); rewrite H2.
    + by rewrite (proj2 (nonlinear_ok _) E).
    + by rewrite (linear_chain_single _ _ _ Hc), (proj2 (verify_linear_walk_ok _ _ _) Hc).
Qed.

Lemma fold_one_lands opts tip b w c w' : fold_one tip b opts w = (Ok (OLanded c), w') <-> lands opts tip b w c w'.
Proof.
  unfold fold_one. split.
  - destruct (strategy opts) eqn:Es.
    1,2: intros (out & w1 & H1 & H)%merge_land_out; destruct out; [|naive_solver..]; destruct H as (m & w2 & c' & H2 & H3 & [= <-]);
      by econstructor.
    intros (base & cs & w1 & w2 & ? & ? & ? & ?)%rebase_all_or_nothing. by econstructor.
  - intros [w0 tree w1 msg w2 c' w3 -> H1 H2 H3|w0 tree w1 msg w2 c' w3 -> H1 H2 H3|w0 base w1 cs w2 c' w3 -> H1 H2 H3 H4].
    1,2: apply merge_land_out; exists (Clean tree), w1; split; [done|]; by exists msg, w2, c'.
    apply rebase_all_or_nothing. by exists base, cs, w1, w2.
Qed.

Lemma fold_one_defers opts regen tip b w d w' :
  (exists o, fold_one tip b opts w = (Ok o, w') /\ deferred_of b regen o = Some d) <-> defers opts regen tip b w d w'.
Proof.
  unfold fold_one. split.
  - intros (o & H & Hd). destruct o as [c|paths subs|]; [done| |]; injection Hd as <-.
    + destruct (strategy opts) eqn:Es.
      1,2: apply merge_land_out in H as (out & w1 & H1 & H); destruct out; [naive_solver| |]; destruct H as [ [= -> ->] ->];
        [eapply defers_conflict|eapply defers_submodule]; try done; try congruence; by apply conflict_kind_ok.
      apply rebase_out in H as (base & w1 & H1 & H). destruct base as [base|]; [|naive_solver].
      destruct H as (cs & w2 & H2 & [ (_ & ? & _)|[Hc H] ]); [done|]. eapply defers_replay; try done; [by apply replay_stops|by apply conflict_kind_ok].
    + destruct (strategy opts) eqn:Es.
      1,2: apply merge_land_out in H as (out & w1 & H1 & H); destruct out; naive_solver.
      apply rebase_out in H as (base & w1 & H1 & H). destruct base as [base|]; [|destruct H as [_ <-]; by eapply defers_unrelated].
      destruct H as (cs & w2 & H2 & [ (E & _ & <-)|[Hc H] ]); [by eapply defers_merges|by apply replay_supported in H].
  - destruct 1 as [w paths k w1 Hs H1 Hk|w paths subs k w1 Hs H1 Hk|w w1 Hs H1|w base w1 cs w2 Hs H1 H2 E|w base w1 cs w2 paths subs k w' Hs H1 H2 Hc Hr Hk].
    + exists (ODeferred paths []). split; [|simpl; apply conflict_kind_ok in Hk; by rewrite Hk].
      destruct (strategy opts); [..|done]; apply merge_land_out; by exists (Conflict paths), w1.
    + exists (ODeferred paths subs). split; [|simpl; apply conflict_kind_ok in Hk; by rewrite Hk].
      destruct (strategy opts); [..|done]; apply merge_land_out; by exists (SubConflict paths subs), w1.
    + exists OUnsupported. rewrite Hs. split; [|done]. apply rebase_out. by exists None, w1.
    + exists OUnsupported. rewrite Hs. split; [|done]. apply rebase_out. exists (Some base), w1. split; [done|]. exists cs, w2. split; [done|]. by left.
    + exists (ODeferred paths subs). rewrite Hs. split; [|simpl; apply conflict_kind_ok in Hk; by rewrite Hk].
      apply rebase_out. exists (Some base), w1. split; [done|]. exists cs, w2. split; [done|]. right. split; [done|]. by apply replay_stops.
Qed.

Lemma folds_plans opts regen bs : forall tip w final landed deferred w',
  (exists outs, outs.*1 = bs /\ folds opts tip w outs final w' /\
    landed = omap landed_of outs /\ deferred = omap (fun bo => deferred_of (fst bo) regen (snd bo)) outs) <->
  plans opts regen tip w bs final landed deferred w'.
Proof.
  induction bs as [|b bs IH]; intros tip w final landed deferred w'; split.
  - intros ([|] & E & H & -> & ->); [|done]. inversion H; subst. constructor.
  - inversion 1; subst. exists []. by repeat constructor.
  - intros ([|[b' o] outs] & E & H & -> & ->); [done|]. injection E as -> E. inversion H as [|? ? ? ? w1 ? ? ? H1 H2]; subst.
    destruct o as [c|paths subs|]; csimpl.
    + eapply plans_land; [by apply fold_one_lands|]. apply IH. by exists outs.
    + eapply plans_defer; [apply fold_one_defers; by eexists|]. apply IH. by exists outs.
    + eapply plans_defer; [apply fold_one_defers; by eexists|]. apply IH. by exists outs.
  - inversion 1 as [|? ? ? c w1 ? ? la de ? H1 H2|? ? ? d w1 ? ? la de ? H1 H2]; subst.
    + apply IH in H2 as (outs & <- & H2 & -> & ->). apply fold_one_lands in H1. exists ((b, OLanded c) :: outs). split; [done|].
      split; [by econstructor|done].
    + apply IH in H2 as (outs & <- & H2 & -> & ->). apply fold_one_defers in H1 as (o & H1 & Hd). exists ((b, o) :: outs). split; [done|].
      split; [econstructor; [done|]; by destruct o|]. csimpl. rewrite Hd. by destruct o.
Qed.

Lemma defers_branch opts regen tip b w d w' : defers opts regen tip b w d w' -> d_branch d = b.
Proof. by destruct 1. Qed.

Lemma plans_all opts regen tip w bs final landed deferred w' :
  plans opts regen tip w bs final landed deferred w' ->
  l_branch <$> landed `sublist_of` bs /\ d_branch <$> deferred `sublist_of` bs /\ (l_branch <$> landed) ++ (d_branch <$> deferred) ≡ₚ bs /\
  final = default tip (l_commit <$> last landed).
Proof.
  induction 1 as [|tip w b c w1 bs final landed deferred w' H1 H2 (IH1 & IH2 & IH3 & IH4)|tip w b d w1 bs final landed deferred w' H1 H2 (IH1 & IH2 & IH3 & IH4)];
    csimpl; [done|..].
  - split_and!; [by constructor|by constructor|by rewrite IH3|]. rewrite IH4. destruct landed as [|l landed]; [done|]. rewrite last_cons_cons. by destruct (last (l :: landed)) eqn:E; [|by apply last_None in E].
  - rewrite (defers_branch _ _ _ _ _ _ _ H1). split_and!; [by constructor|by constructor| |done]. by rewrite <- Permutation_middle, IH3.
Qed.

(** C17. The fold computes the plan of the queue: it returns a plan exactly when the
    branches can be taken one after the other, each landed on the tip the landed
    ones before it left - by a merge commit, a squash commit or the replay of its
    whole linear chain - or put off for the conflict it ran into or a history that
    cannot be replayed, without moving the tip.  Every branch of the queue is then
    in exactly one of the two lists of the plan, each in queue order, and the final
    tip is that of the last landed branch. *)
Theorem fold_refines (start : string) (bs : list Branch) (regen : list string) (opts : LandOpts)
    (w : W) (plan : FoldPlan) (w' : W) :
  (fold start bs regen opts w = (Ok plan, w') <->
   fp_original plan = start /\ plans opts regen start w bs (fp_final_tip plan) (fp_landed plan) (fp_deferred plan) w') /\
  (fold start bs regen opts w = (Ok plan, w') ->
   l_branch <$> fp_landed plan `sublist_of` bs /\ d_branch <$> fp_deferred plan `sublist_of` bs /\
   (l_branch <$> fp_landed plan) ++ (d_branch <$> fp_deferred plan) ≡ₚ bs /\
   fp_final_tip plan = default start (l_commit <$> last (fp_landed plan))).
Proof.
  assert (Hiff : fold start bs regen opts w = (Ok plan, w') <->
    fp_original plan = start /\ plans opts regen start w bs (fp_final_tip plan) (fp_landed plan) (fp_deferred plan) w').
  { rewrite fold_spec, <- folds_plans. destruct plan as [o f la de]; simpl. unfold plan_of. naive_solver. }
  split; [done|]. intros [_ H]%Hiff. by eapply plans_all.
Qed.
End Refinement.

(** ** A small object database *)

(** Commits with their parents, the newest last; every merge is clean except
    with the branch [clash]. *)
Definition Db : Type := list (string * list string).

Definition db_commit (ps : list string) (w : Db) : result string string * Db :=
  let c := ("c" ++ fmt_N (N.of_nat (length w)))%string in (Ok c, w ++ [(c, ps)]).

Definition db_merge (theirs : string) : MergeOutcome :=
  if String.eqb theirs "clash" then Conflict ["f.txt"] else Clean "tree".

#[local] Instance Db_FoldGit : FoldGit Db string := {|
  merge_tree _ theirs w := (Ok (db_merge theirs), w);
  commit_tree _ ps _ w := db_commit ps w;
  merge_tree_base _ _ theirs w := (Ok (db_merge theirs), w);
  commit_tree_author _ ps _ _ w := db_commit ps w;
  merge_base a _ w := (Ok (Some a), w);
  commits _ _ w := (Ok [], w);
|}.

Definition db_parent (w : Db) (a c : string) : Prop := exists ps, (c, ps) ∈ w /\ a ∈ ps.

Lemma db_commit_keeps ps w r w' :
  db_commit ps w = (r, w') -> forall a b, rtc (db_parent w) a b -> rtc (db_parent w') a b.
Proof.
  intros [= _ <-] a b. apply rtc_subrel. intros x y (qs & H1 & H2).
  exists qs. split; [apply elem_of_app; by left|done].
Qed.

Lemma db_commit_parents ps w c w' :
  db_commit ps w = (Ok c, w') -> forall p, p ∈ ps -> rtc (db_parent w') p c.
Proof.
  intros [= <- <-] p Hp. apply rtc_once. exists ps. split; [|done].
  apply elem_of_app. right. by left.
Qed.

#[local] Instance Db_laws : FoldGitLaws (W := Db) (GE := string).
Proof.
  refine {| ancestor w := rtc (db_parent w) |}.
  - intros. apply rtc_refl.
  - intros w a b c H1 H2. by etrans.
  - intros t ps m w c w'. apply db_commit_parents.
  - intros t ps m au w c w'. apply db_commit_parents.
  - by intros x y w r w' [= _ <-].
  - intros t ps m w r w'. apply db_commit_keeps.
  - by intros x y z w r w' [= _ <-].
  - intros t ps m au w r w'. apply db_commit_keeps.
  - by intros x y w r w' [= _ <-].
  - by intros x y w r w' [= _ <-].
Defined.

Definition three : list Branch := [mkBranch "a" "ta"; mkBranch "b" "clash"; mkBranch "c" "tc"].

Lemma fold_descends_witness :
  exists plan w', fold (W := Db) (GE := string) "main" three [] merge_default [] = (Ok plan, w') /\
    length (fp_landed plan) = 2%nat /\ length (fp_deferred plan) = 1%nat /\
    ancestor (FoldGitLaws := Db_laws) w' "main" (fp_final_tip plan) /\
    ancestor w' "tc" (fp_final_tip plan).
Proof.
  eexists (mkFoldPlan _ _ _ _), _. split; [vm_compute; reflexivity|].
  split; [done|]. split; [done|].
  destruct (fold_descends (GL := Db_laws) "main" three [] merge_default []
    (mkFoldPlan "main" "c1" [mkLanded (mkBranch "a" "ta") "c0"; mkLanded (mkBranch "c" "tc") "c1"]
       [mkDeferred (mkBranch "b" "clash") ["f.txt"] Textual []])
    [("c0", ["main"; "ta"]); ("c1", ["c0"; "tc"])]) as [H1 H2]; [by vm_compute|].
  split; [exact H1|]. apply (H2 (mkLanded (mkBranch "c" "tc") "c1")); [|done].
  right. by left.
Defined.
