(* ===== verification/Pipeline.v ===== *)
(** * Pipeline facts: requirements, approvals and validation classes

    The vocabulary the pipeline's decisions are made of: the requirements a
    stage declares (config_pipeline.rs), whether an approval still covers the
    tree at hand (pipeline_approval.rs), and what a validation run established
    (pipeline_validate.rs, with [classify_exit] of gate.rs).  The supervisor
    built on them is in [Supervise], the reaper in [Reap]. *)
From Stdlib Require Import Ascii String.
From S2P Require Import Prelude RustStr.
Local Open Scope string_scope.
Local Open Scope list_scope.

(** ** Widths *)

Definition i64_sat (z : Z) : Z := Z.max i64_min (Z.min i64_max z).

(** ** Stages and requirements *)

Inductive AgentDispatchStatus :=
| Queued | Spawning | Running | WaitingHuman | PrOpen | Merged | Abandoned | Done | Failed
| StatusUnknown.

Global Instance AgentDispatchStatus_eq_dec : EqDecision AgentDispatchStatus.
Proof. solve_decision. Defined.

Inductive Requirement := ParentArtifact | ParentReport | ValidationGreen | ApprovalReq.

Global Instance Requirement_eq_dec : EqDecision Requirement.
Proof. solve_decision. Defined.

Definition ALL : list Requirement := [ParentArtifact; ParentReport; ValidationGreen; ApprovalReq].

Definition Requirement_as_str (r : Requirement) : string :=
  match r with
  | ParentArtifact => "parent_artifact"
  | ParentReport => "parent_report"
  | ValidationGreen => "validation:green"
  | ApprovalReq => "approval"
  end.

Definition Requirement_parse (s : string) : option Requirement :=
  List.find (fun r => String.eqb (Requirement_as_str r) (trim s)) ALL.

Inductive OnBlocked := Park | EscalateBlocked | Abandon.

Record PipelineStage := mkPipelineStage {
  name : string;
  agent : string;
  prompt : string;
  concurrency : N;
  timeout_secs : N;
  next : option string;
  on_blocked : OnBlocked;
  harness : option string;
  model : option string;
  env : gmap string string;
  permissions : list string;
  validate : list string;
  requires : list string;
}.

Definition parsed_requires (s : PipelineStage) : list Requirement :=
  omap Requirement_parse (requires s).

Definition validate_tasks (s : PipelineStage) : list string :=
  List.filter (fun t => negb (is_empty t)) (trim <$> validate s).

Definition next_name (s : PipelineStage) : option string :=
  match next s with
  | Some n => if is_empty (trim n) then None else Some (trim n)
  | None => None
  end.

Record Supervisor := mkSupervisor {
  enabled : bool;
  validate_on_exit : bool;
  advance : bool;
  land : bool;
  approval_ttl_secs : N;
  max_validations : N;
  land_requires : list string;
}.

Definition Supervisor_default : Supervisor :=
  mkSupervisor false true true true 86400 1 [Requirement_as_str ApprovalReq].

Definition parsed_land_requires (s : Supervisor) : list Requirement :=
  omap Requirement_parse (land_requires s).

Record TransportRetry := mkTransportRetry {
  tr_enabled : bool;
  max_attempts : N;
  backoff_ms : N;
  transport_signatures : list string;
  limit_signatures : list string;
}.

Record Pipeline := mkPipeline {
  stages : list PipelineStage;
  transport_retry : TransportRetry;
  supervisor : Supervisor;
}.

Definition stage_of (p : Pipeline) (n : string) : option PipelineStage :=
  List.find (fun s => String.eqb (trim (name s)) (trim n)) (stages p).

(** ** Approvals *)

Definition MIN_SHA_PREFIX : nat := 7.

Record Approval := mkApproval {
  a_issue_id : string;
  a_stage : string;
  a_commit_sha : string;
  approver : string;
  a_note : option string;
  granted_at_ms : Z;
  expires_at_ms : option Z;
  revoked_at_ms : option Z;
}.

Inductive ApprovalState :=
| Live
| Absent
| Revoked (at_ms : Z)
| Superseded (approved head : string)
| Expired (deadline_ms : Z)
| Malformed (why : string).

Definition is_live (s : ApprovalState) : bool := match s with Live => true | _ => false end.

Definition deadline_ms (a : Approval) (ttl_secs : N) : option Z :=
  let from_ttl :=
    if (0 <? ttl_secs)%N then
      let secs := Z.min (Z.of_N ttl_secs) i64_max in
      Some (i64_sat (granted_at_ms a + i64_sat (secs * 1000)))
    else None in
  match expires_at_ms a, from_ttl with
  | Some x, Some y => Some (Z.min x y)
  | Some x, None => Some x
  | None, y => y
  end.

(** [zip] stops at the shorter of the two; the comparison is by characters, so
    on UTF-8 by bytes. *)
Fixpoint zip_eq_ignore_case (l s : string) : bool :=
  match l, s with
  | String x l, String y s => Ascii.eqb (to_lower x) (to_lower y) && zip_eq_ignore_case l s
  | _, _ => true
  end.

Definition same_commit (a b : string) : bool :=
  let '(short, long) :=
    if (String.length a <=? String.length b)%nat then (a, b) else (b, a) in
  (String.length short <=? String.length long)%nat && zip_eq_ignore_case long short.

Definition state_for (approval : option Approval) (head_sha : string) (now_ms : Z) (ttl_secs : N)
    : ApprovalState :=
  match approval with
  | None => Absent
  | Some a =>
      match revoked_at_ms a with
      | Some at_ms => Revoked at_ms
      | None =>
          let approved := trim (a_commit_sha a) in
          let head := trim head_sha in
          if (String.length approved <? MIN_SHA_PREFIX)%nat
          then Malformed "the approved commit is empty or too short to identify a tree"
          else if (String.length head <? MIN_SHA_PREFIX)%nat
          then Malformed "the lane's head commit is empty or too short to identify a tree"
          else if negb (same_commit approved head) then Superseded approved head
          else match deadline_ms a ttl_secs with
               | Some deadline => if (deadline <? now_ms)%Z then Expired deadline else Live
               | None => Live
               end
      end
  end.

(** ** Validation classes *)

Inductive GateClass := Passed | GateFailed | GateError.

Definition classify_exit (code : option Z) (spawn_failed : bool) : GateClass :=
  if spawn_failed then GateError
  else match code with
       | None => GateError
       | Some c =>
           if (c =? 0)%Z then Passed
           else if (c =? 127)%Z || (c =? 126)%Z then GateError
           else GateFailed
       end.

Inductive ValidationClass :=
| Green | CompileError | TestFailure | LintFinding | Inconclusive | EnvironmentError.

Global Instance ValidationClass_eq_dec : EqDecision ValidationClass.
Proof. solve_decision. Defined.

Definition ValidationClass_as_str (c : ValidationClass) : string :=
  match c with
  | Green => "green"
  | CompileError => "compile-error"
  | TestFailure => "test-failure"
  | LintFinding => "lint-finding"
  | Inconclusive => "inconclusive"
  | EnvironmentError => "environment-error"
  end.

Definition ValidationClass_parse (s : string) : ValidationClass :=
  let s := trim s in
  if String.eqb s "green" then Green
  else if String.eqb s "compile-error" then CompileError
  else if String.eqb s "test-failure" then TestFailure
  else if String.eqb s "lint-finding" then LintFinding
  else if String.eqb s "environment-error" then EnvironmentError
  else Inconclusive.

Definition is_green (c : ValidationClass) : bool := match c with Green => true | _ => false end.

Definition blames_code (c : ValidationClass) : bool :=
  match c with CompileError | TestFailure | LintFinding => true | _ => false end.

Definition is_retryable (c : ValidationClass) : bool :=
  match c with EnvironmentError | Inconclusive => true | _ => false end.

Definition tab : string := String "009" "".
Definition nl : string := String "010" "".

Definition COMPILE_MARKERS : list string :=
  ["error[E"; "could not compile"; "[build failed]"; "typecheck failed"; "error TS";
   "SyntaxError:"; "IndentationError:"; "COMPILATION ERROR"; "compilation failed";
   "compilation terminated"; "ninja: build stopped"].

Definition GENERIC_TEST_MARKERS : list string :=
  ["test result: FAILED"; "--- FAIL:"; "FAILED "; "not ok "; "assertion failed";
   "AssertionError"; "tests failed"; "test failed"; "panicked at"].

Definition one_of (s : string) (l : list string) : bool := existsb (String.eqb s) l.

Definition test_failure_markers (matcher : option string) : list string :=
  let m := trim (default "" matcher) in
  if one_of m ["nextest"] then ["FAIL ["; "test run failed"; " failed,"]
  else if one_of m ["cargo-test"; "libtest-json"] then ["test result: FAILED"; "panicked at"]
  else if one_of m ["go-test"] then ["--- FAIL:"; ("FAIL" ++ tab)%string; (nl ++ "FAIL")%string]
  else if one_of m ["pytest"] then ["FAILED "; "=== FAILURES ==="; " failed,"; " failed in "]
  else if one_of m ["jest"; "vitest"; "javascript"] then ["✕ "; "●  "; " failed,"]
  else if one_of m ["rspec"; "ruby"]
  then [("Failures:" ++ nl)%string; (nl ++ "Failures:")%string]
  else if one_of m ["junit"; "gradle"; "maven"]
  then ["FAILURES!"; "There were failing tests"; "<<< FAILURE!"; "<<< ERROR!"; "Failed tests:"]
  else if one_of m ["dotnet"; "trx"; "nunit"] then ["Failed!"; "Failed  -"]
  else if one_of m ["tap"; "bats"; "prove"; "busted"; "pgtap"] then ["not ok "; "# failed"]
  else if one_of m ["elixir"] then ["Assertion with"; "** ("; ") test "; ") doctest "]
  else if one_of m ["zig"] then ["error: 'test."; " tests failed"]
  else GENERIC_TEST_MARKERS.

Definition LINT_TASK_MARKERS : list string :=
  ["warning: "; "warning "; "error: "; "✖ "; " problems ("; "^-- SC"].

Definition LINT_MARKERS : list string :=
  ["-D warnings"; "denied by"; "`#[deny("; "✖ "; " problems ("; " [*] "; "flake8"; "level=error";
   "golangci-lint"; "^-- SC"].

Definition lint_markers (matcher : option string) : list string :=
  if one_of (trim (default "" matcher))
       ["clippy"; "eslint"; "biome"; "oxlint"; "ruff"; "flake8"; "pylint"; "shellcheck";
        "golangci-lint"; "staticcheck"; "vet"; "rubocop"; "swiftlint"]
  then LINT_TASK_MARKERS else LINT_MARKERS.

Definition contains_any (output : string) (markers : list string) : bool :=
  existsb (fun m => contains m output) markers.

Definition classify (exit : option Z) (spawn_failed : bool) (matcher : option string)
    (output : string) : ValidationClass :=
  match classify_exit exit spawn_failed with
  | GateError => EnvironmentError
  | Passed => Green
  | GateFailed =>
      if contains_any output COMPILE_MARKERS then CompileError
      else if contains_any output (test_failure_markers matcher) then TestFailure
      else if contains_any output (lint_markers matcher) then LintFinding
      else Inconclusive
  end.

(** ** When an approval holds *)

Lemma zip_eq_sym a b : zip_eq_ignore_case a b = zip_eq_ignore_case b a.
Proof.
  revert b. induction a as [|x a IH]; intros [|y b]; simpl; try done.
  by rewrite Ascii.eqb_sym, IH.
Qed.

(** Neither length matters: the texts agree as far as both go. *)
Lemma same_commit_zip a b : same_commit a b = zip_eq_ignore_case a b.
Proof.
  unfold same_commit. destruct (Nat.leb_spec (String.length a) (String.length b)) as [H|H].
  - rewrite (proj2 (Nat.leb_le _ _) H). simpl. apply zip_eq_sym.
  - rewrite (proj2 (Nat.leb_le (String.length b) (String.length a))) by lia. done.
Qed.

(** What a live approval establishes. *)
Definition covers (a : Approval) (head_sha : string) (now_ms : Z) (ttl_secs : N) : Prop :=
  revoked_at_ms a = None /\
  (MIN_SHA_PREFIX <= String.length (trim (a_commit_sha a)))%nat /\
  (MIN_SHA_PREFIX <= String.length (trim head_sha))%nat /\
  zip_eq_ignore_case (trim (a_commit_sha a)) (trim head_sha) = true /\
  (forall e, expires_at_ms a = Some e -> (now_ms <= e)%Z) /\
  ((0 < ttl_secs)%N ->
     (now_ms <= i64_sat (granted_at_ms a + i64_sat (Z.min (Z.of_N ttl_secs) i64_max * 1000)))%Z).

Lemma deadline_spec a ttl now :
  match deadline_ms a ttl with Some d => (now <= d)%Z | None => True end <->
  (forall e, expires_at_ms a = Some e -> (now <= e)%Z) /\
  ((0 < ttl)%N ->
     (now <= i64_sat (granted_at_ms a + i64_sat (Z.min (Z.of_N ttl) i64_max * 1000)))%Z).
Proof.
  unfold deadline_ms. destruct (N.ltb_spec 0 ttl), (expires_at_ms a) as [e|]; split;
    try (intros [H1 H2]; try specialize (H1 e eq_refl); try specialize (H2 ltac:(lia)); lia);
    intros Hd; (split; [intros ? [=]; subst; lia|lia]).
Qed.

(** An approval authorises work on a tree exactly when one is on record that
    was never withdrawn, names that very commit (by at least seven characters),
    and has passed neither its own deadline nor the configured age. *)
Theorem approval_live_iff (approval : option Approval) (head_sha : string) (now_ms : Z)
    (ttl_secs : N) :
  is_live (state_for approval head_sha now_ms ttl_secs) = true <->
  exists a, approval = Some a /\ covers a head_sha now_ms ttl_secs.
Proof.
  destruct approval as [a|]; simpl; [|split; [done|by intros (? & ? & _)] ].
  transitivity (covers a head_sha now_ms ttl_secs); [|by split; [eauto|intros (? & [= <-] & ?)] ].
  unfold covers. rewrite <- deadline_spec.
  destruct (revoked_at_ms a) as [t|]; [by split; [|intros [ [=] _] ]|].
  destruct (Nat.ltb_spec (String.length (trim (a_commit_sha a))) MIN_SHA_PREFIX) as [H1|H1];
    [split; [done|lia]|].
  destruct (Nat.ltb_spec (String.length (trim head_sha)) MIN_SHA_PREFIX) as [H2|H2];
    [split; [done|lia]|].
  rewrite same_commit_zip. destruct (zip_eq_ignore_case _ _); simpl; [|naive_solver].
  destruct (deadline_ms a ttl_secs) as [d|]; [|naive_solver].
  destruct (Z.ltb_spec d now_ms); simpl; split; naive_solver lia.
Qed.

(** ** What a validation run establishes *)

(** A run is green exactly when the command ran and succeeded, and blames
    the code only when it ran and failed by itself: a spawn failure, a signal
    or the shell's 126 and 127 never count as a verdict about the branch,
    whatever was printed. *)
Theorem classify_blame (exit : option Z) (spawn_failed : bool) (matcher : option string)
    (output : string) :
  let c := classify exit spawn_failed matcher output in
  (is_green c = true <-> spawn_failed = false /\ exit = Some 0%Z) /\
  (c = EnvironmentError <->
     spawn_failed = true \/ exit = None \/ exit = Some 126%Z \/ exit = Some 127%Z) /\
  (blames_code c = true ->
     spawn_failed = false /\ exists n, exit = Some n /\ n <> 0%Z /\ n <> 126%Z /\ n <> 127%Z).
Proof.
  unfold classify, classify_exit. destruct spawn_failed; [naive_solver|].
  destruct exit as [n|]; [|naive_solver].
  destruct (Z.eqb_spec n 0); [subst; naive_solver|].
  destruct (Z.eqb_spec n 127); [subst; naive_solver|].
  destruct (Z.eqb_spec n 126); [subst; naive_solver|]. simpl.
  repeat case_match; simpl; split_and!; naive_solver.
Qed.

(** A failing test run that ends in `error: test run failed` is not a build
    break. *)
Example nextest_is_not_compile :
  classify (Some 100%Z) false (Some "nextest") "error: test run failed" = TestFailure /\
  classify (Some 101%Z) false (Some "nextest") "error[E0308]: mismatched types" = CompileError /\
  classify (Some 1%Z) false None "9322 tests run: 9322 passed" = Inconclusive.
Proof. by vm_compute. Qed.
