(* ===== verification/Supervise.v ===== *)
(** * The pipeline supervisor

    pipeline_supervise.rs: what, if anything, may be done about each lane of
    the pipeline without anybody watching, and [record_validation] of
    db_pipeline_supervise.rs, which stores what a validation run established.
    The table of records of one roster row is the list the planner reads,
    newest first. *)
From Stdlib Require Import Ascii String.
From S2P Require Import Prelude RustStr Pipeline.
Local Open Scope string_scope.
Local Open Scope list_scope.

Definition MAX_VALIDATION_ATTEMPTS : N := 2.

Record ValidationRecord := mkValidationRecord {
  v_task : string;
  v_class : ValidationClass;
  v_commit_sha : string;
  attempts : N;
}.

Record LaneFacts := mkLaneFacts {
  row : Z;
  issue_id : string;
  stage : string;
  status : AgentDispatchStatus;
  worker_live : bool;
  head_sha : string;
  merged_into_target : bool;
  enqueued : bool;
  artifact_tracked : bool;
  report_present : bool;
  validations : list ValidationRecord;
  approval : option Approval;
  child_stages : list string;
}.

Inductive EscalationReason :=
| ValidationFailed (task : string) (class : ValidationClass)
| ValidationUnresolved (task : string) (class : ValidationClass)
| AwaitingApproval (stage commit_sha : string)
| HandoffIncomplete (missing : Requirement)
| ValidationNotPermitted (stage : string)
| StageMissing (name : string).

Definition wants_primary (r : EscalationReason) : bool :=
  match r with AwaitingApproval _ _ => true | _ => false end.

(** [Authorization] is its list of requirements. *)
Inductive SuperviseAction :=
| Validate (row : Z) (tasks : list string) (commit_sha : string)
| Advance (row : Z) (next_stage : string) (authorized_by : list Requirement)
| Enqueue (row : Z) (commit_sha : string) (authorized_by : list Requirement)
| Escalate (row : Z) (why : EscalationReason)
| Hold (row : Z) (why : string).

Definition action_row (a : SuperviseAction) : Z :=
  match a with
  | Validate row _ _ | Advance row _ _ | Enqueue row _ _ | Escalate row _ | Hold row _ => row
  end.

Definition is_mutating (a : SuperviseAction) : bool :=
  match a with Advance _ _ _ | Enqueue _ _ _ => true | _ => false end.

(** ** Validation *)

Definition commit_matches (a b : string) : bool :=
  let a := trim a in
  let b := trim b in
  if (String.length a <? MIN_SHA_PREFIX)%nat || (String.length b <? MIN_SHA_PREFIX)%nat
  then false
  else eq_ignore_case a b.

Inductive ValidationState :=
| Owed (tasks : list string)
| VFailed (task : string) (class : ValidationClass)
| Unresolved (task : string) (class : ValidationClass)
| AllGreen.

Definition current_record (lane : LaneFacts) (task : string) : option ValidationRecord :=
  List.find (fun v => String.eqb (v_task v) task && commit_matches (v_commit_sha v) (head_sha lane))
    (validations lane).

Fixpoint validation_go (lane : LaneFacts) (owed declared : list string) : ValidationState :=
  match declared with
  | [] => match owed with [] => AllGreen | _ => Owed owed end
  | task :: declared =>
      match current_record lane task with
      | None => validation_go lane (owed ++ [task]) declared
      | Some v =>
          if is_green (v_class v) then validation_go lane owed declared
          else if blames_code (v_class v) then VFailed (v_task v) (v_class v)
          else if (attempts v <? MAX_VALIDATION_ATTEMPTS)%N
          then validation_go lane (owed ++ [v_task v]) declared
          else Unresolved (v_task v) (v_class v)
      end
  end.

Definition validation_state (lane : LaneFacts) (declared : list string) : ValidationState :=
  validation_go lane [] declared.

(** ** Requirements *)

Definition unmet (lane : LaneFacts) (req : Requirement) (sup : Supervisor) : EscalationReason :=
  match req with
  | ApprovalReq => AwaitingApproval (stage lane) (head_sha lane)
  | ValidationGreen =>
      if negb (validate_on_exit sup) then ValidationNotPermitted (stage lane)
      else HandoffIncomplete ValidationGreen
  | other => HandoffIncomplete other
  end.

Definition satisfied (lane : LaneFacts) (declared : list string) (sup : Supervisor) (now_ms : Z)
    (req : Requirement) : bool :=
  match req with
  | ParentArtifact => artifact_tracked lane
  | ParentReport => report_present lane
  | ValidationGreen => match validation_state lane declared with AllGreen => true | _ => false end
  | ApprovalReq => is_live (state_for (approval lane) (head_sha lane) now_ms (approval_ttl_secs sup))
  end.

Fixpoint check_go (lane : LaneFacts) (required : list Requirement) (declared : list string)
    (sup : Supervisor) (now_ms : Z) (met reqs : list Requirement)
    : result EscalationReason (list Requirement) :=
  match reqs with
  | [] => Ok met
  | req :: reqs =>
      if negb (bool_decide (req ∈ required)) then check_go lane required declared sup now_ms met reqs
      else if negb (satisfied lane declared sup now_ms req) then Err (unmet lane req sup)
      else check_go lane required declared sup now_ms (met ++ [req]) reqs
  end.

Definition check (lane : LaneFacts) (required : list Requirement) (declared : list string)
    (sup : Supervisor) (now_ms : Z) : result EscalationReason (list Requirement) :=
  check_go lane required declared sup now_ms [] ALL.

(** ** The plan *)

Definition hold (row : Z) (why : string) : SuperviseAction := Hold row why.

(** Where the lane goes next, once its validation is settled. *)
Definition plan_next (lane : LaneFacts) (st : PipelineStage) (pipeline : Pipeline)
    (sup : Supervisor) (now_ms : Z) : SuperviseAction :=
  match next_name st with
  | Some nxt =>
      match stage_of pipeline nxt with
      | None => Escalate (row lane) (StageMissing nxt)
      | Some next =>
          if existsb (fun c => String.eqb c nxt) (child_stages lane)
          then hold (row lane) "the next stage has already been dispatched"
          else if negb (bool_decide (status lane = Done))
          then hold (row lane) "the stage is not closed yet, so nothing follows it"
          else if negb (advance sup)
          then hold (row lane) "advancing is switched off in [pipeline.supervisor]"
          else match check lane (parsed_requires next) (validate_tasks st) sup now_ms with
               | Ok authorized_by => Advance (row lane) nxt authorized_by
               | Err why => Escalate (row lane) why
               end
      end
  | None =>
      if enqueued lane then hold (row lane) "the lane is already on the merge queue"
      else if negb (bool_decide (status lane = Done))
      then hold (row lane) "the stage is not closed yet, so nothing follows it"
      else if negb (land sup)
      then hold (row lane) "landing is switched off in [pipeline.supervisor]"
      else match check lane (parsed_land_requires sup) (validate_tasks st) sup now_ms with
           | Ok authorized_by => Enqueue (row lane) (head_sha lane) authorized_by
           | Err why => Escalate (row lane) why
           end
  end.

Definition plan_one (lane : LaneFacts) (pipeline : Pipeline) (sup : Supervisor) (now_ms : Z)
    : SuperviseAction :=
  if merged_into_target lane then hold (row lane) "already merged into the target branch"
  else if worker_live lane then hold (row lane) "a worker may still be running here"
  else if (String.length (trim (head_sha lane)) <? MIN_SHA_PREFIX)%nat
  then hold (row lane)
    "the lane's head commit cannot be resolved (its worktree is gone or has no commits)"
  else if match status lane with Failed | Abandoned | Merged => true | _ => false end
  then hold (row lane) "the row already reached a terminal state"
  else
    match stage_of pipeline (stage lane) with
    | None => hold (row lane) "the row's stage is not in the configured chart"
    | Some st =>
        if validate_on_exit sup then
          match validation_state lane (validate_tasks st) with
          | Owed tasks => Validate (row lane) tasks (head_sha lane)
          | VFailed task class => Escalate (row lane) (ValidationFailed task class)
          | Unresolved task class => Escalate (row lane) (ValidationUnresolved task class)
          | AllGreen => plan_next lane st pipeline sup now_ms
          end
        else plan_next lane st pipeline sup now_ms
    end.

Definition plan (lanes : list LaneFacts) (pipeline : Pipeline) (sup : Supervisor) (now_ms : Z)
    : list SuperviseAction :=
  (fun lane => plan_one lane pipeline sup now_ms) <$> lanes.

(** ** Recording a run *)

Definition u32_sat_add (a b : N) : N := N.min (a + b) u32_max.

(** The row's record for the task and commit, exactly as stored, is replaced;
    its attempts go up by one.  The new record is the newest. *)
Definition same_key (task commit : string) (v : ValidationRecord) : bool :=
  String.eqb (v_task v) task && String.eqb (v_commit_sha v) commit.

Definition record_validation (task commit : string) (class : ValidationClass)
    (vs : list ValidationRecord) : list ValidationRecord :=
  let existing := attempts <$> List.find (same_key task commit) vs in
  mkValidationRecord task class commit (u32_sat_add (default 0%N existing) 1) ::
    List.filter (fun v => negb (same_key task commit v)) vs.

(** ** What the recorded facts say *)

Definition green_at (lane : LaneFacts) (task : string) : Prop :=
  exists v, current_record lane task = Some v /\ v_class v = Green.

Definition met (lane : LaneFacts) (declared : list string) (sup : Supervisor) (now_ms : Z)
    (req : Requirement) : Prop :=
  match req with
  | ParentArtifact => artifact_tracked lane = true
  | ParentReport => report_present lane = true
  | ValidationGreen => Forall (green_at lane) declared
  | ApprovalReq =>
      exists a, approval lane = Some a /\
        covers a (head_sha lane) now_ms (approval_ttl_secs sup)
  end.

Lemma is_green_iff c : is_green c = true <-> c = Green.
Proof. by destruct c. Qed.

Lemma validation_go_green lane owed declared :
  validation_go lane owed declared = AllGreen <-> owed = [] /\ Forall (green_at lane) declared.
Proof.
  revert owed. induction declared as [|t ts IH]; intros owed; simpl.
  - destruct owed; naive_solver.
  - rewrite Forall_cons. unfold green_at at 1.
    destruct (current_record lane t) as [v|].
    + destruct (is_green (v_class v)) eqn:Eg.
      * rewrite IH. apply is_green_iff in Eg. naive_solver.
      * assert (v_class v <> Green) as Hn by (by intros Hg%is_green_iff; congruence).
        destruct (blames_code _); [naive_solver|]. destruct (_ <? _)%N; [|naive_solver].
        rewrite IH. split; [by intros [?%app_nil _]; naive_solver|naive_solver].
    + rewrite IH. split; [by intros [?%app_nil _]; naive_solver|naive_solver].
Qed.

Lemma satisfied_met lane declared sup now req :
  satisfied lane declared sup now req = true <-> met lane declared sup now req.
Proof.
  destruct req; simpl; [done|done| |apply approval_live_iff].
  pose proof (validation_go_green lane [] declared) as H. unfold validation_state.
  destruct (validation_go lane [] declared); naive_solver.
Qed.

Definition demanded (required : list Requirement) : list Requirement :=
  List.filter (fun r => bool_decide (r ∈ required)) ALL.

Lemma check_go_ok lane required declared sup now acc reqs auth :
  check_go lane required declared sup now acc reqs = Ok auth <->
  auth = acc ++ List.filter (fun r => bool_decide (r ∈ required)) reqs /\
  Forall (met lane declared sup now) (List.filter (fun r => bool_decide (r ∈ required)) reqs).
Proof.
  revert acc. induction reqs as [|r reqs IH]; intros acc; simpl.
  - rewrite app_nil_r. naive_solver.
  - case_bool_decide as Hr; simpl; [|apply IH].
    pose proof (satisfied_met lane declared sup now r) as Hs.
    destruct (satisfied lane declared sup now r); simpl.
    + rewrite IH, Forall_cons, <- app_assoc. naive_solver.
    + rewrite Forall_cons. naive_solver.
Qed.

Lemma check_ok lane required declared sup now auth :
  check lane required declared sup now = Ok auth <->
  auth = demanded required /\ Forall (met lane declared sup now) (demanded required).
Proof. apply check_go_ok. Qed.

(** The lane is at rest: nobody is working on it and its stage is closed. *)
Definition at_rest (lane : LaneFacts) : Prop :=
  merged_into_target lane = false /\ worker_live lane = false /\
  (MIN_SHA_PREFIX <= String.length (trim (head_sha lane)))%nat /\ status lane = Done.

(** A plan that moves work forward comes from [plan_next], after validation. *)
Lemma plan_mutating lane p sup now a :
  is_mutating a = true ->
  plan_one lane p sup now = a <->
  at_rest lane /\ exists st, stage_of p (stage lane) = Some st /\
    (validate_on_exit sup = true -> Forall (green_at lane) (validate_tasks st)) /\
    plan_next lane st p sup now = a.
Proof.
  intros Ha. unfold plan_one, at_rest, hold.
  destruct (merged_into_target lane); [naive_solver|]. destruct (worker_live lane); [naive_solver|].
  destruct (Nat.ltb_spec (String.length (trim (head_sha lane))) MIN_SHA_PREFIX);
    [split; [naive_solver|lia]|].
  assert (forall st, plan_next lane st p sup now = a -> status lane = Done) as Hd.
  { intros st. unfold plan_next, hold. repeat case_match; try naive_solver;
      intros <-; try done; by eapply bool_decide_eq_true_1, negb_false_iff. }
  destruct (stage_of p (stage lane)) as [st|] eqn:Es; cycle 1.
  { split; [|naive_solver]. intros <-. by destruct (status lane). }
  pose proof (validation_go_green lane [] (validate_tasks st)) as Hv. unfold validation_state.
  specialize (Hd st).
  destruct (match status lane with Failed | Abandoned | Merged => true | _ => false end) eqn:Ef.
  { split; [by intros <-|]. intros [ (_ & _ & _ & E) _]. by rewrite E in Ef. }
  destruct (validate_on_exit sup); [|naive_solver].
  destruct (validation_go lane [] (validate_tasks st)); naive_solver.
Qed.

(** C4. The supervisor dispatches the next stage of a lane exactly when nobody is
    working on it, its own stage is closed, that stage was not dispatched
    before, advancing is switched on, and every requirement the next stage
    declares is a recorded fact about the current tip - the very list the
    action carries. *)
Theorem advance_iff (lane : LaneFacts) (p : Pipeline) (sup : Supervisor) (now : Z) (r : Z)
    (n : string) (auth : list Requirement) :
  plan_one lane p sup now = Advance r n auth <->
  at_rest lane /\ r = row lane /\ advance sup = true /\
  exists st nx,
    stage_of p (stage lane) = Some st /\ next_name st = Some n /\ stage_of p n = Some nx /\
    (n ∉ child_stages lane) /\
    auth = demanded (parsed_requires nx) /\
    Forall (met lane (validate_tasks st) sup now) auth /\
    (validate_on_exit sup = true -> Forall (green_at lane) (validate_tasks st)).
Proof.
  rewrite plan_mutating by done. unfold plan_next, hold.
  assert (forall nxt, existsb (fun c => String.eqb c nxt) (child_stages lane) = true <->
    nxt ∈ child_stages lane) as Hc.
  { intros nxt. rewrite existsb_exists. setoid_rewrite String.eqb_eq. setoid_rewrite <- list_elem_of_In.
    naive_solver. }
  split.
  - intros (Hr & st & Hs & Hv & H). destruct (next_name st) as [nxt|] eqn:En; [|repeat case_match; naive_solver].
    destruct (stage_of p nxt) as [nx|] eqn:Ex; [|done].
    destruct (existsb _ _) eqn:Ec; [done|]. destruct (negb (bool_decide _)); [done|].
    destruct (advance sup); [|done]. simpl in H.
    destruct (check lane (parsed_requires nx) (validate_tasks st) sup now) as [au|] eqn:Ek; [|done].
    injection H as <- <- <-. apply check_ok in Ek as [-> Hm]. split_and!; try done.
    exists st, nx. split_and!; try done. rewrite <- Hc. congruence.
  - intros (Hr & -> & Ha & st & nx & Hs & En & Ex & Hn & -> & Hm & Hv). split; [done|].
    exists st. split_and!; try done. rewrite En, Ex, Ha.
    rewrite <- Hc in Hn. apply not_true_iff_false in Hn. rewrite Hn.
    destruct Hr as (_ & _ & _ & ->). simpl.
    by rewrite (proj2 (check_ok lane (parsed_requires nx) (validate_tasks st) sup now _) (conj eq_refl Hm)).
Qed.

(** A lane is handed to the merge queue exactly when it rests on a closed
    last stage, is not queued yet, landing is switched on, and every landing
    requirement is a recorded fact about the tip that is enqueued. *)
Theorem enqueue_iff (lane : LaneFacts) (p : Pipeline) (sup : Supervisor) (now : Z) (r : Z)
    (c : string) (auth : list Requirement) :
  plan_one lane p sup now = Enqueue r c auth <->
  at_rest lane /\ r = row lane /\ c = head_sha lane /\ land sup = true /\ enqueued lane = false /\
  exists st,
    stage_of p (stage lane) = Some st /\ next_name st = None /\
    auth = demanded (parsed_land_requires sup) /\
    Forall (met lane (validate_tasks st) sup now) auth /\
    (validate_on_exit sup = true -> Forall (green_at lane) (validate_tasks st)).
Proof.
  rewrite plan_mutating by done. unfold plan_next, hold. split.
  - intros (Hr & st & Hs & Hv & H).
    destruct (next_name st) as [nxt|] eqn:En; [repeat case_match; naive_solver|].
    destruct (enqueued lane); [done|]. destruct (negb (bool_decide _)); [done|].
    destruct (land sup); [|done]. simpl in H.
    destruct (check lane (parsed_land_requires sup) (validate_tasks st) sup now) as [au|] eqn:Ek; [|done].
    injection H as <- <- <-. apply check_ok in Ek as [-> Hm]. split_and!; try done.
    exists st. by split_and!.
  - intros (Hr & -> & -> & Hl & Hq & st & Hs & En & -> & Hm & Hv). split; [done|].
    exists st. split_and!; try done. rewrite En, Hl, Hq.
    destruct Hr as (_ & _ & _ & ->). simpl.
    by rewrite (proj2 (check_ok lane (parsed_land_requires sup) (validate_tasks st) sup now _) (conj eq_refl Hm)).
Qed.

(** ** Validation converges *)

Lemma class_roundtrip c : ValidationClass_parse (ValidationClass_as_str c) = c.
Proof. by destruct c. Qed.

Definition with_validations (lane : LaneFacts) (vs : list ValidationRecord) : LaneFacts :=
  mkLaneFacts (row lane) (issue_id lane) (stage lane) (status lane) (worker_live lane)
    (head_sha lane) (merged_into_target lane) (enqueued lane) (artifact_tracked lane)
    (report_present lane) vs (approval lane) (child_stages lane).

(** One outcome recorded per task, in order. *)
Definition record_all (commit : string) (outs : list (string * ValidationClass))
    (vs : list ValidationRecord) : list ValidationRecord :=
  foldl (fun vs o => record_validation (fst o) commit (snd o) vs) vs outs.

Lemma find_filter {A} (f keep : A -> bool) l :
  (forall x, f x = true -> keep x = true) -> List.find f (List.filter keep l) = List.find f l.
Proof.
  intros H. induction l as [|x l IH]; simpl; [done|].
  destruct (keep x) eqn:Ek; simpl; [by rewrite IH|]. rewrite IH.
  destruct (f x) eqn:Ef; [|done]. by rewrite (H x Ef) in Ek.
Qed.

Lemma find_hd {A} (f : A -> bool) x l : f x = true -> List.find f (x :: l) = Some x.
Proof. simpl. by intros ->. Qed.

Lemma find_tl {A} (f : A -> bool) x l : f x = false -> List.find f (x :: l) = List.find f l.
Proof. simpl. by intros ->. Qed.

Lemma eq_ignore_case_refl s : eq_ignore_case s s = true.
Proof. induction s as [|a s IH]; simpl; [done|]. by rewrite Ascii.eqb_refl. Qed.

Section Converge.
Context (c : string).

Definition at_tip (t : string) (v : ValidationRecord) : bool :=
  String.eqb (v_task v) t && commit_matches (v_commit_sha v) c.

Lemma commit_matches_refl :
  (MIN_SHA_PREFIX <= String.length (trim c))%nat -> commit_matches c c = true.
Proof.
  intros Hc. unfold commit_matches. rewrite (proj2 (Nat.ltb_ge _ _) Hc). simpl. apply eq_ignore_case_refl.
Qed.

Lemma record_other t u cl vs :
  u <> t ->
  List.find (at_tip u) (record_validation t c cl vs) = List.find (at_tip u) vs /\
  List.find (same_key u c) (record_validation t c cl vs) = List.find (same_key u c) vs.
Proof.
  intros Hne. assert (String.eqb t u = false) as He by (by apply String.eqb_neq).
  assert (forall v, String.eqb (v_task v) u = true -> negb (same_key t c v) = true) as Hk.
  { intros v Hv%String.eqb_eq. apply negb_true_iff, andb_false_iff. left.
    apply String.eqb_neq. congruence. }
  unfold record_validation. split; (rewrite find_tl; [|unfold at_tip, same_key; simpl; by rewrite He]);
    apply find_filter; intros v [Hv _]%andb_true_iff; by apply Hk.
Qed.

Lemma record_all_snoc outs o vs :
  record_all c (outs ++ [o]) vs = record_validation (fst o) c (snd o) (record_all c outs vs).
Proof. unfold record_all. by rewrite foldl_app. Qed.

Lemma record_all_other outs vs u :
  u ∉ outs.*1 ->
  List.find (at_tip u) (record_all c outs vs) = List.find (at_tip u) vs /\
  List.find (same_key u c) (record_all c outs vs) = List.find (same_key u c) vs.
Proof.
  induction outs as [| [w x] outs IH] using rev_ind; intros Hn; [done|].
  rewrite record_all_snoc. rewrite fmap_app in Hn. simpl in Hn. cbn [fst snd].
  destruct (record_other w u x (record_all c outs vs)) as [-> ->]; [set_solver|].
  apply IH. set_solver.
Qed.

Section Ran.
Context (Hc : (MIN_SHA_PREFIX <= String.length (trim c))%nat).

(** The task was run at least [n] times at the tip, and the last run is the
    record the planner sees. *)
Definition ran (n : N) (vs : list ValidationRecord) (t : string) : Prop :=
  exists v, List.find (at_tip t) vs = Some v /\ List.find (same_key t c) vs = Some v /\
    (n <= attempts v)%N.

Lemma record_same t cl vs n :
  (n < 2)%N -> (n = 0%N \/ ran n vs t) -> ran (n + 1) (record_validation t c cl vs) t.
Proof.
  intros Hn Hr. unfold record_validation, ran. eexists. split_and!.
  - apply find_hd. unfold at_tip. simpl. by rewrite String.eqb_refl, (commit_matches_refl Hc).
  - apply find_hd. unfold same_key. simpl. by rewrite !String.eqb_refl.
  - simpl. destruct Hr as [-> |(v & _ & -> & Hv)]; simpl; unfold u32_sat_add, u32_max; lia.
Qed.

Lemma record_all_ran outs vs t n :
  (n < 2)%N -> n = 0%N \/ ran n vs t -> t ∈ outs.*1 -> ran (n + 1) (record_all c outs vs) t.
Proof.
  intros Hn Hr. induction outs as [| [u cl] outs IH] using rev_ind; intros Ht; [by inversion Ht|].
  rewrite record_all_snoc. rewrite fmap_app in Ht. simpl in Ht. cbn [fst snd].
  destruct (decide (t = u)) as [-> |Hne].
  - apply record_same; [done|]. destruct (decide (u ∈ outs.*1)) as [Hin|Hnin].
    + right. destruct (IH Hin) as (v & H1 & H2 & H3). exists v. split_and!; [done..|lia].
    + destruct Hr as [-> |Hr]; [by left|right]. unfold ran.
      by destruct (record_all_other outs vs u Hnin) as [-> ->].
  - destruct (IH ltac:(set_solver)) as (v & H1 & H2 & H3). unfold ran.
    destruct (record_other u t cl (record_all c outs vs) Hne) as [-> ->]. eauto.
Qed.
End Ran.
End Converge.

Lemma current_tip lane t : current_record lane t = List.find (at_tip (head_sha lane) t) (validations lane).
Proof. done. Qed.

Lemma current_task lane t v : current_record lane t = Some v -> v_task v = t.
Proof.
  unfold current_record. intros [_ H]%List.find_some.
  apply andb_true_iff in H as [H _]. by apply String.eqb_eq.
Qed.

(** What is owed covers every declared task that is not green. *)
Lemma validation_go_owed lane owed declared ts :
  validation_go lane owed declared = Owed ts ->
  (forall t, t ∈ ts -> t ∈ owed \/ t ∈ declared /\ ~ green_at lane t) /\
  (forall t, t ∈ declared -> t ∈ ts \/ green_at lane t) /\ (forall t, t ∈ owed -> t ∈ ts).
Proof.
  revert owed. induction declared as [|t l IH]; intros owed; simpl.
  - destruct owed; [done|]. intros [= <-]. set_solver.
  - destruct (current_record lane t) as [v|] eqn:E.
    + pose proof (current_task _ _ _ E) as Ht. destruct (is_green (v_class v)) eqn:Eg.
      * intros (H1 & H2 & H3)%IH. apply is_green_iff in Eg.
        assert (green_at lane t) by (exists v; done). set_solver.
      * assert (~ green_at lane t) as Hn.
        { intros (w & Hw & Hg). rewrite E in Hw. injection Hw as <-.
          apply is_green_iff in Hg. congruence. }
        destruct (blames_code (v_class v)); [done|]. destruct (_ <? _)%N; [|done].
        rewrite Ht. intros (H1 & H2 & H3)%IH. set_solver.
    + assert (~ green_at lane t) as Hn by (intros (w & Hw & _); congruence).
      intros (H1 & H2 & H3)%IH. set_solver.
Qed.

(** Nothing is owed once every declared task is green or out of attempts. *)
Lemma validation_go_spent lane declared :
  (forall t, t ∈ declared -> green_at lane t \/
     exists v, current_record lane t = Some v /\ (MAX_VALIDATION_ATTEMPTS <= attempts v)%N) ->
  forall ts, validation_state lane declared <> Owed ts.
Proof.
  unfold validation_state. induction declared as [|t l IH]; simpl; [done|]. intros H ts.
  specialize (IH ltac:(set_solver) ts).
  destruct (H t ltac:(set_solver)) as [ (v & -> & Hg) | (v & -> & Hv) ].
  - by rewrite Hg.
  - destruct (is_green _); [done|]. destruct (blames_code _); [done|].
    by rewrite (proj2 (N.ltb_ge _ _) Hv).
Qed.

Definition wants_validation (a : SuperviseAction) : option (list string * string) :=
  match a with Validate _ ts c => Some (ts, c) | _ => None end.

Lemma plan_validate lane p sup now ts c :
  wants_validation (plan_one lane p sup now) = Some (ts, c) ->
  c = head_sha lane /\ (MIN_SHA_PREFIX <= String.length (trim (head_sha lane)))%nat /\
  exists st, stage_of p (stage lane) = Some st /\
    validation_state lane (validate_tasks st) = Owed ts.
Proof.
  unfold plan_one, hold.
  destruct (merged_into_target lane); [done|]. destruct (worker_live lane); [done|].
  destruct (Nat.ltb_spec (String.length (trim (head_sha lane))) MIN_SHA_PREFIX) as [|Hl]; [done|].
  destruct (match status lane with Failed | Abandoned | Merged => true | _ => false end); [done|].
  destruct (stage_of p (stage lane)) as [st|]; [|done].
  assert (wants_validation (plan_next lane st p sup now) = None) as Hn.
  { unfold plan_next, hold. repeat case_match; done. }
  destruct (validate_on_exit sup); [|by rewrite Hn].
  destruct (validation_state lane (validate_tasks st)) eqn:E; try done; [|by rewrite Hn].
  intros [= <- <-]. split_and!; try done. by exists st.
Qed.

(** One round: the tasks the plan names are run and their outcomes recorded. *)
Definition round (lane : LaneFacts) (c : string) (outs : list (string * ValidationClass)) : LaneFacts :=
  with_validations lane (record_all c outs (validations lane)).

Lemma round_green lane outs t :
  t ∉ outs.*1 -> green_at lane t -> green_at (round lane (head_sha lane) outs) t.
Proof.
  intros Hn (v & Hv & Hg). exists v. split; [|done]. rewrite current_tip in *. simpl.
  by destruct (record_all_other (head_sha lane) outs (validations lane) t Hn) as [-> _].
Qed.

(** Validation cannot loop: whatever the runs report, after two rounds of
    running the owed tasks and recording the outcomes the supervisor stops
    asking for validation of that tip. *)
Theorem validation_converges (lane : LaneFacts) (p : Pipeline) (sup : Supervisor) (now1 now2 now3 : Z)
    (c1 c2 : string) (outs1 outs2 : list (string * ValidationClass)) :
  wants_validation (plan_one lane p sup now1) = Some (outs1.*1, c1) ->
  wants_validation (plan_one (round lane c1 outs1) p sup now2) = Some (outs2.*1, c2) ->
  wants_validation (plan_one (round (round lane c1 outs1) c2 outs2) p sup now3) = None.
Proof.
  intros (-> & Hl & st & Hs & Ho1)%plan_validate (-> & _ & st' & Hs' & Ho2)%plan_validate.
  simpl in Hs', Ho2. rewrite Hs in Hs'. injection Hs' as <-.
  set (lane1 := round lane (head_sha lane) outs1) in *.
  destruct (wants_validation _) as [ [ts c] |] eqn:E; [|done]. exfalso.
  apply plan_validate in E as (_ & _ & st' & Hs' & Ho3). simpl in Hs'. rewrite Hs in Hs'.
  injection Hs' as <-. revert Ho3. apply validation_go_spent. intros t Ht.
  apply validation_go_owed in Ho1 as (_ & Hc1 & _), Ho2 as (Hn2 & Hc2 & _).
  destruct (decide (t ∈ outs2.*1)) as [Hin|Hnin]; cycle 1.
  { left. apply (round_green lane1); [done|]. by destruct (Hc2 t Ht). }
  assert (t ∈ outs1.*1) as Hin1.
  { destruct (decide (t ∈ outs1.*1)) as [|Hn1]; [done|].
    destruct (Hn2 t Hin) as [?%not_elem_of_nil|[_ Hng]]; [done|].
    destruct Hng. apply round_green; [done|]. by destruct (Hc1 t Ht). }
  right. pose proof (record_all_ran _ Hl outs1 (validations lane) t 0 ltac:(lia) (or_introl eq_refl) Hin1) as R1.
  pose proof (record_all_ran _ Hl outs2 _ t 1 ltac:(lia) (or_intror R1) Hin) as (v & Hv & _ & Ha).
  exists v. split; [|done]. exact Hv.
Qed.

(** ** Instances *)

Definition demo_stage (n : string) (nxt : option string) (tasks reqs : list string) : PipelineStage :=
  mkPipelineStage n "worker" "Complete the configured task." 1 3600 nxt Park None None ∅ [] tasks reqs.

Definition demo_chart : Pipeline :=
  mkPipeline
    [demo_stage "code" (Some "review") ["nextest"] [];
     demo_stage "review" None [] ["approval"; "validation:green"]]
    (mkTransportRetry true 3 2000 [] []) Supervisor_default.

Definition demo_lane : LaneFacts :=
  mkLaneFacts 7 "the:1" "code" Done false "4babb0912345" false false true true [] None [].

Lemma validation_converges_witness :
  let outs := [("nextest", EnvironmentError)] in
  wants_validation (plan_one demo_lane demo_chart Supervisor_default 0) = Some (outs.*1, "4babb0912345") /\
  wants_validation (plan_one (round (round demo_lane "4babb0912345" outs) "4babb0912345" outs)
    demo_chart Supervisor_default 0) = None.
Proof.
  split; [by vm_compute|].
  apply (validation_converges demo_lane demo_chart Supervisor_default 0 0 0 "4babb0912345" "4babb0912345"
    [("nextest", EnvironmentError)] [("nextest", EnvironmentError)]); by vm_compute.
Defined.

Definition demo_approval (c : string) : Approval :=
  mkApproval "the:1" "code" c "ann" None 1000 None None.

Definition demo_green (a : option Approval) : LaneFacts :=
  mkLaneFacts 7 "the:1" "code" Done false "4babb0912345" false false true true
    [mkValidationRecord "nextest" Green "4babb0912345" 1] a [].

(** An approval by its short id lets the lane advance; one for another commit
    asks for a review of the current tip. *)
Example approve_then_advance :
  plan_one (demo_green (Some (demo_approval "4BABB09"))) demo_chart Supervisor_default 2000 =
    Advance 7 "review" [ValidationGreen; ApprovalReq] /\
  plan_one (demo_green (Some (demo_approval "1234567"))) demo_chart Supervisor_default 2000 =
    Escalate 7 (AwaitingApproval "code" "4babb0912345").
Proof. by vm_compute. Qed.
