(* ===== verification/Reap.v ===== *)
(** * The reaper of dead pipeline rows

    pipeline_reap.rs: what a roster row whose worker is gone has become.  The
    verdict is a pure function of recorded facts; the theorems say exactly when
    a row may be closed or failed without a person. *)
From Stdlib Require Import Ascii String.
From S2P Require Import Prelude Pipeline.
Local Open Scope string_scope.
Local Open Scope list_scope.

Inductive Verdict := VPass | VRevise | VFail | VBlocked | VNone.

Global Instance Verdict_eq_dec : EqDecision Verdict.
Proof. solve_decision. Defined.

Inductive WorkerLiveness := WLive | Exited | WUnknown.

Record ReapFacts := mkReapFacts {
  worker : WorkerLiveness;
  artifact_exists : bool;
  artifact_tracked : bool;
  artifact_ok : bool;
  report_present : bool;
  report_verdict : Verdict;
  report_gate_valid : bool;
  worktree_unknown : bool;
  trusted_gate_ok : bool;
}.

Inductive ReapVerdict :=
| RLive
| RUnknown (why : string)
| RClosed
| CloseDone
| MarkFailed (why : string)
| NeedsDecision (why : string).

Definition is_actionable (v : ReapVerdict) : bool :=
  match v with CloseDone | MarkFailed _ => true | _ => false end.

Record Reap := mkReap {
  reap_id : Z;
  observed_status : AgentDispatchStatus;
  verdict : ReapVerdict;
}.

Definition SPAWNING_STALE_MS : Z := 10 * 60 * 1000.

Definition spawning_is_stale (changed_at_ms now_ms stale_ms : Z) : bool :=
  (stale_ms <? i64_sat_sub now_ms changed_at_ms)%Z.

(** The fields of a roster row the policy reads. *)
Record AgentDispatch := mkAgentDispatch { id : Z; d_status : AgentDispatchStatus }.

(** The explanation of a report verdict other than a pass. *)
Definition verdict_why (v : Verdict) : string :=
  match v with
  | VFail => "worker is gone and its artifact IS committed, but its report verdict is FAIL — Lead must review the artifact and decide whether to close it"
  | VBlocked => "worker is gone and its artifact IS committed, but its report verdict is BLOCKED — Lead must review the artifact and decide whether to close it"
  | VRevise => "worker is gone and its artifact IS committed, but its report verdict is REVISE — Lead must review the artifact and decide whether to close it"
  | VNone => "worker is gone and its artifact IS committed, but its report has no recognized verdict — Lead must review the artifact and decide whether to close it"
  | VPass => ""
  end.

Definition classify_exited (facts : ReapFacts) : ReapVerdict :=
  let pass := bool_decide (report_verdict facts = VPass) in
  if artifact_tracked facts then
    if report_present facts && report_gate_valid facts && pass then
      if worktree_unknown facts then
        RUnknown "worker is gone but its worktree status could not be observed (git status failed); retry the reap, or reconcile this row by hand"
      else if negb (artifact_ok facts) then
        NeedsDecision "worker is gone and its committed artifact is not this row's non-empty canonical handoff — Lead must review the row and decide whether to close it"
      else if negb (trusted_gate_ok facts) then
        NeedsDecision "worker is gone and its report claims PASS, but no trusted gate attestation covers its HEAD — run `thegn dispatch gate <row>`, then `thegn dispatch set-status <row> done`"
      else CloseDone
    else if report_present facts && negb pass then NeedsDecision (verdict_why (report_verdict facts))
    else NeedsDecision "worker is gone and its artifact IS committed, but its report is missing or claims PASS without a successful gate citation — read the artifact and close it yourself; auto-closing would mean forcing the gate or inventing evidence"
  else if artifact_exists facts then
    MarkFailed "worker is gone and its artifact exists but is NOT committed and clean in HEAD — an uncommitted or subsequently edited artifact is not a handoff (a worker whose sandbox forbade the commit leaves exactly this state; see THE-91)"
  else MarkFailed "worker is gone and its artifact was never written — the stage produced nothing".

Definition classify (row : AgentDispatch) (facts : ReapFacts) : ReapVerdict :=
  match d_status row with
  | Spawning | Running =>
      match worker facts with
      | WLive => RLive
      | WUnknown => RUnknown "worker liveness could not be established and there is no durable exit stamp; retry when the daemon is reachable, or reconcile this row by hand"
      | Exited => classify_exited facts
      end
  | _ => RClosed
  end.

Definition plan (rows : list AgentDispatch) (facts_for : AgentDispatch -> ReapFacts) : list Reap :=
  (fun r => mkReap (id r) (d_status r) (classify r (facts_for r))) <$> rows.

Record ReapSummary := mkReapSummary {
  live : N; unknown : N; closed : N; close_done : N; mark_failed : N; needs_decision : N;
}.

Definition tally (s : ReapSummary) (r : Reap) : ReapSummary :=
  let '(mkReapSummary l u c d f n) := s in
  match verdict r with
  | RLive => mkReapSummary (l + 1) u c d f n
  | RUnknown _ => mkReapSummary l (u + 1) c d f n
  | RClosed => mkReapSummary l u (c + 1) d f n
  | CloseDone => mkReapSummary l u c (d + 1) f n
  | MarkFailed _ => mkReapSummary l u c d (f + 1) n
  | NeedsDecision _ => mkReapSummary l u c d f (n + 1)
  end.

Definition summarize (reaps : list Reap) : ReapSummary :=
  foldl tally (mkReapSummary 0 0 0 0 0 0) reaps.

Definition actionable (s : ReapSummary) : N := close_done s + mark_failed s.

(** ** When a row may be settled without a person *)

(** The row is still active and its worker is known to have exited. *)
Definition dead (row : AgentDispatch) (facts : ReapFacts) : Prop :=
  (d_status row = Spawning \/ d_status row = Running) /\ worker facts = Exited.

(** The reaper closes a row as done exactly when its worker is known to have
    exited and every part of the handoff is on record - artifact committed and
    canonical, report filed with a passing verdict and a valid gate citation,
    worktree observed, trusted gate satisfied - and fails it exactly when no
    artifact was committed; a live or unknown worker is never touched. *)
Theorem reap_iff (row : AgentDispatch) (facts : ReapFacts) :
  (classify row facts = CloseDone <->
     dead row facts /\ artifact_tracked facts = true /\ artifact_ok facts = true /\
     report_present facts = true /\ report_gate_valid facts = true /\
     report_verdict facts = VPass /\ worktree_unknown facts = false /\
     trusted_gate_ok facts = true) /\
  ((exists why, classify row facts = MarkFailed why) <->
     dead row facts /\ artifact_tracked facts = false) /\
  (is_actionable (classify row facts) = true -> dead row facts).
Proof.
  unfold classify, dead.
  destruct (d_status row) eqn:Es;
    try (split_and!; [split; [done|naive_solver]|split; naive_solver|done]).
  all: destruct (worker facts) eqn:Ew;
    try (split_and!; [split; [done|naive_solver]|split; naive_solver|done]).
  all: unfold classify_exited;
    destruct (artifact_tracked facts), (report_present facts), (report_gate_valid facts),
      (worktree_unknown facts), (artifact_ok facts), (trusted_gate_ok facts), (artifact_exists facts);
    simpl; repeat case_bool_decide; simpl; naive_solver.
Qed.

Lemma summarize_app l r : summarize (l ++ [r]) = tally (summarize l) r.
Proof. unfold summarize. by rewrite foldl_app. Qed.

(** The tallies count the rows they name; the one that counts what would change
    is the number of actionable verdicts. *)
Theorem summarize_counts (reaps : list Reap) :
  actionable (summarize reaps) =
    N.of_nat (length (List.filter (fun r => is_actionable (verdict r)) reaps)) /\
  (live (summarize reaps) + unknown (summarize reaps) + closed (summarize reaps) +
     needs_decision (summarize reaps) + actionable (summarize reaps))%N = N.of_nat (length reaps).
Proof.
  induction reaps as [|r reaps [IH1 IH2]] using rev_ind; [done|].
  rewrite summarize_app, List.filter_app, !length_app. unfold actionable in *.
  destruct (summarize reaps) as [l u c d f n]. simpl in *.
  destruct (verdict r); simpl; lia.
Qed.
