(* ===== verification/Image.v ===== *)
(** * Image references and content digests

    thegn-core/src/image.rs: `sha256:` digests, `name[:tag][@digest]`
    references, and the per-architecture picture of a resolved image.  The
    texts of the error messages quote the input with Rust's [Debug] format;
    here an error is the value that names which check failed and on what.

    Reading a manifest list rests on serde_json and is not modelled: a
    [ResolvedImage] is an input of the code that uses it. *)
From Stdlib Require Import Ascii String.
From S2P Require Import Prelude RustStr RustText.
Local Open Scope list_scope.
Local Open Scope string_scope.

(** The CPU architecture of a host (thegn-core/src/host.rs). *)
Inductive Arch := Amd64 | Arm64.

Global Instance Arch_eq_dec : EqDecision Arch.
Proof. solve_decision. Defined.

Global Instance Arch_countable : Countable Arch.
Proof.
  refine (inj_countable' (fun a => match a with Amd64 => true | Arm64 => false end)
    (fun b : bool => if b then Amd64 else Arm64) _).
  by intros [].
Defined.

Definition parse_uname (m : string) : option Arch :=
  let m := trim m in
  if String.eqb m "x86_64" || String.eqb m "amd64" then Some Amd64
  else if String.eqb m "aarch64" || String.eqb m "arm64" then Some Arm64
  else None.

Definition oci_name (a : Arch) : string :=
  match a with Amd64 => "amd64" | Arm64 => "arm64" end.

(** [Arch::parse]. *)
Definition parse_arch (s : string) : option Arch :=
  if String.eqb s "amd64" then Some Amd64
  else if String.eqb s "arm64" then Some Arm64
  else parse_uname s.

(** ** Digests *)

Record Digest := mkDigest { digest_str : string }.

Global Instance Digest_eq_dec : EqDecision Digest.
Proof. solve_decision. Defined.

Inductive RefError :=
| NoShaPrefix (s : string)
| NotSha256 (s : string)
| EmptyReference
| NoName (s : string).

Definition is_ascii_hexdigit (a : ascii) : bool :=
  byte_in 48 57 a || byte_in 65 70 a || byte_in 97 102 a.

Definition SHA_PREFIX : string := "sha256:".

(** [Digest::parse]. *)
Definition parse_digest (s : string) : result RefError Digest :=
  let folded := to_ascii_lowercase (trim s) in
  match strip_prefix SHA_PREFIX folded with
  | None => Err (NoShaPrefix s)
  | Some hex =>
      if negb (String.length hex =? 64)%nat || negb (str_forall is_ascii_hexdigit hex)
      then Err (NotSha256 s)
      else Ok (mkDigest folded)
  end.

Definition from_hex (hex : string) : result RefError Digest :=
  parse_digest (SHA_PREFIX ++ trim hex).

(** [Digest::short]: the bytes 7 to 19; Rust panics when they are out of
    range, which [short_in_range] excludes for parsed digests. *)
Definition short (d : Digest) : string := str_take 12 (str_drop 7 (digest_str d)).

(** ** References *)

Record ImageRef := mkImageRef {
  ref_name : string;
  tag : string;
  manifest_list_digest : option Digest;
}.

Global Instance ImageRef_eq_dec : EqDecision ImageRef.
Proof. solve_decision. Defined.

(** [s.rfind(c)] for a one-byte [char]. *)
Fixpoint rfind (c : ascii) (s : string) : option nat :=
  match s with
  | EmptyString => None
  | String a s' =>
      match rfind c s' with
      | Some i => Some (S i)
      | None => if Ascii.eqb a c then Some 0 else None
      end
  end.

(** The name and the tag of the part before the digest. *)
Definition split_tag (rest : string) : string * string :=
  match rfind ":" rest with
  | Some i =>
      if (default 0 (rfind "/" rest) <? i)%nat
      then (str_take i rest, str_drop (S i) rest)
      else (rest, "")
  | None => (rest, "")
  end.

(** [ImageRef::parse]. *)
Definition parse_ref (s : string) : result RefError ImageRef :=
  let s := trim s in
  if is_empty s then Err EmptyReference
  else
    let? rd := match split_once "@" s with
               | Some (r, d) => let? d := parse_digest d in Ok (r, Some d)
               | None => Ok (s, None)
               end in
    let '(rest, digest) := rd in
    let '(name, tag) := split_tag rest in
    if is_empty name then Err (NoName s)
    else Ok (mkImageRef name tag digest).

Definition name_tag (r : ImageRef) : string :=
  if is_empty (tag r) then ref_name r else ref_name r ++ ":" ++ tag r.

Definition pinned (r : ImageRef) : option string :=
  (fun d => ref_name r ++ "@" ++ digest_str d) <$> manifest_list_digest r.

(** [Display for ImageRef]. *)
Definition show_ref (r : ImageRef) : string :=
  match manifest_list_digest r with
  | Some d => name_tag r ++ "@" ++ digest_str d
  | None => name_tag r
  end.

(** ** Resolution *)

Record ResolvedImage := mkResolvedImage {
  reference : ImageRef;
  list_digest : Digest;
  per_arch : gmap Arch Digest;
}.

Definition digest_for (r : ResolvedImage) (a : Arch) : option Digest :=
  per_arch r !! a.

Definition spec_image (r : ResolvedImage) (a : Arch) : option string :=
  (fun d => ref_name (reference r) ++ "@" ++ digest_str d) <$> digest_for r a.

Definition MANAGED_IMAGE_REPO : string := "localhost/thegn/base".

Definition managed_tag (d : Digest) : string := MANAGED_IMAGE_REPO ++ ":" ++ short d.

(** ** Digests are well formed *)

Definition lower_hex (a : ascii) : bool := byte_in 48 57 a || byte_in 97 102 a.

Definition digest_ok (d : Digest) : Prop :=
  exists hex, digest_str d = SHA_PREFIX ++ hex /\ String.length hex = 64 /\
    str_forall lower_hex hex = true.

Lemma to_lower_idem a : to_lower (to_lower a) = to_lower a.
Proof.
  unfold to_lower at 2 3. destruct (byte_in 65 90 a) eqn:E; unfold to_lower; [|by rewrite E].
  unfold byte_in in *. bool_to_prop. rewrite N_ascii_embedding by lia. split_ifs; [lia|done].
Qed.

Lemma lower_idem s : to_ascii_lowercase (to_ascii_lowercase s) = to_ascii_lowercase s.
Proof. induction s as [|a s IH]; simpl; [done|]. by rewrite to_lower_idem, IH. Qed.

Lemma lower_hex_lower a : to_lower a = a -> is_ascii_hexdigit a = lower_hex a.
Proof.
  unfold to_lower, is_ascii_hexdigit, lower_hex. destruct (byte_in 65 90 a) eqn:E.
  - unfold byte_in in E. bool_to_prop. intros Hl. apply (f_equal N_of_ascii) in Hl.
    rewrite N_ascii_embedding in Hl; lia.
  - intros _. assert (byte_in 65 70 a = false) as ->; [|by rewrite orb_false_r].
    unfold byte_in in *. apply andb_false_iff in E. apply andb_false_iff. rewrite !N.leb_gt in *. lia.
Qed.

Lemma str_forall_ext p q s :
  (forall a, p a = true -> q a = true) -> str_forall p s = true -> str_forall q s = true.
Proof.
  intros H. induction s as [|a s IH]; simpl; [done|]. intros [Ha Hs]%andb_true_iff.
  by rewrite (H a Ha), IH.
Qed.

Lemma lower_hex_graphic a : lower_hex a = true -> graphic a = true /\ to_lower a = a.
Proof.
  unfold lower_hex, graphic, to_lower, byte_in. intros H.
  assert (48 <= N_of_ascii a <= 57 \/ 97 <= N_of_ascii a <= 102)%N as Ha.
  { apply orb_true_iff in H as [H|H]; bool_to_prop; lia. }
  split; [apply andb_true_iff; rewrite !N.leb_le; lia|]. split_ifs; [lia|done].
Qed.

Lemma hexdigit_lower s :
  to_ascii_lowercase s = s -> str_forall is_ascii_hexdigit s = str_forall lower_hex s.
Proof.
  induction s as [|a s IH]; simpl; [done|]. intros [= Ha Hs].
  by rewrite (lower_hex_lower a Ha), (IH Hs).
Qed.

Lemma lower_hex_id s : str_forall lower_hex s = true -> to_ascii_lowercase s = s.
Proof.
  induction s as [|a s IH]; simpl; [done|]. intros [Ha Hs]%andb_true_iff.
  by rewrite (proj2 (lower_hex_graphic a Ha)), (IH Hs).
Qed.

Lemma str_app_inj p a b : p ++ a = p ++ b -> a = b.
Proof. induction p as [|x p IH]; simpl; [done|]. intros [= H]. by apply IH. Qed.

Lemma parse_digest_ok s d : parse_digest s = Ok d -> digest_ok d.
Proof.
  unfold parse_digest. intros H. destruct (strip_prefix _ _) as [hex|] eqn:E; [|done].
  destruct (_ || _) eqn:Hc; [done|]. injection H as <-. apply orb_false_iff in Hc as [Hl Hx].
  apply negb_false_iff in Hl, Hx. apply Nat.eqb_eq in Hl. apply strip_prefix_Some in E.
  exists hex. split; [done|]. split; [done|]. rewrite <- hexdigit_lower; [done|].
  apply (str_app_inj SHA_PREFIX).
  change SHA_PREFIX with (to_ascii_lowercase SHA_PREFIX) at 1.
  by rewrite <- lower_app, <- E, lower_idem.
Qed.

(** A digest reads back as itself. *)
Lemma parse_digest_id d : digest_ok d -> parse_digest (digest_str d) = Ok d.
Proof.
  destruct d as [t]. intros (hex & Ht & Hl & Hx). cbn [digest_str] in *. subst t. unfold parse_digest.
  rewrite trim_graphic.
  - rewrite lower_app, (lower_hex_id hex Hx). change (to_ascii_lowercase SHA_PREFIX) with SHA_PREFIX.
    rewrite (proj2 (strip_prefix_Some _ _ hex) eq_refl), hexdigit_lower by by apply lower_hex_id.
    by rewrite Hl, Hx.
  - rewrite str_forall_app. apply andb_true_iff. split; [done|].
    apply (str_forall_ext lower_hex); [|done]. intros a Ha. by apply lower_hex_graphic.
Qed.

Lemma length_app_str a b : String.length (a ++ b) = String.length a + String.length b.
Proof. induction a as [|x a IH]; simpl; [done|]. by rewrite IH. Qed.

Lemma length_str_take n s : String.length (str_take n s) = min n (String.length s).
Proof. revert s. induction n as [|n IH]; intros [|a s]; simpl; auto. Qed.

(** [short] slices inside the text of any parsed digest. *)
Lemma short_in_range s d :
  parse_digest s = Ok d -> String.length (digest_str d) = 71 /\ String.length (short d) = 12.
Proof.
  intros (hex & Ht & Hl & _)%parse_digest_ok. unfold short. rewrite Ht, length_app_str, length_str_take.
  change (str_drop 7 (SHA_PREFIX ++ hex)) with hex. rewrite Hl. done.
Qed.

(** ** References read back *)

Lemma rfind_found c b : no_char c b = false -> exists i, rfind c b = Some i.
Proof.
  induction b as [|x b IH]; simpl in *; [done|]. intros H. destruct (no_char c b).
  - rewrite andb_true_r in H. apply negb_false_iff in H. rewrite H. by destruct (rfind c b); eauto.
  - destruct (IH eq_refl) as [i ->]. by eauto.
Qed.

Lemma rfind_app_r c a b :
  no_char c b = false -> rfind c (a ++ b) = (fun i => String.length a + i) <$> rfind c b.
Proof.
  intros [i Hi]%rfind_found. induction a as [|x a IH]; simpl; [by rewrite Hi|].
  by rewrite IH, Hi.
Qed.

Lemma rfind_None c s : no_char c s = true -> rfind c s = None.
Proof.
  induction s as [|x s IH]; simpl; [done|]. intros [H1 H2]%andb_true_iff.
  apply negb_true_iff in H1. by rewrite (IH H2), H1.
Qed.

Lemma rfind_app_l c a b : no_char c b = true -> rfind c (a ++ b) = rfind c a.
Proof.
  intros H. induction a as [|x a IH]; simpl; [by apply rfind_None|]. by rewrite IH.
Qed.

Lemma rfind_split c s i :
  rfind c s = Some i ->
  s = str_take i s ++ String c (str_drop (S i) s) /\ no_char c (str_drop (S i) s) = true /\
  i < String.length s.
Proof.
  revert i. induction s as [|x s IH]; intros i; simpl; [done|].
  destruct (rfind c s) as [j|] eqn:E.
  - intros [= <-]. destruct (IH j eq_refl) as (H1 & H2 & H3).
    change (str_drop (S (S j)) (String x s)) with (str_drop (S j) s).
    cbn [str_take String.append String.length]. split; [by rewrite <- H1|]. split; [done|lia].
  - destruct (Ascii.eqb_spec x c) as [->|]; [|done]. intros [= <-]. simpl. split; [done|].
    split; [|lia]. clear IH. induction s as [|y s IH]; simpl in *; [done|].
    destruct (rfind c s); [done|]. destruct (Ascii.eqb y c); [done|]. by rewrite IH.
Qed.

Lemma str_take_len a b : str_take (String.length a) (a ++ b) = a.
Proof. induction a as [|x a IH]; simpl; [by destruct b|]. by rewrite IH. Qed.

Lemma str_drop_len a b : str_drop (String.length a) (a ++ b) = b.
Proof. induction a as [|x a IH]; simpl; [by destruct b|]. done. Qed.

(** A tag without separators is read back after any name. *)
Lemma split_tag_join name t :
  name <> "" -> no_char ":" t = true -> no_char "/" t = true ->
  split_tag (name ++ String ":" t) = (name, t).
Proof.
  intros Hn Hc Hs. unfold split_tag. rewrite rfind_app_r by done. cbn [rfind].
  rewrite (rfind_None _ _ Hc). simpl. rewrite Nat.add_0_r.
  assert (default 0 (rfind "/" (name ++ String ":" t)) < String.length name) as Hlt%Nat.ltb_lt.
  { rewrite rfind_app_l by done. destruct (rfind "/" name) as [j|] eqn:E; simpl.
    - by apply rfind_split in E as (_ & _ & ?).
    - destruct name; [done|simpl; lia]. }
  rewrite Hlt, str_take_len. f_equal. pose proof (str_drop_len (name ++ ":") t) as H.
  by rewrite str_app_assoc, length_app_str, Nat.add_comm in H.
Qed.

Lemma split_tag_sound rest name t :
  split_tag rest = (name, t) ->
  (rest = name /\ t = "") \/
  (rest = name ++ String ":" t /\ no_char ":" t = true /\ no_char "/" t = true).
Proof.
  unfold split_tag. destruct (rfind ":" rest) as [i|] eqn:E; [|intros [= <- <-]; by left].
  destruct (_ <? i)%nat eqn:Hlt; [|intros [= <- <-]; by left]. intros [= <- <-]. right.
  apply rfind_split in E as (H1 & H2 & _). split; [done|]. split; [done|].
  apply Nat.ltb_lt in Hlt. destruct (no_char "/" (str_drop (S i) rest)) eqn:Hs; [done|].
  exfalso. pose proof (rfind_found _ _ Hs) as [j Hj]. rewrite H1 in Hlt.
  change (String ":" ?u) with ((String ":" "") ++ u) in Hlt.
  rewrite <- str_app_assoc, rfind_app_r, length_app_str in Hlt by done.
  assert (String.length (str_take i rest) = i) as Hi.
  { rewrite length_str_take. pose proof (f_equal String.length H1) as Hl.
    rewrite length_app_str, length_str_take in Hl. simpl in Hl. lia. }
  rewrite Hi, Hj in Hlt. simpl in Hlt. lia.
Qed.


Lemma graphic_ends_clean x s : s <> "" -> str_forall graphic s = true -> ends_clean (x ++ s).
Proof.
  intros Hn Hg. destruct (str_last s Hn) as (t & a & ->).
  rewrite str_forall_app in Hg. simpl in Hg. rewrite andb_true_r in Hg.
  apply andb_true_iff in Hg as [_ Ha]. rewrite <- str_app_assoc. generalize (x ++ t) as u.
  intros u v w E Hw. destruct (str_last w Hw) as (w' & b & ->).
  rewrite <- str_app_assoc in E. assert (a = b) as ->.
  { revert E. generalize (v ++ w') as z. clear. intros z. revert u.
    induction z as [|y z IH]; intros [|y' u]; simpl; try congruence.
    - intros [= _ H]. by destruct u.
    - intros [= _ H]. by destruct z.
    - intros [= _ H]. by apply (IH u). }
  apply all_ws_graphic; [done|lia].
Qed.

Lemma digest_graphic d : digest_ok d -> str_forall graphic (digest_str d) = true /\ digest_str d <> "".
Proof.
  intros (hex & -> & _ & Hx). split; [|done]. rewrite str_forall_app. apply andb_true_iff.
  split; [done|]. apply (str_forall_ext lower_hex); [|done]. intros a Ha. by apply lower_hex_graphic.
Qed.

(** What a parsed reference was read from. *)
Lemma parse_ref_inv s r :
  parse_ref s = Ok r ->
  exists rest, split_tag rest = (ref_name r, tag r) /\ ref_name r <> "" /\
    no_char "@" rest = true /\
    match manifest_list_digest r with
    | Some d => digest_ok d /\ exists x, trim s = rest ++ String "@" x
    | None => trim s = rest
    end.
Proof.
  unfold parse_ref. destruct (is_empty (trim s)) eqn:Hs; [done|].
  destruct (split_once "@" (trim s)) as [[l d]|] eqn:E; simpl.
  - apply split_once_sound in E as [E Hl].
    destruct (parse_digest d) as [d'|] eqn:Hd; simpl; [|done].
    destruct (split_tag l) as [name t] eqn:Ht. destruct (is_empty name) eqn:Hn; [done|].
    intros [= <-]. exists l. simpl. repeat split; eauto using parse_digest_ok. by intros ->.
  - destruct (split_tag (trim s)) as [name t] eqn:Ht. destruct (is_empty name) eqn:Hn; [done|].
    intros [= <-]. exists (trim s). simpl. repeat split; auto; [by intros ->|].
    by apply split_once_None.
Qed.

Lemma show_trimmed r :
  name_tag r <> "" -> ws_len (name_tag r) = 0 ->
  match manifest_list_digest r with Some d => digest_ok d | None => ends_clean (name_tag r) end ->
  trimmed (show_ref r).
Proof.
  intros Hn Hw. unfold show_ref. destruct (manifest_list_digest r) as [d|]; [|done].
  intros [Hg Hd]%digest_graphic. split.
  - rewrite <- str_app_assoc. by apply graphic_ends_clean.
  - change ("@" ++ digest_str d) with (String "@" (digest_str d)). by rewrite ws_len_ascii.
Qed.

(** The printed name and tag are read back as they were. *)
Lemma name_tag_stable s r :
  parse_ref s = Ok r ->
  (tag r = "" -> split_tag (ref_name r) = (ref_name r, "") /\ trimmed (ref_name r)) ->
  split_tag (name_tag r) = (ref_name r, tag r) /\ no_char "@" (name_tag r) = true /\
  name_tag r <> "" /\ trimmed (show_ref r).
Proof.
  intros (rest & Ht & Hn & Hat & Hd)%parse_ref_inv Hbare.
  enough (split_tag (name_tag r) = (ref_name r, tag r) /\ no_char "@" (name_tag r) = true /\
    name_tag r <> "" /\ ws_len (name_tag r) = 0 /\
    match manifest_list_digest r with Some d => digest_ok d | None => ends_clean (name_tag r) end)
    as (H1 & H2 & H3 & H4 & H5) by eauto using show_trimmed.
  pose proof (split_tag_sound _ _ _ Ht) as Hs. unfold name_tag.
  destruct (tag r) as [|c t] eqn:Etag.
  - destruct (Hbare eq_refl) as (Hst & Hec & Hw). simpl.
    assert (no_char "@" (ref_name r) = true).
    { destruct Hs as [ [<- _]|(-> & _)]; [done|]. by apply no_char_join in Hat as [? _]. }
    repeat (split; [done|]). by destruct (manifest_list_digest r); [apply Hd|].
  - destruct Hs as [ [_ ?]|(-> & _ & _)]; [done|]. rewrite <- Etag in *.
    assert (is_empty (tag r) = false) as -> by by rewrite Etag.
    change (":" ++ tag r) with (String ":" (tag r)). pose proof (trim_trimmed s) as [Hec Hw].
    assert (ref_name r ++ String ":" (tag r) <> "") as Hne by (destruct (ref_name r); discriminate).
    split; [done|]. split; [done|]. split; [done|].
    destruct (manifest_list_digest r).
    + destruct Hd as [Hok [x E] ]. rewrite E, ws_len_ascii in Hw by done. done.
    + by rewrite Hd in *.
Qed.

(** Printing a parsed image reference and parsing the result gives the
    reference back, unless its printed form has no tag and the name itself
    would be read differently. *)
Theorem ref_roundtrip (s : string) (r : ImageRef) :
  parse_ref s = Ok r ->
  (tag r = "" -> split_tag (ref_name r) = (ref_name r, "") /\ trimmed (ref_name r)) ->
  parse_ref (show_ref r) = Ok r.
Proof.
  intros Hp Hbare. destruct (name_tag_stable s r Hp Hbare) as (Hst & Hat & Hne & Htr).
  apply parse_ref_inv in Hp as (rest & _ & Hn & _ & Hd).
  unfold parse_ref. rewrite trim_id by done. unfold show_ref in *.
  destruct (manifest_list_digest r) as [d|] eqn:Ed.
  - destruct Hd as [Hok _]. change ("@" ++ digest_str d) with (String "@" (digest_str d)).
    rewrite split_once_char, parse_digest_id by done. simpl. rewrite Hst.
    destruct (name_tag r); [done|]. destruct (ref_name r) eqn:En; [done|]. simpl.
    by destruct r; simpl in *; subst.
  - rewrite split_once_char_None by done. simpl. rewrite Hst. destruct (name_tag r); [done|].
    destruct (ref_name r) eqn:En; [done|]. simpl. by destruct r; simpl in *; subst.
Qed.

(** A parsed reference with a digest, in upper case and with a registry port. *)
Definition sample_hex : string :=
  "1111111111111111111111111111111111111111111111111111111111111111".

Lemma ref_roundtrip_witness :
  parse_ref ("reg:5000/base:v1@" ++ SHA_PREFIX ++ sample_hex) =
    Ok (mkImageRef "reg:5000/base" "v1" (Some (mkDigest (SHA_PREFIX ++ sample_hex)))) /\
  parse_ref (show_ref (mkImageRef "reg:5000/base" "v1" (Some (mkDigest (SHA_PREFIX ++ sample_hex)))))
    = Ok (mkImageRef "reg:5000/base" "v1" (Some (mkDigest (SHA_PREFIX ++ sample_hex)))).
Proof.
  split; [by vm_compute|].
  apply (ref_roundtrip ("reg:5000/base:v1@" ++ SHA_PREFIX ++ sample_hex)); [by vm_compute|done].
Defined.

(** Without the condition the round trip fails: an empty tag is dropped, and
    what is left of the name is then split again. *)
Lemma ref_roundtrip_bare :
  exists r, parse_ref "a:b:" = Ok r /\ parse_ref (show_ref r) <> Ok r.
Proof. exists (mkImageRef "a:b" "" None). by vm_compute. Qed.
