(* ===== verification/Capacity.v ===== *)
(** * Placement capacity, trust classes and policy resolution

    thegn-core/src/capacity.rs (what a sandbox asks for, what a host can
    hold), trust_class.rs (how strong the boundary between two tenants of one
    host is) and the resolving half of config_placement.rs (the policy of one
    spawn).  Arithmetic the code does with plain [+] and [*] on [u64] wraps, as
    it does in a release build.  A [BTreeMap] or [BTreeSet] that is only looked
    up is a [gmap] or [gset]; warnings the code logs are left out. *)
From Stdlib Require Import Ascii String SpecFloat.
From S2P Require Import Prelude RustFloat RustStr RustText.
Local Open Scope string_scope.
Local Open Scope list_scope.
Local Open Scope N_scope.

(** ** Width *)

Definition u64_mod : N := 18446744073709551616.
Definition u64_add (a b : N) : N := (a + b) mod u64_mod.
Definition u64_mul (a b : N) : N := (a * b) mod u64_mod.

Definition checked (max n : N) : option N := if n <=? max then Some n else None.

(** ** Asks *)

Inductive HostOwnership := Managed | Independent.

Global Instance HostOwnership_eq_dec : EqDecision HostOwnership.
Proof. solve_decision. Defined.

Definition HostOwnership_as_str (o : HostOwnership) : string :=
  match o with Managed => "managed" | Independent => "independent" end.

Definition HostOwnership_parse (s : string) : option HostOwnership :=
  let s := trim s in
  if String.eqb s "managed" then Some Managed
  else if String.eqb s "independent" then Some Independent
  else None.

Record ResourceReq := mkResourceReq {
  cpu_floor_milli : N;
  mem_floor_mb : N;
  cpu_ceiling_milli : option N;
  mem_ceiling_mb : option N;
}.

Definition ResourceReq_default : ResourceReq := mkResourceReq 1000 2048 None None.

Definition is_digit (a : ascii) : bool := byte_in 48 57 a.

Fixpoint all_digits (s : string) : bool :=
  match s with
  | EmptyString => true
  | String a s => is_digit a && all_digits s
  end.

(** [format!("{s:0<3}")]: padded on the right to three characters. *)
Definition pad3 (s : string) : string :=
  (s ++ match String.length s with
        | O => "000" | 1%nat => "00" | 2%nat => "0" | _ => ""
        end)%string.

(** [t.strip_suffix(['m', 'M'])]. *)
Definition strip_milli (t : string) : option string :=
  match strip_suffix "m" t with
  | Some s => Some s
  | None => strip_suffix "M" t
  end.

Definition positive (n : N) : option N := if 0 <? n then Some n else None.

Definition parse_cpu_milli (s : string) : option N :=
  let t := trim s in
  if is_empty t then None
  else match strip_milli t with
  | Some m => milli ← parse_u32 (trim m); positive milli
  | None =>
      let '(whole, frac) := match split_once "." t with Some wf => wf | None => (t, "") end in
      if is_empty whole && is_empty frac then None
      else
        whole ← (if is_empty whole then Some 0 else parse_u32 whole);
        if (3 <? String.length frac)%nat || negb (all_digits frac)
        then (if negb (is_empty frac) then None
              else milli ← checked u32_max (whole * 1000); positive milli)
        else if is_empty frac
        then milli ← checked u32_max (whole * 1000); positive milli
        else
          f ← parse_u32 (pad3 frac);
          w ← checked u32_max (whole * 1000);
          v ← checked u32_max (w + f);
          positive v
  end.

(** The text around the first character that is neither a digit nor a dot. *)
Fixpoint split_unit (t : string) : string * string :=
  match t with
  | EmptyString => (EmptyString, EmptyString)
  | String a t' =>
      if is_digit a || Ascii.eqb a "." then
        let '(num, unit) := split_unit t' in (String a num, unit)
      else (EmptyString, t)
  end.

Definition one_of (s : string) (l : list string) : bool := existsb (String.eqb s) l.

Definition unit_kib (unit : string) : option N :=
  if one_of unit ["k"; "kb"; "kib"] then Some 1
  else if one_of unit ["m"; "mb"; "mib"; ""] then Some 1024
  else if one_of unit ["g"; "gb"; "gib"] then Some (1024 * 1024)
  else if one_of unit ["t"; "tb"; "tib"] then Some (1024 * 1024 * 1024)
  else None.

Definition parse_mem_mb (s : string) : option N :=
  let t := to_ascii_lowercase (trim s) in
  if is_empty t then None
  else
    let '(num, unit) := split_unit t in
    let num := trim num in
    let unit := trim unit in
    if is_empty num then None
    else
      let '(whole, frac) := match split_once "." num with Some wf => wf | None => (num, "") end in
      if (3 <? String.length frac)%nat || (negb (all_digits frac) && negb (is_empty frac))
      then None
      else
        whole ← (if is_empty whole then Some 0 else parse_u64 whole);
        frac_milli ← (if is_empty frac then Some 0 else parse_u64 (pad3 frac));
        unit ← unit_kib unit;
        a ← checked u64_max (whole * unit);
        b ← checked u64_max (frac_milli * unit);
        kib ← checked u64_max (a + b / 1000);
        positive (kib / 1024).

(** ** Hosts *)

Record HostSpec := mkHostSpec { spec_cpu_milli : N; spec_mem_mb : N }.

Record ReservedTotals := mkReservedTotals { res_cpu_milli : N; res_mem_mb : N; res_tenants : N }.

Record MeasuredLoad := mkMeasuredLoad { load_cpu_milli : N; load_mem_mb : N; load_at : Z }.

Record HostCapacity := mkHostCapacity {
  cap_ownership : HostOwnership;
  cap_spec : option HostSpec;
  overcommit_cpu_pct : N;
  overcommit_mem_pct : N;
  reserved : ReservedTotals;
  measured : option MeasuredLoad;
}.

Definition pct (p : N) : N := if p =? 0 then 100 else p.

Definition ceilings (c : HostCapacity) : option (N * N) :=
  spec ← cap_spec c;
  Some (u64_mul (spec_cpu_milli spec) (pct (overcommit_cpu_pct c)) / 100,
        u64_mul (spec_mem_mb spec) (pct (overcommit_mem_pct c)) / 100).

Definition fits (cap : HostCapacity) (req : ResourceReq) : bool :=
  match ceilings cap with
  | None => false
  | Some (cpu_ceiling, mem_ceiling) =>
      (u64_add (res_cpu_milli (reserved cap)) (cpu_floor_milli req) <=? cpu_ceiling) &&
      (u64_add (res_mem_mb (reserved cap)) (mem_floor_mb req) <=? mem_ceiling)
  end.

Definition share (used ceiling : N) : N :=
  if ceiling =? 0 then 1000 else N.min (u64_sat_mul used 1000 / ceiling) 1000.

Definition utilization_permille (cap : HostCapacity) : N :=
  match ceilings cap with
  | None => 1000
  | Some (cpu_ceiling, mem_ceiling) =>
      N.max (share (res_cpu_milli (reserved cap)) cpu_ceiling)
            (share (res_mem_mb (reserved cap)) mem_ceiling)
  end.

(** [as u32] of a float. *)
Definition float_to_u32 (f : spec_float) : N := N.min (float_to_usize f) u32_max.

Definition overcommit_pct (ratio : f64) : N :=
  if is_nan ratio || SFltb ratio (F64.lit 1 1) then 100
  else float_to_u32 (F64.round (F64.mul (fmin ratio (F64.lit 16 1)) (F64.lit 100 1))).

(** ** Trust classes *)

Inductive TrustClass := T0HostShell | T1Container | T2RootlessContainer | T3GuestKernel.

Global Instance TrustClass_eq_dec : EqDecision TrustClass.
Proof. solve_decision. Defined.

(** The derived [Ord] follows the declaration order. *)
Definition trust_rank (t : TrustClass) : N :=
  match t with
  | T0HostShell => 0 | T1Container => 1 | T2RootlessContainer => 2 | T3GuestKernel => 3
  end.

Definition trust_lt (a b : TrustClass) : bool := trust_rank a <? trust_rank b.

Definition one_notch_down (t : TrustClass) : TrustClass :=
  match t with
  | T0HostShell | T1Container => T0HostShell
  | T2RootlessContainer => T1Container
  | T3GuestKernel => T2RootlessContainer
  end.

Inductive RuntimeKind := Podman | Docker | CloudManaged.

Record RuntimeInfo := mkRuntimeInfo {
  rt_kind : RuntimeKind;
  rt_version : string;
  rt_rootless : bool;
  rt_socket : option string;
}.

(** The argument is the [runtime] of the probed capabilities, the one field the
    function reads. *)
Definition derived_class (runtime : option RuntimeInfo) : TrustClass :=
  match runtime with
  | None => T0HostShell
  | Some rt =>
      match rt_kind rt with
      | Podman => if rt_rootless rt then T2RootlessContainer else T1Container
      | Docker => T1Container
      | CloudManaged => T3GuestKernel
      end
  end.

Definition effective_class (runtime : option RuntimeInfo) (ownership : HostOwnership)
    (attested : bool) : TrustClass :=
  let derived := derived_class runtime in
  match ownership with
  | Managed => derived
  | Independent => if attested then derived else one_notch_down derived
  end.

Inductive SandboxProfile := Open_ | Hardened | Sealed | SealedTunnel.

Definition required_class (profile : SandboxProfile) : TrustClass :=
  match profile with
  | Sealed | SealedTunnel => T2RootlessContainer
  | Open_ | Hardened => T1Container
  end.

(** ** Policy *)

Inductive PlacementModePref := Auto | Packed_ | Dedicated_.
Inductive PackStrategy := BinPack | Spread.
Inductive OnExhaustion := Queue_ | Reject_ | Error_.
Inductive PlacementPreset := PNone | Balanced | CostOptimized | LatencyOptimized | Isolated.

Global Instance PlacementModePref_eq_dec : EqDecision PlacementModePref.
Proof. solve_decision. Defined.
Global Instance PackStrategy_eq_dec : EqDecision PackStrategy.
Proof. solve_decision. Defined.
Global Instance OnExhaustion_eq_dec : EqDecision OnExhaustion.
Proof. solve_decision. Defined.

Definition mode_rank (m : PlacementModePref) : N :=
  match m with Auto => 0 | Packed_ => 1 | Dedicated_ => 2 end.

Definition clamp_mode (pref floor : PlacementModePref) : PlacementModePref :=
  if mode_rank pref <? mode_rank floor then floor else pref.

Record ResourcesDecl := mkResourcesDecl {
  d_cpu : string;
  d_memory : string;
  d_cpu_max : string;
  d_memory_max : string;
}.

Definition resources_is_empty (d : ResourcesDecl) : bool :=
  is_empty (d_cpu d) && is_empty (d_memory d) && is_empty (d_cpu_max d) &&
  is_empty (d_memory_max d).

(** The closures [parse] and [opt] of [to_req]: an unset field, or one that
    does not parse, falls back. *)
Definition decl_floor (raw : string) (parsed : option N) (fb : N) : N :=
  if is_empty (trim raw) then fb else default fb parsed.

Definition decl_ceiling (raw : string) (parsed fb : option N) : option N :=
  if is_empty (trim raw) then fb
  else match parsed with Some v => Some v | None => fb end.

Definition to_req (d : ResourcesDecl) (fallback : ResourceReq) : ResourceReq :=
  mkResourceReq
    (decl_floor (d_cpu d) (parse_cpu_milli (d_cpu d)) (cpu_floor_milli fallback))
    (decl_floor (d_memory d) (parse_mem_mb (d_memory d)) (mem_floor_mb fallback))
    (decl_ceiling (d_cpu_max d) (parse_cpu_milli (d_cpu_max d)) (cpu_ceiling_milli fallback))
    (decl_ceiling (d_memory_max d) (parse_mem_mb (d_memory_max d)) (mem_ceiling_mb fallback)).

Record ManagedTemplate := mkManagedTemplate {
  t_provider : string;
  t_region : string;
  t_size : string;
  t_cpu : string;
  t_memory : string;
  t_max : N;
}.

Definition template_spec (t : ManagedTemplate) : option HostSpec :=
  match parse_cpu_milli (t_cpu t), parse_mem_mb (t_memory t) with
  | Some c, Some m => Some (mkHostSpec c m)
  | _, _ => None
  end.

Definition lane_key (t : ManagedTemplate) : string :=
  ("tpl:" ++ trim (t_provider t) ++ "/" ++ trim (t_size t))%string.

Definition effective_max (t : ManagedTemplate) : N := if t_max t =? 0 then 1 else t_max t.

Record AutoscaleConfig := mkAutoscaleConfig {
  as_enabled : bool;
  as_max_hosts : N;
  as_min_hosts : N;
  scale_down_idle_secs : N;
  cooldown_secs : N;
  managed : list ManagedTemplate;
}.

Definition AutoscaleConfig_default : AutoscaleConfig := mkAutoscaleConfig false 0 0 900 60 [].

Definition effective_max_hosts (a : AutoscaleConfig) : N :=
  if as_max_hosts a =? 0 then 3 else as_max_hosts a.

Record PlacementConfig := mkPlacementConfig {
  p_enabled : bool;
  preset : PlacementPreset;
  p_mode : PlacementModePref;
  strictest_allowed_mode : PlacementModePref;
  p_pack_strategy : PackStrategy;
  p_on_exhaustion : OnExhaustion;
  overcommit : f64;
  mem_overcommit : f64;
  default_resources : ResourcesDecl;
  independent_safety_pct : N;
  headroom_ttl_secs : N;
  spillover_envs : list string;
  price : gmap string f64;
  max_monthly_spend : f64;
  p_autoscale : AutoscaleConfig;
}.

Definition PlacementConfig_default : PlacementConfig :=
  mkPlacementConfig false PNone Auto Auto BinPack Queue_ (F64.lit 2 1) (F64.lit 1 1)
    (mkResourcesDecl "" "" "" "") 85 60 [] ∅ F64.zero AutoscaleConfig_default.

(** The closure [set] of [expand_into]. *)
Definition preset_set (pl : PlacementConfig) (mode : PlacementModePref) (pack : PackStrategy)
    (on : OnExhaustion) : PlacementConfig :=
  let d := PlacementConfig_default in
  {| p_enabled := p_enabled pl;
     preset := preset pl;
     p_mode := if decide (p_mode pl = p_mode d) then mode else p_mode pl;
     strictest_allowed_mode := strictest_allowed_mode pl;
     p_pack_strategy :=
       if decide (p_pack_strategy pl = p_pack_strategy d) then pack else p_pack_strategy pl;
     p_on_exhaustion :=
       if decide (p_on_exhaustion pl = p_on_exhaustion d) then on else p_on_exhaustion pl;
     overcommit := overcommit pl;
     mem_overcommit := mem_overcommit pl;
     default_resources := default_resources pl;
     independent_safety_pct := independent_safety_pct pl;
     headroom_ttl_secs := headroom_ttl_secs pl;
     spillover_envs := spillover_envs pl;
     price := price pl;
     max_monthly_spend := max_monthly_spend pl;
     p_autoscale := p_autoscale pl |}.

Definition expand_into (p : PlacementPreset) (pl : PlacementConfig) : PlacementConfig :=
  match p with
  | PNone | Balanced => pl
  | CostOptimized => preset_set pl Packed_ BinPack Queue_
  | LatencyOptimized => preset_set pl Auto Spread Reject_
  | Isolated => preset_set pl Dedicated_ Spread Error_
  end.

(** The fields of [EnvConfig] the resolution reads. *)
Record EnvConfig := mkEnvConfig {
  placement_mode : option PlacementModePref;
  env_resources : ResourcesDecl;
}.

Record ResolvedPlacement := mkResolvedPlacement {
  r_enabled : bool;
  r_mode : PlacementModePref;
  r_pack_strategy : PackStrategy;
  r_on_exhaustion : OnExhaustion;
  r_overcommit_cpu_pct : N;
  r_overcommit_mem_pct : N;
  r_req : ResourceReq;
  floor_applied : bool;
}.

Definition resolve_placement (cfg : PlacementConfig) (env : option EnvConfig)
    (zone_floor : option PlacementModePref) : ResolvedPlacement :=
  let pl := expand_into (preset cfg) cfg in
  let requested :=
    match env with
    | Some e => default (p_mode pl) (placement_mode e)
    | None => p_mode pl
    end in
  let floor :=
    match zone_floor with
    | Some zf =>
        if mode_rank (strictest_allowed_mode pl) <? mode_rank zf then zf
        else strictest_allowed_mode pl
    | None => strictest_allowed_mode pl
    end in
  let mode := clamp_mode requested floor in
  let defaults := to_req (default_resources pl) ResourceReq_default in
  let req :=
    match env with
    | Some e => if negb (resources_is_empty (env_resources e))
                then to_req (env_resources e) defaults else defaults
    | None => defaults
    end in
  {| r_enabled := p_enabled pl;
     r_mode := mode;
     r_pack_strategy := p_pack_strategy pl;
     r_on_exhaustion := p_on_exhaustion pl;
     r_overcommit_cpu_pct := overcommit_pct (overcommit pl);
     r_overcommit_mem_pct := overcommit_pct (mem_overcommit pl);
     r_req := req;
     floor_applied := bool_decide (mode <> requested) |}.

(** ** The resolved policy *)

Lemma clamp_rank p f : mode_rank (clamp_mode p f) = N.max (mode_rank p) (mode_rank f).
Proof. by destruct p, f. Qed.

Lemma positive_Some n m : positive n = Some m -> m = n /\ 0 < n.
Proof. unfold positive. destruct (N.ltb_spec 0 n); [|done]. intros [= <-]. done. Qed.

Lemma checked_Some max n m : checked max n = Some m -> m = n /\ n <= max.
Proof. unfold checked. destruct (N.leb_spec n max); [|done]. intros [= <-]. done. Qed.

(** One step of an [?]-chain taken apart. *)
Ltac bind_inv H :=
  lazymatch type of H with
  | mbind _ ?e = Some _ =>
      let E := fresh "E" in
      destruct e eqn:E; [cbn [mbind option_bind] in H|discriminate H]
  end.

Lemma cpu_positive s n : parse_cpu_milli s = Some n -> 0 < n.
Proof.
  unfold parse_cpu_milli. intros H.
  repeat (case_match; try done); repeat bind_inv H; repeat (case_match; try done);
    repeat bind_inv H; try discriminate H; by apply positive_Some in H as [-> ?].
Qed.

Lemma mem_positive s n : parse_mem_mb s = Some n -> 0 < n.
Proof.
  unfold parse_mem_mb. intros H.
  repeat (case_match; try done); repeat bind_inv H; by apply positive_Some in H as [-> ?].
Qed.

Lemma to_req_positive d fb :
  0 < cpu_floor_milli fb -> 0 < mem_floor_mb fb ->
  0 < cpu_floor_milli (to_req d fb) /\ 0 < mem_floor_mb (to_req d fb).
Proof.
  intros Hc Hm. unfold to_req, decl_floor. simpl. split; case_match; [done| |done|].
  - destruct (parse_cpu_milli (d_cpu d)) eqn:E; [|done]. by apply cpu_positive in E.
  - destruct (parse_mem_mb (d_memory d)) eqn:E; [|done]. by apply mem_positive in E.
Qed.

Lemma expand_floor p pl : strictest_allowed_mode (expand_into p pl) = strictest_allowed_mode pl.
Proof. by destruct p. Qed.

(** Whatever the preset, the environment and the zone ask for, the resolved
    mode is at least as strict as the request and as both floors, and no
    stricter than the strictest of them; and a sandbox always reserves some
    cpu and memory, however its declaration is spelled. *)
Theorem resolve_sound (cfg : PlacementConfig) (env : option EnvConfig)
    (zone_floor : option PlacementModePref) :
  let out := resolve_placement cfg env zone_floor in
  let requested := default (p_mode (expand_into (preset cfg) cfg)) (e ← env; placement_mode e) in
  mode_rank (r_mode out) =
    N.max (mode_rank requested)
      (N.max (mode_rank (strictest_allowed_mode cfg)) (default 0 (mode_rank <$> zone_floor))) /\
  (floor_applied out = false <-> r_mode out = requested) /\
  0 < cpu_floor_milli (r_req out) /\ 0 < mem_floor_mb (r_req out).
Proof.
  unfold resolve_placement. cbn zeta. simpl.
  split; [|split].
  - rewrite clamp_rank. f_equal.
    + destruct env as [e|]; simpl; [by destruct (placement_mode e)|done].
    + destruct zone_floor as [z|]; simpl; rewrite ?expand_floor; [|by destruct (strictest_allowed_mode cfg)].
      destruct (N.ltb_spec (mode_rank (strictest_allowed_mode cfg)) (mode_rank z)); lia.
  - rewrite bool_decide_eq_false.
    destruct env as [e|]; simpl; [destruct (placement_mode e); simpl|]; split; try naive_solver;
      intros H; by apply dec_stable.
  - assert (0 < 1000 /\ 0 < 2048) as [H1 H2] by lia.
    pose proof (to_req_positive (default_resources (expand_into (preset cfg) cfg))
      ResourceReq_default H1 H2) as [H3 H4].
    destruct env as [e|]; [|done]. case_match; [|done]. by apply to_req_positive.
Qed.

(** A mode written out as [auto] under the preset [isolated] still resolves to
    a dedicated host: the expansion only sees that the key has its default
    value. *)
Example preset_overrides_auto :
  r_mode (resolve_placement
    {| p_enabled := true; preset := Isolated; p_mode := Auto; strictest_allowed_mode := Auto;
       p_pack_strategy := BinPack; p_on_exhaustion := Queue_; overcommit := F64.lit 2 1;
       mem_overcommit := F64.lit 1 1; default_resources := mkResourcesDecl "" "" "" "";
       independent_safety_pct := 85; headroom_ttl_secs := 60; spillover_envs := []; price := ∅;
       max_monthly_spend := F64.zero; p_autoscale := AutoscaleConfig_default |} None None) = Dedicated_.
Proof. reflexivity. Qed.

(** ** Quantities *)

Lemma fmt_digits n : all_digits (fmt_N n) = true.
Proof.
  rewrite fmt_N_eq. induction (N.to_uint n) as [|d IH|d IH|d IH|d IH|d IH|d IH|d IH|d IH|d IH|d IH];
    [done|..]; exact IH.
Qed.

Lemma all_digits_app a b : all_digits (a ++ b) = all_digits a && all_digits b.
Proof. induction a as [|x a IH]; simpl; [done|]. by rewrite IH, andb_assoc. Qed.

Lemma digits_no_char c s : is_digit c = false -> all_digits s = true -> no_char c s = true.
Proof.
  intros Hc. induction s as [|a s IH]; simpl; [done|]. intros [Ha Hs]%andb_true_iff.
  rewrite (IH Hs), andb_true_r. apply negb_true_iff, Ascii.eqb_neq. intros ->. congruence.
Qed.

Lemma strip_suffix_no_char c s : no_char c s = true -> strip_suffix c s = None.
Proof.
  induction s as [|a s IH]; [done|]. intros [Ha Hs]%andb_true_iff. simpl.
  apply negb_true_iff in Ha. rewrite Ha. rewrite (IH Hs). by destruct s.
Qed.

Lemma lower_digits s : all_digits s = true -> to_ascii_lowercase s = s.
Proof.
  induction s as [|a s IH]; simpl; [done|]. intros [Ha Hs]%andb_true_iff. rewrite (IH Hs).
  f_equal. unfold to_lower, is_digit, byte_in in *. split_ifs; [lia|done].
Qed.

Lemma split_unit_digits s u a :
  all_digits s = true -> is_digit a = false -> a <> "."%char ->
  split_unit (s ++ String a u) = (s, String a u).
Proof.
  intros Hs Ha Hd. induction s as [|b s IH]; simpl.
  - rewrite Ha. by apply Ascii.eqb_neq in Hd as ->.
  - simpl in Hs. apply andb_true_iff in Hs as [Hb Hs]. by rewrite Hb, (IH Hs).
Qed.

Lemma digits_graphic s : all_digits s = true -> str_forall graphic s = true.
Proof.
  induction s as [|a s IH]; simpl; [done|]. intros [Ha Hs]%andb_true_iff. rewrite (IH Hs), andb_true_r.
  unfold is_digit, graphic, byte_in in *. bool_to_prop. apply andb_true_iff. rewrite !N.leb_le. lia.
Qed.

Lemma trim_digits s c :
  all_digits s = true -> str_forall graphic c = true -> trim (s ++ c) = (s ++ c)%string.
Proof.
  intros Hs Hc. apply trim_graphic. rewrite str_forall_app, Hc, andb_true_r.
  by apply digits_graphic.
Qed.

Lemma str_app_empty a b : b <> EmptyString -> is_empty (a ++ b) = false.
Proof. by destruct a, b. Qed.

Lemma pos_checked max n : 0 < n -> n <= max -> (x ← checked max n; positive x) = Some n.
Proof.
  intros H0 Hn. unfold checked. rewrite (proj2 (N.leb_le _ _) Hn). simpl.
  unfold positive. by rewrite (proj2 (N.ltb_lt _ _) H0).
Qed.

(** [f < 1000] as exactly three digits. *)
Definition fmt3 (f : N) : string :=
  (fmt_N (f / 100) ++ fmt_N ((f / 10) mod 10) ++ fmt_N (f mod 10))%string.

Definition fmt3_ok (f : N) : bool :=
  bool_decide (String.length (fmt3 f) = 3%nat) && all_digits (fmt3 f) &&
  bool_decide (parse_u32 (fmt3 f) = Some f).

(** Below a bound of one thousand the padded form can be checked outright. *)
Lemma fmt3_spec f :
  f < 1000 ->
  String.length (fmt3 f) = 3%nat /\ all_digits (fmt3 f) = true /\ parse_u32 (fmt3 f) = Some f.
Proof.
  intros Hf.
  assert (forallb fmt3_ok (N.of_nat <$> seq 0 1000) = true) as H by (vm_compute; reflexivity).
  rewrite forallb_forall in H. specialize (H f).
  assert (fmt3_ok f = true) as Ho.
  { apply H, list_elem_of_In, list_elem_of_fmap. exists (N.to_nat f).
    split; [lia|]. apply elem_of_seq. lia. }
  unfold fmt3_ok in Ho. rewrite !andb_true_iff, !bool_decide_eq_true in Ho. tauto.
Qed.

Lemma checked_ok max n : n <= max -> checked max n = Some n.
Proof. intros H. unfold checked. by rewrite (proj2 (N.leb_le _ _) H). Qed.

Lemma cpu_millis n : 0 < n <= u32_max -> parse_cpu_milli (fmt_N n ++ "m") = Some n.
Proof.
  intros [H0 Hn]. pose proof (fmt_digits n) as D. unfold parse_cpu_milli.
  rewrite (trim_digits _ "m" D eq_refl), str_app_empty by done.
  unfold strip_milli. rewrite strip_suffix_app, trim_graphic by (by apply digits_graphic).
  rewrite parse_fmt_u32 by done. simpl. unfold positive. by rewrite (proj2 (N.ltb_lt _ _) H0).
Qed.

Lemma mem_mebis n : 0 < n <= u32_max -> parse_mem_mb (fmt_N n ++ "m") = Some n.
Proof.
  intros [H0 Hn]. pose proof (fmt_digits n) as D. unfold parse_mem_mb.
  rewrite (trim_digits _ "m" D eq_refl), lower_app, lower_digits by done.
  change (to_ascii_lowercase "m") with "m". rewrite str_app_empty by done.
  rewrite (split_unit_digits (fmt_N n) "" "m" D eq_refl) by done.
  rewrite (trim_graphic _ (digits_graphic _ D)), fmt_N_nonempty.
  rewrite (split_once_char_None "." _ (digits_no_char "." _ eq_refl D)).
  change ((3 <? String.length "")%nat || (negb (all_digits "") && negb (is_empty ""))) with false.
  cbv iota beta. rewrite fmt_N_nonempty. unfold parse_u64.
  rewrite parse_fmt by (unfold u32_max, u64_max in *; lia).
  change (unit_kib (trim "m")) with (Some 1024). cbn [mbind option_bind is_empty].
  rewrite (checked_ok _ (n * 1024)) by (unfold u32_max, u64_max in *; lia).
  change (checked u64_max (0 * 1024)) with (Some 0). cbn [mbind option_bind].
  change (0 / 1000) with 0. rewrite N.add_0_r, checked_ok by (unfold u32_max, u64_max in *; lia).
  cbn [mbind option_bind]. rewrite N.div_mul by done.
  unfold positive. by rewrite (proj2 (N.ltb_lt _ _) H0).
Qed.

Lemma no_milli w f c :
  f < 1000 -> is_digit c = false -> c <> "."%char ->
  strip_suffix c (fmt_N w ++ String "." (fmt3 f)) = None.
Proof.
  intros Hf Hc Hd. apply strip_suffix_no_char. rewrite no_char_app.
  rewrite (digits_no_char c _ Hc (fmt_digits w)). cbn [no_char andb].
  rewrite (digits_no_char c _ Hc) by (by apply fmt3_spec). rewrite andb_true_r.
  apply negb_true_iff, Ascii.eqb_neq. congruence.
Qed.

Lemma cpu_cores w f :
  f < 1000 -> 0 < w * 1000 + f <= u32_max ->
  parse_cpu_milli (fmt_N w ++ String "." (fmt3 f)) = Some (w * 1000 + f).
Proof.
  intros Hf [H0 Hw]. pose proof (fmt_digits w) as D. destruct (fmt3_spec f Hf) as (L3 & D3 & P3).
  unfold parse_cpu_milli.
  assert (str_forall graphic (String "." (fmt3 f)) = true) as G3 by (exact (digits_graphic _ D3)).
  rewrite (trim_digits _ _ D G3), str_app_empty by done.
  unfold strip_milli. rewrite !no_milli by done.
  rewrite (split_once_char "." _ (fmt3 f) (digits_no_char "." _ eq_refl D)).
  rewrite fmt_N_nonempty. cbn [andb]. cbv iota.
  rewrite (parse_fmt_u32 w) by (unfold u32_max in *; lia). cbn [mbind option_bind].
  rewrite L3, D3. change ((3 <? 3)%nat || negb true) with false. cbv iota.
  assert (is_empty (fmt3 f) = false) as -> by (by destruct (fmt3 f)).
  assert (pad3 (fmt3 f) = fmt3 f) as -> by (unfold pad3; rewrite L3; apply str_app_nil_r).
  rewrite P3. cbn [mbind option_bind]. rewrite (checked_ok _ (w * 1000)) by lia.
  cbn [mbind option_bind]. by apply pos_checked.
Qed.

(** The quantities of a resource declaration mean what they say: `<n>m` is
    [n] millicores as a cpu and [n] MiB as memory, and `<w>.<fff>` cores are
    [w * 1000 + fff] millicores, exactly and up to the width of the result. *)
Theorem quantities_exact (n w f : N) :
  0 < n <= u32_max -> f < 1000 -> 0 < w * 1000 + f <= u32_max ->
  parse_cpu_milli (fmt_N n ++ "m") = Some n /\
  parse_mem_mb (fmt_N n ++ "m") = Some n /\
  parse_cpu_milli (fmt_N w ++ String "." (fmt3 f)) = Some (w * 1000 + f).
Proof.
  intros Hn Hf Hw. split_and!; [by apply cpu_millis|by apply mem_mebis|by apply cpu_cores].
Qed.

Lemma quantities_exact_witness :
  parse_cpu_milli "500m" = Some 500 /\ parse_cpu_milli "2.025" = Some 2025.
Proof.
  destruct (quantities_exact 500 2 25) as (H1 & _ & H3); [by vm_compute..|].
  split; [exact H1|exact H3].
Defined.

Example quantities_units :
  parse_mem_mb " 0.5 GiB" = Some 512 /\
  parse_mem_mb "2t" = Some 2097152 /\ parse_cpu_milli ".5" = Some 500 /\
  parse_cpu_milli "1.2345" = None.
Proof. by vm_compute. Qed.
