(* ===== verification/Broker.v ===== *)
(** * The placement broker

    thegn-core/src/scheduler.rs: on which host a sandbox goes, whether a new
    host is created for it, and which hosts are given back.  [Placed] is the
    abstract reading of the lane order in the module's comment; the broker is
    proved to compute it. *)
From Stdlib Require Import Ascii String.
From S2P Require Import Prelude RustOrd RustFloat RustStr Image Capacity.
Local Open Scope list_scope.
Local Open Scope N_scope.

Abbreviation HostId := string (only parsing).

Record PlacementRequest := mkPlacementRequest {
  sandbox : string;
  worktree : string;
  req : ResourceReq;
  mode : PlacementModePref;
  zone : string;
  required_trust : TrustClass;
  req_arch : option Arch;
}.

Record HostSnapshot := mkHostSnapshot {
  host : HostId;
  ownership : HostOwnership;
  capacity : HostCapacity;
  ready : bool;
  failed : bool;
  draining : bool;
  trust : TrustClass;
  host_arch : option Arch;
  tenant_zones : gset string;
  tenants : N;
  has_dedicated_tenant : bool;
}.

Inductive Ineligible :=
| NotReady | Draining | IneligibleTrust | ZoneCoTenancy | DedicatedOccupied
| Occupied | NoCapacity | WrongArch | UnknownSpec.

(** ** Eligibility *)

Definition base_eligible (h : HostSnapshot) (r : PlacementRequest) : result Ineligible unit :=
  if failed h then Err NotReady
  else if draining h then Err Draining
  else match req_arch r, host_arch h with
       | Some want, Some have => if bool_decide (want <> have) then Err WrongArch else Ok tt
       | _, _ => Ok tt
       end.

Definition pack_eligible (h : HostSnapshot) (r : PlacementRequest) : result Ineligible unit :=
  let? _ := base_eligible h r in
  if trust_lt (trust h) (required_trust r) then Err IneligibleTrust
  else if has_dedicated_tenant h then Err DedicatedOccupied
  else if existsb (fun z => negb (String.eqb z (zone r))) (elements (tenant_zones h))
  then Err ZoneCoTenancy
  else if match cap_spec (capacity h) with None => true | Some _ => false end
  then Err UnknownSpec
  else if negb (fits (capacity h) (req r)) then Err NoCapacity
  else Ok tt.

Definition dedicated_eligible (h : HostSnapshot) (r : PlacementRequest) : result Ineligible unit :=
  let? _ := base_eligible h r in
  if (0 <? tenants h) || has_dedicated_tenant h then Err Occupied else Ok tt.

(** ** Ranking *)

(** What the comparator of [rank_hosts] looks at, and how. *)
Definition rank_key (h : HostSnapshot) : bool * N * HostId :=
  (ready h, utilization_permille (capacity h), host h).

Definition rank_cmp (strategy : PackStrategy) : bool * N * HostId -> bool * N * HostId -> comparison :=
  lex (on (fun k => fst (fst k)) (reverse cmp_bool))
    (lex (on (fun k => snd (fst k))
            (match strategy with BinPack => reverse N.compare | Spread => N.compare end))
         (on snd String.compare)).

Definition rank_hosts (eligible : list HostSnapshot) (strategy : PackStrategy) : list HostId :=
  host <$> sort_by (on rank_key (rank_cmp strategy)) eligible.

(** ** The broker *)

Record AutoscaleSnapshot := mkAutoscaleSnapshot {
  managed_count : N;
  lane_counts : gmap string N;
  cooling : gset string;
}.

Record PlacementInputs := mkPlacementInputs {
  hosts : list HostSnapshot;
  pack_strategy : PackStrategy;
  on_exhaustion : OnExhaustion;
  autoscale : AutoscaleConfig;
  autoscale_state : AutoscaleSnapshot;
}.

Inductive PlacementDecision :=
| Dedicated (host : HostId) (alternates : list HostId)
| Packed (host : HostId) (alternates : list HostId)
| Provision (template : ManagedTemplate)
| Queue
| Reject
| Halt.

Record DecisionOutput := mkDecisionOutput {
  decision : PlacementDecision;
  candidates : list (HostId * option Ineligible);
}.

Definition template_fits (t : ManagedTemplate) (r : PlacementRequest) (oc_cpu_pct oc_mem_pct : N)
    : bool :=
  match template_spec t with
  | None => false
  | Some spec =>
      fits (mkHostCapacity Managed (Some spec) oc_cpu_pct oc_mem_pct (mkReservedTotals 0 0 0) None)
        (req r)
  end.

Fixpoint exhaust_lanes (r : PlacementRequest) (s : AutoscaleSnapshot) (oc_cpu_pct oc_mem_pct : N)
    (ts : list ManagedTemplate) : option ManagedTemplate :=
  match ts with
  | [] => None
  | t :: ts =>
      let key := lane_key t in
      let next := exhaust_lanes r s oc_cpu_pct oc_mem_pct ts in
      if bool_decide (key ∈ cooling s) then next
      else if effective_max t <=? default 0 (lane_counts s !! key) then next
      else if negb (template_fits t r oc_cpu_pct oc_mem_pct) then next
      else Some t
  end.

Definition exhaust (r : PlacementRequest) (i : PlacementInputs)
    (candidates : list (HostId * option Ineligible)) (oc_cpu_pct oc_mem_pct : N)
    : DecisionOutput :=
  let a := autoscale i in
  let s := autoscale_state i in
  let lane :=
    if as_enabled a && (managed_count s <? effective_max_hosts a)
    then exhaust_lanes r s oc_cpu_pct oc_mem_pct (managed a) else None in
  match lane with
  | Some t => mkDecisionOutput (Provision t) candidates
  | None =>
      mkDecisionOutput
        (match on_exhaustion i with Queue_ => Queue | Reject_ => Reject | Error_ => Halt end)
        candidates
  end.

(** The loop both lanes run over the hosts: the trace, and the eligible ones. *)
Fixpoint survey (eligible : HostSnapshot -> result Ineligible unit) (hs : list HostSnapshot)
  : list (HostId * option Ineligible) * list HostSnapshot :=
  match hs with
  | [] => ([], [])
  | h :: hs =>
      let '(cs, es) := survey eligible hs in
      match eligible h with
      | Ok _ => ((host h, None) :: cs, h :: es)
      | Err why => ((host h, Some why) :: cs, es)
      end
  end.

Definition is_ok {E A} (r : result E A) : bool :=
  match r with Ok _ => true | Err _ => false end.

Definition decide_placement (r : PlacementRequest) (i : PlacementInputs)
    (oc_cpu_pct oc_mem_pct : N) : DecisionOutput :=
  match mode r with
  | Dedicated_ =>
      let '(cs, eligible) := survey (fun h => dedicated_eligible h r) (hosts i) in
      match rank_hosts eligible Spread with
      | h :: ranked => mkDecisionOutput (Dedicated h ranked) cs
      | [] => exhaust r i cs oc_cpu_pct oc_mem_pct
      end
  | m =>
      let '(cs, eligible) := survey (fun h => pack_eligible h r) (hosts i) in
      match rank_hosts eligible (pack_strategy i) with
      | h :: ranked => mkDecisionOutput (Packed h ranked) cs
      | [] =>
          let empties :=
            match m with
            | Auto => List.filter (fun h => is_ok (dedicated_eligible h r)) (hosts i)
            | _ => []
            end in
          match rank_hosts empties Spread with
          | h :: ranked => mkDecisionOutput (Dedicated h ranked) cs
          | [] => exhaust r i cs oc_cpu_pct oc_mem_pct
          end
      end
  end.

(** ** Scale-down *)

Record ScaleDownHost := mkScaleDownHost {
  sd_host : HostId;
  sd_ownership : HostOwnership;
  sd_tenants : N;
  engine_created : bool;
  idle_secs : N;
}.

Definition victim (idle_threshold_secs : N) (h : ScaleDownHost) : bool :=
  engine_created h && bool_decide (sd_ownership h = Managed) && (sd_tenants h =? 0) &&
  (idle_threshold_secs <? idle_secs h).

Definition idle_cmp : ScaleDownHost -> ScaleDownHost -> comparison :=
  lex (on idle_secs (reverse N.compare)) (on sd_host String.compare).

(** A count cast to [u32]. *)
Definition as_u32 (n : N) : N := n mod 4294967296.

Definition decide_scaledown (hs : list ScaleDownHost) (idle_threshold_secs min_hosts : N)
    : list HostId :=
  let engine_total := as_u32 (N.of_nat (length (List.filter engine_created hs))) in
  let victims := sort_by idle_cmp (List.filter (victim idle_threshold_secs) hs) in
  let killable := engine_total - min_hosts in
  sd_host <$> take (N.to_nat killable) victims.

(** ** Specification

    Arithmetic without a width, the gates as propositions, the lane order as a
    relation. *)

(** The products and sums of the capacity rule stay below [2^64]. *)
Definition in_range (cap : HostCapacity) (rq : ResourceReq) : Prop :=
  forall spec, cap_spec cap = Some spec ->
    spec_cpu_milli spec * pct (overcommit_cpu_pct cap) < u64_mod /\
    spec_mem_mb spec * pct (overcommit_mem_pct cap) < u64_mod /\
    res_cpu_milli (reserved cap) + cpu_floor_milli rq < u64_mod /\
    res_mem_mb (reserved cap) + mem_floor_mb rq < u64_mod.

(** The floors already reserved and the new one fit the overcommitted size on
    both axes. *)
Definition room (cap : HostCapacity) (rq : ResourceReq) : Prop :=
  exists spec, cap_spec cap = Some spec /\
    100 * (res_cpu_milli (reserved cap) + cpu_floor_milli rq) <=
      spec_cpu_milli spec * pct (overcommit_cpu_pct cap) /\
    100 * (res_mem_mb (reserved cap) + mem_floor_mb rq) <=
      spec_mem_mb spec * pct (overcommit_mem_pct cap).

Definition usable (h : HostSnapshot) (r : PlacementRequest) : Prop :=
  failed h = false /\ draining h = false /\
  forall a b, req_arch r = Some a -> host_arch h = Some b -> a = b.

Definition trusted (h : HostSnapshot) (r : PlacementRequest) : Prop :=
  usable h r /\ trust_rank (required_trust r) <= trust_rank (trust h) /\
  has_dedicated_tenant h = false /\ forall z, z ∈ tenant_zones h -> z = zone r.

Definition may_pack (h : HostSnapshot) (r : PlacementRequest) : Prop :=
  trusted h r /\ room (capacity h) (req r).

Definition may_own (h : HostSnapshot) (r : PlacementRequest) : Prop :=
  usable h r /\ tenants h = 0 /\ has_dedicated_tenant h = false.

(** [a] is asked before [b]: ready hosts first, then by load, then by id. *)
Definition before (s : PackStrategy) (a b : HostSnapshot) : Prop :=
  let ua := utilization_permille (capacity a) in
  let ub := utilization_permille (capacity b) in
  ready a = true /\ ready b = false \/
  ready a = ready b /\
    (match s with BinPack => ub < ua | Spread => ua < ub end \/
     ua = ub /\ String.compare (host a) (host b) <> Gt).

(** [ids] are all the hosts that satisfy [P], in order of preference. *)
Definition Ranked (s : PackStrategy) (P : HostSnapshot -> Prop) (hs : list HostSnapshot)
    (ids : list HostId) : Prop :=
  exists l k, ids = host <$> l /\ StronglySorted (before s) l /\
    hs ≡ₚ l ++ k /\ Forall P l /\ Forall (fun h => ~ P h) k.

Section Spec.
Context (r : PlacementRequest) (i : PlacementInputs) (oc_cpu oc_mem : N).

Definition lane_capacity (spec : HostSpec) : HostCapacity :=
  mkHostCapacity Managed (Some spec) oc_cpu oc_mem (mkReservedTotals 0 0 0) None.

(** A template lane can serve the request now. *)
Definition serves (t : ManagedTemplate) : Prop :=
  (lane_key t ∉ cooling (autoscale_state i)) /\
  default 0 (lane_counts (autoscale_state i) !! lane_key t) < effective_max t /\
  exists spec, template_spec t = Some spec /\ room (lane_capacity spec) (req r).

Definition may_create : Prop :=
  as_enabled (autoscale i) = true /\
  managed_count (autoscale_state i) < effective_max_hosts (autoscale i).

(** No host of the pool can take the request in the asked mode. *)
Definition nowhere : Prop :=
  (mode r <> Dedicated_ -> forall h, h ∈ hosts i -> ~ may_pack h r) /\
  (mode r <> Packed_ -> forall h, h ∈ hosts i -> ~ may_own h r).

Definition last_resort : PlacementDecision :=
  match on_exhaustion i with Queue_ => Queue | Reject_ => Reject | Error_ => Halt end.

Inductive Placed : PlacementDecision -> Prop :=
| Placed_packed h alts :
    mode r <> Dedicated_ ->
    Ranked (pack_strategy i) (fun h => may_pack h r) (hosts i) (h :: alts) ->
    Placed (Packed h alts)
| Placed_dedicated h alts :
    mode r <> Packed_ ->
    (mode r = Auto -> forall h, h ∈ hosts i -> ~ may_pack h r) ->
    Ranked Spread (fun h => may_own h r) (hosts i) (h :: alts) ->
    Placed (Dedicated h alts)
| Placed_provision pre t post :
    nowhere -> may_create ->
    managed (autoscale i) = pre ++ t :: post ->
    Forall (fun t => ~ serves t) pre -> serves t ->
    Placed (Provision t)
| Placed_last :
    nowhere ->
    (may_create -> Forall (fun t => ~ serves t) (managed (autoscale i))) ->
    Placed last_resort.

Definition inputs_in_range : Prop :=
  (forall h, h ∈ hosts i -> in_range (capacity h) (req r)) /\
  (forall t spec, t ∈ managed (autoscale i) -> template_spec t = Some spec ->
     in_range (lane_capacity spec) (req r)).
End Spec.

(** ** The gates decide the propositions *)

Lemma ceiling_le a b n : b <> 0 -> (a <=? n / b) = true <-> b * a <= n.
Proof.
  intros Hb. rewrite N.leb_le. split; intros H.
  - etransitivity; [apply N.mul_le_mono_l, H|]. by apply N.Div0.mul_div_le.
  - by apply N.div_le_lower_bound.
Qed.

Lemma fits_room cap rq : in_range cap rq -> fits cap rq = true <-> room cap rq.
Proof.
  unfold in_range, fits, ceilings, room. destruct (cap_spec cap) as [spec|]; simpl.
  - intros H. destruct (H spec eq_refl) as (H1 & H2 & H3 & H4).
    unfold u64_add, u64_mul. rewrite !N.mod_small by done.
    rewrite andb_true_iff, !ceiling_le by done.
    split; [by eauto|]. intros (? & [= <-] & ?). done.
  - intros _. split; [done|]. by intros (? & ? & ?).
Qed.

Lemma base_usable h r : is_ok (base_eligible h r) = true <-> usable h r.
Proof.
  unfold base_eligible, usable. destruct (failed h), (draining h); simpl; try naive_solver.
  destruct (req_arch r) as [a|], (host_arch h) as [b|]; simpl; try naive_solver.
  case_bool_decide; simpl; split; naive_solver.
Qed.

Lemma zones_all h r :
  existsb (fun z => negb (String.eqb z (zone r))) (elements (tenant_zones h)) = false <->
  forall z, z ∈ tenant_zones h -> z = zone r.
Proof.
  rewrite <- not_true_iff_false, existsb_exists. split.
  - intros H z Hz. destruct (String.eqb_spec z (zone r)) as [->|Hne]; [done|].
    destruct H. exists z. split; [by apply list_elem_of_In, elem_of_elements|].
    by apply negb_true_iff, String.eqb_neq.
  - intros H (z & Hz & Hne). apply list_elem_of_In, elem_of_elements in Hz.
    rewrite (H z Hz), String.eqb_refl in Hne. done.
Qed.

Lemma own_decides h r : is_ok (dedicated_eligible h r) = true <-> may_own h r.
Proof.
  unfold dedicated_eligible, may_own. rewrite <- base_usable.
  destruct (base_eligible h r) as [[]|e]; simpl; [|naive_solver].
  destruct (N.ltb_spec 0 (tenants h)), (has_dedicated_tenant h); simpl;
    split; try naive_solver lia.
Qed.

Lemma base_err h r e :
  base_eligible h r = Err e -> e = NotReady \/ e = Draining \/ e = WrongArch.
Proof. unfold base_eligible. repeat case_match; naive_solver. Qed.

(** The gates in the order they run, each reported only when the earlier ones
    pass. *)
Lemma pack_decides h r :
  in_range (capacity h) (req r) ->
  (is_ok (pack_eligible h r) = true <-> may_pack h r) /\
  (pack_eligible h r = Err IneligibleTrust <->
     usable h r /\ trust_rank (trust h) < trust_rank (required_trust r)) /\
  (pack_eligible h r = Err NoCapacity <->
     trusted h r /\ cap_spec (capacity h) <> None /\ ~ room (capacity h) (req r)).
Proof.
  intros Hr. apply fits_room in Hr. unfold pack_eligible, may_pack, trusted.
  rewrite <- Hr, <- (zones_all h r), <- base_usable, <- N.ltb_ge.
  assert (fits (capacity h) (req r) = true -> cap_spec (capacity h) <> None) as Hs.
  { unfold fits, ceilings. by destruct (cap_spec (capacity h)). }
  unfold trust_lt. rewrite <- N.ltb_lt.
  destruct (base_eligible h r) as [[]|e] eqn:E; simpl.
  - destruct (_ <? _); [naive_solver|]. destruct (has_dedicated_tenant h); [naive_solver|].
    destruct (existsb _ _); [naive_solver|].
    destruct (cap_spec (capacity h)), (fits (capacity h) (req r)); naive_solver.
  - clear Hr Hs. destruct (base_err _ _ _ E) as [-> | [-> | ->] ]; intuition congruence.
Qed.

(** ** Ranking *)

#[global] Instance rank_cmp_lawful s : LawfulCmp (rank_cmp s).
Proof. unfold rank_cmp. destruct s; apply _. Qed.

#[global] Instance rank_cmp_eq s : EqCmp (rank_cmp s).
Proof.
  intros [[a u] h] [[b v] g]. unfold rank_cmp, lex, on, reverse, then_with. simpl.
  destruct (cmp_bool b a) eqn:E1; [|done..].
  assert (a = b) as -> by (by destruct a, b).
  destruct s; (destruct (N.compare _ _) eqn:E2; [|done..]); apply N.compare_eq_iff in E2 as ->;
    by intros ->%String.compare_eq_iff.
Qed.

Lemma rank_before s a b : cmp_le (on rank_key (rank_cmp s)) a b <-> before s a b.
Proof.
  unfold cmp_le, before, on, rank_cmp, rank_key, lex, reverse, on, then_with. simpl.
  destruct (ready a), (ready b); simpl; [|naive_solver..|]; destruct s;
    destruct (N.compare_spec (utilization_permille (capacity b)) (utilization_permille (capacity a)))
      as [E|E|E]; try (rewrite (proj2 (N.compare_lt_iff _ _) E));
    destruct (N.compare_spec (utilization_permille (capacity a)) (utilization_permille (capacity b)))
      as [E'|E'|E']; naive_solver lia.
Qed.

Lemma rank_hosts_perm s l1 l2 : l1 ≡ₚ l2 -> rank_hosts l1 s = rank_hosts l2 s.
Proof.
  intros H. unfold rank_hosts.
  pose proof (sort_by_key rank_key (rank_cmp s) l1 l2 H) as Hk.
  apply (f_equal (fmap snd)) in Hk. by rewrite <- !list_fmap_compose in Hk.
Qed.

Lemma rank_hosts_nil s l : rank_hosts l s = [] <-> l = [].
Proof.
  unfold rank_hosts. split; [|by intros ->].
  intros H%fmap_nil_inv. by apply sort_by_nil in H.
Qed.

Lemma sorted_rank s l :
  StronglySorted (before s) l -> rank_hosts l s = host <$> l.
Proof.
  intros H. unfold rank_hosts.
  assert (rank_key <$> sort_by (on rank_key (rank_cmp s)) l = rank_key <$> l) as Hk.
  { apply (sorted_keys_unique rank_key (rank_cmp s)).
    - apply sort_by_sorted, _.
    - eapply StronglySorted_mono; [|exact H]. intros a b. apply rank_before.
    - by rewrite sort_by_perm. }
  apply (f_equal (fmap snd)) in Hk. by rewrite <- !list_fmap_compose in Hk.
Qed.

(** The ranking is the one list the specification allows. *)
Lemma Ranked_iff s (P : HostSnapshot -> Prop) (p : HostSnapshot -> bool) hs ids :
  (forall h, h ∈ hs -> p h = true <-> P h) ->
  Ranked s P hs ids <-> ids = rank_hosts (List.filter p hs) s.
Proof.
  intros Hp. split.
  - intros (l & k & -> & Hs & Hperm & Hl & Hk).
    rewrite <- (sorted_rank s l Hs). apply rank_hosts_perm. symmetry.
    rewrite (filter_perm p _ _ Hperm), List.filter_app.
    rewrite (filter_true p l), (filter_false p k), app_nil_r; [done|..].
    + intros h Hh. apply not_true_iff_false. rewrite Hp by (rewrite Hperm; set_solver).
      by rewrite Forall_forall in Hk; apply Hk.
    + intros h Hh. apply Hp; [rewrite Hperm; set_solver|].
      by rewrite Forall_forall in Hl; apply Hl.
  - intros ->. exists (sort_by (on rank_key (rank_cmp s)) (List.filter p hs)).
    exists (List.filter (fun h => negb (p h)) hs). repeat split.
    + eapply StronglySorted_mono; [|apply sort_by_sorted; apply _]. intros a b. apply rank_before.
    + rewrite sort_by_perm. apply filter_split.
    + rewrite sort_by_perm. apply Forall_forall. intros h Hh.
      apply elem_of_filter_b in Hh as [Hh Ht]. by apply Hp.
    + apply Forall_forall. intros h [Hh Ht]%elem_of_filter_b.
      rewrite <- (Hp h Hh). by destruct (p h).
Qed.

(** ** The decision *)

Lemma survey_eq e hs :
  survey e hs =
    ((fun h => (host h, match e h with Ok _ => None | Err why => Some why end)) <$> hs,
     List.filter (fun h => is_ok (e h)) hs).
Proof.
  induction hs as [|h hs IH]; simpl; [done|]. rewrite IH. by destruct (e h).
Qed.

Section Decide.
Context (r : PlacementRequest) (i : PlacementInputs) (oc_cpu oc_mem : N).
Context (Hrange : inputs_in_range r i oc_cpu oc_mem).

Abbreviation serving := (serves r i oc_cpu oc_mem).

Lemma packable h : h ∈ hosts i -> is_ok (pack_eligible h r) = true <-> may_pack h r.
Proof. intros Hh. by apply pack_decides, Hrange. Qed.

Lemma ownable h : h ∈ hosts i -> is_ok (dedicated_eligible h r) = true <-> may_own h r.
Proof. intros _. apply own_decides. Qed.

(** No host passes a gate exactly when the ranking is empty. *)
Lemma rank_none s (P : HostSnapshot -> Prop) p :
  (forall h, h ∈ hosts i -> p h = true <-> P h) ->
  rank_hosts (List.filter p (hosts i)) s = [] <-> forall h, h ∈ hosts i -> ~ P h.
Proof.
  intros Hp. rewrite rank_hosts_nil. split.
  - intros Hn h Hh HP. apply (not_elem_of_nil h). rewrite <- Hn.
    apply elem_of_filter_b. split; [done|]. by apply Hp.
  - intros Hn. apply filter_false. intros h Hh. apply not_true_iff_false.
    rewrite Hp by done. auto.
Qed.

Lemma lane_serves t :
  t ∈ managed (autoscale i) ->
  (negb (bool_decide (lane_key t ∈ cooling (autoscale_state i))) &&
   negb (effective_max t <=? default 0 (lane_counts (autoscale_state i) !! lane_key t)) &&
   template_fits t r oc_cpu oc_mem)%bool = true <-> serving t.
Proof.
  intros Ht. rewrite !andb_true_iff, !negb_true_iff, bool_decide_eq_false, N.leb_gt.
  unfold serves, template_fits. destruct (template_spec t) as [spec|] eqn:E; [|naive_solver].
  rewrite (fits_room (lane_capacity oc_cpu oc_mem spec)) by (eapply Hrange; eauto). naive_solver.
Qed.

(** The lanes are asked in order, and the first that serves is taken. *)
Lemma lanes_first ts :
  (forall t, t ∈ ts -> t ∈ managed (autoscale i)) ->
  match exhaust_lanes r (autoscale_state i) oc_cpu oc_mem ts with
  | Some t => exists pre post, ts = pre ++ t :: post /\ Forall (fun t => ~ serving t) pre /\ serving t
  | None => Forall (fun t => ~ serving t) ts
  end.
Proof.
  induction ts as [|t ts IH]; simpl; intros Hts; [done|].
  pose proof (lane_serves t (Hts t ltac:(set_solver))) as Ht.
  specialize (IH ltac:(set_solver)).
  assert (~ serving t ->
    match exhaust_lanes r (autoscale_state i) oc_cpu oc_mem ts with
    | Some t0 => exists pre post, t :: ts = pre ++ t0 :: post /\
                   Forall (fun t => ~ serving t) pre /\ serving t0
    | None => Forall (fun t => ~ serving t) (t :: ts)
    end) as Hskip.
  { intros Hn. destruct (exhaust_lanes _ _ _ _ ts) as [t0|]; [|by constructor].
    destruct IH as (pre & post & -> & Hpre & Ht0). exists (t :: pre), post. auto. }
  destruct (bool_decide _); [apply Hskip; rewrite <- Ht; done|].
  destruct (_ <=? _); [apply Hskip; rewrite <- Ht; done|].
  destruct (template_fits _ _ _ _); [|apply Hskip; rewrite <- Ht; done].
  exists [], ts. split; [done|]. split; [done|]. by apply Ht.
Qed.

Lemma exhaust_sound cs :
  nowhere r i -> Placed r i oc_cpu oc_mem (decision (exhaust r i cs oc_cpu oc_mem)).
Proof.
  intros Hn. unfold exhaust.
  pose proof (lanes_first (managed (autoscale i)) ltac:(done)) as Hl.
  destruct (as_enabled (autoscale i)) eqn:E1, (N.ltb_spec (managed_count (autoscale_state i))
    (effective_max_hosts (autoscale i))) as [E2|E2]; simpl;
    [destruct (exhaust_lanes _ _ _ _ _) as [t|]|..].
  - destruct Hl as (pre & post & Hm & Hpre & Ht). by eapply Placed_provision.
  - apply Placed_last; auto.
  - apply Placed_last; [done|]. intros [_ H]. lia.
  - apply Placed_last; [done|]. intros [H _]. congruence.
  - apply Placed_last; [done|]. intros [H _]. congruence.
Qed.

Lemma decide_sound : Placed r i oc_cpu oc_mem (decision (decide_placement r i oc_cpu oc_mem)).
Proof.
  pose proof (rank_none (pack_strategy i) _ _ packable) as Np.
  pose proof (rank_none Spread _ _ ownable) as No.
  unfold decide_placement. rewrite !survey_eq.
  pose proof (fun ids => Ranked_iff (pack_strategy i) _ _ _ ids packable) as Rp.
  pose proof (fun ids => Ranked_iff Spread _ _ _ ids ownable) as Ro.
  destruct (mode r) eqn:Em; simpl.
  - destruct (rank_hosts _ (pack_strategy i)) as [|h l].
    + destruct (rank_hosts _ Spread) as [|h l].
      * apply exhaust_sound. split; intros _; [by apply Np|by apply No].
      * apply Placed_dedicated; [by rewrite Em|intros _; by apply Np|by apply Ro].
    + apply Placed_packed; [by rewrite Em|by apply Rp].
  - destruct (rank_hosts _ (pack_strategy i)) as [|h l].
    + apply exhaust_sound. split; [intros _; by apply Np|by rewrite Em].
    + apply Placed_packed; [by rewrite Em|by apply Rp].
  - destruct (rank_hosts _ Spread) as [|h l].
    + apply exhaust_sound. split; [by rewrite Em|intros _; by apply No].
    + apply Placed_dedicated; [by rewrite Em|by rewrite Em|by apply Ro].
Qed.

Lemma lanes_skip pre ts :
  (forall t, t ∈ pre -> t ∈ managed (autoscale i)) -> Forall (fun t => ~ serving t) pre ->
  exhaust_lanes r (autoscale_state i) oc_cpu oc_mem (pre ++ ts) =
    exhaust_lanes r (autoscale_state i) oc_cpu oc_mem ts.
Proof.
  induction pre as [|t pre IH]; simpl; intros Hin Hn; [done|].
  inversion Hn as [|? ? Ht Hpre]; subst. rewrite (IH ltac:(set_solver) Hpre).
  rewrite <- (lane_serves t (Hin t ltac:(set_solver))) in Ht.
  destruct (bool_decide _); [done|]. destruct (_ <=? _); [done|]. by destruct (template_fits _ _ _ _).
Qed.

Lemma lanes_take t ts :
  t ∈ managed (autoscale i) -> serving t ->
  exhaust_lanes r (autoscale_state i) oc_cpu oc_mem (t :: ts) = Some t.
Proof.
  intros Hin Ht. apply (lane_serves t Hin) in Ht. simpl.
  destruct (bool_decide _); [done|]. destruct (_ <=? _); [done|]. by destruct (template_fits _ _ _ _).
Qed.

Lemma nowhere_exhausts :
  nowhere r i ->
  exists cs, decide_placement r i oc_cpu oc_mem = exhaust r i cs oc_cpu oc_mem.
Proof.
  intros [Hp Ho]. rewrite <- (rank_none (pack_strategy i) _ _ packable) in Hp.
  rewrite <- (rank_none Spread _ _ ownable) in Ho.
  unfold decide_placement. rewrite !survey_eq. destruct (mode r) eqn:Em; simpl;
    rewrite ?Hp, ?Ho by done; eauto.
Qed.

Lemma decide_complete d :
  Placed r i oc_cpu oc_mem d -> decision (decide_placement r i oc_cpu oc_mem) = d.
Proof.
  intros Hd. destruct Hd as [h l Hm Hr|h l Hm Hp Hr|pre t post Hn [Hc1 Hc2] Hl Hpre Ht|Hn Hl].
  - apply (Ranked_iff _ _ _ _ _ packable) in Hr. unfold decide_placement. rewrite !survey_eq.
    destruct (mode r); simpl; [by rewrite <- Hr..|done].
  - apply (Ranked_iff _ _ _ _ _ ownable) in Hr.
    rewrite <- (rank_none (pack_strategy i) _ _ packable) in Hp.
    unfold decide_placement. rewrite !survey_eq.
    destruct (mode r); simpl; [by rewrite Hp, <- Hr|done|by rewrite <- Hr].
  - destruct (nowhere_exhausts Hn) as [cs ->]. unfold exhaust.
    rewrite Hc1, (proj2 (N.ltb_lt _ _) Hc2), Hl, lanes_skip, lanes_take by (rewrite ?Hl; set_solver).
    done.
  - destruct (nowhere_exhausts Hn) as [cs ->]. unfold exhaust.
    assert ((if as_enabled (autoscale i) &&
        (managed_count (autoscale_state i) <? effective_max_hosts (autoscale i))
      then exhaust_lanes r (autoscale_state i) oc_cpu oc_mem (managed (autoscale i))
      else None) = None) as ->; [|done].
    destruct (as_enabled (autoscale i)) eqn:E; [|done].
    destruct (N.ltb_spec (managed_count (autoscale_state i)) (effective_max_hosts (autoscale i)));
      [simpl|done].
    rewrite <- (app_nil_r (managed _)). apply lanes_skip; [done|]. by apply Hl.
Qed.
End Decide.

(** C7. The broker decides by its lanes: for numbers within range its decision is
    [d] exactly when [d] is the one the specification allows.  A packed placement
    lists every trusted host with room, ready ones first and then in the order of
    the strategy; a dedicated one every empty host, and for [auto] only when
    nothing can be packed; a new host comes from the first template lane that
    serves, and only when no host of the pool will do; the exhaustion policy comes
    last.  The order of the dedicated hosts is the one the code ranks them in -
    ready ones first, then the least utilised, then by id - and not, as the comment
    in [decide_placement] has it, the smallest adequate one of the ready first:
    [dedicated_ignores_size] shows the difference. *)
Theorem decide_refines (r : PlacementRequest) (i : PlacementInputs) (oc_cpu oc_mem : N)
    (d : PlacementDecision) :
  inputs_in_range r i oc_cpu oc_mem ->
  decision (decide_placement r i oc_cpu oc_mem) = d <-> Placed r i oc_cpu oc_mem d.
Proof.
  intros Hr. split; [intros <-; by apply decide_sound|by apply decide_complete].
Qed.

(** The decision does not depend on the order in which the hosts were
    listed. *)
Theorem decide_order_free (r : PlacementRequest) (i : PlacementInputs) (oc_cpu oc_mem : N)
    (hs : list HostSnapshot) :
  hs ≡ₚ hosts i ->
  decision (decide_placement r
    (mkPlacementInputs hs (pack_strategy i) (on_exhaustion i) (autoscale i) (autoscale_state i))
    oc_cpu oc_mem) = decision (decide_placement r i oc_cpu oc_mem).
Proof.
  intros Hp. unfold decide_placement, exhaust. rewrite !survey_eq. simpl.
  rewrite (rank_hosts_perm Spread _ _ (filter_perm (fun h => is_ok (dedicated_eligible h r)) _ _ Hp)).
  rewrite (rank_hosts_perm (pack_strategy i) _ _
    (filter_perm (fun h => is_ok (pack_eligible h r)) _ _ Hp)).
  destruct (mode r); repeat case_match; done.
Qed.

(** The trace [placement explain] shows for a request that may share a host:
    every host in order, marked eligible exactly when it may be packed.  Trust
    comes before cost: a host is called untrusted whatever its load, and full
    only when it is trusted. *)
Theorem trace_correct (r : PlacementRequest) (i : PlacementInputs) (oc_cpu oc_mem : N) :
  mode r <> Dedicated_ ->
  inputs_in_range r i oc_cpu oc_mem ->
  Forall2 (fun h c => fst c = host h /\
      (snd c = None <-> may_pack h r) /\
      (snd c = Some IneligibleTrust <->
         usable h r /\ trust_rank (trust h) < trust_rank (required_trust r)) /\
      (snd c = Some NoCapacity <->
         trusted h r /\ cap_spec (capacity h) <> None /\ ~ room (capacity h) (req r)))
    (hosts i) (candidates (decide_placement r i oc_cpu oc_mem)).
Proof.
  intros Hm [Hr _].
  assert (candidates (decide_placement r i oc_cpu oc_mem) =
    (fun h => (host h, match pack_eligible h r with Ok _ => None | Err why => Some why end)) <$> hosts i)
    as ->.
  { unfold decide_placement, exhaust. rewrite !survey_eq.
    destruct (mode r); [..|done]; simpl; repeat case_match; simplify_eq/=; done. }
  apply Forall2_fmap_r, Forall2_same_length_lookup_2; [done|]. simpl. intros j h ? Hj [= <-]%(eq_trans (eq_sym Hj)).
  destruct (pack_decides h r (Hr h (list_elem_of_lookup_2 _ _ _ Hj))) as (H1 & H2 & H3).
  split; [done|]. rewrite <- H1, <- H2, <- H3.
  destruct (pack_eligible h r); simpl; naive_solver.
Qed.

(** ** Scale-down *)

#[global] Instance idle_cmp_lawful : LawfulCmp idle_cmp.
Proof. unfold idle_cmp. apply _. Qed.

Lemma idle_cmp_le a b : cmp_le idle_cmp a b -> idle_secs b <= idle_secs a.
Proof.
  unfold cmp_le, idle_cmp, lex, on, reverse, then_with.
  destruct (N.compare_spec (idle_secs b) (idle_secs a)); [lia|lia|done].
Qed.

Lemma StronglySorted_take_drop {A} (R : relation A) n l a b :
  StronglySorted R l -> a ∈ take n l -> b ∈ drop n l -> R a b.
Proof. rewrite <- (take_drop n l) at 1. apply StronglySorted_app_1_elem_of. Qed.

Lemma count_perm {A} (p : A -> bool) l1 l2 :
  l1 ≡ₚ l2 -> length (List.filter p l1) = length (List.filter p l2).
Proof. intros H. by apply Permutation_length, filter_perm. Qed.

(** Scaling down destroys only empty, idle hosts the engine created itself,
    the longest idle first, never brings the engine's hosts below the floor,
    and stops only at the floor or when no candidate is left. *)
Theorem scaledown_safe (hs : list ScaleDownHost) (threshold min_hosts : N) :
  N.of_nat (length hs) < 4294967296 ->
  exists gone kept,
    hs ≡ₚ gone ++ kept /\
    decide_scaledown hs threshold min_hosts = sd_host <$> gone /\
    Forall (fun h => engine_created h = true /\ sd_ownership h = Managed /\ sd_tenants h = 0 /\
                     threshold < idle_secs h) gone /\
    (forall g h, g ∈ gone -> h ∈ kept -> victim threshold h = true -> idle_secs h <= idle_secs g) /\
    (gone <> [] -> min_hosts <= N.of_nat (length (List.filter engine_created kept))) /\
    (forall h, h ∈ kept -> victim threshold h = true ->
       N.of_nat (length (List.filter engine_created kept)) <= min_hosts).
Proof.
  intros Hlen. unfold decide_scaledown.
  set (V := sort_by idle_cmp (List.filter (victim threshold) hs)).
  set (n := N.to_nat (as_u32 (N.of_nat (length (List.filter engine_created hs))) - min_hosts)).
  set (kept := drop n V ++ List.filter (fun h => negb (victim threshold h)) hs).
  assert (hs ≡ₚ take n V ++ kept) as Hp.
  { unfold kept. rewrite app_assoc, take_drop. unfold V. rewrite sort_by_perm. apply filter_split. }
  assert (forall h, h ∈ V -> victim threshold h = true) as HV.
  { intros h Hh. unfold V in Hh. rewrite elem_of_sort_by in Hh. by apply elem_of_filter_b in Hh as [_ Hh]. }
  assert (Forall (fun h => victim threshold h = true) (take n V)) as Hg.
  { apply Forall_forall. intros h Hh. apply HV.
    rewrite <- (take_drop n V). apply elem_of_app. by left. }
  assert (List.filter engine_created (take n V) = take n V) as Hall.
  { apply filter_true. intros h Hh. rewrite Forall_forall in Hg. specialize (Hg h Hh).
    unfold victim in Hg. by destruct (engine_created h). }
  pose proof (count_perm engine_created _ _ Hp) as Hc.
  rewrite List.filter_app, Hall, length_app, length_take in Hc.
  assert (N.of_nat n = N.of_nat (length (List.filter engine_created hs)) - min_hosts) as Hn.
  { unfold n, as_u32. rewrite N2Nat.id, N.mod_small; [done|].
    pose proof (List.filter_length_le engine_created hs). lia. }
  exists (take n V), kept. split; [done|]. split; [done|]. repeat split.
  - eapply Forall_impl; [exact Hg|]. intros h. unfold victim.
    rewrite !andb_true_iff, bool_decide_eq_true, N.eqb_eq, N.ltb_lt. tauto.
  - intros g h Hgone Hk Hv. unfold kept in Hk. apply elem_of_app in Hk as [Hk|[_ Hk]%elem_of_filter_b];
      [|by rewrite Hv in Hk].
    apply idle_cmp_le, (StronglySorted_take_drop _ n V); [apply sort_by_sorted, _|done..].
  - intros Hne. assert (n <> 0%nat) by (intros Hz; apply Hne; by rewrite Hz). lia.
  - intros h Hk Hv. unfold kept in Hk. apply elem_of_app in Hk as [Hk|[_ Hk]%elem_of_filter_b];
      [|by rewrite Hv in Hk].
    assert (n < length V)%nat; [|lia]. destruct (decide (length V <= n)%nat); [|lia].
    rewrite drop_ge in Hk by done. set_solver.
Qed.

(** ** Instances *)

Definition demo_host (name : string) (cpu reserved_cpu : N) (ts : N) : HostSnapshot :=
  {| host := name; ownership := Managed;
     capacity := mkHostCapacity Managed (Some (mkHostSpec cpu 8192)) 200 100
                   (mkReservedTotals reserved_cpu 1024 ts) None;
     ready := true; failed := false; draining := false; trust := T1Container;
     host_arch := Some Amd64; tenant_zones := ∅; tenants := ts;
     has_dedicated_tenant := false |}.

Definition demo_request (m : PlacementModePref) : PlacementRequest :=
  mkPlacementRequest "sb" "/w" ResourceReq_default m "" T1Container (Some Amd64).

Definition demo_lane : ManagedTemplate :=
  mkManagedTemplate "hetzner" "" "cx32" "4" "8g" 2.

Definition demo_inputs (hs : list HostSnapshot) : PlacementInputs :=
  mkPlacementInputs hs BinPack Queue_ (mkAutoscaleConfig true 2 0 900 60 [demo_lane])
    (mkAutoscaleSnapshot 0 ∅ ∅).

(** The fuller of two hosts with room is chosen, and the full one left out. *)
Definition demo_pool : list HostSnapshot :=
  [demo_host "host:a" 4000 0 0; demo_host "host:b" 4000 3000 2; demo_host "host:c" 2000 3500 3].

Lemma demo_in_range m : inputs_in_range (demo_request m) (demo_inputs demo_pool) 200 100.
Proof.
  split.
  - intros h Hh spec. unfold demo_inputs, demo_pool in Hh. simpl in Hh.
    rewrite !elem_of_cons in Hh.
    destruct Hh as [-> |[-> |[-> |Hh]]]; 
      [intros [= <-]; split_and!; reflexivity..|by inversion Hh].
  - intros t spec Ht%list_elem_of_singleton. subst t. intros H. vm_compute in H.
    injection H as <-. intros spec [= <-]. split_and!; reflexivity.
Qed.

Lemma decide_refines_witness :
  inputs_in_range (demo_request Auto) (demo_inputs demo_pool) 200 100 /\
  Placed (demo_request Auto) (demo_inputs demo_pool) 200 100 (Packed "host:b" ["host:a"]).
Proof.
  split; [apply demo_in_range|].
  apply (decide_refines (demo_request Auto) (demo_inputs demo_pool) 200 100 (Packed "host:b" ["host:a"]));
    [apply demo_in_range|by vm_compute].
Defined.

Lemma decide_order_free_witness :
  decision (decide_placement (demo_request Packed_)
    (demo_inputs [demo_host "host:b" 4000 3000 2; demo_host "host:a" 4000 0 0]) 200 100) =
  decision (decide_placement (demo_request Packed_)
    (demo_inputs [demo_host "host:a" 4000 0 0; demo_host "host:b" 4000 3000 2]) 200 100).
Proof.
  apply (decide_order_free (demo_request Packed_)
    (demo_inputs [demo_host "host:a" 4000 0 0; demo_host "host:b" 4000 3000 2]) 200 100
    [demo_host "host:b" 4000 3000 2; demo_host "host:a" 4000 0 0]).
  apply Permutation_swap.
Defined.

(** With nowhere to go, a host is created from the lane; without lanes left the
    request is queued. *)
Example provision_then_queue :
  decision (decide_placement (demo_request Packed_) (demo_inputs []) 200 100) = Provision demo_lane /\
  decision (decide_placement (demo_request Packed_)
    (mkPlacementInputs [] BinPack Queue_ (mkAutoscaleConfig true 2 0 900 60 [demo_lane])
      (mkAutoscaleSnapshot 2 ∅ ∅)) 200 100) = Queue.
Proof. by vm_compute. Qed.

(** A dedicated request is given the first empty host by id, not the smallest
    adequate one: empty hosts are equally loaded. *)
Example dedicated_ignores_size :
  decision (decide_placement (demo_request Dedicated_)
    (demo_inputs [demo_host "host:big" 64000 0 0; demo_host "host:small" 1000 0 0]) 200 100) =
  Dedicated "host:big" ["host:small"].
Proof. by vm_compute. Qed.

Definition demo_fleet : list ScaleDownHost :=
  [mkScaleDownHost "a" Managed 0 true 1000; mkScaleDownHost "b" Managed 0 true 2000;
   mkScaleDownHost "c" Managed 1 true 9000; mkScaleDownHost "d" Independent 0 false 9000].

Lemma scaledown_safe_witness :
  decide_scaledown demo_fleet 900 2 = ["b"]%string /\
  exists gone kept, demo_fleet ≡ₚ gone ++ kept /\ decide_scaledown demo_fleet 900 2 = sd_host <$> gone.
Proof.
  split; [by vm_compute|].
  destruct (scaledown_safe demo_fleet 900 2 ltac:(by vm_compute)) as (gone & kept & H1 & H2 & _).
  by exists gone, kept.
Defined.
