(* ===== verification/Host.v ===== *)
(** * Hosts: capabilities, warm volumes and delivery routes

    thegn-core/src/host.rs (what a probe reports about a machine, and the
    vocabulary of the provisioning machine) and the delivery selection of
    image.rs.  A [BTreeSet] or [BTreeMap] whose order the code does not use is
    a [gset] or a [gmap]. *)
From Stdlib Require Import Ascii String.
From S2P Require Import Prelude RustOrd RustStr RustText Image Capacity.
Local Open Scope string_scope.
Local Open Scope list_scope.

(** ** Runtimes and capabilities *)

Global Instance RuntimeKind_eq_dec : EqDecision RuntimeKind.
Proof. solve_decision. Defined.

(** [RuntimeKind::as_str]. *)
Definition runtime_str (k : RuntimeKind) : string :=
  match k with Podman => "podman" | Docker => "docker" | CloudManaged => "cloud" end.

Inductive DeliveryCap :=
| CapSshStream | CapRsync | CapSkopeoLocal | CapSkopeoRemote | CapRegistryPull
| CapRemoteBuild | CapProviderTemplate.

Global Instance DeliveryCap_eq_dec : EqDecision DeliveryCap.
Proof. solve_decision. Defined.

Definition cap_index (c : DeliveryCap) : nat :=
  match c with
  | CapSshStream => 0 | CapRsync => 1 | CapSkopeoLocal => 2 | CapSkopeoRemote => 3
  | CapRegistryPull => 4 | CapRemoteBuild => 5 | CapProviderTemplate => 6
  end.

Global Instance DeliveryCap_countable : Countable DeliveryCap.
Proof.
  refine (inj_countable' cap_index (fun n =>
    match n with
    | 0 => CapSshStream | 1 => CapRsync | 2 => CapSkopeoLocal | 3 => CapSkopeoRemote
    | 4 => CapRegistryPull | 5 => CapRemoteBuild | _ => CapProviderTemplate
    end) _).
  by intros [].
Defined.

(** [DeliveryCap::parse]. *)
Definition parse_delivery_cap (s : string) : option DeliveryCap :=
  let s := to_ascii_lowercase (trim s) in
  let named t := String.eqb s t in
  if named "ssh-stream" || named "ssh_stream" || named "transfer" then Some CapSshStream
  else if named "rsync" then Some CapRsync
  else if named "skopeo-local" || named "skopeo_local" then Some CapSkopeoLocal
  else if named "skopeo" || named "skopeo-remote" || named "skopeo_remote" then Some CapSkopeoRemote
  else if named "registry" || named "registry-pull" || named "pull" then Some CapRegistryPull
  else if named "build" || named "remote-build" then Some CapRemoteBuild
  else if named "template" || named "provider-template" then Some CapProviderTemplate
  else None.

Inductive EgressMode := EgressFull | EgressRestricted | EgressNone.

Global Instance EgressMode_eq_dec : EqDecision EgressMode.
Proof. solve_decision. Defined.

Record HostCaps := mkHostCaps {
  arch : Arch;
  os : string;
  runtime : option RuntimeInfo;
  delivery : gset DeliveryCap;
  egress : EgressMode;
  can_install_runtime : bool;
  disk_free_bytes : option N;
  has_nix : bool;
  cgroup_v2 : bool;
  userns : bool;
  nproc : option N;
  mem_total_kb : option N;
}.

(** The two ways a probe's output is refused; the first keeps the text shown. *)
Inductive ProbeError := UnsupportedArch (found : string) | MissingOs.

(** The [KEY=VALUE] lines, the last of a repeated key winning. *)
Definition probe_line (kv : gmap string string) (line : string) : gmap string string :=
  let line := trim line in
  if is_empty line || starts_with "#" line then kv
  else match split_once "=" line with
       | Some (k, v) => <[trim k := trim v]> kv
       | None => kv
       end.

Definition probe_kv (out : string) : gmap string string := fold_left probe_line (lines out) ∅.

Definition truthy (kv : gmap string string) (k : string) : bool :=
  match kv !! k with
  | Some v => String.eqb v "1" || String.eqb v "true"
  | None => false
  end.

(** [.filter(|v| !v.is_empty())]. *)
Definition nonempty (v : option string) : option string :=
  match v with
  | Some v => if is_empty v then None else Some v
  | None => None
  end.

Definition probe_runtime (kv : gmap string string) : option RuntimeInfo :=
  match nonempty (kv !! "PODMAN") with
  | Some v => Some (mkRuntimeInfo Podman v (truthy kv "PODMAN_ROOTLESS")
                      (nonempty (kv !! "PODMAN_SOCKET")))
  | None =>
      (fun v => mkRuntimeInfo Docker v false (nonempty (kv !! "DOCKER_SOCKET")))
        <$> nonempty (kv !! "DOCKER")
  end.

Definition probe_egress (kv : gmap string string) : EgressMode :=
  match kv !! "EGRESS" with
  | Some e => if String.eqb e "none" then EgressNone
              else if String.eqb e "restricted" then EgressRestricted else EgressFull
  | None => EgressFull
  end.

(** [if b { delivery.insert(c); }]. *)
Definition insert_if (b : bool) (c : DeliveryCap) (d : gset DeliveryCap) : gset DeliveryCap :=
  if b then {[c]} ∪ d else d.

Definition probe_delivery (kv : gmap string string) (egress : EgressMode) : gset DeliveryCap :=
  let d : gset DeliveryCap := {[CapSshStream]} in
  let d := insert_if (truthy kv "RSYNC") CapRsync d in
  let d := insert_if (truthy kv "SKOPEO") CapSkopeoRemote d in
  if bool_decide (egress = EgressFull) then
    let d := insert_if true CapRegistryPull d in
    insert_if (truthy kv "NIX") CapRemoteBuild d
  else d.

Definition caps_of_kv (kv : gmap string string) : result ProbeError HostCaps :=
  let? arch := match kv !! "ARCH" ≫= parse_uname with
               | Some a => Ok a
               | None => Err (UnsupportedArch (default "<none>" (kv !! "ARCH")))
               end in
  let? os := match kv !! "OS" with
             | Some s => Ok (to_ascii_lowercase s)
             | None => Err MissingOs
             end in
  let egress := probe_egress kv in
  Ok {| arch := arch;
        os := os;
        runtime := probe_runtime kv;
        delivery := probe_delivery kv egress;
        egress := egress;
        can_install_runtime :=
          match kv !! "PKGMGR" with
          | Some p => String.eqb p "apt" || String.eqb p "dnf" || String.eqb p "apk" ||
                      String.eqb p "pacman"
          | None => false
          end;
        disk_free_bytes := kv !! "DISK_FREE" ≫= parse_u64;
        has_nix := truthy kv "NIX";
        cgroup_v2 := truthy kv "CGROUPV2";
        userns := truthy kv "USERNS";
        nproc := kv !! "NPROC" ≫= parse_u32;
        mem_total_kb := kv !! "MEM_TOTAL_KB" ≫= parse_u64 |}.

(** [HostCaps::parse_probe]. *)
Definition parse_probe (out : string) : result ProbeError HostCaps := caps_of_kv (probe_kv out).

Definition cloud_managed (a : Arch) : HostCaps := {|
  arch := a;
  os := "linux";
  runtime := Some (mkRuntimeInfo CloudManaged "" false None);
  delivery := {[CapProviderTemplate]};
  egress := EgressFull;
  can_install_runtime := false;
  disk_free_bytes := None;
  has_nix := false;
  cgroup_v2 := false;
  userns := false;
  nproc := None;
  mem_total_kb := None;
|}.

(** ** Warm volumes *)

Inductive VolumeSeed := ImageCopyUp | Tarball (digest : Digest).

Record VolumeSpec := mkVolumeSpec {
  vol_name : string;
  dest : string;
  seed : VolumeSeed;
}.

Definition VOLUME_NIX_STORE : string := "thegn-nix-store".
Definition VOLUME_CARGO : string := "thegn-cargo".

Definition by_name (name : string) : option VolumeSpec :=
  if String.eqb name "nix-store" || String.eqb name VOLUME_NIX_STORE
  then Some (mkVolumeSpec VOLUME_NIX_STORE "/nix" ImageCopyUp)
  else if String.eqb name "cargo" || String.eqb name VOLUME_CARGO
  then Some (mkVolumeSpec VOLUME_CARGO "/home/thegn/.cargo" ImageCopyUp)
  else None.

Definition from_names (names : list string) : list VolumeSpec := omap by_name names.

(** ** Failures *)

Inductive HostStep :=
| SConnect | SProbe | SConsent | SInstall | SResolveImage | SDeliver | SSeedVolume | SVerify.

Global Instance HostStep_eq_dec : EqDecision HostStep.
Proof. solve_decision. Defined.

(** [HostStep::as_str]. *)
Definition step_str (s : HostStep) : string :=
  match s with
  | SConnect => "connect" | SProbe => "probe" | SConsent => "consent" | SInstall => "install"
  | SResolveImage => "resolve_image" | SDeliver => "deliver" | SSeedVolume => "seed_volume"
  | SVerify => "verify"
  end.

Record HostFailure := mkHostFailure {
  fstep : HostStep;
  error : string;
  retryable : bool;
}.

Global Instance HostFailure_eq_dec : EqDecision HostFailure.
Proof. solve_decision. Defined.

(** The user's consent to installing a runtime (host_config.rs). *)
Inductive InstallConsent := CNever | CAsk | CAuto.

Global Instance InstallConsent_eq_dec : EqDecision InstallConsent.
Proof. solve_decision. Defined.

(** ** Delivery *)

Record LocalCaps := mkLocalCaps {
  has_podman : bool;
  has_skopeo : bool;
  has_rsync : bool;
  has_registry_egress : bool;
}.

Inductive DeliveryStrategy :=
| SshStream (rsync : bool)
| RegistryPull
| SkopeoRemoteCopy
| RemoteBuild
| ProviderTemplate.

Global Instance DeliveryStrategy_eq_dec : EqDecision DeliveryStrategy.
Proof. solve_decision. Defined.

(** [DeliveryStrategy::cap]. *)
Definition strategy_cap (s : DeliveryStrategy) : DeliveryCap :=
  match s with
  | SshStream true => CapRsync
  | SshStream false => CapSshStream
  | RegistryPull => CapRegistryPull
  | SkopeoRemoteCopy => CapSkopeoRemote
  | RemoteBuild => CapRemoteBuild
  | ProviderTemplate => CapProviderTemplate
  end.

(** [DeliveryStrategy::as_str]. *)
Definition strategy_str (s : DeliveryStrategy) : string :=
  match s with
  | SshStream true => "ssh-stream+rsync"
  | SshStream false => "ssh-stream"
  | RegistryPull => "registry-pull"
  | SkopeoRemoteCopy => "skopeo-copy"
  | RemoteBuild => "remote-build"
  | ProviderTemplate => "provider-template"
  end.

(** [if b { v.push(x); }]. *)
Definition push_if {A} (b : bool) (x : A) (v : list A) : list A := if b then v ++ [x] else v.

(** The routes the two ends support, in the default order. *)
Definition ranked_delivery (local : LocalCaps) (host : HostCaps) : list DeliveryStrategy :=
  let has c := bool_decide (c ∈ delivery host) in
  let can_stage_archive := has_podman local || has_skopeo local in
  let ranked := [] in
  let ranked :=
    if has CapSshStream && can_stage_archive then
      push_if (has CapRsync && has_rsync local) (SshStream true) ranked ++ [SshStream false]
    else ranked in
  let ranked := push_if (has CapRegistryPull) RegistryPull ranked in
  let ranked := push_if (has CapSkopeoRemote) SkopeoRemoteCopy ranked in
  push_if (has CapRemoteBuild) RemoteBuild ranked.

(** [for s in l { if f(s) && !acc.contains(&s) { acc.push(s); } }]. *)
Definition push_new (f : DeliveryStrategy -> bool) (l acc : list DeliveryStrategy)
    : list DeliveryStrategy :=
  fold_left (fun acc s => push_if (f s && negb (bool_decide (s ∈ acc))) s acc) l acc.

Definition select_delivery (local : LocalCaps) (host : HostCaps) (prefs : list DeliveryCap)
    : list DeliveryStrategy :=
  if bool_decide (CapProviderTemplate ∈ delivery host) then [ProviderTemplate]
  else
    let ranked := ranked_delivery local host in
    match prefs with
    | [] => ranked
    | _ =>
        let preferred :=
          fold_left (fun acc p => push_new (fun s => bool_decide (strategy_cap s = p)) ranked acc)
            prefs [] in
        push_new (fun _ => true) ranked preferred
    end.

(** ** Selection is a sort of what the two ends support *)

(** A route the two ends support. *)
Definition available (local : LocalCaps) (host : HostCaps) (s : DeliveryStrategy) : bool :=
  let has c := bool_decide (c ∈ delivery host) in
  if has CapProviderTemplate then bool_decide (s = ProviderTemplate)
  else match s with
       | SshStream rsync =>
           has CapSshStream && (has_podman local || has_skopeo local) &&
           (negb rsync || (has CapRsync && has_rsync local))
       | ProviderTemplate => false
       | _ => has (strategy_cap s)
       end.

(** The default order of preference. *)
Definition all_strategies : list DeliveryStrategy :=
  [SshStream true; SshStream false; RegistryPull; SkopeoRemoteCopy; RemoteBuild; ProviderTemplate].

Definition default_rank (s : DeliveryStrategy) : N :=
  match s with
  | SshStream true => 0 | SshStream false => 1 | RegistryPull => 2 | SkopeoRemoteCopy => 3
  | RemoteBuild => 4 | ProviderTemplate => 5
  end%N.

(** The place of a route among the user's preferences, after all of them when
    it is not named. *)
Definition pref_rank (prefs : list DeliveryCap) (s : DeliveryStrategy) : N :=
  N.of_nat (default (length prefs) (position (fun p => bool_decide (strategy_cap s = p)) prefs)).

Definition route_cmp (prefs : list DeliveryCap) : DeliveryStrategy -> DeliveryStrategy -> comparison :=
  lex (on (pref_rank prefs) N.compare) (on default_rank N.compare).

(** The specification of [select_delivery]: capabilities filter, preferences
    order. *)
Definition delivery_spec (local : LocalCaps) (host : HostCaps) (prefs : list DeliveryCap)
    : list DeliveryStrategy :=
  sort_by (route_cmp prefs) (List.filter (available local host) all_strategies).

Lemma default_rank_inj : Inj (=) (=) default_rank.
Proof. intros [ [] | | | | ] [ [] | | | | ]; simpl; congruence. Qed.

Lemma strategy_cap_inj : Inj (=) (=) strategy_cap.
Proof. intros [ [] | | | | ] [ [] | | | | ]; simpl; congruence. Qed.

Lemma route_cmp_le prefs a b :
  cmp_le (route_cmp prefs) a b <->
  (pref_rank prefs a < pref_rank prefs b \/
   pref_rank prefs a = pref_rank prefs b /\ default_rank a <= default_rank b)%N.
Proof.
  unfold cmp_le, route_cmp, lex, on, then_with.
  destruct (N.compare_spec (pref_rank prefs a) (pref_rank prefs b)) as [H|H|H];
    [destruct (N.compare_spec (default_rank a) (default_rank b))|..]; split; intros; lia || done.
Qed.

Lemma route_cmp_antisymm prefs : AntiSymm (=) (cmp_le (route_cmp prefs)).
Proof. intros a b. rewrite !route_cmp_le. intros. apply default_rank_inj. lia. Qed.

(** Pushing what is new, in order, appends the part that is not there. *)
Lemma push_new_filter f l acc :
  NoDup l ->
  push_new f l acc = acc ++ List.filter (fun s => f s && negb (bool_decide (s ∈ acc))) l.
Proof.
  unfold push_new. intros Hl. revert acc. induction Hl as [|s l Hs _ IH]; intros acc; simpl;
    [by rewrite app_nil_r|].
  rewrite IH. unfold push_if. destruct (f s && _) eqn:E; [|done].
  rewrite <- app_assoc. simpl. f_equal. f_equal. apply List.filter_ext_in. intros t Ht. f_equal. f_equal.
  apply bool_decide_ext. rewrite elem_of_app, list_elem_of_singleton.
  apply list_elem_of_In in Ht. set_solver.
Qed.

Lemma ranked_filter local host :
  CapProviderTemplate ∉ delivery host ->
  ranked_delivery local host = List.filter (available local host) all_strategies.
Proof.
  intros Hp. unfold ranked_delivery, available, all_strategies, push_if. simpl.
  rewrite (bool_decide_eq_false_2 (CapProviderTemplate ∈ delivery host)) by done.
  destruct (bool_decide (CapSshStream ∈ _)), (has_podman local), (has_skopeo local),
    (bool_decide (CapRsync ∈ _)), (has_rsync local), (bool_decide (CapRegistryPull ∈ _)),
    (bool_decide (CapSkopeoRemote ∈ _)), (bool_decide (CapRemoteBuild ∈ _)); reflexivity.
Qed.

(** A preference added at the end leaves the rank of a named route alone. *)
Lemma pref_rank_app ps p s :
  strategy_cap s ∈ ps ->
  pref_rank (ps ++ [p]) s = pref_rank ps s /\ (pref_rank ps s < N.of_nat (length ps))%N.
Proof.
  unfold pref_rank. intros H.
  enough (exists i, position (fun p => bool_decide (strategy_cap s = p)) ps = Some i /\ i < length ps /\
    position (fun p => bool_decide (strategy_cap s = p)) (ps ++ [p]) = Some i) as (i & -> & Hi & ->)
    by (simpl; split; [done|lia]).
  induction ps as [|q ps IH]; [by apply not_elem_of_nil in H|]. simpl.
  case_bool_decide as Hq; [exists 0; simpl; split_and!; [done|lia|done]|].
  destruct IH as (i & -> & Hi & ->); [set_solver|]. exists (S i). simpl. split_and!; [done|lia|done].
Qed.

Lemma pref_rank_unnamed ps s :
  strategy_cap s ∉ ps -> pref_rank ps s = N.of_nat (length ps).
Proof.
  unfold pref_rank. intros H.
  enough (position (fun p => bool_decide (strategy_cap s = p)) ps = None) as -> by done.
  induction ps as [|q ps IH]; [done|]. simpl. rewrite bool_decide_eq_false_2 by set_solver.
  rewrite IH by set_solver. done.
Qed.

Lemma pref_rank_last ps p s :
  strategy_cap s = p -> strategy_cap s ∉ ps -> pref_rank (ps ++ [p]) s = N.of_nat (length ps).
Proof.
  intros Hp Hn. unfold pref_rank.
  enough (position (fun p => bool_decide (strategy_cap s = p)) (ps ++ [p]) = Some (length ps)) as -> by done.
  induction ps as [|q ps IH]; simpl; [by rewrite bool_decide_eq_true_2|].
  rewrite bool_decide_eq_false_2 by set_solver. by rewrite IH by set_solver.
Qed.

Section Select.
Context (ranked : list DeliveryStrategy) (Hnd : NoDup ranked).

Definition preferred (ps : list DeliveryCap) : list DeliveryStrategy :=
  fold_left (fun acc p => push_new (fun s => bool_decide (strategy_cap s = p)) ranked acc) ps [].

Lemma preferred_snoc ps p :
  preferred (ps ++ [p]) = preferred ps ++
    List.filter (fun s => bool_decide (strategy_cap s = p) && negb (bool_decide (s ∈ preferred ps))) ranked.
Proof. unfold preferred. rewrite fold_left_app. simpl. by apply push_new_filter. Qed.

Lemma elem_of_preferred ps s : s ∈ preferred ps <-> s ∈ ranked /\ strategy_cap s ∈ ps.
Proof.
  induction ps as [|p ps IH] using rev_ind; [set_solver|].
  rewrite preferred_snoc, !elem_of_app, elem_of_filter_b, list_elem_of_singleton. split.
  - intros [H%IH|[Hr Hc] ]; [tauto|]. apply andb_true_iff in Hc as [Hc%bool_decide_eq_true _]. auto.
  - intros [Hr [Hc|Hc] ]; [left; by apply IH|]. destruct (decide (s ∈ preferred ps)) as [|Hn]; [by left|].
    right. split; [done|]. by rewrite (bool_decide_eq_true_2 _ Hc), (bool_decide_eq_false_2 _ Hn).
Qed.

Lemma preferred_NoDup ps : NoDup (preferred ps).
Proof.
  induction ps as [|p ps IH] using rev_ind; [constructor|]. rewrite preferred_snoc.
  apply NoDup_app. split; [done|]. split; [|by apply NoDup_filter_b].
  intros s Hs [_ [_ H]%andb_true_iff]%elem_of_filter_b. by rewrite bool_decide_eq_true_2 in H.
Qed.

Lemma preferred_sorted ps : StronglySorted (cmp_le (route_cmp ps)) (preferred ps).
Proof.
  induction ps as [|p ps IH] using rev_ind; [constructor|]. rewrite preferred_snoc.
  assert (forall b, b ∈ List.filter (fun s => bool_decide (strategy_cap s = p) &&
      negb (bool_decide (s ∈ preferred ps))) ranked ->
    strategy_cap b = p /\ b ∈ ranked /\ strategy_cap b ∉ ps) as Hb.
  { intros b [Hr Hc]%elem_of_filter_b. apply andb_true_iff in Hc as [Hc%bool_decide_eq_true Hn].
    apply negb_true_iff, bool_decide_eq_false in Hn. rewrite elem_of_preferred in Hn. tauto. }
  apply StronglySorted_app_2.
  - intros a b [_ Ha]%elem_of_preferred (Hp & _ & Hn)%Hb. apply route_cmp_le. left.
    destruct (pref_rank_app ps p a Ha) as [-> Hlt].
    by rewrite (pref_rank_last ps p b Hp Hn).
  - eapply StronglySorted_mono_in; [|exact IH]. intros a b [_ Ha]%elem_of_preferred [_ Hb']%elem_of_preferred.
    rewrite !route_cmp_le. by rewrite (proj1 (pref_rank_app ps p a Ha)), (proj1 (pref_rank_app ps p b Hb')).
  - eapply (StronglySorted_mono_in (fun _ _ => True)).
    + intros a b (Ha & _ & _)%Hb (Hb' & _ & _)%Hb _. apply route_cmp_le. right.
      assert (a = b) as -> by (apply strategy_cap_inj; congruence). split; [done|lia].
    + clear. induction (List.filter _ _); constructor; [done|]. by apply Forall_true.
Qed.
End Select.

Lemma ranked_NoDup local host : NoDup (List.filter (available local host) all_strategies).
Proof. apply NoDup_filter_b. apply (bool_decide_unpack _). by vm_compute. Qed.

Lemma ranked_sorted local host :
  StronglySorted (fun a b => default_rank a <= default_rank b)%N
    (List.filter (available local host) all_strategies).
Proof.
  apply StronglySorted_filter. repeat constructor; simpl; lia.
Qed.

(** The loop as one equation: the preferred routes, then the others. *)
Lemma select_unfold local host prefs :
  CapProviderTemplate ∉ delivery host ->
  let ranked := List.filter (available local host) all_strategies in
  select_delivery local host prefs =
  preferred ranked prefs ++
    List.filter (fun s => negb (bool_decide (s ∈ preferred ranked prefs))) ranked.
Proof.
  intros Hp ranked. unfold select_delivery. rewrite (bool_decide_eq_false_2 _ Hp). cbv zeta.
  rewrite ranked_filter by done. fold ranked. transitivity (push_new (fun _ => true) ranked (preferred ranked prefs)).
  - destruct prefs as [|p ps]; [|done]. rewrite push_new_filter by apply ranked_NoDup.
    symmetry. by apply filter_true.
  - by rewrite push_new_filter by apply ranked_NoDup.
Qed.

(** [select_delivery] is the specification: of the delivery routes both
    ends support it keeps every one exactly once, those the user prefers first
    and in the user's order, the rest in the default order. *)
Theorem select_delivery_correct (local : LocalCaps) (host : HostCaps) (prefs : list DeliveryCap) :
  select_delivery local host prefs = delivery_spec local host prefs.
Proof.
  unfold delivery_spec. destruct (decide (CapProviderTemplate ∈ delivery host)) as [Hp|Hp].
  { unfold select_delivery, available, all_strategies. by rewrite bool_decide_eq_true_2. }
  rewrite select_unfold by done. cbv zeta. pose proof (ranked_NoDup local host) as Hnd.
  pose proof (ranked_sorted local host) as Hsort.
  set (ranked := List.filter (available local host) all_strategies) in *.
  assert (forall b, b ∈ List.filter (fun s => negb (bool_decide (s ∈ preferred ranked prefs))) ranked <->
    b ∈ ranked /\ strategy_cap b ∉ prefs) as Hrest.
  { intros b. rewrite elem_of_filter_b, negb_true_iff, bool_decide_eq_false, elem_of_preferred by done. tauto. }
  apply (StronglySorted_unique_strong (cmp_le (route_cmp prefs))).
  - intros a b _ _. apply route_cmp_antisymm.
  - apply StronglySorted_app_2; [|by apply preferred_sorted|].
    + intros a b [_ Ha]%elem_of_preferred [_ Hb]%Hrest; [|done]. apply route_cmp_le. left.
      rewrite (pref_rank_unnamed prefs b Hb). by apply (pref_rank_app prefs CapRsync a Ha).
    + eapply StronglySorted_mono_in; [|apply StronglySorted_filter, Hsort].
      intros a b [_ Ha]%Hrest [_ Hb]%Hrest Hd. apply route_cmp_le. right.
      by rewrite (pref_rank_unnamed prefs a Ha), (pref_rank_unnamed prefs b Hb).
  - apply sort_by_sorted. apply _.
  - rewrite sort_by_perm. apply NoDup_Permutation; [|done|].
    + apply NoDup_app. split; [by apply preferred_NoDup|]. split; [|by apply NoDup_filter_b].
      intros s [_ Hs]%elem_of_preferred [_ Hn]%Hrest; [done|done].
    + intros s. rewrite elem_of_app, Hrest, elem_of_preferred by done.
      destruct (decide (strategy_cap s ∈ prefs)); tauto.
Qed.

(** ** What a probe reports *)

(** The text of a report: a comment or a binding per line. *)
Inductive ReportLine := Comment (text : string) | Binding (k v : string).

Definition report_line (l : ReportLine) : string :=
  match l with
  | Comment t => ("#" ++ t)%string
  | Binding k v => (k ++ "=" ++ v)%string
  end.

Definition report (ls : list ReportLine) : string :=
  foldr (fun l s => (l ++ ch newline ++ s)%string) "" (report_line <$> ls).

Definition report_kv (kv : gmap string string) (l : ReportLine) : gmap string string :=
  match l with Comment _ => kv | Binding k v => <[k := v]> kv end.

(** Lines that are single lines, with keys and values free of blanks; a key
    holds no [=] and does not begin a comment. *)
Definition line_ok (l : ReportLine) : Prop :=
  match l with
  | Comment t => str_forall graphic t = true
  | Binding k v =>
      k <> "" /\ str_forall graphic k = true /\ str_forall graphic v = true /\
      no_char "=" k = true /\ starts_with "#" k = false
  end.

Lemma graphic_no_char c s :
  graphic c = false -> str_forall graphic s = true -> no_char c s = true.
Proof.
  intros Hc. induction s as [|a s IH]; simpl; [done|]. intros [Ha Hs]%andb_true_iff.
  destruct (Ascii.eqb_spec a c) as [->|]; [congruence|]. by rewrite IH.
Qed.

Lemma line_graphic l : line_ok l -> str_forall graphic (report_line l) = true.
Proof.
  destruct l as [t|k v]; simpl; [done|]. intros (_ & Hk & Hv & _). rewrite str_forall_app. simpl.
  by rewrite Hk, Hv.
Qed.

Lemma starts_with_char c a k : starts_with (String c "") (String a k) = Ascii.eqb c a.
Proof. unfold starts_with, strip_prefix. by destruct (Ascii.eqb c a). Qed.

Lemma probe_line_ok kv l : line_ok l -> probe_line kv (report_line l) = report_kv kv l.
Proof.
  intros Hl. unfold probe_line. rewrite trim_graphic by by apply line_graphic.
  destruct l as [t|k v]; simpl report_line; [done|].
  destruct Hl as (Hn & Hk & Hv & He & Hs). change ("=" ++ v)%string with (String "=" v).
  assert ((is_empty (k ++ String "=" v) || starts_with "#" (k ++ String "=" v)) = false) as ->.
  { destruct k as [|a k]; [done|]. cbn [String.append is_empty]. rewrite starts_with_char in *. done. }
  by rewrite split_once_char, !trim_graphic.
Qed.

(** A probe's report reads back as the bindings it lists: comments are
    skipped and a repeated key keeps its last value, whatever the keys. *)
Theorem probe_reads_report (ls : list ReportLine) :
  Forall line_ok ls -> probe_kv (report ls) = fold_left report_kv ls ∅.
Proof.
  intros H. unfold probe_kv, report. rewrite lines_join.
  - generalize (∅ : gmap string string) as kv. induction H as [|l ls Hl _ IH]; intros kv; simpl; [done|].
    rewrite probe_line_ok by done. apply IH.
  - apply Forall_fmap. eapply Forall_impl; [exact H|]. intros l Hl%line_graphic. simpl.
    split; [by apply graphic_no_char|].
    destruct (strip_suffix carriage_return (report_line l)) as [t|] eqn:E; [|done].
    apply strip_suffix_Some in E. rewrite E, str_forall_app in Hl. by apply andb_true_iff in Hl as [_ ?].
Qed.

Definition sample_report : list ReportLine :=
  [Comment "thegn-probe"; Binding "ARCH" "aarch64"; Binding "OS" "Linux"; Binding "PODMAN" "4.9.3";
   Binding "EGRESS" "none"; Binding "ARCH" "x86_64"; Binding "NPROC" "8"].

Lemma probe_reads_report_witness :
  probe_kv (report sample_report) !! "ARCH" = Some "x86_64" /\
  probe_kv (report sample_report) !! "NPROC" = Some "8".
Proof.
  assert (probe_kv (report sample_report) = fold_left report_kv sample_report ∅) as ->.
  { apply (probe_reads_report sample_report). repeat constructor; vm_compute; done. }
  by vm_compute.
Defined.

Lemma elem_of_probe_delivery kv e c :
  c ∈ probe_delivery kv e <->
  c = CapSshStream \/ (c = CapRsync /\ truthy kv "RSYNC" = true) \/
  (c = CapSkopeoRemote /\ truthy kv "SKOPEO" = true) \/
  (e = EgressFull /\ (c = CapRegistryPull \/ (c = CapRemoteBuild /\ truthy kv "NIX" = true))).
Proof.
  unfold probe_delivery, insert_if.
  destruct (truthy kv "RSYNC"), (truthy kv "SKOPEO"), (truthy kv "NIX"), e; simpl;
    rewrite ?elem_of_union, ?elem_of_singleton; intuition congruence.
Qed.

Lemma elem_of_select local host prefs s :
  s ∈ select_delivery local host prefs <-> available local host s = true.
Proof.
  rewrite select_delivery_correct. unfold delivery_spec. rewrite elem_of_sort_by, elem_of_filter_b.
  split; [tauto|]. intros H. split; [|done]. unfold all_strategies. destruct s as [ []| | | |]; set_solver.
Qed.

Lemma select_NoDup local host prefs : NoDup (select_delivery local host prefs).
Proof.
  rewrite select_delivery_correct. unfold delivery_spec. rewrite sort_by_perm. apply ranked_NoDup.
Qed.

(** A provider's template excludes the other routes. *)
Lemma select_length local host prefs : length (select_delivery local host prefs) <= 5.
Proof.
  rewrite select_delivery_correct. unfold delivery_spec.
  rewrite (Permutation_length (sort_by_perm (route_cmp prefs) _)).
  unfold available, all_strategies. simpl. repeat case_match; simpl; lia || congruence.
Qed.

(** The routes offered for a probed machine respect what the probe found:
    without full egress it is never asked to pull or to build, it is never
    treated as a provider's machine, and as soon as this side can make an
    archive there is a route that needs nothing of the machine but the channel
    the probe used. *)
Theorem probed_routes (out : string) (caps : HostCaps) (local : LocalCaps) (prefs : list DeliveryCap) :
  parse_probe out = Ok caps ->
  ProviderTemplate ∉ select_delivery local caps prefs /\
  (egress caps <> EgressFull ->
   RegistryPull ∉ select_delivery local caps prefs /\ RemoteBuild ∉ select_delivery local caps prefs) /\
  (SshStream false ∈ select_delivery local caps prefs <-> (has_podman local || has_skopeo local) = true).
Proof.
  unfold parse_probe, caps_of_kv. destruct (_ ≫= parse_uname) as [a|]; [|done]. simpl.
  destruct (_ !! "OS") as [o|]; [|done]. simpl. intros [= <-].
  rewrite !elem_of_select. unfold available. simpl.
  set (kv := probe_kv out). set (e := probe_egress kv).
  rewrite (bool_decide_eq_false_2 (CapProviderTemplate ∈ _))
    by (rewrite elem_of_probe_delivery; intuition congruence).
  rewrite (bool_decide_eq_true_2 (CapSshStream ∈ _)) by (rewrite elem_of_probe_delivery; by left).
  split; [done|]. split; [|by rewrite andb_true_r].
  intros He. rewrite !bool_decide_eq_true, !elem_of_probe_delivery. intuition congruence.
Qed.

Lemma probed_routes_witness :
  exists caps, parse_probe (report sample_report) = Ok caps /\ egress caps <> EgressFull /\
    RegistryPull ∉ select_delivery (mkLocalCaps true false false true) caps [CapRegistryPull].
Proof.
  eexists. split; [by vm_compute|]. split; [done|].
  apply (probed_routes (report sample_report) _ (mkLocalCaps true false false true) [CapRegistryPull]);
    [by vm_compute|done].
Defined.
