(* ===== verification/HostMachine.v ===== *)
(** * The host provisioning machine

    thegn-core/src/host_machine.rs: one event in, the next state, the updated
    context and a batch of effects out.  The driver that executes the effects
    is in [HostFlow].

    The message of an unexpected pair prints the state and the event with
    their derived [Debug] text; that text is the parameter [debug_pair]. *)
From Stdlib Require Import Ascii String.
From S2P Require Import Prelude RustStr RustText Image Capacity Host.
Local Open Scope string_scope.
Local Open Scope list_scope.

Create HintDb host.

(** ** States, events and effects *)

Inductive HostState :=
| Unknown
| Connecting
| Probing
| AwaitingConsent (rt : RuntimeKind)
| Installing (rt : RuntimeKind)
| RuntimeReady
| ImageResolving
| Delivering (strategy : DeliveryStrategy)
| ImageReady
| VolumeSeeding (remaining : list VolumeSpec)
| Ready
| Draining
| Failed (f : HostFailure).

Definition durable_tag (s : HostState) : option string :=
  match s with
  | Unknown => Some "unknown"
  | RuntimeReady => Some "runtime_ready"
  | ImageReady => Some "image_ready"
  | Ready => Some "ready"
  | Draining => Some "draining"
  | Failed _ => Some "failed"
  | _ => None
  end.

Definition from_durable_tag (t : string) (failure : option HostFailure) : HostState :=
  if String.eqb t "runtime_ready" then RuntimeReady
  else if String.eqb t "image_ready" then ImageReady
  else if String.eqb t "ready" then Ready
  else if String.eqb t "draining" then Draining
  else if String.eqb t "failed" then
    Failed (default (mkHostFailure SConnect "unknown failure" true) failure)
  else Unknown.

(** [HostState::step]: the step a failure in this state is tagged with. *)
Definition state_step (s : HostState) : HostStep :=
  match s with
  | Unknown | Connecting => SConnect
  | Probing => SProbe
  | AwaitingConsent _ => SConsent
  | Installing _ => SInstall
  | RuntimeReady | ImageResolving => SResolveImage
  | Delivering _ => SDeliver
  | ImageReady | VolumeSeeding _ => SSeedVolume
  | Ready | Draining | Failed _ => SVerify
  end.

Inductive HostEvent :=
| Start
| Connected
| ConnectFailed (err : string)
| Probed (caps : HostCaps)
| ProbeFailed (err : string)
| ConsentGranted
| ConsentDenied
| Installed (rt : RuntimeInfo)
| InstallFailed (err : string)
| ImageResolved (r : ResolvedImage)
| ResolveFailed (err : string)
| ImagePresent
| ImageAbsent
| Delivered (verified_digest : Digest)
| DeliverFailed (err : string)
| VolumeSeeded (volume : string)
| VolumeSeedFailed (volume : string) (err : string).

Inductive HostEffect :=
| EConnect
| EProbe
| EAskConsent (rt : RuntimeKind)
| EInstall (rt : RuntimeKind)
| EResolveImage (ref : ImageRef)
| ECheckImage (d : Digest)
| EDeliver (strategy : DeliveryStrategy) (d : Digest)
| ESeedVolume (spec : VolumeSpec)
| ECheckpoint (st : HostState)
| EEmit (hs : HostStep) (detail : string).

Record MachineCtx := mkMachineCtx {
  consent : InstallConsent;
  local : LocalCaps;
  wanted_image : ImageRef;
  wanted_volumes : list VolumeSpec;
  delivery_prefs : list DeliveryCap;
  caps : option HostCaps;
  resolved : option ResolvedImage;
  strategies : list DeliveryStrategy;
}.

Definition new_ctx (consent : InstallConsent) (local : LocalCaps) (wanted_image : ImageRef)
    (wanted_volumes : list VolumeSpec) (delivery_prefs : list DeliveryCap) : MachineCtx :=
  mkMachineCtx consent local wanted_image wanted_volumes delivery_prefs None None [].

Definition set_probed (c : MachineCtx) (caps : HostCaps) (strategies : list DeliveryStrategy) :=
  mkMachineCtx (consent c) (local c) (wanted_image c) (wanted_volumes c) (delivery_prefs c)
    (Some caps) (resolved c) strategies.

Definition set_runtime (c : MachineCtx) (rt : RuntimeInfo) :=
  mkMachineCtx (consent c) (local c) (wanted_image c) (wanted_volumes c) (delivery_prefs c)
    ((fun h => mkHostCaps (arch h) (os h) (Some rt) (delivery h) (egress h) (can_install_runtime h)
       (disk_free_bytes h) (has_nix h) (cgroup_v2 h) (userns h) (nproc h) (mem_total_kb h)) <$> caps c)
    (resolved c) (strategies c).

Definition set_resolved (c : MachineCtx) (r : ResolvedImage) :=
  mkMachineCtx (consent c) (local c) (wanted_image c) (wanted_volumes c) (delivery_prefs c)
    (caps c) (Some r) (strategies c).

Definition wanted_digest (c : MachineCtx) : option Digest :=
  h ← caps c; r ← resolved c; digest_for r (arch h).

Record Transition := mkTransition { next : HostState; effects : list HostEffect }.

(** ** Transitions *)

Definition fail (st : HostStep) (err : string) (retry : bool) : Transition :=
  let state := Failed (mkHostFailure st err retry) in
  mkTransition state [ECheckpoint state].

(** [t.effects.insert(0, e)]. *)
Definition prepend (e : HostEffect) (t : Transition) : Transition :=
  mkTransition (next t) (e :: effects t).

Definition enter_volumes (c : MachineCtx) : Transition :=
  let remaining := wanted_volumes c in
  match remaining with
  | [] => mkTransition Ready [ECheckpoint ImageReady; ECheckpoint Ready; EEmit SVerify "ready"]
  | first :: _ =>
      mkTransition (VolumeSeeding remaining)
        [ECheckpoint ImageReady; EEmit SSeedVolume ("seed " ++ vol_name first); ESeedVolume first]
  end.

Definition enter_image (c : MachineCtx) : Transition :=
  mkTransition ImageResolving
    (ECheckpoint RuntimeReady ::
     match wanted_digest c with
     | Some d => [EEmit SVerify ("check " ++ short d); ECheckImage d]
     | None => [EEmit SResolveImage ("resolve " ++ show_ref (wanted_image c));
                EResolveImage (wanted_image c)]
     end).

Definition next_strategy (c : MachineCtx) (failed : DeliveryStrategy) : option DeliveryStrategy :=
  i ← position (fun s => bool_decide (s = failed)) (strategies c);
  strategies c !! (i + 1).

Section Machine.
Variable debug_pair : HostState -> HostEvent -> string.

(** The arm for a pair the machine does not expect. *)
Definition unexpected (s : HostState) (ev : HostEvent) : Transition :=
  fail (state_step s) (debug_pair s ev) true.

Definition on_probed (c : MachineCtx) (h : HostCaps) : MachineCtx * Transition :=
  let c := set_probed c h (select_delivery (local c) h (delivery_prefs c)) in
  (c, match runtime h with
      | Some rt =>
          prepend (EEmit SProbe (runtime_str (rt_kind rt) ++ " " ++ rt_version rt)) (enter_image c)
      | None =>
          match consent c, can_install_runtime h with
          | CAuto, true =>
              mkTransition (Installing Podman)
                [EEmit SInstall "install podman (pre-granted)"; EInstall Podman]
          | CAsk, true =>
              mkTransition (AwaitingConsent Podman)
                [EEmit SConsent "awaiting install consent"; EAskConsent Podman]
          | CNever, _ =>
              fail SInstall
                ("no container runtime and install is disallowed (install_runtime = " ++
                 ch "034" ++ "never" ++ ch "034" ++ ")") false
          | _, _ =>
              fail SInstall "no container runtime and no supported package manager to install one" false
          end
      end).

Definition on_resolved (c : MachineCtx) (r : ResolvedImage) : MachineCtx * Transition :=
  let c := set_resolved c r in
  (c, match wanted_digest c with
      | Some d => mkTransition ImageResolving [EEmit SVerify ("check " ++ short d); ECheckImage d]
      | None =>
          let a := default "unknown" ((fun h => oci_name (arch h)) <$> caps c) in
          fail SResolveImage (show_ref (wanted_image c) ++ " has no " ++ a ++ " manifest") false
      end).

Definition on_absent (c : MachineCtx) : Transition :=
  match wanted_digest c with
  | None => fail SDeliver "image absent but no resolved digest (driver bug)" true
  | Some d =>
      match strategies c with
      | s :: _ =>
          mkTransition (Delivering s)
            [EEmit SDeliver ("deliver via " ++ strategy_str s); EDeliver s d]
      | [] => fail SDeliver "no delivery route available (no local image source, no host egress)" true
      end
  end.

Definition on_delivered (c : MachineCtx) (verified : Digest) : Transition :=
  match wanted_digest c with
  | Some want =>
      if bool_decide (want = verified) then
        prepend (EEmit SDeliver ("delivered " ++ short want)) (enter_volumes c)
      else
        fail SVerify
          ("digest mismatch after delivery (want " ++ short want ++ ", got " ++ short verified ++
           ") — refusing to boot") true
  | None => fail SVerify "delivered without a resolved digest (driver bug)" true
  end.

Definition on_deliver_failed (c : MachineCtx) (s : DeliveryStrategy) (err : string) : Transition :=
  match next_strategy c s with
  | Some n =>
      match wanted_digest c with
      | None => fail SDeliver err true
      | Some d =>
          mkTransition (Delivering n)
            [EEmit SDeliver (strategy_str s ++ " failed (" ++ err ++ ") — falling back to " ++
               strategy_str n);
             EDeliver n d]
      end
  | None => fail SDeliver ("all delivery routes failed (last: " ++ err ++ ")") true
  end.

Definition on_seeded (remaining : list VolumeSpec) (volume : string) : Transition :=
  let rest := List.filter (fun v => negb (String.eqb (vol_name v) volume)) remaining in
  match rest with
  | [] => mkTransition Ready [ECheckpoint Ready; EEmit SVerify "ready"]
  | v :: _ =>
      mkTransition (VolumeSeeding rest)
        [EEmit SSeedVolume ("seed " ++ vol_name v); ESeedVolume v]
  end.

(** [step]: the context is threaded, the code mutates it. *)
Definition step (s : HostState) (c : MachineCtx) (ev : HostEvent) : MachineCtx * Transition :=
  match s, ev with
  | Draining, _ => (c, mkTransition Draining [])
  | Unknown, Start | Connecting, Start =>
      (c, mkTransition Connecting [EEmit SConnect "connect"; EConnect])
  | Connecting, Connected => (c, mkTransition Probing [EEmit SProbe "probe"; EProbe])
  | Connecting, ConnectFailed e => (c, fail SConnect e true)
  | Probing, Probed h => on_probed c h
  | Probing, ProbeFailed e => (c, fail SProbe e true)
  | AwaitingConsent rt, ConsentGranted =>
      (c, mkTransition (Installing rt)
            [EEmit SInstall ("install " ++ runtime_str rt); EInstall rt])
  | AwaitingConsent _, ConsentDenied =>
      (c, fail SConsent ("install declined — grant from the Hosts panel or set install_runtime = " ++
            ch "034" ++ "auto" ++ ch "034") false)
  | Installing _, Installed rt =>
      let c := set_runtime c rt in
      (c, prepend (EEmit SInstall ("installed " ++ runtime_str (rt_kind rt) ++ " " ++ rt_version rt))
            (enter_image c))
  | Installing _, InstallFailed e => (c, fail SInstall e true)
  | ImageResolving, ImageResolved r => on_resolved c r
  | ImageResolving, ResolveFailed e => (c, fail SResolveImage e true)
  | ImageResolving, ImagePresent => (c, prepend (EEmit SVerify "image present") (enter_volumes c))
  | ImageResolving, ImageAbsent => (c, on_absent c)
  | Delivering _, Delivered d => (c, on_delivered c d)
  | Delivering s, DeliverFailed e => (c, on_deliver_failed c s e)
  | VolumeSeeding remaining, VolumeSeeded v => (c, on_seeded remaining v)
  | VolumeSeeding _, VolumeSeedFailed v e =>
      (c, fail SSeedVolume ("seeding " ++ v ++ ": " ++ e) true)
  | Ready, Start => (c, mkTransition Ready [])
  | Failed f, Start =>
      if retryable f then
        (c, mkTransition Connecting [EEmit SConnect ("retry after: " ++ error f); EConnect])
      else (c, mkTransition (Failed f) [])
  | _, _ => (c, unexpected s ev)
  end.
End Machine.

(** [resume]: from a persisted state. *)
Definition resume (persisted : HostState) (last_probe : option Z) (now probe_ttl_secs : Z)
    : HostState * list HostEffect :=
  match persisted with
  | Ready =>
      let fresh := match last_probe with
                   | Some t => (i64_sat_sub now t <=? probe_ttl_secs)%Z
                   | None => false
                   end in
      if fresh then (Ready, [])
      else (Connecting, [EEmit SProbe "probe ttl lapsed — re-verify"; EConnect])
  | Draining => (Draining, [])
  | Failed f =>
      if negb (retryable f) then (Failed f, [])
      else (Connecting, [EEmit SConnect "resume"; EConnect])
  | _ => (Connecting, [EEmit SConnect "resume"; EConnect])
  end.

(** ** Durable states *)

Definition failure_of (s : HostState) : option HostFailure :=
  match s with Failed f => Some f | _ => None end.

(** A persisted state is read back as it was: the tag of a durable state,
    with the failure stored beside it, rebuilds that state. *)
Theorem durable_roundtrip (s : HostState) (t : string) :
  durable_tag s = Some t -> from_durable_tag t (failure_of s) = s.
Proof. destruct s; simpl; intros [= <-]; reflexivity. Qed.

Lemma durable_roundtrip_witness :
  durable_tag (Failed (mkHostFailure SDeliver "x" false)) = Some "failed" /\
  from_durable_tag "failed" (Some (mkHostFailure SDeliver "x" false)) =
    Failed (mkHostFailure SDeliver "x" false).
Proof.
  split; [done|].
  apply (durable_roundtrip (Failed (mkHostFailure SDeliver "x" false)) "failed"). done.
Defined.

(** An effect that asks something of the world, as against bookkeeping. *)
Definition is_action (e : HostEffect) : bool :=
  match e with ECheckpoint _ | EEmit _ _ => false | _ => true end.

Definition actions (es : list HostEffect) : list HostEffect := List.filter is_action es.

(** The states in which a drive ends; only an explicit removal makes a host
    [Draining], never the machine. *)
Definition terminal (s : HostState) : bool :=
  match s with Ready | Failed _ => true | _ => false end.

(** The events that can answer an effect: what the driver reports after
    executing it. *)
Inductive answers : HostEffect -> HostEvent -> Prop :=
| ans_connected : answers EConnect Connected
| ans_connect_failed e : answers EConnect (ConnectFailed e)
| ans_probed h : answers EProbe (Probed h)
| ans_probe_failed e : answers EProbe (ProbeFailed e)
| ans_granted rt : answers (EAskConsent rt) ConsentGranted
| ans_denied rt : answers (EAskConsent rt) ConsentDenied
| ans_installed rt i : answers (EInstall rt) (Installed i)
| ans_install_failed rt e : answers (EInstall rt) (InstallFailed e)
| ans_resolved ref r : answers (EResolveImage ref) (ImageResolved r)
| ans_resolve_failed ref e : answers (EResolveImage ref) (ResolveFailed e)
| ans_present d : answers (ECheckImage d) ImagePresent
| ans_absent d : answers (ECheckImage d) ImageAbsent
| ans_check_failed d e : answers (ECheckImage d) (ResolveFailed e)
| ans_delivered s d d' : answers (EDeliver s d) (Delivered d')
| ans_deliver_failed s d e : answers (EDeliver s d) (DeliverFailed e)
| ans_seeded v : answers (ESeedVolume v) (VolumeSeeded (vol_name v))
| ans_seed_failed v e : answers (ESeedVolume v) (VolumeSeedFailed (vol_name v) e).

(** The typing of a machine that waits: which effect may be outstanding in
    which state, and what the context then holds. *)
Inductive awaits (c : MachineCtx) : HostState -> HostEffect -> Prop :=
| aw_connect : awaits c Connecting EConnect
| aw_probe : awaits c Probing EProbe
| aw_consent rt h : caps c = Some h -> consent c = CAsk -> awaits c (AwaitingConsent rt) (EAskConsent rt)
| aw_install rt h : caps c = Some h -> consent c <> CNever -> awaits c (Installing rt) (EInstall rt)
| aw_resolve h :
    caps c = Some h -> wanted_digest c = None -> awaits c ImageResolving (EResolveImage (wanted_image c))
| aw_check d : wanted_digest c = Some d -> awaits c ImageResolving (ECheckImage d)
| aw_deliver s d :
    wanted_digest c = Some d -> s ∈ strategies c -> awaits c (Delivering s) (EDeliver s d)
| aw_seed v rest d :
    wanted_digest c = Some d -> awaits c (VolumeSeeding (v :: rest)) (ESeedVolume v).

(** The routes of a context are those of its probed machine. *)
Definition routes_ok (c : MachineCtx) : Prop :=
  NoDup (strategies c) /\ length (strategies c) <= 5.

Definition waiting (c : MachineCtx) (s : HostState) (e : HostEffect) : Prop :=
  awaits c s e /\ routes_ok c.

#[export] Hint Constructors answers awaits : host.

Lemma routes_select c h c' :
  strategies c' = select_delivery (local c) h (delivery_prefs c) -> routes_ok c'.
Proof. intros H. unfold routes_ok. rewrite H. split; [apply select_NoDup|apply select_length]. Qed.

(** The outcome of a well-typed step: settled, or waiting for one more answer. *)
Definition step_ok (c : MachineCtx) (t : Transition) : Prop :=
  (terminal (next t) = true /\ actions (effects t) = []) \/
  exists e, actions (effects t) = [e] /\ waiting c (next t) e.

Lemma enter_volumes_ok c m d :
  wanted_digest c = Some d -> routes_ok c -> is_action m = false ->
  step_ok c (prepend m (enter_volumes c)).
Proof.
  intros Hd Hr Hm. unfold enter_volumes, step_ok, actions. destruct (wanted_volumes c) as [|v vs];
    cbn [prepend next effects List.filter is_action]; rewrite Hm; [by left|].
  right. eexists. split; [done|]. split; [|done]. by eapply aw_seed.
Qed.

Lemma enter_image_ok c m h :
  caps c = Some h -> routes_ok c -> is_action m = false -> step_ok c (prepend m (enter_image c)).
Proof.
  intros Hh Hr Hm. unfold enter_image, step_ok, actions. right.
  destruct (wanted_digest c) as [d|] eqn:E; cbn [prepend next effects List.filter is_action]; rewrite Hm;
    eexists; (split; [done|]); split; eauto with host.
Qed.

Lemma fail_ok c st e r : step_ok c (fail st e r).
Proof. by left. Qed.

#[export] Hint Resolve enter_volumes_ok enter_image_ok fail_ok : host.

Lemma next_strategy_in c s n : next_strategy c s = Some n -> n ∈ strategies c.
Proof.
  unfold next_strategy. destruct (position _ _); simpl; [|done]. apply list_elem_of_lookup_2.
Qed.

Section Typing.
Variable debug_pair : HostState -> HostEvent -> string.

Lemma on_probed_ok c h : step_ok (on_probed c h).1 (on_probed c h).2.
Proof.
  unfold on_probed. cbn [fst snd]. set (c' := set_probed _ _ _).
  assert (routes_ok c') as Hr by (eapply (routes_select c h); reflexivity).
  destruct (runtime h); [by eapply enter_image_ok|].
  destruct (consent c') eqn:Hc, (can_install_runtime h); try apply fail_ok;
    right; eexists; (split; [reflexivity|]); split; try done; econstructor; try done; congruence.
Qed.

Lemma on_resolved_ok c h r : caps c = Some h -> routes_ok c ->
  step_ok (on_resolved c r).1 (on_resolved c r).2.
Proof.
  intros Hh Hr. unfold on_resolved. cbn [fst snd]. destruct (wanted_digest (set_resolved c r)) as [d|] eqn:E;
    [|apply fail_ok]. right. eexists. split; [reflexivity|]. split; [|done]. by constructor.
Qed.

Lemma on_absent_ok c d : wanted_digest c = Some d -> routes_ok c -> step_ok c (on_absent c).
Proof.
  intros Hd Hr. unfold on_absent. rewrite Hd. destruct (strategies c) as [|s ss] eqn:Es; [apply fail_ok|].
  right. eexists. split; [reflexivity|]. split; [|done]. constructor; [done|]. rewrite Es. by left.
Qed.

Lemma on_deliver_failed_ok c s d e :
  wanted_digest c = Some d -> routes_ok c -> step_ok c (on_deliver_failed c s e).
Proof.
  intros Hd Hr. unfold on_deliver_failed. destruct (next_strategy c s) as [n|] eqn:En; [|apply fail_ok].
  rewrite Hd. right. eexists. split; [reflexivity|]. split; [|done]. constructor; [done|].
  by eapply next_strategy_in.
Qed.

Lemma on_seeded_ok c rem v d :
  wanted_digest c = Some d -> routes_ok c -> step_ok c (on_seeded rem v).
Proof.
  intros Hd Hr. unfold on_seeded. destruct (List.filter _ rem) as [|w ws]; [by left|].
  right. eexists. split; [reflexivity|]. split; [|done]. by econstructor.
Qed.

(** From a state that waits for the effect it asked for, every answer to that
    effect leads to a settled state without further requests, or to a state that
    waits for exactly one new effect; the arm for unexpected events is not taken. *)
Lemma step_typed (c : MachineCtx) (s : HostState) (e : HostEffect) (ev : HostEvent) :
  waiting c s e -> answers e ev ->
  step_ok (step debug_pair s c ev).1 (step debug_pair s c ev).2 /\
  (forall debug_pair', step debug_pair' s c ev = step debug_pair s c ev).
Proof.
  intros [Ha Hr] Hev. destruct Ha; inversion Hev; subst; clear Hev; (split; [|done]);
    cbn [step fst snd]; eauto using on_probed_ok, on_resolved_ok, on_absent_ok, on_deliver_failed_ok,
      on_seeded_ok with host.
  - right. eexists. split; [reflexivity|]. split; [constructor|done].
  - right. eexists. split; [reflexivity|]. split; [|done]. econstructor; [done|congruence].
  - eapply (enter_image_ok (set_runtime c i)); [|done..]. simpl. by rewrite H.
  - unfold on_delivered. rewrite H. case_bool_decide; eauto with host.
Qed.
(** Runs of the machine under a driver that answers what it is asked; a run
    begins where [resume] and [Start] enter it. *)
Inductive reachable (c0 : MachineCtx) : MachineCtx -> HostState -> list HostEffect -> Prop :=
| reach_start m : is_action m = false -> reachable c0 c0 Connecting [m; EConnect]
| reach_step c s es e ev :
    reachable c0 c s es -> actions es = [e] -> answers e ev ->
    reachable c0 (step debug_pair s c ev).1 (next (step debug_pair s c ev).2)
      (effects (step debug_pair s c ev).2).

Lemma reachable_ok c0 c s es :
  routes_ok c0 -> reachable c0 c s es -> step_ok c (mkTransition s es).
Proof.
  intros H0. induction 1 as [m Hm|c s es e ev _ IH He Hev].
  - right. exists EConnect. unfold actions. simpl. rewrite Hm. split; [done|]. by split; [constructor|].
  - destruct IH as [ [_ Hn]|(e' & He' & Hw)]; simpl in *; [congruence|].
    assert (e' = e) as -> by congruence.
    destruct (step_typed c s e ev Hw Hev) as [Hok _].
    destruct (step debug_pair s c ev) as [c' [s' es'] ]. exact Hok.
Qed.

(** C18. The machine is well typed: in every run whose driver answers the effect
    it was given, the machine is either settled with nothing outstanding or
    waits for exactly one effect, in a state and a context that fit it; and no
    answer takes the arm for unexpected events, whatever that arm would say. *)
Theorem host_typed (c0 c : MachineCtx) (s : HostState) (es : list HostEffect) :
  routes_ok c0 -> reachable c0 c s es ->
  (terminal s = true /\ actions es = []) \/
  exists e, actions es = [e] /\ waiting c s e /\
    forall ev debug_pair', answers e ev -> step debug_pair' s c ev = step debug_pair s c ev.
Proof.
  intros H0 Hr. destruct (reachable_ok c0 c s es H0 Hr) as [H|(e & He & Hw)]; [by left|].
  right. exists e. split; [done|]. split; [done|]. intros ev dbg' Hev. by apply (step_typed c s e ev Hw Hev).
Qed.
End Typing.

(** ** Every answer is progress *)

Definition route_index (c : MachineCtx) (s : DeliveryStrategy) : nat :=
  default 0 (position (fun t => bool_decide (t = s)) (strategies c)).

(** An upper bound on the answers still needed. *)
Definition distance (c : MachineCtx) (s : HostState) (e : HostEffect) : nat :=
  let vols := length (wanted_volumes c) in
  match s with
  | Connecting => vols + 11
  | Probing => vols + 10
  | AwaitingConsent _ => vols + 9
  | Installing _ => vols + 8
  | ImageResolving => match e with EResolveImage _ => vols + 7 | _ => vols + 6 end
  | Delivering s => vols + (length (strategies c) - route_index c s)
  | VolumeSeeding remaining => length remaining
  | _ => 0
  end.

Lemma position_NoDup (l : list DeliveryStrategy) i s :
  NoDup l -> l !! i = Some s -> position (fun t => bool_decide (t = s)) l = Some i.
Proof.
  intros Hnd. revert i. induction Hnd as [|x l Hx _ IH]; intros [|i] Hi; simpl in *; simplify_eq.
  - by rewrite bool_decide_eq_true_2.
  - rewrite bool_decide_eq_false_2; [by rewrite (IH i Hi)|]. intros ->. apply Hx. by eapply list_elem_of_lookup_2.
Qed.

(** The fallback is the next route of the ladder: no route is tried twice. *)
Lemma next_strategy_index c s n :
  NoDup (strategies c) -> next_strategy c s = Some n ->
  route_index c n = S (route_index c s) /\ route_index c n < length (strategies c).
Proof.
  unfold next_strategy, route_index. intros Hnd H. destruct (position _ (strategies c)) as [i|] eqn:E; [|done].
  simpl in *. rewrite (position_NoDup _ _ _ Hnd H). simpl. split; [lia|]. by eapply lookup_lt_Some.
Qed.

Lemma route_index_lt c s : NoDup (strategies c) -> s ∈ strategies c -> route_index c s < length (strategies c).
Proof.
  intros Hnd [i Hi]%list_elem_of_lookup. unfold route_index. rewrite (position_NoDup _ _ _ Hnd Hi).
  simpl. by eapply lookup_lt_Some.
Qed.

(** The context keeps what it was created with. *)
Definition same_request (c c' : MachineCtx) : Prop :=
  consent c' = consent c /\ local c' = local c /\ wanted_image c' = wanted_image c /\
  wanted_volumes c' = wanted_volumes c /\ delivery_prefs c' = delivery_prefs c.

Lemma step_request debug_pair s c ev : same_request c (step debug_pair s c ev).1.
Proof.
  unfold same_request. destruct s, ev; try (by repeat split); simpl; by destruct (retryable _).
Qed.

Lemma prepend_actions m t :
  is_action m = false -> actions (effects (prepend m t)) = actions (effects t).
Proof. intros H. unfold actions. simpl. by rewrite H. Qed.

Section Progress.
Variable debug_pair : HostState -> HostEvent -> string.

Lemma enter_volumes_distance c m e :
  is_action m = false -> actions (effects (prepend m (enter_volumes c))) = [e] ->
  distance c (next (prepend m (enter_volumes c))) e <= length (wanted_volumes c).
Proof.
  intros Hm. rewrite prepend_actions by done. unfold enter_volumes.
  destruct (wanted_volumes c) as [|v vs] eqn:E; simpl; [done|]. intros _. lia.
Qed.

Lemma enter_image_distance c m e :
  distance c (next (prepend m (enter_image c))) e <= length (wanted_volumes c) + 7.
Proof. simpl. destruct e; lia. Qed.

(** Provisioning ends: each answer to the outstanding effect brings the
    machine strictly closer to a settled state, down the ladder of delivery
    routes and the list of volumes; in particular no route is tried twice. *)
Lemma answers_descend (c : MachineCtx) (s : HostState) (e e' : HostEffect) (ev : HostEvent) :
  waiting c s e -> answers e ev ->
  let '(c', t) := step debug_pair s c ev in
  actions (effects t) = [e'] -> distance c' (next t) e' < distance c s e.
Proof.
  intros [Ha [Hnd Hlen] ] Hev. destruct Ha as [| |rt h|rt h|h Hh Hn|d Hd|s d Hd Hin|v rest d Hd];
    inversion Hev; subst; clear Hev; cbn [step]; intros He; try done.
  - simpl. lia.
  - unfold on_probed in *. set (c' := set_probed _ _ _) in *.
    destruct (runtime h).
    + pose proof (enter_image_distance c' (EEmit SProbe (runtime_str (rt_kind r) ++ " " ++ rt_version r)) e').
      simpl in *. lia.
    + destruct (consent c'), (can_install_runtime h); try done; simpl; lia.
  - simpl. lia.
  - pose proof (enter_image_distance (set_runtime c i)
      (EEmit SInstall ("installed " ++ runtime_str (rt_kind i) ++ " " ++ rt_version i)) e'). simpl in *. lia.
  - unfold on_resolved in *. destruct (wanted_digest (set_resolved c r)); [|done]. injection He as <-. simpl. lia.
  - apply enter_volumes_distance in He; [|done]. simpl in *. lia.
  - unfold on_absent in *. rewrite Hd in *. destruct (strategies c) as [|s0 ss] eqn:Es; [done|].
    injection He as <-. simpl. rewrite Es. simpl in Hlen |- *. lia.
  - pose proof (route_index_lt c s Hnd Hin). unfold on_delivered in *. rewrite Hd in *.
    case_bool_decide; [|done]. apply enter_volumes_distance in He; [|done]. simpl in *. lia.
  - unfold on_deliver_failed in *. destruct (next_strategy c s) as [n|] eqn:En; [|done].
    rewrite Hd in *. destruct (next_strategy_index c s n Hnd En). simpl. lia.
  - unfold on_seeded in *. simpl in *. rewrite String.eqb_refl in *. simpl in *.
    pose proof (List.filter_length_le (fun w => negb (String.eqb (vol_name w) (vol_name v))) rest) as Hl.
    destruct (List.filter _ rest) as [|w ws]; [done|]. simpl in *. lia.
Qed.
End Progress.

(** ** Checkpoints *)

Definition persists (es : list HostEffect) : Prop :=
  forall st, ECheckpoint st ∈ es -> durable_tag st <> None.

(** Only durable states are ever persisted: whatever the state and the
    event, each checkpoint a transition or a resumption asks for has a tag, so
    a killed driver finds a state it can read back. *)
Theorem checkpoints_durable (debug_pair : HostState -> HostEvent -> string)
    (s : HostState) (c : MachineCtx) (ev : HostEvent) (st : HostState) :
  ECheckpoint st ∈ effects (step debug_pair s c ev).2 -> durable_tag st <> None.
Proof.
  assert (forall es, Forall (fun e => match e with ECheckpoint st => durable_tag st <> None | _ => True end) es ->
    ECheckpoint st ∈ es -> durable_tag st <> None) as H.
  { intros es Hes Hin. by apply (proj1 (Forall_forall _ _) Hes) in Hin. }
  apply H. clear H.
  unfold step, on_probed, on_resolved, on_absent, on_delivered, on_deliver_failed, on_seeded,
    enter_image, enter_volumes, fail, unexpected, prepend.
  repeat case_match; simpl; simplify_eq; repeat constructor; done.
Qed.

Lemma checkpoints_durable_witness :
  durable_tag ImageReady <> None.
Proof.
  apply (checkpoints_durable (fun _ _ => "") ImageResolving
    (new_ctx CAsk (mkLocalCaps true false false false) (mkImageRef "img" "v1" None) [] []) ImagePresent).
  simpl. set_solver.
Defined.

(** ** A machine in the middle of its ladder *)

Definition sample_digest : Digest := mkDigest (SHA_PREFIX ++ sample_hex)%string.

Definition sample_caps : HostCaps :=
  mkHostCaps Amd64 "linux" (Some (mkRuntimeInfo Podman "4.9" true None))
    {[CapSshStream; CapRsync; CapRegistryPull]} EgressFull false None false false false None None.

Definition sample_ref : ImageRef := mkImageRef "base" "v1" None.

Definition sample_ctx : MachineCtx :=
  mkMachineCtx CAsk (mkLocalCaps true false true true) sample_ref [] [] (Some sample_caps)
    (Some (mkResolvedImage sample_ref sample_digest {[Amd64 := sample_digest]}))
    [SshStream true; SshStream false; RegistryPull].

Lemma host_typed_witness :
  routes_ok sample_ctx /\
  reachable (fun _ _ => "") sample_ctx sample_ctx Probing [EEmit SProbe "probe"; EProbe] /\
  exists e, actions [EEmit SProbe "probe"; EProbe] = [e] /\ waiting sample_ctx Probing e.
Proof.
  assert (routes_ok sample_ctx) as H0
    by (split; [apply (bool_decide_unpack _); by vm_compute|simpl; lia]).
  assert (reachable (fun _ _ => "") sample_ctx sample_ctx Probing [EEmit SProbe "probe"; EProbe]) as Hr.
  { apply (reach_step (fun _ _ => "") sample_ctx sample_ctx Connecting
      [EEmit SConnect "resume"; EConnect] EConnect Connected); [by constructor|done|constructor]. }
  split; [done|]. split; [done|].
  destruct (host_typed (fun _ _ => "") sample_ctx sample_ctx Probing _ H0 Hr) as [ [? _]|(e & He & Hw & _)];
    [done|by exists e].
Defined.
