(* ===== verification/Retry.v ===== *)
(** * Bounded, classified retries

    thegn-core/src/retry.rs and the error classes of transport_error.rs: the
    backoff schedule and the loop that runs an operation until it succeeds,
    fails for good, or exhausts its attempts or its time.

    Durations are nanoseconds.  The operation, the clock and sleeping act on a
    state the caller chooses; the progress line a retry prints is the callback
    [note], which is given its ingredients. *)
From Stdlib Require Import Ascii String.
From S2P Require Import Prelude RustStr RustText.
Local Open Scope string_scope.
Local Open Scope N_scope.

(** ** Error classes *)

Inductive ErrorClass := Transient | Permanent.

Global Instance ErrorClass_eq_dec : EqDecision ErrorClass.
Proof. solve_decision. Defined.

Record ClassifiedErr := mkClassifiedErr { class : ErrorClass; msg : string }.

(** ** The schedule *)

Record ReconnectPolicy := mkReconnectPolicy {
  max_attempts : N;
  base_delay_ms : N;
  max_delay_ms : N;
}.

Definition default_policy : ReconnectPolicy := mkReconnectPolicy 5 500 10000.
Definition control_plane_default : ReconnectPolicy := mkReconnectPolicy 4 1000 15000.
Definition probe_policy : ReconnectPolicy := mkReconnectPolicy 3 1000 4000.

(** [backoff], in milliseconds. *)
Definition backoff (p : ReconnectPolicy) (attempt : N) : option N :=
  if (attempt =? 0) || (max_attempts p <? attempt) then None
  else
    let shift := N.min (attempt - 1) 20 in
    Some (N.min (u64_sat_mul (base_delay_ms p) (N.shiftl 1 shift)) (max_delay_ms p)).

Definition should_reconnect (p : ReconnectPolicy) (exit_code : Z) (attempt : N) : bool :=
  (attempt <=? max_attempts p) && (exit_code =? 255)%Z.

Definition should_retry (p : ReconnectPolicy) (cls : ErrorClass) (completed : N) : bool :=
  bool_decide (cls = Transient) && (completed <? max_attempts p).

(** ** The loop *)

Record StepBudget := mkStepBudget { policy : ReconnectPolicy; overall : N }.

(** [Duration::millis_ns] in nanoseconds. *)
Definition millis_ns (ms : N) : N := ms * 1000000.

Definition given_up (e : ClassifiedErr) (attempts : N) : ClassifiedErr :=
  if 1 <? attempts
  then mkClassifiedErr (class e) (msg e ++ " (after " ++ fmt_N attempts ++ " attempts)")
  else e.

Section Loop.
Context {S T : Type}.
(** The monotonic clock, sleeping, the progress line and the operation. *)
Variable now : S -> N.
Variable sleep : N -> S -> S.
Variable note : N -> N -> string -> S -> S.
Variable between : S -> S.
Variable op : S -> result ClassifiedErr T * S.

Fixpoint retry_loop (fuel : nat) (b : StepBudget) (start attempt : N) (s : S)
    : result ClassifiedErr T * S :=
  let '(r, s) := op s in
  match r with
  | Ok v => (Ok v, s)
  | Err e =>
      if negb (should_retry (policy b) (class e) attempt) then (Err (given_up e attempt), s)
      else match backoff (policy b) attempt with
           | None => (Err (given_up e attempt), s)
           | Some ms =>
               let delay := millis_ns ms in
               if overall b <=? (now s - start) + delay then (Err (given_up e attempt), s)
               else
                 let s := sleep delay (between (note attempt ms (msg e) s)) in
                 match fuel with
                 | O => (Err (given_up e attempt), s)
                 | Datatypes.S fuel => retry_loop fuel b start (attempt + 1) s
                 end
           end
  end.

(** The attempts bound the recursion: [retry_fuel] shows that more fuel
    changes nothing. *)
Definition with_retry (b : StepBudget) (s : S) : result ClassifiedErr T * S :=
  retry_loop (N.to_nat (max_attempts (policy b))) b (now s) 1 s.
End Loop.

(** ** The schedule grows and is capped *)

Lemma backoff_None p a : backoff p a = None <-> a = 0 \/ max_attempts p < a.
Proof.
  unfold backoff. destruct (N.eqb_spec a 0), (N.ltb_spec (max_attempts p) a); simpl;
    (split; [intros X|intros X; try lia]); try done; auto; discriminate X.
Qed.

(** Backoff never shrinks from one attempt to the next, never exceeds the
    policy's cap, and doubles until it reaches it. *)
Theorem backoff_schedule (p : ReconnectPolicy) (a d d' : N) :
  backoff p a = Some d -> backoff p (a + 1) = Some d' ->
  d <= d' <= max_delay_ms p /\
  (base_delay_ms p * 2 ^ 20 <= u64_max -> a < 20 -> d' = N.min (2 * d) (max_delay_ms p)).
Proof.
  intros H H'.
  assert (~ (a = 0 \/ max_attempts p < a)) as Hn by (rewrite <- backoff_None; by rewrite H).
  assert (~ (a + 1 = 0 \/ max_attempts p < a + 1)) as Hn' by (rewrite <- backoff_None; by rewrite H').
  unfold backoff in *.
  destruct (N.eqb_spec a 0), (N.ltb_spec (max_attempts p) a); simpl in H; try lia.
  destruct (N.eqb_spec (a + 1) 0), (N.ltb_spec (max_attempts p) (a + 1)); simpl in H'; try lia.
  injection H as <-. injection H' as <-. rewrite !N.shiftl_1_l. unfold u64_sat_mul.
  assert (2 ^ N.min (a - 1) 20 <= 2 ^ N.min (a + 1 - 1) 20) as Hp by (apply N.pow_le_mono_r; lia).
  split; [nia|]. intros Hb Ha. replace (N.min (a + 1 - 1) 20) with (N.succ (N.min (a - 1) 20)) by lia.
  rewrite N.pow_succ_r'.
  assert (2 ^ N.succ (N.min (a - 1) 20) <= 2 ^ 20) as Hq by (apply N.pow_le_mono_r; lia).
  rewrite N.pow_succ_r' in Hq. set (x := 2 ^ N.min (a - 1) 20) in *.
  assert (base_delay_ms p * (2 * x) <= u64_max) by nia. assert (base_delay_ms p * x <= u64_max) by nia.
  rewrite !(N.min_l _ u64_max) by done. lia.
Qed.

Lemma backoff_schedule_witness :
  backoff control_plane_default 2 = Some 2000 /\ backoff control_plane_default 3 = Some 4000 /\
  2000 <= 4000 <= 15000.
Proof.
  repeat (split; [reflexivity|]).
  apply (backoff_schedule control_plane_default 2 2000 4000); reflexivity.
Defined.

(** ** What the loop guarantees *)

Section LoopProps.
Context {S T : Type}.
Variable now : S -> N.
Variable sleep : N -> S -> S.
Variable note : N -> N -> string -> S -> S.
Variable between : S -> S.
Variable op : S -> result ClassifiedErr T * S.
Local Abbreviation loop := (retry_loop now sleep note between op).

(** More fuel than attempts changes nothing. *)
Lemma retry_fuel b start fuel1 fuel2 attempt s :
  max_attempts (policy b) <= attempt + N.of_nat fuel1 ->
  max_attempts (policy b) <= attempt + N.of_nat fuel2 ->
  loop fuel1 b start attempt s = loop fuel2 b start attempt s.
Proof.
  revert fuel2 attempt s. induction fuel1 as [|fuel1 IH]; intros [|fuel2] attempt s H1 H2; [done|..];
    cbn [retry_loop]; destruct (op s) as [ [v|e] s']; try done;
    destruct (should_retry (policy b) (class e) attempt) eqn:E; try done; simpl;
    unfold should_retry in E; apply andb_true_iff in E as [_ E]; apply N.ltb_lt in E; try lia.
  destruct (backoff _ _); [|done]. destruct (_ <=? _); [done|]. apply IH; lia.
Qed.

(** A property every attempt, pause and note keeps survives the loop, and what
    a successful attempt establishes holds when the loop succeeds. *)
Lemma retry_loop_inv (P : S -> Prop) (Q : T -> S -> Prop) fuel b start attempt s r s' :
  (forall s, P s -> P (op s).2) ->
  (forall s v s', P s -> op s = (Ok v, s') -> Q v s') ->
  (forall d s, P s -> P (sleep d s)) ->
  (forall s, P s -> P (between s)) ->
  (forall a ms m s, P s -> P (note a ms m s)) ->
  P s -> loop fuel b start attempt s = (r, s') ->
  P s' /\ match r with Ok v => Q v s' | Err _ => True end.
Proof.
  intros Hop HQ Hsl Hbt Hnt. revert attempt s.
  induction fuel as [|fuel IH]; intros attempt s HP; cbn [retry_loop]; pose proof (Hop s HP) as Hs;
    pose proof (HQ s) as Hq; destruct (op s) as [ [v|e] s1]; simpl in Hs;
    try (intros [= <- <-]; by eauto);
    destruct (negb _); try (intros [= <- <-]; by eauto);
    destruct (backoff _ _) as [ms|]; try (intros [= <- <-]; by eauto);
    destruct (_ <=? _); intros H; try (injection H as <- <-; by eauto).
  eapply IH, H. auto.
Qed.

Lemma with_retry_inv (P : S -> Prop) (Q : T -> S -> Prop) b s r s' :
  (forall s, P s -> P (op s).2) ->
  (forall s v s', P s -> op s = (Ok v, s') -> Q v s') ->
  (forall d s, P s -> P (sleep d s)) ->
  (forall s, P s -> P (between s)) ->
  (forall a ms m s, P s -> P (note a ms m s)) ->
  P s -> with_retry now sleep note between op b s = (r, s') ->
  P s' /\ match r with Ok v => Q v s' | Err _ => True end.
Proof. intros. by eapply retry_loop_inv. Qed.

(** A permanent failure is returned as it is. *)
Lemma with_retry_permanent b s e s' :
  op s = (Err e, s') -> class e = Permanent -> with_retry now sleep note between op b s = (Err e, s').
Proof.
  intros H Hc. unfold with_retry. destruct (N.to_nat _); cbn [retry_loop]; rewrite H;
    unfold should_retry; rewrite bool_decide_eq_false_2 by congruence; done.
Qed.
End LoopProps.

(** *** Counting attempts and pauses

    The same loop over a state that also counts the attempts and adds up the
    pauses. *)
Section Counted.
Context {S T : Type}.
Variable now : S -> N.
Variable sleep : N -> S -> S.
Variable note : N -> N -> string -> S -> S.
Variable between : S -> S.
Variable op : S -> result ClassifiedErr T * S.

Record Counted := mkCounted { inner : S; calls : N; slept : N }.

Definition counted_op (c : Counted) : result ClassifiedErr T * Counted :=
  let '(r, s) := op (inner c) in (r, mkCounted s (calls c + 1) (slept c)).
Definition counted_sleep (d : N) (c : Counted) : Counted :=
  mkCounted (sleep d (inner c)) (calls c) (slept c + d).
Definition on_inner (f : S -> S) (c : Counted) : Counted :=
  mkCounted (f (inner c)) (calls c) (slept c).

Definition counted_retry (b : StepBudget) (c : Counted) : result ClassifiedErr T * Counted :=
  with_retry (fun c => now (inner c)) counted_sleep (fun a ms m => on_inner (note a ms m))
    (on_inner between) counted_op b c.

(** Counting does not change the run. *)
Lemma counted_same b c :
  let '(r, c') := counted_retry b c in
  (r, inner c') = with_retry now sleep note between op b (inner c).
Proof.
  unfold counted_retry, with_retry. generalize (N.to_nat (max_attempts (policy b))) as fuel.
  intros fuel. generalize (now (inner c)) as start, 1 as attempt. revert c.
  induction fuel as [|fuel IH]; intros c start attempt; cbn [retry_loop]; unfold counted_op at 1;
    destruct (op (inner c)) as [ [v|e] s1]; try done;
    destruct (negb _); try done; destruct (backoff _ _) as [ms|]; try done; simpl;
    destruct (_ <=? _); try done.
  apply IH.
Qed.

Hypothesis now_op : forall s, now s <= now (op s).2.
Hypothesis now_sleep : forall d s, now s + d <= now (sleep d s).
Hypothesis now_between : forall s, now s <= now (between s).
Hypothesis now_note : forall a ms m s, now s <= now (note a ms m s).

Lemma counted_loop fuel b start attempt c r c' :
  slept c <= now (inner c) - start -> start <= now (inner c) ->
  slept c = 0 \/ slept c < overall b ->
  retry_loop (fun c => now (inner c)) counted_sleep (fun a ms m => on_inner (note a ms m))
    (on_inner between) counted_op fuel b start attempt c = (r, c') ->
  calls c + 1 <= calls c' <= calls c + N.max 1 (max_attempts (policy b) + 1 - attempt) /\
  (slept c' = 0 \/ slept c' < overall b).
Proof.
  revert attempt c. induction fuel as [|fuel IH]; intros attempt c Hs Hst Hov; cbn [retry_loop];
    unfold counted_op at 1; pose proof (now_op (inner c)) as Hop;
    destruct (op (inner c)) as [ [v|e] s1]; simpl in Hop;
    try (intros [= <- <-]; simpl; split; [lia|done]);
    destruct (should_retry _ _ _) eqn:E; simpl; try (intros [= <- <-]; simpl; split; [lia|done]);
    destruct (backoff _ _) as [ms|]; try (intros [= <- <-]; simpl; split; [lia|done]);
    destruct (N.leb_spec (overall b) (now s1 - start + millis_ns ms)) as [Hle|Hlt];
    try (intros [= <- <-]; simpl; split; [lia|done]).
  - intros [= <- <-]. simpl. split; [lia|]. right. lia.
  - intros H. unfold should_retry in E. apply andb_true_iff in E as [_ E]. apply N.ltb_lt in E.
    apply IH in H; simpl in *.
    + destruct H as [H1 H2]. split; [lia|done].
    + pose proof (now_sleep (millis_ns ms) (between (note attempt ms (msg e) s1))).
      pose proof (now_between (note attempt ms (msg e) s1)). pose proof (now_note attempt ms (msg e) s1). lia.
    + pose proof (now_sleep (millis_ns ms) (between (note attempt ms (msg e) s1))).
      pose proof (now_between (note attempt ms (msg e) s1)). pose proof (now_note attempt ms (msg e) s1). lia.
    + right. lia.
Qed.

(** A retried step runs its operation at most as often as the policy
    allows (and at least once), and if it pauses at all the pauses together are
    shorter than the step's time budget, on a clock that a pause advances by
    at least its length. *)
Theorem retry_bounded (b : StepBudget) (s : S) (r : result ClassifiedErr T) (c : Counted) :
  counted_retry b (mkCounted s 0 0) = (r, c) ->
  with_retry now sleep note between op b s = (r, inner c) /\
  1 <= calls c <= N.max 1 (max_attempts (policy b)) /\
  (slept c = 0 \/ slept c < overall b).
Proof.
  intros H. pose proof (counted_same b (mkCounted s 0 0)) as Hsame. rewrite H in Hsame.
  split; [by symmetry|]. apply counted_loop in H; simpl in *; [|lia..|by left].
  destruct H as [H1 H2]. split; [lia|done].
Qed.
End Counted.

(** A link that answers on the third attempt, with a clock of its own. *)
Definition flaky (s : N * N) : result ClassifiedErr N * (N * N) :=
  let '(t, n) := s in
  (if n <? 2 then Err (mkClassifiedErr Transient "dropped") else Ok n, (t + 7, n + 1)).

Lemma retry_bounded_witness :
  exists c, counted_retry fst (fun d '(t, n) => (t + d, n)) (fun _ _ _ s => s) (fun s => s) flaky
    (mkStepBudget control_plane_default (millis_ns 120000)) (mkCounted (0, 0) 0 0) = (Ok 2, c) /\
    1 <= calls c <= 4 /\ (slept c = 0 \/ slept c < millis_ns 120000).
Proof.
  eexists. split; [by vm_compute|].
  apply (retry_bounded fst (fun d '(t, n) => (t + d, n)) (fun _ _ _ s => s) (fun s => s) flaky
    ltac:(intros [t n]; unfold flaky; destruct (n <? 2); simpl; lia)
    ltac:(intros d [t n]; simpl; lia) ltac:(intros; lia) ltac:(intros; lia)
    (mkStepBudget control_plane_default (millis_ns 120000)) (0, 0) (Ok 2)). by vm_compute.
Defined.
