(* ===== verification/HostFlow.v ===== *)
(** * The provisioning driver

    thegn-host/src/host_flow.rs: the leader's loop that executes the machine's
    effects against a [HostRunner] (the trait of thegn-svc/src/host/mod.rs),
    persists its checkpoints and records what is on the host (host_db.rs,
    inventory.rs).

    The runner is an interface, and so are the two clocks.  The step board, the
    snapshots for followers, the UI channel and the text of progress notes are
    outputs only and left out; so are waiting for another process
    ([attach_external]) and for another thread's flight.  Database writes
    succeed: the code ignores their failure.  The answer to an interactive
    consent question is an input: [None] is the question timing out. *)
From Stdlib Require Import Ascii String.
From S2P Require Import Prelude RustStr RustText Image Capacity Host HostMachine Retry.
Local Open Scope string_scope.
Local Open Scope list_scope.

(** [HostId] wraps its canonical string; it is compared and ordered as that string. *)
Definition HostId : Type := string.

(** ** What is recorded about a host *)

Inductive ArtifactKind := AImage | AVolume.

Global Instance ArtifactKind_eq_dec : EqDecision ArtifactKind.
Proof. solve_decision. Defined.

Record InventoryKey := mkInventoryKey {
  k_host : HostId;
  k_kind : ArtifactKind;
  k_digest : Digest;
  k_arch : Arch;
}.

Global Instance InventoryKey_eq_dec : EqDecision InventoryKey.
Proof. solve_decision. Defined.

Record InventoryEntry := mkInventoryEntry {
  key : InventoryKey;
  inv_ref_name : string;
  present_at : Z;
  verified_at : option Z;
  size_bytes : option N;
}.

(** The columns of the row the driver reads or writes. *)
Record HostRow := mkHostRow {
  state : HostState;
  row_caps : option HostCaps;
  row_arch : option Arch;
  install_consent : option bool;
  heartbeat : option Z;
  active_step : option string;
  last_probe : option Z;
  last_used : option Z;
  updated_at : Z;
}.

Record HostDb := mkHostDb {
  row : option HostRow;
  inventory : list InventoryEntry;
  events : list (Z * string * string);
}.

Definition update_row (f : HostRow -> HostRow) (db : HostDb) : HostDb :=
  mkHostDb (f <$> row db) (inventory db) (events db).

(** [host_checkpoint]: an upsert; capabilities are kept when none are given.
    A state without a tag is refused. *)
Definition host_checkpoint (st : HostState) (h : option HostCaps) (now : Z) (db : HostDb) : HostDb :=
  match durable_tag st with
  | None => db
  | Some _ =>
      let r := match row db with
               | None => mkHostRow st h (arch <$> h) None None None None None now
               | Some r =>
                   mkHostRow st (match h with Some _ => h | None => row_caps r end)
                     (match h with Some h => Some (arch h) | None => row_arch r end)
                     (install_consent r) (heartbeat r) (active_step r) (last_probe r) (last_used r) now
               end in
      mkHostDb (Some r) (inventory db) (events db)
  end.

Definition host_heartbeat (step : string) (now : Z) : HostDb -> HostDb :=
  update_row (fun r => mkHostRow (state r) (row_caps r) (row_arch r) (install_consent r) (Some now)
    (Some step) (last_probe r) (last_used r) now).

Definition host_heartbeat_clear : HostDb -> HostDb :=
  update_row (fun r => mkHostRow (state r) (row_caps r) (row_arch r) (install_consent r) None
    None (last_probe r) (last_used r) (updated_at r)).

Definition host_touch_probe (now : Z) : HostDb -> HostDb :=
  update_row (fun r => mkHostRow (state r) (row_caps r) (row_arch r) (install_consent r) (heartbeat r)
    (active_step r) (Some now) (last_used r) now).

Definition host_touch_used (now : Z) : HostDb -> HostDb :=
  update_row (fun r => mkHostRow (state r) (row_caps r) (row_arch r) (install_consent r) (heartbeat r)
    (active_step r) (last_probe r) (Some now) (updated_at r)).

Definition host_set_consent (granted : bool) (now : Z) : HostDb -> HostDb :=
  update_row (fun r => mkHostRow (state r) (row_caps r) (row_arch r) (Some granted) (heartbeat r)
    (active_step r) (last_probe r) (last_used r) now).

Definition host_inventory_put (e : InventoryEntry) (db : HostDb) : HostDb :=
  mkHostDb (row db)
    (List.filter (fun x => negb (bool_decide (key x = key e))) (inventory db) ++ [e]) (events db).

Definition host_inventory_verify (k : InventoryKey) (now : Z) (db : HostDb) : HostDb :=
  mkHostDb (row db)
    ((fun x => if bool_decide (key x = k)
               then mkInventoryEntry (key x) (inv_ref_name x) (present_at x) (Some now) (size_bytes x)
               else x) <$> inventory db) (events db).

Definition host_event (step detail : string) (now : Z) (db : HostDb) : HostDb :=
  mkHostDb (row db) (inventory db) (events db ++ [(now, step, detail)]).

(** ** The binding and the runner *)

Inductive Reach := RLocal | RSsh (host : string) (port : N) | RIroh | RCloud.

Record HostBinding := mkHostBinding {
  id : HostId;
  reach : Reach;
  b_consent : InstallConsent;
  image : ImageRef;
  volumes : list VolumeSpec;
  b_delivery_prefs : list DeliveryCap;
  probe_ttl_secs : Z;
}.

Inductive ConsentPolicy := Interactive | BackgroundSkip | Headless (assume_yes : bool).

Class HostRunner (R : Type) := {
  connect : R -> result ClassifiedErr unit * R;
  probe : R -> result ClassifiedErr HostCaps * R;
  install_runtime : RuntimeKind -> R -> result ClassifiedErr RuntimeInfo * R;
  resolve_image : ImageRef -> R -> result ClassifiedErr ResolvedImage * R;
  image_present : ImageRef -> Digest -> R -> result ClassifiedErr bool * R;
  deliver : DeliveryStrategy -> ImageRef -> Digest -> R -> result ClassifiedErr Digest * R;
  seed_volume : VolumeSpec -> ImageRef -> Digest -> R -> result ClassifiedErr unit * R;
  (** The monotonic clock in nanoseconds, sleeping, and the wall clock in
      seconds. *)
  instant : R -> N;
  sleep : N -> R -> R;
  unix_now : R -> Z;
}.

Record ReadyHostSpec := mkReadyHostSpec {
  rh_image : string;
  oci_url : option string;
  rh_volumes : list (string * string);
}.

Inductive HostOutcome := OReady (spec : ReadyHostSpec) | ODeferred.

(** The result of a drive: [Attach] is the case in which another process is
    already driving; [OutOfFuel] is excluded by [drive_settles]. *)
Inductive DriveResult :=
| Attach
| Finished (r : result HostFailure HostOutcome)
| OutOfFuel.

Definition HEARTBEAT_FRESH_SECS : Z := 60.

Inductive DriveFlow := FEvent (ev : HostEvent) | FDeferred.

(** ** The driver *)

Section Driver.
Context {R : Type} `{HostRunner R}.
Variable debug_pair : HostState -> HostEvent -> string.
(** The wording of a progress note: step, attempt, delay and error. *)
Variable note_text : string -> N -> N -> string -> string.
(** The order in which the database returns the inventory. *)
Variable inventory_query : list InventoryEntry -> list InventoryEntry.
(** The policy of the [[remote]] configuration. *)
Variable control_plane : ReconnectPolicy.
Variable binding : HostBinding.
Variable policy : ConsentPolicy.
(** Whether there is a UI to ask, and what it answers in time. *)
Variable ui : bool.
Variable user_answer : option bool.
Variable local_caps : LocalCaps.

Record World := mkWorld { runner : R; db : HostDb }.

Definition on_db (f : HostDb -> HostDb) (w : World) : World := mkWorld (runner w) (f (db w)).
Definition clock (w : World) : Z := unix_now (runner w).
Definition beat (step : string) (w : World) : World := on_db (host_heartbeat step (clock w)) w.

Definition lift {A} (op : R -> result ClassifiedErr A * R) (w : World)
    : result ClassifiedErr A * World :=
  let '(r, x) := op (runner w) in (r, mkWorld x (db w)).

Definition retrying {A} (b : StepBudget) (note : N -> N -> string -> World -> World)
    (op : R -> result ClassifiedErr A * R) : World -> result ClassifiedErr A * World :=
  with_retry (fun w => instant (runner w)) (fun d w => mkWorld (sleep d (runner w)) (db w))
    note (fun w => w) (lift op) b.

Definition secs (n : N) : N := (n * 1000000000)%N.
Definition transfer_policy : ReconnectPolicy := mkReconnectPolicy 2 2000 10000.

Definition record_image (c : MachineCtx) (d : Digest) (verified_now : bool) (w : World) : World :=
  match caps c with
  | None => w
  | Some h =>
      let now := clock w in
      let k := mkInventoryKey (id binding) AImage d (arch h) in
      let w := on_db (host_inventory_put (mkInventoryEntry k (name_tag (image binding)) now
                 (if verified_now then Some now else None) None)) w in
      if verified_now then on_db (host_inventory_verify k now) w else w
  end.

Definition record_volume (c : MachineCtx) (name : string) (d : Digest) (w : World) : World :=
  match caps c with
  | None => w
  | Some h =>
      on_db (host_inventory_put (mkInventoryEntry (mkInventoryKey (id binding) AVolume d (arch h))
        name (clock w) None None)) w
  end.

Definition consent_answer (w : World) : option bool :=
  if bool_decide (b_consent binding = CNever) then Some false
  else match row (db w) ≫= install_consent with
       | Some granted => Some granted
       | None =>
           match policy with
           | Headless assume_yes => Some assume_yes
           | BackgroundSkip => None
           | Interactive => if ui then Some (default false user_answer) else Some false
           end
       end.

(** The digest a volume seed is keyed by; the zero digest is the code's
    fallback for a context without one. *)
Definition zero_digest : Digest :=
  mkDigest (SHA_PREFIX ++ "0000000000000000000000000000000000000000000000000000000000000000")%string.

Definition run_effect (c : MachineCtx) (e : HostEffect) (w : World) : option DriveFlow * World :=
  match e with
  | EConnect =>
      let w := beat "connect" w in
      let '(r, w) := retrying (mkStepBudget control_plane (secs 120)) (fun _ _ _ => beat "connect")
                       connect w in
      (Some (FEvent match r with Ok _ => Connected | Err e => ConnectFailed (msg e) end), w)
  | EProbe =>
      let w := beat "probe" w in
      let '(r, w) := retrying (mkStepBudget probe_policy (secs 180)) (fun _ _ _ => beat "probe") probe w in
      match r with
      | Ok h => (Some (FEvent (Probed h)), on_db (host_touch_probe (clock w)) w)
      | Err e => (Some (FEvent (ProbeFailed (msg e))), w)
      end
  | EAskConsent _ =>
      match consent_answer w with
      | Some true => (Some (FEvent ConsentGranted), on_db (host_set_consent true (clock w)) w)
      | Some false => (Some (FEvent ConsentDenied), on_db (host_set_consent false (clock w)) w)
      | None => (Some FDeferred, w)
      end
  | EInstall rt =>
      let w := beat "install" w in
      let '(r, w) := lift (install_runtime rt) w in
      (Some (FEvent match r with Ok i => Installed i | Err e => InstallFailed (msg e) end), w)
  | EResolveImage ref =>
      let w := beat "resolve_image" w in
      let '(r, w) := retrying (mkStepBudget probe_policy (secs 120)) (fun _ _ _ => beat "resolve_image")
                       (resolve_image ref) w in
      (Some (FEvent match r with Ok i => ImageResolved i | Err e => ResolveFailed (msg e) end), w)
  | ECheckImage d =>
      let w := beat "verify" w in
      let '(r, w) := retrying (mkStepBudget probe_policy (secs 120)) (fun _ _ _ => beat "verify")
                       (image_present (image binding) d) w in
      match r with
      | Ok true => (Some (FEvent ImagePresent), record_image c d true w)
      | Ok false => (Some (FEvent ImageAbsent), w)
      | Err e => (Some (FEvent (ResolveFailed (msg e))), w)
      end
  | EDeliver s d =>
      let w := beat "deliver" w in
      let '(r, w) := retrying (mkStepBudget transfer_policy (secs 3600))
                       (fun a ms m w => on_db (host_event (step_str SDeliver)
                          (note_text "deliver" a ms m) (clock w)) w)
                       (deliver s (image binding) d) w in
      match r with
      | Ok verified =>
          let w := record_image c verified false w in
          (Some (FEvent (Delivered verified)),
           on_db (host_event (step_str SDeliver)
             ("delivered " ++ short verified ++ " via " ++ strategy_str s) (clock w)) w)
      | Err e => (Some (FEvent (DeliverFailed (msg e))), w)
      end
  | ESeedVolume spec =>
      let w := beat "seed_volume" w in
      let d := default zero_digest (wanted_digest c) in
      let '(r, w) := retrying (mkStepBudget transfer_policy (secs 3600)) (fun _ _ _ => beat "seed_volume")
                       (seed_volume spec (image binding) d) w in
      match r with
      | Ok _ => (Some (FEvent (VolumeSeeded (vol_name spec))), record_volume c (vol_name spec) d w)
      | Err e => (Some (FEvent (VolumeSeedFailed (vol_name spec) (msg e))), w)
      end
  | ECheckpoint st =>
      let w := on_db (host_checkpoint st (caps c) (clock w)) w in
      (None, match st with Ready | Failed _ => on_db host_heartbeat_clear w | _ => w end)
  | EEmit st detail => (None, on_db (host_event (step_str st) detail (clock w)) w)
  end.

(** One pass over the pending effects: the first event, or the deferral
    ([Err tt]); after an event only bookkeeping still runs. *)
Fixpoint run_pending (c : MachineCtx) (ev : option HostEvent) (es : list HostEffect) (w : World)
    : result unit (option HostEvent) * World :=
  match es with
  | [] => (Ok ev, w)
  | e :: es =>
      match ev with
      | Some _ =>
          if is_action e then run_pending c ev es w
          else let '(_, w) := run_effect c e w in run_pending c ev es w
      | None =>
          match run_effect c e w with
          | (None, w) => run_pending c None es w
          | (Some (FEvent ev), w) => run_pending c (Some ev) es w
          | (Some FDeferred, w) => (Err tt, w)
          end
      end
  end.

(** [for effect in pending.drain(..) { let _ = run_effect(..); }]. *)
Definition drain (c : MachineCtx) (es : list HostEffect) (w : World) : World :=
  fold_left (fun w e => snd (run_effect c e w)) es w.

Definition oci_url_for (h : option HostCaps) : option string :=
  match reach binding with
  | RSsh host port =>
      h ← h; rt ← runtime h; socket ← rt_socket rt;
      Some ("ssh://" ++ host ++ ":" ++ fmt_N port ++ socket)%string
  | _ => None
  end.

(** [iter.max_by_key(f)]: the last of the greatest. *)
Definition max_by_key {A} (f : A -> Z) (l : list A) : option A :=
  fold_left (fun best x => match best with
                           | Some b => if (f x <? f b)%Z then best else Some x
                           | None => Some x
                           end) l None.

Definition spec_from_inventory (d : HostDb) : option ReadyHostSpec :=
  r ← row d;
  a ← (match row_caps r with Some h => Some (arch h) | None => row_arch r end);
  i ← max_by_key present_at
        (List.filter (fun e => bool_decide (k_kind (key e) = AImage) && bool_decide (k_arch (key e) = a))
           (inventory_query (inventory d)));
  Some (mkReadyHostSpec (managed_tag (k_digest (key i))) (oci_url_for (row_caps r))
          ((fun v => (vol_name v, dest v)) <$> volumes binding)).

Definition no_image (msg : string) : HostFailure := mkHostFailure SVerify msg true.

Definition settled : HostFailure :=
  mkHostFailure SConnect "host machine settled without reaching Ready (driver bug)" true.

Fixpoint drive_loop (fuel : nat) (s : HostState) (c : MachineCtx) (pending : list HostEffect) (w : World)
    : DriveResult * World :=
  match fuel with
  | O => (OutOfFuel, w)
  | S fuel =>
      match run_pending c None pending w with
      | (Err _, w) => (Finished (Ok ODeferred), on_db host_heartbeat_clear w)
      | (Ok None, w) => (Finished (Err settled), w)
      | (Ok (Some ev), w) =>
          let '(c, t) := step debug_pair s c ev in
          match next t with
          | Ready =>
              let w := drain c (effects t) w in
              let w := on_db (host_touch_used (clock w)) w in
              (Finished match spec_from_inventory (db w) with
                        | Some spec => Ok (OReady spec)
                        | None => Err (no_image "provisioned but no image recorded (driver bug)")
                        end, w)
          | Failed f => (Finished (Err f), drain c (effects t) w)
          | s => drive_loop fuel s c (effects t) w
          end
      end
  end.

Definition driving_elsewhere (w : World) : bool :=
  match row (db w) ≫= heartbeat with
  | Some hb => (i64_sat_sub (clock w) hb <? HEARTBEAT_FRESH_SECS)%Z
  | None => false
  end.

(** [drive], with the runner made from the binding's reach as an argument. *)
Definition drive (fuel : nat) (made : result string unit) (w : World) : DriveResult * World :=
  if driving_elsewhere w then (Attach, w)
  else match made with
       | Err e => (Finished (Err (mkHostFailure SConnect e false)), w)
       | Ok _ =>
           let c := new_ctx (b_consent binding) local_caps (image binding) (volumes binding)
                      (b_delivery_prefs binding) in
           let persisted := default Unknown (state <$> row (db w)) in
           let w := match row (db w) with
                    | None => on_db (host_checkpoint Unknown None (clock w)) w
                    | Some _ => w
                    end in
           let '(s, pending) := resume persisted (row (db w) ≫= last_probe) (clock w)
                                  (probe_ttl_secs binding) in
           match s, pending with
           | Ready, [] =>
               (Finished match spec_from_inventory (db w) with
                         | Some spec => Ok (OReady spec)
                         | None => Err (no_image "ready host has no recorded image (run rm-cache + provision)")
                         end, w)
           | _, _ => drive_loop fuel s c pending (beat "resume" w)
           end
       end.
End Driver.
