(* ===== verification/HostFlowProps.v ===== *)
(** * What a finished drive has established

    The driver of [HostFlow] against the laws of a [HostRunner]: it always
    settles, it installs nothing without consent, and a host it reports ready
    holds the verified image, every warm volume and a runtime. *)
From Stdlib Require Import Ascii String.
From S2P Require Import Prelude RustStr RustText Image Capacity Host HostMachine Retry HostFlow.
Local Open Scope string_scope.
Local Open Scope list_scope.

(** A property of the host that every operation but an installation keeps. *)
Record keeps {R} `{HostRunner R} (P : R -> Prop) : Prop := {
  keeps_connect r : P r -> P (connect r).2;
  keeps_probe r : P r -> P (probe r).2;
  keeps_resolve ref r : P r -> P (resolve_image ref r).2;
  keeps_present i d r : P r -> P (image_present i d r).2;
  keeps_deliver s i d r : P r -> P (deliver s i d r).2;
  keeps_seed v i d r : P r -> P (seed_volume v i d r).2;
  keeps_sleep d r : P r -> P (sleep d r);
}.

Definition keeps_install {R} `{HostRunner R} (P : R -> Prop) : Prop :=
  forall rt r, P r -> P (install_runtime rt r).2.

(** What the trait's documentation promises: a positive answer is true of the
    host when it is given, and images, volumes and runtimes stay. *)
Class HostRunnerLaws (R : Type) `{HostRunner R} := {
  on_host : R -> Digest -> Prop;
  seeded : R -> string -> Prop;
  has_runtime : R -> Prop;
  on_host_kept d : keeps (fun r => on_host r d) /\ keeps_install (fun r => on_host r d);
  seeded_kept v : keeps (fun r => seeded r v) /\ keeps_install (fun r => seeded r v);
  runtime_kept : keeps has_runtime /\ keeps_install has_runtime;
  present_sound i d r r' : image_present i d r = (Ok true, r') -> on_host r' d;
  deliver_sound s i d r d' r' : deliver s i d r = (Ok d', r') -> on_host r' d';
  seed_sound v i d r r' : seed_volume v i d r = (Ok tt, r') -> seeded r' (vol_name v);
  probe_sound r h r' : probe r = (Ok h, r') -> runtime h <> None -> has_runtime r';
  install_sound rt r i r' : install_runtime rt r = (Ok i, r') -> has_runtime r';
}.

(** ** Effects, one at a time *)

Section Effects.
Context {R : Type} `{HostRunner R}.
Variable note_text : string -> N -> N -> string -> string.
Variable control_plane : ReconnectPolicy.
Variable binding : HostBinding.
Variable policy : ConsentPolicy.
Variable ui : bool.
Variable user_answer : option bool.
Local Abbreviation run := (run_effect note_text control_plane binding policy ui user_answer).
Local Abbreviation World := (@World R).

(** The retry loop keeps what its operation, its pauses and its notes keep. *)
Lemma retrying_inv {A} (P : World -> Prop) (Q : A -> R -> Prop) b note
    (op : R -> result ClassifiedErr A * R) w r w' :
  (forall w, P w -> P (mkWorld (op (runner w)).2 (db w))) ->
  (forall x v x', op x = (Ok v, x') -> Q v x') ->
  (forall d w, P w -> P (mkWorld (sleep d (runner w)) (db w))) ->
  (forall a ms m w, P w -> P (note a ms m w)) ->
  P w -> retrying b note op w = (r, w') ->
  P w' /\ match r with Ok v => Q v (runner w') | Err _ => True end.
Proof.
  intros Hop HQ Hs Hn HP Hr.
  eapply (with_retry_inv _ _ _ _ _ P (fun v w => Q v (runner w))) in Hr; eauto.
  - intros s Hs'. specialize (Hop s Hs'). unfold lift. by destruct (op (runner s)).
  - intros s v s' _. unfold lift. destruct (op (runner s)) as [x y] eqn:E. intros [= -> <-]. eauto.
Qed.

(** The host, the inventory and the recorded consent, which bookkeeping leaves
    alone. *)
Definition same_store (w w' : World) : Prop :=
  runner w' = runner w /\ inventory (db w') = inventory (db w) /\
  (row (db w') ≫= install_consent) = (row (db w) ≫= install_consent).

Lemma bookkeeping c e w :
  is_action e = false -> exists w', run c e w = (None, w') /\ same_store w w'.
Proof.
  destruct e; try done; intros _; simpl; eexists; (split; [reflexivity|]); [|done].
  unfold host_checkpoint, same_store. destruct (durable_tag st), st, (row (db w)) eqn:E; simpl; rewrite ?E; done.
Qed.

Lemma same_store_trans w1 w2 w3 : same_store w1 w2 -> same_store w2 w3 -> same_store w1 w3.
Proof. unfold same_store. intuition congruence. Qed.

(** Apply a fact about the retry loop to the call in the goal. *)
Ltac retried Hret K HP Hw :=
  match goal with |- context [retrying ?b ?n ?op ?w] =>
    pose proof (Hret _ b n op w K ltac:(done) HP) as Hw;
    destruct (retrying b n op w) as [r w']; simpl in Hw
  end.

(** A property of hosts that the operations keep is kept by an effect. *)
Lemma run_keeps (P : R -> Prop) c e (w : World) :
  keeps P -> ((exists rt, e = EInstall rt) -> keeps_install P) -> P (runner w) ->
  P (runner (run c e w).2).
Proof.
  intros HK HI HP.
  assert (forall {A} b note (op : R -> result ClassifiedErr A * R) w,
    (forall x, P x -> P (op x).2) -> (forall a ms m w, runner (note a ms m w) = runner w) ->
    P (runner w) -> P (runner (retrying b note op w).2)) as Hret.
  { intros A b note op w0 Hop Hn Hw. destruct (retrying b note op w0) as [r w1] eqn:E.
    eapply (retrying_inv (fun w => P (runner w)) (fun _ _ => True)) in E; eauto.
    - by destruct E.
    - intros d w2. simpl. apply (keeps_sleep _ HK).
    - intros a ms m w2. by rewrite Hn. }
  destruct e; simpl.
  - retried Hret (keeps_connect _ HK) HP Hw. done.
  - retried Hret (keeps_probe _ HK) HP Hw. destruct r; done.
  - by destruct (consent_answer _ _ _ _ _) as [ []|].
  - unfold lift. specialize (HI ltac:(eauto) rt (runner w) HP). simpl.
    by destruct (install_runtime rt (runner w)).
  - retried Hret (keeps_resolve _ HK ref) HP Hw. done.
  - retried Hret (keeps_present _ HK (image binding) d) HP Hw. destruct r as [ []|]; try done.
    unfold record_image. destruct (caps c); done.
  - retried Hret (keeps_deliver _ HK strategy (image binding) d) HP Hw. destruct r; try done.
    simpl. unfold record_image. destruct (caps c); done.
  - retried Hret (keeps_seed _ HK spec (image binding) (default zero_digest (wanted_digest c))) HP Hw.
    destruct r; try done. simpl. unfold record_volume. destruct (caps c); done.
  - unfold host_checkpoint. by destruct (durable_tag st); destruct st.
  - done.
Qed.

(** Recording an image leaves exactly one entry under its key, dated now. *)
Lemma record_image_inventory c h d b (w : World) :
  caps c = Some h ->
  exists x, key x = mkInventoryKey (id binding) AImage d (arch h) /\ present_at x = clock w /\
    runner (record_image binding c d b w) = runner w /\
    inventory (db (record_image binding c d b w)) =
      List.filter (fun y => negb (bool_decide (key y = key x))) (inventory (db w)) ++ [x].
Proof.
  intros Hh. unfold record_image. rewrite Hh. destruct b; simpl.
  - eexists (mkInventoryEntry _ _ _ (Some _) None). split; [reflexivity|]. split; [reflexivity|].
    split; [done|]. simpl. rewrite fmap_app. simpl. rewrite bool_decide_eq_true_2 by done. f_equal.
    induction (inventory (db w)) as [|y l IH]; simpl; [done|].
    destruct (decide (key y = mkInventoryKey (id binding) AImage d (arch h))) as [E|E].
    + rewrite (bool_decide_eq_true_2 _ E). simpl. exact IH.
    + rewrite (bool_decide_eq_false_2 _ E). simpl. rewrite (bool_decide_eq_false_2 _ E). by f_equal.
  - eexists (mkInventoryEntry _ _ _ None None). by repeat split.
Qed.
End Effects.

Section Outcome.
Context {R : Type} `{HR : HostRunner R, !HostRunnerLaws R}.
Variable note_text : string -> N -> N -> string -> string.
Variable control_plane : ReconnectPolicy.
Variable binding : HostBinding.
Variable policy : ConsentPolicy.
Variable ui : bool.
Variable user_answer : option bool.
Local Abbreviation run := (run_effect note_text control_plane binding policy ui user_answer).
Local Abbreviation World := (@World R).

(** The inventory after recording an image seen at time [now]. *)
Definition recorded_at (c : MachineCtx) (d : Digest) (now : Z) (inv inv' : list InventoryEntry) : Prop :=
  forall h, caps c = Some h ->
  exists x, key x = mkInventoryKey (id binding) AImage d (arch h) /\ present_at x = now /\
    inv' = List.filter (fun y => negb (bool_decide (key y = key x))) inv ++ [x].

(** The images of the inventory are untouched. *)
Definition same_images (inv inv' : list InventoryEntry) : Prop :=
  forall x, k_kind (key x) = AImage -> x ∈ inv' <-> x ∈ inv.

(** What an event says about the host and the inventory. *)
Definition evidence (c : MachineCtx) (e : HostEffect) (ev : HostEvent) (inv : list InventoryEntry)
    (w : World) : Prop :=
  let inv' := inventory (db w) in
  match e, ev with
  | EProbe, Probed h => (runtime h <> None -> has_runtime (runner w)) /\ inv' = inv
  | EInstall _, Installed _ => has_runtime (runner w) /\ inv' = inv
  | ECheckImage d, ImagePresent => on_host (runner w) d /\ recorded_at c d (clock w) inv inv'
  | EDeliver _ _, Delivered d => on_host (runner w) d /\ recorded_at c d (clock w) inv inv'
  | ESeedVolume v, VolumeSeeded _ => seeded (runner w) (vol_name v) /\ same_images inv inv'
  | _, _ => inv' = inv
  end.

Lemma record_image_runner c d b (w : World) : runner (record_image binding c d b w) = runner w.
Proof. unfold record_image. by destruct (caps c), b. Qed.

Lemma record_image_at c d b (w : World) :
  recorded_at c d (clock w) (inventory (db w)) (inventory (db (record_image binding c d b w))).
Proof. intros h (x & Hk & Hp & _ & Hi)%(record_image_inventory binding c h d b w). by exists x. Qed.

Lemma record_volume_images c v d (w : World) :
  same_images (inventory (db w)) (inventory (db (record_volume binding c v d w))) /\
  runner (record_volume binding c v d w) = runner w.
Proof.
  unfold record_volume. destruct (caps c) as [h|]; [|done]. split; [|done]. intros x Hx. simpl.
  rewrite elem_of_app, list_elem_of_singleton, !list_elem_of_In, List.filter_In. split.
  - intros [ [? _]| ->]; [done|]. by simpl in Hx.
  - intros Hin. left. split; [done|]. apply negb_true_iff, bool_decide_eq_false. intros E. by rewrite E in Hx.
Qed.

Ltac after_retry Hret Q E Hq :=
  match goal with |- context [retrying ?b ?n ?op ?w0] =>
    destruct (retrying b n op w0) as [r w1] eqn:E; eapply (Hret _ b n op Q) in E as [E Hq]
  end.

Lemma run_action c e (w w' : World) flow :
  run c e w = (Some flow, w') ->
  match flow with
  | FEvent ev => answers e ev /\ evidence c e ev (inventory (db w)) w'
  | FDeferred => exists rt, e = EAskConsent rt
  end.
Proof.
  set (inv := inventory (db w)).
  assert (forall {A} b note (op : R -> result ClassifiedErr A * R) (Q : A -> R -> Prop) w0 r w1,
    (forall x v x', op x = (Ok v, x') -> Q v x') ->
    (forall a ms m w, inventory (db (note a ms m w)) = inventory (db w)) ->
    inventory (db w0) = inv -> retrying b note op w0 = (r, w1) ->
    inventory (db w1) = inv /\ match r with Ok v => Q v (runner w1) | Err _ => True end) as Hret.
  { intros A b note op Q w0 r w1 HQ Hn Hw0 Hr.
    eapply (retrying_inv (fun w => inventory (db w) = inv) Q) in Hr; eauto.
    intros a ms m w2. by rewrite Hn. }
  destruct e; cbn [run_effect]; try done.
  - after_retry Hret (fun (_ : unit) (_ : R) => True) E Hq; [|done..]. intros [= <- <-]. simpl. destruct r; eauto with host.
  - after_retry Hret (fun h x => runtime h <> None -> has_runtime x) E Hq; [|by eauto using probe_sound|done..].
    destruct r as [h|e]; intros [= <- <-]; simpl; eauto with host.
  - destruct (consent_answer _ _ _ _ _) as [ []|]; intros [= <- <-]; simpl; eauto with host.
  - unfold lift. destruct (install_runtime rt _) as [r x] eqn:E. intros [= <- <-]. destruct r as [i|e]; simpl.
    + split; [constructor|]. split; [by eapply install_sound|done].
    + split; [constructor|done].
  - after_retry Hret (fun (_ : ResolvedImage) (_ : R) => True) E Hq; [|done..]. intros [= <- <-]. simpl. destruct r; eauto with host.
  - after_retry Hret (fun b x => b = true -> on_host x d) E Hq; [|intros x v x' ? ->; by eapply present_sound|done..].
    destruct r as [ []|e]; intros [= <- <-]; simpl; eauto with host. split; [constructor|].
    rewrite record_image_runner. split; [by apply Hq|]. rewrite <- E.
    unfold clock. rewrite record_image_runner. apply record_image_at.
  - after_retry Hret (fun v x => on_host x v) E Hq; [|by eauto using deliver_sound|done..].
    destruct r as [v|e]; intros [= <- <-]; simpl; eauto with host. split; [constructor|].
    rewrite record_image_runner. split; [done|]. rewrite <- E. unfold clock. simpl.
    rewrite record_image_runner. apply record_image_at.
  - after_retry Hret (fun (_ : unit) x => seeded x (vol_name spec)) E Hq;
      [|intros x [] x'; apply seed_sound|done..].
    destruct r as [ []|e]; intros [= <- <-]; simpl; eauto with host. split; [constructor|].
    destruct (record_volume_images c (vol_name spec) (default zero_digest (wanted_digest c)) w1) as [Hi ->].
    by rewrite E in Hi.
Qed.
End Outcome.

(** ** The invariant of the loop *)

Section Invariant.
Context {R : Type} `{HR : HostRunner R, HL : !HostRunnerLaws R}.
Variable debug_pair : HostState -> HostEvent -> string.
Variable note_text : string -> N -> N -> string -> string.
Variable control_plane : ReconnectPolicy.
Variable binding : HostBinding.
Variable policy : ConsentPolicy.
Variable ui : bool.
Variable user_answer : option bool.
(** A time before which every image of the inventory was recorded. *)
Variable t0 : Z.
Local Abbreviation run := (run_effect note_text control_plane binding policy ui user_answer).
Local Abbreviation World := (@World R).

Definition older (inv : list InventoryEntry) : Prop :=
  forall x, x ∈ inv -> k_kind (key x) = AImage -> (present_at x < t0)%Z.

(** The wanted image is the newest recorded for its architecture. *)
Definition newest (c : MachineCtx) (inv : list InventoryEntry) : Prop :=
  exists h d x, caps c = Some h /\ wanted_digest c = Some d /\ x ∈ inv /\
    key x = mkInventoryKey (id binding) AImage d (arch h) /\
    forall y, y ∈ inv -> k_kind (key y) = AImage -> key y <> key x -> (present_at y < present_at x)%Z.

Definition provisioned (c : MachineCtx) (remaining : list VolumeSpec) (r : R) : Prop :=
  has_runtime r /\ (exists d, wanted_digest c = Some d /\ on_host r d) /\
  forall v, v ∈ wanted_volumes c -> v ∈ remaining \/ seeded r (vol_name v).

Definition established (s : HostState) (c : MachineCtx) (w : World) : Prop :=
  match s with
  | VolumeSeeding remaining => provisioned c remaining (runner w) /\ newest c (inventory (db w))
  | Ready => provisioned c [] (runner w) /\ newest c (inventory (db w))
  | ImageResolving | Delivering _ => has_runtime (runner w) /\ older (inventory (db w))
  | Failed _ => True
  | _ => older (inventory (db w))
  end.

Lemma established_same s c w w' : same_store w w' -> established s c w -> established s c w'.
Proof. intros (H1 & H2 & _). unfold established. by rewrite H1, H2. Qed.

Lemma recorded_newest c h d now inv inv' :
  caps c = Some h -> wanted_digest c = Some d -> (t0 <= now)%Z -> older inv ->
  recorded_at binding c d now inv inv' -> newest c inv'.
Proof.
  intros Hh Hd Hn Ho Hr. destruct (Hr h Hh) as (x & Hk & Hp & ->).
  exists h, d, x. split_and!; try done; [set_solver|]. intros y.
  rewrite elem_of_app, list_elem_of_singleton, list_elem_of_In, List.filter_In.
  intros [ [Hy _]| ->] Hi Hne; [|done]. apply list_elem_of_In in Hy. specialize (Ho y Hy Hi). lia.
Qed.

Lemma same_images_newest c inv inv' : same_images inv inv' -> newest c inv -> newest c inv'.
Proof.
  intros Hs (h & d & x & Hh & Hd & Hx & Hk & Hm). exists h, d, x. split_and!; try done.
  - apply Hs; [by rewrite Hk|done].
  - intros y Hy Hi. apply Hm; [|done]. by apply (Hs y Hi).
Qed.

Lemma enter_volumes_established c m r inv w :
  has_runtime (runner w) -> (exists d, wanted_digest c = Some d /\ on_host (runner w) d) ->
  newest c (inventory (db w)) -> inv = inventory (db w) -> r = runner w ->
  established (next (prepend m (enter_volumes c))) c w.
Proof.
  intros Hrt Hd Hn -> ->. unfold enter_volumes. simpl.
  destruct (wanted_volumes c) as [|v vs] eqn:E; simpl; (split; [|done]); (split; [done|split; [done|]]);
    rewrite E; [|auto]. by intros v ?%not_elem_of_nil.
Qed.

Lemma wanted_caps c d : wanted_digest c = Some d -> exists h, caps c = Some h.
Proof. unfold wanted_digest. destruct (caps c); [eauto|done]. Qed.

(** An answered effect establishes what the next state stands for. *)
Lemma answer_establishes s c e ev w w' :
  waiting c s e -> answers e ev -> evidence binding c e ev (inventory (db w)) w' ->
  established s c w -> (forall d, on_host (runner w) d -> on_host (runner w') d) ->
  (forall v, seeded (runner w) v -> seeded (runner w') v) ->
  (has_runtime (runner w) -> has_runtime (runner w')) -> (t0 <= clock w')%Z ->
  let '(c', t) := step debug_pair s c ev in established (next t) c' w'.
Proof.
  intros [Ha Hr] Hev He Hs Hoh Hse Hrt Ht.
  destruct Ha as [| |rt h Hh Hc|rt h Hh Hc|h Hh Hn|d Hd|s d Hd Hin|v rest d Hd];
    inversion Hev; subst; clear Hev; cbn [step]; simpl in He, Hs; try done;
    try (unfold established; simpl; by rewrite He).
  - destruct He as [Hrn Hi]. unfold on_probed. destruct (runtime h) eqn:E; simpl.
    + rewrite Hi. split; [by apply Hrn|done].
    + destruct (consent c), (can_install_runtime h); simpl; try done; by rewrite Hi.
  - destruct He as [Hrn Hi]. simpl. by rewrite Hi.
  - unfold on_resolved. destruct (wanted_digest (set_resolved c r)); simpl; [|done].
    rewrite He. destruct Hs. auto.
  - destruct He as [Ho Hrec], Hs as [Hs1 Hs2]. destruct (wanted_caps c d Hd) as [h Hh].
    eapply enter_volumes_established; eauto. by eapply recorded_newest.
  - destruct Hs as [Hs1 Hs2]. unfold on_absent. rewrite Hd. destruct (strategies c); simpl; [done|].
    rewrite He. auto.
  - destruct He as [Ho Hrec], Hs as [Hs1 Hs2]. destruct (wanted_caps c d Hd) as [h Hh].
    unfold on_delivered. rewrite Hd. case_bool_decide as E; [|done]. subst d'.
    eapply enter_volumes_established; eauto. by eapply recorded_newest.
  - destruct Hs as [Hs1 Hs2]. unfold on_deliver_failed. destruct (next_strategy c s); [|done].
    rewrite Hd. simpl. rewrite He. auto.
  - destruct He as [Hv Hi], Hs as [(Hrn & (d' & Hd' & Ho) & Hvol) Hne].
    assert (provisioned c (List.filter (fun w => negb (String.eqb (vol_name w) (vol_name v))) (v :: rest))
      (runner w')) as Hp.
    { split; [auto|]. split; [eauto|]. intros u [Hu|Hu]%Hvol; [|auto].
      destruct (String.eqb_spec (vol_name u) (vol_name v)) as [E|E]; [right; by rewrite E|].
      left. apply list_elem_of_In, List.filter_In. split; [by apply list_elem_of_In|].
      apply negb_true_iff. by apply String.eqb_neq. }
    apply (same_images_newest _ _ _ Hi) in Hne. unfold on_seeded.
    destruct (List.filter _ (v :: rest)) as [|u us] eqn:E; simpl; done.
Qed.

(** ** One pass over the pending effects *)

Local Abbreviation pending_pass := (run_pending note_text control_plane binding policy ui user_answer).

Lemma pass_answered c ev es w :
  exists w', pending_pass c (Some ev) es w = (Ok (Some ev), w') /\ same_store w w'.
Proof.
  revert w. induction es as [|e es IH]; intros w; cbn [run_pending]; [by eexists|].
  destruct (is_action e) eqn:E; [apply IH|].
  destruct (bookkeeping note_text control_plane binding policy ui user_answer c e w E) as (w1 & -> & H1).
  destruct (IH w1) as (w2 & -> & H2). exists w2. split; [done|]. by eapply same_store_trans.
Qed.

Lemma pass_quiet c es w :
  actions es = [] -> exists w', pending_pass c None es w = (Ok None, w') /\ same_store w w'.
Proof.
  unfold actions. revert w. induction es as [|e es IH]; intros w; simpl; [by eexists|].
  destruct (is_action e) eqn:E; [done|]. intros Hes.
  destruct (bookkeeping note_text control_plane binding policy ui user_answer c e w E) as (w1 & -> & H1).
  destruct (IH w1 Hes) as (w2 & -> & H2). exists w2. split; [done|]. by eapply same_store_trans.
Qed.

Lemma run_some c e w : is_action e = true -> exists flow w', run c e w = (Some flow, w').
Proof.
  destruct e; try done; intros _; cbn [run_effect]; repeat case_match; eauto.
Qed.

(** With one action pending, the pass runs it between bookkeeping. *)
Lemma pass_action c es e w :
  actions es = [e] -> exists w0 flow w1, same_store w w0 /\ run c e w0 = (Some flow, w1) /\
    match flow with
    | FDeferred => pending_pass c None es w = (Err tt, w1)
    | FEvent ev => exists w2, pending_pass c None es w = (Ok (Some ev), w2) /\ same_store w1 w2
    end.
Proof.
  unfold actions. revert w. induction es as [|x es IH]; intros w; simpl; [done|].
  destruct (is_action x) eqn:E.
  - intros [= -> Hes]. destruct (run_some c e w E) as (flow & w1 & Hr). exists w, flow, w1.
    split; [done|]. split; [done|]. rewrite Hr. destruct flow as [ev|]; [|done]. apply pass_answered.
  - intros Hes.
    destruct (bookkeeping note_text control_plane binding policy ui user_answer c x w E) as (w1 & -> & H1).
    destruct (IH w1 Hes) as (w0 & flow & w2 & H2 & Hr & Hf). exists w0, flow, w2.
    split; [by eapply same_store_trans|]. by split.
Qed.

Lemma drain_same c es w :
  actions es = [] -> same_store w (drain note_text control_plane binding policy ui user_answer c es w).
Proof.
  unfold actions, drain. revert w. induction es as [|e es IH]; intros w; simpl; [done|].
  destruct (is_action e) eqn:E; [done|]. intros Hes.
  destruct (bookkeeping note_text control_plane binding policy ui user_answer c e w E) as (w1 & -> & H1).
  simpl. eapply same_store_trans; [done|]. by apply IH.
Qed.

(** A transition to [Ready] ends in its checkpoint. *)
Lemma ready_effects c s e ev :
  waiting c s e -> answers e ev -> next (step debug_pair s c ev).2 = Ready ->
  exists pre, effects (step debug_pair s c ev).2 = pre ++ [ECheckpoint Ready; EEmit SVerify "ready"].
Proof.
  intros [Ha _] Hev. destruct Ha; inversion Hev; subst; clear Hev; cbn [step snd]; try done.
  - unfold on_probed. simpl. by repeat case_match.
  - unfold on_resolved. simpl. by repeat case_match.
  - unfold enter_volumes. destruct (wanted_volumes c); [|done]. intros _. by eexists [_; _].
  - unfold on_absent. by repeat case_match.
  - unfold on_delivered. rewrite H. case_bool_decide; [|done]. unfold enter_volumes.
    destruct (wanted_volumes c); [|done]. intros _. by eexists [_; _].
  - unfold on_deliver_failed. by repeat case_match.
  - unfold on_seeded. destruct (List.filter _ _); [|done]. intros _. by eexists [].
Qed.

Lemma drain_ready_row c pre w :
  let w' := drain note_text control_plane binding policy ui user_answer c
              (pre ++ [ECheckpoint Ready; EEmit SVerify "ready"]) w in
  exists r, row (db w') = Some r /\ (forall h, caps c = Some h -> row_caps r = Some h) /\ state r = Ready.
Proof.
  unfold drain. rewrite fold_left_app. simpl. set (w1 := fold_left _ pre w). clearbody w1.
  unfold host_checkpoint. simpl. destruct (row (db w1)) as [r|]; eexists; (split; [reflexivity|]); simpl;
    (split; [|done]); intros h ->; done.
Qed.
End Invariant.

(** ** The loop settles *)

Lemma max_by_key_max {A} (f : A -> Z) l best m :
  fold_left (fun best x => match best with
                           | Some b => if (f x <? f b)%Z then best else Some x
                           | None => Some x
                           end) l best = Some m ->
  (m ∈ l \/ best = Some m) /\ (forall y, y ∈ l \/ best = Some y -> (f y <= f m)%Z).
Proof.
  revert best. induction l as [|x l IH]; intros best; simpl.
  - intros ->. split; [by right|]. intros y [?%not_elem_of_nil| [= ->] ]; [done|lia].
  - intros Hm. apply IH in Hm as [Hin Hmax]. split.
    + destruct Hin as [Hin|Hb]; [left; by right|]. destruct best as [b|].
      * destruct (f x <? f b)%Z; [by right|]. injection Hb as ->. left; by left.
      * injection Hb as ->. left; by left.
    + intros y [ [->|Hy]%elem_of_cons| ->]; [|by apply Hmax; left|].
      * destruct best as [b|]; [|by apply Hmax; right]. destruct (Z.ltb_spec (f x) (f b)).
        { pose proof (Hmax b (or_intror eq_refl)). lia. } by apply Hmax; right.
      * destruct (Z.ltb_spec (f x) (f y)); [by apply Hmax; right|].
        pose proof (Hmax x (or_intror eq_refl)). lia.
Qed.

Lemma max_by_key_Some {A} (f : A -> Z) l x : x ∈ l -> exists m, max_by_key f l = Some m.
Proof.
  unfold max_by_key. destruct l as [|y l]; [by intros ?%not_elem_of_nil|]. intros _. simpl.
  generalize y as b. induction l as [|z l IH]; intros b; simpl; [by eexists|].
  destruct (f z <? f b)%Z; apply IH.
Qed.

Section Loop.
Context {R : Type} `{HR : HostRunner R, HL : !HostRunnerLaws R}.
Variable debug_pair : HostState -> HostEvent -> string.
Variable note_text : string -> N -> N -> string -> string.
Variable inventory_query : list InventoryEntry -> list InventoryEntry.
Variable control_plane : ReconnectPolicy.
Variable binding : HostBinding.
Variable policy : ConsentPolicy.
Variable ui : bool.
Variable user_answer : option bool.
Variable local_caps : LocalCaps.
Variable t0 : Z.
Local Abbreviation World := (@World R).
Local Abbreviation loop := (drive_loop debug_pair note_text inventory_query control_plane binding policy ui user_answer).

Hypothesis query_perm : forall l, inventory_query l ≡ₚ l.
Hypothesis clock_kept : keeps (fun r => (t0 <= unix_now r)%Z) /\ keeps_install (fun r => (t0 <= unix_now r)%Z).

(** What a drive that reports [spec] has established. *)
Definition delivered_host (spec : ReadyHostSpec) (w : World) : Prop :=
  (exists d, on_host (runner w) d /\ rh_image spec = managed_tag d) /\
  has_runtime (runner w) /\
  (forall v, v ∈ volumes binding -> seeded (runner w) (vol_name v)) /\
  rh_volumes spec = ((fun v => (vol_name v, dest v)) <$> volumes binding) /\
  (state <$> row (db w)) = Some Ready.

Lemma spec_newest c (w : World) r :
  row (db w) = Some r -> (forall h, caps c = Some h -> row_caps r = Some h) ->
  newest binding c (inventory (db w)) ->
  exists spec d, spec_from_inventory inventory_query binding (db w) = Some spec /\
    wanted_digest c = Some d /\ rh_image spec = managed_tag d /\
    rh_volumes spec = ((fun v => (vol_name v, dest v)) <$> volumes binding).
Proof.
  intros Hrow Hcaps (h & d & x & Hh & Hd & Hx & Hk & Hm). unfold spec_from_inventory. rewrite Hrow.
  simpl. rewrite (Hcaps h Hh). simpl.
  set (l := List.filter _ _).
  assert (forall y, y ∈ l <-> y ∈ inventory (db w) /\ k_kind (key y) = AImage /\ k_arch (key y) = arch h) as Hl.
  { intros y. subst l. rewrite list_elem_of_In, List.filter_In, <- list_elem_of_In, query_perm, andb_true_iff,
      !bool_decide_eq_true. done. }
  destruct (max_by_key_Some present_at l x) as [m Hmax]; [apply Hl; by rewrite Hk|].
  rewrite Hmax. simpl. eexists _, d. split; [reflexivity|]. split; [done|]. simpl. split; [|done].
  apply max_by_key_max in Hmax as [ [Hin|?] Hge]; [|done]. apply Hl in Hin as (Hin & Hkind & Harch).
  assert (x ∈ l) as Hxl by (apply Hl; by rewrite Hk).
  specialize (Hge x (or_introl Hxl)). destruct (decide (key m = key x)) as [E|E].
  - by rewrite E, Hk.
  - specialize (Hm m Hin Hkind E). lia.
Qed.

Lemma failed_effects c s e ev f :
  waiting c s e -> answers e ev -> next (step debug_pair s c ev).2 = Failed f ->
  effects (step debug_pair s c ev).2 = [ECheckpoint (Failed f)].
Proof.
  intros [Ha _] Hev. destruct Ha; inversion Hev; subst; clear Hev; cbn [step snd];
    unfold on_probed, on_resolved, on_absent, on_delivered, on_deliver_failed, on_seeded, enter_volumes,
      enter_image, prepend; simpl; repeat case_match; simpl; intros; simplify_eq; done.
Qed.

Lemma drain_failed_row c f (w : World) :
  (state <$> row (db (drain note_text control_plane binding policy ui user_answer c [ECheckpoint (Failed f)] w)))
    = Some (Failed f).
Proof. unfold drain. simpl. unfold host_checkpoint. simpl. by destruct (row (db w)). Qed.

(** A settled drive: ready, deferred, or failed with the failure it recorded. *)
Definition settled_well (res : DriveResult * World) : Prop :=
  match res with
  | (Finished (Ok (OReady spec)), w) => delivered_host spec w
  | (Finished (Ok ODeferred), _) => True
  | (Finished (Err f), w) => (state <$> row (db w)) = Some (Failed f)
  | _ => False
  end.

(** The last state change of a successful drive. *)
Lemma ready_settles c es (w : World) r :
  let w' := drain note_text control_plane binding policy ui user_answer c es w in
  same_store w w' -> row (db w') = Some r -> (forall h, caps c = Some h -> row_caps r = Some h) ->
  state r = Ready -> established binding t0 Ready c w -> wanted_volumes c = volumes binding ->
  settled_well
    (let w' := on_db (host_touch_used (clock w')) w' in
     (Finished match spec_from_inventory inventory_query binding (db w') with
               | Some spec => Ok (OReady spec)
               | None => Err (no_image "provisioned but no image recorded (driver bug)")
               end, w')).
Proof.
  intros w' Hs Hrow Hcaps Hst [ (Hrt & (d & Hd & Ho) & Hvol) Hn] Hv. cbv zeta.
  destruct Hs as (Hr & Hi & _). set (w2 := on_db (host_touch_used (clock w')) w').
  assert (exists r2, row (db w2) = Some r2 /\ row_caps r2 = row_caps r /\ state r2 = Ready) as (r2 & Hr2 & Hc2 & Hs2).
  { subst w2. simpl. rewrite Hrow. simpl. by eexists. }
  destruct (spec_newest c w2 r2) as (spec & d' & -> & Hd' & Himg & Hvols); [done|by intros h Hh; rewrite Hc2; apply Hcaps| |].
  { subst w2. simpl. by rewrite Hi. }
  assert (d' = d) as -> by congruence. simpl. unfold delivered_host. subst w2. simpl. rewrite Hr.
  split; [by exists d|]. split; [done|]. split; [|split; [done|]].
  - intros v Hin. rewrite <- Hv in Hin. by destruct (Hvol v Hin) as [?%not_elem_of_nil|].
  - rewrite Hrow. simpl. by rewrite Hst.
Qed.

Lemma run_effect_kept (P : R -> Prop) c e (w : World) flow w' :
  keeps P /\ keeps_install P -> run_effect note_text control_plane binding policy ui user_answer c e w = (flow, w') ->
  P (runner w) -> P (runner w').
Proof.
  intros [HK HI] Hr HP. change w' with (flow, w').2. rewrite <- Hr. by apply run_keeps.
Qed.

Lemma loop_settles fuel s c es e w :
  waiting c s e -> actions es = [e] -> established binding t0 s c w -> (t0 <= clock w)%Z ->
  wanted_volumes c = volumes binding -> distance c s e < fuel ->
  settled_well (loop fuel s c es w).
Proof.
  revert s c es e w. induction fuel as [|fuel IH]; intros s c es e w Hw He Hest Ht Hv Hd; [lia|].
  cbn [drive_loop].
  destruct (pass_action note_text control_plane binding policy ui user_answer c es e w He)
    as (w0 & flow & w1 & Hs0 & Hrun & Hf).
  pose proof (run_action note_text control_plane binding policy ui user_answer c e w0 w1 flow Hrun) as Hact.
  destruct flow as [ev|]; [|by rewrite Hf]. destruct Hf as (w2 & -> & Hs2). destruct Hact as [Hans Hevi].
  pose proof (established_same binding t0 s c w w0 Hs0 Hest) as Hest0.
  assert (t0 <= clock w1)%Z as Ht1.
  { eapply (run_effect_kept (fun r => (t0 <= unix_now r)%Z)); [done|exact Hrun|].
    unfold clock in Ht. destruct Hs0 as [-> _]. done. }
  pose proof (answer_establishes debug_pair binding t0 s c e ev w0 w1 Hw Hans Hevi Hest0
    (fun d => run_effect_kept (fun r => on_host r d) c e w0 _ w1 (on_host_kept d) Hrun)
    (fun v => run_effect_kept (fun r => seeded r v) c e w0 _ w1 (seeded_kept v) Hrun)
    (run_effect_kept has_runtime c e w0 _ w1 runtime_kept Hrun) Ht1) as Hest1.
  pose proof (step_typed debug_pair c s e ev Hw Hans) as [Hok _].
  pose proof (fun e' => answers_descend debug_pair c s e e' ev Hw Hans) as Hdesc.
  pose proof (step_request debug_pair s c ev) as (_ & _ & _ & Hreq & _).
  pose proof (ready_effects debug_pair c s e ev Hw Hans) as Hready.
  pose proof (failed_effects c s e ev) as Hfail.
  destruct (step debug_pair s c ev) as [c' t]. simpl in *.
  assert (established binding t0 (next t) c' w2) as Hest2 by (by eapply established_same).
  assert (t0 <= clock w2)%Z as Ht2 by (unfold clock in *; destruct Hs2 as [-> _]; done).
  destruct Hok as [ [Hterm Hq]|(e' & He' & Hw')].
  - destruct (next t) eqn:En; try done.
    + destruct (Hready eq_refl) as [pre Hpre].
      pose proof (drain_same note_text control_plane binding policy ui user_answer c' _ w2 Hq) as Hdr.
      pose proof (drain_ready_row note_text control_plane binding policy ui user_answer c' pre w2)
        as (r & Hrow & Hcaps & Hstate). rewrite <- Hpre in Hrow.
      apply (ready_settles c' (effects t) w2 r); try done. congruence.
    + simpl. rewrite (Hfail f Hw Hans eq_refl). apply drain_failed_row.
  - specialize (Hdesc e' He'). assert (wanted_volumes c' = volumes binding) by congruence.
    destruct (next t) eqn:En; try (by destruct Hw' as [Haw _]; inversion Haw);
      (eapply IH; eauto; lia).
Qed.

Local Abbreviation drive' := (drive debug_pair note_text inventory_query control_plane binding policy ui
  user_answer local_caps).

(** The world the loop starts in differs from the given one in the row only. *)
Lemma seeded_row (w : World) :
  let w' := match row (db w) with
            | None => on_db (host_checkpoint Unknown None (clock w)) w
            | Some _ => w
            end in
  runner w' = runner w /\ inventory (db w') = inventory (db w) /\ (row (db w') ≫= last_probe) = (row (db w) ≫= last_probe).
Proof. destruct (row (db w)) eqn:E; simpl; [by rewrite E|]. unfold host_checkpoint. simpl. by rewrite E. Qed.

(** C13. A drive that enters the machine settles within one pass per volume and
    eleven more, and settles well: either the host is ready - the image named by
    the returned spec was verified on it, it has a runtime and every wanted
    volume is seeded - or the question of consent was deferred, or the failure
    reported is the one recorded in the host's row. *)
Theorem drive_settles (fuel : nat) (w : World) :
  length (volumes binding) + 11 < fuel ->
  older t0 (inventory (db w)) -> (t0 <= clock w)%Z ->
  driving_elsewhere w = false ->
  (resume (default Unknown (state <$> row (db w))) (row (db w) ≫= last_probe) (clock w)
     (probe_ttl_secs binding)).1 = Connecting ->
  settled_well (drive' fuel (Ok tt) w).
Proof.
  intros Hfuel Hold Ht Hel Hres. unfold drive. rewrite Hel.
  pose proof (seeded_row w) as Hseed. cbv zeta in Hseed |- *. set (w1 := match row (db w) with None => _ | Some _ => _ end) in *.
  destruct Hseed as (Hr & Hi & Hl). rewrite Hl.
  assert (clock w1 = clock w) as Hc by (unfold clock; by rewrite Hr). rewrite Hc.
  assert (exists m, is_action m = false /\
    resume (default Unknown (state <$> row (db w))) (row (db w) ≫= last_probe) (clock w)
      (probe_ttl_secs binding) = (Connecting, [m; EConnect])) as (m & Hm & ->).
  { revert Hres. unfold resume. destruct (default _ _); repeat case_match; simpl; intros; try done;
      (eexists; split; [|reflexivity]; done). }
  eapply loop_settles; simpl.
  - split; [constructor|]. split; [apply NoDup_nil_2|simpl; lia].
  - unfold actions. simpl. by rewrite Hm.
  - simpl. by rewrite Hi.
  - unfold clock in *. simpl. by rewrite Hr.
  - done.
  - simpl. lia.
Qed.
End Loop.

(** ** Nothing is installed without consent *)

Section Consent.
Context {R : Type} `{HR : HostRunner R}.
Variable debug_pair : HostState -> HostEvent -> string.
Variable note_text : string -> N -> N -> string -> string.
Variable inventory_query : list InventoryEntry -> list InventoryEntry.
Variable control_plane : ReconnectPolicy.
Variable binding : HostBinding.
Variable policy : ConsentPolicy.
Variable ui : bool.
Variable user_answer : option bool.
Variable local_caps : LocalCaps.
Variable P : R -> Prop.
Hypothesis P_kept : keeps P.
Local Abbreviation World := (@World R).
Local Abbreviation run := (run_effect note_text control_plane binding policy ui user_answer).
Local Abbreviation answer := (consent_answer binding policy ui user_answer).

Definition consent_of (d : HostDb) : option bool := row d ≫= install_consent.

Definition refused (w : World) : Prop := answer w <> Some true.

Lemma refused_same w w' : consent_of (db w') = consent_of (db w) -> refused w -> refused w'.
Proof. unfold refused, consent_answer, consent_of. by intros ->. Qed.

Lemma consent_update f d :
  (forall r, install_consent (f r) = install_consent r) -> consent_of (update_row f d) = consent_of d.
Proof. intros Hf. unfold consent_of, update_row. simpl. destruct (row d); simpl; [apply Hf|done]. Qed.

Lemma consent_recorded c d b v d' (w : World) :
  consent_of (db (record_image binding c d b w)) = consent_of (db w) /\
  consent_of (db (record_volume binding c v d' w)) = consent_of (db w).
Proof. unfold record_image, record_volume. by destruct (caps c), b. Qed.

Lemma retrying_consent {A} b note (op : R -> result ClassifiedErr A * R) (w : World) :
  (forall a ms m w, consent_of (db (note a ms m w)) = consent_of (db w)) ->
  consent_of (db (retrying b note op w).2) = consent_of (db w).
Proof.
  intros Hn. destruct (retrying b note op w) as [r w'] eqn:E.
  eapply (retrying_inv (fun x => consent_of (db x) = consent_of (db w)) (fun _ _ => True)) in E as [? _]; eauto.
  intros a ms m x. by rewrite Hn.
Qed.

(** An effect other than an installation keeps the refusal, and never grants. *)
Lemma run_refused c e (w : World) :
  refused w -> refused (run c e w).2 /\ (run c e w).1 <> Some (FEvent ConsentGranted).
Proof.
  intros Hr.
  assert (forall {A} b step (op : R -> result ClassifiedErr A * R),
    consent_of (db (retrying b (fun _ _ _ => beat step) op (beat step w)).2) = consent_of (db w)) as Hbeat.
  { intros A b step op. rewrite retrying_consent; [|intros; by apply consent_update]. by apply consent_update. }
  destruct e; cbn [run_effect].
  - specialize (Hbeat unit (mkStepBudget control_plane (secs 120)) "connect" connect).
    destruct (retrying _ _ _ _) as [r w']. simpl. split; [by eapply refused_same|by destruct r].
  - specialize (Hbeat HostCaps (mkStepBudget probe_policy (secs 180)) "probe" probe).
    destruct (retrying _ _ _ _) as [r w']. apply (fun H => refused_same w w' H Hr) in Hbeat.
    destruct r as [h|e]; (split; [|done]); [|done]. eapply refused_same; [|exact Hbeat]. by apply consent_update.
  - destruct (answer w) as [ []|] eqn:E; [by destruct Hr| |done]. split; [|done].
    unfold refused in *. rewrite E in Hr. revert E Hr. unfold consent_answer. case_bool_decide; [done|].
    simpl. destruct (row (db w)); simpl; [done|]. by intros ->.
  - unfold lift. destruct (install_runtime rt _) as [r x]. simpl. split; [|by destruct r].
    eapply refused_same; [|exact Hr]. by apply consent_update.
  - specialize (Hbeat ResolvedImage (mkStepBudget probe_policy (secs 120)) "resolve_image" (resolve_image ref)).
    destruct (retrying _ _ _ _) as [r w']. simpl. split; [by eapply refused_same|by destruct r].
  - specialize (Hbeat bool (mkStepBudget probe_policy (secs 120)) "verify" (image_present (image binding) d)).
    destruct (retrying _ _ _ _) as [r w']. apply (fun H => refused_same w w' H Hr) in Hbeat.
    destruct r as [ []|e]; (split; [|done]); try done. eapply refused_same; [|exact Hbeat].
    exact (proj1 (consent_recorded c d true "" d w')).
  - pose proof (retrying_consent (mkStepBudget transfer_policy (secs 3600))
      (fun a ms m w => on_db (host_event (step_str SDeliver) (note_text "deliver" a ms m) (clock w)) w)
      (deliver strategy (image binding) d) (beat "deliver" w) ltac:(done)) as Hd.
    assert (consent_of (db (beat "deliver" w)) = consent_of (db w)) as Hb by by apply consent_update.
    rewrite Hb in Hd. destruct (retrying _ _ _ _) as [r w']. apply (fun H => refused_same w w' H Hr) in Hd.
    destruct r as [v|e]; (split; [|done]); [|done]. eapply refused_same; [|exact Hd].
    exact (proj1 (consent_recorded c v false "" d w')).
  - specialize (Hbeat unit (mkStepBudget transfer_policy (secs 3600)) "seed_volume"
      (seed_volume spec (image binding) (default zero_digest (wanted_digest c)))).
    destruct (retrying _ _ _ _) as [r w']. apply (fun H => refused_same w w' H Hr) in Hbeat.
    destruct r as [v|e]; (split; [|done]); [|done]. eapply refused_same; [|exact Hbeat].
    exact (proj2 (consent_recorded c zero_digest true (vol_name spec) _ w')).
  - simpl. split; [|done]. eapply refused_same; [|exact Hr]. unfold host_checkpoint, consent_of.
    destruct (durable_tag st), st, (row (db w)) eqn:E; simpl; rewrite ?E; done.
  - done.
Qed.
(** An effect that is not an installation keeps the property. *)
Lemma run_safe c e (w : World) :
  (forall rt, e <> EInstall rt) -> P (runner w) -> P (runner (run c e w).2).
Proof. intros He. apply run_keeps; [done|]. intros [rt ->]. by destruct (He rt). Qed.

Definition no_install (es : list HostEffect) : Prop := forall rt, EInstall rt ∉ es.

Lemma pass_refused c ev es (w : World) :
  no_install es -> refused w -> P (runner w) -> ev <> Some ConsentGranted ->
  let '(r, w') := run_pending note_text control_plane binding policy ui user_answer c ev es w in
  refused w' /\ P (runner w') /\ r <> Ok (Some ConsentGranted).
Proof.
  revert ev w. induction es as [|e es IH]; intros ev w Hes Hr HP Hev; cbn [run_pending].
  { split; [done|]. split; [done|]. congruence. }
  assert (no_install es) as Hes' by (intros rt Hin; apply (Hes rt); by right).
  assert (forall rt, e <> EInstall rt) as He by (intros rt ->; apply (Hes rt); by left).
  pose proof (run_refused c e w Hr) as [Hr1 Hne]. pose proof (run_safe c e w He HP) as HP1.
  destruct ev as [ev|].
  - destruct (is_action e); [by apply IH|]. destruct (run c e w) as [fl w1]. by apply IH.
  - destruct (run c e w) as [ [ [ev|]|] w1]; simpl in *; [|done|by apply IH].
    apply IH; try done. congruence.
Qed.

Lemma drain_safe c es (w : World) :
  no_install es -> P (runner w) ->
  P (runner (drain note_text control_plane binding policy ui user_answer c es w)).
Proof.
  unfold drain. revert w. induction es as [|e es IH]; intros w Hes HP; simpl; [done|]. apply IH.
  - intros rt Hin. apply (Hes rt). by right.
  - apply run_safe; [|done]. intros rt ->. apply (Hes rt). by left.
Qed.

(** Without a pre-granted consent, only a granted one leads to an installation. *)
Lemma step_no_install s c ev :
  consent c <> CAuto -> ev <> ConsentGranted -> no_install (effects (step debug_pair s c ev).2).
Proof.
  intros Hc Hev rt.
  assert (forall es, Forall (fun e => match e with EInstall _ => False | _ => True end) es -> EInstall rt ∉ es) as H.
  { intros es Hes Hin. by apply (proj1 (Forall_forall _ _) Hes) in Hin. }
  apply H. clear H.
  unfold step, on_probed, on_resolved, on_absent, on_delivered, on_deliver_failed, on_seeded,
    enter_image, enter_volumes, fail, unexpected, prepend.
  repeat case_match; simpl in *; simplify_eq; repeat constructor; done.
Qed.

Lemma loop_refused fuel s c es (w : World) :
  no_install es -> refused w -> P (runner w) -> consent c <> CAuto ->
  P (runner (drive_loop debug_pair note_text inventory_query control_plane binding policy ui user_answer
    fuel s c es w).2).
Proof.
  revert s c es w. induction fuel as [|fuel IH]; intros s c es w Hes Hr HP Hc; [done|]. cbn [drive_loop].
  pose proof (pass_refused c None es w Hes Hr HP ltac:(done)) as Hp.
  destruct (run_pending _ _ _ _ _ _ _ _ _ _) as [ [ [ev|]|u] w1]; destruct Hp as (Hr1 & HP1 & Hev); [|done..].
  pose proof (step_no_install s c ev Hc ltac:(congruence)) as Hni.
  pose proof (step_request debug_pair s c ev) as [Hreq _].
  destruct (step debug_pair s c ev) as [c' t]. simpl in *.
  destruct (next t); try (apply IH; congruence || done); simpl; by apply drain_safe.
Qed.

(** Nothing is installed on a machine without consent: unless the binding
    pre-grants it or the consent question is answered yes, a drive preserves
    every property of the host that its other operations preserve - whatever
    it reports, however often its steps are retried. *)
Theorem consent_required (fuel : nat) (made : result string unit) (w : World) :
  b_consent binding <> CAuto -> answer w <> Some true -> P (runner w) ->
  P (runner (drive debug_pair note_text inventory_query control_plane binding policy ui user_answer
    local_caps fuel made w).2).
Proof.
  intros Hc Hr HP. unfold drive. destruct (driving_elsewhere w); [done|]. destruct made; [|done]. cbv zeta.
  set (w1 := match row (db w) with None => _ | Some _ => _ end).
  assert (runner w1 = runner w /\ consent_of (db w1) = consent_of (db w)) as [H1 H2].
  { subst w1. destruct (row (db w)) eqn:E; [done|]. split; [done|]. unfold consent_of. simpl.
    unfold host_checkpoint. simpl. by rewrite E. }
  assert (refused w1) as Hr1 by by eapply refused_same.
  destruct (resume _ _ _ _) as [s pending] eqn:Eres.
  assert (no_install pending) as Hni.
  { revert Eres. unfold resume. repeat case_match; intros; simplify_eq; intros k; set_solver. }
  assert (P (runner (drive_loop debug_pair note_text inventory_query control_plane binding policy ui user_answer
    fuel s (new_ctx (b_consent binding) local_caps (image binding) (volumes binding) (b_delivery_prefs binding))
    pending (beat "resume" w1)).2)) as Hloop.
  { apply loop_refused; [done| | |done].
    - eapply refused_same; [|exact Hr1]. by apply consent_update.
    - simpl. by rewrite H1. }
  destruct s; try exact Hloop. destruct pending; [|exact Hloop]. simpl. by rewrite H1.
Qed.
End Consent.

(** ** A failure that retrying cannot cure

    [resume] keeps such a row as it is and asks for nothing, so the loop ends at
    once; what the caller is told is not the recorded failure. *)

(** A drive on a host whose recorded failure is final reports, instead of
    that failure, a retryable one that blames the driver, and marks the row as
    being driven. *)
Theorem final_failure_masked {R} `{HostRunner R} (debug_pair : HostState -> HostEvent -> string)
    (note_text : string -> N -> N -> string -> string)
    (inventory_query : list InventoryEntry -> list InventoryEntry) (control_plane : ReconnectPolicy)
    (binding : HostBinding) (policy : ConsentPolicy) (ui : bool) (user_answer : option bool)
    (local_caps : LocalCaps) (fuel : nat) (w : World) (r : HostRow) (f : HostFailure) :
  row (db w) = Some r -> state r = Failed f -> retryable f = false -> heartbeat r = None ->
  let '(res, w') := drive debug_pair note_text inventory_query control_plane binding policy ui user_answer
                      local_caps (S fuel) (Ok tt) w in
  res = Finished (Err settled) /\ settled <> f /\ retryable settled = true /\
  (row (db w') ≫= heartbeat) = Some (clock w).
Proof.
  intros Hrow Hst Hre Hhb. unfold drive, driving_elsewhere. rewrite Hrow. simpl. rewrite Hhb, Hst. simpl.
  rewrite Hre. simpl. rewrite Hrow. split; [done|]. split; [|done]. intros E. by rewrite <- E in Hre.
Qed.

(** ** A simulated host

    A host whose link drops a number of times, then works; the laws hold of it. *)
Record Sim := mkSim {
  images : list Digest;
  vols : list string;
  rt_present : bool;
  time : N;
  flaps : nat;
}.

Definition sim_caps (r : Sim) : HostCaps :=
  mkHostCaps Amd64 "linux"
    (if rt_present r then Some (mkRuntimeInfo Podman "5.0" true None) else None)
    {[CapSshStream]} EgressNone true None false false false None None.

Global Instance sim_runner : HostRunner Sim := {
  connect r := match flaps r with
               | O => (Ok tt, r)
               | S n => (Err (mkClassifiedErr Transient "link dropped"),
                         mkSim (images r) (vols r) (rt_present r) (time r) n)
               end;
  probe r := (Ok (sim_caps r), r);
  install_runtime _ r := (Ok (mkRuntimeInfo Podman "5.0" true None),
                          mkSim (images r) (vols r) true (time r) (flaps r));
  resolve_image ref r := (Ok (mkResolvedImage ref sample_digest {[Amd64 := sample_digest]}), r);
  image_present _ d r := (Ok (bool_decide (d ∈ images r)), r);
  deliver _ _ d r := (Ok d, mkSim (d :: images r) (vols r) (rt_present r) (time r) (flaps r));
  seed_volume v _ _ r := (Ok tt, mkSim (images r) (vol_name v :: vols r) (rt_present r) (time r) (flaps r));
  instant r := time r;
  sleep d r := mkSim (images r) (vols r) (rt_present r) (time r + d)%N (flaps r);
  unix_now r := (1000 + Z.of_N (time r / 1000000000))%Z;
}.

Lemma sim_keeps (P : Sim -> Prop) :
  (forall r t n, P r -> (time r <= t)%N -> P (mkSim (images r) (vols r) (rt_present r) t n)) ->
  (forall r ds vs, P r -> (forall d, d ∈ images r -> d ∈ ds) -> (forall v, v ∈ vols r -> v ∈ vs) ->
     P (mkSim ds vs (rt_present r) (time r) (flaps r))) ->
  (forall r, P r -> P (mkSim (images r) (vols r) true (time r) (flaps r))) ->
  keeps P /\ keeps_install P.
Proof.
  intros Ht Hg Hi. split; [|intros rt r; apply Hi].
  split; intros; simpl; try done.
  - destruct (flaps r); simpl; [done|]. apply Ht; [done|lia].
  - apply Hg; [done|set_solver..].
  - apply Hg; [done|set_solver..].
  - apply Ht; [done|lia].
Qed.

Global Program Instance sim_laws : HostRunnerLaws Sim := {
  on_host r d := d ∈ images r;
  seeded r v := v ∈ vols r;
  has_runtime r := rt_present r = true;
}.
Next Obligation. intros d. apply sim_keeps; simpl; auto. Qed.
Next Obligation. intros v. apply sim_keeps; simpl; auto. Qed.
Next Obligation. apply sim_keeps; simpl; auto. Qed.
Next Obligation. simpl. intros i d r r' [= H <-]. by apply bool_decide_eq_true in H. Qed.
Next Obligation. simpl. intros s i d r d' r' [= -> <-]. simpl. set_solver. Qed.
Next Obligation. simpl. intros v i d r r' [= <-]. simpl. set_solver. Qed.
Next Obligation. simpl. intros r h r' [= <- <-]. simpl. by destruct (rt_present r). Qed.
Next Obligation. simpl. by intros rt r i r' [= _ <-]. Qed.

Definition sim_binding : HostBinding :=
  mkHostBinding "host:box" (RSsh "box" 22) CAsk sample_ref (from_names ["nix-store"; "cargo"]) [] 3600.

Definition sim_world (flaps : nat) : World :=
  mkWorld (mkSim [] [] false 0 flaps) (mkHostDb None [] []).

Definition sim_drive (policy : ConsentPolicy) (flaps : nat) : DriveResult * World :=
  drive (fun _ _ => "") (fun _ _ _ _ => "") (fun l => l) control_plane_default sim_binding policy true None
    (mkLocalCaps true false false false) 20 (Ok tt) (sim_world flaps).

Lemma sim_clock : keeps (fun r : Sim => (1000 <= unix_now r)%Z) /\ keeps_install (fun r : Sim => (1000 <= unix_now r)%Z).
Proof.
  assert (forall r : Sim, (1000 <= unix_now r)%Z) as H
    by (intros r; unfold unix_now, sim_runner; pose proof (N2Z.is_nonneg (time r / 1000000000)); lia).
  by apply sim_keeps; intros; apply H.
Qed.

Lemma drive_settles_witness :
  (exists spec w, sim_drive (Headless true) 2 = (Finished (Ok (OReady spec)), w)) /\
  settled_well sim_binding (sim_drive (Headless true) 2).
Proof.
  split; [eexists _, _; by vm_compute|].
  apply (drive_settles (fun _ _ => "") (fun _ _ _ _ => "") (fun l => l) control_plane_default sim_binding
    (Headless true) true None (mkLocalCaps true false false false) 1000 ltac:(done) sim_clock 20 (sim_world 2)).
  - simpl. lia.
  - intros x Hx. by apply not_elem_of_nil in Hx.
  - by vm_compute.
  - by vm_compute.
  - by vm_compute.
Defined.

Lemma consent_required_witness :
  rt_present (runner (sim_drive (Headless false) 0).2) = false.
Proof.
  apply (consent_required (fun _ _ => "") (fun _ _ _ _ => "") (fun l => l) control_plane_default sim_binding
    (Headless false) true None (mkLocalCaps true false false false) (fun r => rt_present r = false)).
  - split; simpl; intros; try done. by destruct (flaps r).
  - done.
  - by vm_compute.
  - done.
Defined.

Lemma final_failure_masked_witness :
  (drive (fun _ _ => "") (fun _ _ _ _ => "") (fun l => l) control_plane_default sim_binding BackgroundSkip
    false None (mkLocalCaps true false false false) 1 (Ok tt)
    (mkWorld (mkSim [] [] false 0 0) (mkHostDb (Some (mkHostRow
      (Failed (mkHostFailure SConsent "install declined" false)) None None None None None None None 0)) [] []))).1
  = Finished (Err settled).
Proof.
  apply (final_failure_masked (fun _ _ => "") (fun _ _ _ _ => "") (fun l => l) control_plane_default sim_binding
    BackgroundSkip false None (mkLocalCaps true false false false) 0
    (mkWorld (mkSim [] [] false 0 0) (mkHostDb (Some (mkHostRow
      (Failed (mkHostFailure SConsent "install declined" false)) None None None None None None None 0)) [] []))
    (mkHostRow (Failed (mkHostFailure SConsent "install declined" false)) None None None None None None None 0)
    (mkHostFailure SConsent "install declined" false)); reflexivity.
Defined.
