(* ===== verification/Glob.v ===== *)
(** * Path patterns and their intersection

    The matcher of thegn-core/src/pipeline_chunk.rs: patterns of `/`-separated
    segments in which `*` stands for any run of characters of a segment and a
    segment `**` for any number of segments.  [glob_match] decides whether a
    path matches; [patterns_intersect] decides whether two patterns share a
    path, by a search of the product of their automata under a work budget.

    Strings are bytes.  The code splits a segment into [char]s where this model
    splits it into bytes; patterns are ASCII, so a literal only ever meets a
    one-byte character and the two agree. *)
From Stdlib Require Import Ascii String.
From S2P Require Import Prelude RustStr RustText.
Local Open Scope string_scope.
Local Open Scope list_scope.

Definition MAX_PATTERN_BYTES : nat := 256.
Definition MAX_SEGMENTS : nat := 32.
Definition MAX_PAIR_MATCH_WORK : N := 100000.
Definition MAX_TOTAL_MATCH_WORK : N := 50000000.

Definition bytes (s : string) : list ascii := list_ascii_of_string s.

(** ** Canonical patterns *)

(** [s.ends_with(c)]. *)
Definition ends_with (c : ascii) (s : string) : bool :=
  match last (bytes s) with Some a => Ascii.eqb a c | None => false end.

Definition windows_reserved_component (segment : string) : bool :=
  let base := match split_char "." segment with b :: _ => b | [] => segment end in
  existsb (fun name => eq_ignore_case base name) ["CON"; "PRN"; "AUX"; "NUL"] ||
  existsb (fun prefix =>
    existsb (fun digit => eq_ignore_case base (prefix ++ digit)%string)
      ["1"; "2"; "3"; "4"; "5"; "6"; "7"; "8"; "9"]) ["COM"; "LPT"].

(** The bytes no segment may hold: [?], [<], [>], the double quote and [|]. *)
Definition refused_byte (a : ascii) : bool :=
  existsb (Ascii.eqb a) ["?"; "<"; ">"; "034"; "|"]%char.

Definition bad_segment (s : string) : bool :=
  is_empty s || String.eqb s "." || String.eqb s ".." ||
  (contains "**" s && negb (String.eqb s "**")) ||
  ends_with "." s || ends_with " " s ||
  existsb refused_byte (bytes s) || windows_reserved_component s.

Definition canonical_repo_relative_path (path : string) : option string :=
  if (MAX_PATTERN_BYTES <? String.length path)%nat then None
  else
    let normalized := default path (strip_prefix "./" path) in
    let segments := split_char "/" normalized in
    if is_empty normalized ||
       (MAX_SEGMENTS <? length segments)%nat ||
       negb (str_forall (byte_in 0 127) normalized) ||
       starts_with "/" normalized ||
       contains "\" normalized || contains ":" normalized ||
       existsb (fun b => byte_in 0 31 b || byte_in 127 127 b) (bytes normalized) ||
       existsb bad_segment segments
    then None else Some normalized.

Definition canonical_pattern (p : string) : bool :=
  match canonical_repo_relative_path p with
  | Some q => String.eqb q p
  | None => false
  end.

(** ** One segment against one name *)

Definition is_star (a : ascii) : bool := Ascii.eqb a "*".

(** The loop of [match_segment], with its one point of return. *)
Fixpoint match_loop (fuel : nat) (p t : list ascii) (pi ti : nat) (star : option nat) (mark : nat)
    : option bool :=
  match fuel with
  | O => None
  | S fuel =>
      match t !! ti with
      | None => Some (forallb is_star (drop pi p))
      | Some c =>
          let retry :=
            match star with
            | Some sp => match_loop fuel p t (sp + 1) (mark + 1) star (mark + 1)
            | None => Some false
            end in
          match p !! pi with
          | Some a =>
              if is_star a then match_loop fuel p t (pi + 1) ti (Some pi) ti
              else if Ascii.eqb a c then match_loop fuel p t (pi + 1) (ti + 1) star mark
              else retry
          | None => retry
          end
      end
  end.

(** Enough for every run: each return moves [mark] forward, and between two
    returns the loop moves through the pattern; [match_segment_correct]. *)
Definition match_fuel (p t : list ascii) : nat := (length t + 2) * (length p + 2).

Definition match_segment (pat seg : string) : bool :=
  default false (match_loop (match_fuel (bytes pat) (bytes seg)) (bytes pat) (bytes seg) 0 0 None 0).

(** ** A pattern against a path *)

Notation Memo := (gmap (nat * nat) bool).

(** [go] of [match_segments]: memoised, and giving up at the work limit. *)
Fixpoint go (fuel : nat) (p s : list string) (i j : nat) (memo : Memo) (work : N)
    : bool * Memo * N :=
  match fuel with
  | O => (false, memo, work)
  | S fuel =>
      match memo !! (i, j) with
      | Some result => (result, memo, work)
      | None =>
          if (MAX_PAIR_MATCH_WORK <=? work)%N then (false, memo, work)
          else
            let work := (work + 1)%N in
            let '(result, memo, work) :=
              match p !! i with
              | None => ((j =? length s)%nat, memo, work)
              | Some pat =>
                  if String.eqb pat "**" then
                    let '(r, memo, work) := go fuel p s (i + 1) j memo work in
                    if r then (true, memo, work)
                    else if (j <? length s)%nat then go fuel p s i (j + 1) memo work
                    else (false, memo, work)
                  else
                    match s !! j with
                    | Some seg =>
                        if match_segment pat seg then go fuel p s (i + 1) (j + 1) memo work
                        else (false, memo, work)
                    | None => (false, memo, work)
                    end
              end in
            (result, <[(i, j) := result]> memo, work)
      end
  end.

Definition match_segments (p s : list string) : bool :=
  let '(r, _, _) := go (length p + length s + 1) p s 0 0 ∅ 0 in r.

Definition glob_match (pattern path : string) : bool :=
  if (MAX_PATTERN_BYTES <? String.length pattern)%nat ||
     (MAX_PATTERN_BYTES * MAX_SEGMENTS <? String.length path)%nat ||
     negb (canonical_pattern pattern) ||
     (MAX_SEGMENTS <? length (split_char "/" path))%nat
  then false
  else match_segments (split_char "/" pattern) (split_char "/" path).

(** ** Two patterns against each other *)

Inductive MatchError := OverBudget | UnsupportedPattern.

(** The two work counters: of the pair and of the whole request. *)
Definition Work : Type := N * N.

Definition charge_match_work (w : Work) : result MatchError Work :=
  let w := (w.1 + 1, w.2 + 1)%N in
  if ((MAX_PAIR_MATCH_WORK <? w.1) || (MAX_TOTAL_MATCH_WORK <? w.2))%N then Err OverBudget else Ok w.

(** A depth-first search for an accepting state.  [visit] is what the body of
    the loop does with a new state: nothing left to do but push successors, or
    an answer.  A state seen before is dropped. *)
Inductive Visit := Accept | Push (succs : list (nat * nat)).

Section Search.
Variable visit : nat * nat -> Work -> result MatchError (Visit * Work).

Fixpoint search (fuel : nat) (pending : list (nat * nat)) (seen : gset (nat * nat)) (w : Work)
    : option (result MatchError (bool * Work)) :=
  match fuel with
  | O => None
  | S fuel =>
      match pending with
      | [] => Some (Ok (false, w))
      | st :: pending =>
          if bool_decide (st ∈ seen) then search fuel pending seen w
          else
            match charge_match_work w with
            | Err e => Some (Err e)
            | Ok w =>
                match visit st w with
                | Err e => Some (Err e)
                | Ok (Accept, w) => Some (Ok (true, w))
                | Ok (Push succs, w) => search fuel (rev succs ++ pending) ({[st]} ∪ seen) w
                end
            end
      end
  end.
End Search.

(** Enough for a search of a grid of [n] by [m] states with at most three
    pushes per state. *)
Definition search_fuel (n m : nat) : nat := 3 * (n * m) + 2.

(** [segment_intersects]: on lower-cased bytes. *)
Definition segment_visit (a b : list ascii) (st : nat * nat) (w : Work)
    : result MatchError (Visit * Work) :=
  let '(i, j) := st in
  if (i =? length a)%nat && (j =? length b)%nat then Ok (Accept, w)
  else
    let ca := a !! i in
    let cb := b !! j in
    let star c := match c with Some c => is_star c | None => false end in
    Ok (Push
      ((if star ca then [(i + 1, j)] else []) ++
       (if star cb then [(i, j + 1)] else []) ++
       match ca, cb with
       | Some x, Some y =>
           match is_star x, is_star y with
           | true, true => [(i, j)]
           | true, false => [(i, j + 1)]
           | false, true => [(i + 1, j)]
           | false, false => if Ascii.eqb x y then [(i + 1, j + 1)] else []
           end
       | _, _ => []
       end), w).

(** The error of a search that runs out of fuel, which [search_total] excludes. *)
Definition run_search (visit : nat * nat -> Work -> result MatchError (Visit * Work))
    (n m : nat) (w : Work) : result MatchError (bool * Work) :=
  default (Err OverBudget) (search visit (search_fuel (n + 1) (m + 1)) [(0, 0)] ∅ w).

Definition segment_intersects (a b : string) (w : Work) : result MatchError (bool * Work) :=
  let a := bytes (to_ascii_lowercase a) in
  let b := bytes (to_ascii_lowercase b) in
  run_search (segment_visit a b) (length a) (length b) w.

Definition pattern_visit (a b : list string) (st : nat * nat) (w : Work)
    : result MatchError (Visit * Work) :=
  let '(i, j) := st in
  let any c := match c with Some c => String.eqb c "**" | None => false end in
  let sa := a !! i in
  let sb := b !! j in
  match sa, sb with
  | Some x, Some y =>
      if negb (any sa) && negb (any sb) then
        let? rw := segment_intersects x y w in
        let '(r, w) := rw in
        Ok (Push (if r : bool then [(i + 1, j + 1)] else []), w)
      else
        Ok (Push
          ((if any sa then [(i + 1, j)] else []) ++
           (if any sb then [(i, j + 1)] else []) ++
           (if any sa && any sb then [(i, j)]
            else if any sa then [(i, j + 1)]
            else if any sb then [(i + 1, j)]
            else [])), w)
  | _, _ =>
      if (i =? length a)%nat && (j =? length b)%nat then Ok (Accept, w)
      else Ok (Push ((if any sa then [(i + 1, j)] else []) ++ (if any sb then [(i, j + 1)] else [])), w)
  end.

(** [total] is the work of the whole request so far. *)
Definition patterns_intersect (a b : string) (total : N) : result MatchError (bool * N) :=
  if negb (canonical_pattern a) || negb (canonical_pattern b) then Err UnsupportedPattern
  else
    let a := split_char "/" a in
    let b := split_char "/" b in
    let? rw := run_search (pattern_visit a b) (length a) (length b) (0%N, total) in
    let '(r, w) := rw in Ok (r, w.2).
