(* ===== verification/GlobProps.v ===== *)
(** * Correctness of the path patterns

    [lang] is the language of a sequence of tokens some of which are wild.  One
    segment is a sequence of bytes of which `*` is wild, a pattern a sequence of
    segments of which `**` is wild, so the theorems about the product search are
    proved once for both. *)
From Stdlib Require Import Ascii String.
From S2P Require Import Prelude RustStr RustText Glob.
Local Open Scope string_scope.
Local Open Scope list_scope.

(** ** Languages with wild tokens *)

Section Lang.
Context {T C : Type} (wild : T -> bool) (tok : T -> C -> Prop).

Inductive lang : list T -> list C -> Prop :=
| lang_nil : lang [] []
| lang_tok x p c u : wild x = false -> tok x c -> lang p u -> lang (x :: p) (c :: u)
| lang_skip x p u : wild x = true -> lang p u -> lang (x :: p) u
| lang_eat x p c u : wild x = true -> lang (x :: p) u -> lang (x :: p) (c :: u).

Lemma lang_wild x p v u : wild x = true -> lang p u -> lang (x :: p) (v ++ u).
Proof. intros Hx Hp. induction v; simpl; by constructor. Qed.

Lemma lang_wild_inv x p u :
  wild x = true -> lang (x :: p) u -> exists v w, u = v ++ w /\ lang p w.
Proof.
  intros Hx H. remember (x :: p) as q eqn:E. induction H as [| |y q u Hy H _|y q c u Hy H IH]; simplify_eq.
  - congruence.
  - by exists [], u.
  - destruct (IH eq_refl) as (v & w & -> & Hw). by exists (c :: v), w.
Qed.

(** *** The product of two sequences

    A state is a pair of positions; an edge skips a wild token or consumes a
    letter both sides allow. *)
Hypothesis inhabited : forall x, wild x = false -> exists c, tok x c.

Variables a b : list T.

Inductive edge : nat * nat -> nat * nat -> Prop :=
| edge_skip_a i j x : a !! i = Some x -> wild x = true -> edge (i, j) (i + 1, j)
| edge_skip_b i j y : b !! j = Some y -> wild y = true -> edge (i, j) (i, j + 1)
| edge_both i j x y :
    a !! i = Some x -> b !! j = Some y -> wild x = true -> wild y = true -> edge (i, j) (i, j)
| edge_eat_a i j x y :
    a !! i = Some x -> b !! j = Some y -> wild x = true -> wild y = false -> edge (i, j) (i, j + 1)
| edge_eat_b i j x y :
    a !! i = Some x -> b !! j = Some y -> wild x = false -> wild y = true -> edge (i, j) (i + 1, j)
| edge_tok i j x y :
    a !! i = Some x -> b !! j = Some y -> wild x = false -> wild y = false ->
    (exists c, tok x c /\ tok y c) -> edge (i, j) (i + 1, j + 1).

Definition final : nat * nat := (length a, length b).

Definition shared (st : nat * nat) : Prop :=
  exists u, lang (drop st.1 a) u /\ lang (drop st.2 b) u.

Lemma drop_at (l : list T) i x : l !! i = Some x -> drop i l = x :: drop (i + 1) l.
Proof. intros H. rewrite Nat.add_1_r. by apply drop_S. Qed.

Lemma edge_shared st st' : edge st st' -> shared st' -> shared st.
Proof.
  intros He (u & Ha & Hb). destruct He as [i j x Hx Wx|i j y Hy Wy|i j x y Hx Hy Wx Wy|i j x y Hx Hy Wx Wy|
    i j x y Hx Hy Wx Wy|i j x y Hx Hy Wx Wy Hm]; simpl in *.
  - exists u. simpl. rewrite (drop_at a i x Hx). split; [by apply lang_skip|done].
  - exists u. simpl. rewrite (drop_at b j y Hy). split; [done|by apply lang_skip].
  - by exists u.
  - destruct (inhabited y Wy) as [c Hc]. exists (c :: u). simpl. rewrite (drop_at b j y Hy).
    rewrite (drop_at a i x Hx) in *. split; [by apply lang_eat|by apply lang_tok].
  - destruct (inhabited x Wx) as [c Hc]. exists (c :: u). simpl. rewrite (drop_at a i x Hx).
    rewrite (drop_at b j y Hy) in *. split; [by apply lang_tok|by apply lang_eat].
  - destruct Hm as (c & Hx' & Hy'). exists (c :: u). simpl.
    rewrite (drop_at a i x Hx), (drop_at b j y Hy). by split; apply lang_tok.
Qed.

Lemma drop_cons_inv (l : list T) i x p : drop i l = x :: p -> l !! i = Some x /\ p = drop (i + 1) l.
Proof.
  intros H. assert (l !! i = Some x) as Hx.
  { rewrite <- (Nat.add_0_r i), <- lookup_drop, H. done. }
  split; [done|]. rewrite (drop_at l i x Hx) in H. congruence.
Qed.

Lemma drop_nil_inv (l : list T) i : i <= length l -> drop i l = [] -> i = length l.
Proof. intros Hi H. apply (f_equal length) in H. rewrite length_drop in H. simpl in H. lia. Qed.

(** A shared word leads to the accepting state, letter by letter. *)
Lemma shared_reach i j :
  i <= length a -> j <= length b -> shared (i, j) -> rtc edge (i, j) final.
Proof.
  intros Hi Hj (u & Ha & Hb). simpl in *.
  remember (length u + (length a - i) + (length b - j)) as n eqn:En.
  revert i j u En Hi Hj Ha Hb. induction (lt_wf n) as [n _ IH]. intros i j u -> Hi Hj Ha Hb.
  destruct (drop i a) as [|x p] eqn:Ea.
  - apply drop_nil_inv in Ea; [|done]. subst i. inversion Ha; subst.
    destruct (drop j b) as [|y q] eqn:Eb.
    + apply drop_nil_inv in Eb; [|done]. subst j. done.
    + apply drop_cons_inv in Eb as [Hy ->]. pose proof (lookup_lt_Some _ _ _ Hy).
      inversion Hb; subst. eapply rtc_l; [by eapply edge_skip_b|].
      eapply IH; [|reflexivity|..]; try done; simpl; try lia. by rewrite drop_all.
  - apply drop_cons_inv in Ea as [Hx ->]. pose proof (lookup_lt_Some _ _ _ Hx).
    inversion Ha as [|x' p' c u' Wx Hc Hp|x' p' u' Wx Hp|x' p' c u' Wx Hp]; subst.
    + destruct (drop j b) as [|y q] eqn:Eb; [by inversion Hb|]. apply drop_cons_inv in Eb as [Hy ->].
      pose proof (lookup_lt_Some _ _ _ Hy).
      inversion Hb as [|y' q' c' v Wy Hc' Hq|y' q' v Wy Hq|y' q' c' v Wy Hq]; subst.
      * eapply rtc_l; [eapply edge_tok; eauto|].
        eapply IH; [|reflexivity|..]; eauto; simpl; lia.
      * eapply rtc_l; [by eapply edge_skip_b|].
        eapply IH; [|reflexivity|..]; eauto; simpl; try lia. by rewrite (drop_at a i x Hx).
      * eapply rtc_l; [by eapply edge_eat_b|].
        eapply IH; [|reflexivity|..]; eauto; simpl; try lia. by rewrite (drop_at b j y Hy).
    + eapply rtc_l; [by eapply edge_skip_a|].
      eapply IH; [|reflexivity|..]; eauto; simpl; lia.
    + destruct (drop j b) as [|y q] eqn:Eb; [by inversion Hb|]. apply drop_cons_inv in Eb as [Hy ->].
      pose proof (lookup_lt_Some _ _ _ Hy).
      inversion Hb as [|y' q' c' v Wy Hc' Hq|y' q' v Wy Hq|y' q' c' v Wy Hq]; subst.
      * eapply rtc_l; [by eapply edge_eat_a|].
        eapply IH; [|reflexivity|..]; eauto; simpl; try lia. by rewrite (drop_at a i x Hx).
      * eapply rtc_l; [by eapply edge_skip_b|].
        eapply IH; [|reflexivity|..]; eauto; simpl; try lia. by rewrite (drop_at a i x Hx).
      * eapply (IH (length u' + (length a - i) + (length b - j))); [simpl; lia|reflexivity|..]; eauto.
        -- by rewrite (drop_at a i x Hx).
        -- by rewrite (drop_at b j y Hy).
Qed.

Lemma reach_shared st : rtc edge st final -> shared st.
Proof.
  intros H. remember final as f eqn:E. induction H as [st|st st' f He _ IH]; subst.
  - exists []. unfold final. simpl. rewrite !drop_all. split; constructor.
  - eapply edge_shared; eauto.
Qed.

(** The accepting state is reached exactly when the two languages meet. *)
Lemma reach_iff : rtc edge (0, 0) final <-> exists u, lang a u /\ lang b u.
Proof.
  split; [apply reach_shared|]. intros H. apply shared_reach; [lia..|exact H].
Qed.

Lemma edge_grid st st' :
  edge st st' -> st.1 <= length a /\ st.2 <= length b -> st'.1 <= length a /\ st'.2 <= length b.
Proof.
  destruct 1; simpl; repeat match goal with H : _ !! _ = Some _ |- _ => apply lookup_lt_Some in H end; lia.
Qed.
End Lang.

(** ** The search *)

(** The work of a request after [k] more charges, and the limits. *)
Definition spend (w : Work) (k : nat) : Work := (w.1 + N.of_nat k, w.2 + N.of_nat k)%N.
Definition fits (w : Work) : Prop := (w.1 <= MAX_PAIR_MATCH_WORK /\ w.2 <= MAX_TOTAL_MATCH_WORK)%N.

Lemma spend_spend w k k' : spend (spend w k) k' = spend w (k + k').
Proof. unfold spend. simpl. f_equal; lia. Qed.

Lemma spend_0 w : spend w 0 = w.
Proof. destruct w. unfold spend. simpl. f_equal; lia. Qed.

Lemma fits_le w k k' : k <= k' -> fits (spend w k') -> fits (spend w k).
Proof. unfold fits, spend. simpl. lia. Qed.

Lemma charge_spec w :
  match charge_match_work w with
  | Ok w' => w' = spend w 1 /\ fits w'
  | Err e => e = OverBudget /\ ~ fits (spend w 1)
  end.
Proof.
  destruct w as [w1 w2]. unfold charge_match_work, fits, spend. cbn [fst snd].
  destruct (N.ltb_spec MAX_PAIR_MATCH_WORK (w1 + 1)); cbn [orb fst snd]; [split; [done|]; lia|].
  destruct (N.ltb_spec MAX_TOTAL_MATCH_WORK (w2 + 1)); cbn [orb fst snd]; split; done || lia.
Qed.

(** What a run that may cost [k] promises of its result. *)
Definition within (w : Work) (k : nat) {A} (good : A -> Prop) (res : result MatchError (A * Work)) : Prop :=
  match res with
  | Ok (v, w') => good v /\ exists k', k' <= k /\ w' = spend w k'
  | Err e => e = OverBudget /\ ~ fits (spend w k)
  end.

Lemma within_mono {A} w k1 k2 k (good good' : A -> Prop) res :
  k1 + k2 <= k -> (forall v, good v -> good' v) -> within (spend w k1) k2 good res -> within w k good' res.
Proof.
  intros Hk Hg. destruct res as [[v w']|e]; simpl.
  - intros [Hv (k' & Hk' & ->)]. split; [by apply Hg|]. exists (k1 + k'). split; [lia|apply spend_spend].
  - intros [-> Hf]. split; [done|]. intros Hf'. apply Hf. rewrite spend_spend. eapply fits_le; [|exact Hf']. lia.
Qed.

Lemma within_imp {A} w k k' (good good' : A -> Prop) res :
  k <= k' -> (forall v, good v -> good' v) -> within w k good res -> within w k' good' res.
Proof. intros Hk Hg H. apply (within_mono w 0 k k' good good'); [done..|by rewrite spend_0]. Qed.

Lemma sum_list_with_submseteq {A} (f : A -> nat) (l k : list A) :
  l ⊆+ k -> sum_list_with f l <= sum_list_with f k.
Proof.
  intros (k' & Hp)%submseteq_Permutation. rewrite Hp, sum_list_with_app. lia.
Qed.

Lemma elem_of_rev_iff {A} (x : A) (l : list A) : x ∈ rev l <-> x ∈ l.
Proof. rewrite !list_elem_of_In. symmetry. apply in_rev. Qed.

Lemma elements_grid (grid : list (nat * nat)) (seen : gset (nat * nat)) :
  (forall st, st ∈ seen -> st ∈ grid) -> elements seen ⊆+ grid.
Proof.
  intros H. apply NoDup_submseteq; [apply NoDup_elements|]. intros x Hx. apply H. set_solver.
Qed.

Section SearchCorrect.
Context (visit : nat * nat -> Work -> result MatchError (Visit * Work)).
Context (R : nat * nat -> nat * nat -> Prop) (fin : nat * nat) (cost : nat * nat -> nat).
Context (grid : list (nat * nat)).

Definition good_visit (st : nat * nat) (v : Visit) : Prop :=
  match v with
  | Accept => st = fin
  | Push succs => st <> fin /\ length succs <= 3 /\ forall st', st' ∈ succs <-> R st st'
  end.

Hypothesis visit_spec : forall st w, st ∈ grid -> within w (cost st) (good_visit st) (visit st w).
Hypothesis R_grid : forall st st', st ∈ grid -> R st st' -> st' ∈ grid.

(** What is seen is not accepting, and leads to what is seen or pending. *)
Definition closed (pending : list (nat * nat)) (seen : gset (nat * nat)) : Prop :=
  forall st, st ∈ seen -> st <> fin /\ forall st', R st st' -> st' ∈ seen \/ st' ∈ pending.

Definition leads (pending : list (nat * nat)) : Prop := exists st, st ∈ pending /\ rtc R st fin.

Lemma closed_leads pending seen st :
  closed pending seen -> st ∈ seen -> rtc R st fin -> leads pending.
Proof.
  intros Hc Hs H. remember fin as f eqn:E in H. induction H as [st|st st' f Hr H IH]; subst.
  - by destruct (Hc _ Hs).
  - destruct (Hc _ Hs) as [_ Hn]. destruct (Hn _ Hr) as [Hs'|Hp]; [by apply IH|by exists st'].
Qed.

Definition spent (seen : gset (nat * nat)) : nat :=
  sum_list_with (fun st => S (cost st)) (elements seen).

Lemma spent_add st seen : st ∉ seen -> spent ({[st]} ∪ seen) = S (cost st) + spent seen.
Proof. intros H. unfold spent. by rewrite elements_union_singleton. Qed.

Lemma search_step_fuel (fuel : nat) (st : nat * nat) (pending succs : list (nat * nat))
    (seen : gset (nat * nat)) :
  (forall x, x ∈ seen -> x ∈ grid) -> st ∈ grid -> st ∉ seen -> length succs <= 3 ->
  3 * (List.length grid - size seen) + List.length (st :: pending) < S fuel ->
  3 * (List.length grid - size ({[st]} ∪ seen)) + List.length (rev succs ++ pending) < fuel.
Proof.
  intros Hg Hst Hn Hl Hf. rewrite length_app, length_rev. simpl in Hf.
  rewrite size_union, size_singleton by set_solver.
  assert (size seen + 1 <= length grid) as Hs.
  { replace (size seen + 1) with (size ({[st]} ∪ seen)) by (rewrite size_union, size_singleton by set_solver; lia).
    unfold size, set_size. simpl. apply submseteq_length, elements_grid. set_solver. }
  lia.
Qed.

Lemma closed_drop st pending seen : closed (st :: pending) seen -> st ∈ seen -> closed pending seen.
Proof.
  intros Hc Hin x Hx. destruct (Hc x Hx) as [? Hn]. split; [done|]. intros y Hy.
  destruct (Hn y Hy) as [?|[->|?]%elem_of_cons]; auto.
Qed.

Lemma leads_drop st pending seen :
  closed (st :: pending) seen -> st ∈ seen -> leads pending <-> leads (st :: pending).
Proof.
  intros Hc Hin. split; [intros (x & ? & ?); exists x; set_solver|].
  intros (x & [->|Hx]%elem_of_cons & Hr); [|by exists x].
  eapply closed_leads; [by eapply closed_drop|exact Hin|exact Hr].
Qed.

Lemma closed_push st succs pending seen :
  good_visit st (Push succs) -> closed (st :: pending) seen -> closed (rev succs ++ pending) ({[st]} ∪ seen).
Proof.
  intros (Hfin & _ & Hsucc) Hc x [->%elem_of_singleton|Hx]%elem_of_union.
  - split; [done|]. intros y Hy%Hsucc. right. apply elem_of_app. left. by apply elem_of_rev_iff.
  - destruct (Hc x Hx) as [? Hn]. split; [done|]. intros y Hy.
    destruct (Hn y Hy) as [?|[->|?]%elem_of_cons]; set_solver.
Qed.

Lemma leads_push st succs pending :
  good_visit st (Push succs) -> leads (rev succs ++ pending) <-> leads (st :: pending).
Proof.
  intros (Hfin & _ & Hsucc). split.
  - intros (x & [Hx|Hx]%elem_of_app & Hr); [|exists x; set_solver].
    rewrite elem_of_rev_iff in Hx. exists st. split; [set_solver|]. eapply rtc_l; [|exact Hr]. by apply Hsucc.
  - intros (x & [->|Hx]%elem_of_cons & Hr); [|exists x; set_solver].
    inversion Hr as [|? y ? Hy Hr']; subst; [done|]. exists y. split; [|done].
    apply elem_of_app. left. apply elem_of_rev_iff. by apply Hsucc.
Qed.

Lemma pushed_grid st succs pending x :
  good_visit st (Push succs) -> st ∈ grid -> (forall y, y ∈ st :: pending -> y ∈ grid) ->
  x ∈ rev succs ++ pending -> x ∈ grid.
Proof.
  intros (_ & _ & Hsucc) Hst Hp [Hx|Hx]%elem_of_app; [|apply Hp; set_solver].
  rewrite elem_of_rev_iff in Hx. eapply R_grid; [exact Hst|]. by apply Hsucc.
Qed.

(** The search answers, within the cost of the grid, and its answer is whether
    a pending state leads to the accepting one. *)
Lemma search_spec (fuel : nat) (pending : list (nat * nat)) (seen : gset (nat * nat)) (w0 : Work) :
  (forall st, st ∈ seen -> st ∈ grid) -> (forall st, st ∈ pending -> st ∈ grid) ->
  closed pending seen ->
  3 * (length grid - size seen) + length pending < fuel ->
  exists res, search visit fuel pending seen w0 = Some res /\
    within w0 (sum_list_with (fun st => S (cost st)) grid - spent seen)
      (fun r : bool => r = true <-> leads pending) res.
Proof.
  revert pending seen w0. induction fuel as [|fuel IH]; [lia|]. intros pending seen w0 Hs Hp Hc Hf.
  destruct pending as [|st pending]; cbn [search].
  { eexists. split; [done|]. simpl. split; [|exists 0; rewrite spend_0; split; [lia|done]].
    split; [discriminate|]. intros (? & []%not_elem_of_nil & _). }
  destruct (bool_decide_reflect (st ∈ seen)) as [Hin|Hni].
  { destruct (IH pending seen w0 Hs) as (res & -> & Hw).
    - intros x Hx. apply Hp. set_solver.
    - by eapply closed_drop.
    - simpl in Hf. lia.
    - eexists. split; [done|]. eapply within_imp; [..|exact Hw]; [lia|].
      intros r ->. by eapply leads_drop. }
  pose proof (Hp st ltac:(set_solver)) as Hgst.
  pose proof (sum_list_with_submseteq (fun st => S (cost st)) _ _
    (elements_grid grid ({[st]} ∪ seen) ltac:(set_solver))) as Hsum.
  fold (spent ({[st]} ∪ seen)) in Hsum. rewrite spent_add in Hsum by done.
  pose proof (charge_spec w0) as Hch. destruct (charge_match_work w0) as [w1|e].
  2: { eexists. split; [done|]. simpl. destruct Hch as [-> Hch]. split; [done|].
       intros Hf'. apply Hch. eapply fits_le; [|exact Hf']. lia. }
  destruct Hch as [-> _]. pose proof (visit_spec st (spend w0 1) Hgst) as Hv.
  destruct (visit st (spend w0 1)) as [[v w2]|e].
  2: { eexists. split; [done|]. destruct Hv as [-> Hv]. split; [done|]. rewrite spend_spend in Hv.
       intros Hf'. apply Hv. eapply fits_le; [|exact Hf']. lia. }
  destruct Hv as [Hv (k & Hk & ->)]. rewrite spend_spend. destruct v as [|succs].
  { eexists. split; [done|]. simpl. split; [|exists (1 + k); split; [lia|done]].
    split; [|done]. intros _. exists st. simpl in Hv. subst. split; [set_solver|done]. }
  destruct (IH (rev succs ++ pending) ({[st]} ∪ seen) (spend w0 (1 + k))) as (res & -> & Hw).
  - set_solver.
  - intros x. by apply pushed_grid with st.
  - by apply closed_push.
  - apply search_step_fuel; try done. apply Hv.
  - eexists. split; [done|]. eapply (within_mono w0 (1 + k)); [|..|exact Hw].
    { rewrite spent_add by done. lia. }
    intros r ->. by apply leads_push.
Qed.
End SearchCorrect.

(** ** The two searches *)

Definition grid_of (n m : nat) : list (nat * nat) := list_prod (seq 0 (n + 1)) (seq 0 (m + 1)).

Lemma elem_of_grid n m st : st ∈ grid_of n m <-> st.1 <= n /\ st.2 <= m.
Proof.
  destruct st as [i j]. unfold grid_of. rewrite list_elem_of_In, in_prod_iff, !in_seq. simpl. lia.
Qed.

Lemma grid_length n m : length (grid_of n m) = (n + 1) * (m + 1).
Proof. unfold grid_of. by rewrite length_prod, !length_seq. Qed.

Lemma run_search_spec visit R cost n m w :
  (forall st w, st ∈ grid_of n m -> within w (cost st) (good_visit R (n, m) st) (visit st w)) ->
  (forall st st', st ∈ grid_of n m -> R st st' -> st' ∈ grid_of n m) ->
  within w (sum_list_with (fun st => S (cost st)) (grid_of n m))
    (fun r : bool => r = true <-> rtc R (0, 0) (n, m)) (run_search visit n m w).
Proof.
  intros Hv HR. unfold run_search.
  destruct (search_spec visit R (n, m) cost (grid_of n m) Hv HR (search_fuel (n + 1) (m + 1)) [(0, 0)] ∅ w)
    as (res & -> & Hw).
  - set_solver.
  - intros st ->%list_elem_of_singleton. apply elem_of_grid. simpl. lia.
  - intros st Hst. set_solver.
  - unfold search_fuel. rewrite size_empty, grid_length. simpl. lia.
  - simpl. eapply within_imp; [..|exact Hw].
    + unfold spent. rewrite elements_empty. simpl. lia.
    + intros r ->. unfold leads. split; [|by exists (0, 0); split; [set_solver|]].
      by intros (st & ->%list_elem_of_singleton & Hr).
Qed.

Lemma edge_in_grid {T C} (wild : T -> bool) (tok : T -> C -> Prop) a b st st' :
  st ∈ grid_of (length a) (length b) -> edge wild tok a b st st' -> st' ∈ grid_of (length a) (length b).
Proof. rewrite !elem_of_grid. intros H He. by eapply edge_grid. Qed.

(** *** One segment against another *)

Lemma eqb_pair_final (i j n m : nat) : (i =? n)%nat && (j =? m)%nat = true <-> (i, j) = (n, m).
Proof. rewrite andb_true_iff, !Nat.eqb_eq. split; [by intros [-> ->]|by intros [= -> ->]]. Qed.

Ltac destruct_ex := repeat match goal with H : exists _, _ /\ _ |- _ => destruct H as (? & ? & ?) end.

(** Settles whether a state is a successor by cases on the tokens in front. *)
Ltac by_edges :=
  intros [? ?]; repeat case_match; simplify_eq/=; rewrite ?elem_of_cons, ?elem_of_nil;
  (split; [intros Hin; destruct_or? Hin; simplify_eq; eauto using edge|
    inversion 1; destruct_ex; simplify_eq; rewrite ?elem_of_cons; eauto; congruence]).

Lemma segment_visit_spec a b st w :
  st ∈ grid_of (length a) (length b) ->
  within w 0 (good_visit (edge is_star eq a b) (length a, length b) st) (segment_visit a b st w).
Proof.
  intros _. destruct st as [i j]. unfold segment_visit.
  destruct ((i =? length a)%nat && (j =? length b)%nat) eqn:E.
  { apply eqb_pair_final in E. split; [done|]. exists 0. by rewrite spend_0. }
  split; [|exists 0; by rewrite spend_0].
  split; [|split].
  - intros H%eqb_pair_final. congruence.
  - repeat case_match; simpl; lia.
  - destruct (a !! i) as [x|] eqn:Hx, (b !! j) as [y|] eqn:Hy; simpl;
      try destruct (is_star x) eqn:Wx; try destruct (is_star y) eqn:Wy; simpl; try by_edges.
    destruct (Ascii.eqb_spec x y) as [->|Hne]; by_edges.
Qed.

Lemma sum_list_with_0 {A} (l : list A) : sum_list_with (fun _ => 1) l = length l.
Proof. induction l; simpl; lia. Qed.

Lemma bytes_length s : length (bytes s) = String.length s.
Proof. induction s; simpl; lia. Qed.

Lemma lower_length s : String.length (to_ascii_lowercase s) = String.length s.
Proof. induction s; simpl; lia. Qed.

(** The words a segment matches once case is folded. *)
Definition fold_seg (x : string) (u : list ascii) : Prop := lang is_star eq (bytes (to_ascii_lowercase x)) u.

Definition segment_cost (x y : string) : nat := (String.length x + 1) * (String.length y + 1).

Lemma segment_intersects_spec x y w :
  within w (segment_cost x y) (fun r : bool => r = true <-> exists u, fold_seg x u /\ fold_seg y u)
    (segment_intersects x y w).
Proof.
  unfold segment_intersects.
  set (a := bytes (to_ascii_lowercase x)). set (b := bytes (to_ascii_lowercase y)).
  pose proof (run_search_spec (segment_visit a b) (edge is_star eq a b) (fun _ => 0) (length a) (length b)
    w (segment_visit_spec a b) (edge_in_grid is_star eq a b)) as H.
  rewrite sum_list_with_0, grid_length in H. eapply within_imp; [..|exact H].
  - unfold a, b, segment_cost. rewrite !bytes_length, !lower_length. lia.
  - intros r ->. apply reach_iff. intros z _. by exists z.
Qed.

Lemma lang_inhabited {T C} (wild : T -> bool) (tok : T -> C -> Prop) p :
  (forall x, wild x = false -> exists c, tok x c) -> exists u, lang wild tok p u.
Proof.
  intros H. induction p as [|x p [u IH]]; [exists []; constructor|]. destruct (wild x) eqn:W.
  - exists u. by apply lang_skip.
  - destruct (H x W) as [c Hc]. exists (c :: u). by apply lang_tok.
Qed.

Lemma fold_seg_inhabited x : exists u, fold_seg x u.
Proof. apply lang_inhabited. intros c _. by exists c. Qed.

(** *** One pattern against another *)

Definition is_any (s : string) : bool := String.eqb s "**".

Definition pattern_cost (a b : list string) (st : nat * nat) : nat :=
  match a !! st.1, b !! st.2 with
  | Some x, Some y => segment_cost x y
  | _, _ => 0
  end.

Lemma good_push a b i j succs w k :
  (i, j) <> (length a, length b) -> length succs <= 3 ->
  (forall st, st ∈ succs <-> edge is_any fold_seg a b (i, j) st) ->
  within w k (good_visit (edge is_any fold_seg a b) (length a, length b) (i, j)) (Ok (Push succs, w)).
Proof. intros. split; [done|]. exists 0. rewrite spend_0. split; [lia|done]. Qed.

(** The end of one pattern or both. *)
Lemma pattern_visit_end a b i j w :
  i <= length a -> j <= length b -> a !! i = None \/ b !! j = None ->
  within w 0 (good_visit (edge is_any fold_seg a b) (length a, length b) (i, j)) (pattern_visit a b (i, j) w).
Proof.
  intros Hi Hj Hend. unfold pattern_visit.
  destruct ((i =? length a)%nat && (j =? length b)%nat) eqn:E.
  - apply eqb_pair_final in E as [= -> ->]. rewrite !lookup_ge_None_2 by lia.
    split; [done|]. exists 0. by rewrite spend_0.
  - assert ((i, j) <> (length a, length b)) by (intros H%eqb_pair_final; congruence).
    destruct (a !! i) as [x|] eqn:Hx, (b !! j) as [y|] eqn:Hy; [by destruct Hend| | |];
      try fold (is_any x); try fold (is_any y); apply good_push; try done.
    all: first [by repeat case_match; simpl; lia|by_edges].
Qed.

Lemma pattern_visit_spec a b st w :
  st ∈ grid_of (length a) (length b) ->
  within w (pattern_cost a b st) (good_visit (edge is_any fold_seg a b) (length a, length b) st)
    (pattern_visit a b st w).
Proof.
  rewrite elem_of_grid. destruct st as [i j]. unfold pattern_cost. cbn [fst snd]. intros [Hi Hj].
  destruct (a !! i) as [x|] eqn:Hx; [|by apply pattern_visit_end; auto].
  destruct (b !! j) as [y|] eqn:Hy; [|by apply pattern_visit_end; auto].
  pose proof (lookup_lt_Some _ _ _ Hx). assert ((i, j) <> (length a, length b)) by (intros [= -> ->]; lia).
  unfold pattern_visit. rewrite Hx, Hy. cbn -[segment_cost segment_intersects].
  fold (is_any x) (is_any y). destruct (is_any x) eqn:Wx, (is_any y) eqn:Wy; cbn [negb andb].
  1-3: apply good_push; [done|simpl; lia|simpl; by_edges].
  pose proof (segment_intersects_spec x y w) as Hs. destruct (segment_intersects x y w) as [[r w']|e]; [|exact Hs].
  destruct Hs as [Hr Hw]. split; [|exact Hw]. split; [done|]. split; [destruct r; simpl; lia|].
  intros st. split.
  - destruct r; [intros ->%list_elem_of_singleton|by intros []%not_elem_of_nil]. eapply edge_tok; eauto. by apply Hr.
  - inversion 1; simplify_eq; try congruence. rewrite (proj2 Hr) by done. set_solver.
Qed.

(** *** The cost of a pair *)

Lemma sum_prod (f : nat * nat -> nat) l k :
  sum_list_with f (list_prod l k) = sum_list_with (fun i => sum_list_with (fun j => f (i, j)) k) l.
Proof.
  induction l as [|i l IH]; [done|]. simpl. rewrite sum_list_with_app, IH. f_equal.
  clear. induction k as [|j k IH]; simpl; [done|]. by rewrite IH.
Qed.

Lemma sum_map {A B} (g : A -> B) (f : B -> nat) l : sum_list_with f (map g l) = sum_list_with (fun x => f (g x)) l.
Proof. induction l; simpl; lia. Qed.

Definition weight_at (a : list string) (i : nat) : nat :=
  match a !! i with Some x => String.length x + 1 | None => 0 end.

Definition weight (a : list string) : nat := sum_list_with (fun x => String.length x + 1) a.

Lemma weight_seq a : sum_list_with (weight_at a) (seq 0 (length a + 1)) = weight a.
Proof.
  induction a as [|x a IH]; [done|]. cbn [length Nat.add seq sum_list_with]. rewrite <- seq_shift, sum_map.
  unfold weight. cbn [sum_list_with]. fold (weight a). rewrite <- IH. done.
Qed.

Lemma sum_scale {A} (f g : A -> nat) c d l :
  (forall x, f x = c * g x + d) -> sum_list_with f l = c * sum_list_with g l + d * length l.
Proof. intros H. induction l as [|x l IH]; simpl; [lia|]. rewrite H, IH. lia. Qed.

Lemma grid_cost a b :
  sum_list_with (fun st => S (pattern_cost a b st)) (grid_of (length a) (length b)) =
  weight a * weight b + (length a + 1) * (length b + 1).
Proof.
  unfold grid_of. rewrite sum_prod.
  rewrite (sum_scale _ (weight_at a) (weight b) (length b + 1)).
  - rewrite weight_seq, length_seq. lia.
  - intros i. rewrite (sum_scale _ (weight_at b) (weight_at a i) 1).
    + rewrite weight_seq, length_seq. lia.
    + intros j. unfold pattern_cost, weight_at, segment_cost. cbn [fst snd].
      destruct (a !! i), (b !! j); lia.
Qed.

Lemma weight_split c s : weight (split_char c s) = String.length s + 1.
Proof.
  unfold weight. induction s as [|x s IH]; [done|]. simpl. destruct (Ascii.eqb x c); simpl; [lia|].
  destruct (split_char c s) eqn:E; [by destruct (split_char_ne c s)|]. simpl in *. lia.
Qed.

(** The most one pair of patterns can cost. *)
Definition pair_cost : nat := 257 * 257 + 33 * 33.

Lemma canonical_bounds p :
  canonical_pattern p = true -> String.length p <= 256 /\ length (split_char "/" p) <= 32.
Proof.
  unfold canonical_pattern, canonical_repo_relative_path.
  destruct (Nat.ltb_spec MAX_PATTERN_BYTES (String.length p)) as [|Hl]; [done|].
  unfold MAX_PATTERN_BYTES, MAX_SEGMENTS in *.
  destruct (32 <? _)%nat eqn:E; rewrite ?orb_true_r; [done|]. intros H. split; [done|].
  destruct (_ || _) in H; [done|]. apply String.eqb_eq in H. rewrite H in E. by apply Nat.ltb_ge in E.
Qed.

Lemma canonical_cost a b :
  canonical_pattern a = true -> canonical_pattern b = true ->
  weight (split_char "/" a) * weight (split_char "/" b) +
  (length (split_char "/" a) + 1) * (length (split_char "/" b) + 1) <= pair_cost.
Proof.
  intros [Ha Ha']%canonical_bounds [Hb Hb']%canonical_bounds. rewrite !weight_split.
  pose proof (Nat.mul_le_mono (String.length a + 1) 257 (String.length b + 1) 257 ltac:(lia) ltac:(lia)).
  pose proof (Nat.mul_le_mono (length (split_char "/" a) + 1) 33 (length (split_char "/" b) + 1) 33
    ltac:(lia) ltac:(lia)).
  unfold pair_cost. lia.
Qed.
