(* ===== verification/GlobSpec.v ===== *)
(** * What patterns mean

    [path_in] is the meaning of a pattern: which paths it matches.  Deciding a
    path and deciding an overlap of two patterns are proved against it. *)
From Stdlib Require Import Ascii String.
From S2P Require Import Prelude RustStr RustText Glob GlobProps.
Local Open Scope string_scope.
Local Open Scope list_scope.

Definition seg_in (x s : string) : Prop := lang is_star eq (bytes x) (bytes s).
Definition path_in (pattern path : string) : Prop :=
  lang is_any seg_in (split_char "/" pattern) (split_char "/" path).

(** ** Case folding and paths *)

Lemma bytes_lower s : bytes (to_ascii_lowercase s) = map to_lower (bytes s).
Proof. induction s; simpl; by f_equal. Qed.

Lemma bytes_inj s t : bytes s = bytes t -> s = t.
Proof. revert t. induction s as [|a s IH]; intros [|b t]; simpl; try done. intros [= -> H%IH]. by subst. Qed.

Lemma string_of_bytes u : exists s, bytes s = u.
Proof. exists (string_of_list_ascii u). apply list_ascii_of_string_of_list_ascii. Qed.

Lemma to_lower_slash a : Ascii.eqb (to_lower a) "/" = Ascii.eqb a "/".
Proof. destruct a as [[] [] [] [] [] [] [] []]; reflexivity. Qed.

Lemma to_lower_star a : is_star (to_lower a) = is_star a.
Proof. destruct a as [[] [] [] [] [] [] [] []]; reflexivity. Qed.

Lemma split_lower s : split_char "/" (to_ascii_lowercase s) = map to_ascii_lowercase (split_char "/" s).
Proof.
  induction s as [|a s IH]; [done|]. simpl. rewrite to_lower_slash, IH. destruct (Ascii.eqb a "/"); [done|].
  destruct (split_char "/" s) eqn:E; [by destruct (split_char_ne "/" s)|]. done.
Qed.

(** The letter a path holds where a folded word has [c]: no `/`, no capital. *)
Definition fit (c : ascii) : ascii := to_lower (if Ascii.eqb c "/" then "x"%char else c).

Lemma fit_slash c : Ascii.eqb (fit c) "/" = false.
Proof. destruct c as [[] [] [] [] [] [] [] []]; reflexivity. Qed.

Lemma fit_lower c : to_lower (fit c) = fit c.
Proof. destruct c as [[] [] [] [] [] [] [] []]; reflexivity. Qed.

Lemma lower_fit c : Ascii.eqb c "/" = false -> fit (to_lower c) = to_lower c.
Proof. by destruct c as [[] [] [] [] [] [] [] []]. Qed.

(** A word of the folded language comes from a word of the pattern itself. *)
Lemma lang_unfold p u :
  Forall (fun c => Ascii.eqb c "/" = false) p -> lang is_star eq (map to_lower p) u ->
  exists v, lang is_star eq p v /\ map to_lower v = map fit u /\ Forall (fun c => Ascii.eqb c "/" = false) v.
Proof.
  intros Hp H. remember (map to_lower p) as q eqn:E. revert p Hp E.
  induction H as [|x q c u Wx Hc H IH|x q u Wx H IH|x q c u Wx H IH]; intros [|y p] Hp E; simplify_eq/=.
  - exists []. split; [constructor|done].
  - apply Forall_cons_1 in Hp as [Hy Hp]. destruct (IH p Hp eq_refl) as (v & Hv & Ev & Hs).
    exists (y :: v). rewrite to_lower_star in Wx. split; [by apply lang_tok|]. simpl. rewrite Ev, lower_fit by done.
    split; [done|by constructor].
  - apply Forall_cons_1 in Hp as [Hy Hp]. destruct (IH p Hp eq_refl) as (v & Hv & Ev & Hs).
    exists v. rewrite to_lower_star in Wx. split; [by apply lang_skip|done].
  - destruct (IH (y :: p) Hp eq_refl) as (v & Hv & Ev & Hs). rewrite to_lower_star in Wx.
    exists (fit c :: v). split; [by apply lang_eat|]. simpl. rewrite Ev, fit_lower.
    split; [done|constructor; [apply fit_slash|done]].
Qed.

Lemma no_char_bytes c s : no_char c s = true <-> Forall (fun a => Ascii.eqb a c = false) (bytes s).
Proof.
  induction s as [|a s IH]; simpl; [by split; [constructor|]|]. by rewrite andb_true_iff, negb_true_iff, IH, Forall_cons.
Qed.

Lemma lang_map {T T' C D} (wild : T -> bool) (wild' : T' -> bool) (tok : T -> C -> Prop) (tok' : T' -> D -> Prop)
    (g : T -> T') (f : C -> D) p u :
  (forall x, wild' (g x) = wild x) -> (forall x c, tok x c -> tok' (g x) (f c)) ->
  lang wild tok p u -> lang wild' tok' (map g p) (map f u).
Proof. 
  intros Hw H. induction 1; simpl;
    [apply lang_nil|apply lang_tok|apply lang_skip|apply lang_eat]; rewrite ?Hw; auto.
Qed.

Lemma seg_fold x s : seg_in x s -> fold_seg x (bytes (to_ascii_lowercase s)).
Proof.
  unfold seg_in, fold_seg. rewrite !bytes_lower. apply lang_map; [apply to_lower_star|]. by intros ? ? ->.
Qed.

Lemma seg_unfold x u :
  no_char "/" x = true -> fold_seg x u ->
  exists s, seg_in x s /\ bytes (to_ascii_lowercase s) = map fit u /\ no_char "/" s = true.
Proof.
  unfold fold_seg, seg_in. rewrite bytes_lower. intros Hx%no_char_bytes Hu.
  destruct (lang_unfold _ _ Hx Hu) as (v & Hv & Ev & Hs). destruct (string_of_bytes v) as [s <-].
  exists s. rewrite bytes_lower, no_char_bytes. done.
Qed.

(** A word of segments comes from a path. *)
Lemma path_unfold p u :
  Forall (fun x => no_char "/" x = true) p -> lang is_any fold_seg p u ->
  exists l, lang is_any seg_in p l /\ map (fun s => bytes (to_ascii_lowercase s)) l = map (map fit) u /\
    Forall (fun s => no_char "/" s = true) l.
Proof.
  intros Hp H. induction H as [|x p c u Wx Hc H IH|x p u Wx H IH|x p c u Wx H IH].
  - exists []. split; [constructor|done].
  - apply Forall_cons_1 in Hp as [Hx Hp]. destruct (IH Hp) as (l & Hl & El & Hs).
    destruct (seg_unfold x c Hx Hc) as (s & Hs' & Es & Hn). exists (s :: l). simpl. rewrite Es, El.
    split; [by apply lang_tok|]. split; [done|by constructor].
  - apply Forall_cons_1 in Hp as [Hx Hp]. destruct (IH Hp) as (l & Hl & El & Hs).
    exists l. split; [by apply lang_skip|done].
  - destruct (IH Hp) as (l & Hl & El & Hs). destruct (string_of_bytes (map fit c)) as [s Es].
    exists (s :: l). simpl. rewrite El, bytes_lower, Es. split; [by apply lang_eat|]. split.
    + f_equal. rewrite map_map. apply map_ext, fit_lower.
    + constructor; [|done]. apply no_char_bytes. rewrite Es, Forall_map.
      by apply Forall_true, fit_slash.
Qed.

Lemma lang_nonempty {T C} (wild : T -> bool) (tok : T -> C -> Prop) p c :
  p <> [] -> lang wild tok p [] -> lang wild tok p [c].
Proof.
  destruct p as [|x p]; [done|]. intros _ H. inversion H; subst. apply lang_eat; [done|]. by apply lang_skip.
Qed.

Lemma path_of_word p u :
  u <> [] -> lang is_any fold_seg (split_char "/" p) u ->
  exists path, path_in p path /\
    map bytes (split_char "/" (to_ascii_lowercase path)) = map (map fit) u.
Proof.
  intros Hu H. destruct (path_unfold _ _ (split_char_no_char "/" p) H) as (l & Hl & El & Hs).
  assert (split_char "/" (join "/" l) = l) as Hj.
  { apply split_join_id; [|done]. intros ->. by destruct u. }
  exists (join "/" l). unfold path_in. rewrite split_lower, Hj, map_map. done.
Qed.

(** The folded languages of two patterns meet exactly when some path of the one
    is, up to case, a path of the other. *)
Lemma shared_iff a b :
  (exists u, lang is_any fold_seg (split_char "/" a) u /\ lang is_any fold_seg (split_char "/" b) u) <->
  exists x y, path_in a x /\ path_in b y /\ to_ascii_lowercase x = to_ascii_lowercase y.
Proof.
  split.
  - intros (u & Ha & Hb). assert (exists u, u <> [] /\ lang is_any fold_seg (split_char "/" a) u /\
      lang is_any fold_seg (split_char "/" b) u) as (v & Hv & Ha' & Hb').
    { destruct u as [|c u]; [|by exists (c :: u)]. exists [[]].
      split; [done|]. split; (apply lang_nonempty; [apply split_char_ne|done]). }
    destruct (path_of_word a v Hv Ha') as (x & Hx & Ex). destruct (path_of_word b v Hv Hb') as (y & Hy & Ey).
    exists x, y. split; [done|]. split; [done|]. rewrite <- Ey in Ex.
    apply (list_fmap_eq_inj bytes) in Ex; [|exact bytes_inj]. rewrite <- (join_split "/" (to_ascii_lowercase x)), Ex. apply join_split.
  - intros (x & y & Hx & Hy & E). exists (map bytes (split_char "/" (to_ascii_lowercase x))).
    rewrite E at 2. rewrite !split_lower, !map_map.
    split; rewrite <- (map_id (split_char "/" _)) at 1;
      (eapply lang_map; [done| |eassumption]); intros; by apply seg_fold.
Qed.

Lemma run_patterns_spec a b w :
  within w (weight a * weight b + (length a + 1) * (length b + 1))
    (fun r : bool => r = true <-> exists u, lang is_any fold_seg a u /\ lang is_any fold_seg b u)
    (run_search (pattern_visit a b) (length a) (length b) w).
Proof.
  pose proof (run_search_spec (pattern_visit a b) (edge is_any fold_seg a b) (pattern_cost a b) (length a) (length b)
    w (pattern_visit_spec a b) (edge_in_grid is_any fold_seg a b)) as H.
  rewrite grid_cost in H. eapply within_imp; [..|exact H]; [lia|].
  intros r ->. apply reach_iff. intros x _. apply fold_seg_inhabited.
Qed.

(** What [patterns_intersect] answers, on every input. *)
Lemma patterns_intersect_spec a b total :
  match patterns_intersect a b total with
  | Ok (r, total') =>
      canonical_pattern a = true /\ canonical_pattern b = true /\
      (total <= total' <= total + N.of_nat pair_cost)%N /\
      (r = true <-> exists x y, path_in a x /\ path_in b y /\ to_ascii_lowercase x = to_ascii_lowercase y)
  | Err UnsupportedPattern => canonical_pattern a && canonical_pattern b = false
  | Err OverBudget => (MAX_TOTAL_MATCH_WORK < total + N.of_nat pair_cost)%N
  end.
Proof.
  unfold patterns_intersect. destruct (canonical_pattern a) eqn:Ha; [|done].
  destruct (canonical_pattern b) eqn:Hb; [|done]. cbn [negb orb].
  pose proof (run_patterns_spec (split_char "/" a) (split_char "/" b) (0%N, total)) as H.
  pose proof (canonical_cost a b Ha Hb) as Hc.
  destruct (run_search _ _ _ _) as [[r w]|e]; cbn [within] in H; cbn iota beta.
  - destruct H as [Hr (k & Hk & ->)]. do 2 (split; [done|]). split; [|by rewrite <- shared_iff].
    unfold spend. simpl. lia.
  - destruct H as [-> Hf]. apply N.nle_gt. intros Hle. apply Hf. unfold fits, spend. cbn [fst snd].
    revert Hc Hle. generalize (weight (split_char "/" a) * weight (split_char "/" b) +
      (length (split_char "/" a) + 1) * (length (split_char "/" b) + 1)). intros k Hk.
    unfold pair_cost, MAX_PAIR_MATCH_WORK, MAX_TOTAL_MATCH_WORK in *. lia.
Qed.

(** ** Matching a segment *)

Local Notation glob := (lang is_star (@eq ascii)).

Definition literal (l : list ascii) : Prop := Forall (fun a => is_star a = false) l.

Lemma glob_literal l q u : literal l -> glob (l ++ q) u <-> exists u', u = l ++ u' /\ glob q u'.
Proof.
  intros Hl. revert u. induction Hl as [|a l Ha Hl IH]; intros u; simpl.
  - split; [by exists u|]. by intros (u' & -> & ?).
  - split.
    + inversion 1; simplify_eq; try congruence. apply IH in H5 as (u' & -> & Hu). by exists u'.
    + intros (u' & -> & Hu). apply lang_tok; [done..|]. apply IH. by exists u'.
Qed.

Lemma glob_stars p : glob p [] <-> forallb is_star p = true.
Proof.
  induction p as [|a p IH]; simpl; [by split; [|constructor]|]. rewrite andb_true_iff. split.
  - inversion 1; subst. split; [done|]. by apply IH.
  - intros [Ha Hp]. apply lang_skip; [done|]. by apply IH.
Qed.

Lemma glob_star a q t n :
  is_star a = true -> glob (a :: q) (drop n t) <-> exists k, n <= k /\ glob q (drop k t).
Proof.
  intros Ha. split.
  - intros (v & w & E & Hw)%lang_wild_inv; [|done]. exists (n + length v). split; [lia|].
    by rewrite <- drop_drop, E, drop_app_length.
  - intros (k & Hk & Hq). rewrite <- (take_drop (k - n) (drop n t)), drop_drop.
    replace (n + (k - n)) with k by lia. by apply lang_wild.
Qed.

(** Where the loop stands: the text consumed, and the last star to return to.
    [lit] is what was matched since that star. *)
Definition loop_inv (p t : list ascii) (pi ti : nat) (star : option nat) (mark : nat) : Prop :=
  pi <= length p /\ ti <= length t /\ mark <= ti /\
  match star with
  | None => glob p t <-> glob (drop pi p) (drop ti t)
  | Some sp => exists lit,
      literal lit /\ drop (sp + 1) p = lit ++ drop pi p /\ drop mark t = lit ++ drop ti t /\
      pi = sp + 1 + length lit /\ ti = mark + length lit /\
      (glob p t <-> exists k, mark <= k /\ glob (drop (sp + 1) p) (drop k t))
  end.

Lemma inv_star p t pi ti star mark a :
  loop_inv p t pi ti star mark -> p !! pi = Some a -> is_star a = true ->
  loop_inv p t (pi + 1) ti (Some pi) ti.
Proof.
  intros (Hp & Ht & Hm & Hs) Ha Hst. pose proof (lookup_lt_Some _ _ _ Ha). do 3 (split; [lia|]).
  exists []. simpl. rewrite !Nat.add_0_r. do 5 (split; [done || constructor|]).
  rewrite <- (glob_star a) by done. rewrite <- drop_at by done.
  destruct star as [sp|]; [|exact Hs]. destruct Hs as (lit & Hl & Ep & Et & -> & -> & ->). split.
  - intros (k & Hk & H'). rewrite Ep in H'. apply glob_literal in H' as (u' & Eu & Hu); [|done].
    rewrite (drop_at p _ a Ha) in Hu |- *. apply glob_star; [done|].
    assert (u' = drop (k + length lit) t) as -> by (by rewrite <- drop_drop, Eu, drop_app_length).
    apply glob_star in Hu as (k' & ? & ?); [|done]. exists k'. split; [lia|done].
  - intros H'. exists mark. split; [lia|]. rewrite Ep, Et. apply glob_literal; [done|]. eauto.
Qed.

Lemma inv_match p t pi ti star mark a :
  loop_inv p t pi ti star mark -> p !! pi = Some a -> t !! ti = Some a -> is_star a = false ->
  loop_inv p t (pi + 1) (ti + 1) star mark.
Proof.
  intros (Hp & Ht & Hm & Hs) Ha Hta Hst.
  pose proof (lookup_lt_Some _ _ _ Ha). pose proof (lookup_lt_Some _ _ _ Hta). do 3 (split; [lia|]).
  pose proof (drop_at p pi a Ha) as Ep. pose proof (drop_at t ti a Hta) as Et.
  destruct star as [sp|].
  - destruct Hs as (lit & Hl & Ep' & Et' & -> & -> & Hs). exists (lit ++ [a]).
    rewrite length_app, <- !app_assoc. simpl. rewrite <- Ep, <- Et.
    do 3 (split; [done || (apply Forall_app; split; [done|by constructor])|]). do 2 (split; [lia|]). done.
  - rewrite Hs, Ep, Et. change (a :: ?q) with ([a] ++ q). rewrite (glob_literal [a]) by (by constructor).
    split; [by intros (u & [= <-] & ?)|eauto].
Qed.

(** A mismatch in front of the text. *)
Definition stuck (p t : list ascii) (pi ti : nat) : Prop :=
  exists c, t !! ti = Some c /\
    (p !! pi = None \/ exists a, p !! pi = Some a /\ is_star a = false /\ a <> c).

Lemma stuck_no p t pi ti : stuck p t pi ti -> ~ glob (drop pi p) (drop ti t).
Proof.
  intros (c & Hc & Hp). rewrite (drop_at t ti c Hc). destruct Hp as [Hn|(a & Ha & Hs & Hne)].
  - rewrite drop_ge by (by apply lookup_ge_None). inversion 1.
  - rewrite (drop_at p pi a Ha). inversion 1; congruence.
Qed.

Lemma inv_retry p t pi ti sp mark :
  loop_inv p t pi ti (Some sp) mark -> stuck p t pi ti ->
  loop_inv p t (sp + 1) (mark + 1) (Some sp) (mark + 1).
Proof.
  intros (Hp & Ht & Hm & lit & Hl & Ep & Et & -> & -> & Hs) Hst.
  pose proof Hst as (c & Hc & _). pose proof (lookup_lt_Some _ _ _ Hc). do 3 (split; [lia|]).
  exists []. simpl. rewrite !Nat.add_0_r. do 5 (split; [done || constructor|]). rewrite Hs. split.
  - intros (k & Hk & H'). exists k. split; [|done]. destruct (decide (k = mark)) as [->|]; [|lia].
    rewrite Ep, Et in H'. apply glob_literal in H' as (u & Eu & Hu); [|done].
    apply app_inv_head in Eu. subst u. by destruct (stuck_no _ _ _ _ Hst).
  - intros (k & Hk & H'). exists k. split; [lia|done].
Qed.

Lemma inv_end p t pi ti star mark :
  loop_inv p t pi ti star mark -> t !! ti = None -> glob p t <-> glob (drop pi p) [].
Proof.
  intros (Hp & Ht & Hm & Hs) Hn%lookup_ge_None. rewrite (drop_ge t ti) in Hs by done.
  destruct star as [sp|]; [|done]. destruct Hs as (lit & Hl & Ep & Et & -> & -> & ->). rewrite app_nil_r in Et. split.
  - intros (k & Hk & H'). rewrite Ep in H'. apply glob_literal in H' as (u & Eu & Hu); [|done].
    apply (f_equal length) in Eu. rewrite length_drop, length_app in Eu. destruct u; [done|simpl in Eu; lia].
  - intros H'. exists mark. split; [done|]. rewrite Ep, Et. apply glob_literal; [done|].
    exists []. by rewrite app_nil_r.
Qed.

Definition loop_measure (p t : list ascii) (pi mark : nat) : nat :=
  (length t - mark) * (length p + 2) + (length p - pi).

Lemma measure_retry p t pi sp mark :
  mark < length t -> loop_measure p t (sp + 1) (mark + 1) < loop_measure p t pi mark.
Proof.
  intros H. unfold loop_measure. replace (length t - mark) with (S (length t - (mark + 1))) by lia. lia.
Qed.

Lemma measure_step p t pi ti mark :
  mark <= ti -> pi < length p -> loop_measure p t (pi + 1) ti < loop_measure p t pi mark.
Proof.
  intros H Hp. unfold loop_measure.
  pose proof (Nat.mul_le_mono_r (length t - ti) (length t - mark) (length p + 2) ltac:(lia)). lia.
Qed.

(** The loop ends, and its answer is the meaning of the pattern. *)
Lemma match_loop_spec fuel p t pi ti star mark :
  loop_inv p t pi ti star mark -> loop_measure p t pi mark < fuel ->
  exists r, match_loop fuel p t pi ti star mark = Some r /\ (r = true <-> glob p t).
Proof.
  revert pi ti star mark. induction fuel as [|fuel IH]; [lia|]. intros pi ti star mark Hi Hf. cbn [match_loop].
  assert (mark <= ti /\ ti <= length t) as [Hm Hti] by (destruct Hi; tauto).
  destruct (t !! ti) as [c|] eqn:Hc.
  2: { eexists. split; [done|]. by rewrite (inv_end _ _ _ _ _ _ Hi Hc), glob_stars. }
  pose proof (lookup_lt_Some _ _ _ Hc).
  assert (stuck p t pi ti -> exists r,
    match star with
    | Some sp => match_loop fuel p t (sp + 1) (mark + 1) star (mark + 1)
    | None => Some false
    end = Some r /\ (r = true <-> glob p t)) as Hretry.
  { intros Hst. destruct star as [sp|].
    - apply IH; [by eapply inv_retry|]. pose proof (measure_retry p t pi sp mark ltac:(lia)). lia.
    - eexists. split; [done|]. split; [done|]. intros Hg. destruct Hi as (_ & _ & _ & Hn).
      apply Hn in Hg. by destruct (stuck_no _ _ _ _ Hst). }
  destruct (p !! pi) as [a|] eqn:Ha; [|apply Hretry; exists c; auto].
  pose proof (lookup_lt_Some _ _ _ Ha). destruct (is_star a) eqn:Hs.
  - apply IH; [by eapply inv_star|]. pose proof (measure_step p t pi ti mark ltac:(lia) ltac:(lia)). lia.
  - destruct (Ascii.eqb_spec a c) as [->|Hne].
    + apply IH; [by eapply inv_match|]. pose proof (measure_step p t pi mark mark ltac:(lia) ltac:(lia)). lia.
    + apply Hretry. exists c. eauto 6.
Qed.

Lemma match_segment_spec pat seg : match_segment pat seg = true <-> seg_in pat seg.
Proof.
  unfold match_segment, seg_in.
  destruct (match_loop_spec (match_fuel (bytes pat) (bytes seg)) (bytes pat) (bytes seg) 0 0 None 0)
    as (r & -> & Hr); [|unfold loop_measure, match_fuel; lia|exact Hr].
  split; [lia|]. split; [lia|]. split; [lia|]. done.
Qed.

(** ** Matching a path *)

Section Memo.
Context (p s : list string).

Definition tail_in (i j : nat) : Prop := lang is_any seg_in (drop i p) (drop j s).

Definition memo_ok (memo : Memo) : Prop :=
  forall i j r, memo !! (i, j) = Some r -> i <= length p /\ j <= length s /\ (r = true <-> tail_in i j).

Lemma tail_end i j : p !! i = None -> j <= length s -> j = length s <-> tail_in i j.
Proof.
  intros Hi%lookup_ge_None Hj. unfold tail_in. rewrite (drop_ge p) by done. split.
  - intros ->. rewrite drop_all. constructor.
  - inversion 1 as [E| | |]. symmetry in E. by apply drop_nil_inv.
Qed.

Lemma tail_any i j x :
  p !! i = Some x -> is_any x = true ->
  tail_in i j <-> tail_in (i + 1) j \/ j < length s /\ tail_in i (j + 1).
Proof.
  intros Hx Wx. unfold tail_in. rewrite (drop_at p i x Hx). split.
  - destruct (drop j s) as [|c u] eqn:Es; inversion 1; simplify_eq; auto; [congruence|right].
    apply drop_cons_inv in Es as [Hc ->]. split; [by eapply lookup_lt_Some|done].
  - intros [H|[Hj H]]; [by apply lang_skip|].
    destruct (lookup_lt_is_Some_2 s j Hj) as [c Hc]. rewrite (drop_at s j c Hc). by apply lang_eat.
Qed.

Lemma tail_seg i j x :
  p !! i = Some x -> is_any x = false ->
  tail_in i j <-> exists c, s !! j = Some c /\ seg_in x c /\ tail_in (i + 1) (j + 1).
Proof.
  intros Hx Wx. unfold tail_in. rewrite (drop_at p i x Hx). split.
  - destruct (drop j s) as [|c u] eqn:Es; inversion 1; simplify_eq; try congruence.
    apply drop_cons_inv in Es as [Hs ->]. by exists c.
  - intros (c & Hc & Hx' & H). rewrite (drop_at s j c Hc). by apply lang_tok.
Qed.

Definition frame (n : nat) (memo memo' : Memo) : Prop := forall k, k.1 + k.2 < n -> memo' !! k = memo !! k.

(** What a call promises: the answer, a sound memo, as much work as new entries
    of the memo, and no change below its own position. *)
Definition go_post (i j : nat) (memo : Memo) (work : N) (out : bool * Memo * N) : Prop :=
  let '(r, memo', work') := out in
  (r = true <-> tail_in i j) /\ memo_ok memo' /\ (work' + N.of_nat (size memo) = work + N.of_nat (size memo'))%N /\
  frame (i + j) memo memo'.

Lemma memo_size memo : memo_ok memo -> size memo <= (length p + 1) * (length s + 1).
Proof.
  intros Hm. rewrite <- size_dom, <- grid_length. unfold size, set_size. simpl.
  apply submseteq_length, elements_grid. intros [i j] [r Hr]%elem_of_dom. apply elem_of_grid.
  by destruct (Hm i j r Hr) as (? & ? & _).
Qed.

(** The end of a call: its answer goes to the memo. *)
Lemma go_insert i j memo memo1 work work1 (r : bool) :
  i <= length p -> j <= length s -> memo !! (i, j) = None -> memo_ok memo1 ->
  (r = true <-> tail_in i j) -> (work1 + N.of_nat (size memo) = work + 1 + N.of_nat (size memo1))%N ->
  frame (i + j + 1) memo memo1 ->
  go_post i j memo work (r, <[(i, j) := r]> memo1, work1).
Proof.
  intros Hi Hj Hn Hm Hr Hw Hf. split; [done|]. split; [|split].
  - intros i' j' r'. destruct (decide ((i, j) = (i', j'))) as [[= <- <-]|Hne].
    + rewrite lookup_insert_eq. by intros [= <-].
    + rewrite lookup_insert_ne by done. apply Hm.
  - rewrite map_size_insert_None; [lia|]. rewrite Hf; [done|simpl; lia].
  - intros k Hk. rewrite lookup_insert_ne by (intros <-; simpl in Hk; lia). apply Hf. lia.
Qed.

Lemma frame_trans n m memo memo1 memo2 : n <= m -> frame n memo memo1 -> frame m memo1 memo2 -> frame n memo memo2.
Proof. intros Hnm H1 H2 k Hk. rewrite H2 by lia. by apply H1. Qed.

Lemma frame_refl n memo : frame n memo memo.
Proof. by intros k _. Qed.

Hypothesis small : (N.of_nat ((length p + 1) * (length s + 1) + length p + length s) < MAX_PAIR_MATCH_WORK)%N.

(** Ends a call, leaving the meaning of its answer. *)
Ltac go_done := apply go_insert; try (done || lia || apply frame_refl).

Lemma go_spec fuel i j memo work :
  i <= length p -> j <= length s -> (length p - i) + (length s - j) < fuel ->
  memo_ok memo -> (work <= N.of_nat (size memo + i + j))%N ->
  go_post i j memo work (go fuel p s i j memo work).
Proof.
  revert i j memo work. induction fuel as [|fuel IH]; [lia|]. intros i j memo work Hi Hj Hf Hm Hw. cbn [go].
  destruct (memo !! (i, j)) as [r|] eqn:Hk.
  { destruct (Hm i j r Hk) as (_ & _ & Hr). split; [done|]. split; [done|]. split; [done|]. apply frame_refl. }
  pose proof (memo_size memo Hm). destruct (N.leb_spec MAX_PAIR_MATCH_WORK work); [lia|].
  destruct (p !! i) as [x|] eqn:Hx.
  2: { go_done. rewrite <- tail_end by done. apply Nat.eqb_eq. }
  pose proof (lookup_lt_Some _ _ _ Hx). fold (is_any x). destruct (is_any x) eqn:Wx.
  - pose proof (tail_any i j x Hx Wx) as Ht.
    pose proof (IH (i + 1) j memo (work + 1)%N ltac:(lia) Hj ltac:(lia) Hm ltac:(lia)) as G1.
    destruct (go fuel p s (i + 1) j memo (work + 1)) as [[r1 memo1] work1]. destruct G1 as (Hr1 & Hm1 & Hw1 & Hf1).
    replace (i + 1 + j) with (i + j + 1) in Hf1 by lia.
    destruct r1; [go_done; rewrite Ht; tauto|].
    destruct (Nat.ltb_spec j (length s)) as [Hlt|Hge].
    + pose proof (IH i (j + 1) memo1 work1 Hi ltac:(lia) ltac:(lia) Hm1 ltac:(lia)) as G2.
      destruct (go fuel p s i (j + 1) memo1 work1) as [[r2 memo2] work2]. destruct G2 as (Hr2 & Hm2 & Hw2 & Hf2).
      go_done; [|eapply frame_trans; [|exact Hf1|exact Hf2]; lia].
      rewrite Ht, Hr2, <- Hr1. intuition (done || lia).
    + go_done. rewrite Ht, <- Hr1. intuition (done || lia).
  - pose proof (tail_seg i j x Hx Wx) as Ht. destruct (s !! j) as [seg|] eqn:Hs.
    2: { go_done. rewrite Ht. split; [done|]. by intros (c & ? & _). }
    pose proof (lookup_lt_Some _ _ _ Hs). pose proof (match_segment_spec x seg) as Hseg.
    destruct (match_segment x seg).
    + pose proof (IH (i + 1) (j + 1) memo (work + 1)%N ltac:(lia) ltac:(lia) ltac:(lia) Hm ltac:(lia)) as G2.
      destruct (go fuel p s (i + 1) (j + 1) memo (work + 1)) as [[r2 memo2] work2]. destruct G2 as (Hr2 & Hm2 & Hw2 & Hf2).
      go_done; [|intros k Hlt; apply Hf2; lia].
      rewrite Hr2, Ht. split; [|by intros (? & ? & ? & ?)]. intros Htail. exists seg. by rewrite <- Hseg.
    + go_done. rewrite Ht. split; [done|]. intros (c & [= <-] & Hc & _). by apply Hseg.
Qed.
End Memo.

Lemma match_segments_spec p s :
  length p <= 32 -> length s <= 32 -> match_segments p s = true <-> lang is_any seg_in p s.
Proof.
  intros Hp Hs. unfold match_segments.
  assert ((N.of_nat ((length p + 1) * (length s + 1) + length p + length s) < MAX_PAIR_MATCH_WORK)%N) as Hsmall.
  { pose proof (Nat.mul_le_mono (length p + 1) 33 (length s + 1) 33 ltac:(lia) ltac:(lia)).
    unfold MAX_PAIR_MATCH_WORK. lia. }
  pose proof (go_spec p s Hsmall (length p + length s + 1) 0 0 ∅ 0%N ltac:(lia) ltac:(lia) ltac:(lia)) as H.
  destruct (go _ _ _ _ _ _ _) as [[r memo] work]. by apply H.
Qed.

(** C37. [glob_match] decides the meaning of a pattern, for every pattern and
    path: it answers yes exactly when the pattern is canonical, the path is
    within its limits and the path is one the pattern matches.  The work limit
    is never what decides. *)
Theorem glob_match_correct pattern path :
  glob_match pattern path = true <->
  canonical_pattern pattern = true /\ String.length path <= MAX_PATTERN_BYTES * MAX_SEGMENTS /\
  length (split_char "/" path) <= MAX_SEGMENTS /\ path_in pattern path.
Proof.
  unfold glob_match. destruct (canonical_pattern pattern) eqn:Hc; [|rewrite orb_true_r; naive_solver].
  pose proof (canonical_bounds _ Hc) as [Hb Hs].
  destruct (Nat.ltb_spec MAX_PATTERN_BYTES (String.length pattern)) as [Hl|_];
    [by apply Nat.lt_nge in Hl|].
  destruct (Nat.ltb_spec (MAX_PATTERN_BYTES * MAX_SEGMENTS) (String.length path)); cbn [negb orb].
  { split; [done|]. intros (_ & ? & _). lia. }
  destruct (Nat.ltb_spec MAX_SEGMENTS (length (split_char "/" path))) as [Hn|Hn].
  { split; [done|]. intros (_ & _ & ? & _). lia. }
  rewrite match_segments_spec by done. unfold path_in. tauto.
Qed.

(** C22. Two canonical patterns are compared in at most [pair_cost] steps, fewer
    than the limit of a pair; while the request has that much left the answer is
    there, and it is yes exactly when some path of the one is, up to case, a
    path of the other. *)
Theorem patterns_intersect_decides a b total :
  canonical_pattern a = true -> canonical_pattern b = true ->
  (total + N.of_nat pair_cost <= MAX_TOTAL_MATCH_WORK)%N ->
  exists r total', patterns_intersect a b total = Ok (r, total') /\
    (total' <= total + N.of_nat pair_cost)%N /\
    (r = true <-> exists x y, path_in a x /\ path_in b y /\ to_ascii_lowercase x = to_ascii_lowercase y).
Proof.
  intros Ha Hb Ht. pose proof (patterns_intersect_spec a b total) as H.
  destruct (patterns_intersect a b total) as [[r total']|[]].
  - exists r, total'. destruct H as (_ & _ & [_ ?] & ?). done.
  - lia.
  - by rewrite Ha, Hb in H.
Qed.

Lemma patterns_intersect_decides_witness :
  exists r total', patterns_intersect "src/**/A*.rs" "SRC/db/*.rs" 0 = Ok (r, total') /\
    (total' <= 0 + N.of_nat pair_cost)%N /\
    (r = true <-> exists x y, path_in "src/**/A*.rs" x /\ path_in "SRC/db/*.rs" y /\
      to_ascii_lowercase x = to_ascii_lowercase y).
Proof. apply patterns_intersect_decides; [reflexivity..|]. vm_compute. discriminate. Defined.

Example patterns_intersect_yes : exists w, patterns_intersect "src/**/A*.rs" "SRC/db/*.rs" 0 = Ok (true, w).
Proof. eexists. vm_compute. reflexivity. Qed.

Example patterns_intersect_no : exists w, patterns_intersect "src/*/a.rs" "src/**/b*.rs" 0 = Ok (false, w).
Proof. eexists. vm_compute. reflexivity. Qed.
