(* ===== verification/ChunkScope.v ===== *)
(** * Chunk scopes

    The rest of thegn-core/src/pipeline_chunk.rs: the frontmatter a chunk file
    declares its scope in, the index that resolves the chunks a scope must come
    after, and the verdict on a new scope against the active ones. *)
From Stdlib Require Import Ascii String.
From S2P Require Import Prelude RustOrd RustStr RustText Pipeline Image Glob GlobProps GlobSpec.
Local Open Scope string_scope.
Local Open Scope list_scope.

Definition MAX_PATTERNS : nat := 64.
Definition MAX_FRONTMATTER_LINES : N := 8192.

Record ChunkScope := mkChunkScope { files : list string; overlaps : list string; after : list string }.
Definition ChunkScope_default : ChunkScope := mkChunkScope [] [] [].

Record ParseError := mkParseError { line : nat; message : string }.

(** ** The frontmatter *)

Inductive Key := KFiles | KOverlaps | KAfter.

Definition key_of (s : string) : option Key :=
  if String.eqb s "files" then Some KFiles
  else if String.eqb s "overlaps" then Some KOverlaps
  else if String.eqb s "after" then Some KAfter
  else None.

Definition list_of (k : Key) (s : ChunkScope) : list string :=
  match k with KFiles => files s | KOverlaps => overlaps s | KAfter => after s end.

Definition set_list (k : Key) (l : list string) (s : ChunkScope) : ChunkScope :=
  match k with
  | KFiles => mkChunkScope l (overlaps s) (after s)
  | KOverlaps => mkChunkScope (files s) l (after s)
  | KAfter => mkChunkScope (files s) (overlaps s) l
  end.

(** [seen], by slot. *)
Record Seen := mkSeen { seen_files : bool; seen_overlaps : bool; seen_after : bool }.

Definition seen_get (k : Key) (s : Seen) : bool :=
  match k with KFiles => seen_files s | KOverlaps => seen_overlaps s | KAfter => seen_after s end.

Definition seen_set (k : Key) (s : Seen) : Seen :=
  match k with
  | KFiles => mkSeen true (seen_overlaps s) (seen_after s)
  | KOverlaps => mkSeen (seen_files s) true (seen_after s)
  | KAfter => mkSeen (seen_files s) (seen_overlaps s) true
  end.

Definition is_files (k : Key) : bool := match k with KFiles => true | _ => false end.

Definition canonicalize_file_pattern (pattern : string) (lineno : nat) : result ParseError string :=
  match canonical_repo_relative_path pattern with
  | Some p => Ok p
  | None => Err (mkParseError lineno ("unsupported or non-canonical file pattern `" ++ pattern ++ "`")%string)
  end.

(** One item onto its list: how each of the three places that add items does it. *)
Definition push_item (lineno : nat) (k : Key) (item : string) (scope : ChunkScope)
    : result ParseError ChunkScope :=
  if is_files k && (MAX_PATTERNS <=? length (list_of k scope))%nat then
    Err (mkParseError lineno "files scope exceeds 64 patterns")
  else
    let? item := (if is_files k then canonicalize_file_pattern item lineno else Ok item) in
    Ok (set_list k (list_of k scope ++ [item]) scope).

Fixpoint push_items (lineno : nat) (k : Key) (items : list string) (scope : ChunkScope)
    : result ParseError ChunkScope :=
  match items with
  | [] => Ok scope
  | item :: items => let? scope := push_item lineno k item scope in push_items lineno k items scope
  end.

Definition inline_items (s : string) : list string :=
  List.filter (fun i => negb (is_empty i)) (map trim (split_char "," s)).

(** The lines after the opening fence. *)
Fixpoint parse_lines (lineno : nat) (ls : list string) (scope : ChunkScope) (seen : Seen) (current : option Key)
    : result ParseError ChunkScope :=
  match ls with
  | [] => Err (mkParseError 1 "frontmatter block opens with `---` but is never closed")
  | raw :: ls =>
      let trimmed := trim raw in
      if String.eqb trimmed "---" then Ok scope
      else if is_empty trimmed then parse_lines (lineno + 1) ls scope seen current
      else
        match strip_prefix "-" trimmed with
        | Some rest =>
            let item := trim rest in
            match current with
            | Some key =>
                if is_empty item then parse_lines (lineno + 1) ls scope seen current
                else
                  let? scope := push_item lineno key item scope in
                  parse_lines (lineno + 1) ls scope seen current
            | None => parse_lines (lineno + 1) ls scope seen current
            end
        | None =>
            match split_once ":" raw with
            | None => parse_lines (lineno + 1) ls scope seen None
            | Some (key, value) =>
                let key := trim key in
                let value := trim value in
                match key_of key with
                | None => parse_lines (lineno + 1) ls scope seen None
                | Some k =>
                    if seen_get k seen then
                      Err (mkParseError lineno ("duplicate `" ++ key ++ ":` key — a scope is declared once")%string)
                    else
                      let seen := seen_set k seen in
                      if is_empty value then parse_lines (lineno + 1) ls scope seen (Some k)
                      else
                        match strip_prefix "[" value with
                        | Some inner =>
                            match strip_suffix "]" inner with
                            | None => Err (mkParseError lineno "inline list `[…]` is not closed on this line")
                            | Some items =>
                                let? scope := push_items lineno k (inline_items items) scope in
                                parse_lines (lineno + 1) ls scope seen None
                            end
                        | None =>
                            let? scope := push_item lineno k value scope in
                            parse_lines (lineno + 1) ls scope seen None
                        end
                end
            end
        end
  end.

Definition line_count (md : string) : nat :=
  length (List.filter (fun b => Ascii.eqb b newline) (bytes md)) +
  (if negb (is_empty md) && negb (ends_with newline md) then 1 else 0).

Definition parse_frontmatter (md : string) : result ParseError ChunkScope :=
  if (1024 * 1024 <? N.of_nat (String.length md))%N || (MAX_FRONTMATTER_LINES <? N.of_nat (line_count md))%N then
    Err (mkParseError 1 "chunk frontmatter exceeds the byte or line limit")
  else
    match lines md with
    | first :: ls =>
        if String.eqb (trim first) "---" then parse_lines 2 ls ChunkScope_default (mkSeen false false false) None
        else Ok ChunkScope_default
    | [] => Ok ChunkScope_default
    end.

(** ** The overlap of two scopes *)

(** [patterns_intersect] of every pair, the work counted across them. *)
Fixpoint overlap_row (pa : string) (b : list string) (work : N) : result MatchError (list (string * string) * N) :=
  match b with
  | [] => Ok ([], work)
  | pb :: b =>
      if (MAX_PATTERN_BYTES <? String.length pa)%nat || (MAX_PATTERN_BYTES <? String.length pb)%nat then Err OverBudget
      else
        let? rw := patterns_intersect pa pb work in
        let '(r, work) := rw in
        let? pw := overlap_row pa b work in
        let '(pairs, work) := pw in
        Ok ((if r : bool then [(pa, pb)] else []) ++ pairs, work)
  end.

Fixpoint overlap_rows (a b : list string) (work : N) : result MatchError (list (string * string) * N) :=
  match a with
  | [] => Ok ([], work)
  | pa :: a =>
      let? pw := overlap_row pa b work in
      let '(pairs, work) := pw in
      let? qw := overlap_rows a b work in
      let '(pairs', work) := qw in
      Ok (pairs ++ pairs', work)
  end.

Definition paths_overlap_with_work (a b : list string) (work : N) : result MatchError (list (string * string) * N) :=
  if (MAX_PATTERNS <? length a)%nat || (MAX_PATTERNS <? length b)%nat then Err OverBudget
  else overlap_rows a b work.

Definition paths_overlap (a b : list string) : result MatchError (list (string * string)) :=
  let? pw := paths_overlap_with_work a b 0 in Ok (fst pw).

(** ** Coming after *)

Definition after_unmet (after : list string) (done : gset string) : list string :=
  fold_left (fun unmet name =>
    if bool_decide (name ∈ done) || bool_decide (name ∈ unmet) then unmet else unmet ++ [name]) after [].

Record AfterCandidate := mkAfterCandidate { ac_row : Z; ac_path : string; ac_status : AgentDispatchStatus }.

(** [Path::file_name]: the last component, if it is a name.  Empty components
    and `.` are no components of a path. *)
Definition file_name (path : string) : option string :=
  match last (List.filter (fun s => negb (is_empty s || String.eqb s ".")) (split_char "/" path)) with
  | Some n => if String.eqb n ".." then None else Some n
  | None => None
  end.

(** [Path::file_stem]: the name up to its last dot, unless that dot begins it. *)
Definition file_stem (path : string) : option string :=
  match file_name path with
  | Some n =>
      match rfind "." n with
      | Some (S k) => Some (str_take (S k) n)
      | _ => Some n
      end
  | None => None
  end.

Definition candidate_name (c : AfterCandidate) : option string :=
  match file_stem (ac_path c) with
  | Some n => if is_empty n then None else Some n
  | None => None
  end.

Record AfterIndex := mkAfterIndex {
  ai_done : gset string;
  governing : gmap string (Z * AgentDispatchStatus);
  ambiguous : gmap string (list (Z * string));
}.

(** [by_name]: the candidates of each name, in order. *)
Definition by_name (candidates : list AfterCandidate) : gmap string (list AfterCandidate) :=
  fold_left (fun m c =>
    match candidate_name c with
    | Some n => <[n := default [] (m !! n) ++ [c]]> m
    | None => m
    end) candidates ∅.

(** [max_by_key]: of several maximal elements, the last. *)
Definition max_by_row (l : list AfterCandidate) : option AfterCandidate :=
  fold_left (fun best c =>
    match best with
    | Some b => if (ac_row b <=? ac_row c)%Z then Some c else Some b
    | None => Some c
    end) l None.

Definition finished (s : AgentDispatchStatus) : bool := match s with Done | Merged => true | _ => false end.

(** What the attempts of one name put in the index. *)
Definition index_name (index : AfterIndex) (entry : string * list AfterCandidate) : AfterIndex :=
  let '(name, attempts) := entry in
  if (1 <? size (list_to_set (map ac_path attempts) : gset string))%nat then
    mkAfterIndex (ai_done index) (governing index)
      (<[name := sort_by (on fst Z.compare) (map (fun c => (ac_row c, ac_path c)) attempts)]> (ambiguous index))
  else
    match max_by_row attempts with
    | Some g =>
        mkAfterIndex (if finished (ac_status g) then {[name]} ∪ ai_done index else ai_done index)
          (<[name := (ac_row g, ac_status g)]> (governing index)) (ambiguous index)
    | None => index
    end.

Definition after_index (candidates : list AfterCandidate) : AfterIndex :=
  fold_left index_name (map_to_list (by_name candidates)) (mkAfterIndex ∅ ∅ ∅).

(** ** The verdict *)

Record ActiveScope := mkActiveScope { as_row : Z; as_name : string; as_files : list string }.

Inductive ScopeVerdict :=
| VOk
| Conflict (overlaps : list (nat * list (string * string)))
| UnmetAfter (unmet : list string)
| Unknown (e : MatchError).

(** The loop over the active siblings, from index [i]. *)
Fixpoint collisions (new : ChunkScope) (active : list ActiveScope) (i : nat) (work : N)
    : result MatchError (list (nat * list (string * string)) * N) :=
  match active with
  | [] => Ok ([], work)
  | sib :: active =>
      if existsb (fun o => String.eqb o (as_name sib)) (overlaps new) then collisions new active (i + 1) work
      else
        let? pw := paths_overlap_with_work (files new) (as_files sib) work in
        let '(pairs, work) := pw in
        let? rw := collisions new active (i + 1) work in
        let '(rest, work) := rw in
        Ok ((match pairs with [] => [] | _ => [(i, pairs)] end) ++ rest, work)
  end.

Definition verdict (new : ChunkScope) (active : list ActiveScope) (done : gset string) : ScopeVerdict :=
  match collisions new active 0 0 with
  | Err e => Unknown e
  | Ok (((_ :: _) as found), _) => Conflict found
  | Ok ([], _) =>
      match after_unmet (after new) done with
      | [] => VOk
      | unmet => UnmetAfter unmet
      end
  end.
