(* ===== verification/ChunkProps.v ===== *)
(** * Correctness of the chunk gate

    What a parsed scope holds, what the index of earlier chunks resolves, and
    that the verdict lets a scope through only when it shares no path with an
    active sibling it is not blessed for. *)
From Stdlib Require Import Ascii String.
From S2P Require Import Prelude RustOrd RustStr RustText Pipeline Image Glob GlobProps GlobSpec ChunkScope.
Local Open Scope string_scope.
Local Open Scope list_scope.

(** ** Parsed scopes *)

Lemma strip_prefix_length p s t : strip_prefix p s = Some t -> String.length t <= String.length s.
Proof. intros ->%strip_prefix_Some. rewrite length_app_str. lia. Qed.

Lemma canonical_not_dot_slash q :
  existsb bad_segment (split_char "/" q) = false -> strip_prefix "./" q = None.
Proof.
  intros H. destruct (strip_prefix "./" q) as [r|] eqn:E; [|done]. apply strip_prefix_Some in E as ->. exfalso.
  change ("./" ++ r)%string with (String "." (String "/" r)) in H. simpl in H. done.
Qed.

(** What the canonicaliser returns is canonical. *)
Lemma canonical_idempotent p q : canonical_repo_relative_path p = Some q -> canonical_pattern q = true.
Proof.
  unfold canonical_pattern, canonical_repo_relative_path.
  destruct (Nat.ltb_spec MAX_PATTERN_BYTES (String.length p)) as [|Hl]; [done|].
  set (n := default p (strip_prefix "./" p)).
  assert (String.length n <= String.length p) as Hn.
  { unfold n. destruct (strip_prefix "./" p) eqn:E; simpl; [by eapply strip_prefix_length|lia]. }
  destruct (_ || existsb bad_segment (split_char "/" n)) eqn:E; [done|]. intros [= <-].
  pose proof E as Hb. apply orb_false_iff in Hb as [_ Hb].
  destruct (Nat.ltb_spec MAX_PATTERN_BYTES (String.length n)); [lia|].
  rewrite (canonical_not_dot_slash n Hb). simpl default. rewrite E. apply String.eqb_refl.
Qed.

(** The type of a parsed scope. *)
Definition scope_ok (s : ChunkScope) : Prop :=
  Forall (fun p => canonical_pattern p = true) (files s) /\ length (files s) <= MAX_PATTERNS.

Lemma push_item_ok lineno k item s s' :
  push_item lineno k item s = Ok s' -> scope_ok s -> scope_ok s'.
Proof.
  unfold push_item. intros H [Hf Hl]. destruct k; cbn [is_files list_of andb] in H.
  - destruct (Nat.leb_spec MAX_PATTERNS (length (files s))); [done|].
    unfold canonicalize_file_pattern in H. destruct (canonical_repo_relative_path item) as [q|] eqn:E; [|done].
    simplify_eq/=. split; simpl.
    + apply Forall_app. split; [done|]. constructor; [|done]. by eapply canonical_idempotent.
    + rewrite length_app. simpl. lia.
  - simplify_eq/=. done.
  - simplify_eq/=. done.
Qed.

Lemma push_items_ok lineno k items s s' :
  push_items lineno k items s = Ok s' -> scope_ok s -> scope_ok s'.
Proof.
  revert s. induction items as [|i items IH]; intros s H Hs; simpl in H; [by simplify_eq|].
  destruct (push_item lineno k i s) as [s1|] eqn:E; [|done]. simpl in H. apply (IH s1); [done|]. by eapply push_item_ok.
Qed.

Lemma parse_lines_ok ls lineno s seen cur s' :
  parse_lines lineno ls s seen cur = Ok s' -> scope_ok s -> scope_ok s'.
Proof.
  revert lineno s seen cur. induction ls as [|raw ls IH]; intros lineno s seen cur; [done|]. cbn [parse_lines].
  intros H Hs.
  repeat (case_match; try done; try (by eapply IH); try (by injection H as <-));
    match goal with
    | H : rbind ?m _ = Ok _ |- _ => destruct m as [?|] eqn:?; cbn [rbind] in H; [|done];
        eapply IH; [exact H|]; eauto using push_item_ok, push_items_ok
    end.
Qed.

Lemma parse_frontmatter_ok md s : parse_frontmatter md = Ok s -> scope_ok s.
Proof.
  assert (scope_ok ChunkScope_default) as Hd by (split; [constructor|simpl; lia]).
  unfold parse_frontmatter. case_match; [done|]. destruct (lines md) as [|first ls]; [by intros [= <-]|].
  case_match; [|by intros [= <-]]. intros H'. by eapply parse_lines_ok.
Qed.

(** ** The verdict *)

(** Two patterns with a path in common, up to case. *)
Definition meet (a b : string) : Prop :=
  exists x y, path_in a x /\ path_in b y /\ to_ascii_lowercase x = to_ascii_lowercase y.

(** What a scan of [n] pairs drawn from [pats] promises of its result. *)
Definition scanned (pats : list string) (excess : Prop) (work : N) (n : nat) {A} (good : A -> Prop)
    (res : result MatchError (A * N)) : Prop :=
  match res with
  | Ok (v, work') => (work' <= work + N.of_nat n * N.of_nat pair_cost)%N /\ good v
  | Err UnsupportedPattern => exists p, p ∈ pats /\ canonical_pattern p = false
  | Err OverBudget =>
      excess \/ (exists p, p ∈ pats /\ MAX_PATTERN_BYTES < String.length p) \/
      (MAX_TOTAL_MATCH_WORK < work + N.of_nat n * N.of_nat pair_cost)%N
  end.

Lemma scanned_bind pats excess work n n' {A B} (good : A -> Prop) (good' : B -> Prop) m k :
  scanned pats excess work n good m ->
  (forall v work', good v -> scanned pats excess work' n' good' (k (v, work'))) ->
  scanned pats excess work (n + n') good' (rbind m k).
Proof.
  intros Hm Hk. destruct m as [[v w1]|[]]; cbn [rbind].
  - destruct Hm as [Hw Hv]. specialize (Hk v w1 Hv). destruct (k (v, w1)) as [[v' w2]|[]]; unfold scanned in *.
    + destruct Hk. split; [lia|done].
    + destruct Hk as [?|[?|?]]; [by left|right; by left|right; right; lia].
    + done.
  - unfold scanned in *. destruct Hm as [?|[?|?]]; [by left|right; by left|right; right; lia].
  - done.
Qed.

Lemma scanned_imp pats excess work n n' {A} (good good' : A -> Prop) res :
  n <= n' -> (forall v, good v -> good' v) -> scanned pats excess work n good res -> scanned pats excess work n' good' res.
Proof.
  intros Hn Hg. pose proof (N.mul_le_mono_r (N.of_nat n) (N.of_nat n') (N.of_nat pair_cost) ltac:(lia)).
  destruct res as [[v w]|[]]; unfold scanned; [intros [? ?]; split; [lia|auto]| |done].
  intros [?|[?|?]]; [by left|right; by left|right; right; lia].
Qed.

Lemma patterns_scanned pats excess a b work :
  a ∈ pats -> b ∈ pats ->
  scanned pats excess work 1 (fun r : bool => r = true <-> meet a b) (patterns_intersect a b work).
Proof.
  intros Ha Hb. pose proof (patterns_intersect_spec a b work) as H.
  destruct (patterns_intersect a b work) as [[r w]|[]]; unfold scanned.
  - destruct H as (_ & _ & [_ ?] & Hr). split; [lia|exact Hr].
  - right. right. lia.
  - destruct (canonical_pattern a) eqn:Ea; [exists b|exists a]; by rewrite ?Ea in H.
Qed.

Definition pairs_of (a b : list string) (pairs : list (string * string)) : Prop :=
  forall x y, (x, y) ∈ pairs <-> x ∈ a /\ y ∈ b /\ meet x y.

Lemma overlap_row_scanned pats excess pa b work :
  pa ∈ pats -> (forall y, y ∈ b -> y ∈ pats) ->
  scanned pats excess work (length b) (pairs_of [pa] b) (overlap_row pa b work).
Proof.
  intros Ha. revert work. induction b as [|pb b IH]; intros work Hb.
  { split; [lia|]. intros x y. set_solver. }
  cbn [overlap_row length].
  destruct (Nat.ltb_spec MAX_PATTERN_BYTES (String.length pa)); [right; left; exists pa; auto|].
  destruct (Nat.ltb_spec MAX_PATTERN_BYTES (String.length pb)); [right; left; exists pb; split; [set_solver|done]|].
  cbn [orb]. apply (scanned_bind _ _ _ 1 (length b) (fun r : bool => r = true <-> meet pa pb)).
  { apply patterns_scanned; set_solver. }
  intros r w1 Hr. rewrite <- (Nat.add_0_r (length b)).
  eapply scanned_bind; [apply IH; set_solver|]. intros pairs w2 Hp. split; [lia|]. intros x y.
  rewrite elem_of_app, (Hp x y). destruct r; [|set_solver]. set_solver.
Qed.

Lemma overlap_rows_scanned pats excess a b work :
  (forall x, x ∈ a -> x ∈ pats) -> (forall y, y ∈ b -> y ∈ pats) ->
  scanned pats excess work (length a * length b) (pairs_of a b) (overlap_rows a b work).
Proof.
  revert work. induction a as [|pa a IH]; intros work Ha Hb.
  { split; [lia|]. intros x y. set_solver. }
  cbn [overlap_rows length]. eapply scanned_bind; [apply overlap_row_scanned; set_solver|].
  intros p1 w1 H1. rewrite <- (Nat.add_0_r (_ * _)).
  eapply scanned_bind; [apply IH; set_solver|]. intros p2 w2 H2. split; [lia|]. intros x y.
  rewrite elem_of_app, (H1 x y), (H2 x y). set_solver.
Qed.

Definition blessed (new : ChunkScope) (sib : ActiveScope) : Prop := as_name sib ∈ overlaps new.

Lemma blessed_spec new sib :
  existsb (fun o => String.eqb o (as_name sib)) (overlaps new) = true <-> blessed new sib.
Proof.
  unfold blessed. rewrite existsb_exists. setoid_rewrite String.eqb_eq. setoid_rewrite <- list_elem_of_In.
  split; [by intros (o & ? & <-)|eauto].
Qed.

(** A path of the new scope and of an active sibling it is not blessed for. *)
Definition collides (new : ChunkScope) (sib : ActiveScope) : Prop :=
  ~ blessed new sib /\ exists x y, x ∈ files new /\ y ∈ as_files sib /\ meet x y.

Definition pair_count (new : ChunkScope) (active : list ActiveScope) : nat :=
  sum_list_with (fun sib => length (files new) * length (as_files sib)) active.

Definition patterns_of (new : ChunkScope) (active : list ActiveScope) : list string :=
  files new ++ concat (map as_files active).

(** A scope of more patterns than a scope may have. *)
Definition oversized (new : ChunkScope) (active : list ActiveScope) : Prop :=
  MAX_PATTERNS < length (files new) \/ exists sib, sib ∈ active /\ MAX_PATTERNS < length (as_files sib).

Definition found_at (new : ChunkScope) (active : list ActiveScope) (i : nat)
    (found : list (nat * list (string * string))) : Prop :=
  (forall k pairs, (k, pairs) ∈ found -> i <= k /\ pairs <> [] /\
     exists sib, active !! (k - i) = Some sib /\ ~ blessed new sib /\ pairs_of (files new) (as_files sib) pairs) /\
  (forall k sib, active !! k = Some sib -> collides new sib -> exists pairs, (i + k, pairs) ∈ found).

Lemma found_skip new sib active i found :
  ~ collides new sib -> found_at new active (i + 1) found -> found_at new (sib :: active) i found.
Proof.
  intros Hn [H1 H2]. split.
  - intros k pairs Hk. destruct (H1 k pairs Hk) as (Hi & Hne & s & Hs & Hb). split; [lia|]. split; [done|].
    exists s. replace (k - i) with (S (k - (i + 1))) by lia. done.
  - intros [|k] s Hs Hc; [simpl in Hs; simplify_eq; done|]. destruct (H2 k s Hs Hc) as [pairs Hp].
    exists pairs. by replace (i + S k) with (i + 1 + k) by lia.
Qed.

Lemma found_here new sib active i found pairs :
  ~ blessed new sib -> pairs <> [] -> pairs_of (files new) (as_files sib) pairs ->
  found_at new active (i + 1) found -> found_at new (sib :: active) i ((i, pairs) :: found).
Proof.
  intros Hb Hne Hp [H1 H2]. split.
  - intros k ps [[= -> ->]|Hk]%elem_of_cons.
    + rewrite Nat.sub_diag. eauto 6.
    + destruct (H1 k ps Hk) as (Hi & Hne' & s & Hs & Hrest). split; [lia|]. split; [done|].
      exists s. replace (k - i) with (S (k - (i + 1))) by lia. done.
  - intros [|k] s Hs Hc.
    + rewrite Nat.add_0_r. exists pairs. set_solver.
    + destruct (H2 k s Hs Hc) as [ps Hps]. exists ps. replace (i + S k) with (i + 1 + k) by lia. set_solver.
Qed.

Lemma overlap_scanned pats (excess : Prop) a b work :
  (forall x, x ∈ a -> x ∈ pats) -> (forall y, y ∈ b -> y ∈ pats) ->
  (MAX_PATTERNS < length a \/ MAX_PATTERNS < length b -> excess) ->
  scanned pats excess work (length a * length b) (pairs_of a b) (paths_overlap_with_work a b work).
Proof.
  intros Ha Hb He. unfold paths_overlap_with_work.
  destruct (Nat.ltb_spec MAX_PATTERNS (length a)); [by left; apply He; left|].
  destruct (Nat.ltb_spec MAX_PATTERNS (length b)); [by left; apply He; right|].
  by apply overlap_rows_scanned.
Qed.

Lemma collisions_scanned pats (excess : Prop) new active i work :
  (forall x, x ∈ patterns_of new active -> x ∈ pats) -> (oversized new active -> excess) ->
  scanned pats excess work (pair_count new active) (found_at new active i) (collisions new active i work).
Proof.
  revert i work. induction active as [|sib active IH]; intros i work Hp He.
  { split; [lia|]. split; [set_solver|done]. }
  cbn [collisions]. unfold patterns_of in Hp. simpl in Hp.
  assert (forall i work, scanned pats excess work (pair_count new active) (found_at new active i)
    (collisions new active i work)) as Hrest.
  { intros. apply IH; [unfold patterns_of; set_solver|]. intros [?|(s & ? & ?)]; apply He; [by left|].
    right. exists s. split; [set_solver|done]. }
  destruct (existsb _ _) eqn:Hb.
  - apply blessed_spec in Hb. eapply scanned_imp; [..|apply Hrest]; [unfold pair_count; simpl; lia|].
    intros found. apply found_skip. intros [? _]. done.
  - assert (~ blessed new sib) as Hnb by (rewrite <- blessed_spec, Hb; done).
    eapply (scanned_bind _ _ _ (length (files new) * length (as_files sib)) (pair_count new active)).
    { apply overlap_scanned; [set_solver..|]. intros [?|?]; apply He; [by left|]. right. exists sib. set_solver. }
    intros pairs w1 Hpairs. rewrite <- (Nat.add_0_r (pair_count new active)).
    eapply scanned_bind; [apply Hrest|]. intros found w2 Hf. split; [lia|].
    destruct pairs as [|pr pairs]; [|by apply found_here].
    apply found_skip; [|done]. intros (_ & x & y & Hx & Hy & Hm). 
    by apply (not_elem_of_nil (x, y)), Hpairs.
Qed.

Lemma after_unmet_spec after done :
  NoDup (after_unmet after done) /\ forall n, n ∈ after_unmet after done <-> n ∈ after /\ n ∉ done.
Proof.
  unfold after_unmet. assert (forall acc, NoDup acc -> (forall n, n ∈ acc -> n ∉ done) ->
    let r := fold_left (fun unmet name =>
      if bool_decide (name ∈ done) || bool_decide (name ∈ unmet) then unmet else unmet ++ [name]) after acc in
    NoDup r /\ forall n, n ∈ r <-> n ∈ acc \/ n ∈ after /\ n ∉ done) as H.
  { induction after as [|a l IH]; intros acc Hn Hd; simpl; [split; [done|set_solver]|].
    destruct (bool_decide_reflect (a ∈ done)); simpl.
    { destruct (IH acc Hn Hd) as [H1 H2]. split; [done|]. intros m. rewrite H2. set_solver. }
    destruct (bool_decide_reflect (a ∈ acc)).
    { destruct (IH acc Hn Hd) as [H1 H2]. split; [done|]. intros m. rewrite H2. set_solver. }
    destruct (IH (acc ++ [a])) as [H1 H2].
    - apply NoDup_app. split; [done|]. split; [set_solver|apply NoDup_singleton].
    - set_solver.
    - split; [done|]. intros m. rewrite H2. set_solver. }
  destruct (H [] ltac:(constructor) ltac:(set_solver)) as [H1 H2]. split; [done|]. intros n. rewrite H2. set_solver.
Qed.

(** What the verdict answers, on every input. *)
Lemma verdict_spec new active done :
  match verdict new active done with
  | VOk => (forall sib, sib ∈ active -> ~ collides new sib) /\ forall n, n ∈ after new -> n ∈ done
  | Conflict found => found <> [] /\ found_at new active 0 found
  | UnmetAfter l =>
      (forall sib, sib ∈ active -> ~ collides new sib) /\ l <> [] /\ NoDup l /\
      forall n, n ∈ l <-> n ∈ after new /\ n ∉ done
  | Unknown UnsupportedPattern => exists p, p ∈ patterns_of new active /\ canonical_pattern p = false
  | Unknown OverBudget =>
      oversized new active \/ (exists p, p ∈ patterns_of new active /\ MAX_PATTERN_BYTES < String.length p) \/
      (MAX_TOTAL_MATCH_WORK < N.of_nat (pair_count new active) * N.of_nat pair_cost)%N
  end.
Proof.
  unfold verdict.
  pose proof (collisions_scanned (patterns_of new active) (oversized new active) new active 0 0
    ltac:(done) ltac:(done)) as H.
  destruct (collisions new active 0 0) as [[found w]|[]]; [|exact H|exact H].
  destruct H as [_ [H1 H2]]. destruct found as [|f l]; [|split; [discriminate|split; [exact H1|exact H2]]].
  assert (forall sib, sib ∈ active -> ~ collides new sib) as Hc.
  { intros sib [k Hk]%list_elem_of_lookup Hcol. destruct (H2 k sib Hk Hcol) as [pairs Hp]. by apply not_elem_of_nil in Hp. }
  pose proof (after_unmet_spec (after new) done) as [Hn Hu].
  destruct (after_unmet (after new) done) as [|u l]; [|by repeat split; try done; apply Hu].
  split; [done|]. intros n Hin. destruct (decide (n ∈ done)) as [|n0]; [done|].
  by destruct (not_elem_of_nil n (proj2 (Hu n) (conj Hin n0))).
Qed.

(** ** Coming after *)

(** The candidates of a name, in order, and the newest of several: the last of
    those with the highest row. *)
Definition named (n : string) (cs : list AfterCandidate) : list AfterCandidate :=
  List.filter (fun c => bool_decide (candidate_name c = Some n)) cs.

Definition newest (cs : list AfterCandidate) (c : AfterCandidate) : Prop :=
  exists pre post, cs = pre ++ c :: post /\
    Forall (fun x => (ac_row x <= ac_row c)%Z) pre /\ Forall (fun x => (ac_row x < ac_row c)%Z) post.

Definition one_path (cs : list AfterCandidate) : Prop :=
  forall c c', c ∈ cs -> c' ∈ cs -> ac_path c = ac_path c'.

Lemma by_name_lookup cs n :
  by_name cs !! n = match named n cs with [] => None | l => Some l end.
Proof.
  unfold by_name. assert (forall m : gmap string (list AfterCandidate), (fold_left (fun m c =>
    match candidate_name c with Some n => <[n := default [] (m !! n) ++ [c]]> m | None => m end) cs m) !! n =
    match named n cs with [] => m !! n | l => Some (default [] (m !! n) ++ l) end) as H.
  { induction cs as [|c cs IH]; intros m; simpl; [done|]. rewrite IH. unfold named. simpl.
    destruct (candidate_name c) as [n'|]; [|by rewrite bool_decide_false by done].
    destruct (decide (n' = n)) as [->|Hne].
    - rewrite bool_decide_true, lookup_insert_eq by done. simpl. destruct (List.filter _ cs); [done|].
      by rewrite <- app_assoc.
    - by rewrite bool_decide_false, lookup_insert_ne by naive_solver. }
  rewrite H. by destruct (named n cs).
Qed.

Lemma max_by_row_newest cs :
  match max_by_row cs with Some c => newest cs c | None => cs = [] end.
Proof.
  unfold max_by_row. induction cs as [|x cs IH] using rev_ind; [done|]. rewrite fold_left_app. simpl.
  destruct (fold_left _ cs None) as [b|].
  - destruct IH as (pre & post & -> & Hpre & Hpost). destruct (Z.leb_spec (ac_row b) (ac_row x)).
    + exists (pre ++ b :: post), []. split; [done|]. split; [|constructor]. apply Forall_app. split.
      * eapply Forall_impl; [exact Hpre|]. simpl. lia.
      * constructor; [lia|]. eapply Forall_impl; [exact Hpost|]. simpl. lia.
    + exists pre, (post ++ [x]). rewrite <- app_assoc. split; [done|]. split; [done|].
      apply Forall_app. split; [done|]. constructor; [lia|constructor].
  - subst. exists [], []. split; [done|]. split; constructor.
Qed.

Lemma newest_max cs c : newest cs c <-> max_by_row cs = Some c.
Proof.
  split; [|intros E; pose proof (max_by_row_newest cs) as H; by rewrite E in H].
  intros (pre & post & -> & Hpre & Hpost). unfold max_by_row. rewrite fold_left_app. simpl.
  assert (forall best, match best with
    | Some b => if (ac_row b <=? ac_row c)%Z then Some c else Some b
    | None => Some c
    end = Some c -> fold_left (fun best x => match best with
      | Some b => if (ac_row b <=? ac_row x)%Z then Some x else Some b
      | None => Some x end) post (Some c) = Some c) as Hstay.
  { intros _ _. induction Hpost as [|x post Hx _ IH]; [done|]. simpl. destruct (Z.leb_spec (ac_row c) (ac_row x)); [lia|done]. }
  pose proof (max_by_row_newest pre) as Hm. unfold max_by_row in Hm. destruct (fold_left _ pre None) as [b|].
  - destruct Hm as (p1 & p2 & -> & _). apply Forall_app in Hpre as [_ [Hb _]%Forall_cons_1].
    destruct (Z.leb_spec (ac_row b) (ac_row c)); [|lia]. by apply (Hstay None).
  - by apply (Hstay None).
Qed.

Lemma one_path_size (l : list AfterCandidate) :
  size (list_to_set (map ac_path l) : gset string) <= 1 <-> one_path l.
Proof.
  split.
  - intros Hs c c' Hc Hc'. apply (size_singleton_inv (list_to_set (map ac_path l) : gset string)).
    + destruct (decide (size (list_to_set (map ac_path l) : gset string) = 0)) as [E|]; [|lia].
      apply size_empty_inv in E. set_solver.
    + set_solver.
    + set_solver.
  - intros H. destruct l as [|c l]; [change (size (∅ : gset string) <= 1); rewrite size_empty; lia|].
    assert ((list_to_set (map ac_path (c :: l)) : gset string) ⊆ {[ac_path c]}) as Hsub.
    { intros p. rewrite elem_of_list_to_set, list_elem_of_fmap. intros (c' & -> & Hc').
      rewrite (H c' c Hc') by set_solver. set_solver. }
    apply subseteq_size in Hsub. by rewrite size_singleton in Hsub.
Qed.

(** What the index holds for a name. *)
Definition entry_at (n : string) (idx : AfterIndex) : bool * option (Z * AgentDispatchStatus) * option (list (Z * string)) :=
  (bool_decide (n ∈ ai_done idx), governing idx !! n, ambiguous idx !! n).

Definition empty_index : AfterIndex := mkAfterIndex ∅ ∅ ∅.

Lemma index_name_ne n idx e : e.1 <> n -> entry_at n (index_name idx e) = entry_at n idx.
Proof.
  destruct e as [n' l]. simpl. intros Hne. unfold entry_at.
  repeat case_match; simpl; rewrite ?lookup_insert_ne by done; try done.
  repeat f_equal. apply bool_decide_ext. set_solver.
Qed.

Lemma index_name_eq n l idx :
  entry_at n idx = entry_at n empty_index -> entry_at n (index_name idx (n, l)) = entry_at n (index_name empty_index (n, l)).
Proof.
  unfold entry_at. intros [= Hd Hg Ha]. simpl.
  repeat case_match; simpl; rewrite ?lookup_insert_eq, ?Hg, ?Ha, ?Hd; try done.
  repeat f_equal. apply bool_decide_ext. set_solver.
Qed.

Lemma fold_index_ne n l idx : n ∉ l.*1 -> entry_at n (fold_left index_name l idx) = entry_at n idx.
Proof.
  revert idx. induction l as [|e l IH]; intros idx Hn; simpl; [done|].
  rewrite IH by set_solver. apply index_name_ne. set_solver.
Qed.

Lemma fold_index_in n a l idx :
  NoDup l.*1 -> (n, a) ∈ l -> entry_at n idx = entry_at n empty_index ->
  entry_at n (fold_left index_name l idx) = entry_at n (index_name empty_index (n, a)).
Proof.
  revert idx. induction l as [|e l IH]; intros idx Hnd Hin Hidx; [by apply not_elem_of_nil in Hin|].
  apply NoDup_cons in Hnd as [Hne Hnd]. simpl. apply elem_of_cons in Hin as [<-|Hin].
  - rewrite fold_index_ne by done. by apply index_name_eq.
  - apply IH; [done..|]. rewrite index_name_ne; [done|]. intros <-. apply Hne. by apply (list_elem_of_fmap_2 fst) in Hin.
Qed.

Lemma after_index_at cs n :
  entry_at n (after_index cs) =
  match named n cs with [] => entry_at n empty_index | l => entry_at n (index_name empty_index (n, l)) end.
Proof.
  unfold after_index. fold empty_index. pose proof (by_name_lookup cs n) as H.
  destruct (named n cs) as [|c l] eqn:E.
  - apply fold_index_ne. intros ((n' & a) & -> & Hin)%list_elem_of_fmap. apply elem_of_map_to_list in Hin. simpl in H. congruence.
  - apply fold_index_in; [apply NoDup_fst_map_to_list| |done]. by apply elem_of_map_to_list.
Qed.

Lemma entry_one n l :
  entry_at n (index_name empty_index (n, l)) =
  if (1 <? size (list_to_set (map ac_path l) : gset string))%nat then
    (false, None, Some (sort_by (on fst Z.compare) (map (fun c => (ac_row c, ac_path c)) l)))
  else match max_by_row l with
       | Some g => (finished (ac_status g), Some (ac_row g, ac_status g), None)
       | None => (false, None, None)
       end.
Proof.
  unfold entry_at. simpl. case_match; simpl.
  { by rewrite lookup_insert_eq, lookup_empty, bool_decide_false by set_solver. }
  destruct (max_by_row l) as [g|]; simpl; [|by rewrite !lookup_empty, bool_decide_false by set_solver].
  rewrite lookup_insert_eq, lookup_empty. destruct (finished (ac_status g)).
  - by rewrite bool_decide_true by set_solver.
  - by rewrite bool_decide_false by set_solver.
Qed.

Lemma after_index_entry cs n :
  entry_at n (after_index cs) =
  if (1 <? size (list_to_set (map ac_path (named n cs)) : gset string))%nat then
    (false, None, Some (sort_by (on fst Z.compare) (map (fun c => (ac_row c, ac_path c)) (named n cs))))
  else match max_by_row (named n cs) with
       | Some g => (finished (ac_status g), Some (ac_row g, ac_status g), None)
       | None => (false, None, None)
       end.
Proof.
  rewrite after_index_at. destruct (named n cs) as [|c l] eqn:E; [|apply entry_one].
  unfold entry_at, empty_index. simpl. by rewrite !lookup_empty, bool_decide_false by set_solver.
Qed.

(** The index of earlier chunks, for every list of candidates and every
    name: a name counts as done exactly when all its attempts are of one file
    and the newest attempt ended in [Done] or [Merged]; attempts of several
    files make the name ambiguous, and then it is neither done nor governed. *)
Theorem after_index_correct cs n :
  let idx := after_index cs in
  (n ∈ ai_done idx <-> one_path (named n cs) /\ exists c, newest (named n cs) c /\ finished (ac_status c) = true) /\
  (forall r s, governing idx !! n = Some (r, s) <->
     one_path (named n cs) /\ exists c, newest (named n cs) c /\ ac_row c = r /\ ac_status c = s) /\
  (is_Some (ambiguous idx !! n) <-> ~ one_path (named n cs)).
Proof.
  intros idx. pose proof (after_index_entry cs n) as H. fold idx in H. unfold entry_at in H.
  pose proof (one_path_size (named n cs)) as Hp. setoid_rewrite newest_max.
  destruct (Nat.ltb_spec 1 (size (list_to_set (map ac_path (named n cs)) : gset string))) as [Hs|Hs].
  - injection H as Hd Hg Ha. apply bool_decide_eq_false in Hd. rewrite Hg, Ha.
    assert (~ one_path (named n cs)) as Hno by (rewrite <- Hp; lia). naive_solver.
  - apply Hp in Hs. destruct (max_by_row (named n cs)) as [g|]; injection H as Hd Hg Ha; rewrite Hg, Ha.
    + assert (n ∈ ai_done idx <-> finished (ac_status g) = true) as ->
        by (rewrite <- Hd, bool_decide_eq_true; done). rewrite <- not_eq_None_Some. naive_solver.
    + apply bool_decide_eq_false in Hd. rewrite <- not_eq_None_Some. naive_solver.
Qed.
