(* ===== verification/ReportText.v ===== *)
(** * Report and note texts

    The text handling of thegn-core/src/pipeline_report.rs: which characters are
    hostile to a terminal, what identities may hold, how notes and reports are
    encoded before they are stored, and how a report's verdict is read. *)
From Stdlib Require Import Ascii String.
From S2P Require Import Prelude RustStr RustText RustChars Pipeline.
Local Open Scope string_scope.
Local Open Scope list_scope.

Definition NOTE_MAX_CHARS : N := 4096.
Definition REPORT_MAX_CHARS : N := 16384.
Definition NOTE_MAX_PER_ROW : N := 2000.
Definition NOTE_MAX_BYTES_PER_ROW : N := 2 * 1024 * 1024.

Definition is_format_control (c : N) : bool :=
  existsb (fun r => char_in r.1 r.2 c)
    [(173, 173); (1536, 1541); (1564, 1564); (1757, 1757); (1807, 1807); (2192, 2193);
     (2274, 2274); (6158, 6158); (8203, 8207); (8232, 8238); (8288, 8292);
     (8294, 8303); (65279, 65279); (65529, 65531); (69821, 69821); (69837, 69837);
     (78896, 78911); (113824, 113827); (119155, 119162); (917505, 917505);
     (917536, 917631)]%N.

Inductive DispatchTextClass := Control | Format.

Record DispatchTextRejected := mkDispatchTextRejected {
  dtr_field : string;
  class : DispatchTextClass;
  dtr_at : nat;
}.

Definition class_of (c : N) : option DispatchTextClass :=
  if is_control c then Some Control else if is_format_control c then Some Format else None.

Fixpoint text_field_from (field : string) (at_ : nat) (l : list N) : result DispatchTextRejected unit :=
  match l with
  | [] => Ok tt
  | c :: l =>
      match class_of c with
      | Some k => Err (mkDispatchTextRejected field k at_)
      | None => text_field_from field (at_ + 1) l
      end
  end.

Definition dispatch_text_field (field value : string) : result DispatchTextRejected unit :=
  text_field_from field 0 (chars value).

Definition replacement : N := 65533.

Definition hostile (c : N) : bool := is_control c || is_format_control c.

Definition display_cell (s : string) : string :=
  of_chars (map (fun c => if hostile c then replacement else c) (chars s)).

(** [encode_hostile]; the [peek] is the rest of the text. *)
Fixpoint encode_hostile (multiline : bool) (l : list N) : list N :=
  match l with
  | [] => []
  | c :: rest =>
      if (c =? 13)%N then
        match rest with
        | [] => encode_hostile multiline rest
        | d :: _ =>
            if (d =? 10)%N then encode_hostile multiline rest
            else (if multiline then replacement else 32%N) :: encode_hostile multiline rest
        end
      else if (c =? 10)%N then (if multiline then 10%N else 32%N) :: encode_hostile multiline rest
      else if (c =? 9)%N then 32%N :: encode_hostile multiline rest
      else if hostile c then replacement :: encode_hostile multiline rest
      else c :: encode_hostile multiline rest
  end.

Definition meaningful (c : N) : bool := negb (is_whitespace c) && negb (c =? replacement)%N.

Inductive TextError := TextEmpty | TooLong (len : N).

(** The common body of [note_text] and [report_text]. *)
Definition checked_text (multiline : bool) (cap : N) (text : string) : result TextError string :=
  let t := encode_hostile multiline (chars text) in
  if negb (existsb meaningful t) then Err TextEmpty
  else
    let t := trim_chars t in
    let len := N.of_nat (length t) in
    if (cap <? len)%N then Err (TooLong len) else Ok (of_chars t).

Definition note_text (text : string) : result TextError string := checked_text false NOTE_MAX_CHARS text.
Definition report_text (text : string) : result TextError string := checked_text true REPORT_MAX_CHARS text.

(** ** Stored texts are safe to print *)

(** A character a stored text may hold. *)
Definition printable (multiline : bool) (c : N) : bool := negb (hostile c) || multiline && (c =? 10)%N.

Lemma hostile_32 : hostile 32 = false. Proof. reflexivity. Qed.
Lemma hostile_replacement : hostile replacement = false. Proof. reflexivity. Qed.

Lemma encode_printable multiline l : Forall (fun c => printable multiline c = true) (encode_hostile multiline l).
Proof.
  induction l as [|c l IH]; [constructor|]. cbn [encode_hostile].
  destruct (c =? 13)%N.
  { destruct l as [|d l]; [done|]. destruct (d =? 10)%N; [done|]. constructor; [by destruct multiline|done]. }
  destruct (c =? 10)%N; [constructor; [by destruct multiline|done]|].
  destruct (c =? 9)%N; [by constructor|].
  destruct (hostile c) eqn:E; constructor; try done. unfold printable. by rewrite E.
Qed.

Lemma encode_fixed multiline l :
  Forall (fun c => printable multiline c = true) l -> encode_hostile multiline l = l.
Proof.
  induction 1 as [|c l Hc _ IH]; [done|]. cbn [encode_hostile]. rewrite IH.
  unfold printable in Hc. destruct (hostile c) eqn:E; simpl in Hc.
  - apply andb_true_iff in Hc as [-> ->%N.eqb_eq]. done.
  - destruct (N.eqb_spec c 13) as [->|]; [done|]. destruct (N.eqb_spec c 10) as [->|]; [done|].
    by destruct (N.eqb_spec c 9) as [->|].
Qed.

Lemma encode_scalar multiline l :
  Forall (fun c => scalar c = true) l -> Forall (fun c => scalar c = true) (encode_hostile multiline l).
Proof.
  induction 1 as [|c l Hc Hl IH]; [constructor|]. cbn [encode_hostile].
  repeat case_match; try done; constructor; try done; by destruct multiline.
Qed.

Lemma meaningful_trim l : existsb meaningful (trim_chars l) = existsb meaningful l.
Proof.
  destruct (trim_chars_parts l) as (w1 & w2 & E & H1 & H2). rewrite E at 2.
  assert (forall w, Forall (fun c => is_whitespace c = true) w -> existsb meaningful w = false) as Hw.
  { induction 1 as [|c w Hc _ IH]; [done|]. simpl. unfold meaningful at 1. by rewrite Hc. }
  by rewrite !existsb_app, (Hw w1 H1), (Hw w2 H2), orb_false_r.
Qed.

(** What [note_text] and [report_text] store, for every text: at most the
    cap of characters, not only blanks, none of them a control or format
    character (the line feed of a report apart), and storing it again changes
    nothing. *)
Theorem checked_text_safe multiline cap text stored :
  Forall (fun c => scalar c = true) (chars text) ->
  checked_text multiline cap text = Ok stored ->
  Forall (fun c => printable multiline c = true) (chars stored) /\
  existsb meaningful (chars stored) = true /\ (N.of_nat (length (chars stored)) <= cap)%N /\
  checked_text multiline cap stored = Ok stored.
Proof.
  intros Hs. unfold checked_text. set (t := encode_hostile multiline (chars text)).
  destruct (existsb meaningful t) eqn:Hm; [|done]. cbn [negb].
  destruct (N.ltb_spec cap (N.of_nat (length (trim_chars t)))) as [|Hcap]; [done|]. intros [= <-].
  assert (forall P : N -> Prop, Forall P t -> Forall P (trim_chars t)) as Hsub.
  { intros P HP. destruct (trim_chars_parts t) as (w1 & w2 & E & _). rewrite E in HP.
    apply Forall_app in HP as [_ [HP _]%Forall_app]. done. }
  assert (chars (of_chars (trim_chars t)) = trim_chars t) as Hrt.
  { apply chars_of_chars, Hsub, encode_scalar, Hs. }
  assert (Forall (fun c => printable multiline c = true) (trim_chars t)) as Hp by apply Hsub, encode_printable.
  rewrite Hrt, (encode_fixed _ _ Hp), (trim_chars_fixed _ (trim_chars_trimmed t)), meaningful_trim, Hm. simpl.
  destruct (N.ltb_spec cap (N.of_nat (length (trim_chars t)))); [lia|]. done.
Qed.

Lemma checked_text_safe_witness :
  Forall (fun c => scalar c = true) (chars (String "027" "[2J pass")) /\
  exists stored, checked_text false NOTE_MAX_CHARS (String "027" "[2J pass") = Ok stored /\
    Forall (fun c => printable false c = true) (chars stored) /\
    checked_text false NOTE_MAX_CHARS stored = Ok stored.
Proof.
  assert (Forall (fun c => scalar c = true) (chars (String "027" "[2J pass"))) as Hs
    by (repeat constructor).
  split; [exact Hs|]. eexists. split; [vm_compute; reflexivity|].
  destruct (checked_text_safe false NOTE_MAX_CHARS (String "027" "[2J pass") _ Hs eq_refl) as (H1 & _ & _ & H2).
  split; [exact H1|exact H2].
Defined.
