(* ===== verification/Lease.v ===== *)
(** * Lead leases

    The leases of thegn-core/src/db_dispatch.rs: named, owned, expiring rows of
    [pipeline_leases], each with the generation the counter of
    [pipeline_lease_fence] gave it, and the check a write of the roster makes of
    the lease its caller presents.  Every operation is one transaction, so it is
    one step; the wall clock is an argument of each step and is not assumed to
    advance. *)
From Stdlib Require Import Ascii String.
From S2P Require Import Prelude RustOrd RustStr RustText RustChars ReportText.
Local Open Scope string_scope.
Local Open Scope list_scope.
Local Open Scope Z_scope.

Definition MIN_LEASE_TTL_SECS : Z := 5.
Definition MAX_LEASE_TTL_SECS : Z := 86400.

Record Lease := mkLease { l_owner : string; l_acquired : Z; l_expires : Z; generation : Z }.

Record LeaseDb := mkLeaseDb { leases : gmap string Lease; last_generation : Z }.

Record LeaseInputError := mkLeaseInputError { li_field : string; li_reason : string }.

Definition validate_lease_text (field value : string) : result LeaseInputError unit :=
  if is_empty (trim value) then Err (mkLeaseInputError field "must not be empty")
  else if (128 <? String.length value)%nat then Err (mkLeaseInputError field "must be at most 128 bytes")
  else if existsb is_control (chars value) then Err (mkLeaseInputError field "must not contain control characters")
  else Ok tt.

(** [checked_mul] and [checked_add] of [i64]. *)
Definition in_i64 (z : Z) : option Z := if (i64_min <=? z) && (z <=? i64_max) then Some z else None.

Definition lease_expiry (ttl_secs now : Z) : result LeaseInputError Z :=
  if negb ((MIN_LEASE_TTL_SECS <=? ttl_secs) && (ttl_secs <=? MAX_LEASE_TTL_SECS)) then
    Err (mkLeaseInputError "ttl" "outside the admitted lease TTL range")
  else
    match in_i64 (ttl_secs * 1000) with
    | Some ms =>
        match in_i64 (now + ms) with
        | Some e => Ok e
        | None => Err (mkLeaseInputError "ttl" "expiry is outside the supported timestamp range")
        end
    | None => Err (mkLeaseInputError "ttl" "expiry is outside the supported timestamp range")
    end.

(** The cleanup of an acquisition: up to 256 expired rows of other names,
    earliest expiry first.  Rows of equal expiry are taken in an order SQLite
    does not promise; it is the argument [order], a listing of the table. *)
Definition sweep (order : list (string * Lease)) (now : Z) (name : string) (m : gmap string Lease) : gmap string Lease :=
  let expired := List.filter (fun e => (l_expires e.2 <=? now) && negb (String.eqb e.1 name)) order in
  let doomed := take 256 (sort_by (on (fun e : string * Lease => l_expires e.2) Z.compare) expired) in
  foldr (fun e m => delete e.1 m) m doomed.

(** Refusals of the whole call, and the inner refusal that names the holder. *)
Inductive LeaseError := BadInput (e : LeaseInputError).

Definition lift {A} (r : result LeaseInputError A) : result LeaseError A :=
  match r with Ok a => Ok a | Err e => Err (BadInput e) end.

Definition acquire_pipeline_lease_fenced (order : list (string * Lease)) (now : Z) (name owner : string) (ttl_secs : Z)
    (db : LeaseDb) : result LeaseError (result string Z * LeaseDb) :=
  let? _ := lift (validate_lease_text "name" name) in
  let? _ := lift (validate_lease_text "owner" owner) in
  let? expires := lift (lease_expiry ttl_secs now) in
  let current := leases db !! name in
  match current with
  | Some l =>
      if (now <? l_expires l) && negb (String.eqb (l_owner l) owner) then Ok (Err (l_owner l), db)
      else
        let m := sweep order now name (leases db) in
        let live := (now <? l_expires l) && (0 <? generation l) in
        let g := if live then generation l else last_generation db + 1 in
        Ok (Ok g, mkLeaseDb (<[name := mkLease owner now expires g]> m)
                    (if live then last_generation db else last_generation db + 1))
  | None =>
      let m := sweep order now name (leases db) in
      let g := last_generation db + 1 in
      Ok (Ok g, mkLeaseDb (<[name := mkLease owner now expires g]> m) g)
  end.

Definition acquire_pipeline_lease (order : list (string * Lease)) (now : Z) (name owner : string) (ttl_secs : Z)
    (db : LeaseDb) : result LeaseError (result string unit * LeaseDb) :=
  let? od := acquire_pipeline_lease_fenced order now name owner ttl_secs db in
  let '(o, db) := od in
  Ok (match o with Ok _ => Ok tt | Err h => Err h end, db).

Definition pipeline_lease_generation (name : string) (db : LeaseDb) : result LeaseError (option Z) :=
  let? _ := lift (validate_lease_text "name" name) in Ok (generation <$> leases db !! name).

Definition renew_pipeline_lease (now : Z) (name owner : string) (ttl_secs : Z) (db : LeaseDb)
    : result LeaseError (result (option (string * Z)) Z * LeaseDb) :=
  let? _ := lift (validate_lease_text "name" name) in
  let? _ := lift (validate_lease_text "owner" owner) in
  let? expires := lift (lease_expiry ttl_secs now) in
  match leases db !! name with
  | Some l =>
      if String.eqb (l_owner l) owner && (now <? l_expires l) then
        Ok (Ok expires,
            mkLeaseDb (<[name := mkLease owner now expires (generation l)]> (leases db)) (last_generation db))
      else Ok (Err (Some (l_owner l, l_expires l)), db)
  | None => Ok (Err None, db)
  end.

Definition pipeline_lease_row (name : string) (db : LeaseDb) : result LeaseError (option (string * Z)) :=
  let? _ := lift (validate_lease_text "name" name) in
  Ok ((fun l => (l_owner l, l_expires l)) <$> leases db !! name).

Definition release_pipeline_lease_row (name owner : string) (db : LeaseDb)
    : result LeaseError (option (string * Z) * LeaseDb) :=
  let? _ := lift (validate_lease_text "name" name) in
  let? _ := lift (validate_lease_text "owner" owner) in
  let row := leases db !! name in
  let mine := match row with Some l => String.eqb (l_owner l) owner | None => false end in
  Ok ((fun l => (l_owner l, l_expires l)) <$> row,
      if mine then mkLeaseDb (delete name (leases db)) (last_generation db) else db).

Definition release_pipeline_lease (name owner : string) (db : LeaseDb) : result LeaseError (bool * LeaseDb) :=
  let? _ := lift (validate_lease_text "name" name) in
  let? _ := lift (validate_lease_text "owner" owner) in
  match leases db !! name with
  | Some l =>
      if String.eqb (l_owner l) owner
      then Ok (true, mkLeaseDb (delete name (leases db)) (last_generation db))
      else Ok (false, db)
  | None => Ok (false, db)
  end.

Definition pipeline_lease_holder (now : Z) (name : string) (db : LeaseDb) : result LeaseError (option (string * Z)) :=
  let? _ := lift (validate_lease_text "name" name) in
  Ok (match leases db !! name with
      | Some l => if now <? l_expires l then Some (l_owner l, l_expires l - now) else None
      | None => None
      end).

(** ** The check of a presented lease *)

Inductive LeadProof :=
| Unbound
| LeaseProof (name owner : string)
| Fenced (name owner : string) (generation : Z)
| Admin (why : string).

Inductive LeadLeaseConflict :=
| NotHeld (lease : string) (holder : option string)
| Required (lease : string)
| Mismatch (bound presented : string)
| StaleGeneration (lease : string) (presented current : Z).

Inductive LeadError :=
| LeadInput (e : LeaseInputError)
| LeadConflict (c : LeadLeaseConflict)
| AdminNeedsWhy.

(** The two proofs that name a lease: the name, the owner and the generation a
    fenced proof presents. *)
Definition lead_lease_check (now : Z) (bound : list string) (name owner : string) (presented : option Z) (db : LeaseDb)
    : result LeadError unit :=
  let input {A} (r : result LeaseInputError A) : result LeadError A :=
    match r with Ok a => Ok a | Err e => Err (LeadInput e) end in
  let? _ := input (validate_lease_text "name" name) in
  let? _ := input (validate_lease_text "owner" owner) in
  let? _ := match presented with
            | Some g => if g <=? 0 then Err (LeadInput (mkLeaseInputError "generation" "must be positive")) else Ok tt
            | None => Ok tt
            end in
  match List.find (fun lease => negb (String.eqb lease name)) bound with
  | Some other => Err (LeadConflict (Mismatch other name))
  | None =>
      match leases db !! name with
      | Some l =>
          if String.eqb (l_owner l) owner && (now <? l_expires l) then
            match presented with
            | Some g => if g =? generation l then Ok tt else Err (LeadConflict (StaleGeneration name g (generation l)))
            | None => Ok tt
            end
          else Err (LeadConflict (NotHeld name (if now <? l_expires l then Some (l_owner l) else None)))
      | None => Err (LeadConflict (NotHeld name None))
      end
  end.

(** The audit note an administrator's bypass of a bound lease leaves. *)
Definition lead_check (now : Z) (bound : list string) (proof : LeadProof) (db : LeaseDb) : result LeadError (option string) :=
  match proof with
  | LeaseProof name owner => let? _ := lead_lease_check now bound name owner None db in Ok None
  | Fenced name owner g => let? _ := lead_lease_check now bound name owner (Some g) db in Ok None
  | Unbound =>
      match bound with
      | lease :: _ => Err (LeadConflict (Required lease))
      | [] => Ok None
      end
  | Admin why =>
      if is_empty (trim why) then Err AdminNeedsWhy
      else
        match bound with
        | [] => Ok None
        | _ => Ok (Some ("lead lease " ++ join ", " bound ++ " bypassed by admin: " ++ why)%string)
        end
  end.

(** ** Runs

    [reach db hist]: the tables hold [db] after some sequence of calls, and
    [hist] is what acquisitions granted, the latest first.  A database of before
    the generations were introduced has rows of generation 0. *)

Definition Grant : Type := Z * string * string.

Inductive lease_step : LeaseDb -> list Grant -> LeaseDb -> Prop :=
| step_acquire order now name owner ttl db g db' :
    order ≡ₚ map_to_list (leases db) ->
    acquire_pipeline_lease_fenced order now name owner ttl db = Ok (Ok g, db') ->
    lease_step db [(g, name, owner)] db'
| step_refused order now name owner ttl db held db' :
    order ≡ₚ map_to_list (leases db) ->
    acquire_pipeline_lease_fenced order now name owner ttl db = Ok (Err held, db') ->
    lease_step db [] db'
| step_renew now name owner ttl db o db' :
    renew_pipeline_lease now name owner ttl db = Ok (o, db') -> lease_step db [] db'
| step_release_row name owner db o db' :
    release_pipeline_lease_row name owner db = Ok (o, db') -> lease_step db [] db'
| step_release name owner db o db' :
    release_pipeline_lease name owner db = Ok (o, db') -> lease_step db [] db'.

Inductive reach : LeaseDb -> list Grant -> Prop :=
| reach_start m : map_Forall (fun _ l => generation l = 0) m -> reach (mkLeaseDb m 0) []
| reach_step db hist gs db' : reach db hist -> lease_step db gs db' -> reach db' (gs ++ hist).

(** *** What an acquisition does *)

Lemma delete_all_lookup (es : list (string * Lease)) (m : gmap string Lease) n :
  foldr (fun e m => delete e.1 m) m es !! n = if bool_decide (n ∈ es.*1) then None else m !! n.
Proof.
  induction es as [|[n' l] es IH]; [by rewrite bool_decide_false by set_solver|].
  cbn [foldr fmap list_fmap fst].
  destruct (decide (n' = n)) as [->|Hne].
  - rewrite lookup_delete_eq, bool_decide_true by set_solver. done.
  - rewrite lookup_delete_ne by done. rewrite IH. rewrite (bool_decide_ext (n ∈ es.*1) (n ∈ n' :: es.*1)) by set_solver. done.
Qed.

Lemma sweep_sub order now name m n l : sweep order now name m !! n = Some l -> m !! n = Some l.
Proof. unfold sweep. rewrite delete_all_lookup. by case_match. Qed.

Lemma sweep_keeps order now name m n l :
  order ≡ₚ map_to_list m -> m !! n = Some l -> n = name \/ now < l_expires l -> sweep order now name m !! n = Some l.
Proof.
  intros Ho Hn Hl. unfold sweep. rewrite delete_all_lookup, bool_decide_false; [done|].
  intros ([n' l'] & -> & Hin)%list_elem_of_fmap. apply elem_of_take in Hin as (i & Hi & _).
  apply list_elem_of_lookup_2, elem_of_sort_by, elem_of_filter_b in Hi as [Hin Hc]. simpl in *.
  rewrite Ho, elem_of_map_to_list in Hin. apply andb_true_iff in Hc as [Hc1%Z.leb_le Hc2%negb_true_iff%String.eqb_neq].
  destruct Hl as [->|Hl]; [done|]. rewrite Hn in Hin. simplify_eq. lia.
Qed.

(** An acquisition that is granted: the lease was free or the caller's own, the
    generation is the live one of the row or a new one, and the row is written. *)
Lemma acquire_granted order now name owner ttl db g db' :
  acquire_pipeline_lease_fenced order now name owner ttl db = Ok (Ok g, db') ->
  exists exp, leases db' = <[name := mkLease owner now exp g]> (sweep order now name (leases db)) /\
    (g = last_generation db + 1 /\ last_generation db' = g \/
     last_generation db' = last_generation db /\ 0 < g /\
     exists l, leases db !! name = Some l /\ generation l = g /\ l_owner l = owner) /\
    (forall l, leases db !! name = Some l -> l_owner l = owner \/ l_expires l <= now).
Proof.
  unfold acquire_pipeline_lease_fenced.
  destruct (lift (validate_lease_text "name" name)); [|done]. destruct (lift (validate_lease_text "owner" owner)); [|done].
  destruct (lift (lease_expiry ttl now)) as [exp|]; [|done]. cbn [rbind].
  destruct (leases db !! name) as [l|] eqn:Hl.
  - destruct (Z.ltb_spec now (l_expires l)) as [Hlive|Hdead]; cbn [andb].
    + destruct (String.eqb_spec (l_owner l) owner) as [<-|Hne]; cbn [negb]; [|done]. intros [= <- <-]. exists exp. split; [done|].
      split; [|intros l' [= <-]; by left]. destruct (Z.ltb_spec 0 (generation l)); [right|by left]. eauto 6.
    + intros [= <- <-]. exists exp. split; [done|]. split; [by left|]. intros l' [= <-]. right. lia.
  - intros [= <- <-]. exists exp. split; [done|]. split; [by left|done].
Qed.

(** Every other call leaves each row alone, deletes it, or extends it. *)
Lemma quiet_step db db' :
  lease_step db [] db' ->
  last_generation db' = last_generation db /\
  forall n l', leases db' !! n = Some l' ->
    exists l, leases db !! n = Some l /\ generation l' = generation l /\ l_owner l' = l_owner l.
Proof.
  inversion 1 as [|order now name owner ttl ? held ? _ E|now name owner ttl ? o ? E|name owner ? o ? E|name owner ? o ? E];
    subst.
  - unfold acquire_pipeline_lease_fenced in E. rbind_inv; repeat case_match; simplify_eq; eauto 6.
  - unfold renew_pipeline_lease in E. rbind_inv; repeat case_match; simplify_eq; eauto 6.
    split; [done|]. intros n l'. simpl. destruct (decide (name = n)) as [<-|Hne].
    + rewrite lookup_insert_eq. intros [= <-]. eexists. split; [done|]. split; [done|]. simpl.
      match goal with H : _ && _ = true |- _ => apply andb_true_iff in H as [->%String.eqb_eq _] end. done.
    + rewrite lookup_insert_ne by done. eauto.
  - unfold release_pipeline_lease_row in E. rbind_inv; repeat case_match; simplify_eq; eauto 6;
      (split; [done|]; intros n l'; simpl; intros [? ?]%lookup_delete_Some; eauto).
  - unfold release_pipeline_lease in E. rbind_inv; repeat case_match; simplify_eq; eauto 6.
    split; [done|]. intros n l'. simpl. intros [? ?]%lookup_delete_Some. eauto.
Qed.

(** *** The invariant *)

Definition granted (hist : list Grant) (g : Z) (n o : string) : Prop := (g, n, o) ∈ hist.

Record fence_inv (db : LeaseDb) (hist : list Grant) : Prop := {
  fi_hist : forall g n o, granted hist g n o -> 0 < g <= last_generation db;
  fi_row : forall n l, leases db !! n = Some l -> generation l = 0 \/ granted hist (generation l) n (l_owner l);
  fi_one : forall g n o n' o', granted hist g n o -> granted hist g n' o' -> n = n' /\ o = o';
  fi_top : forall n l g o, leases db !! n = Some l -> granted hist g n o -> g <= generation l;
  fi_base : 0 <= last_generation db;
}.

Lemma fence_quiet db hist db' : fence_inv db hist -> lease_step db [] db' -> fence_inv db' hist.
Proof.
  intros [H1 H2 H3 H4 H5] [Hl Hr]%quiet_step. split; [by setoid_rewrite Hl| |done| |lia].
  - intros n l' (l & Hn & -> & ->)%Hr. by apply H2.
  - intros n l' g o (l & Hn & -> & _)%Hr Hg. by eapply H4.
Qed.

Lemma fence_granted order now name owner ttl db hist g db' :
  fence_inv db hist -> acquire_pipeline_lease_fenced order now name owner ttl db = Ok (Ok g, db') ->
  fence_inv db' ((g, name, owner) :: hist) /\
  (forall g' o, granted hist g' name o -> g' < g \/ g' = g /\ o = owner).
Proof.
  intros [H1 H2 H3 H4 H5] (exp & Hm & Hg & _)%acquire_granted.
  assert (last_generation db <= last_generation db' /\ 0 < g <= last_generation db') as [Hle Hgb].
  { destruct Hg as [[-> ->]|(-> & Hpos & l & Hl & <- & <-)]; [lia|]. destruct (H2 _ _ Hl); [lia|]. naive_solver lia. }
  assert (forall g' o, granted hist g' name o -> g' < g \/ g' = g /\ o = owner) as Hnew.
  { intros g' o Hg'. destruct Hg as [[-> _]|(_ & Hpos & l & Hl & <- & <-)].
    - destruct (H1 _ _ _ Hg'). lia.
    - destruct (H2 _ _ Hl) as [|Hh]; [lia|]. pose proof (H4 _ _ _ _ Hl Hg').
      destruct (decide (g' = generation l)) as [->|]; [|lia]. right. split; [done|]. by apply (H3 _ _ _ _ _ Hg' Hh). }
  assert (forall n o, granted hist g n o -> n = name /\ o = owner) as Hsame.
  { intros n o Hh. destruct Hg as [[-> _]|(_ & Hpos & l & Hl & <- & <-)]; [destruct (H1 _ _ _ Hh); lia|].
    destruct (H2 _ _ Hl) as [|Hh']; [lia|]. by apply (H3 _ _ _ _ _ Hh Hh'). }
  split; [|done]. split.
  - intros g' n o [[= -> -> ->]|Hh]%elem_of_cons; [lia|]. destruct (H1 _ _ _ Hh). lia.
  - intros n l. rewrite Hm. destruct (decide (name = n)) as [<-|Hne].
    + rewrite lookup_insert_eq. intros [= <-]. right. unfold granted. set_solver.
    + rewrite lookup_insert_ne by done. intros Hl%sweep_sub%H2. unfold granted in *. set_solver.
  - intros g' n o n' o' [Ea|Ha]%elem_of_cons [Eb|Hb]%elem_of_cons; simplify_eq; try done.
    + destruct (Hsame _ _ Hb). done.
    + destruct (Hsame _ _ Ha). done.
    + by eapply H3.
  - intros n l g' o. rewrite Hm. destruct (decide (name = n)) as [<-|Hne].
    + rewrite lookup_insert_eq. intros [= <-] [Eh|Hh]%elem_of_cons; simplify_eq; simpl; [lia|]. destruct (Hnew _ _ Hh); lia.
    + rewrite lookup_insert_ne by done. intros Hl%sweep_sub [Eh|Hh]%elem_of_cons; [simplify_eq|]. by eapply H4.
  - lia.
Qed.

(** Later grants of a name have later generations. *)
Definition ordered (hist : list Grant) : Prop :=
  forall l1 l2 g n o g' o', hist = l1 ++ (g, n, o) :: l2 -> granted l2 g' n o' -> g' < g \/ g' = g /\ o' = o.

Lemma reach_inv db hist : reach db hist -> fence_inv db hist /\ ordered hist.
Proof.
  induction 1 as [m Hm|db hist gs db' _ [IH Ho] Hs].
  - split; [|intros []; discriminate].
    split; simpl; [intros g n o []%not_elem_of_nil| |intros g n o n' o' []%not_elem_of_nil|
      intros n l g o _ []%not_elem_of_nil|lia].
    intros n l Hl. left. by apply (Hm n l).
  - destruct Hs as [order now name owner ttl db g db' _ E|order now name owner ttl db held db' Hord E| | |].
    + destruct (fence_granted _ _ _ _ _ _ _ _ _ IH E) as [Hi Hn]. split; [done|].
      intros [|e l1] l2 g1 n1 o1 g' o' Heq Hg; simplify_eq/=; [by apply Hn|]. by eapply Ho.
    + split; [|done]. eapply fence_quiet; [done|]. by eapply step_refused.
    + split; [|done]. eapply fence_quiet; [done|]. by eapply step_renew.
    + split; [|done]. eapply fence_quiet; [done|]. by eapply step_release_row.
    + split; [|done]. eapply fence_quiet; [done|]. by eapply step_release.
Qed.

Lemma lead_fenced_row now bound name owner g db a :
  lead_check now bound (Fenced name owner g) db = Ok a ->
  exists l, leases db !! name = Some l /\ l_owner l = owner /\ now < l_expires l /\ generation l = g /\ 0 < g /\
    Forall (fun b => b = name) bound.
Proof.
  cbn [lead_check]. unfold lead_lease_check. intros H. rbind_inv.
  destruct (List.find _ bound) eqn:Hf; [done|]. destruct (leases db !! name) as [l|]; [|done].
  destruct (String.eqb_spec (l_owner l) owner); [|done]. destruct (Z.ltb_spec now (l_expires l)); [|done]. cbn [andb] in *.
  destruct (Z.leb_spec g 0); [done|]. destruct (Z.eqb_spec g (generation l)); [|done].
  exists l. repeat split; try done. apply Forall_forall. intros b Hb%list_elem_of_In.
  apply (List.find_none _ _ Hf) in Hb. by apply negb_false_iff, String.eqb_eq in Hb.
Qed.

(** C25. Fencing.  In every reachable state, whatever the clocks did: once a
    lease was granted to another owner, a proof that presents the earlier
    owner's generation is refused for ever, at any time and whatever rows are
    bound. *)
Theorem fenced_out db hist l1 l2 g n o g' o' now bound :
  reach db hist -> hist = l1 ++ (g', n, o') :: l2 -> granted l2 g n o -> o' <> o ->
  forall a, lead_check now bound (Fenced n o g) db <> Ok a.
Proof.
  intros [Hi Ho]%reach_inv -> Hg Hne a (l & Hl & Hown & _ & Hgen & _)%lead_fenced_row.
  destruct (Ho l1 l2 g' n o' g o eq_refl Hg) as [Hlt|[_ ->]]; [|done].
  assert (g' <= generation l); [|lia]. apply (fi_top _ _ Hi n l g' o' Hl). unfold granted. set_solver.
Qed.

(** A generation names one holder.  In every reachable state a fenced proof
    is accepted only from the owner and for the lease that generation was
    granted to, while the lease is live and every bound row is bound to it. *)
Theorem fenced_identity db hist now bound n o g a :
  reach db hist -> lead_check now bound (Fenced n o g) db = Ok a ->
  granted hist g n o /\ (forall n' o', granted hist g n' o' -> n' = n /\ o' = o) /\
  Forall (fun b => b = n) bound /\
  exists l, leases db !! n = Some l /\ l_owner l = o /\ now < l_expires l.
Proof.
  intros [Hi _]%reach_inv (l & Hl & <- & Hlive & <- & Hpos & Hb)%lead_fenced_row.
  assert (granted hist (generation l) n (l_owner l)) as Hg by (destruct (fi_row _ _ Hi _ _ Hl); [lia|done]).
  split; [done|]. split; [|split; [done|by exists l]]. intros n' o' Hg'. by apply (fi_one _ _ Hi _ _ _ _ _ Hg' Hg).
Qed.

(** A live lease is its owner's: a call by another owner, at a time the
    lease has not expired, leaves its row as it is. *)
Theorem live_lease_kept db n l now order name owner ttl :
  leases db !! n = Some l -> now < l_expires l -> owner <> l_owner l -> order ≡ₚ map_to_list (leases db) ->
  (forall o db', acquire_pipeline_lease_fenced order now name owner ttl db = Ok (o, db') -> leases db' !! n = Some l) /\
  (forall o db', renew_pipeline_lease now name owner ttl db = Ok (o, db') -> leases db' !! n = Some l) /\
  (forall o db', release_pipeline_lease_row name owner db = Ok (o, db') -> leases db' !! n = Some l) /\
  (forall o db', release_pipeline_lease name owner db = Ok (o, db') -> leases db' !! n = Some l).
Proof.
  intros Hl Hlive Hne Ho. split; [|split; [|split]]; intros o db' E.
  - destruct o as [g|h].
    + pose proof E as (exp & Hm & _ & Hfree)%acquire_granted. rewrite Hm.
      destruct (decide (name = n)) as [->|Hn]; [destruct (Hfree _ Hl); [congruence|lia]|].
      rewrite lookup_insert_ne by done. apply sweep_keeps; auto.
    + unfold acquire_pipeline_lease_fenced in E. rbind_inv. repeat case_match; by simplify_eq.
  - unfold renew_pipeline_lease in E. rbind_inv. repeat case_match; simplify_eq; try done. simpl.
    destruct (decide (name = n)) as [->|Hn]; [|by rewrite lookup_insert_ne]. bool_to_prop.
    match goal with H : String.eqb _ _ = true |- _ => apply String.eqb_eq in H end. congruence.
  - unfold release_pipeline_lease_row in E. rbind_inv.
    destruct (decide (name = n)) as [->|Hn].
    + rewrite Hl in E. destruct (String.eqb_spec (l_owner l) owner); [congruence|]. by simplify_eq.
    + repeat case_match; simplify_eq; try done; simpl; by rewrite lookup_delete_ne.
  - unfold release_pipeline_lease in E. rbind_inv.
    destruct (decide (name = n)) as [->|Hn].
    + rewrite Hl in E. destruct (String.eqb_spec (l_owner l) owner); [congruence|]. by simplify_eq.
    + repeat case_match; simplify_eq; try done; simpl; by rewrite lookup_delete_ne.
Qed.

(** *** A takeover *)

Definition lead_a : LeaseDb := mkLeaseDb {["lead" := mkLease "a" 0 5000 1]} 1.
Definition lead_b : LeaseDb := mkLeaseDb {["lead" := mkLease "b" 6000 11000 2]} 2.
Definition takeover : list Grant := [(2, "lead", "b"); (1, "lead", "a")].

Lemma takeover_reach : reach lead_b takeover.
Proof.
  apply (reach_step lead_a [(1, "lead", "a")] [(2, "lead", "b")] lead_b).
  - apply (reach_step (mkLeaseDb ∅ 0) [] [(1, "lead", "a")] lead_a); [by apply reach_start, map_Forall_empty|].
    apply (step_acquire [] 0 "lead" "a" 5); [done|]. reflexivity.
  - apply (step_acquire [("lead", mkLease "a" 0 5000 1)] 6000 "lead" "b" 5); [|reflexivity].
    simpl. by rewrite map_to_list_singleton.
Qed.

Lemma fenced_out_witness : lead_check 4000 [] (Fenced "lead" "a" 1) lead_b <> Ok None.
Proof.
  apply (fenced_out lead_b takeover [] [(1, "lead", "a")] 1 "lead" "a" 2 "b" 4000 []); [|reflexivity| |discriminate].
  - apply takeover_reach.
  - unfold granted. apply list_elem_of_singleton. reflexivity.
Defined.

Lemma fenced_identity_witness :
  granted takeover 2 "lead" "b" /\ forall n' o', granted takeover 2 n' o' -> n' = "lead" /\ o' = "b".
Proof.
  destruct (fenced_identity lead_b takeover 7000 ["lead"] "lead" "b" 2 None takeover_reach eq_refl) as (H1 & H2 & _).
  split; [exact H1|exact H2].
Defined.

Lemma live_lease_kept_witness :
  exists o db', acquire_pipeline_lease_fenced [("lead", mkLease "a" 0 5000 1)] 4000 "lead" "b" 5 lead_a = Ok (o, db') /\
    leases db' !! "lead" = Some (mkLease "a" 0 5000 1).
Proof.
  eexists _, _. split; [vm_compute; reflexivity|].
  eapply (live_lease_kept lead_a "lead" (mkLease "a" 0 5000 1) 4000 [("lead", mkLease "a" 0 5000 1)] "lead" "b" 5);
    [reflexivity|simpl; lia|discriminate| |vm_compute; reflexivity]. simpl. by rewrite map_to_list_singleton.
Defined.
