(* ===== verification/Claim.v ===== *)
(** * Claims on the roster

    Who may start work: issue identities (pipeline_identity.rs), the stored
    forms of a dispatch's status (issue.rs), the handoff paths of a stage
    (pipeline_run.rs) and the decision on a claim (pipeline_claim.rs). *)
From Stdlib Require Import Ascii String.
From S2P Require Import Prelude RustStr RustText RustChars Pipeline.
Local Open Scope string_scope.
Local Open Scope list_scope.

(** ** Statuses *)

Definition as_str (s : AgentDispatchStatus) : string :=
  match s with
  | Queued => "queued"
  | Spawning => "spawning"
  | Running => "running"
  | WaitingHuman => "waiting_human"
  | PrOpen => "pr_open"
  | Merged => "merged"
  | Abandoned => "abandoned"
  | Done => "done"
  | Failed => "failed"
  | StatusUnknown => "unknown"
  end.

Definition known_statuses : list AgentDispatchStatus :=
  [Queued; Spawning; Running; WaitingHuman; PrOpen; Merged; Abandoned; Done; Failed].

Definition parse (s : string) : AgentDispatchStatus :=
  default StatusUnknown (List.find (fun k => String.eqb (trim s) (as_str k)) known_statuses).

Definition is_terminal (s : AgentDispatchStatus) : bool :=
  match s with Merged | Abandoned | Done | Failed => true | _ => false end.

Definition is_active (s : AgentDispatchStatus) : bool :=
  match s with Queued | Spawning | Running | WaitingHuman | PrOpen => true | _ => false end.

Definition set_status_transition_allowed (from to : AgentDispatchStatus) : bool :=
  if bool_decide (to = StatusUnknown) || bool_decide (to = Queued) then false
  else if bool_decide (from = to) then true
  else
    match to with
    | Merged => match from with Done | PrOpen => true | _ => false end
    | Done => match from with Running | Spawning | WaitingHuman | Failed => true | _ => false end
    | _ =>
        is_active from ||
        match from, to with
        | Done, Abandoned | Failed, Abandoned => true
        | StatusUnknown, (Failed | Abandoned) => true
        | _, _ => false
        end
    end.

(** ** Issue identities *)

Definition split_issue_id (issue_id : string) : option string * string :=
  match split_once ":" issue_id with
  | Some (provider, key) => if is_empty key then (None, issue_id) else (Some provider, key)
  | None => (None, issue_id)
  end.

Definition provider_byte (b : ascii) : bool :=
  byte_in 48 57 b || byte_in 65 90 b || byte_in 97 122 b || Ascii.eqb b "_" || Ascii.eqb b "-".

Inductive IssueIdentityError := InvalidIssue (raw : string).

Definition canonical_issue_id (raw : string) : result IssueIdentityError string :=
  if existsb is_control (chars raw) then Err (InvalidIssue raw)
  else
    let trimmed := trim raw in
    if is_empty trimmed || existsb is_whitespace (chars trimmed) then Err (InvalidIssue raw)
    else
      match strip_suffix ":" trimmed with
      | Some _ => Err (InvalidIssue raw)
      | None =>
          match split_issue_id trimmed with
          | (Some provider, key) =>
              if is_empty provider || negb (str_forall provider_byte provider) then Err (InvalidIssue raw)
              else Ok (to_ascii_lowercase provider ++ ":" ++ key)%string
          | (None, key) => Ok key
          end
      end.

Definition same_issue (a b : string) : bool :=
  let '(provider_a, key_a) := split_issue_id (trim a) in
  let '(provider_b, key_b) := split_issue_id (trim b) in
  eq_ignore_case key_a key_b &&
  match provider_a, provider_b with
  | Some a, Some b => eq_ignore_case a b
  | _, _ => true
  end.

(** ** Handoff paths *)

Definition component_byte (b : ascii) : bool :=
  byte_in 48 57 b || byte_in 65 90 b || byte_in 97 122 b ||
  Ascii.eqb b "." || Ascii.eqb b "_" || Ascii.eqb b "-".

(** The loop of [sanitize]; [dash] is whether the output so far ends in `-`.
    A character of several bytes is one refused character: its bytes make one
    `-`, since a run of refused characters makes one. *)
Fixpoint sanitize_from (dash : bool) (s : string) : string :=
  match s with
  | EmptyString => EmptyString
  | String b s =>
      if component_byte b then String b (sanitize_from (Ascii.eqb b "-") s)
      else if dash then sanitize_from true s
      else String "-" (sanitize_from true s)
  end.

Definition edge_byte (b : ascii) : bool := Ascii.eqb b "-" || Ascii.eqb b ".".

(** [trim_matches(['-', '.'])]. *)
Fixpoint trim_edge_start (s : string) : string :=
  match s with
  | String b s' => if edge_byte b then trim_edge_start s' else s
  | EmptyString => EmptyString
  end.

Fixpoint trim_edge_end (s : string) : string :=
  match s with
  | EmptyString => EmptyString
  | String b s' =>
      match trim_edge_end s' with
      | EmptyString => if edge_byte b then EmptyString else String b EmptyString
      | t => String b t
      end
  end.

Definition sanitize (raw fallback : string) : string :=
  let trimmed := trim_edge_end (trim_edge_start (sanitize_from false raw)) in
  if is_empty trimmed then fallback else trimmed.

Definition issue_key (issue_id : string) : string := sanitize (split_issue_id issue_id).2 "issue".

Definition artifact_path_of (issue_id stage : string) (row_id : Z) : string :=
  (".thegn/pipeline/" ++ issue_key issue_id ++ "/" ++ sanitize stage "stage" ++ "/" ++ fmt_i64 row_id ++ ".md")%string.

(** ** The decision *)

Record AgentDispatch := mkAgentDispatch {
  d_id : Z;
  d_issue_id : string;
  d_worktree_path : string;
  d_agent_name : string;
  d_dispatched_at_ms : Z;
  d_status : AgentDispatchStatus;
  d_stage : option string;
  d_parent_id : option Z;
  d_session_id : option string;
  d_artifact_path : option string;
  d_chunk_path : option string;
  d_exit_code : option Z;
  d_exited_at_ms : option Z;
}.

Record ClaimRequest := mkClaimRequest {
  q_issue_id : string;
  q_stage : string;
  q_worktree_path : string;
  q_artifact_path : option string;
  q_chunk_path : option string;
}.

Inductive ClaimDecision :=
| ClaimGrant
| DuplicateOf (id : Z) (exited : bool)
| AtCapacity (occupied : nat) (limit : N) (stale : nat).

Definition claim_granted (d : ClaimDecision) : bool := match d with ClaimGrant => true | _ => false end.

Definition occupies (r : AgentDispatch) : bool := is_active (d_status r).

Definition exited (r : AgentDispatch) : bool :=
  match d_exit_code r, d_exited_at_ms r with None, None => false | _, _ => true end.

(** [norm]: trimmed, and nothing when blank. *)
Definition norm (v : option string) : option string :=
  match v with
  | Some v => if is_empty (trim v) then None else Some (trim v)
  | None => None
  end.

Definition same_assignment (row_artifact row_chunk artifact chunk : option string) : bool :=
  match norm row_artifact, norm artifact with
  | Some a, Some b => String.eqb a b
  | _, _ => bool_decide (norm row_chunk = norm chunk)
  end.

Definition in_stage (stage : string) (r : AgentDispatch) : bool := bool_decide (trim <$> d_stage r = Some (trim stage)).

Definition same_work (r : AgentDispatch) (req : ClaimRequest) : bool :=
  same_issue (d_issue_id r) (q_issue_id req) && in_stage (q_stage req) r &&
  String.eqb (d_worktree_path r) (q_worktree_path req) &&
  same_assignment (d_artifact_path r) (d_chunk_path r) (q_artifact_path req) (q_chunk_path req).

Definition decide_allowing_duplicate (rows : list AgentDispatch) (req : ClaimRequest) (limit : N) (allow_duplicate : bool)
    : ClaimDecision :=
  match (if allow_duplicate then None else List.find (fun r => occupies r && same_work r req) rows) with
  | Some dup => DuplicateOf (d_id dup) (exited dup)
  | None =>
      let staged := List.filter (fun r => occupies r && in_stage (q_stage req) r) rows in
      if (limit <=? N.of_nat (length staged))%N
      then AtCapacity (length staged) limit (length (List.filter exited staged))
      else ClaimGrant
  end.

Definition decide_claim (rows : list AgentDispatch) (req : ClaimRequest) (limit : N) : ClaimDecision :=
  decide_allowing_duplicate rows req limit false.

(** ** Properties *)

Lemma parse_as_str s : s <> StatusUnknown -> parse (as_str s) = s.
Proof. by destruct s. Qed.

(** Work that ended stays ended. *)
Lemma transition_ended from to :
  set_status_transition_allowed from to = true -> is_active to = true -> is_active from = true.
Proof. by destruct from, to. Qed.

Lemma decide_granted rows req limit allow :
  decide_allowing_duplicate rows req limit allow = ClaimGrant ->
  (allow = false -> forall r, r ∈ rows -> occupies r = true -> same_work r req = false) /\
  (N.of_nat (length (List.filter (fun r => occupies r && in_stage (q_stage req) r) rows)) < limit)%N.
Proof.
  unfold decide_allowing_duplicate. intros H. split.
  - intros -> r Hr Ho. destruct (List.find _ rows) as [d|] eqn:E; [done|].
    apply list_elem_of_In in Hr. apply (List.find_none _ _ E) in Hr. by rewrite Ho in Hr.
  - destruct (if allow then None else _) as [d|]; [done|].
    destruct (N.leb_spec limit (N.of_nat (length (List.filter (fun r => occupies r && in_stage (q_stage req) r) rows)))); [done|lia].
Qed.

(** *** Components of a handoff path *)

Lemma sanitize_from_ok dash s : str_forall component_byte (sanitize_from dash s) = true.
Proof.
  revert dash. induction s as [|b s IH]; intros dash; simpl; [done|].
  destruct (component_byte b) eqn:E; simpl; [by rewrite E, IH|]. destruct dash; simpl; by rewrite ?IH.
Qed.

Lemma trim_edge_start_spec s :
  exists w, s = (w ++ trim_edge_start s)%string /\
    match trim_edge_start s with String b _ => edge_byte b = false | EmptyString => True end.
Proof.
  induction s as [|b s (w & E & H)]; simpl; [by exists ""|]. destruct (edge_byte b) eqn:Eb.
  - exists (String b w). split; [simpl; by rewrite E at 1|done].
  - by exists "".
Qed.

Lemma trim_edge_end_spec s :
  exists w, s = (trim_edge_end s ++ w)%string /\
    (trim_edge_end s = "" \/ exists t b, trim_edge_end s = (t ++ String b "")%string /\ edge_byte b = false).
Proof.
  induction s as [|b s (w & E & H)]; simpl; [exists ""; auto|].
  destruct (trim_edge_end s) as [|c t] eqn:Et.
  - simpl in E. destruct (edge_byte b) eqn:Eb.
    + exists (String b s). auto.
    + exists s. split; [done|]. right. by exists "", b.
  - exists w. split; [simpl; by rewrite E at 1|]. right. destruct H as [|(t' & b' & E' & Hb)]; [done|].
    exists (String b t'), b'. split; [simpl; by rewrite E'|done].
Qed.

(** A name that stays in its directory. *)
Definition plain_component (s : string) : Prop :=
  str_forall component_byte s = true /\ s <> "" /\ s <> "." /\ s <> "..".

Lemma sanitize_plain raw fallback : plain_component fallback -> plain_component (sanitize raw fallback).
Proof.
  intros Hf. unfold sanitize. destruct (trim_edge_start_spec (sanitize_from false raw)) as (w & E1 & _).
  destruct (trim_edge_end_spec (trim_edge_start (sanitize_from false raw))) as (w' & E2 & H2).
  pose proof (sanitize_from_ok false raw) as Hok. rewrite E1, str_forall_app in Hok. apply andb_true_iff in Hok as [_ Hok].
  rewrite E2, str_forall_app in Hok. apply andb_true_iff in Hok as [Hok _].
  destruct (trim_edge_end _) as [|c t] eqn:Et; [done|]. cbn [is_empty]. split; [done|]. split; [done|].
  destruct H2 as [|(t' & b & Eb & Hb)]; [done|].
  split; intros Hc; rewrite Hc in Eb; destruct t' as [|x [|y [|z t']]]; simpl in Eb; simplify_eq; by vm_compute in Hb.
Qed.

(** A handoff path stays under [.thegn/pipeline]: whatever the issue and the
    stage are called, each is one directory name of letters, digits, dots,
    underscores and dashes that is not [.] or [..]. *)
Theorem artifact_path_confined issue stage row :
  exists k s, artifact_path_of issue stage row =
      (".thegn/pipeline/" ++ k ++ "/" ++ s ++ "/" ++ fmt_i64 row ++ ".md")%string /\
    plain_component k /\ plain_component s /\
    split_char "/" (k ++ "/" ++ s)%string = [k; s].
Proof.
  exists (issue_key issue), (sanitize stage "stage"). split; [done|].
  assert (plain_component (issue_key issue)) as Hk by (apply sanitize_plain; by repeat split).
  assert (plain_component (sanitize stage "stage")) as Hs by (apply sanitize_plain; by repeat split).
  split; [done|]. split; [done|].
  assert (forall x, str_forall component_byte x = true -> no_char "/" x = true) as Hn.
  { induction x as [|b x IH]; [done|]. simpl. intros [Hb Hx]%andb_true_iff. rewrite IH, andb_true_r by done.
    destruct (Ascii.eqb_spec b "/") as [->|]; [done|done]. }
  change ("/" ++ sanitize stage "stage")%string with (String "/" (sanitize stage "stage")).
  rewrite (split_char_app "/") by (apply Hn, Hk). f_equal. apply split_char_single, Hn, Hs.
Qed.

(** A literal run of dashes is kept, only runs of other characters collapse. *)
Example sanitize_keeps_dashes : sanitize "a--b" "issue" = "a--b" /\ sanitize "a//b" "issue" = "a-b".
Proof. by split. Qed.
