(* ===== verification/Roster.v ===== *)
(** * The dispatch roster

    The store of thegn-core/src/db_dispatch.rs (with the row operations of
    db_notification.rs and the pruning of db_vacuum.rs): the rows of
    [agent_dispatches], the notes of [agent_dispatch_notes] and the lead leases,
    and every transaction on them.  SQLite runs one write transaction at a time,
    so each is a function from the store to the store; a call that fails or is
    refused rolls back, which is no new store in its result.

    Each call reads the clock once here.  The stored JSON of a chunk's scope goes
    through [serde_json], which is a parameter. *)
From Stdlib Require Import Ascii String.
From S2P Require Import Prelude RustOrd RustStr RustText RustChars Pipeline Glob ChunkScope ReportText Lease Claim.
Local Open Scope string_scope.
Local Open Scope list_scope.

(** ** Rows *)

Record Run := mkRun {
  session_id : option string;
  run_gen : Z;
  exit_code : option Z;
  exited_at_ms : option Z;
  native_session_id : option string;
}.

Record RetryState := mkRetryState {
  retry_attempt : Z;
  retry_counted_gen : option Z;
  retry_last_class : option string;
}.

Record DispatchOverride := mkDispatchOverride { ov_kind : string; ov_reason : string; ov_at_ms : Z }.

Record Row := mkRow {
  issue_id : string;
  worktree_path : string;
  agent_name : string;
  dispatched_at_ms : Z;
  status : string;
  status_changed_at_ms : option Z;
  stage : option string;
  parent_id : option Z;
  artifact_path : option string;
  chunk_path : option string;
  chunk_scope : option string;
  lead_lease : option string;
  run : Run;
  retry : RetryState;
  override : option DispatchOverride;
  report : option (string * option string);
  note : option string;
}.

Record Note := mkNote { n_dispatch : Z; n_at_ms : Z; n_text : string }.

Record Store := mkStore {
  rows : gmap Z Row;
  last_id : Z;
  notes : list Note;
  lease_db : LeaseDb;
}.

(** Writes of single columns.  The trigger of schema v73 stamps every write of
    the status. *)
Definition set_status (now : Z) (s : AgentDispatchStatus) (r : Row) : Row :=
  mkRow (issue_id r) (worktree_path r) (agent_name r) (dispatched_at_ms r) (as_str s) (Some now) (stage r) (parent_id r)
    (artifact_path r) (chunk_path r) (chunk_scope r) (lead_lease r) (run r) (retry r) (override r) (report r) (note r).
Definition set_run (x : Run) (r : Row) : Row :=
  mkRow (issue_id r) (worktree_path r) (agent_name r) (dispatched_at_ms r) (status r) (status_changed_at_ms r) (stage r)
    (parent_id r) (artifact_path r) (chunk_path r) (chunk_scope r) (lead_lease r) x (retry r) (override r) (report r) (note r).
Definition set_artifact (x : option string) (r : Row) : Row :=
  mkRow (issue_id r) (worktree_path r) (agent_name r) (dispatched_at_ms r) (status r) (status_changed_at_ms r) (stage r)
    (parent_id r) x (chunk_path r) (chunk_scope r) (lead_lease r) (run r) (retry r) (override r) (report r) (note r).
Definition set_scope (x : option string) (r : Row) : Row :=
  mkRow (issue_id r) (worktree_path r) (agent_name r) (dispatched_at_ms r) (status r) (status_changed_at_ms r) (stage r)
    (parent_id r) (artifact_path r) (chunk_path r) x (lead_lease r) (run r) (retry r) (override r) (report r) (note r).
Definition set_lead (x : option string) (r : Row) : Row :=
  mkRow (issue_id r) (worktree_path r) (agent_name r) (dispatched_at_ms r) (status r) (status_changed_at_ms r) (stage r)
    (parent_id r) (artifact_path r) (chunk_path r) (chunk_scope r) x (run r) (retry r) (override r) (report r) (note r).
Definition set_retry (x : RetryState) (r : Row) : Row :=
  mkRow (issue_id r) (worktree_path r) (agent_name r) (dispatched_at_ms r) (status r) (status_changed_at_ms r) (stage r)
    (parent_id r) (artifact_path r) (chunk_path r) (chunk_scope r) (lead_lease r) (run r) x (override r) (report r) (note r).
Definition set_override (x : option DispatchOverride) (r : Row) : Row :=
  mkRow (issue_id r) (worktree_path r) (agent_name r) (dispatched_at_ms r) (status r) (status_changed_at_ms r) (stage r)
    (parent_id r) (artifact_path r) (chunk_path r) (chunk_scope r) (lead_lease r) (run r) (retry r) x (report r) (note r).
Definition set_report (x : option (string * option string)) (r : Row) : Row :=
  mkRow (issue_id r) (worktree_path r) (agent_name r) (dispatched_at_ms r) (status r) (status_changed_at_ms r) (stage r)
    (parent_id r) (artifact_path r) (chunk_path r) (chunk_scope r) (lead_lease r) (run r) (retry r) (override r) x (note r).
Definition set_note (x : option string) (r : Row) : Row :=
  mkRow (issue_id r) (worktree_path r) (agent_name r) (dispatched_at_ms r) (status r) (status_changed_at_ms r) (stage r)
    (parent_id r) (artifact_path r) (chunk_path r) (chunk_scope r) (lead_lease r) (run r) (retry r) (override r) (report r) x.

(** A new run clears the binding of the report to a commit. *)
Definition clear_report_head (r : Row) : Row := set_report ((fun t => (t.1, None)) <$> report r) r.

Definition put_row (id : Z) (r : Row) (st : Store) : Store :=
  mkStore (<[id := r]> (rows st)) (last_id st) (notes st) (lease_db st).
Definition add_note (id now : Z) (text : string) (st : Store) : Store :=
  mkStore (rows st) (last_id st) (notes st ++ [mkNote id now text]) (lease_db st).

(** ** Errors *)

Inductive ParentEdgeReason := ParentMissing | CrossIssue | Ineligible (s : AgentDispatchStatus).

Inductive RosterError :=
| TextRejected (e : DispatchTextRejected)
| RosterActiveCeiling (active limit : nat)
| LeadRefused (e : LeadError)
| ParentDispatchConflict (parent_id : Z) (reason : ParentEdgeReason)
| MissingDispatch (id : Z)
| IllegalTransition (id : Z) (from to : AgentDispatchStatus)
| StaleTransition (id : Z) (expected actual : AgentDispatchStatus)
| SourceStatusChanged (source_id : Z) (expected actual : AgentDispatchStatus)
| SourceUpdateLost (source_id : Z) (expected : AgentDispatchStatus)
| NoteQuotaCount (id : Z) (notes bytes : N)
| NoteQuotaBytes (id : Z) (notes bytes : N)
| BadText (e : TextError)
| Bail (message : string).

Definition checked {A} (r : result TextError A) : result RosterError A :=
  match r with Ok a => Ok a | Err e => Err (BadText e) end.
Definition led {A} (r : result LeadError A) : result RosterError A :=
  match r with Ok a => Ok a | Err e => Err (LeadRefused e) end.

(** ** Reading *)

Definition MS_EPOCH_FLOOR : Z := 100000000000.

Definition normalize_dispatch_ms (v : Z) : Z :=
  if ((0 <? v) && (v <? MS_EPOCH_FLOOR))%Z then Z.max i64_min (Z.min i64_max (v * 1000)) else v.

Definition map_dispatch (id : Z) (r : Row) : AgentDispatch :=
  mkAgentDispatch id (issue_id r) (worktree_path r) (agent_name r) (normalize_dispatch_ms (dispatched_at_ms r))
    (parse (status r)) (stage r) (parent_id r) (session_id (run r)) (artifact_path r) (chunk_path r)
    (exit_code (run r)) (exited_at_ms (run r)).

Definition ADMISSION_ACTIVE_STATUSES : list AgentDispatchStatus := [Queued; Spawning; Running; WaitingHuman; PrOpen].

(** [status IN (..)]: a comparison of the stored strings. *)
Definition status_in (ss : list AgentDispatchStatus) (r : Row) : bool :=
  existsb (fun s => String.eqb (status r) (as_str s)) ss.

Definition stored_active (r : Row) : bool := status_in ADMISSION_ACTIVE_STATUSES r.

Definition newest_first : Z * Row -> Z * Row -> comparison :=
  lex (reverse (on (fun e : Z * Row => dispatched_at_ms e.2) Z.compare)) (reverse (on fst Z.compare)).

Definition admission_entries (issue wt : string) (st : Store) : list (Z * Row) :=
  sort_by newest_first
    (List.filter (fun e : Z * Row => stored_active e.2 ||
       String.eqb (issue_id e.2) issue && String.eqb (worktree_path e.2) wt) (map_to_list (rows st))).

Definition admission_rows (issue wt : string) (st : Store) : list AgentDispatch :=
  map (fun e => map_dispatch e.1 e.2) (admission_entries issue wt st).

Definition active_bound_leases (issue : string) (st : Store) : list string :=
  let bound := List.filter (fun e : Z * Row => bool_decide (is_Some (lead_lease e.2)) && stored_active e.2)
    (sort_by (on fst Z.compare) (map_to_list (rows st))) in
  fold_left (fun leases (e : Z * Row) =>
    match lead_lease e.2 with
    | Some lease =>
        if same_issue (issue_id e.2) issue && negb (bool_decide (lease ∈ leases)) then leases ++ [lease] else leases
    | None => leases
    end) bound [].

Definition worktrees_with_active_dispatch (st : Store) : list string :=
  fold_left (fun out (e : Z * Row) =>
    if is_active (parse (status e.2)) && negb (bool_decide (worktree_path e.2 ∈ out))
    then out ++ [worktree_path e.2] else out) (map_to_list (rows st)) [].

(** ** Inserting *)

Record NewDispatch := mkNewDispatch {
  nd_issue_id : string;
  nd_worktree_path : string;
  nd_agent_name : string;
  nd_stage : option string;
  nd_parent_id : option Z;
  nd_session_id : option string;
  nd_artifact_path : option string;
  nd_chunk_path : option string;
}.

Definition ROSTER_ACTIVE_LIMIT : N := 4096.

Fixpoint check_fields (fs : list (string * option string)) : result RosterError unit :=
  match fs with
  | [] => Ok tt
  | (field, Some value) :: fs =>
      match dispatch_text_field field value with
      | Ok _ => check_fields fs
      | Err e => Err (TextRejected e)
      end
  | (_, None) :: fs => check_fields fs
  end.

Definition new_row (now : Z) (new : NewDispatch) : Row :=
  mkRow (nd_issue_id new) (nd_worktree_path new) (nd_agent_name new) now "queued" None (nd_stage new) (nd_parent_id new)
    (nd_artifact_path new) (nd_chunk_path new) None None (mkRun (nd_session_id new) 0 None None None)
    (mkRetryState 0 None None) None None None.

Definition active_count (st : Store) : nat :=
  length (List.filter (fun e : Z * Row => stored_active e.2) (map_to_list (rows st))).

Definition put_agent_dispatch (now : Z) (new : NewDispatch) (st : Store) : result RosterError (Z * Store) :=
  let? _ := check_fields
    [("issue_id", Some (nd_issue_id new)); ("worktree_path", Some (nd_worktree_path new));
     ("agent_name", Some (nd_agent_name new)); ("stage", nd_stage new); ("session_id", nd_session_id new);
     ("artifact_path", nd_artifact_path new); ("chunk_path", nd_chunk_path new)] in
  if (ROSTER_ACTIVE_LIMIT <=? N.of_nat (active_count st))%N
  then Err (RosterActiveCeiling (active_count st) (N.to_nat ROSTER_ACTIVE_LIMIT))
  else
    let id := (last_id st + 1)%Z in
    Ok (id, mkStore (<[id := new_row now new]> (rows st)) id (notes st) (lease_db st)).

Definition validate_parent_edge (parent_id : Z) (child_issue : string) (st : Store) : result RosterError unit :=
  match rows st !! parent_id with
  | None => Err (ParentDispatchConflict parent_id ParentMissing)
  | Some p =>
      if negb (String.eqb (issue_key (issue_id p)) (issue_key child_issue))
      then Err (ParentDispatchConflict parent_id CrossIssue)
      else
        match parse (status p) with
        | (Failed | Abandoned | StatusUnknown) as s => Err (ParentDispatchConflict parent_id (Ineligible s))
        | _ => Ok tt
        end
  end.

Definition validate_parent (parent : option Z) (child_issue : string) (st : Store) : result RosterError unit :=
  match parent with
  | Some p => validate_parent_edge p child_issue st
  | None => Ok tt
  end.

(** [self.append_dispatch_note]. *)
Definition append_dispatch_note (now id : Z) (text : string) (st : Store) : result RosterError Store :=
  let? text := checked (note_text text) in
  match rows st !! id with
  | None => Err (Bail ("roster row " ++ fmt_i64 id ++ " does not exist"))
  | Some _ => Ok (add_note id now text st)
  end.

Definition append_dispatch_note_record (now id : Z) (text : string) (st : Store) : result RosterError Store :=
  let? text := checked (note_text text) in
  match rows st !! id with
  | None => Err (Bail ("roster row " ++ fmt_i64 id ++ " does not exist"))
  | Some _ =>
      let mine := List.filter (fun n => (n_dispatch n =? id)%Z) (notes st) in
      let count := N.of_nat (length mine) in
      let bytes := N.of_nat (sum_list_with (fun n => String.length (n_text n)) mine) in
      if (NOTE_MAX_PER_ROW <=? count)%N then Err (NoteQuotaCount id count bytes)
      else if (NOTE_MAX_BYTES_PER_ROW <? u64_sat_add bytes (N.of_nat (String.length text)))%N
           then Err (NoteQuotaBytes id count bytes)
      else Ok (add_note id now text st)
  end.

(** The lease a proof names binds the row it creates. *)
Definition proof_lease (proof : LeadProof) : option string :=
  match proof with
  | LeaseProof name _ | Fenced name _ _ => Some name
  | _ => None
  end.

Definition update_row (id : Z) (f : Row -> Row) (st : Store) : Store :=
  match rows st !! id with
  | Some r => put_row id (f r) st
  | None => st
  end.

(** What every insertion does after the row is in: the lease, the audit note and
    the artifact path. *)
Definition finish_insert (now id : Z) (new : NewDispatch) (proof : LeadProof) (audit : option string) (st : Store)
    : result RosterError Store :=
  let st := match proof_lease proof with Some name => update_row id (set_lead (Some name)) st | None => st end in
  let? st := match audit with
             | Some a => let? a := checked (note_text a) in append_dispatch_note now id a st
             | None => Ok st
             end in
  match nd_stage new, nd_artifact_path new with
  | Some stage, None => Ok (update_row id (set_artifact (Some (artifact_path_of (nd_issue_id new) stage id))) st)
  | _, _ => Ok st
  end.

Definition put_dispatch_with_parent_check_led (now : Z) (new : NewDispatch) (proof : LeadProof) (st : Store)
    : result RosterError (Z * Store) :=
  let? audit := led (lead_check now (active_bound_leases (nd_issue_id new) st) proof (lease_db st)) in
  let? _ := validate_parent (nd_parent_id new) (nd_issue_id new) st in
  let? idst := put_agent_dispatch now new st in
  let '(id, st) := idst in
  let? st := finish_insert now id new proof audit st in
  Ok (id, st).

(** ** Setting a status *)

Definition bound_of (id : Z) (st : Store) : list string :=
  match rows st !! id with
  | Some r => match lead_lease r with Some l => [l] | None => [] end
  | None => []
  end.

(** SQLite's [trim]: spaces only. *)
Definition sql_trim (s : string) : string :=
  let fix go s := match s with
                  | String " " s' => go s'
                  | _ => s
                  end in trim_end_matches " " (go s).

Definition status_matches (expected : AgentDispatchStatus) (r : Row) : bool :=
  match expected with
  | StatusUnknown => negb (existsb (fun s => String.eqb (sql_trim (status r)) (as_str s)) known_statuses)
  | _ => String.eqb (status r) (as_str expected)
  end.

Definition optional_note (note : option string) : result RosterError (option string) :=
  match note with
  | Some n => let? n := checked (note_text n) in Ok (Some n)
  | None => Ok None
  end.

Definition note_if (id now : Z) (text : option string) (st : Store) : Store :=
  match text with Some t => add_note id now t st | None => st end.

Definition set_dispatch_status_led (now id : Z) (expected to : AgentDispatchStatus) (note : option string) (proof : LeadProof)
    (st : Store) : result RosterError Store :=
  match rows st !! id with
  | None => Err (MissingDispatch id)
  | Some r =>
      if negb (set_status_transition_allowed expected to) then Err (IllegalTransition id expected to)
      else
        let? note := optional_note note in
        let? audit := led (lead_check now (bound_of id st) proof (lease_db st)) in
        if status_matches expected r then
          let? audit := optional_note audit in
          Ok (note_if id now audit (note_if id now note (put_row id (set_status now to r) st)))
        else Err (StaleTransition id expected (parse (status r)))
  end.

Definition FORCE_REASON_MAX_CHARS : N := 512.
Definition OVERRIDE_FORCE_DONE : string := "force_done".

Definition set_dispatch_status_forced_led (now id : Z) (expected to : AgentDispatchStatus) (reason : string)
    (proof : LeadProof) (st : Store) : result RosterError Store :=
  match rows st !! id with
  | None => Err (MissingDispatch id)
  | Some r =>
      if negb (set_status_transition_allowed expected to) then Err (IllegalTransition id expected to)
      else if negb (bool_decide (to = Done)) then Err (Bail "dispatch override only supports the done gate")
      else
        let? reason := checked (note_text reason) in
        if (FORCE_REASON_MAX_CHARS <? N.of_nat (length (chars reason)))%N
        then Err (Bail "force reason exceeds 512 characters")
        else
          let? audit := led (lead_check now (bound_of id st) proof (lease_db st)) in
          if String.eqb (status r) (as_str expected) then
            let? audit := optional_note audit in
            let r := set_override (Some (mkDispatchOverride OVERRIDE_FORCE_DONE reason now)) (set_status now to r) in
            Ok (note_if id now audit (add_note id now ("set-status done (forced): " ++ reason) (put_row id r st)))
          else Err (StaleTransition id expected (parse (status r)))
  end.

Definition check_dispatch_lead (now id : Z) (proof : LeadProof) (st : Store) : result RosterError unit :=
  match rows st !! id with
  | None => Err (MissingDispatch id)
  | Some _ => let? _ := led (lead_check now (bound_of id st) proof (lease_db st)) in Ok tt
  end.

Definition update_dispatch_status (now id : Z) (s : AgentDispatchStatus) (st : Store) : Store :=
  update_row id (set_status now s) st.

Definition update_dispatch_status_with_note (now id : Z) (s : AgentDispatchStatus) (text : string) (st : Store)
    : result RosterError Store :=
  let? text := checked (note_text text) in
  match rows st !! id with
  | None => Err (Bail ("roster row " ++ fmt_i64 id ++ " does not exist"))
  | Some r => Ok (add_note id now text (put_row id (set_status now s r) st))
  end.

(** ** Runs

    A run is named by its row, the session that launched it and the row's launch
    generation; writes on behalf of a run match all three. *)

Record DispatchRunRef := mkDispatchRunRef { rr_id : Z; rr_issue_id : string; rr_session_id : string; rr_run_gen : Z }.

(** [COALESCE(session_id, '')]. *)
Definition session_of (r : Row) : string := default "" (session_id (run r)).

Definition fenced_by (ref : DispatchRunRef) (r : Row) : bool :=
  String.eqb (session_of r) (rr_session_id ref) && (run_gen (run r) =? rr_run_gen ref)%Z.

Definition run_ref (id : Z) (r : Row) : DispatchRunRef := mkDispatchRunRef id (issue_id r) (session_of r) (run_gen (run r)).

Definition dispatch_run_ref (id : Z) (st : Store) : option DispatchRunRef := run_ref id <$> rows st !! id.

Definition running_dispatch_run_refs (st : Store) : list DispatchRunRef :=
  map (fun e : Z * Row => run_ref e.1 e.2) (List.filter (fun e : Z * Row => status_in [Running] e.2) (map_to_list (rows st))).

Definition spawning_run_refs (cutoff_ms : Z) (st : Store) : list (DispatchRunRef * Z) :=
  let since (r : Row) := default (dispatched_at_ms r) (status_changed_at_ms r) in
  map (fun e : Z * Row => (run_ref e.1 e.2, since e.2))
    (List.filter (fun e : Z * Row => status_in [Spawning] e.2 && (since e.2 <? cutoff_ms)%Z) (map_to_list (rows st))).

(** The next run of a row: a new session and generation, nothing of the last. *)
Definition launch (session : string) (r : Row) : Row :=
  clear_report_head (set_run (mkRun (Some session) (run_gen (run r) + 1) None None None) r).

Definition bind_dispatch_session (id : Z) (session : string) (st : Store) : bool * Store :=
  if is_empty session then (false, st)
  else
    match rows st !! id with
    | Some r =>
        if is_active (parse (status r)) && is_empty (session_of r) then
          (true, put_row id (clear_report_head (set_run
             (mkRun (Some session) (run_gen (run r) + 1) (exit_code (run r)) (exited_at_ms (run r)) None) r)) st)
        else (false, st)
    | None => (false, st)
    end.

Inductive DispatchRunPublishOutcome := Published | PublishMissing | StateChanged (s : AgentDispatchStatus).

Definition publish_dispatch_run (now id : Z) (session artifact : string) (st : Store) : DispatchRunPublishOutcome * Store :=
  match rows st !! id with
  | Some r =>
      if status_in [Queued; Spawning] r then
        (Published, put_row id (set_retry (mkRetryState 0 None None)
           (set_status now Running (set_artifact (Some artifact) (launch session r)))) st)
      else (StateChanged (parse (status r)), st)
  | None => (PublishMissing, st)
  end.

Definition cas_dispatch_status (now id : Z) (fence : option DispatchRunRef) (expected s : AgentDispatchStatus)
    (note : option string) (st : Store) : result RosterError (bool * Store) :=
  let? note := optional_note note in
  match rows st !! id with
  | Some r =>
      let hit := match fence with
                 | None => status_matches expected r
                 | Some ref => String.eqb (status r) (as_str expected) && fenced_by ref r
                 end in
      if hit then Ok (true, note_if id now note (put_row id (set_status now s r) st)) else Ok (false, st)
  | None => Ok (false, st)
  end.

Definition compare_and_set_dispatch_status (now id : Z) := cas_dispatch_status now id None.
Definition compare_and_set_dispatch_status_run (now : Z) (ref : DispatchRunRef) :=
  cas_dispatch_status now (rr_id ref) (Some ref).

(** The retry writes: a guarded update of one row. *)
Definition update_if (id : Z) (guard : Row -> bool) (f : Row -> Row) (st : Store) : bool * Store :=
  match rows st !! id with
  | Some r => if guard r then (true, put_row id (f r) st) else (false, st)
  | None => (false, st)
  end.

Definition compare_and_set_dispatch_retry_park (now id : Z) (expected : AgentDispatchStatus) (text : string) (st : Store)
    : result RosterError (bool * Store) :=
  let? text := checked (note_text text) in
  Ok (update_if id (fun r => String.eqb (status r) (as_str expected))
        (fun r => set_note (Some text) (set_status now WaitingHuman r)) st).

Definition compare_and_set_dispatch_retry_park_run (now : Z) (ref : DispatchRunRef) (expected : AgentDispatchStatus)
    (text : string) (st : Store) : result RosterError (bool * Store) :=
  let? text := checked (note_text text) in
  Ok (update_if (rr_id ref) (fun r => String.eqb (status r) (as_str expected) && fenced_by ref r)
        (fun r => set_note (Some text) (set_status now WaitingHuman r)) st).

Definition compare_and_set_dispatch_retry_run (now id : Z) (expected : AgentDispatchStatus) (session artifact : string)
    (st : Store) : bool * Store :=
  update_if id (fun r => String.eqb (status r) (as_str expected))
    (fun r => set_status now Running (set_artifact (Some artifact) (launch session r))) st.

Definition count_dispatch_retry_attempt_run (ref : DispatchRunRef) (cls : string) (st : Store) : option N * Store :=
  let cls := of_chars (take 128 (chars cls)) in
  match rows st !! rr_id ref with
  | Some r =>
      if fenced_by ref r && negb (bool_decide (retry_counted_gen (retry r) = Some (rr_run_gen ref))) then
        let n := (retry_attempt (retry r) + 1)%Z in
        (Some (if ((0 <=? n) && (n <=? Z.of_N u32_max))%Z then Z.to_N n else u32_max),
         put_row (rr_id ref) (set_retry (mkRetryState n (Some (rr_run_gen ref)) (Some cls)) r) st)
      else (None, st)
  | None => (None, st)
  end.

Definition compare_and_set_dispatch_retry_settle_run (now : Z) (ref : DispatchRunRef) (expected : AgentDispatchStatus)
    (text : string) (st : Store) : result RosterError (bool * Store) :=
  let? text := checked (note_text text) in
  Ok (update_if (rr_id ref) (fun r => String.eqb (status r) (as_str expected) && fenced_by ref r)
        (fun r => set_retry (mkRetryState 0 (Some (rr_run_gen ref)) None)
                    (set_note (Some text) (set_status now WaitingHuman r))) st).

Definition dispatch_retry_attempt (id : Z) (st : Store) : option N :=
  (fun r => let n := retry_attempt (retry r) in
            if ((0 <=? n) && (n <=? Z.of_N u32_max))%Z then Z.to_N n else u32_max) <$> rows st !! id.

Definition set_dispatch_report_bound (id : Z) (text : string) (head_oid : option string) (st : Store)
    : result RosterError Store :=
  let? text := checked (report_text text) in
  match rows st !! id with
  | None => Err (Bail ("roster row " ++ fmt_i64 id ++ " does not exist"))
  | Some r => Ok (put_row id (set_report (Some (text, head_oid)) r) st)
  end.

Definition dispatch_report_head (id : Z) (st : Store) : option string :=
  match rows st !! id with
  | Some r => match report r with Some (_, h) => h | None => None end
  | None => None
  end.

Definition set_dispatch_native_session (ref : DispatchRunRef) (native : string) (st : Store) : bool * Store :=
  if is_empty native then (false, st)
  else update_if (rr_id ref) (fun r => fenced_by ref r && bool_decide (native_session_id (run r) = None))
         (fun r => set_run (mkRun (session_id (run r)) (run_gen (run r)) (exit_code (run r)) (exited_at_ms (run r))
                              (Some native)) r) st.

Definition dispatch_native_session (ref : DispatchRunRef) (st : Store) : option string :=
  match rows st !! rr_id ref with
  | Some r => if fenced_by ref r then native_session_id (run r) else None
  | None => None
  end.

Inductive ExitStamp := Stamped | AlreadyStamped | StaleRun | MissingRow.

Definition stamp_dispatch_exit (now : Z) (ref : DispatchRunRef) (code : option Z) (st : Store) : ExitStamp * Store :=
  match rows st !! rr_id ref with
  | Some r =>
      match exited_at_ms (run r) with
      | None =>
          if fenced_by ref r then
            (Stamped, put_row (rr_id ref)
               (set_run (mkRun (session_id (run r)) (run_gen (run r)) code (Some now) (native_session_id (run r))) r) st)
          else (StaleRun, st)
      | Some _ => (if fenced_by ref r then AlreadyStamped else StaleRun, st)
      end
  | None => (MissingRow, st)
  end.

Definition stamp_dispatch_run (id : Z) (session artifact : string) (st : Store) : Store :=
  update_row id (fun r => set_artifact (Some artifact)
    (set_run (mkRun (Some session) (run_gen (run r) + 1) None None None) r)) st.

Definition stamp_dispatch_note (id : Z) (text : string) (st : Store) : Store := update_row id (set_note (Some text)) st.

(** ** Admission *)

Inductive DispatchAdmissionDecision :=
| ClaimRefused (d : ClaimDecision)
| ScopeRefused (message : string)
| RetryScopeSnapshot (row : Z) (path : string).

(** Of the prepared facts, those the transaction reads. *)
Record PreparedChunkAdmission := mkPreparedChunkAdmission { pc_path : string; pc_scope : ChunkScope }.

Definition claim_request (new : NewDispatch) : ClaimRequest :=
  mkClaimRequest (nd_issue_id new) (default "" (nd_stage new)) (nd_worktree_path new) (nd_artifact_path new) (nd_chunk_path new).

(** The JSON of a recorded scope. *)
Inductive Json :=
| JNumber (n : N)
| JString (s : string)
| JArray (l : list Json)
| JObject (fields : list (string * Json))
| JOther.

(** [json!({ "v": 1, "files": files })]. *)
Definition scope_json (files : list string) : Json :=
  JObject [("files", JArray (map JString files)); ("v", JNumber 1)].

Section Admission.
Context (json_to_string : Json -> string) (json_from_str : string -> result string Json).

Definition encode_chunk_scope (files : list string) : string := json_to_string (scope_json files).

Definition json_get (key : string) (j : Json) : option Json :=
  match j with
  | JObject fields => snd <$> List.find (fun f => String.eqb f.1 key) fields
  | _ => None
  end.

Definition json_strings (l : list Json) : option (list string) :=
  mapM (fun j => match j with JString s => Some s | _ => None end) l.

Definition decode_chunk_scope (raw : string) : result string (list string) :=
  match json_from_str raw with
  | Err e => Err e
  | Ok value =>
      match json_get "v" value with
      | Some (JNumber 1) =>
          match json_get "files" value with
          | Some (JArray files) =>
              match json_strings files with
              | Some l => Ok l
              | None => Err "admitted chunk scope contains a non-string file"
              end
          | _ => Err "admitted chunk scope has no files array"
          end
      | _ => Err "unsupported admitted chunk scope version"
      end
  end.

Definition dispatch_chunk_scope (id : Z) (st : Store) : result string (option (list string)) :=
  match rows st !! id with
  | Some r =>
      match chunk_scope r with
      | Some raw => let? l := decode_chunk_scope raw in Ok (Some l)
      | None => Ok None
      end
  | None => Ok None
  end.

Definition is_sibling (new : NewDispatch) (r : Row) : bool :=
  same_issue (issue_id r) (nd_issue_id new) && String.eqb (worktree_path r) (nd_worktree_path new).

(** The loop over the admission rows: the candidates for [after:] and the active
    scopes, or the refusal of a sibling that has none recorded. *)
Fixpoint gather (new : NewDispatch) (es : list (Z * Row)) (active : list ActiveScope) (cands : list AfterCandidate)
    : result RosterError (result string (list ActiveScope * list AfterCandidate)) :=
  match es with
  | [] => Ok (Ok (active, cands))
  | (id, r) :: es =>
      if negb (is_sibling new r) then gather new es active cands
      else
        match chunk_path r with
        | None => gather new es active cands
        | Some path =>
            if is_empty (trim path) then gather new es active cands
            else
              let cands := if bool_decide (stage r = nd_stage new)
                           then cands ++ [mkAfterCandidate id path (parse (status r))] else cands in
              let path := trim path in
              let name := default "" (file_stem path) in
              if negb (is_active (parse (status r))) then gather new es active cands
              else
                match chunk_scope r with
                | Some raw =>
                    match decode_chunk_scope raw with
                    | Ok files => gather new es (active ++ [mkActiveScope id name files]) cands
                    | Err e =>
                        Err (Bail ("active sibling row " ++ fmt_i64 id ++ " has a corrupt admitted chunk scope: " ++ e))
                    end
                | None =>
                    Ok (Err ("active sibling row " ++ fmt_i64 id ++ " (" ++ path ++
                      ") has no admitted scope snapshot, so its ownership is unknown; close it with " ++
                      "`thegn dispatch set-status " ++ fmt_i64 id ++ " abandoned` (or `failed`), or override with " ++
                      "`thegn dispatch claim … --allow-scope-overlap <REASON>` / " ++
                      "`thegn dispatch put … --force --force-reason <REASON>`")%string)
                end
        end
  end.

Definition conflict_reasons (path : string) (active : list ActiveScope) (found : list (nat * list (string * string)))
    : list string :=
  concat (map (fun f : nat * list (string * string) =>
    match active !! f.1 with
    | Some sib =>
        map (fun p : string * string =>
          (path ++ " vs " ++ as_name sib ++ ": " ++ p.1 ++ " collides with " ++ p.2 ++ " (active row " ++
           fmt_i64 (as_row sib) ++ "; admitted scope snapshot)")%string) f.2
    | None => []
    end) found).

Definition after_reason (stage : option string) (idx : AfterIndex) (name : string) : string :=
  let stage := default "" stage in
  match ambiguous idx !! name with
  | Some cs =>
      ("after " ++ name ++ " is ambiguous: rows " ++
       join ", " (map (fun c : Z * string => fmt_i64 c.1 ++ " (" ++ c.2 ++ ")")%string cs) ++
       " share that chunk name in stage " ++ stage)%string
  | None =>
      match governing idx !! name with
      | Some (row, s) => ("after " ++ name ++ " is not done (row " ++ fmt_i64 row ++ ": " ++ as_str s ++ ")")%string
      | None => ("after " ++ name ++ " is not done (no " ++ stage ++ " dispatch row for it)")%string
      end
  end.

Definition show_match_error (e : MatchError) : string :=
  match e with OverBudget => "OverBudget" | UnsupportedPattern => "UnsupportedPattern" end.

Definition scope_reasons (prepared : PreparedChunkAdmission) (stage : option string) (active : list ActiveScope)
    (idx : AfterIndex) : list string :=
  match verdict (pc_scope prepared) active (ai_done idx) with
  | Conflict found => conflict_reasons (pc_path prepared) active found
  | Unknown e => [("chunk scope overlap could not be proven within budget: " ++ show_match_error e)%string]
  | _ => []
  end ++ map (after_reason stage idx) (after_unmet (after (pc_scope prepared)) (ai_done idx)).

(** The gate of a claim on a chunk. *)
Definition scope_gate (new : NewDispatch) (es : list (Z * Row)) (prepared : option PreparedChunkAdmission)
    (allow_scope : option string) : result RosterError (option string) :=
  match nd_chunk_path new with
  | None => Ok None
  | Some chunk =>
      match prepared with
      | None => Ok (Some "chunk scope was not prepared before admission")
      | Some p =>
          if negb (String.eqb (pc_path p) chunk)
          then Ok (Some "prepared chunk scope does not match the claimed chunk path")
          else
            match allow_scope with
            | Some _ => Ok None
            | None =>
                let? g := gather new es [] [] in
                match g with
                | Err refused => Ok (Some refused)
                | Ok (active, cands) =>
                    match scope_reasons p (nd_stage new) active (after_index cands) with
                    | [] => Ok None
                    | reasons =>
                        Ok (Some ("chunk scope gate refused " ++ pc_path p ++ ":" ++ String newline "  - " ++
                          join (String newline "  - ") reasons)%string)
                    end
                end
            end
      end
  end.

Definition nonblank (v : option string) (message : string) : result RosterError (option string) :=
  match v with
  | Some w => if is_empty (trim w) then Err (Bail message) else Ok (Some (trim w))
  | None => Ok None
  end.

Definition claim_dispatch_admitted_led (now : Z) (new : NewDispatch) (limit : N) (allow_duplicate : option string)
    (prepared : option PreparedChunkAdmission) (allow_scope : option string) (proof : LeadProof) (st : Store)
    : result RosterError (result DispatchAdmissionDecision (Z * Store)) :=
  let? allow_duplicate := nonblank allow_duplicate "--allow-duplicate requires a non-empty reason" in
  let? allow_scope := nonblank allow_scope "--force requires a non-empty reason when used with --chunk" in
  if bool_decide (is_Some allow_scope) && bool_decide (nd_chunk_path new = None)
  then Err (Bail "a scope override requires --chunk")
  else
    let? audit := led (lead_check now (active_bound_leases (nd_issue_id new) st) proof (lease_db st)) in
    let es := admission_entries (nd_issue_id new) (nd_worktree_path new) st in
    let? _ := validate_parent (nd_parent_id new) (nd_issue_id new) st in
    let? gate := scope_gate new es prepared allow_scope in
    match gate with
    | Some refused => Ok (Err (ScopeRefused refused))
    | None =>
        match decide_allowing_duplicate (admission_rows (nd_issue_id new) (nd_worktree_path new) st) (claim_request new) limit
                (bool_decide (is_Some allow_duplicate)) with
        | ClaimGrant =>
            let? idst := put_agent_dispatch now new st in
            let '(id, st) := idst in
            let? st := finish_insert now id new proof audit st in
            let st := match prepared with
                      | Some p => update_row id (set_scope (Some (encode_chunk_scope (files (pc_scope p))))) st
                      | None => st
                      end in
            let? st := match allow_duplicate with
                       | Some why => append_dispatch_note now id ("duplicate dispatch explicitly authorized: " ++ why) st
                       | None => Ok st
                       end in
            let? st := match allow_scope with
                       | Some why => append_dispatch_note now id ("chunk scope override explicitly authorized: " ++ why) st
                       | None => Ok st
                       end in
            Ok (Ok (id, st))
        | d => Ok (Err (ClaimRefused d))
        end
    end.

Definition claim_resume_dispatch_led (now source_id : Z) (expected_source_status : AgentDispatchStatus) (new : NewDispatch)
    (limit : N) (proof : LeadProof) (st : Store) : result RosterError (result ClaimDecision (Z * Store)) :=
  match rows st !! source_id with
  | None => Err (Bail ("dispatch " ++ fmt_i64 source_id ++ " disappeared"))
  | Some source =>
      let bound := active_bound_leases (nd_issue_id new) st in
      let bound := match lead_lease source with
                   | Some l => if bool_decide (l ∈ bound) then bound else bound ++ [l]
                   | None => bound
                   end in
      let? audit := led (lead_check now bound proof (lease_db st)) in
      let current := parse (status source) in
      if negb (bool_decide (current = expected_source_status))
      then Err (SourceStatusChanged source_id expected_source_status current)
      else
        let? _ := match nd_parent_id new with
                  | Some p => if (p =? source_id)%Z then Ok tt else validate_parent_edge p (nd_issue_id new) st
                  | None => Ok tt
                  end in
        let? st := (if is_active current then
                      if String.eqb (status source) (as_str current) then
                        append_dispatch_note now source_id "superseded by a --resume-work finisher dispatch"
                          (put_row source_id (set_status now Failed source) st)
                      else Err (SourceUpdateLost source_id expected_source_status)
                    else Ok st) in
        match decide_claim (admission_rows (nd_issue_id new) (nd_worktree_path new) st) (claim_request new) limit with
        | ClaimGrant =>
            let? idst := put_agent_dispatch now new st in
            let '(id, st) := idst in
            let? st := finish_insert now id new proof audit st in
            let st := match chunk_scope source with
                      | Some raw => update_row id (set_scope (Some raw)) st
                      | None => st
                      end in
            Ok (Ok (id, st))
        | d => Ok (Err d)
        end
  end.
End Admission.

(** ** Pruning

    What the other tables say of a row is an argument: whether a registered
    worktree has its path, whether an autopilot run still uses it and whether it
    belongs to a task. *)

Definition DISPATCH_TERMINAL_RETENTION_SECS : Z := 90 * 24 * 60 * 60.

Section Prune.
Context (has_worktree : string -> bool) (autopilot_busy tasked : Z -> bool).

Definition prunable (cutoff : Z) (e : Z * Row) : bool :=
  status_in [Merged; Abandoned; Done; Failed] e.2 && negb (tasked e.1) &&
  (match status_changed_at_ms e.2 with
   | Some t => t
   | None => default (dispatched_at_ms e.2) (exited_at_ms (run e.2))
   end <? cutoff)%Z &&
  negb (has_worktree (worktree_path e.2)) && negb (autopilot_busy e.1).

Definition children (id : Z) (st : Store) : list Z :=
  map fst (List.filter (fun e : Z * Row => bool_decide (parent_id e.2 = Some id)) (map_to_list (rows st))).

Definition retain (st : Store) (cands : list Z) : list Z :=
  List.filter (fun id => forallb (fun c => bool_decide (c ∈ cands)) (children id st)) cands.

(** The loop; [prune_settles] shows the fuel is enough. *)
Fixpoint prune_loop (fuel : nat) (st : Store) (cands : list Z) : list Z :=
  match fuel with
  | O => cands
  | S fuel =>
      let retained := retain st cands in
      if (length retained =? length cands)%nat then cands else prune_loop fuel st retained
  end.

Definition prune_ids (now : Z) (st : Store) : list Z :=
  let cutoff := i64_sat_sub now (i64_sat (DISPATCH_TERMINAL_RETENTION_SECS * 1000)) in
  let cands := map fst (List.filter (prunable cutoff) (map_to_list (rows st))) in
  prune_loop (length cands) st cands.

Definition prune_terminal_dispatches (now : Z) (st : Store) : nat * Store :=
  let ids := prune_ids now st in
  (length ids,
   mkStore (foldr (fun id m => delete id m) (rows st) ids) (last_id st)
     (List.filter (fun n => negb (bool_decide (n_dispatch n ∈ ids))) (notes st)) (lease_db st)).
End Prune.
