(* ===== verification/RosterProps.v ===== *)
(** * Correctness of the roster

    Every transaction only lets the rows it finds evolve ([evolves]): stage,
    chunk and scope stay, the launch generation does not go back, and a row of a
    chunk keeps its issue and worktree.  New rows get new ids.  [runs] are the
    sequences of transactions, with the claims they grant and the rows they wake. *)
From Stdlib Require Import Ascii String.
From S2P Require Import Prelude RustOrd RustStr RustText RustChars Pipeline Glob GlobProps GlobSpec ChunkScope ChunkProps.
From S2P Require Import ReportText Lease Claim Roster.
Local Open Scope string_scope.
Local Open Scope list_scope.

(** ** Rows evolve *)

Definition active (r : Row) : bool := is_active (parse (status r)).

(** The queries compare the stored text of a status: one that counts as active
    is stored in its canonical form.  Every write stores that form and schema v79
    rewrote the older rows; a status nobody knows may be stored verbatim. *)
Definition stored_form (r : Row) : Prop := active r = true -> stored_active r = true.

Lemma stored_active_spec r : stored_form r -> stored_active r = active r.
Proof.
  intros H. destruct (active r) eqn:E; [by apply H|]. destruct (stored_active r) eqn:Es; [|done].
  unfold stored_active, status_in in Es.
  apply existsb_exists in Es as (s & Hs & Es%String.eqb_eq). unfold active in E. rewrite Es in E.
  repeat destruct Hs as [<-|Hs]; done.
Qed.

Lemma stored_canonical s r : status r = as_str s -> stored_form r.
Proof. intros E. unfold stored_form, active, stored_active, status_in. rewrite E. by destruct s. Qed.

Record evolves (r r' : Row) : Prop := {
  ev_place : chunk_path r <> None -> issue_id r' = issue_id r /\ worktree_path r' = worktree_path r;
  ev_stage : stage r' = stage r;
  ev_chunk : chunk_path r' = chunk_path r;
  ev_scope : chunk_scope r' = chunk_scope r;
  ev_gen : (run_gen (run r) <= run_gen (run r'))%Z;
  ev_status : stored_form r -> stored_form r';
}.

Global Instance evolves_preorder : PreOrder evolves.
Proof.
  split; [intros r; by split|]. intros r1 r2 r3 [P12 ? C12] [P23 ? C23]. split; try congruence; try lia; auto.
  intros H. destruct (P12 H) as [<- <-]. apply P23. congruence.
Qed.

(** Writes that leave the place, the chunk and the scope of a row alone. *)
Definition same_identity (r r' : Row) : Prop :=
  issue_id r' = issue_id r /\ worktree_path r' = worktree_path r /\ stage r' = stage r /\
  chunk_path r' = chunk_path r /\ chunk_scope r' = chunk_scope r /\ (run_gen (run r) <= run_gen (run r'))%Z.

Lemma evolves_other r r' : same_identity r r' -> status r' = status r -> evolves r r'.
Proof.
  intros (? & ? & ? & ? & ? & ?) Hs. split; try done. unfold stored_form, active, stored_active, status_in. by rewrite Hs.
Qed.

Lemma evolves_status r r' s : same_identity r r' -> status r' = as_str s -> evolves r r'.
Proof. intros (? & ? & ? & ? & ? & ?) Hs. split; try done. intros _. by eapply stored_canonical. Qed.

Ltac evolve := solve
  [ apply evolves_other; [repeat split; simpl; lia|done]
  | eapply evolves_status; [repeat split; simpl; lia|reflexivity] ].

(** ** Stores *)

(** Ids are never reused, and every active status is stored as such. *)
Record store_ok (st : Store) : Prop := {
  so_ids : forall id r, rows st !! id = Some r -> (id <= last_id st)%Z;
  so_status : forall id r, rows st !! id = Some r -> stored_form r;
}.

(** Every row of the later store evolved from one of the earlier or has a new
    id; rows may be gone. *)
Definition calm (st st' : Store) : Prop :=
  (last_id st <= last_id st')%Z /\
  forall id r', rows st' !! id = Some r' ->
    (exists r, rows st !! id = Some r /\ evolves r r') \/ (last_id st < id <= last_id st')%Z /\ stored_form r'.

Lemma calm_refl st : calm st st.
Proof. split; [lia|]. intros id r Hr. left. by exists r. Qed.

Lemma calm_trans st1 st2 st3 : calm st1 st2 -> calm st2 st3 -> calm st1 st3.
Proof.
  intros [L1 H1] [L2 H2]. split; [lia|].
  intros id r3 [(r2 & E2 & V2)|[? ?]]%H2; [|right; split; [lia|done]].
  destruct (H1 id r2 E2) as [(r1 & E1 & V1)|[? ?]]; [left|right].
  - exists r1. split; [done|]. by etransitivity.
  - split; [lia|]. by apply (ev_status _ _ V2).
Qed.

Lemma calm_rows st st' : rows st' = rows st -> last_id st' = last_id st -> calm st st'.
Proof. intros R L. split; [lia|]. intros id r. rewrite R. intros Hr. left. by exists r. Qed.

Lemma calm_put st id r r' : rows st !! id = Some r -> evolves r r' -> calm st (put_row id r' st).
Proof.
  intros Hr Hv. split; [simpl; lia|]. intros j rj H. simpl in H. left. destruct (decide (id = j)) as [->|Hne].
  - rewrite lookup_insert_eq in H. injection H as <-. by exists r.
  - rewrite lookup_insert_ne in H by done. by exists rj.
Qed.

Lemma calm_note st id now text : calm st (add_note id now text st).
Proof. by apply calm_rows. Qed.

Lemma calm_note_if st id now text : calm st (note_if id now text st).
Proof. destruct text; [apply calm_note|apply calm_refl]. Qed.

Lemma calm_ok st st' : calm st st' -> store_ok st -> store_ok st'.
Proof.
  intros [L H] [H1 H2]. split; intros id r' [(r & Hr & Hv)|[? ?]]%H; try done; try lia.
  - specialize (H1 id r Hr). lia.
  - apply (ev_status _ _ Hv). by eapply H2.
Qed.

Lemma calm_append now id text st st' : append_dispatch_note now id text st = Ok st' -> calm st st' /\ rows st' = rows st /\ lease_db st' = lease_db st /\ last_id st' = last_id st.
Proof.
  unfold append_dispatch_note. intros H. rbind_inv. destruct (rows st !! id); [|done]. simplify_eq.
  split; [apply calm_note|done].
Qed.

Global Hint Resolve calm_refl calm_note calm_note_if calm_put : thegn.

(** ** The writes that insert nothing *)

Lemma calm_set_status now id expected to note proof st st' :
  set_dispatch_status_led now id expected to note proof st = Ok st' -> calm st st'.
Proof.
  unfold set_dispatch_status_led. destruct (rows st !! id) as [r|] eqn:Hr; [|done].
  destruct (set_status_transition_allowed expected to); [|done]. cbn [negb]. intros H. rbind_inv.
  destruct (status_matches expected r); [|done]. rbind_inv. simplify_eq.
  eapply calm_trans; [|apply calm_note_if]. eapply calm_trans; [|apply calm_note_if].
  eapply calm_put; [done|evolve].
Qed.

Lemma calm_forced now id expected to reason proof st st' :
  set_dispatch_status_forced_led now id expected to reason proof st = Ok st' -> calm st st'.
Proof.
  unfold set_dispatch_status_forced_led. destruct (rows st !! id) as [r|] eqn:Hr; [|done].
  destruct (set_status_transition_allowed expected to); [|done]. cbn [negb].
  destruct (bool_decide_reflect (to = Done)) as [->|]; [|done]. cbn [negb]. intros H. rbind_inv.
  destruct (_ <? _)%N; [done|]. rbind_inv. destruct (String.eqb _ _); [|done]. rbind_inv. simplify_eq.
  eapply calm_trans; [|apply calm_note_if]. eapply calm_trans; [|apply calm_note].
  eapply calm_put; [done|evolve].
Qed.

Lemma calm_update_if id guard f st b st' :
  update_if id guard f st = (b, st') -> (forall r, evolves r (f r)) -> calm st st'.
Proof.
  unfold update_if. intros H Hf. destruct (rows st !! id) as [r|] eqn:Hr; [|simplify_eq; apply calm_refl].
  destruct (guard r); simplify_eq; [|apply calm_refl]. by eapply calm_put.
Qed.

Lemma calm_update_row id f st : (forall r, evolves r (f r)) -> calm st (update_row id f st).
Proof. intros Hf. unfold update_row. destruct (rows st !! id) eqn:Hr; [by eapply calm_put|apply calm_refl]. Qed.

Lemma calm_publish now id session artifact st o st' :
  publish_dispatch_run now id session artifact st = (o, st') -> calm st st'.
Proof.
  unfold publish_dispatch_run. destruct (rows st !! id) as [r|] eqn:Hr; [|intros [= <- <-]; apply calm_refl].
  destruct (status_in [Queued; Spawning] r); intros [= <- <-]; [|apply calm_refl]. eapply calm_put; [done|evolve].
Qed.

Lemma calm_bind id session st b st' : bind_dispatch_session id session st = (b, st') -> calm st st'.
Proof.
  unfold bind_dispatch_session. destruct (is_empty session); [intros [= <- <-]; apply calm_refl|].
  destruct (rows st !! id) as [r|] eqn:Hr; [|intros [= <- <-]; apply calm_refl].
  case_match; intros [= <- <-]; [|apply calm_refl]. eapply calm_put; [done|evolve].
Qed.

Lemma calm_cas now id fence expected s note st b st' :
  cas_dispatch_status now id fence expected s note st = Ok (b, st') -> calm st st'.
Proof.
  unfold cas_dispatch_status. intros H. rbind_inv.
  destruct (rows st !! id) as [r|] eqn:Hr; [|simplify_eq; apply calm_refl].
  destruct (match fence with None => _ | Some _ => _ end); simplify_eq; [|apply calm_refl].
  eapply calm_trans; [|apply calm_note_if]. eapply calm_put; [done|evolve].
Qed.

Lemma calm_exit now ref code st o st' : stamp_dispatch_exit now ref code st = (o, st') -> calm st st'.
Proof.
  unfold stamp_dispatch_exit. destruct (rows st !! rr_id ref) as [r|] eqn:Hr; [|intros [= <- <-]; apply calm_refl].
  repeat case_match; intros [= <- <-]; try apply calm_refl; (eapply calm_put; [done|evolve]).
Qed.

Lemma calm_count ref cls st o st' : count_dispatch_retry_attempt_run ref cls st = (o, st') -> calm st st'.
Proof.
  unfold count_dispatch_retry_attempt_run. destruct (rows st !! rr_id ref) as [r|] eqn:Hr; [|intros [= <- <-]; apply calm_refl].
  case_match; intros [= <- <-]; [|apply calm_refl]. eapply calm_put; [done|evolve].
Qed.

Lemma calm_report id text head st st' : set_dispatch_report_bound id text head st = Ok st' -> calm st st'.
Proof.
  unfold set_dispatch_report_bound. intros H. rbind_inv. destruct (rows st !! id) as [r|] eqn:Hr; [|done]. simplify_eq.
  eapply calm_put; [done|evolve].
Qed.

Lemma calm_note_record now id text st st' : append_dispatch_note_record now id text st = Ok st' -> calm st st'.
Proof.
  unfold append_dispatch_note_record. intros H. rbind_inv. repeat case_match; simplify_eq. apply calm_note.
Qed.

Lemma delete_ids_lookup (ids : list Z) (m : gmap Z Row) i :
  foldr (fun id m => delete id m) m ids !! i = if bool_decide (i ∈ ids) then None else m !! i.
Proof.
  induction ids as [|j ids IH]; [by rewrite bool_decide_false by set_solver|]. cbn [foldr].
  destruct (decide (j = i)) as [->|Hne].
  - rewrite lookup_delete_eq, bool_decide_true by set_solver. done.
  - rewrite lookup_delete_ne by done. rewrite IH, (bool_decide_ext (i ∈ ids) (i ∈ j :: ids)) by set_solver. done.
Qed.

Lemma calm_prune wt busy tasked now st : calm st (prune_terminal_dispatches wt busy tasked now st).2.
Proof.
  split; [simpl; lia|]. intros id r. simpl. rewrite delete_ids_lookup. case_match; [done|]. intros Hr. left. by exists r.
Qed.

(** ** Insertions *)

Lemma set_lead_id r : set_lead (lead_lease r) r = r.
Proof. by destruct r. Qed.
Lemma set_artifact_id r : set_artifact (artifact_path r) r = r.
Proof. by destruct r. Qed.
Lemma set_scope_id r : set_scope (chunk_scope r) r = r.
Proof. by destruct r. Qed.

(** [st'] is [st] with the one new row [r]; the notes apart. *)
Definition inserted (st st' : Store) (id : Z) (r : Row) : Prop :=
  id = (last_id st + 1)%Z /\ last_id st' = id /\ lease_db st' = lease_db st /\ rows st' = <[id := r]> (rows st).

Lemma put_inserted now new st id st' :
  put_agent_dispatch now new st = Ok (id, st') ->
  inserted st st' id (new_row now new) /\ (N.of_nat (active_count st) < ROSTER_ACTIVE_LIMIT)%N.
Proof.
  unfold put_agent_dispatch. intros H. rbind_inv.
  destruct (N.leb_spec ROSTER_ACTIVE_LIMIT (N.of_nat (active_count st))); [done|]. by simplify_eq.
Qed.

Lemma inserted_update st st' id r f : inserted st st' id r -> inserted st (update_row id f st') id (f r).
Proof.
  intros (E & L & D & R). unfold update_row. rewrite R, lookup_insert_eq. split; [done|]. split; [done|]. split; [done|].
  simpl. by rewrite R, insert_insert_eq.
Qed.

Lemma inserted_note now i text st st1 st' id r :
  inserted st st1 id r -> append_dispatch_note now i text st1 = Ok st' -> inserted st st' id r.
Proof.
  intros (E & L & D & R) (_ & R' & D' & L')%calm_append.
  split; [done|]. split; [congruence|]. split; congruence.
Qed.

Definition lead_of (proof : LeadProof) (r : Row) : option string :=
  match proof_lease proof with Some n => Some n | None => lead_lease r end.

Lemma finish_inserted now id new proof audit st st1 st' r :
  inserted st st1 id r -> finish_insert now id new proof audit st1 = Ok st' ->
  exists a, inserted st st' id (set_artifact a (set_lead (lead_of proof r) r)).
Proof.
  intros Hi. unfold finish_insert. set (st2 := match proof_lease proof with Some _ => _ | None => _ end).
  assert (inserted st st2 id (set_lead (lead_of proof r) r)) as H2.
  { unfold st2, lead_of. destruct (proof_lease proof) as [n|]; [by apply inserted_update|by rewrite set_lead_id]. }
  intros H. apply rbind_Ok in H as (st3 & Ha & H).
  assert (inserted st st3 id (set_lead (lead_of proof r) r)) as H3.
  { destruct audit as [t|]; [|by simplify_eq]. rbind_inv. by eapply inserted_note. }
  destruct (nd_stage new) as [s|]; [destruct (nd_artifact_path new)|]; simplify_eq.
  - exists (artifact_path (set_lead (lead_of proof r) r)). by rewrite set_artifact_id.
  - eexists. by apply inserted_update.
  - exists (artifact_path (set_lead (lead_of proof r) r)). by rewrite set_artifact_id.
Qed.

Section Admission.
Context (to_s : Json -> string) (from_s : string -> result string Json).

(** What a granted claim went through and what it wrote. *)
Record claim_facts (now : Z) (new : NewDispatch) (limit : N) (dup : option string)
    (prepared : option PreparedChunkAdmission) (over : option string) (proof : LeadProof) (st st' : Store) (id : Z) (r : Row)
    : Prop := {
  cf_inserted : inserted st st' id r;
  cf_row : exists a, r = set_scope ((fun p => encode_chunk_scope to_s (files (pc_scope p))) <$> prepared)
             (set_artifact a (set_lead (proof_lease proof) (new_row now new)));
  cf_lead : exists audit, lead_check now (active_bound_leases (nd_issue_id new) st) proof (lease_db st) = Ok audit;
  cf_parent : validate_parent (nd_parent_id new) (nd_issue_id new) st = Ok tt;
  cf_gate : scope_gate from_s new (admission_entries (nd_issue_id new) (nd_worktree_path new) st) prepared (trim <$> over) = Ok None;
  cf_decide : decide_allowing_duplicate (admission_rows (nd_issue_id new) (nd_worktree_path new) st) (claim_request new) limit
                (bool_decide (is_Some dup)) = ClaimGrant;
  cf_room : (N.of_nat (active_count st) < ROSTER_ACTIVE_LIMIT)%N;
}.

Lemma nonblank_Some v m w : nonblank v m = Ok w -> w = trim <$> v.
Proof. unfold nonblank. destruct v as [x|]; [destruct (is_empty (trim x))|]; intros H; by simplify_eq. Qed.

Lemma inserted_note_opt now id (text : option string) (f : string -> string) st st1 st' r :
  inserted st st1 id r ->
  match text with Some why => append_dispatch_note now id (f why) st1 | None => Ok st1 end = Ok st' ->
  inserted st st' id r.
Proof. intros Hi. destruct text; [by apply inserted_note|by intros [= <-]]. Qed.

Lemma claim_granted_facts now new limit dup prepared over proof st id st' :
  claim_dispatch_admitted_led to_s from_s now new limit dup prepared over proof st = Ok (Ok (id, st')) ->
  exists r, claim_facts now new limit dup prepared over proof st st' id r.
Proof.
  unfold claim_dispatch_admitted_led. intros H.
  apply rbind_Ok in H as (dup' & Hd & H). apply rbind_Ok in H as (over' & Ho & H).
  apply nonblank_Some in Hd as ->. apply nonblank_Some in Ho as ->.
  destruct (_ && _); [done|]. apply rbind_Ok in H as (audit & Hl & H). apply rbind_Ok in H as ([] & Hp & H).
  apply rbind_Ok in H as (g & Hg & H). destruct g; [done|].
  destruct (decide_allowing_duplicate _ _ _ _) eqn:Hdec; [|done..].
  apply rbind_Ok in H as ([id1 st1] & Hput & H). apply put_inserted in Hput as [Hi Hroom].
  apply rbind_Ok in H as (st2 & Hf & H). destruct (finish_inserted _ _ _ _ _ _ _ _ _ Hi Hf) as [a Hi2].
  apply rbind_Ok in H as (st3 & Hn1 & H). apply rbind_Ok in H as (st4 & Hn2 & H). simplify_eq.
  set (r := set_artifact a (set_lead (lead_of proof (new_row now new)) (new_row now new))) in *.
  exists (set_scope ((fun p => encode_chunk_scope to_s (files (pc_scope p))) <$> prepared) r).
  split; try done.
  - eapply inserted_note_opt; [|exact Hn2]. eapply inserted_note_opt; [|exact Hn1].
    destruct prepared; simpl; [by apply inserted_update|exact Hi2].
  - exists a. unfold r, lead_of. by destruct (proof_lease proof).
  - unfold led in Hl. destruct (lead_check _ _ _ _) as [x|]; [|done]. by exists x.
  - rewrite <- Hdec. f_equal. by destruct dup.
Qed.
End Admission.

(** ** Capacity *)

Definition staged (s : string) (r : Row) : bool := bool_decide (trim <$> stage r = Some (trim s)).

(** The active rows of a stage. *)
Definition occupancy (s : string) (st : Store) : nat :=
  length (List.filter (fun e : Z * Row => active e.2 && staged s e.2) (map_to_list (rows st))).

Lemma length_filter_map {A B} (g : A -> B) (f : B -> bool) l :
  length (List.filter f (map g l)) = length (List.filter (fun x => f (g x)) l).
Proof. induction l as [|x l IH]; simpl; [done|]. destruct (f (g x)); simpl; by rewrite IH. Qed.

Lemma filter_filter_imp {A} (f g : A -> bool) l :
  (forall x, x ∈ l -> f x = true -> g x = true) -> List.filter f (List.filter g l) = List.filter f l.
Proof.
  induction l as [|x l IH]; intros H; simpl; [done|]. rewrite <- IH by set_solver.
  destruct (g x) eqn:Eg; simpl; [done|]. destruct (f x) eqn:Ef; [|done]. rewrite H in Eg by set_solver. done.
Qed.

Lemma admission_entry issue wt st id r :
  (id, r) ∈ admission_entries issue wt st <->
  rows st !! id = Some r /\ (stored_active r = true \/ issue_id r = issue /\ worktree_path r = wt).
Proof.
  unfold admission_entries. rewrite elem_of_sort_by, elem_of_filter_b, elem_of_map_to_list. simpl.
  by rewrite orb_true_iff, andb_true_iff, !String.eqb_eq.
Qed.

Lemma admission_count issue wt s st :
  store_ok st ->
  length (List.filter (fun d => occupies d && in_stage s d) (admission_rows issue wt st)) = occupancy s st.
Proof.
  intros Hok. unfold admission_rows, admission_entries, occupancy. rewrite length_filter_map.
  change (fun x : Z * Row => occupies (map_dispatch x.1 x.2) && in_stage s (map_dispatch x.1 x.2))
    with (fun e : Z * Row => active e.2 && staged s e.2).
  rewrite (Permutation_length (filter_perm _ _ _ (sort_by_perm newest_first _))). f_equal. apply filter_filter_imp.
  intros [id r] Hin%elem_of_map_to_list [Ha _]%andb_true_iff. simpl in *.
  rewrite stored_active_spec by (by eapply so_status). by rewrite Ha.
Qed.

Lemma fresh_id st : store_ok st -> rows st !! (last_id st + 1)%Z = None.
Proof. intros Hok. destruct (rows st !! _) eqn:E; [|done]. apply (so_ids _ Hok) in E. lia. Qed.

Lemma occupancy_inserted s st st' id r :
  store_ok st -> inserted st st' id r ->
  occupancy s st' = occupancy s st + (if active r && staged s r then 1 else 0).
Proof.
  intros Hok (-> & _ & _ & R). unfold occupancy. rewrite R.
  rewrite (Permutation_length (filter_perm _ _ _ (map_to_list_insert _ _ _ (fresh_id st Hok)))). simpl.
  destruct (active r && staged s r); simpl; lia.
Qed.

Lemma inserted_ok st st' id r : store_ok st -> inserted st st' id r -> stored_form r -> store_ok st'.
Proof.
  intros [H1 H2] (E & L & _ & R) Hr. split; intros j rj; rewrite R.
  - destruct (decide (id = j)) as [->|Hne]; [lia|]. rewrite lookup_insert_ne by done. intros Hj%H1. lia.
  - destruct (decide (id = j)) as [->|Hne]; [rewrite lookup_insert_eq; by intros [= <-]|].
    rewrite lookup_insert_ne by done. apply H2.
Qed.

(** ** The gate *)

Section Gate.
Context (from_s : string -> result string Json).

(** A row whose chunk the gate looks at. *)
Definition chunk_sibling (new : NewDispatch) (r : Row) (path : string) : Prop :=
  is_sibling new r = true /\ chunk_path r = Some path /\ is_empty (trim path) = false.

Definition chunk_name (path : string) : string := default "" (file_stem (trim path)).

Definition candidate (new : NewDispatch) (e : Z * Row) : option AfterCandidate :=
  if is_sibling new e.2 then
    match chunk_path e.2 with
    | Some path =>
        if negb (is_empty (trim path)) && bool_decide (stage e.2 = nd_stage new)
        then Some (mkAfterCandidate e.1 path (parse (status e.2))) else None
    | None => None
    end
  else None.

Lemma gather_spec new es act cands act' cands' :
  gather from_s new es act cands = Ok (Ok (act', cands')) ->
  (forall a, a ∈ act -> a ∈ act') /\ cands' = cands ++ omap (candidate new) es /\
  (forall id r path, (id, r) ∈ es -> chunk_sibling new r path -> active r = true ->
     exists raw fs, chunk_scope r = Some raw /\ decode_chunk_scope from_s raw = Ok fs /\
       mkActiveScope id (chunk_name path) fs ∈ act').
Proof.
  revert act cands. induction es as [|[id r] es IH]; intros act cands H; cbn [gather] in H.
  { simplify_eq. split; [done|]. split; [by rewrite app_nil_r|]. by intros id r path []%not_elem_of_nil. }
  assert (forall act1 cands1, gather from_s new es act1 cands1 = Ok (Ok (act', cands')) ->
    (forall a, a ∈ act -> a ∈ act1) -> cands1 = cands ++ omap (candidate new) [(id, r)] ->
    (forall path, chunk_sibling new r path -> active r = true ->
       exists raw fs, chunk_scope r = Some raw /\ decode_chunk_scope from_s raw = Ok fs /\
         mkActiveScope id (chunk_name path) fs ∈ act1) ->
    (forall a, a ∈ act -> a ∈ act') /\ cands' = cands ++ omap (candidate new) ((id, r) :: es) /\
    (forall i r' path, (i, r') ∈ (id, r) :: es -> chunk_sibling new r' path -> active r' = true ->
       exists raw fs, chunk_scope r' = Some raw /\ decode_chunk_scope from_s raw = Ok fs /\
         mkActiveScope i (chunk_name path) fs ∈ act')) as Hcons.
  { intros act1 cands1 Hg Hsub -> Hhere. destruct (IH _ _ Hg) as (H1 & -> & H3). split; [auto|]. split.
    - rewrite <- app_assoc. f_equal. change ((id, r) :: es) with ([(id, r)] ++ es). by rewrite omap_app.
    - intros i r' path [[= -> ->]|Hin]%elem_of_cons Hs Ha; [|by eapply H3].
      destruct (Hhere path Hs Ha) as (raw & fs & ? & ? & ?). eauto 6. }
  destruct (is_sibling new r) eqn:Hsib; cbn [negb] in H.
  2: { apply (Hcons act cands H); [done| |].
       - simpl. unfold candidate. simpl. by rewrite Hsib, app_nil_r.
       - intros path (Hs & _). congruence. }
  destruct (chunk_path r) as [path|] eqn:Hp.
  2: { apply (Hcons act cands H); [done| |].
       - simpl. unfold candidate. simpl. by rewrite Hsib, Hp, app_nil_r.
       - intros path (_ & Hs & _). congruence. }
  destruct (is_empty (trim path)) eqn:He.
  { apply (Hcons act cands H); [done| |].
    - simpl. unfold candidate. simpl. by rewrite Hsib, Hp, He, app_nil_r.
    - intros path' (_ & Hs & Hn). simplify_eq. congruence. }
  set (cands1 := if bool_decide (stage r = nd_stage new) then cands ++ [mkAfterCandidate id path (parse (status r))] else cands) in H.
  assert (cands1 = cands ++ omap (candidate new) [(id, r)]) as Hc.
  { unfold cands1. simpl. unfold candidate. simpl. rewrite Hsib, Hp, He. simpl. by case_bool_decide; rewrite ?app_nil_r. }
  destruct (is_active (parse (status r))) eqn:Ha; cbn [negb] in H.
  2: { apply (Hcons act cands1 H); [done|done|]. unfold active. congruence. }
  destruct (chunk_scope r) as [raw|] eqn:Hraw; [|done]. destruct (decode_chunk_scope from_s raw) as [fs|] eqn:Hd; [|done].
  apply (Hcons _ cands1 H); [set_solver|done|]. intros path' (_ & Hs & _) _. simplify_eq.
  exists raw, fs. split; [done|]. split; [done|]. unfold chunk_name. set_solver.
Qed.

Lemma reasons_nil prepared stg act idx :
  scope_reasons prepared stg act idx = [] ->
  (forall sib, sib ∈ act -> ~ collides (pc_scope prepared) sib) /\ forall n, n ∈ after (pc_scope prepared) -> n ∈ ai_done idx.
Proof.
  unfold scope_reasons. intros [H1 H2]%app_eq_nil.
  assert (forall n, n ∈ after (pc_scope prepared) -> n ∈ ai_done idx) as Ha.
  { apply map_eq_nil in H2. destruct (after_unmet_spec (after (pc_scope prepared)) (ai_done idx)) as [_ Hu].
    intros n Hn. destruct (decide (n ∈ ai_done idx)); [done|]. exfalso. apply (not_elem_of_nil n). rewrite <- H2.
    by apply Hu. }
  split; [|done]. pose proof (verdict_spec (pc_scope prepared) act (ai_done idx)) as Hv.
  destruct (verdict (pc_scope prepared) act (ai_done idx)) as [|found| |]; [apply Hv| |apply Hv|done].
  exfalso. destruct Hv as [Hne [Hf _]]. destruct found as [|[k pairs] found]; [done|].
  destruct (Hf k pairs ltac:(set_solver)) as (_ & Hp & sib & Hs & _). rewrite Nat.sub_0_r in Hs.
  cbn [conflict_reasons map concat fst snd] in H1. unfold conflict_reasons in H1. simpl in H1. rewrite Hs in H1.
  apply app_eq_nil in H1 as [H1 _]. by apply map_eq_nil in H1.
Qed.
End Gate.

(** ** Runs of the roster *)

(** Every transaction of db_dispatch.rs, db_notification.rs and db_vacuum.rs that
    writes the roster, claims apart, with any arguments. *)
Inductive write : Store -> Store -> Prop :=
| w_put now new st id st' : put_agent_dispatch now new st = Ok (id, st') -> write st st'
| w_put_led now new proof st id st' : put_dispatch_with_parent_check_led now new proof st = Ok (id, st') -> write st st'
| w_status now id expected to note proof st st' :
    set_dispatch_status_led now id expected to note proof st = Ok st' -> write st st'
| w_forced now id expected to reason proof st st' :
    set_dispatch_status_forced_led now id expected to reason proof st = Ok st' -> write st st'
| w_update now id s st : write st (update_dispatch_status now id s st)
| w_update_note now id s text st st' : update_dispatch_status_with_note now id s text st = Ok st' -> write st st'
| w_publish now id session artifact st o st' :
    publish_dispatch_run now id session artifact st = (o, st') -> write st st'
| w_bind id session st b st' : bind_dispatch_session id session st = (b, st') -> write st st'
| w_stamp id session artifact st : write st (stamp_dispatch_run id session artifact st)
| w_cas now id fence expected s note st b st' :
    cas_dispatch_status now id fence expected s note st = Ok (b, st') -> write st st'
| w_park now id expected text st b st' :
    compare_and_set_dispatch_retry_park now id expected text st = Ok (b, st') -> write st st'
| w_park_run now ref expected text st b st' :
    compare_and_set_dispatch_retry_park_run now ref expected text st = Ok (b, st') -> write st st'
| w_retry_run now id expected session artifact st b st' :
    compare_and_set_dispatch_retry_run now id expected session artifact st = (b, st') -> write st st'
| w_settle now ref expected text st b st' :
    compare_and_set_dispatch_retry_settle_run now ref expected text st = Ok (b, st') -> write st st'
| w_count ref cls st o st' : count_dispatch_retry_attempt_run ref cls st = (o, st') -> write st st'
| w_exit now ref code st o st' : stamp_dispatch_exit now ref code st = (o, st') -> write st st'
| w_native ref native st b st' : set_dispatch_native_session ref native st = (b, st') -> write st st'
| w_report id text head st st' : set_dispatch_report_bound id text head st = Ok st' -> write st st'
| w_stamp_note id text st : write st (stamp_dispatch_note id text st)
| w_append now id text st st' : append_dispatch_note now id text st = Ok st' -> write st st'
| w_note now id text st st' : append_dispatch_note_record now id text st = Ok st' -> write st st'
| w_prune wt busy tasked now st : write st (prune_terminal_dispatches wt busy tasked now st).2
| w_lease st gs db' :
    lease_step (lease_db st) gs db' -> write st (mkStore (rows st) (last_id st) (notes st) db').

Lemma calm_inserted st st' id r : inserted st st' id r -> stored_form r -> calm st st'.
Proof.
  intros (E & L & _ & R) Hr. split; [lia|]. intros j rj. rewrite R. destruct (decide (id = j)) as [<-|Hne].
  - rewrite lookup_insert_eq. intros [= <-]. right. split; [lia|done].
  - rewrite lookup_insert_ne by done. intros Hj. left. by exists rj.
Qed.

Lemma put_led_inserted now new proof st id st' :
  put_dispatch_with_parent_check_led now new proof st = Ok (id, st') ->
  exists a, inserted st st' id (set_artifact a (set_lead (proof_lease proof) (new_row now new))) /\
    validate_parent (nd_parent_id new) (nd_issue_id new) st = Ok tt.
Proof.
  unfold put_dispatch_with_parent_check_led. intros H. apply rbind_Ok in H as (audit & _ & H).
  apply rbind_Ok in H as ([] & Hp & H). apply rbind_Ok in H as ([id1 st1] & Hput & H). apply put_inserted in Hput as [Hi _].
  apply rbind_Ok in H as (st2 & Hf & H). simplify_eq. destruct (finish_inserted _ _ _ _ _ _ _ _ _ Hi Hf) as [a Hi2].
  exists a. split; [|done]. unfold lead_of in Hi2. by destruct (proof_lease proof).
Qed.

Lemma write_calm st st' : write st st' -> calm st st'.
Proof.
  destruct 1 as [? ? ? ? ? E|? ? ? ? ? ? E| | | |? ? ? ? ? ? E| | | | |? ? ? ? ? ? ? E|? ? ? ? ? ? ? E|? ? ? ? ? ? ? ? E|
    ? ? ? ? ? ? ? E| | |? ? ? ? ? E| | |? ? ? ? ? E| | |].
  - apply put_inserted in E as [Hi _]. eapply calm_inserted; [done|]. by apply (stored_canonical Queued).
  - apply put_led_inserted in E as (a & Hi & _). eapply calm_inserted; [done|]. by apply (stored_canonical Queued).
  - by eapply calm_set_status.
  - by eapply calm_forced.
  - apply calm_update_row. intros r. evolve.
  - unfold update_dispatch_status_with_note in E. rbind_inv. destruct (rows st !! id) eqn:Hr; [|done]. simplify_eq.
    eapply calm_trans; [|apply calm_note]. eapply calm_put; [done|evolve].
  - by eapply calm_publish.
  - by eapply calm_bind.
  - apply calm_update_row. intros r. evolve.
  - by eapply calm_cas.
  - unfold compare_and_set_dispatch_retry_park in E. rbind_inv. injection E as E.
    eapply calm_update_if; [exact E|]. intros r. evolve.
  - unfold compare_and_set_dispatch_retry_park_run in E. rbind_inv. injection E as E.
    eapply calm_update_if; [exact E|]. intros r. evolve.
  - eapply calm_update_if; [exact E|]. intros r. evolve.
  - unfold compare_and_set_dispatch_retry_settle_run in E. rbind_inv. injection E as E.
    eapply calm_update_if; [exact E|]. intros r. evolve.
  - by eapply calm_count.
  - by eapply calm_exit.
  - unfold set_dispatch_native_session in E. destruct (is_empty native); [simplify_eq; apply calm_refl|].
    eapply calm_update_if; [exact E|]. intros r. evolve.
  - by eapply calm_report.
  - apply calm_update_row. intros r. evolve.
  - by apply calm_append in E as [? _].
  - by eapply calm_note_record.
  - apply calm_prune.
  - by apply calm_rows.
Qed.

(** The rows a transaction makes active: those that come in active and those
    that had ended or were of no known status. *)
Definition woken (st st' : Store) : list Z :=
  map fst (List.filter (fun e : Z * Row =>
    active e.2 && negb (match rows st !! e.1 with Some r => active r | None => false end)) (map_to_list (rows st'))).

Lemma woken_spec st st' id r' :
  rows st' !! id = Some r' -> active r' = true ->
  id ∈ woken st st' \/ exists r, rows st !! id = Some r /\ active r = true.
Proof.
  intros Hr Ha. destruct (match rows st !! id with Some r => active r | None => false end) eqn:E.
  - right. destruct (rows st !! id) as [r|]; [|done]. by exists r.
  - left. unfold woken. apply list_elem_of_fmap. exists (id, r'). split; [done|]. apply elem_of_filter_b.
    rewrite elem_of_map_to_list. split; [done|]. simpl. by rewrite Ha, E.
Qed.

Section Runs.
Context (to_s : Json -> string) (from_s : string -> result string Json).

Lemma woken_none st st' :
  (forall id r', rows st' !! id = Some r' -> active r' = true -> exists r, rows st !! id = Some r /\ active r = true) ->
  woken st st' = [].
Proof.
  intros H. unfold woken. destruct (List.filter _ _) as [|[id r'] l] eqn:E; [done|exfalso].
  assert ((id, r') ∈ (id, r') :: l) as Hin by by left. rewrite <- E in Hin. apply elem_of_filter_b in Hin as [Hin Ha].
  rewrite elem_of_map_to_list in Hin. simpl in Ha. apply andb_true_iff in Ha as [Ha Hn].
  destruct (H id r' Hin Ha) as (r & Er & Hr). by rewrite Er, Hr in Hn.
Qed.

(** A finisher's source, when it was active, ends. *)
Lemma supersede_calm now id source text st stm :
  rows st !! id = Some source -> append_dispatch_note now id text (put_row id (set_status now Failed source) st) = Ok stm ->
  calm st stm /\ woken st stm = [] /\ last_id stm = last_id st.
Proof.
  intros Hs (Hc & R & _ & L)%calm_append. split; [eapply calm_trans; [|done]; eapply calm_put; [done|evolve]|].
  split; [|by rewrite L]. apply woken_none. intros i r'. rewrite R. simpl. destruct (decide (id = i)) as [<-|Hne].
  - rewrite lookup_insert_eq. by intros [= <-].
  - rewrite lookup_insert_ne by done. eauto.
Qed.

(** A finisher's claim: its source ends if need be, then one row is inserted. *)
Lemma resume_granted_facts now source_id expected new limit proof st id st' :
  claim_resume_dispatch_led now source_id expected new limit proof st = Ok (Ok (id, st')) ->
  exists stm r, calm st stm /\ woken st stm = [] /\ last_id stm = last_id st /\ inserted stm st' id r /\
    stored_form r /\ stage r = nd_stage new /\ active r = true /\
    decide_claim (admission_rows (nd_issue_id new) (nd_worktree_path new) stm) (claim_request new) limit = ClaimGrant.
Proof.
  unfold claim_resume_dispatch_led. intros H. destruct (rows st !! source_id) as [source|] eqn:Hs; [|done].
  apply rbind_Ok in H as (audit & _ & H). destruct (bool_decide _); [|done]. cbn [negb] in H.
  apply rbind_Ok in H as ([] & _ & H). apply rbind_Ok in H as (stm & Hm & H).
  assert (calm st stm /\ woken st stm = [] /\ last_id stm = last_id st) as (Hc & Hw & L).
  { destruct (is_active (parse (status source))).
    - destruct (String.eqb _ _); [|done]. by eapply supersede_calm.
    - simplify_eq. split; [apply calm_refl|]. split; [|done]. apply woken_none. eauto. }
  destruct (decide_claim _ _ _) eqn:Hd; [|done..].
  apply rbind_Ok in H as ([id1 st1] & Hput & H). apply put_inserted in Hput as [Hi _].
  apply rbind_Ok in H as (st2 & Hf & H). destruct (finish_inserted _ _ _ _ _ _ _ _ _ Hi Hf) as [a Hi2]. simplify_eq.
  set (r := set_artifact a (set_lead (lead_of proof (new_row now new)) (new_row now new))) in *.
  exists stm. destruct (chunk_scope source) as [raw|]; [exists (set_scope (Some raw) r)|exists r];
    (split_and!; [done|done|done|by try apply inserted_update|by apply (stored_canonical Queued)|done..]).
Qed.

(** What a transaction did that lasts: it granted a claim, or it made a row
    active otherwise. *)
Inductive Event :=
| Claimed (id : Z) (new : NewDispatch) (limit : N)
| Woken (id : Z).

(** One transaction: a claim, a finisher's claim, any other write of the roster,
    or a write by the rest of the program (the review tasks of db_review_tasks.rs,
    the rows db_session_migration.rs moves between profiles), of which only
    [calm] is known. *)
Inductive step : Store -> list Event -> Store -> Prop :=
| step_claim now new limit dup prepared over proof st id st' :
    claim_dispatch_admitted_led to_s from_s now new limit dup prepared over proof st = Ok (Ok (id, st')) ->
    step st [Claimed id new limit] st'
| step_resume now source expected new limit proof st id st' :
    claim_resume_dispatch_led now source expected new limit proof st = Ok (Ok (id, st')) ->
    step st [Claimed id new limit] st'
| step_write st st' : write st st' -> step st (map Woken (woken st st')) st'
| step_other st st' : calm st st' -> step st (map Woken (woken st st')) st'.

Inductive runs : Store -> list Event -> Store -> Prop :=
| runs_nil st : runs st [] st
| runs_step st evs st1 log st2 : step st evs st1 -> runs st1 log st2 -> runs st (evs ++ log) st2.

Definition was_woken (log : list Event) (id : Z) : bool :=
  existsb (fun e => match e with Woken i => (i =? id)%Z | _ => false end) log.

Lemma was_woken_map l id : was_woken (map Woken l) id = bool_decide (id ∈ l).
Proof.
  induction l as [|i l IH]; [done|]. cbn [map was_woken existsb]. fold (was_woken (map Woken l) id). rewrite IH.
  destruct (Z.eqb_spec i id) as [->|Hne]; simpl.
  - symmetry. apply bool_decide_eq_true. by left.
  - apply bool_decide_ext. rewrite elem_of_cons. naive_solver.
Qed.

Lemma was_woken_app l1 l2 id : was_woken (l1 ++ l2) id = was_woken l1 id || was_woken l2 id.
Proof. apply existsb_app. Qed.

Lemma claim_stored now new prepared a proof :
  stored_form (set_scope ((fun p => encode_chunk_scope to_s (files (pc_scope p))) <$> prepared)
    (set_artifact a (set_lead (proof_lease proof) (new_row now new)))).
Proof. by apply (stored_canonical Queued). Qed.

(** Rows of before the step: they evolve, and become active only when woken. *)
Lemma step_rows st evs st' :
  store_ok st -> step st evs st' ->
  calm st st' /\
  forall id r', rows st' !! id = Some r' -> (id <= last_id st)%Z -> active r' = true ->
    was_woken evs id = true \/ exists r, rows st !! id = Some r /\ active r = true.
Proof.
  intros Hok. destruct 1 as [now new limit dup prepared over proof st id st' E|now src e new limit proof st id st' E|
    st st' Hw|st st' Hc].
  - apply claim_granted_facts in E as (r & [Hi [a Hr] _ _ _ _ _]).
    split; [eapply calm_inserted; [done|]; subst r; apply claim_stored|]. destruct Hi as (Eid & _ & _ & R).
    intros i ri. rewrite R. intros Hri Hle Ha. rewrite lookup_insert_ne in Hri by lia. right. by exists ri.
  - apply resume_granted_facts in E as (stm & r & Hc & Hw & L & Hi & Hs & _). split.
    { eapply calm_trans; [done|]. by eapply calm_inserted. }
    destruct Hi as (Eid & _ & _ & R). intros i ri. rewrite R. intros Hri Hle Ha. rewrite lookup_insert_ne in Hri by lia.
    destruct (woken_spec st stm i ri Hri Ha) as [Hin|?]; [|by right]. rewrite Hw in Hin. by apply not_elem_of_nil in Hin.
  - split; [by apply write_calm|]. intros i ri Hri _ Ha. rewrite was_woken_map.
    destruct (woken_spec st st' i ri Hri Ha) as [?|?]; [left; by apply bool_decide_eq_true|by right].
  - split; [done|]. intros i ri Hri _ Ha. rewrite was_woken_map.
    destruct (woken_spec st st' i ri Hri Ha) as [?|?]; [left; by apply bool_decide_eq_true|by right].
Qed.

Lemma runs_calm st log st' : runs st log st' -> store_ok st -> calm st st'.
Proof.
  induction 1 as [|st evs st1 log st2 Hs _ IH]; intros Hok; [apply calm_refl|].
  destruct (step_rows _ _ _ Hok Hs) as [Hc _]. eapply calm_trans; [done|]. apply IH. by eapply calm_ok.
Qed.

(** The same over any number of transactions. *)
Lemma runs_row st log st' id r' :
  runs st log st' -> store_ok st -> (id <= last_id st)%Z -> rows st' !! id = Some r' ->
  exists r, rows st !! id = Some r /\ evolves r r' /\ (active r' = true -> was_woken log id = false -> active r = true).
Proof.
  induction 1 as [st|st evs st1 log st2 Hs Hr IH]; intros Hok Hle Hr'; [by exists r'|].
  destruct (step_rows _ _ _ Hok Hs) as [Hc Ha]. pose proof (calm_ok _ _ Hc Hok) as Hok1. destruct Hc as [L Hc].
  destruct IH as (r1 & Hr1 & V1 & A1); [done|lia|done|]. destruct (Hc id r1 Hr1) as [(r & Hr0 & V)|[? _]]; [|lia].
  exists r. split; [done|]. split; [by etransitivity|]. rewrite was_woken_app. intros Hact [He Hl]%orb_false_iff.
  destruct (Ha id r1 Hr1 Hle (A1 Hact Hl)) as [?|(r0 & ? & ?)]; congruence.
Qed.

(** ** Files over time *)

(** What the gate established of an earlier row. *)
Definition cleared (new : NewDispatch) (p : ChunkScope) (r : Row) : Prop :=
  forall path, active r = true -> chunk_sibling new r path ->
    exists raw fs, chunk_scope r = Some raw /\ decode_chunk_scope from_s raw = Ok fs /\
      (chunk_name path ∈ overlaps p \/ forall x y, x ∈ files p -> y ∈ fs -> ~ meet x y).

Lemma cleared_evolves new p r r' :
  evolves r r' -> (active r' = true -> active r = true) -> cleared new p r -> cleared new p r'.
Proof.
  intros Hv Hact Hc path Ha (Hs & Hp & He). rewrite (ev_chunk _ _ Hv) in Hp.
  destruct (ev_place _ _ Hv) as [Ei Ew]; [congruence|]. unfold is_sibling in Hs. rewrite Ei, Ew in Hs.
  destruct (Hc path (Hact Ha)) as (raw & fs & Hraw & Hd & Hdis); [done|].
  exists raw, fs. by rewrite (ev_scope _ _ Hv).
Qed.

Lemma gate_cleared new st p (over : option string) chunk :
  store_ok st -> nd_chunk_path new = Some chunk -> over = None ->
  scope_gate from_s new (admission_entries (nd_issue_id new) (nd_worktree_path new) st) (Some p) (trim <$> over) = Ok None ->
  (forall id r, rows st !! id = Some r -> cleared new (pc_scope p) r) /\
  (forall n, n ∈ after (pc_scope p) -> n ∈ ai_done (after_index (omap (candidate new)
     (admission_entries (nd_issue_id new) (nd_worktree_path new) st)))).
Proof.
  intros Hok Hc -> Hg. unfold scope_gate in Hg. rewrite Hc in Hg. destruct (String.eqb (pc_path p) chunk); [|done].
  cbn [negb fmap option_fmap option_map] in Hg. apply rbind_Ok in Hg as (g & Hga & Hg). destruct g as [[act cands]|]; [|done].
  destruct (scope_reasons p (nd_stage new) act (after_index cands)) eqn:Hr; [|done].
  apply reasons_nil in Hr as [Hcol Haft]. apply gather_spec in Hga as (_ & -> & Hsib). split; [|done].
  intros id r Hrow path Ha Hs. destruct (Hsib id r path) as (raw & fs & Hraw & Hd & Hin); [|done|done|].
  - apply admission_entry. split; [done|]. left. rewrite stored_active_spec; [done|]. by eapply so_status.
  - exists raw, fs. split; [done|]. split; [done|]. destruct (decide (chunk_name path ∈ overlaps (pc_scope p))); [by left|].
    right. intros x y Hx Hy Hm. apply (Hcol _ Hin). split; [done|]. by exists x, y.
Qed.

(** The row a claim wrote. *)
Definition admitted_as (new : NewDispatch) (p : ChunkScope) (r : Row) : Prop :=
  issue_id r = nd_issue_id new /\ worktree_path r = nd_worktree_path new /\ chunk_path r = nd_chunk_path new /\
  chunk_scope r = Some (encode_chunk_scope to_s (files p)).

(** A gated claim and what is left of it later on. *)
Lemma gated_claim_lasts now new limit dup p proof st j st1 log st2 chunk :
  store_ok st -> nd_chunk_path new = Some chunk ->
  claim_dispatch_admitted_led to_s from_s now new limit dup (Some p) None proof st = Ok (Ok (j, st1)) ->
  runs st1 log st2 ->
  (forall rj, rows st2 !! j = Some rj -> admitted_as new (pc_scope p) rj) /\
  (forall i ri, (i < j)%Z -> rows st2 !! i = Some ri -> was_woken log i = false -> cleared new (pc_scope p) ri).
Proof.
  intros Hok Hch (r & [Hi [a Hr] _ _ Hg _ _])%claim_granted_facts Hruns.
  assert (store_ok st1) as Hok1 by (eapply inserted_ok; [done..|]; subst r; apply claim_stored).
  destruct Hi as (Ej & L & _ & R). split.
  - intros rj Hj. destruct (runs_row _ _ _ j rj Hruns Hok1 ltac:(lia) Hj) as (r1 & Hr1 & V & _).
    rewrite R, lookup_insert_eq in Hr1. injection Hr1 as <-. subst r. destruct (ev_place _ _ V) as [E1 E2]; [by simpl; rewrite Hch|].
    split; [done|]. split; [done|]. split; [by rewrite (ev_chunk _ _ V)|by rewrite (ev_scope _ _ V)].
  - intros i ri Hlt Hri Hw. destruct (runs_row _ _ _ i ri Hruns Hok1 ltac:(lia) Hri) as (r1 & Hr1 & V & A).
    apply (cleared_evolves _ _ _ _ V); [auto|]. rewrite R, lookup_insert_ne in Hr1 by lia.
    destruct (gate_cleared new st p None chunk Hok Hch eq_refl Hg) as [Hall _]. by eapply Hall.
Qed.
End Runs.
