(* ===== verification/RosterSafe.v ===== *)
(** * What the roster guarantees

    Claims made by any number of supervisors keep a stage within its budget, do
    not repeat work and do not share files, whatever else is written to the
    roster, as far as the rows that got active without a claim allow; replaced
    runs stay replaced; a row bound to a lead's lease is written only under it. *)
From Stdlib Require Import Ascii String.
From S2P Require Import Prelude RustOrd RustStr RustText RustChars Pipeline Glob GlobProps GlobSpec ChunkScope ChunkProps.
From S2P Require Import ReportText Lease Claim Roster RosterProps.
Local Open Scope string_scope.
Local Open Scope list_scope.

(** ** Claims *)

Section Claims.
Context (to_s : Json -> string) (from_s : string -> result string Json).

(** The earlier chunks a claim waited for: of each, one file, and its newest
    attempt in the stage ended well. *)
Definition chunk_finished (new : NewDispatch) (st : Store) (n : string) : Prop :=
  let cs := named n (omap (candidate new) (admission_entries (nd_issue_id new) (nd_worktree_path new) st)) in
  one_path cs /\ exists c, newest cs c /\ finished (ac_status c) = true.

Lemma done_finished new st n :
  n ∈ ai_done (after_index (omap (candidate new) (admission_entries (nd_issue_id new) (nd_worktree_path new) st))) ->
  chunk_finished new st n.
Proof.
  intros Hn. unfold chunk_finished. set (cs := omap _ _) in *. pose proof (after_index_entry cs n) as H.
  unfold entry_at in H. rewrite bool_decide_true in H by done. pose proof (one_path_size (named n cs)) as Hp.
  destruct (Nat.ltb_spec 1 (size (list_to_set (map ac_path (named n cs)) : gset string))) as [|Hs]; [done|].
  apply Hp in Hs. split; [done|]. destruct (max_by_row (named n cs)) as [g|] eqn:E; [|done].
  exists g. split; [by apply newest_max|]. congruence.
Qed.

(** C5. A granted claim, in every well-formed store: one queued row with a new
    id is added and nothing else changes; the stage is then within the limit of
    the claim; unless the duplicate override was given no active row covered the
    same work; the parent, if any, exists, is of the same issue and has not
    failed; and a chunk claimed without the scope override shares no path with
    an active chunk of its issue and worktree it is not blessed for, and comes
    after finished chunks only. *)
Theorem claim_admits now new limit dup prepared over proof st id st' :
  store_ok st ->
  claim_dispatch_admitted_led to_s from_s now new limit dup prepared over proof st = Ok (Ok (id, st')) ->
  (exists r, rows st !! id = None /\ rows st' = <[id := r]> (rows st) /\ status r = "queued" /\
     issue_id r = nd_issue_id new /\ worktree_path r = nd_worktree_path new /\ stage r = nd_stage new /\
     lead_lease r = proof_lease proof) /\
  (forall s, nd_stage new = Some s -> (N.of_nat (occupancy s st') <= limit)%N) /\
  (dup = None -> forall i r, rows st !! i = Some r -> active r = true -> same_work (map_dispatch i r) (claim_request new) = false) /\
  validate_parent (nd_parent_id new) (nd_issue_id new) st = Ok tt /\
  (forall chunk, nd_chunk_path new = Some chunk -> over = None ->
     exists p, prepared = Some p /\ (forall i r, rows st !! i = Some r -> cleared from_s new (pc_scope p) r) /\
       forall n, n ∈ after (pc_scope p) -> chunk_finished new st n).
Proof.
  intros Hok (r & [Hi [a Hr] _ Hp Hg Hd _])%claim_granted_facts. apply decide_granted in Hd as [Hdup Hcap].
  pose proof Hi as (Eid & _ & _ & R). split; [|split; [|split; [|split]]].
  - exists r. subst r id. split; [by apply fresh_id|]. by repeat split.
  - intros s Hs. rewrite (occupancy_inserted s st st' id r) by done. unfold claim_request in Hcap. cbn [q_stage] in Hcap.
    rewrite Hs in Hcap. cbn in Hcap.
    rewrite admission_count in Hcap by done. case_match; lia.
  - intros -> i ri Hri Ha. apply (Hdup eq_refl); [|done]. unfold admission_rows. apply list_elem_of_fmap.
    exists (i, ri). split; [done|]. apply admission_entry. split; [done|]. left. rewrite stored_active_spec; [done|].
    by eapply so_status.
  - done.
  - intros chunk Hch ->. destruct prepared as [p|].
    2: { exfalso. unfold scope_gate in Hg. by rewrite Hch in Hg. }
    exists p. split; [done|]. destruct (gate_cleared from_s new st p None chunk Hok Hch eq_refl Hg) as [H1 H2].
    split; [done|]. intros n Hn. by apply done_finished, H2.
Qed.

(** ** Budgets over time *)

(** The largest limit a claim into a stage was granted with. *)
Definition stage_limit (s : string) (log : list Event) : N :=
  foldr (fun e m => match e with
                    | Claimed _ new l => if bool_decide (trim <$> nd_stage new = Some (trim s)) then N.max l m else m
                    | Woken _ => m
                    end) 0%N log.

Lemma stage_limit_app s l1 l2 : stage_limit s (l1 ++ l2) = N.max (stage_limit s l1) (stage_limit s l2).
Proof.
  induction l1 as [|[id new l|id] l1 IH];
    [symmetry; apply N.max_0_l|cbn [app stage_limit foldr]|exact IH].
  fold (stage_limit s (l1 ++ l2)) (stage_limit s l1). rewrite IH. case_bool_decide; lia.
Qed.

(** The active rows of a stage that were woken, and those that were not. *)
Definition occupancy_if (f : Z -> bool) (s : string) (st : Store) : nat :=
  length (List.filter (fun e : Z * Row => active e.2 && staged s e.2 && f e.1) (map_to_list (rows st))).

Definition woken_occupancy (log : list Event) (s : string) (st : Store) : nat := occupancy_if (was_woken log) s st.
Definition kept_occupancy (log : list Event) (s : string) (st : Store) : nat :=
  occupancy_if (fun id => negb (was_woken log id)) s st.

Lemma occupancy_split log s st : occupancy s st = kept_occupancy log s st + woken_occupancy log s st.
Proof.
  unfold occupancy, kept_occupancy, woken_occupancy, occupancy_if.
  induction (map_to_list (rows st)) as [|[id r] l IH]; simpl; [done|].
  destruct (active r && staged s r), (was_woken log id); simpl; lia.
Qed.

Lemma occupancy_if_le f g s st st' :
  (forall id r', rows st' !! id = Some r' -> active r' = true -> staged s r' = true -> f id = true ->
     exists r, rows st !! id = Some r /\ active r = true /\ staged s r = true /\ g id = true) ->
  occupancy_if f s st' <= occupancy_if g s st.
Proof.
  intros H. unfold occupancy_if. rewrite <- !(length_map fst). apply submseteq_length, NoDup_submseteq.
  - apply (NoDup_fmap_2_strong fst); [|apply NoDup_filter_b, NoDup_map_to_list].
    intros [i r] [j r'] [Hi _]%elem_of_filter_b [Hj _]%elem_of_filter_b. simpl. intros ->.
    rewrite elem_of_map_to_list in Hi, Hj. congruence.
  - intros i ([j r'] & -> & [Hj Ha]%elem_of_filter_b)%list_elem_of_fmap. simpl in *.
    rewrite elem_of_map_to_list in Hj. apply andb_true_iff in Ha as [[Ha Hs]%andb_true_iff Hf].
    destruct (H j r' Hj Ha Hs Hf) as (r & Hr & Har & Hsr & Hg).
    apply list_elem_of_fmap. exists (j, r). split; [done|]. apply elem_of_filter_b. rewrite elem_of_map_to_list.
    split; [done|]. simpl. by rewrite Har, Hsr, Hg.
Qed.

(** A row that stays counted was counted before, or it is the row of a claim. *)
Lemma step_kept s pre st evs st' :
  store_ok st -> step to_s from_s st evs st' ->
  (forall id r', rows st' !! id = Some r' -> (last_id st < id)%Z -> active r' = true -> staged s r' = true ->
     was_woken evs id = true) ->
  kept_occupancy (pre ++ evs) s st' <= kept_occupancy pre s st.
Proof.
  intros Hok Hs Hnew. destruct (step_rows _ _ _ _ _ Hok Hs) as [[L Hc] Ha].
  apply occupancy_if_le. intros id r' Hr' Hact Hst Hw. rewrite was_woken_app in Hw.
  apply negb_true_iff, orb_false_iff in Hw as [Hpre Hev].
  destruct (Hc id r' Hr') as [(r & Hr & V)|[Hid _]]; [|rewrite (Hnew id r') in Hev by (done || lia); done].
  pose proof (so_ids _ Hok _ _ Hr) as Hle. destruct (Ha id r' Hr' Hle Hact) as [?|(r0 & Hr0 & Hr0a)]; [congruence|].
  simplify_eq. exists r. unfold staged in *. rewrite (ev_stage _ _ V) in Hst. by rewrite Hpre.
Qed.

Lemma occupancy_trim s s' st : trim s = trim s' -> occupancy s st = occupancy s' st.
Proof. intros E. unfold occupancy, staged. by rewrite E. Qed.

(** A claim into the stage was granted below its limit. *)
Lemma granted_occupancy s new limit allow stm st' id r :
  store_ok stm -> inserted stm st' id r -> trim <$> nd_stage new = Some (trim s) ->
  decide_allowing_duplicate (admission_rows (nd_issue_id new) (nd_worktree_path new) stm) (claim_request new) limit allow =
    ClaimGrant ->
  (N.of_nat (occupancy s st') <= limit)%N.
Proof.
  intros Hok Hi Hst [_ Hcap]%decide_granted. rewrite (occupancy_inserted s stm st' id r) by done.
  destruct (nd_stage new) as [s'|] eqn:Es; [|done]. simpl in Hst. injection Hst as Hst.
  unfold claim_request in Hcap. cbn [q_stage] in Hcap. rewrite Es in Hcap. cbn in Hcap.
  rewrite admission_count in Hcap by done. rewrite (occupancy_trim s' s) in Hcap by done. case_match; lia.
Qed.

Lemma step_budget s pre st evs st' :
  store_ok st -> step to_s from_s st evs st' ->
  (N.of_nat (kept_occupancy (pre ++ evs) s st') <= N.max (N.of_nat (kept_occupancy pre s st)) (stage_limit s evs))%N.
Proof.
  intros Hok Hs. pose proof (occupancy_split (pre ++ evs) s st') as Hsplit. inversion Hs as
    [now new limit dup prepared over proof ? id ? E|now src e new limit proof ? id ? E|? ? Hw|? ? Hc]; subst.
  3,4: enough (kept_occupancy (pre ++ map Woken (woken st st')) s st' <= kept_occupancy pre s st) by lia;
    apply step_kept; [done|done|]; intros i ri Hri Hlt Ha _; rewrite was_woken_map; apply bool_decide_eq_true;
    destruct (woken_spec st st' i ri Hri Ha) as [?|(r & Hr & _)]; [done|]; apply (so_ids _ Hok) in Hr; lia.
  - apply claim_granted_facts in E as (r & [Hi [a Hr] _ _ _ Hd _]). cbn [stage_limit foldr]. destruct (bool_decide_reflect (trim <$> nd_stage new = Some (trim s))) as [Hst|Hst].
    { pose proof (granted_occupancy s new limit _ st st' id r Hok Hi Hst Hd). lia. }
    enough (kept_occupancy (pre ++ [Claimed id new limit]) s st' <= kept_occupancy pre s st) by lia.
    apply step_kept; [done|done|]. destruct Hi as (Eid & _ & _ & R). intros i ri. rewrite R. intros Hri Hlt _ Hsi.
    destruct (decide (id = i)) as [<-|Hne]; [|rewrite lookup_insert_ne in Hri by done; apply (so_ids _ Hok) in Hri; lia].
    rewrite lookup_insert_eq in Hri. injection Hri as <-. subst r. by apply bool_decide_eq_true in Hsi.
  - apply resume_granted_facts in E as (stm & r & Hc & Hw & L & Hi & Hsf & Hsr & _ & Hd). cbn [stage_limit foldr].
    pose proof (calm_ok _ _ Hc Hok) as Hokm. destruct (bool_decide_reflect (trim <$> nd_stage new = Some (trim s))) as [Hst|Hst].
    { pose proof (granted_occupancy s new limit false stm st' id r Hokm Hi Hst Hd). lia. }
    enough (kept_occupancy (pre ++ [Claimed id new limit]) s st' <= kept_occupancy pre s st) by lia.
    apply step_kept; [done|done|]. destruct Hi as (Eid & _ & _ & R). intros i ri. rewrite R. intros Hri Hlt _ Hsi.
    destruct (decide (id = i)) as [<-|Hne]; [|rewrite lookup_insert_ne in Hri by done; apply (so_ids _ Hokm) in Hri; lia].
    rewrite lookup_insert_eq in Hri. injection Hri as <-. unfold staged in Hsi. rewrite Hsr in Hsi.
    by apply bool_decide_eq_true in Hsi.
Qed.

Lemma runs_budget s st log st' :
  runs to_s from_s st log st' -> store_ok st -> forall pre,
  (N.of_nat (kept_occupancy (pre ++ log) s st') <= N.max (N.of_nat (kept_occupancy pre s st)) (stage_limit s log))%N.
Proof.
  induction 1 as [st|st evs st1 log st2 Hs _ IH]; intros Hok pre; [rewrite app_nil_r; lia|].
  destruct (step_rows _ _ _ _ _ Hok Hs) as [Hc _]. specialize (IH (calm_ok _ _ Hc Hok) (pre ++ evs)).
  rewrite <- app_assoc in IH. pose proof (step_budget s pre _ _ _ Hok Hs). rewrite stage_limit_app. lia.
Qed.

(** C8. The budget of a stage over any run of the roster: from any well-formed
    store, after any sequence of claims, finishers' claims and other writes, the
    active rows of a stage are at most the larger of their number at the start and
    of the largest limit a claim into the stage was granted with, plus the active
    ones among those that became active without a claim in between (rows put into
    the stage directly, and ended rows revived by a write of their status).  The
    duplicate override adds nothing. *)
Theorem stage_within_budget s st0 log st :
  store_ok st0 -> runs to_s from_s st0 log st ->
  (N.of_nat (occupancy s st) <=
     N.max (N.of_nat (occupancy s st0)) (stage_limit s log) + N.of_nat (woken_occupancy log s st))%N.
Proof.
  intros Hok Hr. pose proof (runs_budget s _ _ _ Hr Hok []) as H. rewrite app_nil_l in H.
  pose proof (occupancy_split log s st). pose proof (occupancy_split [] s st0). lia.
Qed.

(** Neither an operator nor a supervisor wakes ended work: a checked status
    write makes no row active. *)
Lemma checked_status_wakes_none now id expected to note proof st st' :
  set_dispatch_status_led now id expected to note proof st = Ok st' -> woken st st' = [].
Proof.
  unfold set_dispatch_status_led. destruct (rows st !! id) as [r|] eqn:Hr; [|done].
  destruct (set_status_transition_allowed expected to) eqn:Ht; [|done]. cbn [negb]. intros H. rbind_inv.
  destruct (status_matches expected r) eqn:Hm; [|done]. rbind_inv. simplify_eq. apply woken_none.
  assert (forall t s, rows (note_if id now t s) = rows s) as Hn by (by destruct t). rewrite !Hn.
  intros i r'. simpl. destruct (decide (id = i)) as [<-|Hne]; [|rewrite lookup_insert_ne by done; eauto].
  rewrite lookup_insert_eq. intros [= <-] Ha. exists r. split; [done|].
  assert (is_active to = true) as Hto by (by destruct to). pose proof (transition_ended _ _ Ht Hto) as Hf.
  unfold active. destruct expected; try done; by apply String.eqb_eq in Hm as ->.
Qed.

(** ** Files over time *)

(** What is written as JSON reads back. *)
Hypothesis json_roundtrip : forall fs, from_s (to_s (scope_json fs)) = Ok (scope_json fs).

Lemma json_strings_map l : json_strings (map JString l) = Some l.
Proof. unfold json_strings. induction l as [|x l IH]; [done|]. cbn [map mapM]. by rewrite IH. Qed.

Lemma scope_decode_encode fs : decode_chunk_scope from_s (encode_chunk_scope to_s fs) = Ok fs.
Proof.
  unfold decode_chunk_scope, encode_chunk_scope. rewrite json_roundtrip.
  change (json_get "v" _) with (Some (JNumber 1)). change (json_get "files" _) with (Some (JArray (map JString fs))).
  cbn iota beta. by rewrite json_strings_map.
Qed.

(** C2. Active chunks own their files: once a chunk [j] was claimed without the
    scope override, then after any sequence of claims, finishers' claims and
    other writes, every older row of the same issue and worktree that belongs to a
    chunk and is active has a recorded scope, and that scope shares no path, even
    up to case, with the one recorded for [j], unless [j] was blessed to overlap it
    by name, or the older row became active again after the claim (a write of its
    status revived it).  Rows that entered by a finisher's claim, a plain insertion
    or an override are not [j]: they passed no gate. *)
Theorem active_chunks_disjoint now new limit dup p proof st j st1 log st2 chunk i ri rj path :
  store_ok st -> nd_chunk_path new = Some chunk ->
  claim_dispatch_admitted_led to_s from_s now new limit dup (Some p) None proof st = Ok (Ok (j, st1)) ->
  runs to_s from_s st1 log st2 ->
  (i < j)%Z -> rows st2 !! i = Some ri -> rows st2 !! j = Some rj ->
  active ri = true -> was_woken log i = false ->
  same_issue (issue_id ri) (issue_id rj) = true -> worktree_path ri = worktree_path rj ->
  chunk_path ri = Some path -> is_empty (trim path) = false ->
  exists fi fj, dispatch_chunk_scope from_s i st2 = Ok (Some fi) /\ dispatch_chunk_scope from_s j st2 = Ok (Some fj) /\
    fj = files (pc_scope p) /\
    (chunk_name path ∈ overlaps (pc_scope p) \/ forall x y, x ∈ fj -> y ∈ fi -> ~ meet x y).
Proof.
  intros Hok Hch Hclaim Hruns Hlt Hri Hrj Ha Hw Hs Hwt Hp He.
  destruct (gated_claim_lasts _ _ _ _ _ _ _ _ _ _ _ _ _ _ Hok Hch Hclaim Hruns) as [Hadm Hcl].
  destruct (Hadm rj Hrj) as (Ei & Ew & _ & Es). destruct (Hcl i ri Hlt Hri Hw path Ha) as (raw & fs & Hraw & Hd & Hdis).
  - split; [|done]. unfold is_sibling. by rewrite <- Ei, <- Ew, Hs, Hwt, String.eqb_refl.
  - exists fs, (files (pc_scope p)). unfold dispatch_chunk_scope. rewrite Hri, Hrj, Hraw, Es, Hd, scope_decode_encode. done.
Qed.
End Claims.

(** ** Leads *)

Lemma lead_named now bound name owner presented db :
  lead_lease_check now bound name owner presented db = Ok tt ->
  Forall (fun b => b = name) bound /\ exists l, leases db !! name = Some l /\ l_owner l = owner /\ (now < l_expires l)%Z.
Proof.
  unfold lead_lease_check. intros H. rbind_inv.
  destruct (List.find _ bound) eqn:Hf; [done|]. destruct (leases db !! name) as [l|]; [|done].
  destruct (String.eqb_spec (l_owner l) owner); [|done]. destruct (Z.ltb_spec now (l_expires l)); [|done].
  split; [|by exists l]. apply Forall_forall. intros b Hb%list_elem_of_In.
  apply (List.find_none _ _ Hf) in Hb. by apply negb_false_iff, String.eqb_eq in Hb.
Qed.

(** A row bound to a lead's lease changes its status only for the holder of
    that lease while it is live, or for an administrator who gave a reason, and
    then a note on the row records the bypass. *)
Theorem bound_status_needs_lead now id expected to note proof st st' r lease :
  rows st !! id = Some r -> lead_lease r = Some lease ->
  set_dispatch_status_led now id expected to note proof st = Ok st' ->
  (exists owner l, (proof = LeaseProof lease owner \/ exists g, proof = Fenced lease owner g) /\
     leases (lease_db st) !! lease = Some l /\ l_owner l = owner /\ (now < l_expires l)%Z) \/
  (exists why n, proof = Admin why /\ is_empty (trim why) = false /\ n ∈ notes st' /\ n_dispatch n = id /\
     note_text ("lead lease " ++ lease ++ " bypassed by admin: " ++ why) = Ok (n_text n)).
Proof.
  intros Hr Hl H. unfold set_dispatch_status_led in H. rewrite Hr in H.
  destruct (set_status_transition_allowed expected to); [|done]. cbn [negb] in H.
  apply rbind_Ok in H as (note' & _ & H). apply rbind_Ok in H as (audit & Hlead & H).
  destruct (status_matches expected r); [|done]. apply rbind_Ok in H as (audit' & Ha & H). injection H as <-.
  unfold bound_of in Hlead. rewrite Hr, Hl in Hlead. unfold led in Hlead.
  destruct (lead_check now [lease] proof (lease_db st)) as [aud|] eqn:Hc; [|done]. injection Hlead as ->.
  destruct proof as [|name owner|name owner g|why]; cbn [lead_check] in Hc.
  - done.
  - left. apply rbind_Ok in Hc as ([] & Hc & _). apply lead_named in Hc as [Hb (l & ? & ? & ?)].
    apply Forall_cons_1 in Hb as [-> _]. exists owner, l. auto.
  - left. apply rbind_Ok in Hc as ([] & Hc & _). apply lead_named in Hc as [Hb (l & ? & ? & ?)].
    apply Forall_cons_1 in Hb as [-> _]. exists owner, l. eauto 6.
  - right. destruct (is_empty (trim why)) eqn:He; [done|]. injection Hc as <-. cbn [optional_note] in Ha.
    apply rbind_Ok in Ha as (t & Ht & Ha). injection Ha as <-. exists why, (mkNote id now t).
    split; [done|]. split; [done|].
    split; [cbn [note_if add_note notes]; apply elem_of_app; right; by apply list_elem_of_singleton|].
    split; [done|]. cbn [join n_text] in *.
    unfold checked in Ht. destruct (note_text _) as [t'|]; [|done]. by simplify_eq.
Qed.

(** ** Replaced runs *)

Section Replaced.
Context (to_s : Json -> string) (from_s : string -> result string Json).

(** The writes that give a row its next run. *)
Inductive relaunched (id : Z) : Store -> Store -> Prop :=
| rl_publish now session artifact st st' :
    publish_dispatch_run now id session artifact st = (Published, st') -> relaunched id st st'
| rl_retry now expected session artifact st st' :
    compare_and_set_dispatch_retry_run now id expected session artifact st = (true, st') -> relaunched id st st'
| rl_bind session st st' : bind_dispatch_session id session st = (true, st') -> relaunched id st st'
| rl_stamp session artifact st : relaunched id st (stamp_dispatch_run id session artifact st).

(** A row that is gone or has had a run after [g]. *)
Definition beyond (id g : Z) (st : Store) : Prop :=
  (id <= last_id st)%Z /\ forall r, rows st !! id = Some r -> (g < run_gen (run r))%Z.

Lemma beyond_calm id g st st' : calm st st' -> beyond id g st -> beyond id g st'.
Proof.
  intros [L H] [Hid Hg]. split; [lia|]. intros r' [(r & Hr & Hv)|[? _]]%H; [|lia]. specialize (Hg r Hr).
  pose proof (ev_gen _ _ Hv). lia.
Qed.

Lemma relaunched_write id st st' : relaunched id st st' -> write st st'.
Proof.
  destruct 1; [by eapply w_publish|by eapply w_retry_run|by eapply w_bind|apply w_stamp].
Qed.

Lemma relaunched_beyond id st st' r :
  store_ok st -> relaunched id st st' -> rows st !! id = Some r -> beyond id (run_gen (run r)) st'.
Proof.
  intros Hok Hl Hr. pose proof (so_ids _ Hok _ _ Hr) as Hid.
  assert (forall r', (run_gen (run r) < run_gen (run r'))%Z -> beyond id (run_gen (run r)) (put_row id r' st)) as Hput.
  { intros r' Hg. split; [done|]. intros r2. simpl. rewrite lookup_insert_eq. by intros [= <-]. }
  destruct Hl as [now session artifact st st' E|now expected session artifact st st' E|session st st' E|session artifact st].
  - unfold publish_dispatch_run in E. rewrite Hr in E. destruct (status_in _ r); [|done]. injection E as <-.
    apply Hput. simpl. lia.
  - unfold compare_and_set_dispatch_retry_run, update_if in E. rewrite Hr in E. destruct (String.eqb _ _); [|done].
    injection E as <-. apply Hput. simpl. lia.
  - unfold bind_dispatch_session in E. destruct (is_empty session); [done|]. rewrite Hr in E.
    destruct (_ && _); [|done]. injection E as <-. apply Hput. simpl. lia.
  - unfold stamp_dispatch_run, update_row. rewrite Hr. apply Hput. simpl. lia.
Qed.

Lemma beyond_unfenced ref st r : beyond (rr_id ref) (rr_run_gen ref) st -> rows st !! rr_id ref = Some r -> fenced_by ref r = false.
Proof.
  intros [_ H] Hr. specialize (H r Hr). unfold fenced_by. destruct (Z.eqb_spec (run_gen (run r)) (rr_run_gen ref)); [lia|].
  apply andb_false_r.
Qed.

(** C39. A replaced run is inert: once a row was given its next run (published,
    relaunched, bound or stamped), then after any sequence of transactions every
    operation that is made on behalf of the earlier run, through its run
    reference, changes nothing: its exit is not stamped, its status writes, its
    retry parks, settlements and counts and its session id do not land, and it
    reads no session id. *)
Theorem replaced_run_inert st0 id ref st1 log st2 :
  store_ok st0 -> dispatch_run_ref id st0 = Some ref -> relaunched id st0 st1 -> runs to_s from_s st1 log st2 ->
  (forall now code, exists o, stamp_dispatch_exit now ref code st2 = (o, st2) /\ o <> Stamped /\ o <> AlreadyStamped) /\
  (forall now expected s note b st3, compare_and_set_dispatch_status_run now ref expected s note st2 = Ok (b, st3) ->
     b = false /\ st3 = st2) /\
  (forall now expected text b st3, compare_and_set_dispatch_retry_park_run now ref expected text st2 = Ok (b, st3) ->
     b = false /\ st3 = st2) /\
  (forall now expected text b st3, compare_and_set_dispatch_retry_settle_run now ref expected text st2 = Ok (b, st3) ->
     b = false /\ st3 = st2) /\
  (forall cls, count_dispatch_retry_attempt_run ref cls st2 = (None, st2)) /\
  (forall native, set_dispatch_native_session ref native st2 = (false, st2)) /\
  dispatch_native_session ref st2 = None.
Proof.
  intros Hok Href Hl Hruns. unfold dispatch_run_ref in Href. apply fmap_Some in Href as (r & Hr & ->).
  pose proof (write_calm _ _ (relaunched_write _ _ _ Hl)) as Hc1.
  pose proof (beyond_calm _ _ _ _ (runs_calm _ _ _ _ _ Hruns (calm_ok _ _ Hc1 Hok)) (relaunched_beyond _ _ _ _ Hok Hl Hr)) as Hb.
  set (ref := run_ref id r) in *. change id with (rr_id ref) in Hb. change (run_gen (run r)) with (rr_run_gen ref) in Hb.
  pose proof (fun r2 => beyond_unfenced ref st2 r2 Hb) as Hf.
  unfold stamp_dispatch_exit, compare_and_set_dispatch_status_run, cas_dispatch_status, count_dispatch_retry_attempt_run,
    compare_and_set_dispatch_retry_park_run, compare_and_set_dispatch_retry_settle_run, set_dispatch_native_session, update_if,
    dispatch_native_session.
  destruct (rows st2 !! rr_id ref) as [r2|] eqn:E2.
  - rewrite (Hf r2) by done. rewrite !andb_false_l. split_and!; intros.
    + case_match; eauto.
    + rbind_inv. rewrite andb_false_r in *. by simplify_eq.
    + rbind_inv. rewrite andb_false_r in *. by simplify_eq.
    + rbind_inv. rewrite andb_false_r in *. by simplify_eq.
    + done.
    + by case_match.
    + done.
  - split_and!; intros; try done; try (rbind_inv; by simplify_eq); [eauto|by case_match].
Qed.
End Replaced.

(** ** Pruning *)

Section Pruned.
Context (has_worktree : string -> bool) (autopilot_busy tasked : Z -> bool).

(** A set of rows that holds the children of its rows. *)
Definition lineage_closed (st : Store) (ids : list Z) : Prop :=
  forall id, id ∈ ids -> forall c r, rows st !! c = Some r -> parent_id r = Some id -> c ∈ ids.

Lemma children_spec id st c : c ∈ children id st <-> exists r, rows st !! c = Some r /\ parent_id r = Some id.
Proof.
  unfold children. rewrite list_elem_of_fmap. split.
  - intros ([c' r] & -> & [H1 H2%bool_decide_eq_true]%elem_of_filter_b). rewrite elem_of_map_to_list in H1. eauto.
  - intros (r & H1 & H2). exists (c, r). split; [done|]. apply elem_of_filter_b. rewrite elem_of_map_to_list.
    split; [done|]. by apply bool_decide_eq_true.
Qed.

Lemma retain_spec st ids id :
  id ∈ retain st ids <-> id ∈ ids /\ forall c r, rows st !! c = Some r -> parent_id r = Some id -> c ∈ ids.
Proof.
  unfold retain. rewrite elem_of_filter_b, forallb_forall. split; intros [H1 H2]; (split; [done|]).
  - intros c r Hc Hp. apply (bool_decide_eq_true_1 (c ∈ ids)), H2, list_elem_of_In, children_spec. eauto.
  - intros c (r & Hc & Hp)%list_elem_of_In%children_spec. apply bool_decide_eq_true. eauto.
Qed.

Lemma filter_length_eq {A} (f : A -> bool) l : length (List.filter f l) = length l -> List.filter f l = l.
Proof.
  induction l as [|x l IH]; simpl; [done|]. destruct (f x); simpl; [intros [= H]; by rewrite IH|].
  pose proof (List.filter_length_le f l). lia.
Qed.

Lemma prune_loop_spec fuel st ids :
  length ids <= fuel ->
  let out := prune_loop fuel st ids in
  (forall id, id ∈ out -> id ∈ ids) /\ lineage_closed st out /\
  forall t, (forall id, id ∈ t -> id ∈ ids) -> lineage_closed st t -> forall id, id ∈ t -> id ∈ out.
Proof.
  revert ids. induction fuel as [|fuel IH]; intros ids Hf; cbn [prune_loop].
  { destruct ids; [|simpl in Hf; lia]. split; [done|]. split; [intros id []%not_elem_of_nil|auto]. }
  destruct (Nat.eqb_spec (length (retain st ids)) (length ids)) as [E|E].
  - apply filter_length_eq in E. fold (retain st ids) in E. split; [done|]. split; [|auto].
    intros id Hid. rewrite <- E in Hid. by apply retain_spec in Hid as [_ Hid].
  - pose proof (List.filter_length_le (fun id => forallb (fun c => bool_decide (c ∈ ids)) (children id st)) ids) as Hle.
    fold (retain st ids) in Hle. destruct (IH (retain st ids)) as (H1 & H2 & H3); [lia|]. split; [|split; [done|]].
    + intros id Hid%H1. by apply retain_spec in Hid as [? _].
    + intros t Ht Hc. apply H3; [|done]. intros id Hid. apply retain_spec. split; [auto|]. intros c r Hr Hp.
      apply Ht. by eapply Hc.
Qed.

(** Pruning removes the largest set of ended, retired rows that breaks no
    lineage: every removed row has ended, is old enough and is used by nothing
    else; no row that stays has lost its parent; and every set of such rows that
    holds its own children is removed. *)
Theorem prune_exact now st :
  let ids := prune_ids has_worktree autopilot_busy tasked now st in
  let cutoff := i64_sat_sub now (i64_sat (DISPATCH_TERMINAL_RETENTION_SECS * 1000)) in
  let doomed := fun id => exists r, rows st !! id = Some r /\ prunable has_worktree autopilot_busy tasked cutoff (id, r) = true in
  let st' := (prune_terminal_dispatches has_worktree autopilot_busy tasked now st).2 in
  (forall id r, rows st' !! id = Some r <-> rows st !! id = Some r /\ id ∉ ids) /\
  (forall id, id ∈ ids -> doomed id) /\
  (forall c r p, rows st' !! c = Some r -> parent_id r = Some p -> is_Some (rows st !! p) -> is_Some (rows st' !! p)) /\
  (forall t, (forall id, id ∈ t -> doomed id) -> lineage_closed st t -> forall id, id ∈ t -> rows st' !! id = None).
Proof.
  intros ids cutoff doomed st'. unfold ids, prune_ids. fold cutoff.
  set (cands := map fst (List.filter (prunable has_worktree autopilot_busy tasked cutoff) (map_to_list (rows st)))).
  assert (forall id, id ∈ cands <-> doomed id) as Hcands.
  { intros id. unfold cands, doomed. rewrite list_elem_of_fmap. split.
    - intros ([i r] & -> & [H1 H2]%elem_of_filter_b). rewrite elem_of_map_to_list in H1. eauto.
    - intros (r & H1 & H2). exists (id, r). split; [done|]. apply elem_of_filter_b. by rewrite elem_of_map_to_list. }
  destruct (prune_loop_spec (length cands) st cands (le_n _)) as (H1 & H2 & H3).
  set (out := prune_loop (length cands) st cands) in *.
  assert (forall id r, rows st' !! id = Some r <-> rows st !! id = Some r /\ id ∉ out) as Hrows.
  { intros id r. unfold st'. simpl. unfold prune_ids. fold cutoff cands out. rewrite delete_ids_lookup.
    case_bool_decide; naive_solver. }
  split; [done|]. split; [|split].
  - intros id Hid. by apply Hcands, H1.
  - intros c r p [Hc Hco]%Hrows Hp [rp Hrp]. exists rp. apply Hrows. split; [done|]. intros Hin. apply Hco. by eapply H2.
  - intros t Ht Hcl id Hid. destruct (rows st' !! id) as [r|] eqn:E; [|done]. apply Hrows in E as [_ Hno]. exfalso.
    apply Hno, (H3 t); [|done|done]. intros i Hi. by apply Hcands, Ht.
Qed.
End Pruned.
