(* ===== verification/RosterRuns.v ===== *)
(** * Runs of the roster

    Concrete stores the theorems of [RosterSafe] apply to, with a JSON codec that
    reads back what it wrote, and the run that shows what resuming a failed chunk
    does to the ownership of files. *)
From Stdlib Require Import Ascii String.
From S2P Require Import Prelude RustOrd RustStr RustText RustChars Pipeline Glob GlobProps GlobSpec ChunkScope ChunkProps.
From S2P Require Import ReportText Lease Claim Roster RosterProps RosterSafe.
Local Open Scope string_scope.
Local Open Scope list_scope.

(** ** A codec *)

Fixpoint bits (p : positive) : string :=
  match p with
  | xI p => String "1" (bits p)
  | xO p => String "0" (bits p)
  | xH => EmptyString
  end.

Fixpoint unbits (s : string) : positive :=
  match s with
  | String "1" s => xI (unbits s)
  | String _ s => xO (unbits s)
  | EmptyString => xH
  end.

Lemma unbits_bits p : unbits (bits p) = p.
Proof. induction p; simpl; by f_equal. Qed.

Definition write_json (j : Json) : string :=
  match json_get "files" j with
  | Some (JArray l) => bits (encode (default [] (json_strings l)))
  | _ => EmptyString
  end.

Definition read_json (s : string) : result string Json :=
  match decode (unbits s) : option (list string) with
  | Some l => Ok (scope_json l)
  | None => Err "no scope"
  end.

Lemma read_write fs : read_json (write_json (scope_json fs)) = Ok (scope_json fs).
Proof.
  unfold read_json, write_json. change (json_get "files" _) with (Some (JArray (map JString fs))). cbn iota.
  rewrite json_strings_map. simpl default. by rewrite unbits_bits, countable.decode_encode.
Qed.

(** ** Two chunks *)

Definition chunk_claim (path : string) : NewDispatch :=
  mkNewDispatch "linear:THE-1" "/wt" "coder" (Some "code") None None None (Some path).

Definition prepare (path : string) (fs : list string) : PreparedChunkAdmission :=
  mkPreparedChunkAdmission path (mkChunkScope fs [] []).

Definition claim_chunk (path : string) (fs : list string) (st : Store) :=
  claim_dispatch_admitted_led write_json read_json 1000 (chunk_claim path) 2 None (Some (prepare path fs)) None Unbound st.

Definition after_claim (r : result RosterError (result DispatchAdmissionDecision (Z * Store))) : Store :=
  match r with Ok (Ok (_, st)) => st | _ => mkStore ∅ 0 [] (mkLeaseDb ∅ 0) end.

Definition no_rows : Store := mkStore ∅ 0 [] (mkLeaseDb ∅ 0).
Definition one_chunk : Store := after_claim (claim_chunk "chunk-1.md" ["src/a.rs"] no_rows).
Definition two_chunks : Store := after_claim (claim_chunk "chunk-2.md" ["src/b/*.rs"] one_chunk).

Lemma no_rows_ok : store_ok no_rows.
Proof. split; intros id r; simpl; by rewrite lookup_empty. Qed.

Lemma one_claimed : claim_chunk "chunk-1.md" ["src/a.rs"] no_rows = Ok (Ok (1%Z, one_chunk)).
Proof. vm_compute. reflexivity. Qed.

Lemma two_claimed : claim_chunk "chunk-2.md" ["src/b/*.rs"] one_chunk = Ok (Ok (2%Z, two_chunks)).
Proof. vm_compute. reflexivity. Qed.

Lemma one_ok : store_ok one_chunk.
Proof.
  eapply calm_ok; [|exact no_rows_ok].
  by destruct (step_rows write_json read_json _ _ _ no_rows_ok (step_claim _ _ _ _ _ _ _ _ _ _ _ _ one_claimed)) as [? _].
Qed.

(** The first chunk starts, after the second was claimed. *)
Definition started : Store :=
  match set_dispatch_status_led 2000 1 Queued Spawning None Unbound two_chunks with Ok st => st | Err _ => two_chunks end.

Lemma started_write : write two_chunks started.
Proof. apply (w_status 2000 1 Queued Spawning None Unbound). vm_compute. reflexivity. Qed.

Definition row_of (id : Z) (st : Store) : Row := default (new_row 0 (chunk_claim "")) (rows st !! id).

Lemma active_chunks_disjoint_witness :
  exists fi fj, dispatch_chunk_scope read_json 1 started = Ok (Some fi) /\ dispatch_chunk_scope read_json 2 started = Ok (Some fj) /\
    fj = ["src/b/*.rs"] /\
    (chunk_name "chunk-1.md" ∈ ([] : list string) \/ forall x y, x ∈ fj -> y ∈ fi -> ~ meet x y).
Proof.
  apply (active_chunks_disjoint write_json read_json read_write 1000 (chunk_claim "chunk-2.md") 2 None
    (prepare "chunk-2.md" ["src/b/*.rs"]) Unbound one_chunk 2 two_chunks (map Woken (woken two_chunks started) ++ []) started
    "chunk-2.md" 1 (row_of 1 started) (row_of 2 started) "chunk-1.md" one_ok eq_refl two_claimed
    (runs_step _ _ _ _ _ _ _ (step_write _ _ _ _ started_write) (runs_nil _ _ _)));
    solve [reflexivity|lia|vm_compute; reflexivity].
Defined.

Definition two_claims : list Event := [Claimed 1 (chunk_claim "chunk-1.md") 2; Claimed 2 (chunk_claim "chunk-2.md") 2].

Lemma two_runs : runs write_json read_json no_rows two_claims two_chunks.
Proof.
  exact (runs_step _ _ _ _ _ _ _ (step_claim _ _ _ _ _ _ _ _ _ _ _ _ one_claimed)
    (runs_step _ _ _ _ _ _ _ (step_claim _ _ _ _ _ _ _ _ _ _ _ _ two_claimed) (runs_nil _ _ _))).
Qed.

Lemma stage_within_budget_witness :
  (N.of_nat (occupancy "code" two_chunks) <=
     N.max (N.of_nat (occupancy "code" no_rows)) (stage_limit "code" two_claims) +
     N.of_nat (woken_occupancy two_claims "code" two_chunks))%N /\
  occupancy "code" two_chunks = 2 /\ stage_limit "code" two_claims = 2%N.
Proof.
  split; [exact (stage_within_budget write_json read_json "code" no_rows two_claims two_chunks no_rows_ok two_runs)|].
  split; vm_compute; reflexivity.
Defined.

Lemma claim_admits_witness :
  (N.of_nat (occupancy "code" two_chunks) <= 2)%N /\
  same_work (map_dispatch 1 (row_of 1 one_chunk)) (claim_request (chunk_claim "chunk-2.md")) = false.
Proof.
  destruct (claim_admits write_json read_json 1000 (chunk_claim "chunk-2.md") 2 None
    (Some (prepare "chunk-2.md" ["src/b/*.rs"])) None Unbound one_chunk 2 two_chunks one_ok two_claimed) as (_ & Hc & Hd & _).
  split; [exact (Hc "code" eq_refl)|]. apply (Hd eq_refl); vm_compute; reflexivity.
Defined.

(** ** A replaced run *)

Definition first_ref : DispatchRunRef := mkDispatchRunRef 1 "linear:THE-1" "" 0.
Definition next_run : Store := (publish_dispatch_run 2000 1 "s-2" "out.md" one_chunk).2.

Lemma replaced_run_inert_witness : count_dispatch_retry_attempt_run first_ref "timeout" next_run = (None, next_run).
Proof.
  apply (replaced_run_inert write_json read_json one_chunk 1 first_ref next_run [] next_run one_ok);
    [vm_compute; reflexivity| |apply runs_nil].
  apply (rl_publish 1 2000 "s-2" "out.md"). vm_compute. reflexivity.
Defined.

(** ** A bound row *)

Definition led_rows : Store := mkStore ∅ 0 [] lead_a.
Definition led_chunk : Store :=
  after_claim (claim_dispatch_admitted_led write_json read_json 1000 (chunk_claim "chunk-1.md") 2 None
    (Some (prepare "chunk-1.md" ["src/a.rs"])) None (Fenced "lead" "a" 1) led_rows).
Definition led_spawning : Store :=
  match set_dispatch_status_led 2000 1 Queued Spawning None (Fenced "lead" "a" 1) led_chunk with
  | Ok st => st
  | Err _ => led_chunk
  end.

Lemma bound_status_needs_lead_witness :
  (exists owner l, (Fenced "lead" "a" 1 = LeaseProof "lead" owner \/ exists g, Fenced "lead" "a" 1 = Fenced "lead" owner g) /\
     leases (lease_db led_chunk) !! "lead" = Some l /\ l_owner l = owner /\ (2000 < l_expires l)%Z) \/
  (exists why n, Fenced "lead" "a" 1 = Admin why /\ is_empty (trim why) = false /\ n ∈ notes led_spawning /\ n_dispatch n = 1%Z /\
     note_text ("lead lease " ++ "lead" ++ " bypassed by admin: " ++ why) = Ok (n_text n)).
Proof.
  apply (bound_status_needs_lead 2000 1 Queued Spawning None (Fenced "lead" "a" 1) led_chunk led_spawning
    (row_of 1 led_chunk) "lead"); vm_compute; reflexivity.
Defined.

(** ** Resuming a failed chunk *)

Definition failed_chunk : Store :=
  match set_dispatch_status_led 2000 1 Queued Failed None Unbound one_chunk with Ok st => st | Err _ => one_chunk end.
(** A second chunk takes the file the failed one owned. *)
Definition taken_over : Store := after_claim (claim_chunk "chunk-2.md" ["src/a.rs"] failed_chunk).
Definition finisher : NewDispatch :=
  mkNewDispatch "linear:THE-1" "/wt" "coder" (Some "code") (Some 1%Z) None None (Some "chunk-1.md").

(** A finisher escapes the scope gate.  After a chunk failed and another
    took over its file, resuming the failed one is granted and leaves two active
    rows of one issue and worktree that own the same file; claiming the same
    chunk anew in that state is refused. *)
Theorem resume_skips_scope_gate :
  exists st', claim_resume_dispatch_led 3000 1 Failed finisher 2 Unbound taken_over = Ok (Ok (3%Z, st')) /\
    (exists r2 r3, rows st' !! 2%Z = Some r2 /\ rows st' !! 3%Z = Some r3 /\ active r2 = true /\ active r3 = true /\
       issue_id r2 = issue_id r3 /\ worktree_path r2 = worktree_path r3) /\
    dispatch_chunk_scope read_json 2 st' = Ok (Some ["src/a.rs"]) /\
    dispatch_chunk_scope read_json 3 st' = Ok (Some ["src/a.rs"]) /\ meet "src/a.rs" "src/a.rs" /\
    exists why, claim_chunk "chunk-1.md" ["src/a.rs"] taken_over = Ok (Err (ScopeRefused why)).
Proof.
  eexists. split; [vm_compute; reflexivity|].
  split; [eexists _, _; by repeat split|]. split; [vm_compute; reflexivity|]. split; [vm_compute; reflexivity|]. split.
  - exists "src/a.rs", "src/a.rs". assert (path_in "src/a.rs" "src/a.rs"); [|done].
    apply match_segments_spec; [simpl; lia..|]. vm_compute. reflexivity.
  - eexists. vm_compute. reflexivity.
Qed.
