(* ===== verification/Graveyard.v ===== *)
(** * The graveyard of dead sessions

    thegn-core/src/graveyard.rs: the bounded, expiring holding pen the pane
    daemon keeps exited sessions in.  The [HashMap] is a [gmap], the
    [VecDeque] a list, oldest first; times are [i64] milliseconds.  The
    abstract view is one list of burials, oldest first. *)
From Stdlib Require Import Ascii String.
From S2P Require Import Prelude.
Local Open Scope Z_scope.
Local Open Scope list_scope.

Section Graveyard.
Context {T : Type}.

Record Entry := mkEntry { value : T; buried_at_ms : Z }.

Record Graveyard := mkGraveyard {
  entries : gmap string Entry;
  order : list string;
  max : N;
  ttl_ms : Z;
}.

Definition new (mx : N) (ttl : Z) : Graveyard := mkGraveyard ∅ [] mx ttl.

Definition expired (buried ttl now : Z) : bool :=
  (0 <? ttl) && (ttl <? i64_sat_sub now buried).

Definition is_expired (g : Graveyard) (e : Entry) (now : Z) : bool :=
  expired (buried_at_ms e) (ttl_ms g) now.

(** The eviction loop, on the order it pops from the front. *)
Fixpoint evict (mx : N) (es : gmap string Entry) (o : list string) : gmap string Entry * list string :=
  if (mx <=? N.of_nat (length o))%N then
    match o with
    | [] => (es, o)
    | oldest :: o => evict mx (delete oldest es) o
    end
  else (es, o).

Definition insert (id : string) (v : T) (now : Z) (g : Graveyard) : Graveyard :=
  if (max g =? 0)%N then g
  else
    let o := match entries g !! id with
             | Some _ => List.filter (fun k => negb (String.eqb k id)) (order g)
             | None => order g
             end in
    let '(es, o) := evict (max g) (delete id (entries g)) o in
    mkGraveyard (<[id := mkEntry v now]> es) (o ++ [id]) (max g) (ttl_ms g).

Definition get (g : Graveyard) (id : string) (now : Z) : option T :=
  e ← entries g !! id; if is_expired g e now then None else Some (value e).

Definition contains (g : Graveyard) (id : string) (now : Z) : bool :=
  match get g id now with Some _ => true | None => false end.

Definition sweep (now : Z) (g : Graveyard) : Graveyard :=
  let es := filter (fun ke : string * Entry => expired (buried_at_ms ke.2) (ttl_ms g) now = false) (entries g) in
  mkGraveyard es
    (List.filter (fun k => match es !! k with Some _ => true | None => false end) (order g))
    (max g) (ttl_ms g).

Definition iter (g : Graveyard) (now : Z) : list (string * T) :=
  omap (fun k => e ← entries g !! k; if is_expired g e now then None else Some (k, value e)) (order g).

Definition len (g : Graveyard) : N := N.of_nat (size (entries g)).

(** ** The abstract view *)

Definition burials (g : Graveyard) : list (string * Entry) :=
  omap (fun k => (fun e => (k, e)) <$> entries g !! k) (order g).

(** Keep the newest [n]. *)
Definition newest {A} (n : N) (l : list A) : list A := drop (length l - N.to_nat n) l.

Definition bury (mx : N) (id : string) (e : Entry) (l : list (string * Entry)) : list (string * Entry) :=
  if (mx =? 0)%N then l
  else newest (mx - 1) (List.filter (fun ke => negb (String.eqb ke.1 id)) l) ++ [(id, e)].

(** The representation invariant. *)
Definition wf (g : Graveyard) : Prop :=
  NoDup (order g) /\ (forall k, k ∈ order g <-> is_Some (entries g !! k)) /\
  (N.of_nat (length (order g)) <= max g)%N.

Inductive step : Graveyard -> Graveyard -> Prop :=
| step_insert id v now g : step g (insert id v now g)
| step_sweep now g : step g (sweep now g).

(** ** Lemmas *)

Lemma evict_newest mx : forall o es, NoDup o ->
  let '(es', o') := evict mx es o in
  o' = newest (mx - 1) o /\
  (forall k, es' !! k = if bool_decide (k ∈ o) then if bool_decide (k ∈ o') then es !! k else None
                       else es !! k).
Proof.
  intros o; induction o as [|x o IH]; intros es Hn.
  - simpl. destruct (_ <=? _)%N; by split.
  - cbn [evict]. destruct (N.leb_spec mx (N.of_nat (length (x :: o)))) as [Hle|Hgt].
    + apply NoDup_cons in Hn as [Hx Hn]. specialize (IH (delete x es) Hn).
      destruct (evict mx (delete x es) o) as [es' o']. destruct IH as [-> IH]. split.
      * unfold newest. cbn [length] in *. destruct (decide (length o < N.to_nat (mx - 1))%nat).
        { exfalso. lia. }
        by replace (S (length o) - N.to_nat (mx - 1))%nat with (S (length o - N.to_nat (mx - 1))) by lia.
      * intros k. rewrite IH. destruct (decide (k = x)) as [->|Hk].
        { rewrite (bool_decide_eq_false_2 (x ∈ o)) by done.
          rewrite (bool_decide_eq_true_2 (x ∈ x :: o)) by (by left).
          rewrite bool_decide_eq_false_2; [by rewrite lookup_delete_eq|].
          intros H. apply Hx. unfold newest in H.
          rewrite <- (take_drop (length o - N.to_nat (mx - 1)) o). apply elem_of_app. by right. }
        { rewrite lookup_delete_ne by done.
          assert (bool_decide (k ∈ x :: o) = bool_decide (k ∈ o)) as ->; [|done].
          apply bool_decide_ext. rewrite elem_of_cons. split; [by intros [?|?]|by right]. }
    + split.
      * unfold newest. by replace (length (x :: o) - N.to_nat (mx - 1))%nat with 0%nat by lia.
      * intros k. by destruct (bool_decide (k ∈ x :: o)).
Qed.

Lemma newest_elem {A} n (l : list A) x : x ∈ newest n l -> x ∈ l.
Proof.
  unfold newest. intros H. rewrite <- (take_drop (length l - N.to_nat n) l).
  apply elem_of_app. by right.
Qed.

Lemma filter_ne_elem id (o : list string) k :
  k ∈ List.filter (fun k => negb (String.eqb k id)) o <-> k ∈ o /\ k <> id.
Proof.
  rewrite !list_elem_of_In, filter_In. rewrite negb_true_iff, String.eqb_neq. done.
Qed.

Lemma filter_ne_id id (o : list string) :
  id ∉ o -> List.filter (fun k => negb (String.eqb k id)) o = o.
Proof.
  induction o as [|x o IH]; [done|]. intros H. apply not_elem_of_cons in H as [H1 H2]. simpl.
  rewrite (proj2 (String.eqb_neq x id)) by congruence. simpl. by rewrite IH.
Qed.

(** The order the insertion leaves and what it keeps. *)
Lemma insert_eq id v now g :
  wf g -> max g <> 0%N ->
  let o := newest (max g - 1) (List.filter (fun k => negb (String.eqb k id)) (order g)) in
  order (insert id v now g) = o ++ [id] /\ max (insert id v now g) = max g /\
  ttl_ms (insert id v now g) = ttl_ms g /\
  forall k, entries (insert id v now g) !! k =
    if String.eqb k id then Some (mkEntry v now)
    else if bool_decide (k ∈ o) then entries g !! k else None.
Proof.
  intros (Hn & Hd & Hl) Hm. unfold insert. rewrite (proj2 (N.eqb_neq _ _) Hm).
  assert (match entries g !! id with
    | Some _ => List.filter (fun k => negb (String.eqb k id)) (order g)
    | None => order g end = List.filter (fun k => negb (String.eqb k id)) (order g)) as ->.
  { destruct (entries g !! id) eqn:E; [done|]. symmetry. apply filter_ne_id.
    rewrite Hd, E. by intros []. }
  set (o1 := List.filter _ (order g)).
  pose proof (evict_newest (max g) o1 (delete id (entries g)) (NoDup_filter_b _ _ Hn)) as He.
  destruct (evict _ _ _) as [es o']. destruct He as [-> He]. simpl. split_and!; [done..|].
  intros k. destruct (String.eqb_spec k id) as [->|Hk]; [by rewrite lookup_insert_eq|].
  rewrite lookup_insert_ne by done. rewrite He. rewrite !lookup_delete_ne by done.
  case_bool_decide as H1; [done|]. rewrite bool_decide_eq_false_2 by (by intros ?%newest_elem).
  apply eq_None_not_Some. rewrite <- Hd. intros H. apply H1. by apply filter_ne_elem.
Qed.

Lemma length_newest_le {A} n (l : list A) : (length (newest n l) <= N.to_nat n)%nat.
Proof. unfold newest. rewrite length_drop. lia. Qed.

Lemma wf_insert id v now g : wf g -> wf (insert id v now g).
Proof.
  intros Hw. destruct (decide (max g = 0%N)) as [Hm|Hm].
  { unfold insert. by rewrite Hm. }
  destruct (insert_eq id v now g Hw Hm) as (Ho & Hmx & _ & He). destruct Hw as (Hn & Hd & Hl).
  set (o := newest _ _) in *.
  assert (NoDup o) as Hno.
  { unfold o, newest. set (l := List.filter _ _). assert (NoDup l) as Hl' by by apply NoDup_filter_b.
    rewrite <- (take_drop (length l - N.to_nat (max g - 1)) l) in Hl'. by apply NoDup_app in Hl' as (_ & _ & ?). }
  assert (id ∉ o) as Hid by (intros H%newest_elem; apply filter_ne_elem in H; tauto).
  unfold wf. rewrite Ho, Hmx. split_and!.
  - apply NoDup_app. split_and!; [done| |apply NoDup_singleton].
    intros x Hx ->%list_elem_of_singleton. done.
  - intros k. rewrite He, elem_of_app, list_elem_of_singleton.
    destruct (String.eqb_spec k id) as [->|Hk]; [split; [by eexists|by right]|].
    case_bool_decide as Hk'.
    + split; [|by left]. intros _. rewrite <- Hd. apply newest_elem, filter_ne_elem in Hk'. tauto.
    + split; [by intros [?|?]|by intros []].
  - rewrite length_app. simpl. pose proof (length_newest_le (max g - 1)
      (List.filter (fun k => negb (String.eqb k id)) (order g))). fold o in H. lia.
Qed.

Lemma wf_sweep now g : wf g -> wf (sweep now g).
Proof.
  intros (Hn & Hd & Hl). unfold wf, sweep. simpl. split_and!.
  - by apply NoDup_filter_b.
  - intros k. rewrite list_elem_of_In, filter_In, <- list_elem_of_In.
    set (es := filter _ (entries g)). destruct (es !! k) as [e|] eqn:E.
    + split; [by eexists|]. intros _. split; [|done]. apply Hd.
      apply map_lookup_filter_Some in E as [E _]. by eexists.
    + split; [by intros []|by intros []].
  - pose proof (List.filter_length_le (fun k => match filter (fun ke : string * Entry =>
      expired (buried_at_ms ke.2) (ttl_ms g) now = false) (entries g) !! k with
      Some _ => true | None => false end) (order g)). lia.
Qed.

(** *** The abstract view of the operations *)

Definition tagged (es : gmap string Entry) (k : string) : option (string * Entry) :=
  (fun e => (k, e)) <$> es !! k.

Lemma tagged_fst es o :
  (forall k, k ∈ o -> is_Some (es !! k)) -> (omap (tagged es) o).*1 = o.
Proof.
  induction o as [|k o IH]; intros H; [done|]. destruct (H k) as [e He]; [by left|].
  csimpl. unfold tagged at 1. rewrite He. csimpl. f_equal. apply IH. intros. apply H. by right.
Qed.

Lemma tagged_drop es o n :
  (forall k, k ∈ o -> is_Some (es !! k)) -> omap (tagged es) (drop n o) = drop n (omap (tagged es) o).
Proof.
  revert n; induction o as [|k o IH]; intros n H; [by destruct n|].
  destruct (H k) as [e He]; [by left|]. destruct n; [done|]. csimpl. unfold tagged at 2.
  rewrite He. simpl. apply IH. intros. apply H. by right.
Qed.

Lemma tagged_length es o :
  (forall k, k ∈ o -> is_Some (es !! k)) -> length (omap (tagged es) o) = length o.
Proof. intros H. rewrite <- (tagged_fst es o H) at 2. by rewrite length_fmap. Qed.

Lemma tagged_filter es p o :
  (forall k, k ∈ o -> is_Some (es !! k)) ->
  omap (tagged es) (List.filter p o) = List.filter (fun ke => p ke.1) (omap (tagged es) o).
Proof.
  induction o as [|k o IH]; intros H; [done|]. destruct (H k) as [e He]; [by left|].
  assert (tagged es k = Some (k, e)) as Ht by (unfold tagged; by rewrite He).
  specialize (IH ltac:(intros; apply H; by right)).
  cbn [List.filter]. csimpl. rewrite Ht. cbn [List.filter]. csimpl.
  destruct (p k); csimpl; rewrite ?Ht, IH; done.
Qed.

Lemma tagged_ext es es' (o : list string) :
  (forall k, k ∈ o -> es !! k = es' !! k) -> omap (tagged es) o = omap (tagged es') o.
Proof.
  induction o as [|k o IH]; intros H; [done|]. 
  assert (tagged es k = tagged es' k) as Hk by (unfold tagged; rewrite (H k); [done|by left]).
  csimpl. rewrite Hk, IH; [done|]. intros. apply H. by right.
Qed.

Lemma burials_insert id v now g :
  wf g -> burials (insert id v now g) = bury (max g) id (mkEntry v now) (burials g).
Proof.
  intros Hw. unfold bury. destruct (N.eqb_spec (max g) 0) as [Hm|Hm].
  { unfold insert. by rewrite Hm. }
  destruct (insert_eq id v now g Hw Hm) as (Ho & _ & _ & He). destruct Hw as (Hn & Hd & Hl).
  change (burials (insert id v now g)) with (omap (tagged (entries (insert id v now g))) (order (insert id v now g))).
  rewrite Ho, omap_app. clear Ho. set (l := List.filter _ (order g)) in *.
  assert (forall k, k ∈ l -> is_Some (entries g !! k)) as Hs
    by (intros k Hk%filter_ne_elem; apply Hd; tauto).
  f_equal.
  - change (burials g) with (omap (tagged (entries g)) (order g)).
    unfold newest. rewrite <- (tagged_filter _ (fun k => negb (String.eqb k id))) by apply Hd.
    fold l. rewrite tagged_length, <- tagged_drop by done. apply tagged_ext. intros k Hk.
    rewrite He, (bool_decide_eq_true_2 _ Hk). apply newest_elem, filter_ne_elem in Hk as [_ Hk].
    by rewrite (proj2 (String.eqb_neq k id) Hk).
  - csimpl. unfold tagged. by rewrite He, String.eqb_refl.
Qed.

Definition live (g : Graveyard) (now : Z) (ke : string * Entry) : bool :=
  negb (expired (buried_at_ms ke.2) (ttl_ms g) now).

Lemma burials_sweep now g : wf g -> burials (sweep now g) = List.filter (live g now) (burials g).
Proof.
  intros (Hn & Hd & Hl). unfold burials, sweep. simpl. set (es := filter _ (entries g)).
  assert (forall k, es !! k = match entries g !! k with
    | Some e => if live g now (k, e) then Some e else None | None => None end) as Hes.
  { intros k. apply option_eq. intros e'. unfold es. rewrite map_lookup_filter_Some. unfold live.
    destruct (entries g !! k) as [e|]; [|split; [by intros []|done]]. simpl.
    destruct (expired (buried_at_ms e) (ttl_ms g) now) eqn:E; simpl.
    - split; [|done]. intros [[= ->] H]. congruence.
    - split; [by intros []|]. by intros [= ->]. }
  clear Hn Hl. assert (forall k, k ∈ order g -> is_Some (entries g !! k)) as H by (intros; by apply Hd).
  clear Hd. induction (order g) as [|k o IH]; [done|]. destruct (H k) as [e He]; [by left|].
  cbn [List.filter]. rewrite Hes, He. csimpl. rewrite He. csimpl.
  destruct (live g now (k, e)) eqn:El; [|apply IH; intros; apply H; by right].
  csimpl. rewrite Hes, He, El. csimpl. f_equal. apply IH. intros; apply H; by right.
Qed.

Lemma burials_elem g id e : wf g -> (id, e) ∈ burials g <-> entries g !! id = Some e.
Proof.
  intros (_ & Hd & _). unfold burials. rewrite list_elem_of_omap. split.
  - intros (k & _ & H). destruct (entries g !! k) eqn:E; simplify_eq/=. done.
  - intros H. exists id. split; [apply Hd; by eexists|]. by rewrite H.
Qed.

Lemma reachable_wf mx ttl g : rtc step (new mx ttl) g -> wf g /\ max g = mx /\ ttl_ms g = ttl.
Proof.
  assert (wf (new mx ttl)) as H0.
  { split_and!; simpl; [constructor| |lia]. intros k. rewrite lookup_empty.
    split; [by intros ?%elem_of_nil|by intros []]. }
  intros H. remember (new mx ttl) as g0 eqn:E0.
  assert (wf g0 /\ max g0 = mx /\ ttl_ms g0 = ttl) as H1 by (by subst).
  clear E0 H0. induction H as [|x y z Hxy Hyz IH]; [done|]. apply IH.
  destruct H1 as (Hw & Hm & Ht). destruct Hxy as [id v now g|now g].
  - split; [by apply wf_insert|]. destruct (decide (max g = 0%N)) as [E|E].
    + unfold insert. by rewrite E.
    + by destruct (insert_eq id v now g Hw E) as (_ & -> & -> & _).
  - split; [by apply wf_sweep|done].
Qed.

Lemma size_order g : wf g -> size (entries g) = length (order g).
Proof.
  intros (Hn & Hd & _). rewrite <- size_dom.
  assert (dom (entries g) = list_to_set (order g)) as ->.
  { apply set_eq. intros k. by rewrite elem_of_dom, elem_of_list_to_set, Hd. }
  by apply size_list_to_set.
Qed.

(** The count bound is never exceeded: in every state reached from an
    empty graveyard by burials and sweeps at any times, at most [max] entries
    are held, and the eviction order lists each held entry exactly once. *)
Theorem graveyard_bounded (mx : N) (ttl : Z) (g : Graveyard) :
  rtc step (new mx ttl) g ->
  (len g <= mx)%N /\ NoDup (order g) /\ (forall k, k ∈ order g <-> is_Some (entries g !! k)).
Proof.
  intros (Hw & <- & _)%reachable_wf. unfold len. rewrite size_order by done.
  destruct Hw as (Hn & Hd & Hl). by split_and!.
Qed.

(** The graveyard refines a list of burials, oldest first: a burial drops
    the previous one of the same id and then the oldest ones beyond the bound;
    a sweep drops exactly the expired ones; a read finds exactly the unexpired
    burial of the id, and iteration the unexpired ones in order. *)
Theorem graveyard_refines (mx : N) (ttl : Z) (g : Graveyard) :
  rtc step (new mx ttl) g ->
  (forall id v now, burials (insert id v now g) = bury mx id (mkEntry v now) (burials g)) /\
  (forall now, burials (sweep now g) = List.filter (live g now) (burials g)) /\
  (forall id now v, get g id now = Some v <->
     exists e, (id, e) ∈ burials g /\ live g now (id, e) = true /\ value e = v) /\
  (forall now, iter g now = (fun ke => (ke.1, value ke.2)) <$> List.filter (live g now) (burials g)).
Proof.
  intros (Hw & <- & _)%reachable_wf. split_and!.
  - intros. by apply burials_insert.
  - intros. by apply burials_sweep.
  - intros id now v. unfold get, is_expired, live. setoid_rewrite (burials_elem g id _ Hw). simpl.
    destruct (entries g !! id) as [e|]; simpl; [|split; [done|by intros (? & ? & _)]].
    destruct (expired _ _ _) eqn:E.
    + split; [done|]. intros (e' & [= <-] & H & _). simpl in H. by rewrite E in H.
    + split; [intros [= <-]; exists e; by rewrite E|]. by intros (e' & [= <-] & _ & <-).
  - intros now. unfold iter, burials, is_expired, live. clear Hw.
    induction (order g) as [|k o IH]; [done|]. csimpl. rewrite IH.
    destruct (entries g !! k) as [e|]; csimpl; [|done]. by destruct (expired _ _ _).
Qed.
End Graveyard.

Definition pen : Graveyard (T := nat) :=
  sweep 30 (insert "c" 3%nat 20 (insert "a" 2%nat 10 (insert "b" 1%nat 0 (new 2 25)))).

Lemma pen_reachable : rtc step (new 2 25) pen.
Proof.
  eapply rtc_l; [apply (step_insert "b" 1%nat 0)|].
  eapply rtc_l; [apply (step_insert "a" 2%nat 10)|].
  eapply rtc_l; [apply (step_insert "c" 3%nat 20)|].
  eapply rtc_l; [apply (step_sweep 30)|]. apply rtc_refl.
Qed.

Lemma graveyard_bounded_witness : (len pen <= 2)%N /\ len pen = 2%N.
Proof. split; [exact (proj1 (graveyard_bounded 2 25 pen pen_reachable))|by vm_compute]. Defined.

Lemma graveyard_refines_witness :
  burials (insert "d" 4%nat 31 pen) = bury 2 "d" (mkEntry 4%nat 31) (burials pen) /\
  iter pen 30 = [("a", 2%nat); ("c", 3%nat)].
Proof. split; [exact (proj1 (graveyard_refines 2 25 pen pen_reachable) "d" 4%nat 31)|by vm_compute]. Defined.
