(* ===== verification/Activity.v ===== *)
(** * The activity state machine

    thegn-core/src/activity_step.rs (the per-worktree transition),
    session_activity.rs (the pane daemon's per-session observer of it) and the
    clamped accessors of config_activity.rs.  Times are [f64] seconds
    ([RustFloat]); the state is the string the code stores. *)
From Stdlib Require Import Ascii String SpecFloat.
From S2P Require Import Prelude RustFloat RustStr.
Local Open Scope string_scope.

(** ** Configuration *)

Record ActivityConfig := mkActivityConfig {
  enabled : bool;
  cpu_percent : f64;
  runaway_core_fraction : f64;
  runaway_secs : f64;
  quiet_grace_secs : f64;
  resume_grace_secs : f64;
  spawn_grace_secs : f64;
  unsolicited_gap_secs : f64;
  output_hint_ttl_secs : f64;
  red_requires_agent : bool;
  agent_programs : list string;
}.

Definition config_default : ActivityConfig :=
  mkActivityConfig true (F64.lit 3 1) (F64.lit 9 10) (F64.lit 3600 1) (F64.lit 8 1) (F64.lit 3 1) (F64.lit 5 1) (F64.lit 1 1)
    (F64.lit 6 1) true
    ["claude"; "codex"; "aider"; "gemini"; "opencode"; "cursor-agent"; "amp"; "crush"; "goose"].

Definition MIN_SECS : f64 := F64.lit 1 10.

Definition active_jiffies_per_sec (c : ActivityConfig) : f64 :=
  fclamp (cpu_percent c) (F64.lit 1 10) (F64.lit 100 1).
Definition quiet_grace (c : ActivityConfig) : f64 := fmax (quiet_grace_secs c) MIN_SECS.
Definition resume_grace (c : ActivityConfig) : f64 := fmax (resume_grace_secs c) MIN_SECS.
Definition spawn_grace (c : ActivityConfig) : f64 := fmax (spawn_grace_secs c) F64.zero.
Definition unsolicited_gap (c : ActivityConfig) : f64 := fmax (unsolicited_gap_secs c) F64.zero.
Definition output_hint_ttl (c : ActivityConfig) : f64 := fmax (output_hint_ttl_secs c) MIN_SECS.

Definition is_agent_program (c : ActivityConfig) (program : string) : bool :=
  negb (is_empty program) && existsb (fun a => eq_ignore_case a program) (agent_programs c).

(** ** The transition *)

Definition FUTURE_SLACK_SECS : f64 := F64.lit 1 1.

Inductive Agentness := Unknown | Present | Absent.

Global Instance Agentness_eq_dec : EqDecision Agentness.
Proof. solve_decision. Defined.

Definition Agentness_from_map (m : gmap string bool) (worktree : string) : Agentness :=
  match m !! worktree with
  | Some true => Present
  | Some false => Absent
  | None => Unknown
  end.

Record Signals := mkSignals { busy : bool; agent : Agentness }.

Record Marks := mkMarks {
  state : string;
  quiet_since : option f64;
  busy_since : option f64;
  last_active_at : option f64;
}.

(** A half-open range test: [(lo..hi).contains(&x)]. *)
Definition range_contains (lo hi x : f64) : bool := SFleb lo x && SFltb x hi.

Definition output_is_fresh (stamp now wall : f64) (cfg : ActivityConfig) : bool :=
  let window := fmax wall (output_hint_ttl cfg) in
  let age := F64.sub now stamp in
  range_contains (SFopp FUTURE_SLACK_SECS) (F64.add window FUTURE_SLACK_SECS) age.

Definition settled (m : Marks) : Marks := mkMarks "none" None None (last_active_at m).

(** [Option::get_or_insert]. *)
Definition get_or_insert (o : option f64) (v : f64) : f64 := default v o.

Definition step (m : Marks) (sig : Signals) (cfg : ActivityConfig) (now : f64) : Marks :=
  let m := if busy sig
           then mkMarks (state m) None (Some (get_or_insert (busy_since m) now)) (last_active_at m)
           else mkMarks (state m) (quiet_since m) None (last_active_at m) in
  let no_agent := red_requires_agent cfg && bool_decide (agent sig = Absent) in
  if String.eqb (state m) "waiting" || String.eqb (state m) "read" then
    if no_agent && negb (busy sig) then settled m
    else if busy sig && SFleb (resume_grace cfg) (F64.sub now (default now (busy_since m)))
    then mkMarks "active" None (busy_since m) (Some now)
    else m
  else if String.eqb (state m) "active" then
    if busy sig then mkMarks (state m) (quiet_since m) (busy_since m) (Some now)
    else
      let since := get_or_insert (quiet_since m) now in
      let m := mkMarks (state m) (Some since) (busy_since m) (last_active_at m) in
      if SFleb (quiet_grace cfg) (F64.sub now since) then
        if no_agent then settled m
        else mkMarks "waiting" (quiet_since m) (busy_since m) (last_active_at m)
      else m
  else if busy sig then mkMarks "active" None (busy_since m) (Some now)
  else m.

(** ** Sessions *)

Definition MIN_TICK_SECS : f64 := F64.lit 1 20.

Inductive ActivityKind := KNone | KActive | KLoading | KWaiting | KRead.

Definition unsolicited_age (out_age in_age age_since_start : option f64) (cfg : ActivityConfig)
  : option f64 :=
  match out_age with
  | None => None
  | Some out =>
      if match age_since_start with None => true | Some a => SFltb a (spawn_grace cfg) end then None
      else if match in_age with
              | Some inp => SFleb (F64.sub inp out) (unsolicited_gap cfg)
              | None => false
              end
      then None else Some out
  end.

Record Observation := mkObservation { o_now : f64; o_agent : Agentness; cpu_busy : bool }.

Record SessionActivity := mkSessionActivity {
  marks : Marks;
  started_at : f64;
  last_output_at : option f64;
  last_input_at : option f64;
  ever_busy : bool;
}.

Definition session_new (started : f64) : SessionActivity :=
  mkSessionActivity (mkMarks "none" None None None) started None None false.

Definition note_output (s : SessionActivity) (t : f64) : SessionActivity :=
  mkSessionActivity (marks s) (started_at s) (Some t) (last_input_at s) (ever_busy s).
Definition note_input (s : SessionActivity) (t : f64) : SessionActivity :=
  mkSessionActivity (marks s) (started_at s) (last_output_at s) (Some t) (ever_busy s).
Definition note_solicited (s : SessionActivity) (t : f64) : SessionActivity := note_input s t.

Definition output_busy (s : SessionActivity) (now : f64) (cfg : ActivityConfig) : bool :=
  match last_output_at s with
  | None => false
  | Some stamp =>
      let unsolicited := unsolicited_age (Some (F64.sub now stamp))
        (F64.sub now <$> last_input_at s) (Some (F64.sub now (started_at s))) cfg in
      match unsolicited with
      | Some _ => output_is_fresh stamp now F64.zero cfg
      | None => false
      end
  end.

Definition kind (s : SessionActivity) : ActivityKind :=
  let st := state (marks s) in
  if String.eqb st "active" then KActive
  else if String.eqb st "waiting" then KWaiting
  else if String.eqb st "read" then KRead
  else KNone.

Definition observe (s : SessionActivity) (obs : Observation) (cfg : ActivityConfig)
  : ActivityKind * SessionActivity :=
  let b := cpu_busy obs || output_busy s (o_now obs) cfg in
  let s' := mkSessionActivity (step (marks s) (mkSignals b (o_agent obs)) cfg (o_now obs))
              (started_at s) (last_output_at s) (last_input_at s) (ever_busy s || b) in
  (kind s', s').

Definition state_since (s : SessionActivity) : option f64 :=
  match quiet_since (marks s) with Some t => Some t | None => last_active_at (marks s) end.

Definition mark_read (s : SessionActivity) : SessionActivity :=
  if String.eqb (state (marks s)) "waiting"
  then mkSessionActivity
         (mkMarks "read" (quiet_since (marks s)) (busy_since (marks s)) (last_active_at (marks s)))
         (started_at s) (last_output_at s) (last_input_at s) (ever_busy s)
  else s.

(** [consider] keeps the earliest deadline. *)
Definition consider (deadline : option f64) (t : f64) : option f64 :=
  Some (match deadline with Some d => fmin d t | None => t end).

Definition next_tick (s : SessionActivity) (cfg : ActivityConfig) (now : f64) : option f64 :=
  let m := marks s in
  let d := match last_output_at s with
           | Some stamp =>
               if output_busy s now cfg
               then consider None (F64.add (F64.add stamp (output_hint_ttl cfg)) FUTURE_SLACK_SECS)
               else None
           | None => None
           end in
  let d := match quiet_since m with
           | Some quiet => if String.eqb (state m) "active"
                           then consider d (F64.add quiet (quiet_grace cfg)) else d
           | None => d
           end in
  let d := match busy_since m with
           | Some b => if String.eqb (state m) "waiting" || String.eqb (state m) "read"
                       then consider d (F64.add b (resume_grace cfg)) else d
           | None => d
           end in
  (fun t => fmax (F64.sub t now) MIN_TICK_SECS) <$> d.
