(* ===== verification/ActivityProps.v ===== *)
(** * Theorems about the activity state machine

    When a dot turns red, that a worktree without an agent never shows one, and
    the idle contract of the session observer's timer. *)
From Stdlib Require Import Ascii String SpecFloat.
From S2P Require Import Prelude RustFloat RustStr Activity.
Local Open Scope string_scope.
Local Open Scope list_scope.

(** ** Graces are positive *)

Lemma fmax_ge a b : is_nan b = false -> SFltb (fmax a b) b = false.
Proof.
  unfold fmax. intros Hb. destruct (is_nan a) eqn:Ha; [apply SFltb_irrefl|].
  rewrite Hb. destruct (SFltb a b) eqn:E; [apply SFltb_irrefl|done].
Qed.

(** A grace clamped to [MIN_SECS] is above zero, whatever was configured. *)
Lemma grace_positive x : SFleb (fmax x MIN_SECS) (S754_zero false) = false.
Proof.
  pose proof (fmax_ge x MIN_SECS eq_refl) as H. pose proof (fmax_not_nan x MIN_SECS eq_refl) as Hn.
  destruct (fmax x MIN_SECS) as [[]|[]| |[] m e]; try done.
Qed.

(** No time has passed since now: the grace cannot have elapsed. *)
Lemma grace_not_elapsed x now : SFleb (fmax x MIN_SECS) (F64.sub now now) = false.
Proof.
  unfold F64.sub. destruct (is_finite now) eqn:E.
  - rewrite SFsub_diag by done. apply grace_positive.
  - pose proof (fmax_not_nan x MIN_SECS eq_refl) as Hn.
    destruct now as [|[]| |]; try done; by destruct (fmax x MIN_SECS) as [[]|[]| |[] ? ?].
Qed.

(** ** Runs of observations *)

Definition observation : Type := Signals * f64.

Definition run (cfg : ActivityConfig) (m : Marks) (obs : list observation) : Marks :=
  foldl (fun m o => step m (fst o) cfg (snd o)) m obs.

Lemma run_marks_snoc cfg m obs o : run cfg m (obs ++ [o]) = step (run cfg m obs) (fst o) cfg (snd o).
Proof. unfold run. by rewrite foldl_app. Qed.

Definition fresh : Marks := mkMarks "none" None None None.

(** The quiet streak the marks record is the unbroken run of non-busy
    observations that ends at the present. *)
Definition streak (obs : list observation) (t : f64) : Prop :=
  exists pre sig mid, obs = pre ++ (sig, t) :: mid /\ busy sig = false /\
    Forall (fun o => busy (fst o) = false) mid.

Lemma streak_snoc obs t o : streak obs t -> busy (fst o) = false -> streak (obs ++ [o]) t.
Proof.
  intros (pre & sig & mid & -> & Hs & Hm) Ho. exists pre, sig, (mid ++ [o]).
  rewrite <- app_assoc. split; [done|]. split; [done|]. apply Forall_app. by repeat constructor.
Qed.

Lemma streak_start obs sig t : busy sig = false -> streak (obs ++ [(sig, t)]) t.
Proof. intros H. exists obs, sig, []. by repeat constructor. Qed.

(** What a step does to a state other than red. *)
Lemma step_active_quiet m sig cfg now :
  state m = "active" -> busy sig = false ->
  let since := default now (quiet_since m) in
  step m sig cfg now =
    if SFleb (quiet_grace cfg) (F64.sub now since) then
      if red_requires_agent cfg && bool_decide (agent sig = Absent)
      then mkMarks "none" None None (last_active_at m)
      else mkMarks "waiting" (Some since) None (last_active_at m)
    else mkMarks "active" (Some since) None (last_active_at m).
Proof. intros Hs Hb. unfold step. rewrite Hb. cbn [state]. rewrite Hs. done. Qed.

Lemma streak_invariant cfg obs t :
  state (run cfg fresh obs) = "active" -> quiet_since (run cfg fresh obs) = Some t -> streak obs t.
Proof.
  revert t; induction obs as [|o obs IH] using rev_ind; intros t; [done|]. rewrite run_marks_snoc.
  destruct o as [sig now]. cbn [fst snd]. set (m := run cfg fresh obs) in *.
  destruct (busy sig) eqn:Hb.
  { unfold step. rewrite Hb. cbn [state quiet_since busy_since].
    destruct (String.eqb (state m) "waiting" || String.eqb (state m) "read").
    - rewrite andb_false_r. cbn [andb]. destruct (SFleb _ _); done.
    - destruct (String.eqb (state m) "active"); done. }
  destruct (decide (state m = "active")) as [Hs|Hs].
  - rewrite (step_active_quiet m sig cfg now Hs Hb). destruct (SFleb _ _).
    { destruct (_ && _); done. }
    intros _ [= <-]. destruct (quiet_since m) as [q|] eqn:Hq; cbn [default from_option id].
    + apply streak_snoc; [by apply IH|done].
    + by apply streak_start.
  - unfold step. rewrite Hb. cbn [state quiet_since busy_since andb].
    destruct (String.eqb (state m) "waiting" || String.eqb (state m) "read").
    + destruct (_ && _); [done|]. cbn [state]. done.
    + rewrite (proj2 (String.eqb_neq _ _) Hs). done.
Qed.

(** Red is confirmed: from a fresh start, whatever the configuration, a
    worktree is turned red only by a non-busy observation that closes an
    unbroken quiet streak opened by an earlier observation at least the quiet
    grace before; one quiet observation never does it, however late it comes. *)
Theorem red_is_confirmed (cfg : ActivityConfig) (obs : list observation) (sig : Signals) (now : f64) :
  state (run cfg fresh obs) <> "waiting" ->
  state (run cfg fresh (obs ++ [(sig, now)])) = "waiting" ->
  busy sig = false /\ state (run cfg fresh obs) = "active" /\
  exists t, streak obs t /\ SFleb (quiet_grace cfg) (F64.sub now t) = true.
Proof.
  rewrite run_marks_snoc. cbn [fst snd]. set (m := run cfg fresh obs). intros Hw.
  assert (state m = "active" -> forall t, quiet_since m = Some t -> streak obs t) as Hinv
    by (intros Ha t Ht; by apply (streak_invariant cfg)).
  destruct (decide (state m = "active" /\ busy sig = false)) as [[Ha Hb]|Hn].
  - rewrite (step_active_quiet m sig cfg now Ha Hb). destruct (SFleb _ _) eqn:E; [|done].
    intros _. split; [done|]. split; [done|]. destruct (quiet_since m) as [t|] eqn:Hq.
    + exists t. split; [by apply Hinv|exact E].
    + cbn [default from_option id] in E. unfold quiet_grace in E. by rewrite grace_not_elapsed in E.
  - unfold step. cbn [state]. destruct (busy sig) eqn:Hb; cbn [state quiet_since busy_since].
    + rewrite andb_false_r. cbn [andb].
      destruct (String.eqb (state m) "waiting" || String.eqb (state m) "read").
      * destruct (SFleb _ _); [done|]. done.
      * destruct (String.eqb_spec (state m) "active"); simpl; congruence.
    + cbn [andb]. destruct (String.eqb (state m) "waiting" || String.eqb (state m) "read").
      * destruct (_ && _); done.
      * destruct (String.eqb_spec (state m) "active"); [tauto|]. done.
Qed.

Definition quiet_run : list observation :=
  [(mkSignals true Present, F64.lit 1000 1); (mkSignals false Present, F64.lit 1001 1);
   (mkSignals false Present, F64.lit 1005 1)].

Lemma red_is_confirmed_witness :
  exists t, streak quiet_run t /\ SFleb (quiet_grace config_default) (F64.sub (F64.lit 1009 1) t) = true.
Proof.
  apply (red_is_confirmed config_default quiet_run (mkSignals false Present) (F64.lit 1009 1)).
  - by vm_compute.
  - by vm_compute.
Defined.

(** ** Worktrees without an agent *)

Definition red (m : Marks) : Prop := state m = "waiting" \/ state m = "read".

Lemma step_absent m sig cfg now :
  red_requires_agent cfg = true -> agent sig = Absent ->
  red (step m sig cfg now) -> red m /\ busy sig = true.
Proof.
  intros Hr Ha. unfold step, red. rewrite Hr, Ha. cbn [state].
  destruct (busy sig) eqn:Hb; cbn [state quiet_since busy_since andb negb].
  - intros H. split; [|done].
    destruct (String.eqb_spec (state m) "waiting"); [by left|].
    destruct (String.eqb_spec (state m) "read"); [by right|]. cbn [orb] in H.
    destruct (String.eqb_spec (state m) "active") as [E|E]; simpl in H; [rewrite E in H|]; by destruct H.
  - rewrite bool_decide_eq_true_2 by done. cbn [andb].
    destruct (String.eqb_spec (state m) "waiting"); [by intros [|]|].
    destruct (String.eqb_spec (state m) "read"); [by intros [|]|]. cbn [orb].
    destruct (String.eqb_spec (state m) "active") as [E|E].
    + destruct (SFleb _ _); simpl; [by intros [|]|]. rewrite E. by intros [|].
    + simpl. by intros [|].
Qed.

(** A worktree known to have no agent never turns red, however it is
    observed, when red requires an agent; and a red dot it inherited is
    cleared by its first quiet observation. *)
Theorem absent_never_red (cfg : ActivityConfig) (m : Marks) (obs : list observation) :
  red_requires_agent cfg = true ->
  Forall (fun o => agent (fst o) = Absent) obs ->
  red (run cfg m obs) -> red m /\ Forall (fun o => busy (fst o) = true) obs.
Proof.
  intros Hr. induction obs as [|o obs IH] using rev_ind; intros Ha; [done|].
  apply Forall_app in Ha as [Ha Ho]. rewrite Forall_singleton in Ho. rewrite run_marks_snoc.
  intros H. apply step_absent in H as [H Hb]; [|done..]. apply IH in H as [? ?]; [|done].
  split; [done|]. apply Forall_app. by repeat constructor.
Qed.

Lemma absent_never_red_witness :
  ~ red (run config_default (mkMarks "read" None None None) [(mkSignals false Absent, F64.lit 7 1)]).
Proof.
  intros H. apply absent_never_red in H as [_ H]; [|done|by repeat constructor].
  by rewrite Forall_singleton in H.
Defined.

(** ** The session's timer *)

Lemma session_active_quiet s obs cfg :
  cpu_busy obs = false ->
  let s' := snd (observe s obs cfg) in
  output_busy s' (o_now obs) cfg = output_busy s (o_now obs) cfg /\
  (output_busy s (o_now obs) cfg = false ->
    busy_since (marks s') = None /\
    (state (marks s') = "active" -> is_Some (quiet_since (marks s')))).
Proof.
  intros Hc. unfold observe. rewrite Hc. cbn [orb snd marks]. split; [done|].
  intros Hb. rewrite Hb. unfold step. cbn [busy state].
  destruct (String.eqb (state (marks s)) "waiting" || String.eqb (state (marks s)) "read") eqn:Er.
  - destruct (_ && _); simpl; [done|]. split; [done|]. intros E. by rewrite E in Er.
  - destruct (String.eqb_spec (state (marks s)) "active") as [Ea|Ea].
    + destruct (SFleb _ _); [destruct (_ && _)|]; simpl; split; try done; by eexists.
    + simpl. done.
Qed.

(** The idle contract: right after an observation, the session arms no
    timer exactly when it is settled, that is neither working nor receiving
    fresh output; and a timer it does arm is at least the minimum tick away,
    so the daemon never spins. *)
Theorem timer_iff_unsettled (s : SessionActivity) (obs : Observation) (cfg : ActivityConfig) :
  cpu_busy obs = false ->
  let s' := snd (observe s obs cfg) in
  (next_tick s' cfg (o_now obs) = None <->
    kind s' <> KActive /\ output_busy s (o_now obs) cfg = false) /\
  forall t, next_tick s' cfg (o_now obs) = Some t ->
    is_nan t = false /\ SFltb t MIN_TICK_SECS = false.
Proof.
  intros Hc. destruct (session_active_quiet s obs cfg Hc) as [Ho Hq]. cbn zeta in *.
  set (s' := snd (observe s obs cfg)) in *.
  assert (last_output_at s' = last_output_at s) as Hlast by done. split.
  - unfold next_tick, kind. rewrite Ho, fmap_None. destruct (output_busy s (o_now obs) cfg) eqn:Eb.
    + split; [|by intros []]. intros H. exfalso. clear Hq.
      rewrite Hlast in H. unfold output_busy in Eb. destruct (last_output_at s); [|done].
      destruct (quiet_since (marks s')), (busy_since (marks s'));
        repeat destruct (String.eqb _ _); done.
    + destruct (Hq eq_refl) as [-> Ha]. clear Hq.
      destruct (String.eqb_spec (state (marks s')) "active") as [E|E].
      * destruct (Ha E) as [q ->]. split; [by destruct (last_output_at s')|by intros []].
      * split; [|by destruct (last_output_at s'), (quiet_since (marks s'))].
        intros _. split; [|done]. by repeat destruct (String.eqb _ _).
  - intros t. unfold next_tick. intros (d & _ & ->)%fmap_Some_1.
    split; [by apply fmax_not_nan|by apply fmax_ge].
Qed.

Lemma timer_iff_unsettled_witness :
  next_tick (snd (observe (note_output (session_new F64.zero) (F64.lit 10 1))
    (mkObservation (F64.lit 11 1) Present false) config_default)) config_default (F64.lit 11 1) <> None.
Proof.
  intros H.
  apply (timer_iff_unsettled (note_output (session_new F64.zero) (F64.lit 10 1))
    (mkObservation (F64.lit 11 1) Present false) config_default eq_refl) in H as [_ H].
  vm_compute in H. discriminate H.
Defined.

(** Output seen during the spawn grace counts again once the grace is over, so
    a session that armed no timer can still become active with no new byte. *)
Lemma spawn_grace_reopens :
  let s := note_output (session_new F64.zero) (F64.lit 1 2) in
  let s1 := snd (observe s (mkObservation (F64.lit 3 1) Present false) config_default) in
  next_tick s1 config_default (F64.lit 3 1) = None /\ kind s1 = KNone /\
  fst (observe s1 (mkObservation (F64.lit 6 1) Present false) config_default) = KActive.
Proof. by vm_compute. Qed.
