(* ===== verification/Attention.v ===== *)
(** * Attention

    thegn-core/src/attention.rs: which worktree needs the user next.  Every signal
    about a worktree is a candidate with a tier and a rank within it; [score]
    keeps the most urgent.  [stable_order] keeps the rows still while nothing
    material changed, and [next_attention] walks them in turn. *)
From Stdlib Require Import Ascii String.
From S2P Require Import Prelude RustOrd RustStr Activity.
Local Open Scope string_scope.
Local Open Scope list_scope.

(** ** Tiers and reasons *)

Inductive AttentionTier := TBlocked | TFailure | TWaiting | TReady | TWorking | TIdle.

Global Instance AttentionTier_eq_dec : EqDecision AttentionTier.
Proof. solve_decision. Defined.

(** [tier as u8], the derived order of the enum. *)
Definition tier_rank (t : AttentionTier) : N :=
  match t with TBlocked => 0 | TFailure => 1 | TWaiting => 2 | TReady => 3 | TWorking => 4 | TIdle => 5 end.

Inductive AttentionReason :=
| RAgentNeedsInput | RQueueNeedsHuman
| RAgentFailed | RTestsFailed | RProcessFailed | RLogError | RCiFailed | RPrConflict | RChangesRequested
| RGateFailed | RGateError | RAgentBlocked | RDeferred
| RAgentWaiting | RAgentDone | RStillStuck
| RReadyToLand | RQueueReady
| RAgentWorking | RBuilding | RCiRunning | RIntegrating
| RIdle.

Global Instance AttentionReason_eq_dec : EqDecision AttentionReason.
Proof. solve_decision. Defined.

Definition FAILURE_ATTENTION_TTL_SECS : Z := 7 * 24 * 3600.
Definition IDENTITYLESS_ACK_TTL_SECS : Z := 7 * 24 * 3600.

Definition note_is_stale (kind : string) (at_ now ttl : Z) : bool :=
  (0 <=? ttl)%Z && (ttl <? i64_sat_sub now at_)%Z &&
  existsb (String.eqb kind) ["process_failed"; "agent_failed"; "test_failed"].

(** ** Episodes *)

(** One round of FNV-1a: [h ^= b; h = h.wrapping_mul(prime)]. *)
Definition fnv_step (h : N) (b : ascii) : N := ((N.lxor h (N_of_ascii b) * 1099511628211) mod 18446744073709551616)%N.

Fixpoint fnv (h : N) (s : string) : N :=
  match s with EmptyString => h | String b s => fnv (fnv_step h b) s end.

Definition episode_of (s : string) : N :=
  if is_empty s then 0
  else let h := fnv 14695981039346656037 s in if (h =? 0)%N then 1 else h.

(** ** Scores and acknowledgements *)

Record AttentionScore := mkScore {
  tier : AttentionTier;
  sub : N;
  reason : AttentionReason;
  since : option Z;
  episode : N;
}.

Definition AttentionScore_default : AttentionScore := mkScore TIdle 255 RIdle None 0.

Record AttentionAck := mkAck { ack_reason : AttentionReason; ack_since : option Z; ack_episode : N }.

Definition ack_expired (ack : AttentionAck) (acked_at now : Z) : bool :=
  (ack_episode ack =? 0)%N && bool_decide (ack_since ack = None) && (0 <? acked_at)%Z &&
  (IDENTITYLESS_ACK_TTL_SECS <? i64_sat_sub now acked_at)%Z.

Definition needs_user (s : AttentionScore) : bool := (tier_rank (tier s) <=? tier_rank TWaiting)%N.

Definition is_acked_by (s : AttentionScore) (ack : AttentionAck) : bool :=
  bool_decide (reason s = ack_reason ack) && bool_decide (since s = ack_since ack) && (episode s =? ack_episode ack)%N.

(** The order of [sort_key]: tier, rank, longest waiting first. *)
Definition sort_key_cmp : AttentionScore -> AttentionScore -> comparison :=
  lex (on (fun s => tier_rank (tier s)) N.compare)
    (lex (on sub N.compare) (on (fun s => default i64_max (since s)) Z.compare)).

(** ** Agents *)

Inductive PaneAgentState := PBlocked | PWorking | PDone | PIdle.

Definition pane_agent_state (activity : ActivityKind) (t : AttentionTier) (has_agent : bool) : PaneAgentState :=
  if negb has_agent then PIdle
  else if bool_decide (t = TBlocked) then PBlocked
  else match activity with
       | KActive | KLoading => PWorking
       | KWaiting => PDone
       | KNone | KRead => PIdle
       end.

(** ** Inputs *)

Inductive NotificationKind :=
| NAssigned | NMentioned | NStatusChanged | NBlockerResolved | NPrLinked | NOverdue
| NPrStateChanged | NAgentDone | NAgentFailed | NAgentAttention | NTestFailed | NWorktreeCreated | NLogError
| NProcessExited | NProcessFailed | NQueueLanded | NQueueReady | NQueueNeedsHuman | NQueueHeld
| NPrQueueMerged | NPrQueueReady | NPrQueueNeedsHuman | NPrReviewTaskQueued | NPrReviewThreadResolved
| NCalendarReminder | NCalendarChanged | NUpstreamBehind | NResourceAlert | NUsageLimit
| NAutomation | NAutomationFailed.

Record UnreadNote := mkUnreadNote { u_kind : NotificationKind; u_at : Z }.

Record PrStatus := mkPrStatus {
  pr_state : string;
  pr_is_draft : bool;
  pr_mergeable : string;
  pr_review_decision : option string;
  pr_failed : N;
  pr_pending : N;
  pr_total : N;
  pr_head_ref_oid : string;
}.

Record PrFacts := mkPrFacts {
  is_draft : bool;
  conflicting : bool;
  mergeable : bool;
  changes_requested : bool;
  approved : bool;
  checks_failed : N;
  checks_pending : N;
  checks_total : N;
  pr_episode : N;
}.

Definition from_status (pr : PrStatus) : option PrFacts :=
  if negb (eq_ignore_case (pr_state pr) "open") then None
  else
    let decision := default "" (pr_review_decision pr) in
    Some (mkPrFacts (pr_is_draft pr) (eq_ignore_case (pr_mergeable pr) "conflicting")
      (eq_ignore_case (pr_mergeable pr) "mergeable") (eq_ignore_case decision "changes_requested")
      (eq_ignore_case decision "approved") (pr_failed pr) (pr_pending pr) (pr_total pr)
      (episode_of (pr_head_ref_oid pr))).

Definition checks_green (p : PrFacts) : bool :=
  (0 <? checks_total p)%N && (checks_failed p =? 0)%N && (checks_pending p =? 0)%N.

Inductive MqStatus :=
| MqQueued | MqFolding | MqVerifying | MqLanded | MqReady | MqDeferred | MqGateFailed | MqGateError
| MqAgentBlocked | MqAgentRunning | MqNeedsHuman.

Global Instance MqStatus_eq_dec : EqDecision MqStatus.
Proof. solve_decision. Defined.

Definition MqStatus_ALL : list MqStatus :=
  [MqQueued; MqFolding; MqVerifying; MqLanded; MqReady; MqDeferred; MqGateFailed; MqGateError; MqAgentRunning;
   MqNeedsHuman; MqAgentBlocked].

Definition mq_as_str (s : MqStatus) : string :=
  match s with
  | MqQueued => "queued"
  | MqFolding => "folding"
  | MqVerifying => "verifying"
  | MqLanded => "landed"
  | MqReady => "ready"
  | MqDeferred => "deferred"
  | MqGateFailed => "gate_failed"
  | MqGateError => "gate_error"
  | MqAgentRunning => "agent_running"
  | MqNeedsHuman => "needs_human"
  | MqAgentBlocked => "agent_blocked"
  end.

Definition mq_parse (s : string) : option MqStatus :=
  if String.eqb s "queued" then Some MqQueued
  else if String.eqb s "folding" then Some MqFolding
  else if String.eqb s "verifying" then Some MqVerifying
  else if String.eqb s "landed" then Some MqLanded
  else if String.eqb s "ready" then Some MqReady
  else if String.eqb s "deferred" then Some MqDeferred
  else if String.eqb s "gate_failed" then Some MqGateFailed
  else if String.eqb s "gate_error" then Some MqGateError
  else if String.eqb s "agent_blocked" then Some MqAgentBlocked
  else if String.eqb s "agent_running" then Some MqAgentRunning
  else if String.eqb s "needs_human" then Some MqNeedsHuman
  else None.

Definition is_held (s : MqStatus) : bool :=
  match s with MqDeferred | MqGateFailed | MqGateError | MqAgentBlocked | MqNeedsHuman => true | _ => false end.

Definition is_infrastructure (s : MqStatus) : bool :=
  match s with MqGateError | MqAgentBlocked => true | _ => false end.

Inductive MqOperation := OpRetry | OpRemove | OpClear.
Inductive MqTransition := Requeue | Delete | Refuse.

Definition mq_transition (op : MqOperation) (s : MqStatus) (claimed : bool) : MqTransition :=
  if claimed then Refuse
  else
    match op, s with
    | OpRetry, (MqDeferred | MqGateFailed | MqGateError | MqAgentBlocked | MqNeedsHuman) => Requeue
    | OpRetry, _ => Refuse
    | (OpRemove | OpClear), _ => Delete
    end.

Record MqFacts := mkMqFacts { mq_status : MqStatus; mq_updated_at : Z }.

Record AttentionInputs := mkInputs {
  activity : ActivityKind;
  activity_since : option Z;
  unread : list UnreadNote;
  pr : option PrFacts;
  ci_failing : bool;
  ci_running : bool;
  ci_episode : N;
  ci_since : option Z;
  merge_queue : option MqFacts;
  dirty : bool;
  has_agent : bool;
  stage_blocked_since : option Z;
  attention_signal_since : option Z;
  agent_error_active : bool;
}.

(** ** Scoring *)

Definition more_urgent (a b : AttentionScore) : bool :=
  (tier_rank (tier a) <? tier_rank (tier b))%N ||
  (tier_rank (tier a) =? tier_rank (tier b))%N && (sub a <? sub b)%N.

(** The closure [consider]. *)
Definition consider_score (best : option AttentionScore) (cand : AttentionScore) : option AttentionScore :=
  match best with
  | None => Some cand
  | Some b => if more_urgent cand b then Some cand else best
  end.

Definition consider_if (c : bool) (best : option AttentionScore) (cand : AttentionScore) : option AttentionScore :=
  if c then consider_score best cand else best.

Definition consider_note (best : option AttentionScore) (n : UnreadNote) : option AttentionScore :=
  let at_ := Some (u_at n) in
  match u_kind n with
  | NAgentAttention => consider_score best (mkScore TBlocked 0 RAgentNeedsInput at_ 0)
  | NAgentFailed => consider_score best (mkScore TFailure 0 RAgentFailed at_ 0)
  | NTestFailed => consider_score best (mkScore TFailure 1 RTestsFailed at_ 0)
  | NProcessFailed => consider_score best (mkScore TFailure 2 RProcessFailed at_ 0)
  | NAgentDone => consider_score best (mkScore TWaiting 1 RAgentDone at_ 0)
  | _ => best
  end.

Definition consider_queue (best : option AttentionScore) (mq : MqFacts) : option AttentionScore :=
  let at_ := Some (mq_updated_at mq) in
  match mq_status mq with
  | MqNeedsHuman => consider_score best (mkScore TBlocked 1 RQueueNeedsHuman at_ 0)
  | MqGateFailed => consider_score best (mkScore TFailure 7 RGateFailed at_ 0)
  | MqGateError => consider_score best (mkScore TBlocked 2 RGateError at_ 0)
  | MqAgentBlocked => consider_score best (mkScore TBlocked 2 RAgentBlocked at_ 0)
  | MqDeferred => consider_score best (mkScore TFailure 8 RDeferred at_ 0)
  | MqReady => consider_score best (mkScore TReady 1 RQueueReady at_ 0)
  | MqQueued | MqFolding | MqVerifying | MqAgentRunning => consider_score best (mkScore TWorking 3 RIntegrating at_ 0)
  | MqLanded => best
  end.

Definition consider_pr (best : option AttentionScore) (p : PrFacts) : option AttentionScore :=
  let best := consider_if (0 <? checks_failed p)%N best (mkScore TFailure 4 RCiFailed None (pr_episode p)) in
  let best := consider_if (conflicting p) best (mkScore TFailure 5 RPrConflict None (pr_episode p)) in
  let best := consider_if (changes_requested p) best (mkScore TFailure 6 RChangesRequested None (pr_episode p)) in
  let best := consider_if (negb (is_draft p) && approved p && mergeable p && checks_green p) best
                (mkScore TReady 0 RReadyToLand None (pr_episode p)) in
  consider_if (0 <? checks_pending p)%N best (mkScore TWorking 2 RCiRunning None (pr_episode p)).

Definition consider_activity (i : AttentionInputs) (best : option AttentionScore) : option AttentionScore :=
  match activity i with
  | KWaiting => consider_if (has_agent i) best (mkScore TWaiting 0 RAgentWaiting (activity_since i) 0)
  | KActive => consider_score best (mkScore TWorking 0 RAgentWorking (activity_since i) 0)
  | KLoading => consider_score best (mkScore TWorking 1 RBuilding None 0)
  | KRead | KNone => best
  end.

Definition needs_input (at_ : Z) : AttentionScore := mkScore TBlocked 0 RAgentNeedsInput (Some at_) 0.

Definition score (i : AttentionInputs) : AttentionScore :=
  let best := fold_left consider_note (unread i) None in
  let best := match stage_blocked_since i with Some at_ => consider_score best (needs_input at_) | None => best end in
  let best := match attention_signal_since i with Some at_ => consider_score best (needs_input at_) | None => best end in
  let best := match merge_queue i with Some mq => consider_queue best mq | None => best end in
  let best := match pr i with Some p => consider_pr best p | None => best end in
  let best := consider_if (ci_failing i) best (mkScore TFailure 4 RCiFailed (ci_since i) (ci_episode i)) in
  let best := consider_if (ci_running i) best (mkScore TWorking 2 RCiRunning None (ci_episode i)) in
  let best := consider_if (agent_error_active i) best (mkScore TFailure 3 RAgentFailed None 0) in
  let best := consider_activity i best in
  default (mkScore TIdle (if dirty i then 0 else 1) RIdle None 0) best.

(** ** Ordering *)

Definition stable_order (prev : list (string * AttentionTier)) (fresh : list (string * AttentionScore)) : list string :=
  let same_membership :=
    (length prev =? length fresh)%nat &&
    forallb (fun f : string * AttentionScore =>
      existsb (fun q : string * AttentionTier => String.eqb q.1 f.1 && bool_decide (q.2 = tier f.2)) prev) fresh in
  if same_membership then map fst prev else map fst fresh.

Definition next_attention (ordered : list (string * AttentionScore)) (current : option string) : option string :=
  match ordered with
  | [] => None
  | _ =>
      let cur_ix := match current with
                    | Some c => position (fun e : string * AttentionScore => String.eqb e.1 c) ordered
                    | None => None
                    end in
      let ix := match cur_ix with Some i => (i + 1) mod length ordered | None => 0 end in
      fst <$> ordered !! ix
  end.

(** [min_by_key]: the first of the least. *)
Definition rollup (scores : list AttentionScore) : option AttentionScore :=
  match scores with
  | [] => None
  | s :: ss => Some (fold_left (fun m x => match sort_key_cmp x m with Lt => x | _ => m end) ss s)
  end.
