(* ===== verification/AttentionProps.v ===== *)
(** * What attention promises

    [score] computes its reference: list every signal, sort by urgency, take the
    first.  Jumps visit every worktree that needs the user in turn, and holding
    rows still never loses one. *)
From Stdlib Require Import Ascii String.
From S2P Require Import Prelude RustOrd RustStr Activity Attention.
Local Open Scope list_scope.

(** ** The reference *)

Definition urgency : AttentionScore -> AttentionScore -> comparison :=
  lex (on (fun s => tier_rank (tier s)) N.compare) (on sub N.compare).

#[global] Instance urgency_lawful : LawfulCmp urgency.
Proof. unfold urgency. apply _. Qed.

Definition signal (b : bool) (s : AttentionScore) : list AttentionScore := if b then [s] else [].

Definition note_signals (n : UnreadNote) : list AttentionScore :=
  match u_kind n with
  | NAgentAttention => [mkScore TBlocked 0 RAgentNeedsInput (Some (u_at n)) 0]
  | NAgentFailed => [mkScore TFailure 0 RAgentFailed (Some (u_at n)) 0]
  | NTestFailed => [mkScore TFailure 1 RTestsFailed (Some (u_at n)) 0]
  | NProcessFailed => [mkScore TFailure 2 RProcessFailed (Some (u_at n)) 0]
  | NAgentDone => [mkScore TWaiting 1 RAgentDone (Some (u_at n)) 0]
  | _ => []
  end.

Definition queue_signals (q : MqFacts) : list AttentionScore :=
  let s t k r := [mkScore t k r (Some (mq_updated_at q)) 0] in
  match mq_status q with
  | MqNeedsHuman => s TBlocked 1%N RQueueNeedsHuman
  | MqGateError => s TBlocked 2%N RGateError
  | MqAgentBlocked => s TBlocked 2%N RAgentBlocked
  | MqGateFailed => s TFailure 7%N RGateFailed
  | MqDeferred => s TFailure 8%N RDeferred
  | MqReady => s TReady 1%N RQueueReady
  | MqLanded => []
  | _ => s TWorking 3%N RIntegrating
  end.

Definition pr_signals (p : PrFacts) : list AttentionScore :=
  let e := pr_episode p in
  signal (0 <? checks_failed p)%N (mkScore TFailure 4 RCiFailed None e) ++
  signal (conflicting p) (mkScore TFailure 5 RPrConflict None e) ++
  signal (changes_requested p) (mkScore TFailure 6 RChangesRequested None e) ++
  signal (negb (is_draft p) && approved p && mergeable p && checks_green p) (mkScore TReady 0 RReadyToLand None e) ++
  signal (0 <? checks_pending p)%N (mkScore TWorking 2 RCiRunning None e).

Definition activity_signals (i : AttentionInputs) : list AttentionScore :=
  match activity i with
  | KWaiting => signal (has_agent i) (mkScore TWaiting 0 RAgentWaiting (activity_since i) 0)
  | KActive => [mkScore TWorking 0 RAgentWorking (activity_since i) 0]
  | KLoading => [mkScore TWorking 1 RBuilding None 0]
  | KRead | KNone => []
  end.

Definition opt_signals {A} (f : A -> list AttentionScore) (x : option A) : list AttentionScore :=
  match x with Some a => f a | None => [] end.

(** Every signal about a worktree, in the order the code looks at them. *)
Definition evidence (i : AttentionInputs) : list AttentionScore :=
  concat (map note_signals (unread i)) ++
  opt_signals (fun at_ => [needs_input at_]) (stage_blocked_since i) ++
  opt_signals (fun at_ => [needs_input at_]) (attention_signal_since i) ++
  opt_signals queue_signals (merge_queue i) ++
  opt_signals pr_signals (pr i) ++
  signal (ci_failing i) (mkScore TFailure 4 RCiFailed (ci_since i) (ci_episode i)) ++
  signal (ci_running i) (mkScore TWorking 2 RCiRunning None (ci_episode i)) ++
  signal (agent_error_active i) (mkScore TFailure 3 RAgentFailed None 0) ++
  activity_signals i.

Definition idle_score (i : AttentionInputs) : AttentionScore := mkScore TIdle (if dirty i then 0 else 1) RIdle None 0.

(** ** [consider] finds the head of the sorted evidence *)

Lemma more_urgent_cmp a b : more_urgent a b = match urgency a b with Lt => true | _ => false end.
Proof.
  unfold more_urgent, urgency, lex, on, then_with.
  destruct (N.compare_spec (tier_rank (tier a)) (tier_rank (tier b))) as [E|E|E].
  - rewrite E, N.ltb_irrefl, N.eqb_refl. cbn [orb andb]. unfold N.ltb. by destruct (sub a ?= sub b)%N.
  - apply N.ltb_lt in E. by rewrite E.
  - destruct (N.ltb_spec (tier_rank (tier a)) (tier_rank (tier b))); [lia|].
    destruct (N.eqb_spec (tier_rank (tier a)) (tier_rank (tier b))); [lia|done].
Qed.

Lemma more_urgent_spec a b :
  BoolSpec (tier_rank (tier a) < tier_rank (tier b) \/ tier_rank (tier a) = tier_rank (tier b) /\ sub a < sub b)%N
    (tier_rank (tier b) < tier_rank (tier a) \/ tier_rank (tier a) = tier_rank (tier b) /\ sub b <= sub a)%N
    (more_urgent a b).
Proof.
  unfold more_urgent.
  destruct (N.ltb_spec (tier_rank (tier a)) (tier_rank (tier b))), (N.eqb_spec (tier_rank (tier a)) (tier_rank (tier b))),
    (N.ltb_spec (sub a) (sub b)); cbn [orb andb]; constructor; lia.
Qed.

Lemma head_sort_cons x l :
  head (sort_by urgency (x :: l)) =
  match head (sort_by urgency l) with Some y => if more_urgent y x then Some y else Some x | None => Some x end.
Proof.
  cbn [sort_by foldr]. fold (sort_by urgency l). destruct (sort_by urgency l) as [|y l']; [done|].
  cbn [insert_by head]. rewrite more_urgent_cmp, (cmp_sym urgency x y). by destruct (urgency x y).
Qed.

Lemma consider_spec l b :
  fold_left consider_score l (Some b) =
  match head (sort_by urgency l) with Some m => if more_urgent m b then Some m else Some b | None => Some b end.
Proof.
  revert b. induction l as [|x l IH]; intros b; [done|]. cbn [fold_left consider_score].
  rewrite head_sort_cons.
  assert (fold_left consider_score l (if more_urgent x b then Some x else Some b) =
          if more_urgent x b then fold_left consider_score l (Some x) else fold_left consider_score l (Some b)) as ->
    by (by destruct (more_urgent x b)).
  rewrite !IH. destruct (head (sort_by urgency l)) as [y|]; [|by destruct (more_urgent x b)].
  destruct (more_urgent_spec y x), (more_urgent_spec x b), (more_urgent_spec y b); try done; lia.
Qed.

Lemma consider_head l : fold_left consider_score l None = head (sort_by urgency l).
Proof.
  destruct l as [|x l]; [done|]. cbn [fold_left consider_score]. rewrite consider_spec, head_sort_cons. done.
Qed.

Lemma consider_notes ns best :
  fold_left consider_note ns best = fold_left consider_score (concat (map note_signals ns)) best.
Proof.
  revert best. induction ns as [|n ns IH]; intros best; [done|]. cbn [fold_left map concat].
  rewrite fold_left_app, IH. f_equal. unfold consider_note, note_signals. by destruct (u_kind n).
Qed.

Lemma consider_signal b best s : consider_if b best s = fold_left consider_score (signal b s) best.
Proof. by destruct b. Qed.

Lemma consider_queue_signals best q : consider_queue best q = fold_left consider_score (queue_signals q) best.
Proof. unfold consider_queue, queue_signals. by destruct (mq_status q). Qed.

Lemma consider_pr_signals best p : consider_pr best p = fold_left consider_score (pr_signals p) best.
Proof. unfold consider_pr, pr_signals. by rewrite !fold_left_app, !consider_signal. Qed.

Lemma consider_activity_signals i best : consider_activity i best = fold_left consider_score (activity_signals i) best.
Proof. unfold consider_activity, activity_signals. destruct (activity i); try done. apply consider_signal. Qed.

Lemma score_fold i : score i = default (idle_score i) (fold_left consider_score (evidence i) None).
Proof.
  unfold score, evidence. rewrite !fold_left_app, <- consider_notes, <- !consider_signal.
  rewrite <- consider_activity_signals. unfold idle_score.
  destruct (stage_blocked_since i), (attention_signal_since i), (merge_queue i), (pr i);
    cbn [opt_signals fold_left]; rewrite <- ?consider_queue_signals, <- ?consider_pr_signals; done.
Qed.

(** [score] is its specification: of all the signals about a worktree, the
    first of the most urgent ones, and idle when there is none. *)
Theorem score_reference i : score i = default (idle_score i) (head (sort_by urgency (evidence i))).
Proof. by rewrite score_fold, consider_head. Qed.

(** ** Who needs the user *)

Lemma score_head i :
  (evidence i = [] /\ score i = idle_score i) \/
  (score i ∈ evidence i /\ forall s, s ∈ evidence i -> cmp_le urgency (score i) s).
Proof.
  rewrite score_fold, consider_head. destruct (sort_by urgency (evidence i)) as [|x l] eqn:E.
  - left. split; [|done]. by apply sort_by_nil in E.
  - right. cbn [head default]. split.
    + apply (elem_of_sort_by urgency). rewrite E. left.
    + intros s Hs. exact (sort_by_head urgency _ _ _ _ E Hs).
Qed.

Lemma urgency_needs a b : cmp_le urgency a b -> needs_user b = true -> needs_user a = true.
Proof.
  unfold cmp_le, urgency, lex, on, then_with, needs_user. rewrite !N.leb_le.
  destruct (N.compare_spec (tier_rank (tier a)) (tier_rank (tier b))); intros; try done; lia.
Qed.

Lemma score_needs i : needs_user (score i) = true <-> exists s, s ∈ evidence i /\ needs_user s = true.
Proof.
  destruct (score_head i) as [ [E ->]|[H1 H2] ].
  - rewrite E. split; [done|]. intros (s & H & _). by inversion H.
  - split; [by eexists|]. intros (s & Hs & H). eapply urgency_needs; eauto.
Qed.

Definition demands (k : NotificationKind) : bool :=
  match k with NAgentAttention | NAgentFailed | NTestFailed | NProcessFailed | NAgentDone => true | _ => false end.

Lemma signal_needs b s : (exists x, x ∈ signal b s /\ needs_user x = true) <-> b = true /\ needs_user s = true.
Proof.
  unfold signal. destruct b; split.
  - intros (x & ->%list_elem_of_singleton & H). done.
  - intros [_ H]. exists s. by rewrite list_elem_of_singleton.
  - intros (x & H & _). by inversion H.
  - by intros [? _].
Qed.

Lemma app_needs a b :
  (exists x, x ∈ a ++ b /\ needs_user x = true) <->
  (exists x, x ∈ a /\ needs_user x = true) \/ (exists x, x ∈ b /\ needs_user x = true).
Proof. setoid_rewrite elem_of_app. naive_solver. Qed.

Lemma existsb_needs l : (exists x, x ∈ l /\ needs_user x = true) <-> existsb needs_user l = true.
Proof. rewrite existsb_exists. by setoid_rewrite list_elem_of_In. Qed.

(** A worktree asks for the user exactly when an agent, a test or a process
    reported for it, an agent raised a hand or is parked for a person, its queue
    entry is held, its pull request failed a check, conflicts or was sent back,
    its last run failed, its agent shows an error, or its agent went quiet and
    nobody has looked. *)
Theorem needs_user_iff i :
  needs_user (score i) = true <->
  (exists n, n ∈ unread i /\ demands (u_kind n) = true) \/
  is_Some (stage_blocked_since i) \/ is_Some (attention_signal_since i) \/
  (exists q, merge_queue i = Some q /\ is_held (mq_status q) = true) \/
  (exists p, pr i = Some p /\ ((0 < checks_failed p)%N \/ conflicting p = true \/ changes_requested p = true)) \/
  ci_failing i = true \/ agent_error_active i = true \/ (activity i = KWaiting /\ has_agent i = true).
Proof.
  rewrite score_needs. unfold evidence. rewrite !app_needs, !signal_needs.
  assert ((exists x, x ∈ concat (map note_signals (unread i)) /\ needs_user x = true) <->
          exists n, n ∈ unread i /\ demands (u_kind n) = true) as ->.
  { split.
    - intros (x & Hx & H). apply list_elem_of_In, in_concat in Hx as (l & Hl & Hx).
      apply in_map_iff in Hl as (n & <- & Hn). exists n. split; [by apply list_elem_of_In|].
      unfold note_signals in Hx. by destruct (u_kind n).
    - intros (n & Hn & H). setoid_rewrite list_elem_of_In. setoid_rewrite in_concat.
      destruct (note_signals n) as [|s l] eqn:E; [unfold note_signals in E; by destruct (u_kind n)|].
      exists s. split; [exists (note_signals n); rewrite E; split; [|by left]|].
      + rewrite <- E. by apply in_map, list_elem_of_In.
      + unfold note_signals in E. destruct (u_kind n); try done; by injection E as <- _. }
  rewrite !existsb_needs.
  assert (existsb needs_user (opt_signals queue_signals (merge_queue i)) = true <->
          exists q, merge_queue i = Some q /\ is_held (mq_status q) = true) as ->.
  { destruct (merge_queue i) as [q|]; [|naive_solver]. cbn [opt_signals].
    assert (existsb needs_user (queue_signals q) = is_held (mq_status q)) as ->
      by (unfold queue_signals; by destruct (mq_status q)). naive_solver. }
  assert (existsb needs_user (opt_signals pr_signals (pr i)) = true <->
          exists p, pr i = Some p /\ ((0 < checks_failed p)%N \/ conflicting p = true \/ changes_requested p = true)) as ->.
  { destruct (pr i) as [p|]; [|naive_solver]. cbn [opt_signals].
    assert (existsb needs_user (pr_signals p) = ((0 <? checks_failed p)%N || conflicting p || changes_requested p)) as ->.
    { unfold pr_signals, signal. rewrite !existsb_app. by repeat case_match. }
    rewrite !orb_true_iff, N.ltb_lt. naive_solver. }
  assert (existsb needs_user (activity_signals i) = true <-> activity i = KWaiting /\ has_agent i = true) as ->.
  { unfold activity_signals, signal. destruct (activity i), (has_agent i); naive_solver. }
  assert (forall o, existsb needs_user (opt_signals (fun at_ => [needs_input at_]) o) = true <-> is_Some o) as HO.
  { intros [z|]; cbn; [naive_solver|]. split; [done|]. by intros [? ?]. }
  rewrite !HO. unfold needs_user. cbn. naive_solver.
Qed.

(** ** Jumping *)

Section Jumps.
Context (ordered : list (string * AttentionScore)) (Hnd : NoDup (map fst ordered)).

Definition path_at (i : nat) : option string := fst <$> ordered !! i.

Lemma position_path i p :
  path_at i = Some p -> position (fun e : string * AttentionScore => String.eqb e.1 p) ordered = Some i.
Proof.
  unfold path_at. revert i. induction ordered as [|[q s] l IH]; intros i; [done|].
  apply NoDup_cons in Hnd as [Hq Hl]. destruct i as [|i]; cbn [lookup list_lookup fmap option_fmap option_map position fst].
  - intros [= <-]. by rewrite String.eqb_refl.
  - intros H. destruct (String.eqb_spec q p) as [->|]; [|by rewrite (IH Hl i H)].
    exfalso. apply Hq. apply list_elem_of_fmap. destruct (l !! i) as [e|] eqn:E; [|done]. injection H as <-.
    exists e. split; [done|]. by eapply list_elem_of_lookup_2.
Qed.

Lemma next_step i p : path_at i = Some p -> next_attention ordered (Some p) = path_at ((i + 1) mod length ordered).
Proof.
  intros H. unfold next_attention. rewrite (position_path i p H). unfold path_at in *.
  by destruct ordered.
Qed.

Lemma path_at_lt i : i < length ordered -> is_Some (path_at i).
Proof. intros H. unfold path_at. apply lookup_lt_is_Some in H as [e ->]. by eexists. Qed.

Lemma jumps_from i k :
  i < length ordered ->
  Nat.iter k (next_attention ordered) (path_at i) = path_at ((i + k) mod length ordered).
Proof.
  intros Hi. induction k as [|k IH]; [by rewrite Nat.add_0_r, Nat.mod_small|].
  rewrite Nat.iter_succ, IH.
  destruct (path_at_lt ((i + k) mod length ordered)) as [p Hp]; [apply Nat.mod_upper_bound; lia|].
  rewrite Hp, (next_step _ _ Hp). f_equal. rewrite Nat.Div0.add_mod_idemp_l. f_equal. lia.
Qed.

Lemma first_jump start : ordered <> [] -> exists i, i < length ordered /\ next_attention ordered start = path_at i.
Proof.
  intros Hne. unfold next_attention, path_at. destruct ordered as [|e l]; [done|].
  set (ix := match _ with Some i => _ | None => 0 end). exists ix. split; [|done].
  unfold ix. destruct (match start with Some _ => _ | None => _ end); [apply Nat.mod_upper_bound|]; simpl; lia.
Qed.
End Jumps.

(** Jumping visits everyone: from wherever the user is, each worktree that
    needs the user is reached within as many jumps as there are such worktrees. *)
Theorem jumps_visit_all ordered start path :
  NoDup (map fst ordered) -> path ∈ map fst ordered ->
  exists k, 1 <= k <= length ordered /\ Nat.iter k (next_attention ordered) start = Some path.
Proof.
  intros Hnd Hp. apply list_elem_of_fmap in Hp as (e & -> & He).
  apply list_elem_of_lookup_1 in He as (t & Ht). pose proof (lookup_lt_Some _ _ _ Ht) as Hlt.
  destruct (first_jump ordered Hnd start) as (i & Hi & E); [by destruct ordered|].
  set (n := length ordered) in *. exists (S ((t + n - i) mod n)).
  pose proof (Nat.mod_upper_bound (t + n - i) n ltac:(lia)). split; [lia|].
  rewrite Nat.iter_succ_r, E, jumps_from by done. fold n.
  rewrite Nat.Div0.add_mod_idemp_r. replace (i + (t + n - i)) with (t + 1 * n) by lia.
  rewrite Nat.Div0.mod_add, Nat.mod_small by done. unfold path_at. by rewrite Ht.
Qed.

Lemma jumps_visit_all_witness :
  let ordered := [("a", needs_input 5); ("b", needs_input 7); ("c", needs_input 9)] in
  exists k, 1 <= k <= 3 /\ Nat.iter k (next_attention ordered) (Some "b") = Some "a".
Proof.
  apply (jumps_visit_all [("a", needs_input 5); ("b", needs_input 7); ("c", needs_input 9)] (Some "b") "a").
  - apply (bool_decide_eq_true_1 (NoDup _)). vm_compute. reflexivity.
  - left.
Defined.

(** ** Holding the rows still *)

(** Nothing material changed: the same worktrees with the same tiers. *)
Definition unchanged (prev : list (string * AttentionTier)) (fresh : list (string * AttentionScore)) : Prop :=
  map (fun f => (f.1, tier f.2)) fresh ≡ₚ prev.

Lemma stable_order_spec prev fresh :
  NoDup (map fst fresh) ->
  (unchanged prev fresh /\ stable_order prev fresh = map fst prev) \/
  (~ unchanged prev fresh /\ stable_order prev fresh = map fst fresh).
Proof.
  intros Hf. unfold stable_order. set (b := _ && _). assert (b = true <-> unchanged prev fresh) as Hb.
  { unfold b, unchanged. rewrite andb_true_iff, Nat.eqb_eq, forallb_forall.
    assert ((forall x, In x fresh -> existsb (fun q => String.eqb q.1 x.1 && bool_decide (q.2 = tier x.2)) prev = true) <->
            forall x, x ∈ map (fun f => (f.1, tier f.2)) fresh -> x ∈ prev) as ->.
    { split; intros H x.
      - intros (f & -> & Hx)%list_elem_of_fmap. apply list_elem_of_In in Hx. specialize (H f Hx).
        apply existsb_exists in H as ([q t] & Hq & [E1%String.eqb_eq E2%bool_decide_eq_true]%andb_true_iff).
        simpl in *. subst. by apply list_elem_of_In.
      - intros Hx. apply existsb_exists. exists (x.1, tier x.2). simpl. rewrite String.eqb_refl, bool_decide_true by done.
        split; [|done]. apply list_elem_of_In, H, list_elem_of_fmap. exists x. split; [done|]. by apply list_elem_of_In. }
    assert (NoDup (map (fun f : string * AttentionScore => (f.1, tier f.2)) fresh)) as HN.
    { apply (NoDup_fmap_1 fst). rewrite <- list_fmap_compose. exact Hf. }
    split.
    - intros [HL H]. apply submseteq_length_Permutation; [by apply NoDup_submseteq|]. rewrite length_fmap. lia.
    - intros H. split; [by rewrite <- H, length_fmap|]. intros x. by rewrite H. }
  destruct b; [left|right]; (split; [|done]).
  - by apply Hb.
  - intros H. by apply Hb in H.
Qed.

(** Holding the rows still never loses or repeats one: the order shown is a
    permutation of the fresh one; it is the order shown before exactly while no
    worktree came, went or changed its tier, and otherwise the fresh order. *)
Theorem stable_order_correct prev fresh :
  NoDup (map fst fresh) ->
  stable_order prev fresh ≡ₚ map fst fresh /\
  (unchanged prev fresh -> stable_order prev fresh = map fst prev) /\
  (~ unchanged prev fresh -> stable_order prev fresh = map fst fresh).
Proof.
  intros Hf. destruct (stable_order_spec prev fresh Hf) as [ [H ->]|[H ->] ]; (split_and!; [|done..]); [|done].
  unfold unchanged in H. rewrite <- H, <- list_fmap_compose. done.
Qed.

Lemma stable_order_correct_witness :
  stable_order [("a", TBlocked); ("b", TBlocked)] [("b", needs_input 3); ("a", needs_input 5)] ≡ₚ ["b"; "a"].
Proof.
  apply (stable_order_correct [("a", TBlocked); ("b", TBlocked)] [("b", needs_input 3); ("a", needs_input 5)]).
  apply (bool_decide_eq_true_1 (NoDup _)). vm_compute. reflexivity.
Defined.

(** ** Rollups, queue statuses and episodes *)

#[global] Instance cmp_Z_lawful : LawfulCmp Z.compare.
Proof.
  split.
  - intros a b. apply Z.compare_antisym.
  - intros a b c. rewrite !Z.compare_le_iff. lia.
Qed.

#[global] Instance sort_key_lawful : LawfulCmp sort_key_cmp.
Proof. unfold sort_key_cmp. apply _. Qed.

Lemma rollup_least scores s :
  rollup scores = Some s -> s ∈ scores /\ forall x, x ∈ scores -> cmp_le sort_key_cmp s x.
Proof.
  destruct scores as [|y l]; [done|]. cbn [rollup]. intros [= <-]. revert y.
  induction l as [|x l IH]; intros y; cbn [fold_left].
  - split; [left|]. intros z ->%list_elem_of_singleton. unfold cmp_le. rewrite (cmp_refl sort_key_cmp). done.
  - set (m := match sort_key_cmp x y with Lt => x | _ => y end). destruct (IH m) as [H1 H2].
    assert (cmp_le sort_key_cmp m x /\ cmp_le sort_key_cmp m y) as [Hx Hy].
    { pose proof (cmp_sym sort_key_cmp x y) as Hs. unfold m, cmp_le.
      pose proof (cmp_refl sort_key_cmp x) as Rx. pose proof (cmp_refl sort_key_cmp y) as Ry.
      destruct (sort_key_cmp x y) eqn:E; simpl in Hs; split; congruence. }
    split.
    + apply elem_of_cons in H1 as [->|H1]; [|by do 2 right]. unfold m.
      destruct (sort_key_cmp x y); [left|right; left|left].
    + assert (cmp_le sort_key_cmp (fold_left (fun m x => match sort_key_cmp x m with Lt => x | _ => m end) l m) m) as Hm
        by (apply H2; left).
      intros z [->|[->|Hz]%elem_of_cons]%elem_of_cons.
      * eapply (cmp_trans sort_key_cmp); eauto.
      * eapply (cmp_trans sort_key_cmp); eauto.
      * apply H2. by right.
Qed.

(** A workspace asks for the user exactly when one of its worktrees does. *)
Lemma rollup_needs scores s : rollup scores = Some s -> needs_user s = existsb needs_user scores.
Proof.
  intros [H1 H2]%rollup_least. destruct (existsb needs_user scores) eqn:E.
  - apply existsb_needs in E as (x & Hx & Hn). specialize (H2 x Hx). revert H2 Hn.
    unfold cmp_le, sort_key_cmp, lex, on, then_with, needs_user. rewrite !N.leb_le.
    destruct (N.compare_spec (tier_rank (tier s)) (tier_rank (tier x))); intros; try done; lia.
  - destruct (needs_user s) eqn:F; [|done]. rewrite <- E. symmetry. apply existsb_needs. by exists s.
Qed.

Lemma mq_parse_iff s m : mq_parse s = Some m <-> s = mq_as_str m.
Proof.
  split; [|intros ->; by destruct m]. unfold mq_parse.
  repeat (case_match; [match goal with H : String.eqb _ _ = true |- _ => apply String.eqb_eq in H end; subst; by intros [= <-]|]).
  done.
Qed.

(** The two tables of the queue agree: what can be retried is what is held. *)
Lemma retry_iff_held s claimed : mq_transition OpRetry s claimed = Requeue <-> claimed = false /\ is_held s = true.
Proof. destruct claimed, s; simpl; naive_solver. Qed.

(** An episode fits a [u64] and is 0 only for the lack of an identity. *)
Lemma episode_of_spec s : (episode_of s <= u64_max)%N /\ (episode_of s = 0%N <-> s = ""%string).
Proof.
  assert (forall h t, (h < 18446744073709551616)%N -> (fnv h t < 18446744073709551616)%N) as H.
  { intros h t. revert h. induction t as [|b t IH]; intros h Hh; [done|]. apply IH. unfold fnv_step. by apply N.mod_lt. }
  unfold episode_of. destruct s as [|b s]; [done|]. cbn [is_empty].
  set (h := fnv _ _). assert (h < 18446744073709551616)%N as Hh by (by apply H).
  unfold u64_max. destruct (N.eqb_spec h 0); (split; [lia|]); split; intros E; try done; lia.
Qed.
