(* ===== verification/MergeSweep.v ===== *)
(** * What becomes of a worktree in the merge queue

    thegn-core/src/merge_lifecycle.rs, which maps a transition of the queue to
    what happens to the worktree in the sidebar, and merge_sweep.rs, which says
    when the grace period of a landed worktree is up, how a refused cleanup is
    retried, and the two reserved texts that record it in the row.  The rendering
    of those texts for a person is left out. *)
From Stdlib Require Import Ascii String.
From S2P Require Import Prelude RustStr RustText.
Local Open Scope string_scope.
Local Open Scope list_scope.

(** ** Folders *)

Inductive OnLanded := OnOff | OnMove | OnExpire | OnDetach | OnRemove.

(** The part of [MergeQueueConfig] the decision reads. *)
Record MergeQueueConfig := mkMergeQueueConfig {
  organize_folders : bool;
  queued_folder : string;
  on_landed : OnLanded;
  merged_folder : string;
  failed_folder : string;
}.

Inductive LifecycleEvent := EvEnqueued | EvLanded | EvFailed | EvLandedInPlace | EvDequeued.

Inductive LifecycleAction :=
| ActNoop
| FileInto (folder : string)
| RemoveWorktree (delete_branch : bool)
| Unfile.

Definition file_into (name : string) : LifecycleAction :=
  if is_empty (trim name) then ActNoop else FileInto (trim name).

Definition lifecycle_decide (cfg : MergeQueueConfig) (event : LifecycleEvent) : LifecycleAction :=
  if negb (organize_folders cfg) then ActNoop
  else
    match event with
    | EvEnqueued => file_into (queued_folder cfg)
    | EvFailed => file_into (failed_folder cfg)
    | EvDequeued => Unfile
    | EvLandedInPlace =>
        match on_landed cfg with
        | OnOff => Unfile
        | OnMove | OnExpire | OnDetach | OnRemove => file_into (merged_folder cfg)
        end
    | EvLanded =>
        match on_landed cfg with
        | OnOff => ActNoop
        | OnMove | OnExpire => file_into (merged_folder cfg)
        | OnDetach => RemoveWorktree false
        | OnRemove => RemoveWorktree true
        end
    end.

(** ** Reserved details *)

Definition hold_marker : string := "thegn-cleanup-hold:v1:branch-retained".

Definition hold_from_detail (detail : option string) : bool := bool_decide (detail = Some hold_marker).

Definition CLEANUP_RETRY_BASE_SECS : N := 300.
Definition CLEANUP_RETRY_MAX_SECS : N := 86400.

Record CleanupRetry := mkRetry { attempts : N; next_at : Z }.

Definition RETRY_PREFIX : string := "thegn-cleanup-retry:v1:".

Definition retry_marker (r : CleanupRetry) : string :=
  RETRY_PREFIX ++ fmt_N (attempts r) ++ ":" ++ fmt_i64 (next_at r).

Definition decimal_field (s : string) : bool := negb (is_empty s) && str_forall (byte_in 48 57) s.

Definition retry_from_detail (detail : option string) : option CleanupRetry :=
  d ← detail;
  fields ← strip_prefix RETRY_PREFIX d;
  '(a, n) ← split_once ":" fields;
  if negb (decimal_field a && decimal_field n) then None
  else
    a ← parse_u32 a;
    n ← parse_uint (Z.to_N i64_max) n;
    if (1 <=? a)%N then Some (mkRetry a (Z.of_N n)) else None.

Definition attempts_sat_add (a b : N) : N := N.min (a + b) u32_max.

Definition retry_delay (attempts : N) : N :=
  let shift := (attempts - 1)%N in
  if (9 <=? shift)%N then CLEANUP_RETRY_MAX_SECS
  else N.min (N.shiftl CLEANUP_RETRY_BASE_SECS shift) CLEANUP_RETRY_MAX_SECS.

Definition after_refusal (previous : option CleanupRetry) (now : Z) : CleanupRetry :=
  let n := match previous with Some r => attempts_sat_add (attempts r) 1 | None => 1%N end in
  mkRetry n (Z.min i64_max (now + Z.of_N (retry_delay n))).

Definition retry_is_due (r : CleanupRetry) (now : Z) : bool := (next_at r <=? now)%Z.

(** ** The grace period *)

Record MergedEntry := mkMerged { g_worktree : string; g_branch : string; landed_at : Z }.

Definition remaining_secs (landed_at now : Z) (ttl_secs : N) : option N :=
  if (ttl_secs =? 0)%N then Some u64_max
  else
    let age := i64_sat_sub now landed_at in
    if (age <? 0)%Z then Some ttl_secs
    else
      let age := Z.to_N age in
      if (age <? ttl_secs)%N then Some (ttl_secs - age)%N else None.

Definition sweep_is_due (landed_at now : Z) (ttl_secs : N) : bool :=
  match remaining_secs landed_at now ttl_secs with None => true | Some _ => false end.

Definition due (entries : list MergedEntry) (now : Z) (ttl_secs : N) : list MergedEntry :=
  if (ttl_secs =? 0)%N then [] else List.filter (fun e => sweep_is_due (landed_at e) now ttl_secs) entries.

(** ** Properties *)

(** Landing in place keeps the worktree, whatever the configuration says. *)
Lemma landed_in_place_keeps cfg b : lifecycle_decide cfg EvLandedInPlace <> RemoveWorktree b.
Proof. unfold lifecycle_decide, file_into. repeat case_match; done. Qed.

(** A worktree is removed only when it landed through the queue under a setting
    that says so. *)
Lemma removed_iff cfg ev b :
  lifecycle_decide cfg ev = RemoveWorktree b <->
  organize_folders cfg = true /\ ev = EvLanded /\ on_landed cfg = if b then OnRemove else OnDetach.
Proof.
  unfold lifecycle_decide, file_into. destruct (organize_folders cfg), ev, (on_landed cfg), b;
    repeat case_match; naive_solver.
Qed.

Lemma fmt_N_decimal n : decimal_field (fmt_N n) = true.
Proof.
  unfold decimal_field. rewrite fmt_N_nonempty. cbn [negb andb]. rewrite fmt_N_eq.
  induction (N.to_uint n); simpl; rewrite ?IHu; reflexivity.
Qed.

Definition good_retry (r : CleanupRetry) : Prop := (1 <= attempts r <= u32_max)%N /\ (0 <= next_at r <= i64_max)%Z.

Lemma decimal_no_colon s : decimal_field s = true -> no_char ":" s = true.
Proof.
  unfold decimal_field. intros [_ H]%andb_true_iff. induction s as [|b s IH]; [done|]. simpl in *.
  apply andb_true_iff in H as [Hb H]. rewrite IH, andb_true_r by done. destruct (Ascii.eqb_spec ":" b) as [<-|Hne]; [vm_compute in Hb; done|]. by rewrite (proj2 (Ascii.eqb_neq _ _) (not_eq_sym Hne)).
Qed.

(** What a refused cleanup writes into the row is read back as it was. *)
Lemma retry_roundtrip r : good_retry r -> retry_from_detail (Some (retry_marker r)) = Some r.
Proof.
  destruct r as [a n]. intros [Ha Hn]. simpl in Ha, Hn. unfold retry_from_detail, retry_marker.
  cbn [mbind option_bind attempts next_at]. rewrite (proj2 (strip_prefix_Some RETRY_PREFIX _ _) eq_refl). cbn [mbind option_bind].
  assert (fmt_i64 n = fmt_N (Z.to_N n)) as -> by (unfold fmt_i64; by rewrite (proj2 (Z.ltb_ge n 0)) by lia).
  cbn [String.append]. rewrite (split_once_char ":") by apply decimal_no_colon, fmt_N_decimal. cbn [mbind option_bind].
  rewrite !fmt_N_decimal. cbn [andb negb]. rewrite parse_fmt_u32 by lia. cbn [mbind option_bind].
  rewrite parse_fmt by lia. cbn [mbind option_bind]. rewrite (proj2 (N.leb_le 1 a)) by lia. do 2 f_equal. lia.
Qed.

Lemma retry_hold_disjoint d : hold_from_detail d = true -> retry_from_detail d = None.
Proof. intros ->%bool_decide_eq_true. reflexivity. Qed.

(** The pause after a refusal: five minutes, doubled each time, a day at most. *)
Lemma retry_delay_spec n : (1 <= n)%N -> retry_delay n = N.min (300 * 2 ^ (n - 1)) 86400.
Proof.
  intros Hn. unfold retry_delay, CLEANUP_RETRY_BASE_SECS, CLEANUP_RETRY_MAX_SECS. rewrite N.shiftl_mul_pow2.
  destruct (N.leb_spec 9 (n - 1)) as [H|]; [|done].
  assert (2 ^ 9 <= 2 ^ (n - 1))%N by (apply N.pow_le_mono_r; lia). change (2 ^ 9)%N with 512%N in *. lia.
Qed.

(** Every retry that is written can be read back, and it comes after now. *)
Lemma after_refusal_good previous now :
  (0 <= now <= i64_max)%Z -> (forall r, previous = Some r -> good_retry r) ->
  good_retry (after_refusal previous now) /\
  (now < i64_max -> retry_is_due (after_refusal previous now) now = false)%Z /\
  (next_at (after_refusal previous now) <= now + 86400)%Z.
Proof.
  intros Hn Hp. unfold after_refusal.
  set (k := match previous with Some r => _ | None => _ end).
  assert (1 <= k <= u32_max)%N as Hk.
  { unfold k. destruct previous as [r|]; [|unfold u32_max; lia]. destruct (Hp r eq_refl). unfold attempts_sat_add, u32_max in *. lia. }
  pose proof (retry_delay_spec k ltac:(lia)) as Hd. assert (2 ^ (k - 1) <> 0)%N by (apply N.pow_nonzero; lia).
  unfold good_retry, retry_is_due. cbn [attempts next_at]. split_and!; [lia|lia|lia|lia| |].
  - intros. apply Z.leb_gt. lia.
  - lia.
Qed.

(** A worktree is collected exactly when it landed at least the whole grace
    period ago by the clock, and never under a period of zero. *)
Lemma sweep_due_iff l now ttl :
  (i64_min <= l <= i64_max)%Z -> (i64_min <= now <= i64_max)%Z ->
  sweep_is_due l now ttl = true <-> (0 < ttl)%N /\ (Z.of_N ttl <= Z.min i64_max (now - l))%Z.
Proof.
  intros Hl Hn. unfold sweep_is_due, remaining_secs, i64_sat_sub.
  destruct (N.eqb_spec ttl 0); [split; [done|lia]|].
  destruct (Z.ltb_spec (Z.max i64_min (Z.min i64_max (now - l))) 0) as [H|H]; [split; [done|]|].
  - unfold i64_min, i64_max in *. lia.
  - destruct (N.ltb_spec (Z.to_N (Z.max i64_min (Z.min i64_max (now - l)))) ttl);
      (split; [try done|]); unfold i64_min, i64_max in *; lia.
Qed.
