(* ===== verification/MergeQueue.v ===== *)
(** * The merge-queue store

    The [merge_queue] and [merge_queue_events] tables of thegn-core: enqueueing,
    the claims of a drain (owner token, generation, phase and lease), the status
    writes with and without a claim, the final outcome of a fold, retry, removal
    and the audit trail (db_aux.rs, store/worktree_aux.rs, db_merge_landed.rs and
    the queue part of [del_worktree] in db_workspace.rs).

    A call runs as one SQLite transaction where the code opens one; the calls
    that do not are written as a sequence of statements, and each statement is a
    step of its own in [MergeQueueProps].  The readings of the clock within one
    call are one [Env].  The schema is the current one, so the probes of
    [pragma_table_info] for older databases answer yes. *)
From Stdlib Require Import Ascii String.
From stdpp Require Import gmap strings.
From S2P Require Import Prelude RustOrd RustStr RustText RustChars Attention MergeSweep.
Local Open Scope string_scope.
Local Open Scope list_scope.
Local Open Scope Z_scope.

Definition MERGE_CLAIM_MAX_LEASE_MS : Z := 5 * 60 * 1000.
Definition MERGE_CLAIM_OWNER_HINT_MAX : nat := 64.
Definition MERGE_QUEUE_EVENTS_PER_WORKTREE : nat := 200.

(** ** Rows *)

Record MergeStatusFields := mkFields {
  result_oid : option string;
  conflict_paths : option string;
  error_detail : option string;
}.

Definition no_fields : MergeStatusFields := mkFields None None None.

(** The claim columns; the phase is the text the table stores. *)
Record ClaimCols := mkClaimCols {
  claim_owner : option string;
  claim_generation : Z;
  claim_phase : string;
  claim_lease_until_ms : option Z;
  claim_owner_hint : option string;
  claim_launch_nonce : option string;
  claim_diagnostic : option string;
}.

Record IdentCols := mkIdentCols {
  branch_ref : option string;
  candidate_oid : option string;
  enqueue_common_dir : option string;
  enqueue_admin_dir : option string;
}.

Record LandedCols := mkLandedCols {
  landed_source_oid : option string;
  landed_target_base_oid : option string;
}.

Definition not_landed : LandedCols := mkLandedCols None None.

(** A row of [merge_queue]; its key, the worktree, is the key of the map. *)
Record QRow := mkQRow {
  q_branch : string;
  q_target : string;
  q_status : string;
  q_queued_at : Z;
  q_updated_at : Z;
  q_fields : MergeStatusFields;
  q_location : option string;
  q_attempts : N;
  q_claim : ClaimCols;
  q_ident : IdentCols;
  q_landed : LandedCols;
}.

Record MergeQueueEvent := mkEvent {
  e_worktree : string;
  e_operation : string;
  e_outcome : string;
  e_old_status : string;
  e_new_status : option string;
  e_row_updated_at : Z;
  e_candidate_oid : option string;
  e_result_oid : option string;
  e_target_base_oid : option string;
  e_actor : string;
  e_at_ms : Z;
}.

(** Registry facts of a worktree, as the columns hold them. *)
Record MergeRegistryIdentity := mkRegistry {
  reg_branch : option string;
  reg_repo_path : option string;
  reg_location : option string;
}.

(** The events are in the order of their ids. *)
Record MqDb := mkMqDb {
  worktrees : gmap string MergeRegistryIdentity;
  queue : gmap string QRow;
  events : list MergeQueueEvent;
}.

(** What a call reads of its process: the clock in seconds and in milliseconds,
    and the process id. *)
Record Env := mkEnv { now : Z; now_ms : Z; pid : N }.

Definition this_process (env : Env) : string := "thegn pid " ++ fmt_N (pid env).

#[global] Instance MergeStatusFields_eq_dec : EqDecision MergeStatusFields.
Proof. solve_decision. Defined.
#[global] Instance MergeRegistryIdentity_eq_dec : EqDecision MergeRegistryIdentity.
Proof. solve_decision. Defined.

Inductive MqError :=
| MergeClaimActive
| MERGE_CLAIM_LOST
| Refused (why : string)
| RowDecode.

#[global] Instance MqError_eq_dec : EqDecision MqError.
Proof. solve_decision. Defined.

(** A call: its answer and the store it leaves. *)
Definition Call (A : Type) : Type := MqDb -> result MqError A * MqDb.

Definition set_queue (m : gmap string QRow) (db : MqDb) : MqDb := mkMqDb (worktrees db) m (events db).

(** [UPDATE merge_queue SET f WHERE worktree=w AND p]: whether a row changed. *)
Definition update_where (w : string) (p : QRow -> bool) (f : QRow -> QRow) (db : MqDb) : bool * MqDb :=
  match queue db !! w with
  | Some r => if p r then (true, set_queue (<[w := f r]> (queue db)) db) else (false, db)
  | None => (false, db)
  end.

Definition unclaimed (r : QRow) : bool := bool_decide (claim_owner (q_claim r) = None).
Definition is_claimed (w : string) (db : MqDb) : bool :=
  match queue db !! w with Some r => negb (unclaimed r) | None => false end.

Definition q_set_status (s : string) (at_ : Z) (f : MergeStatusFields) (l : LandedCols) (r : QRow) : QRow :=
  mkQRow (q_branch r) (q_target r) s (q_queued_at r) at_ f (q_location r) (q_attempts r) (q_claim r) (q_ident r) l.

Definition set_claim (c : ClaimCols) (r : QRow) : QRow :=
  mkQRow (q_branch r) (q_target r) (q_status r) (q_queued_at r) (q_updated_at r) (q_fields r) (q_location r)
    (q_attempts r) c (q_ident r) (q_landed r).

Definition set_attempts (n : N) (at_ : Z) (r : QRow) : QRow :=
  mkQRow (q_branch r) (q_target r) (q_status r) (q_queued_at r) at_ (q_fields r) (q_location r)
    n (q_claim r) (q_ident r) (q_landed r).

Definition set_fields (f : MergeStatusFields) (r : QRow) : QRow :=
  mkQRow (q_branch r) (q_target r) (q_status r) (q_queued_at r) (q_updated_at r) f (q_location r)
    (q_attempts r) (q_claim r) (q_ident r) (q_landed r).

(** A released claim keeps its generation. *)
Definition claim_cleared (c : ClaimCols) : ClaimCols :=
  mkClaimCols None (claim_generation c) "unclaimed" None None None None.

(** The claim columns of a new row: their declared defaults. *)
Definition fresh_claim : ClaimCols := mkClaimCols None 0 "unclaimed" None None None None.

Definition lease_lt (r : QRow) (t : Z) : bool :=
  match claim_lease_until_ms (q_claim r) with Some l => l <? t | None => false end.
Definition lease_ge (r : QRow) (t : Z) : bool :=
  match claim_lease_until_ms (q_claim r) with Some l => t <=? l | None => false end.

Definition merge_location (l : option string) : string :=
  match l with
  | None => ""
  | Some s => if String.eqb s "" || String.eqb s "local" then "" else s
  end.

Definition ensure (b : bool) (why : string) : result MqError unit := if b then Ok tt else Err (Refused why).

Definition ensure_known_merge_status (s : string) : result MqError unit :=
  match mq_parse s with Some _ => Ok tt | None => Err (Refused "unknown merge-queue status") end.

Definition nonempty_oid (o : option string) : bool :=
  match o with Some s => negb (is_empty s) | None => false end.

Definition LANDED_NEEDS_OID : string := "landed merge status requires a nonempty result OID".

(** ** The audit trail *)

Definition is_of (w : string) (e : MergeQueueEvent) : bool := String.eqb (e_worktree e) w.

(** Keep the newest events of a worktree, and every event of the others. *)
Fixpoint prune_events (w : string) (excess : nat) (l : list MergeQueueEvent) : list MergeQueueEvent :=
  match l with
  | [] => []
  | e :: l =>
      if is_of w e then
        match excess with
        | S k => prune_events w k l
        | O => e :: prune_events w O l
        end
      else e :: prune_events w excess l
  end.

Definition record_merge_event (e : MergeQueueEvent) (db : MqDb) : MqDb :=
  let l := events db ++ [e] in
  let n := length (List.filter (is_of (e_worktree e)) l) in
  mkMqDb (worktrees db) (queue db) (prune_events (e_worktree e) (n - MERGE_QUEUE_EVENTS_PER_WORKTREE) l).

Definition merge_queue_events (w : string) (limit : nat) (db : MqDb) : list MergeQueueEvent :=
  take limit (rev (List.filter (is_of w) (events db))).

(** The event of a row that existed, with its version and object ids. *)
Definition row_event (w operation outcome : string) (r : QRow) (new_status result base : option string)
    (actor : string) (at_ms : Z) : MergeQueueEvent :=
  mkEvent w operation outcome (q_status r) new_status (q_updated_at r) (candidate_oid (q_ident r)) result base actor at_ms.

(** ** Enqueueing *)

Definition ensure_unclaimed (w : string) (db : MqDb) : result MqError unit :=
  if is_claimed w db then Err MergeClaimActive else Ok tt.

Definition reap_expired_landed_claim (env : Env) (w : string) (db : MqDb) : bool * MqDb :=
  update_where w (fun r => String.eqb (q_status r) "landed" && negb (unclaimed r) && lease_lt r (now_ms env))
    (fun r => set_claim (claim_cleared (q_claim r)) r) db.

Record MergeCandidate := mkCandidate { m_branch_ref : string; m_candidate_oid : string }.
Record MergeEnqueueIdentity := mkEnqueueIdentity { common_dir : string; admin_dir : string }.

Definition validate_merge_candidate (branch : string) (c : MergeCandidate) : result MqError unit :=
  let? _ := ensure (String.eqb (m_branch_ref c) ("refs/heads/" ++ branch)) "invalid merge candidate branch_ref" in
  ensure ((Nat.eqb (String.length (m_candidate_oid c)) 40 || Nat.eqb (String.length (m_candidate_oid c)) 64) &&
          str_forall (fun b => byte_in 48 57 b || byte_in 97 102 b) (m_candidate_oid c))
    "invalid merge candidate candidate_oid".

(** The budget survives a re-enqueue only while the row is in flight. *)
Definition in_flight (s : string) : bool :=
  existsb (String.eqb s) ["queued"; "folding"; "verifying"; "agent_running"].

(** The upsert of an enqueue: refused by a claim, and otherwise a queued row
    whose outcome, provenance and identity are those of this enqueue. *)
Definition upsert_queued (env : Env) (w branch target : string) (location : option string) (ident : IdentCols)
    (db : MqDb) : bool * MqDb :=
  match queue db !! w with
  | None =>
      (true, set_queue (<[w := mkQRow branch target "queued" (now env) (now env) no_fields location 0 fresh_claim ident not_landed]>
                          (queue db)) db)
  | Some r =>
      if unclaimed r then
        (true, set_queue (<[w := mkQRow branch target "queued" (now env) (now env) no_fields location
                                   (if in_flight (q_status r) then q_attempts r else 0%N) (q_claim r) ident not_landed]>
                            (queue db)) db)
      else (false, db)
  end.

Definition registered_location (w : string) (db : MqDb) : option string := worktrees db !! w ≫= reg_location.

Definition enqueue_merge_row (env : Env) (w branch target : string) (candidate : option MergeCandidate)
    (identity : option MergeEnqueueIdentity) : Call unit := fun db =>
  let '(_, db) := reap_expired_landed_claim env w db in
  let '(changed, db) :=
    upsert_queued env w branch target (registered_location w db)
      (mkIdentCols (m_branch_ref <$> candidate) (m_candidate_oid <$> candidate)
         (common_dir <$> identity) (admin_dir <$> identity)) db in
  (if changed then Ok tt else Err MergeClaimActive, db).

Definition enqueue_merge (env : Env) (w branch target : string) : Call unit :=
  enqueue_merge_row env w branch target None None.

Definition enqueue_merge_candidate (env : Env) (w branch target : string) (c : MergeCandidate) : Call unit := fun db =>
  match validate_merge_candidate branch c with
  | Err e => (Err e, db)
  | Ok _ => enqueue_merge_row env w branch target (Some c) None db
  end.

Definition valid_claim_text (value : string) (max : nat) : bool :=
  negb (is_empty value) && (String.length value <=? max)%nat && negb (existsb is_control (chars value)).

Definition enqueue_merge_candidate_with_identity (env : Env) (w branch target : string) (c : MergeCandidate)
    (i : MergeEnqueueIdentity) : Call unit := fun db =>
  match (let? _ := validate_merge_candidate branch c in
         ensure (valid_claim_text (common_dir i) 4096 && valid_claim_text (admin_dir i) 4096) "invalid merge enqueue identity") with
  | Err e => (Err e, db)
  | Ok _ => enqueue_merge_row env w branch target (Some c) (Some i) db
  end.

(** One transaction: a registry that moved since the caller looked answers no
    and leaves the store as it was. *)
Definition enqueue_merge_if_worktree_matches (env : Env) (w branch repo_root location target : string) : Call bool := fun db =>
  let matches :=
    match worktrees db !! w with
    | Some g => String.eqb (default "" (reg_branch g)) branch && String.eqb (default "" (reg_repo_path g)) repo_root &&
                String.eqb (default "" (reg_location g)) location
    | None => false
    end in
  if negb matches then (Ok false, db)
  else
    let '(_, db1) := reap_expired_landed_claim env w db in
    let '(changed, db2) := upsert_queued env w branch target (Some location) (mkIdentCols None None None None) db1 in
    if changed then (Ok true, db2) else (Err MergeClaimActive, db).

Definition merge_candidate (w : string) (db : MqDb) : option MergeCandidate :=
  match queue db !! w with
  | Some r =>
      match branch_ref (q_ident r), candidate_oid (q_ident r) with
      | Some b, Some c => Some (mkCandidate b c)
      | _, _ => None
      end
  | None => None
  end.

Definition merge_enqueue_identity (w : string) (db : MqDb) : option MergeEnqueueIdentity :=
  match queue db !! w with
  | Some r =>
      match enqueue_common_dir (q_ident r), enqueue_admin_dir (q_ident r) with
      | Some c, Some a => Some (mkEnqueueIdentity c a)
      | _, _ => None
      end
  | None => None
  end.

Definition set_candidate (oid : string) (at_ : Z) (r : QRow) : QRow :=
  mkQRow (q_branch r) (q_target r) (q_status r) (q_queued_at r) at_ (q_fields r) (q_location r) (q_attempts r) (q_claim r)
    (mkIdentCols (branch_ref (q_ident r)) (Some oid) (enqueue_common_dir (q_ident r)) (enqueue_admin_dir (q_ident r)))
    (q_landed r).

Definition adopt_merge_candidate (env : Env) (w : string) (expected : MergeCandidate) (oid : string) : Call bool := fun db =>
  let '(changed, db) :=
    update_where w (fun r => bool_decide (branch_ref (q_ident r) = Some (m_branch_ref expected)) &&
                             bool_decide (candidate_oid (q_ident r) = Some (m_candidate_oid expected)) &&
                             String.eqb (q_status r) "folding")
      (set_candidate oid (now env)) db in
  (Ok changed, db).

(** ** Claims *)

Inductive MergeClaimPhase := ClaimedNoChild | Settled.

Definition phase_as_str (p : MergeClaimPhase) : string :=
  match p with ClaimedNoChild => "claimed_no_child" | Settled => "settled" end.

Definition phase_parse (s : string) : option MergeClaimPhase :=
  if String.eqb s "claimed_no_child" then Some ClaimedNoChild
  else if String.eqb s "settled" then Some Settled
  else None.

Record MergeClaimRequest := mkClaimRequest {
  rq_worktree : string;
  rq_branch : string;
  rq_repo_root : string;
  rq_target_branch : string;
  rq_location : string;
  rq_expected_status : string;
  rq_lease_until_ms : Z;
  rq_owner_hint : option string;
}.

Record MergeClaim := mkClaim {
  c_worktree : string;
  c_branch : string;
  c_repo_root : string;
  c_target_branch : string;
  c_location : string;
  c_generation : Z;
  c_phase : MergeClaimPhase;
  c_lease_until_ms : Z;
  c_owner_hint : option string;
  c_owner_token : string;
}.

Inductive ClaimIdentity := Registered | UnregisteredLocal.

Definition claimable_statuses : list string :=
  ["queued"; "deferred"; "gate_failed"; "gate_error"; "needs_human"; "ready"; "agent_blocked"].

Definition validate_claim_request (rq : MergeClaimRequest) : result MqError unit :=
  let? _ := ensure (forallb (fun v => valid_claim_text v 4096)
                      [rq_worktree rq; rq_branch rq; rq_repo_root rq; rq_target_branch rq]) "invalid merge claim identity" in
  let? _ := ensure ((String.length (rq_location rq) <=? 4096)%nat && negb (existsb is_control (chars (rq_location rq))))
              "invalid merge claim location" in
  let? _ := ensure (existsb (String.eqb (rq_expected_status rq)) claimable_statuses) "invalid merge claim status" in
  match rq_owner_hint rq with
  | Some h => ensure (valid_claim_text h MERGE_CLAIM_OWNER_HINT_MAX) "invalid merge claim owner hint"
  | None => Ok tt
  end.

(** The claim a row holds; a row without one does not decode. *)
Definition claim_from_row (w repo_root : string) (r : QRow) : result MqError MergeClaim :=
  let c := q_claim r in
  match phase_parse (claim_phase c), claim_lease_until_ms c, claim_owner c with
  | Some p, Some l, Some t =>
      Ok (mkClaim w (q_branch r) repo_root (q_target r) (default "" (q_location r)) (claim_generation c) p l
            (claim_owner_hint c) t)
  | _, _, _ => Err RowDecode
  end.

Definition read_claim (w repo_root : string) (db : MqDb) : result MqError (option MergeClaim) :=
  match queue db !! w with
  | None => Ok None
  | Some r => let? c := claim_from_row w (default repo_root (worktrees db !! w ≫= reg_repo_path)) r in Ok (Some c)
  end.

Definition read_claim_or_lost (w repo_root : string) (db : MqDb) : result MqError MergeClaim :=
  let? c := read_claim w repo_root db in
  match c with Some c => Ok c | None => Err MERGE_CLAIM_LOST end.

(** A transaction: an error rolls the store back. *)
Definition commit {A} (r : result MqError A) (before after : MqDb) : result MqError A * MqDb :=
  match r with Ok a => (Ok a, after) | Err e => (Err e, before) end.

Definition lease_in_range (lease t : Z) : bool :=
  (t <? lease) && (i64_sat_sub lease t <=? MERGE_CLAIM_MAX_LEASE_MS).

Definition identity_matches (rq : MergeClaimRequest) (identity : ClaimIdentity) (db : MqDb) : bool :=
  match identity, worktrees db !! rq_worktree rq with
  | Registered, Some g =>
      bool_decide (reg_branch g = Some (rq_branch rq)) && String.eqb (default "" (reg_repo_path g)) (rq_repo_root rq) &&
      String.eqb (merge_location (reg_location g)) (merge_location (Some (rq_location rq)))
  | Registered, None => false
  | UnregisteredLocal, Some _ => false
  | UnregisteredLocal, None => true
  end.

Definition admissible (rq : MergeClaimRequest) (t : Z) (r : QRow) : bool :=
  let phase := claim_phase (q_claim r) in
  String.eqb (q_branch r) (rq_branch rq) && String.eqb (q_target r) (rq_target_branch rq) &&
  (String.eqb phase "unclaimed" && String.eqb (q_status r) (rq_expected_status rq) ||
   (String.eqb phase "claimed_no_child" || String.eqb phase "settled") && lease_lt r t) &&
  String.eqb (merge_location (q_location r)) (merge_location (Some (rq_location rq))) &&
  (claim_generation (q_claim r) <? i64_max).

Definition taken (rq : MergeClaimRequest) (token : string) (r : QRow) : QRow :=
  set_claim (mkClaimCols (Some token) (claim_generation (q_claim r) + 1) "claimed_no_child" (Some (rq_lease_until_ms rq))
               (rq_owner_hint rq) None None) r.

Definition admit_merge_claim_tx (env : Env) (rq : MergeClaimRequest) (token : string) (identity : ClaimIdentity)
    : Call (option MergeClaim) := fun db =>
  if negb (lease_in_range (rq_lease_until_ms rq) (now_ms env)) then (Ok None, db)
  else if negb (identity_matches rq identity db) then (Ok None, db)
  else
    let '(changed, db1) := update_where (rq_worktree rq) (admissible rq (now_ms env)) (taken rq token) db in
    commit (if changed then read_claim (rq_worktree rq) (rq_repo_root rq) db1 else Ok None) db db1.

(** [token] is what [mint_claim_token] returned for this call. *)
Definition admit_merge_claim (env : Env) (rq : MergeClaimRequest) (token : string) : Call (option MergeClaim) := fun db =>
  match validate_claim_request rq with
  | Err e => (Err e, db)
  | Ok _ => admit_merge_claim_tx env rq token Registered db
  end.

Definition admit_unregistered_local_merge_claim (env : Env) (rq : MergeClaimRequest) (token : string)
    : Call (option MergeClaim) := fun db =>
  match (let? _ := validate_claim_request rq in
         ensure (is_empty (merge_location (Some (rq_location rq)))) "unregistered merge claim requires a local row") with
  | Err e => (Err e, db)
  | Ok _ => admit_merge_claim_tx env rq token UnregisteredLocal db
  end.

Record MergeClaimView := mkClaimView {
  v_worktree : string; v_generation : Z; v_phase : string; v_lease_until_ms : option Z; v_owner_hint : option string;
}.

Definition observe_merge_claim (w : string) (db : MqDb) : option MergeClaimView :=
  (fun r => mkClaimView w (claim_generation (q_claim r)) (claim_phase (q_claim r)) (claim_lease_until_ms (q_claim r))
              (claim_owner_hint (q_claim r))) <$> queue db !! w.

(** [claim_owner=? AND claim_generation=?] *)
Definition owned_by (c : MergeClaim) (r : QRow) : bool :=
  bool_decide (claim_owner (q_claim r) = Some (c_owner_token c)) && (claim_generation (q_claim r) =? c_generation c).

Definition in_phase (p : MergeClaimPhase) (r : QRow) : bool := String.eqb (claim_phase (q_claim r)) (phase_as_str p).

(** Holds the row with a lease that has not run out. *)
Definition live_for (c : MergeClaim) (t : Z) (r : QRow) : bool :=
  owned_by c r && in_phase ClaimedNoChild r && lease_ge r t.

Definition with_lease (l : Z) (r : QRow) : QRow :=
  let c := q_claim r in
  set_claim (mkClaimCols (claim_owner c) (claim_generation c) (claim_phase c) (Some l) (claim_owner_hint c)
               (claim_launch_nonce c) (claim_diagnostic c)) r.

Definition with_phase (p : MergeClaimPhase) (r : QRow) : QRow :=
  let c := q_claim r in
  set_claim (mkClaimCols (claim_owner c) (claim_generation c) (phase_as_str p) (claim_lease_until_ms c) (claim_owner_hint c)
               (claim_launch_nonce c) (claim_diagnostic c)) r.

Definition with_lease_until (l : Z) (c : MergeClaim) : MergeClaim :=
  mkClaim (c_worktree c) (c_branch c) (c_repo_root c) (c_target_branch c) (c_location c) (c_generation c) (c_phase c) l
    (c_owner_hint c) (c_owner_token c).

Definition renew_merge_claim (env : Env) (c : MergeClaim) (lease : Z) : Call MergeClaim := fun db =>
  match ensure (lease_in_range lease (now_ms env)) "invalid merge claim lease" with
  | Err e => (Err e, db)
  | Ok _ =>
      let '(changed, db1) := update_where (c_worktree c) (live_for c (now_ms env)) (with_lease lease) db in
      commit (if changed then let? r := read_claim_or_lost (c_worktree c) (c_repo_root c) db1 in Ok (with_lease_until lease r)
              else Err MERGE_CLAIM_LOST) db db1
  end.

Definition settle_merge_claim_no_child (c : MergeClaim) : Call MergeClaim := fun db =>
  let '(changed, db1) :=
    update_where (c_worktree c) (fun r => owned_by c r && in_phase ClaimedNoChild r) (with_phase Settled) db in
  commit (if changed then read_claim_or_lost (c_worktree c) (c_repo_root c) db1 else Err MERGE_CLAIM_LOST) db db1.

Definition release_merge_claim (c : MergeClaim) : Call unit := fun db =>
  let '(changed, db1) :=
    update_where (c_worktree c) (fun r => owned_by c r && in_phase Settled r)
      (fun r => set_claim (claim_cleared (q_claim r)) r) db in
  (if changed then Ok tt else Err MERGE_CLAIM_LOST, db1).

Inductive MergeAttemptResult := Consumed | BudgetExhausted | ClaimLost.

Definition consume_merge_agent_attempt (env : Env) (c : MergeClaim) (max : N) : Call MergeAttemptResult := fun db =>
  let '(changed, db1) :=
    update_where (c_worktree c) (fun r => live_for c (now_ms env) r && (q_attempts r <? max)%N)
      (fun r => set_attempts (q_attempts r + 1) (now env) r) db in
  (Ok (if changed then Consumed
       else match queue db1 !! c_worktree c with
            | Some r => if live_for c (now_ms env) r && (max <=? q_attempts r)%N then BudgetExhausted else ClaimLost
            | None => ClaimLost
            end), db1).

Definition refund_merge_agent_attempt (env : Env) (c : MergeClaim) : Call bool := fun db =>
  let '(changed, db1) :=
    update_where (c_worktree c) (fun r => live_for c (now_ms env) r && (0 <? q_attempts r)%N)
      (fun r => set_attempts (q_attempts r - 1) (now env) r) db in
  (Ok changed, db1).

Definition landed_has_oid (status : string) (f : MergeStatusFields) : result MqError unit :=
  ensure (negb (String.eqb status "landed") || nonempty_oid (result_oid f)) LANDED_NEEDS_OID.

(** The provenance a claimed write stores: only for a landing that names the
    base it replaced, and then with the candidate of the row. *)
Definition landing_cols (status : string) (base : option string) (r : QRow) : LandedCols :=
  if String.eqb status "landed" && bool_decide (is_Some base) then mkLandedCols (candidate_oid (q_ident r)) base
  else not_landed.

Definition writable_by (c : MergeClaim) (t : Z) (r : QRow) : bool :=
  owned_by c r && (in_phase Settled r || in_phase ClaimedNoChild r && lease_ge r t).

Definition write_merge_status_claimed (env : Env) (c : MergeClaim) (status : string) (f : MergeStatusFields)
    (base : option string) : Call MergeClaim := fun db =>
  match (let? _ := ensure_known_merge_status status in landed_has_oid status f) with
  | Err e => (Err e, db)
  | Ok _ =>
      let prior := queue db !! c_worktree c in
      let '(changed, db1) :=
        update_where (c_worktree c) (writable_by c (now_ms env))
          (fun r => q_set_status status (now env) f (landing_cols status base r) r) db in
      if negb changed then (Err MERGE_CLAIM_LOST, db)
      else
        let db2 :=
          match prior with
          | Some r =>
              if String.eqb (q_status r) status then db1
              else record_merge_event
                     (row_event (c_worktree c) "drive" "transition" r (Some status) (result_oid f) base
                        (this_process env) (now_ms env)) db1
          | None => db1
          end in
        commit (read_claim_or_lost (c_worktree c) (c_repo_root c) db2) db db2
  end.

Definition replace_merge_status_claimed (env : Env) (c : MergeClaim) (status : string) (f : MergeStatusFields)
    : Call MergeClaim := write_merge_status_claimed env c status f None.

Definition land_merge_status_claimed (env : Env) (c : MergeClaim) (f : MergeStatusFields) (base : string)
    : Call MergeClaim := fun db =>
  match ensure (negb (is_empty (trim base))) "landed target base OID must not be empty" with
  | Err e => (Err e, db)
  | Ok _ => write_merge_status_claimed env c "landed" f (Some base) db
  end.

(** ** Writes without a claim *)

Definition replace_merge_status (env : Env) (w status : string) (f : MergeStatusFields) : Call unit := fun db =>
  match (let? _ := ensure_known_merge_status status in landed_has_oid status f) with
  | Err e => (Err e, db)
  | Ok _ =>
      let '(changed, db1) := update_where w unclaimed (q_set_status status (now env) f not_landed) db in
      commit (if changed then Ok tt
              else let? _ := ensure_unclaimed w db1 in Err (Refused "merge status replacement requires one existing row"))
        db db1
  end.

Definition coalesce (a b : option string) : option string := match a with Some _ => a | None => b end.

Definition merged_fields (f old : MergeStatusFields) : MergeStatusFields :=
  mkFields (coalesce (result_oid f) (result_oid old)) (coalesce (conflict_paths f) (conflict_paths old))
    (coalesce (error_detail f) (error_detail old)).

(** Whether a status write may say landed: the object id it names, or the one
    the row holds, is not empty. *)
Definition update_has_oid (w status : string) (oid : option string) (db : MqDb) : result MqError unit :=
  if negb (String.eqb status "landed") then Ok tt
  else
    let? _ := ensure (match oid with Some s => negb (is_empty s) | None => true end) LANDED_NEEDS_OID in
    ensure (nonempty_oid (coalesce oid (queue db !! w ≫= (fun r => result_oid (q_fields r))))) LANDED_NEEDS_OID.

Definition update_merge_status (env : Env) (w status : string) (f : MergeStatusFields) : Call unit := fun db =>
  match (let? _ := ensure_known_merge_status status in update_has_oid w status (result_oid f) db) with
  | Err e => (Err e, db)
  | Ok _ =>
      let '(changed, db1) :=
        update_where w unclaimed
          (fun r => q_set_status status (now env) (merged_fields f (q_fields r))
                      (if String.eqb status "landed" then q_landed r else not_landed) r) db in
      commit (if changed then Ok tt else ensure_unclaimed w db1) db db1
  end.

(** A row as it is read: a null location reads as the empty one. *)
Record MergeQueueRow := mkRow {
  w_worktree : string;
  w_branch : string;
  w_target_branch : string;
  w_status : string;
  w_queued_at : Z;
  w_updated_at : Z;
  w_fields : MergeStatusFields;
  w_location : string;
  w_agent_attempts : N;
}.

#[global] Instance MergeQueueRow_eq_dec : EqDecision MergeQueueRow.
Proof. solve_decision. Defined.

Definition merge_queue_row (w : string) (r : QRow) : MergeQueueRow :=
  mkRow w (q_branch r) (q_target r) (q_status r) (q_queued_at r) (q_updated_at r) (q_fields r)
    (default "" (q_location r)) (q_attempts r).

Definition missing_oid (o : option string) : bool := negb (nonempty_oid o).

Definition backfill_landed_result_oid (expected : MergeQueueRow) (oid : string) : Call bool := fun db =>
  match (let? _ := ensure (negb (is_empty oid)) "landed result OID cannot be empty" in
         ensure (String.eqb (w_status expected) "landed" && missing_oid (result_oid (w_fields expected)))
           "backfill requires a landed row with a missing result OID") with
  | Err e => (Err e, db)
  | Ok _ =>
      let '(changed, db1) :=
        update_where (w_worktree expected)
          (fun r => String.eqb (q_branch r) (w_branch expected) && String.eqb (q_target r) (w_target_branch expected) &&
                    String.eqb (q_status r) "landed" && (q_updated_at r =? w_updated_at expected) &&
                    missing_oid (result_oid (q_fields r)))
          (fun r => set_fields (mkFields (Some oid) (conflict_paths (q_fields r)) (error_detail (q_fields r))) r) db in
      (Ok changed, db1)
  end.

(** An unconditional write of an unclaimed row: nothing for a missing row, and
    the refusal of a claimed one. *)
Definition write_unclaimed (w : string) (f : QRow -> QRow) : Call unit := fun db =>
  let '(changed, db1) := update_where w unclaimed f db in
  (if changed then Ok tt else ensure_unclaimed w db1, db1).

Definition set_target (target : string) (at_ : Z) (r : QRow) : QRow :=
  mkQRow (q_branch r) target (q_status r) (q_queued_at r) at_ (q_fields r) (q_location r) (q_attempts r) (q_claim r)
    (q_ident r) (q_landed r).

Definition set_merge_target (env : Env) (w target : string) : Call unit := write_unclaimed w (set_target target (now env)).

Definition set_merge_agent_attempts (env : Env) (w : string) (n : N) : Call unit :=
  write_unclaimed w (set_attempts n (now env)).

(** ** Retry, removal and refusals *)

Definition rearmed (at_ : Z) (r : QRow) : QRow := set_attempts 0 at_ (q_set_status "queued" at_ no_fields not_landed r).

Definition retry_merge_entry (env : Env) (w : string) : Call bool := fun db =>
  let '(changed, db1) := update_where w unclaimed (rearmed (now env)) db in (Ok changed, db1).

Inductive MergeRetryOutcome := Rearmed | NotQueued | NotRetryable (status : string) | RetryClaimed.

Definition held_status (s : string) : bool := match mq_parse s with Some m => is_held m | None => false end.

(** The list the statement names: the words of the held statuses. *)
Definition held_words : list string := map mq_as_str (List.filter is_held MqStatus_ALL).

Definition retry_held_merge_entry (env : Env) (w : string) : Call MergeRetryOutcome := fun db =>
  match queue db !! w with
  | None => (Ok NotQueued, db)
  | Some r =>
      let event outcome new_status :=
        row_event w "retry" outcome r new_status (result_oid (q_fields r)) None (this_process env) (now_ms env) in
      if negb (unclaimed r) then (Ok RetryClaimed, record_merge_event (event "claimed" None) db)
      else if negb (held_status (q_status r)) then
        (Ok (NotRetryable (q_status r)), record_merge_event (event "not_retryable" None) db)
      else
        let '(changed, db1) :=
          update_where w (fun r => unclaimed r && existsb (String.eqb (q_status r)) held_words) (rearmed (now env)) db in
        if changed then (Ok Rearmed, record_merge_event (event "rearmed" (Some "queued")) db1)
        else (Ok (NotRetryable (q_status r)), record_merge_event (event "not_retryable" None) db1)
  end.

(** A removal of a claimed row is refused, and the refusal is recorded. *)
Definition remove_merge_entry_as (env : Env) (w actor : string) : Call unit := fun db =>
  let '(_, db) := reap_expired_landed_claim env w db in
  match queue db !! w with
  | None => (Ok tt, db)
  | Some r =>
      let event outcome := row_event w "remove" outcome r None (result_oid (q_fields r)) None actor (now_ms env) in
      if negb (unclaimed r) then (Err MergeClaimActive, record_merge_event (event "claimed") db)
      else (Ok tt, record_merge_event (event "deleted") (set_queue (delete w (queue db)) db))
  end.

Definition remove_merge_entry (env : Env) (w : string) : Call unit := remove_merge_entry_as env w (this_process env).

Definition record_merge_refusal (env : Env) (w operation outcome : string) : Call bool := fun db =>
  match queue db !! w with
  | None => (Ok false, db)
  | Some r =>
      (Ok true, record_merge_event (row_event w operation outcome r None (result_oid (q_fields r)) None (this_process env)
                                      (now_ms env)) db)
  end.

(** ** Cleanup of landed rows *)

Definition set_detail (d : string) (r : QRow) : QRow :=
  set_fields (mkFields (result_oid (q_fields r)) (conflict_paths (q_fields r)) (Some d)) r.

(** Replaces the detail of a landed row that is still exactly the one observed. *)
Definition mark_cleanup (expected : MergeQueueRow) (detail : string) : Call bool := fun db =>
  if negb (String.eqb (w_status expected) "landed") || missing_oid (result_oid (w_fields expected)) ||
     hold_from_detail (error_detail (w_fields expected))
  then (Ok false, db)
  else
    let '(changed, db1) :=
      update_where (w_worktree expected) (fun r => bool_decide (merge_queue_row (w_worktree expected) r = expected))
        (set_detail detail) db in
    (Ok changed, db1).

Definition hold_merge_cleanup (expected : MergeQueueRow) : Call bool := mark_cleanup expected hold_marker.

Definition defer_merge_cleanup (expected : MergeQueueRow) (retry : CleanupRetry) : Call bool :=
  mark_cleanup expected (retry_marker retry).

(** ** Listing *)

(** Rows queued at the same second come in an order SQLite does not promise: the
    order of [listing]. *)
Definition list_merge_queue (listing : list (string * QRow)) : list MergeQueueRow :=
  map (fun e => merge_queue_row e.1 e.2) (sort_by (on (fun e : string * QRow => q_queued_at e.2) Z.compare) listing).

Record MergeLandedProvenance := mkProvenance { p_source_oid : option string; p_target_base_oid : option string; p_result_oid : string }.

Definition merge_landed_provenance (w : string) (db : MqDb) : option MergeLandedProvenance :=
  match queue db !! w with
  | Some r =>
      if String.eqb (q_status r) "landed" && nonempty_oid (result_oid (q_fields r)) then
        Some (mkProvenance (landed_source_oid (q_landed r)) (landed_target_base_oid (q_landed r))
                (default "" (result_oid (q_fields r))))
      else None
  | None => None
  end.

(** ** The outcome of a fold *)

Record MergeOutcomeObservation := mkObservation {
  o_worktree : string;
  o_registry : option MergeRegistryIdentity;
  o_queue : option MergeQueueRow;
  o_queue_location : option string;
}.

Definition observe_merge_outcome (w : string) (db : MqDb) : MergeOutcomeObservation :=
  mkObservation w (worktrees db !! w) (merge_queue_row w <$> queue db !! w) (queue db !! w ≫= q_location).

Inductive MergeFinalStatus := FLanded | FDeferred | FGateFailed | FGateError.

Definition final_as_str (s : MergeFinalStatus) : string :=
  match s with FLanded => "landed" | FDeferred => "deferred" | FGateFailed => "gate_failed" | FGateError => "gate_error" end.

Inductive MergeOutcomeOperation := OLand | ORawLand | OIntegrate.

Definition operation_as_str (o : MergeOutcomeOperation) : string :=
  match o with OLand => "land" | ORawLand => "raw_land" | OIntegrate => "integrate" end.

Record MergeFinalOutcome := mkOutcome {
  f_worktree : string;
  f_branch : string;
  f_repo_root : string;
  f_target_branch : string;
  f_location : string;
  f_status : MergeFinalStatus;
  f_operation : MergeOutcomeOperation;
  f_fields : MergeStatusFields;
}.

#[global] Instance MergeFinalStatus_eq_dec : EqDecision MergeFinalStatus.
Proof. solve_decision. Defined.

Definition same_location (a : option string) (b : string) : bool := String.eqb (merge_location a) (merge_location (Some b)).

Definition validate_merge_outcome (observed : MergeOutcomeObservation) (o : MergeFinalOutcome) : result MqError unit :=
  let? _ := ensure (String.eqb (o_worktree observed) (f_worktree o) && negb (is_empty (f_worktree o)) &&
                    negb (is_empty (f_branch o)) && negb (is_empty (f_repo_root o)) && negb (is_empty (f_target_branch o)))
              "merge outcome does not match its observed worktree/context" in
  let? _ := match o_registry observed with
            | Some g => ensure (bool_decide (reg_branch g = Some (f_branch o)) &&
                                bool_decide (reg_repo_path g = Some (f_repo_root o)) &&
                                same_location (reg_location g) (f_location o))
                          "merge outcome does not match its observed registry context"
            | None => Ok tt
            end in
  let? _ := match o_queue observed with
            | Some q => ensure (String.eqb (w_branch q) (f_branch o) && same_location (Some (w_location q)) (f_location o))
                          "merge outcome does not match its observed queue branch/location"
            | None => Ok tt
            end in
  let? _ := ensure (bool_decide (is_Some (o_registry observed)) || bool_decide (is_Some (o_queue observed)) ||
                    is_empty (merge_location (Some (f_location o))))
              "unregistered merge outcome has no observed remote location" in
  ensure (match f_status o with
          | FLanded => nonempty_oid (result_oid (f_fields o))
          | _ => bool_decide (result_oid (f_fields o) = None)
          end) "merge outcome result OID is inconsistent with final status".

Inductive MergeOutcomeWrite := Written | RegistryChanged | QueueChanged | WriteClaimed.

(** The upsert of a final outcome: an existing row keeps when it was queued, its
    budget, its claim columns and the identity it was queued with. *)
Definition outcome_row (env : Env) (o : MergeFinalOutcome) (location : option string) (old : option QRow) : QRow :=
  match old with
  | None => mkQRow (f_branch o) (f_target_branch o) (final_as_str (f_status o)) (now env) (now env) (f_fields o) location 0
              fresh_claim (mkIdentCols None None None None) not_landed
  | Some r => mkQRow (f_branch o) (f_target_branch o) (final_as_str (f_status o)) (q_queued_at r) (now env) (f_fields o)
                location (q_attempts r) (q_claim r) (q_ident r) not_landed
  end.

Definition outcome_event (env : Env) (o : MergeFinalOutcome) (old : option QRow) : MergeQueueEvent :=
  mkEvent (f_worktree o) (operation_as_str (f_operation o)) (match old with Some _ => "transition" | None => "created" end)
    (match old with Some r => q_status r | None => "" end) (Some (final_as_str (f_status o)))
    (match old with Some r => q_updated_at r | None => 0 end) (old ≫= (fun r => candidate_oid (q_ident r)))
    (result_oid (f_fields o)) None (this_process env) (now_ms env).

Definition persist_merge_outcome (env : Env) (observed : MergeOutcomeObservation) (o : MergeFinalOutcome)
    : Call MergeOutcomeWrite := fun db =>
  match validate_merge_outcome observed o with
  | Err e => (Err e, db)
  | Ok _ =>
      let w := f_worktree o in
      if is_claimed w db then (Ok WriteClaimed, db)
      else
        let current := observe_merge_outcome w db in
        let old := queue db !! w in
        if negb (bool_decide (o_registry current = o_registry observed)) then (Ok RegistryChanged, db)
        else if negb (bool_decide (o_queue current = o_queue observed) &&
                      bool_decide (o_queue_location current = o_queue_location observed)) then (Ok QueueChanged, db)
        else if bool_decide (f_status o = FLanded) &&
                match old with Some r => String.eqb (q_status r) "landed" | None => false end then (Ok Written, db)
        else
          let location := match o_registry observed with Some g => reg_location g | None => o_queue_location observed end in
          let db1 := set_queue (<[w := outcome_row env o location old]> (queue db)) db in
          let records := match old with Some r => negb (String.eqb (q_status r) (final_as_str (f_status o))) | None => true end in
          (Ok Written, if records then record_merge_event (outcome_event env o old) db1 else db1)
  end.

(** ** Removing a worktree *)

Definition delete_row (w : string) (db : MqDb) : MqDb :=
  match queue db !! w with
  | Some r =>
      if unclaimed r && negb (String.eqb (q_status r) "landed" && hold_from_detail (error_detail (q_fields r)))
      then set_queue (delete w (queue db)) db else db
  | None => db
  end.

Definition delete_orphan_events (w : string) (db : MqDb) : MqDb :=
  match queue db !! w with
  | Some _ => db
  | None => mkMqDb (worktrees db) (queue db) (List.filter (fun e => negb (is_of w e)) (events db))
  end.

Definition set_registry (w : string) (g : option MergeRegistryIdentity) (db : MqDb) : MqDb :=
  mkMqDb (match g with Some g => <[w := g]> (worktrees db) | None => delete w (worktrees db) end) (queue db) (events db).

(** The part of [del_worktree] that touches these tables, statement by statement. *)
Definition del_worktree (env : Env) (w : string) (db : MqDb) : MqDb :=
  delete_orphan_events w (delete_row w (snd (reap_expired_landed_claim env w (set_registry w None db)))).
