(* ===== verification/MergeQueueProps.v ===== *)
(** * What the merge-queue store guarantees

    The calls of [MergeQueue] as one type of operations, what an operation can do
    to a row, and the invariants of every store that operations reach from an
    empty one, in any order, by any number of processes and with any clocks. *)
From Stdlib Require Import Ascii String.
From stdpp Require Import gmap strings.
From S2P Require Import Prelude RustOrd RustStr RustText RustChars Attention AttentionProps MergeSweep MergeQueue.
Local Open Scope string_scope.
Local Open Scope list_scope.
Local Open Scope Z_scope.

(** ** Operations *)

(** Each transaction is an operation; a call that runs several statements
    without one is a sequence of operations ([OpReap] then [OpUpsert] for the
    enqueues, [OpRegistry], [OpReap], [OpDeleteRow] and [OpDeleteEvents] for the
    removal of a worktree).  [OpAdmit], [OpWrite] and [OpMark] stand for the calls
    that differ only in checks they make before. *)
Inductive Op :=
| OpReap (env : Env) (w : string)
| OpUpsert (env : Env) (w branch target : string) (location : option string) (ident : IdentCols)
| OpEnqueueIf (env : Env) (w branch repo_root location target : string)
| OpAdopt (env : Env) (w : string) (expected : MergeCandidate) (oid : string)
| OpAdmit (env : Env) (rq : MergeClaimRequest) (token : string) (identity : ClaimIdentity)
| OpRenew (env : Env) (c : MergeClaim) (lease : Z)
| OpSettle (c : MergeClaim)
| OpRelease (c : MergeClaim)
| OpConsume (env : Env) (c : MergeClaim) (max : N)
| OpRefund (env : Env) (c : MergeClaim)
| OpWrite (env : Env) (c : MergeClaim) (status : string) (f : MergeStatusFields) (base : option string)
| OpReplace (env : Env) (w status : string) (f : MergeStatusFields)
| OpUpdate (env : Env) (w status : string) (f : MergeStatusFields)
| OpBackfill (expected : MergeQueueRow) (oid : string)
| OpTarget (env : Env) (w target : string)
| OpAttempts (env : Env) (w : string) (n : N)
| OpRetry (env : Env) (w : string)
| OpRetryHeld (env : Env) (w : string)
| OpRemove (env : Env) (w actor : string)
| OpRefusal (env : Env) (w operation outcome : string)
| OpMark (expected : MergeQueueRow) (detail : string)
| OpPersist (env : Env) (observed : MergeOutcomeObservation) (o : MergeFinalOutcome)
| OpDeleteRow (w : string)
| OpDeleteEvents (w : string)
| OpRegistry (w : string) (g : option MergeRegistryIdentity).

Definition apply_op (op : Op) (db : MqDb) : MqDb :=
  match op with
  | OpReap env w => (reap_expired_landed_claim env w db).2
  | OpUpsert env w b t l i => (upsert_queued env w b t l i db).2
  | OpEnqueueIf env w b r l t => (enqueue_merge_if_worktree_matches env w b r l t db).2
  | OpAdopt env w e oid => (adopt_merge_candidate env w e oid db).2
  | OpAdmit env rq token i => (admit_merge_claim_tx env rq token i db).2
  | OpRenew env c l => (renew_merge_claim env c l db).2
  | OpSettle c => (settle_merge_claim_no_child c db).2
  | OpRelease c => (release_merge_claim c db).2
  | OpConsume env c m => (consume_merge_agent_attempt env c m db).2
  | OpRefund env c => (refund_merge_agent_attempt env c db).2
  | OpWrite env c s f b => (write_merge_status_claimed env c s f b db).2
  | OpReplace env w s f => (replace_merge_status env w s f db).2
  | OpUpdate env w s f => (update_merge_status env w s f db).2
  | OpBackfill e oid => (backfill_landed_result_oid e oid db).2
  | OpTarget env w t => (set_merge_target env w t db).2
  | OpAttempts env w n => (set_merge_agent_attempts env w n db).2
  | OpRetry env w => (retry_merge_entry env w db).2
  | OpRetryHeld env w => (retry_held_merge_entry env w db).2
  | OpRemove env w a => (remove_merge_entry_as env w a db).2
  | OpRefusal env w o out => (record_merge_refusal env w o out db).2
  | OpMark e d => (mark_cleanup e d db).2
  | OpPersist env obs o => (persist_merge_outcome env obs o db).2
  | OpDeleteRow w => delete_row w db
  | OpDeleteEvents w => delete_orphan_events w db
  | OpRegistry w g => set_registry w g db
  end.

(** The calls without a transaction are sequences of operations. *)
Lemma enqueue_is_ops env w b t c i db :
  (enqueue_merge_row env w b t c i db).2 =
  apply_op (OpUpsert env w b t (registered_location w db)
              (mkIdentCols (m_branch_ref <$> c) (m_candidate_oid <$> c) (common_dir <$> i) (admin_dir <$> i)))
    (apply_op (OpReap env w) db).
Proof.
  unfold enqueue_merge_row. cbn [apply_op]. destruct (reap_expired_landed_claim env w db) as [x db1] eqn:E.
  assert (registered_location w db1 = registered_location w db) as ->.
  { unfold reap_expired_landed_claim, update_where in E. repeat case_match; by simplify_eq/=. }
  cbn [snd]. by destruct (upsert_queued _ _ _ _ _ _ db1).
Qed.

Lemma del_worktree_is_ops env w db :
  del_worktree env w db =
  apply_op (OpDeleteEvents w) (apply_op (OpDeleteRow w) (apply_op (OpReap env w) (apply_op (OpRegistry w None) db))).
Proof. reflexivity. Qed.

(** ** What an operation can do to a row *)

(** One statement on the row of [w]. *)
Inductive becomes (w : string) : Op -> QRow -> QRow -> Prop :=
| B_reap op env r :
    (op = OpReap env w \/ (exists b p l t, op = OpEnqueueIf env w b p l t) \/ (exists a, op = OpRemove env w a)) ->
    q_status r = "landed" -> unclaimed r = false -> lease_lt r (now_ms env) = true ->
    becomes w op r (set_claim (claim_cleared (q_claim r)) r)
| B_requeue op b t at_ l n i r :
    (exists env, op = OpUpsert env w b t l i \/ (exists p l', l = Some l' /\ op = OpEnqueueIf env w b p l' t)) ->
    unclaimed r = true ->
    becomes w op r (mkQRow b t "queued" at_ at_ no_fields l n (q_claim r) i not_landed)
| B_adopt env e oid r :
    q_status r = "folding" -> becomes w (OpAdopt env w e oid) r (set_candidate oid (now env) r)
| B_take env rq token i r :
    rq_worktree rq = w -> admissible rq (now_ms env) r = true -> becomes w (OpAdmit env rq token i) r (taken rq token r)
| B_renew env c l r :
    c_worktree c = w -> live_for c (now_ms env) r = true -> becomes w (OpRenew env c l) r (with_lease l r)
| B_settle c r :
    c_worktree c = w -> owned_by c r = true -> in_phase ClaimedNoChild r = true -> becomes w (OpSettle c) r (with_phase Settled r)
| B_release c r :
    c_worktree c = w -> owned_by c r = true -> in_phase Settled r = true ->
    becomes w (OpRelease c) r (set_claim (claim_cleared (q_claim r)) r)
| B_consume env c m r :
    c_worktree c = w -> live_for c (now_ms env) r = true -> (q_attempts r < m)%N ->
    becomes w (OpConsume env c m) r (set_attempts (q_attempts r + 1) (now env) r)
| B_refund env c r :
    c_worktree c = w -> live_for c (now_ms env) r = true -> becomes w (OpRefund env c) r (set_attempts (q_attempts r - 1) (now env) r)
| B_write env c s f b r :
    c_worktree c = w -> writable_by c (now_ms env) r = true -> is_Some (mq_parse s) ->
    (s = "landed" -> nonempty_oid (result_oid f) = true) ->
    becomes w (OpWrite env c s f b) r (q_set_status s (now env) f (landing_cols s b r) r)
| B_status op s at_ f l r :
    (exists env, op = OpReplace env w s f) \/ (exists env f', op = OpUpdate env w s f') ->
    unclaimed r = true -> is_Some (mq_parse s) -> (s = "landed" -> nonempty_oid (result_oid f) = true) ->
    (l = not_landed \/ s = "landed") ->
    becomes w op r (q_set_status s at_ f l r)
| B_backfill e oid r :
    w_worktree e = w -> q_status r = "landed" -> nonempty_oid (result_oid (q_fields r)) = false -> is_empty oid = false ->
    becomes w (OpBackfill e oid) r (set_fields (mkFields (Some oid) (conflict_paths (q_fields r)) (error_detail (q_fields r))) r)
| B_target env t r : unclaimed r = true -> becomes w (OpTarget env w t) r (set_target t (now env) r)
| B_attempts env n r : unclaimed r = true -> becomes w (OpAttempts env w n) r (set_attempts n (now env) r)
| B_rearm op env r :
    op = OpRetry env w \/ op = OpRetryHeld env w -> unclaimed r = true -> becomes w op r (rearmed (now env) r)
| B_mark e d r :
    w_worktree e = w -> q_status r = "landed" -> becomes w (OpMark e d) r (set_detail d r)
| B_outcome env obs o l r :
    f_worktree o = w -> unclaimed r = true -> (f_status o = FLanded -> nonempty_oid (result_oid (f_fields o)) = true) ->
    becomes w (OpPersist env obs o) r (outcome_row env o l (Some r)).

Inductive creates (w : string) : Op -> QRow -> Prop :=
| C_requeue op b t at_ l i :
    (exists env, op = OpUpsert env w b t l i \/ (exists p l', l = Some l' /\ op = OpEnqueueIf env w b p l' t)) ->
    creates w op (mkQRow b t "queued" at_ at_ no_fields l 0 fresh_claim i not_landed)
| C_outcome env obs o l :
    f_worktree o = w -> (f_status o = FLanded -> nonempty_oid (result_oid (f_fields o)) = true) ->
    creates w (OpPersist env obs o) (outcome_row env o l None).

Definition deletes (w : string) (op : Op) : Prop := op = OpDeleteRow w \/ exists env a, op = OpRemove env w a.

(** The row of [w] before and after an operation. *)
Definition row_effect (w : string) (op : Op) (before after : option QRow) : Prop :=
  match before, after with
  | Some r, Some r' => rtc (becomes w op) r r'
  | Some r, None => exists r1, rtc (becomes w op) r r1 /\ unclaimed r1 = true /\ deletes w op
  | None, Some r' => creates w op r'
  | None, None => True
  end.

Lemma row_effect_refl w op o : row_effect w op o o.
Proof. destruct o; simpl; [apply rtc_refl|done]. Qed.

Lemma update_effect w op w' p f db :
  (forall r, w = w' -> p r = true -> becomes w op r (f r)) ->
  row_effect w op (queue db !! w) (queue (update_where w' p f db).2 !! w).
Proof.
  intros H. unfold update_where. destruct (queue db !! w') as [r|] eqn:E; [|apply row_effect_refl].
  destruct (p r) eqn:Ep; [|apply row_effect_refl]. cbn [snd set_queue queue].
  destruct (decide (w = w')) as [<-|Hne].
  - rewrite E, lookup_insert_eq. apply rtc_once. by apply H.
  - rewrite lookup_insert_ne by done. apply row_effect_refl.
Qed.

Lemma upsert_effect w op env w' b t l i db :
  (w = w' -> exists env, op = OpUpsert env w b t l i \/ (exists p l', l = Some l' /\ op = OpEnqueueIf env w b p l' t)) ->
  row_effect w op (queue db !! w) (queue (upsert_queued env w' b t l i db).2 !! w).
Proof.
  intros H. unfold upsert_queued. destruct (queue db !! w') as [r|] eqn:E.
  - destruct (unclaimed r) eqn:Ec; [|apply row_effect_refl]. cbn [snd set_queue queue].
    destruct (decide (w = w')) as [<-|Hne]; [|rewrite lookup_insert_ne by done; apply row_effect_refl].
    rewrite E, lookup_insert_eq. apply rtc_once. constructor; auto.
  - cbn [snd set_queue queue]. destruct (decide (w = w')) as [<-|Hne]; [|rewrite lookup_insert_ne by done; apply row_effect_refl].
    rewrite E, lookup_insert_eq. constructor. auto.
Qed.

(** An operation that reaps first. *)
Lemma reap_then w op env w' db db' :
  (op = OpReap env w' \/ (exists b p l t, op = OpEnqueueIf env w' b p l t) \/ (exists a, op = OpRemove env w' a)) ->
  let db1 := (reap_expired_landed_claim env w' db).2 in
  row_effect w op (queue db1 !! w) (queue db' !! w) -> row_effect w op (queue db !! w) (queue db' !! w).
Proof.
  intros Hop db1 H. assert (row_effect w op (queue db !! w) (queue db1 !! w)) as H1.
  { apply update_effect. intros r -> [ [Hs Hc]%andb_true_iff Hl]%andb_true_iff.
    apply (B_reap w' op env); [done|by apply String.eqb_eq|by apply negb_true_iff|done]. }
  assert (is_Some (queue db !! w) <-> is_Some (queue db1 !! w)) as Hi.
  { unfold db1, reap_expired_landed_claim, update_where. repeat case_match; try done. cbn [snd set_queue queue].
    rewrite lookup_insert_is_Some. split; [destruct (decide (w' = w)); auto|intros [<-|[_ ?] ]; [by eexists|done] ]. }
  destruct (queue db !! w) as [r|], (queue db1 !! w) as [r1|]; try (exfalso; destruct Hi as [Hi1 Hi2]; first [destruct Hi1; by eauto|destruct Hi2; by eauto]).
  - cbn in H1. destruct (queue db' !! w); cbn in *; [by etrans|]. destruct H as (r2 & ? & ? & ?). exists r2. split_and!; [by etrans|done..].
  - exact H.
Qed.

Lemma commit_effect {A} w op (r : result MqError A) db db1 :
  row_effect w op (queue db !! w) (queue db1 !! w) ->
  row_effect w op (queue db !! w) (queue (commit r db db1).2 !! w).
Proof. intros H. destruct r; [done|apply row_effect_refl]. Qed.

Lemma ensure_ok b why : ensure b why = Ok tt <-> b = true.
Proof. destruct b; simpl; split; congruence. Qed.

Lemma known_ok s x : ensure_known_merge_status s = Ok x -> is_Some (mq_parse s).
Proof. unfold ensure_known_merge_status. by destruct (mq_parse s); [eexists|]. Qed.

Lemma rbind_ok {E A B} (m : result E A) (k : A -> result E B) y : rbind m k = Ok y <-> exists x, m = Ok x /\ k x = Ok y.
Proof. destruct m; simpl; naive_solver. Qed.

Lemma landed_ok s f x : landed_has_oid s f = Ok x -> s = "landed" -> nonempty_oid (result_oid f) = true.
Proof. destruct x. unfold landed_has_oid. rewrite ensure_ok. intros H ->. done. Qed.

(** The checks of an outcome: what it needs of the object id. *)
Lemma outcome_ok obs o x : validate_merge_outcome obs o = Ok x -> f_status o = FLanded -> nonempty_oid (result_oid (f_fields o)) = true.
Proof.
  destruct x. unfold validate_merge_outcome. rewrite !rbind_ok. intros (? & _ & H). revert H. rewrite !rbind_ok.
  intros (? & _ & H). revert H. rewrite !rbind_ok. intros (? & _ & H). revert H. rewrite rbind_ok. intros (? & _ & H) E.
  rewrite E in H. by rewrite ensure_ok in H.
Qed.

Ltac split_andb := repeat match goal with H : _ && _ = true |- _ => apply andb_true_iff in H as [? ?] end.

Ltac let_update :=
  match goal with
  | |- context [update_where ?w ?p ?f ?db] =>
      let x := fresh "changed" in let d := fresh "db1" in let E := fresh "E" in
      destruct (update_where w p f db) as [x d] eqn:E;
      replace d with (update_where w p f db).2 by (by rewrite E); clear E
  end.

Lemma enqueue_if_effect w env w' b p l t db :
  row_effect w (OpEnqueueIf env w' b p l t) (queue db !! w) (queue (apply_op (OpEnqueueIf env w' b p l t) db) !! w).
Proof.
  cbn [apply_op]. unfold enqueue_merge_if_worktree_matches. case_match; [apply row_effect_refl|].
  pose proof (reap_then w (OpEnqueueIf env w' b p l t) env w' db) as R.
  destruct (reap_expired_landed_claim env w' db) as [x db1]. cbn [snd] in R.
  pose proof (upsert_effect w (OpEnqueueIf env w' b p l t) env w' b t (Some l) (mkIdentCols None None None None) db1) as U.
  destruct (upsert_queued env w' b t (Some l) _ db1) as [ch db2]. cbn [snd] in U.
  destruct ch; [|apply row_effect_refl]. cbn [snd]. apply R; [right; left; by eauto|]. apply U. intros ->.
  exists env. right. by eauto.
Qed.

Lemma remove_effect w env w' a db :
  row_effect w (OpRemove env w' a) (queue db !! w) (queue (apply_op (OpRemove env w' a) db) !! w).
Proof.
  cbn [apply_op]. unfold remove_merge_entry_as. pose proof (reap_then w (OpRemove env w' a) env w' db) as R.
  destruct (reap_expired_landed_claim env w' db) as [x db1]. cbn [snd] in R.
  apply R; [right; right; by eauto|]. destruct (queue db1 !! w') as [r|] eqn:E; [|apply row_effect_refl].
  destruct (unclaimed r) eqn:Ec; cbn [negb snd record_merge_event queue set_queue]; [|apply row_effect_refl].
  destruct (decide (w = w')) as [->|Hne]; [|rewrite lookup_delete_ne by done; apply row_effect_refl].
  rewrite E, lookup_delete_eq. exists r. split_and!; [apply rtc_refl|done|right; by eauto].
Qed.

Lemma write_effect w env c s f b db :
  row_effect w (OpWrite env c s f b) (queue db !! w) (queue (apply_op (OpWrite env c s f b) db) !! w).
Proof.
  cbn [apply_op]. unfold write_merge_status_claimed.
  destruct (let? _ := _ in _) as [ [] | ] eqn:V; [|apply row_effect_refl].
  apply rbind_ok in V as (x & V1 & V2). destruct (update_where _ _ _ db) as [changed db1] eqn:E.
  destruct changed; [|apply row_effect_refl]. cbn [negb]. apply commit_effect.
  match goal with |- row_effect _ _ _ (queue ?d !! _) => replace (queue d) with (queue db1) by (by repeat case_match) end.
  apply (f_equal snd) in E. cbn [snd] in E. subst db1. apply update_effect. intros r -> Hp.
  constructor; [done|done|by eapply known_ok|by eapply landed_ok].
Qed.

Lemma persist_effect w env obs o db :
  row_effect w (OpPersist env obs o) (queue db !! w) (queue (apply_op (OpPersist env obs o) db) !! w).
Proof.
  cbn [apply_op]. unfold persist_merge_outcome. destruct (validate_merge_outcome obs o) eqn:V; [|apply row_effect_refl].
  destruct (is_claimed (f_worktree o) db) eqn:Ec; [apply row_effect_refl|].
  do 3 (case_match; [apply row_effect_refl|]). cbn [snd].
  set (l := match o_registry obs with Some g => _ | None => _ end). clearbody l.
  match goal with |- row_effect _ _ _ (queue ?d !! _) =>
    replace (queue d) with (<[f_worktree o := outcome_row env o l (queue db !! f_worktree o)]> (queue db))
      by (by match goal with |- context [queue (if ?b then _ else _)] => destruct b end) end.
  destruct (decide (w = f_worktree o)) as [->|Hne]; [|rewrite lookup_insert_ne by done; apply row_effect_refl].
  rewrite lookup_insert_eq. unfold is_claimed in Ec. destruct (queue db !! f_worktree o) as [r|].
  - apply rtc_once. constructor; [done|by apply negb_false_iff|by eapply outcome_ok].
  - constructor; [done|by eapply outcome_ok].
Qed.

Lemma delete_row_effect w w' db : row_effect w (OpDeleteRow w') (queue db !! w) (queue (apply_op (OpDeleteRow w') db) !! w).
Proof.
  cbn [apply_op]. unfold delete_row. destruct (queue db !! w') as [r|] eqn:E; [|apply row_effect_refl].
  case_match eqn:Ep; [|apply row_effect_refl]. split_andb. cbn [set_queue queue].
  destruct (decide (w = w')) as [->|Hne]; [|rewrite lookup_delete_ne by done; apply row_effect_refl].
  rewrite E, lookup_delete_eq. exists r. split_and!; [apply rtc_refl|done|by left].
Qed.

Lemma retry_held_effect w env w' db : row_effect w (OpRetryHeld env w') (queue db !! w) (queue (apply_op (OpRetryHeld env w') db) !! w).
Proof.
  cbn [apply_op]. unfold retry_held_merge_entry. destruct (queue db !! w') as [r|] eqn:E; [|apply row_effect_refl].
  do 2 (case_match; [apply row_effect_refl|]). destruct (update_where _ _ _ db) as [changed db1] eqn:U.
  match goal with |- row_effect _ _ _ (queue ?d !! _) => replace (queue d) with (queue db1) by (by destruct changed) end.
  apply (f_equal snd) in U. cbn [snd] in U. subst db1.
  apply update_effect. intros r' -> Hp. split_andb. apply (B_rearm w' _ env); auto.
Qed.

Lemma update_status_effect w env w' s f db :
  row_effect w (OpUpdate env w' s f) (queue db !! w) (queue (apply_op (OpUpdate env w' s f) db) !! w).
Proof.
  cbn [apply_op]. unfold update_merge_status.
  destruct (let? _ := _ in _) as [ [] | ] eqn:V; [|apply row_effect_refl]. apply rbind_ok in V as (x & V1 & V2).
  let_update. apply commit_effect.
  unfold update_where. destruct (queue db !! w') as [r|] eqn:E; [|apply row_effect_refl].
  destruct (unclaimed r) eqn:Ec; [|apply row_effect_refl]. cbn [snd set_queue queue].
  destruct (decide (w = w')) as [->|Hne]; [|rewrite lookup_insert_ne by done; apply row_effect_refl].
  rewrite E, lookup_insert_eq. apply rtc_once. apply B_status; [right; by eauto|done|by eapply known_ok| |].
  - intros ->. unfold update_has_oid in V2. cbn [String.eqb negb] in V2. rewrite E in V2.
    apply rbind_ok in V2 as (? & _ & V2). by rewrite ensure_ok in V2.
  - destruct (String.eqb_spec s "landed"); auto.
Qed.

(** Everything an operation can do to the row of a worktree. *)
Lemma op_rows op db w : row_effect w op (queue db !! w) (queue (apply_op op db) !! w).
Proof.
  destruct op; auto using enqueue_if_effect, remove_effect, write_effect, persist_effect, delete_row_effect, retry_held_effect, update_status_effect;
    cbn [apply_op].
  - apply (reap_then w _ env w0); [by left|]. apply row_effect_refl.
  - apply upsert_effect. intros ->. exists env. by left.
  - unfold adopt_merge_candidate. let_update. apply update_effect. intros r -> ?. split_andb. constructor. by apply String.eqb_eq.
  - unfold admit_merge_claim_tx. do 2 (case_match; [apply row_effect_refl|]). let_update. apply commit_effect.
    apply update_effect. intros r -> ?. by constructor.
  - unfold renew_merge_claim. case_match; [|apply row_effect_refl]. let_update. apply commit_effect, update_effect.
    intros r -> ?. by constructor.
  - unfold settle_merge_claim_no_child. let_update. apply commit_effect, update_effect. intros r -> ?. split_andb. by constructor.
  - unfold release_merge_claim. let_update. apply update_effect. intros r -> ?. split_andb. by constructor.
  - unfold consume_merge_agent_attempt. let_update. apply update_effect. intros r -> ?. split_andb. constructor; try done. by apply N.ltb_lt.
  - unfold refund_merge_agent_attempt. let_update. apply update_effect. intros r -> ?. split_andb. by constructor.
  - unfold replace_merge_status. destruct (let? _ := _ in _) as [ [] | ] eqn:V; [|apply row_effect_refl].
    apply rbind_ok in V as (x & V1 & V2). let_update. apply commit_effect, update_effect. intros r -> ?.
    constructor; [left; by eauto|done|by eapply known_ok|by eapply landed_ok|by left].
  - unfold backfill_landed_result_oid. destruct (let? _ := _ in _) as [ [] | ] eqn:V; [|apply row_effect_refl].
    apply rbind_ok in V as ([] & V1 & V2). rewrite ensure_ok in V1. let_update. apply update_effect. intros r -> ?. split_andb.
    constructor; [done|by apply String.eqb_eq| |by apply negb_true_iff]. by apply negb_true_iff.
  - unfold set_merge_target, write_unclaimed. let_update. apply update_effect. intros r -> ?. by constructor.
  - unfold set_merge_agent_attempts, write_unclaimed. let_update. apply update_effect. intros r -> ?. by constructor.
  - unfold retry_merge_entry. let_update. apply update_effect. intros r -> ?. apply (B_rearm w0 _ env); auto.
  - unfold record_merge_refusal. case_match; apply row_effect_refl.
  - unfold mark_cleanup. case_match eqn:V; [apply row_effect_refl|]. let_update. apply update_effect.
    intros r -> Hr%bool_decide_eq_true. constructor; [done|].
    apply orb_false_iff in V as [ [V _]%orb_false_iff _]. apply negb_false_iff, String.eqb_eq in V.
    apply (f_equal w_status) in Hr. by rewrite V in Hr.
  - unfold delete_orphan_events. case_match; apply row_effect_refl.
  - apply row_effect_refl.
Qed.

(** ** Reachable stores *)

Definition empty_db : MqDb := mkMqDb ∅ ∅ [].

(** The tokens minted so far travel with the store: an admission uses a token
    that was not minted before, which is what [mint_claim_token] is for. *)
Definition minted_after (op : Op) (m : gset string) : gset string :=
  match op with OpAdmit _ _ token _ => {[token]} ∪ m | _ => m end.

Definition token_fresh (m : gset string) (op : Op) : Prop :=
  match op with OpAdmit _ _ token _ => token ∉ m | _ => True end.

Inductive mq_step : gset string * MqDb -> gset string * MqDb -> Prop :=
| Mq_step m db op : token_fresh m op -> mq_step (m, db) (minted_after op m, apply_op op db).

Definition Reachable (m : gset string) (db : MqDb) : Prop := rtc mq_step (∅, empty_db) (m, db).

(** A row: the claim columns agree, the status is a word of the vocabulary, a
    landed row names its result, and only a landed row has provenance. *)
Record row_wf (r : QRow) : Prop := {
  wf_claim :
    (claim_owner (q_claim r) = None /\ claim_phase (q_claim r) = "unclaimed" /\ claim_lease_until_ms (q_claim r) = None) \/
    (is_Some (claim_owner (q_claim r)) /\ is_Some (claim_lease_until_ms (q_claim r)) /\
     (claim_phase (q_claim r) = "claimed_no_child" \/ claim_phase (q_claim r) = "settled") /\ 1 <= claim_generation (q_claim r));
  wf_generation : 0 <= claim_generation (q_claim r) <= i64_max;
  wf_status : is_Some (mq_parse (q_status r));
  wf_landed : q_status r = "landed" -> nonempty_oid (result_oid (q_fields r)) = true;
  wf_provenance : q_landed r = not_landed \/ q_status r = "landed";
}.

Definition db_wf (db : MqDb) : Prop :=
  (forall w r, queue db !! w = Some r -> row_wf r) /\
  (forall w, (length (List.filter (is_of w) (events db)) <= MERGE_QUEUE_EVENTS_PER_WORKTREE)%nat).

Lemma unclaimed_iff r : unclaimed r = true <-> claim_owner (q_claim r) = None.
Proof. unfold unclaimed. by rewrite bool_decide_eq_true. Qed.

Lemma owned_claimed c r : owned_by c r = true -> claim_owner (q_claim r) = Some (c_owner_token c).
Proof. unfold owned_by. intros [H _]%andb_true_iff. by apply bool_decide_eq_true in H. Qed.

Ltac row_case Hwf :=
  destruct Hwf as [Hc Hg Hs Hl Hp];
  split; cbn [set_claim q_set_status set_attempts set_fields set_target set_candidate set_detail rearmed taken with_lease with_phase
              outcome_row q_claim q_status q_fields q_landed claim_cleared claim_owner claim_generation claim_phase claim_lease_until_ms
              result_oid conflict_paths error_detail];
  try done.

Lemma status_words s : s = "queued" \/ (exists x, s = final_as_str x) -> is_Some (mq_parse s).
Proof. intros [->|[ [] ->] ]; by eexists. Qed.

Lemma becomes_wf w op r r' : becomes w op r r' -> row_wf r -> row_wf r'.
Proof.
  intros H Hwf. destruct H; row_case Hwf; auto.
  - right. split_and!; [by eexists|by eexists|by left|lia].
  - unfold admissible in *. split_andb. match goal with H : (_ <? i64_max) = true |- _ => apply Z.ltb_lt in H end. lia.
  - destruct Hc as [(Hn & _)|(?&?&?&?)]; [|right; by split_and!; [|eexists|..] ].
    unfold live_for in *. split_andb. by match goal with H : owned_by _ _ = true |- _ => apply owned_claimed in H; rewrite H in Hn end.
  - destruct Hc as [(Hn & _)|(?&?&?&?)]; [|right; split_and!; auto].
    by match goal with H : owned_by _ _ = true |- _ => apply owned_claimed in H; rewrite H in Hn end.
  - unfold landing_cols. case_match eqn:E; [right|by left]. apply andb_true_iff in E as [E _]. by apply String.eqb_eq.
  - intros _. simpl. by apply negb_true_iff.
  - apply status_words; right; by eexists.
  - destruct (f_status o) eqn:E; intros; try done. auto.
Qed.

Lemma creates_wf w op r : creates w op r -> row_wf r.
Proof.
  intros H. destruct H.
  - split; cbn; [left; by split_and!|unfold i64_max; lia|by eexists|done|by left].
  - split; cbn; [left; by split_and!|unfold i64_max; lia|apply status_words; right; by eexists| |by left].
    destruct (f_status o); intros; try done. auto.
Qed.

Lemma rows_wf op db : (forall w r, queue db !! w = Some r -> row_wf r) -> forall w r, queue (apply_op op db) !! w = Some r -> row_wf r.
Proof.
  intros H w r E. pose proof (op_rows op db w) as He. rewrite E in He. destruct (queue db !! w) as [r0|] eqn:E0.
  - simpl in He. apply H in E0. clear E. induction He; eauto using becomes_wf.
  - eapply creates_wf. exact He.
Qed.

(** ** The audit trail *)

Lemma prune_of w n l : List.filter (is_of w) (prune_events w n l) = drop n (List.filter (is_of w) l).
Proof.
  revert n. induction l as [|e l IH]; intros n; simpl; [by destruct n|].
  destruct (is_of w e) eqn:E; simpl; [|rewrite E; apply IH].
  destruct n; simpl; [rewrite E, IH; by destruct (List.filter _ l)|apply IH].
Qed.

Lemma prune_other w w' n l : w <> w' -> List.filter (is_of w') (prune_events w n l) = List.filter (is_of w') l.
Proof.
  intros Hne. revert n. induction l as [|e l IH]; intros n; simpl; [done|].
  destruct (is_of w e) eqn:E; simpl.
  - apply String.eqb_eq in E. assert (is_of w' e = false) as Hf by (apply String.eqb_neq; congruence).
    rewrite Hf. destruct n; simpl; [by rewrite Hf, IH|apply IH].
  - by rewrite IH.
Qed.

(** Recording adds the event as the newest of its worktree, keeps the newest two
    hundred, and leaves the trails of the others alone. *)
Lemma record_trail e db w :
  List.filter (is_of w) (events (record_merge_event e db)) =
  if is_of w e then
    let l := List.filter (is_of w) (events db) ++ [e] in drop (length l - MERGE_QUEUE_EVENTS_PER_WORKTREE) l
  else List.filter (is_of w) (events db).
Proof.
  unfold record_merge_event. cbn [events]. destruct (is_of w e) eqn:E.
  - assert (e_worktree e = w) as -> by (by apply String.eqb_eq in E). rewrite prune_of, List.filter_app. cbn [List.filter].
    by rewrite E.
  - rewrite prune_other, List.filter_app by (intros H; unfold is_of in E; by rewrite H, String.eqb_refl in E).
    cbn [List.filter]. by rewrite E, app_nil_r.
Qed.

Lemma record_bounded e db :
  (forall w, (length (List.filter (is_of w) (events db)) <= MERGE_QUEUE_EVENTS_PER_WORKTREE)%nat) ->
  forall w, (length (List.filter (is_of w) (events (record_merge_event e db))) <= MERGE_QUEUE_EVENTS_PER_WORKTREE)%nat.
Proof.
  intros H w. rewrite record_trail. destruct (is_of w e); [|done]. cbn zeta. rewrite length_drop. lia.
Qed.

Lemma update_where_events w p f db : events (update_where w p f db).2 = events db.
Proof. unfold update_where. by repeat case_match. Qed.

Lemma op_events op db :
  (exists e, events (apply_op op db) = events (record_merge_event e db)) \/
  (exists w, events (apply_op op db) = List.filter (fun e => negb (is_of w e)) (events db)) \/
  events (apply_op op db) = events db.
Proof.
  assert (forall A (r : result MqError A) a b, events a = events b -> events (commit r a b).2 = events a) as Hc
    by (intros A [x|x] a b H; simpl; congruence).
  assert (forall env w d, events (reap_expired_landed_claim env w d).2 = events d) as Hr by (intros; apply update_where_events).
  assert (forall env w b t l i d, events (upsert_queued env w b t l i d).2 = events d) as Hu
    by (intros; unfold upsert_queued; by repeat case_match).
  destruct op; cbn [apply_op]; auto.
  - right; right. unfold enqueue_merge_if_worktree_matches. case_match; [done|].
    pose proof (Hr env w db). destruct (reap_expired_landed_claim env w db) as [x d1].
    pose proof (Hu env w branch target (Some location) (mkIdentCols None None None None) d1).
    destruct (upsert_queued _ _ _ _ _ _ d1) as [ [] d2]; cbn [snd] in *; congruence.
  - right; right. unfold adopt_merge_candidate. let_update. apply update_where_events.
  - right; right. unfold admit_merge_claim_tx. do 2 (case_match; [done|]). let_update. apply Hc. by rewrite update_where_events.
  - right; right. unfold renew_merge_claim. case_match; [|done]. let_update. apply Hc. by rewrite update_where_events.
  - right; right. unfold settle_merge_claim_no_child. let_update. apply Hc. by rewrite update_where_events.
  - right; right. unfold release_merge_claim. let_update. apply update_where_events.
  - right; right. unfold consume_merge_agent_attempt. let_update. apply update_where_events.
  - right; right. unfold refund_merge_agent_attempt. let_update. apply update_where_events.
  - unfold write_merge_status_claimed. case_match; [|auto]. destruct (update_where _ _ _ db) as [ch d1] eqn:U.
    assert (events d1 = events db) as Hd by (rewrite <- (update_where_events (c_worktree c) (writable_by c (now_ms env))
      (fun r => q_set_status status (now env) f (landing_cols status base r) r) db), U; done).
    destruct ch; [|auto]. cbn [negb]. case_match; [case_match|]; cbn [commit];
      match goal with |- context [commit ?r ?a ?b] => destruct r end; cbn [commit snd]; auto.
    left. eexists. unfold record_merge_event. cbn [events]. by rewrite Hd.
  - right; right. unfold replace_merge_status. case_match; [|done]. let_update. apply Hc. by rewrite update_where_events.
  - right; right. unfold update_merge_status. case_match; [|done]. let_update. apply Hc. by rewrite update_where_events.
  - right; right. unfold backfill_landed_result_oid. case_match; [|done]. let_update. apply update_where_events.
  - right; right. unfold set_merge_target, write_unclaimed. let_update. apply update_where_events.
  - right; right. unfold set_merge_agent_attempts, write_unclaimed. let_update. apply update_where_events.
  - right; right. unfold retry_merge_entry. let_update. apply update_where_events.
  - unfold retry_held_merge_entry. destruct (queue db !! w); [|auto]. do 2 (case_match; [left; by eexists|]).
    destruct (update_where _ _ _ db) as [ch d1] eqn:U. apply (f_equal (fun x => events x.2)) in U. rewrite update_where_events in U.
    cbn [snd] in U. left. destruct ch; eexists; unfold record_merge_event; cbn [snd events]; by rewrite <- U.
  - unfold remove_merge_entry_as. pose proof (Hr env w db) as Hd. destruct (reap_expired_landed_claim env w db) as [x d1].
    cbn [snd] in Hd. destruct (queue d1 !! w); [|auto]. left.
    case_match; eexists; unfold record_merge_event, set_queue; cbn [snd events]; by rewrite Hd.
  - unfold record_merge_refusal. case_match; [left; by eexists|auto].
  - right; right. unfold mark_cleanup. case_match; [done|]. let_update. apply update_where_events.
  - unfold persist_merge_outcome. case_match; [|auto]. do 4 (case_match; [auto|]). cbn [snd].
    match goal with |- context [if ?b then _ else _] => destruct b end; [left; by eexists|auto].
  - right; right. unfold delete_row. by repeat case_match.
  - unfold delete_orphan_events. case_match; [auto|]. right; left. by eexists.
Qed.

Lemma filter_filter_le {A} (f g : A -> bool) l : (length (List.filter f (List.filter g l)) <= length (List.filter f l))%nat.
Proof. induction l as [|x l IH]; simpl; [done|]. destruct (g x), (f x) eqn:E; simpl; rewrite ?E; simpl; lia. Qed.

Lemma op_wf op db : db_wf db -> db_wf (apply_op op db).
Proof.
  intros [Hq He]. split; [by apply rows_wf|].
  destruct (op_events op db) as [ [e ->]|[ [w ->]| ->] ]; [by apply record_bounded| |done].
  intros w'. pose proof (filter_filter_le (is_of w') (fun e => negb (is_of w e)) (events db)). specialize (He w'). lia.
Qed.

Lemma steps_wf s s' : rtc mq_step s s' -> db_wf s.2 -> db_wf s'.2.
Proof. induction 1 as [|x y z H _ IH]; [done|]. intros Hw. apply IH. destruct H. by apply op_wf. Qed.

Lemma empty_wf : db_wf empty_db.
Proof. split; [intros w r H; change (queue empty_db) with (∅ : gmap string QRow) in H; by rewrite lookup_empty in H|intros w; simpl; lia]. Qed.

Lemma mq_reachable_wf m db : Reachable m db -> db_wf db.
Proof. intros H. apply steps_wf in H; [done|apply empty_wf]. Qed.

(** C30. In every store that operations reach, in any order and with any clocks:
    a row has an owner exactly when it has a lease and a claimed phase, its status
    is a word of the vocabulary, a landed row names the result it landed, only a
    landed row names a source and a base, and no worktree has more than two
    hundred audit events. *)
Theorem merge_rows_sound m db :
  Reachable m db ->
  (forall w r, queue db !! w = Some r ->
    (is_Some (claim_owner (q_claim r)) <-> is_Some (claim_lease_until_ms (q_claim r))) /\
    (claim_owner (q_claim r) = None <-> claim_phase (q_claim r) = "unclaimed") /\
    (exists s, q_status r = mq_as_str s) /\
    (q_status r = "landed" -> exists oid, result_oid (q_fields r) = Some oid /\ oid <> "") /\
    (merge_landed_provenance w db = None -> q_landed r = not_landed)) /\
  (forall w limit, (length (merge_queue_events w limit db) <= MERGE_QUEUE_EVENTS_PER_WORKTREE)%nat).
Proof.
  intros [Hq He]%mq_reachable_wf. split.
  - intros w r E. destruct (Hq w r E) as [Hc _ [s Hs] Hl Hp].
    assert (q_status r = "landed" -> exists oid, result_oid (q_fields r) = Some oid /\ oid <> "") as Ho.
    { intros E'. specialize (Hl E'). destruct (result_oid (q_fields r)) as [ [|b o]|]; [done| |done]. by eexists. }
    split_and!.
    + destruct Hc as [(-> & _ & ->)|(?&?&_)]; [done|tauto].
    + destruct Hc as [(-> & -> & _)|([t ->] & _ & [->| ->] & _)]; done.
    + exists s. by apply mq_parse_iff.
    + exact Ho.
    + unfold merge_landed_provenance. rewrite E. destruct Hp as [->|Hp]; [done|]. rewrite Hp, String.eqb_refl, Hl by done. done.
  - intros w limit. unfold merge_queue_events. rewrite length_take, length_rev. specialize (He w). lia.
Qed.

(** ** Fencing *)

Definition owner_at (db : MqDb) (w : string) : option string := queue db !! w ≫= (fun r => claim_owner (q_claim r)).

(** Where the owner of a row comes from. *)
Lemma becomes_owner w op r r' :
  becomes w op r r' ->
  claim_owner (q_claim r') = claim_owner (q_claim r) \/ claim_owner (q_claim r') = None \/
  exists env rq token i, op = OpAdmit env rq token i /\ claim_owner (q_claim r') = Some token.
Proof. intros H. destruct H; cbn; auto. right; right. by repeat eexists. Qed.

Lemma op_owner op db w t :
  owner_at (apply_op op db) w = Some t -> owner_at db w = Some t \/ exists env rq i, op = OpAdmit env rq t i.
Proof.
  unfold owner_at. pose proof (op_rows op db w) as He. destruct (queue (apply_op op db) !! w) as [r'|]; [|done].
  cbn [mbind option_bind]. intros Ht. destruct (queue db !! w) as [r|]; cbn in He |- *.
  - revert Ht. induction He as [|a b c Hab _ IH]; [auto|]. intros Ht. destruct (IH Ht) as [Hb|]; [|auto].
    destruct (becomes_owner _ _ _ _ Hab) as [E|[E|(env & rq & tok & i & -> & E)] ]; rewrite E in Hb; [auto|done|].
    injection Hb as ->. right. by repeat eexists.
  - destruct He; done.
Qed.

(** A token names at most one row, and was minted. *)
Definition tokens_ok (s : gset string * MqDb) : Prop :=
  (forall w t, owner_at s.2 w = Some t -> t ∈ s.1) /\
  (forall w w' t, owner_at s.2 w = Some t -> owner_at s.2 w' = Some t -> w = w').

Lemma minted_grows op m : m ⊆ minted_after op m.
Proof. destruct op; set_solver. Qed.

Lemma admit_only_row env rq token i db w :
  w <> rq_worktree rq -> queue (apply_op (OpAdmit env rq token i) db) !! w = queue db !! w.
Proof.
  intros Hne. cbn [apply_op]. unfold admit_merge_claim_tx. do 2 (case_match; [done|]).
  destruct (update_where _ _ _ db) as [ch d1] eqn:U. apply (f_equal snd) in U. cbn [snd] in U. subst d1.
  assert (queue (update_where (rq_worktree rq) (admissible rq (now_ms env)) (taken rq token) db).2 !! w = queue db !! w) as Hu.
  { unfold update_where. repeat case_match; try done. cbn. by rewrite lookup_insert_ne. }
  match goal with |- context [commit ?r _ _] => destruct r end; done.
Qed.

Lemma tokens_step s s' : mq_step s s' -> tokens_ok s -> tokens_ok s'.
Proof.
  intros [m db op Hf] [H1 H2]. split; cbn [fst snd] in *.
  - intros w t [Ho|(env & rq & i & ->)]%op_owner; [by apply (minted_grows op), (H1 w)|]. cbn. set_solver.
  - intros w w' t Hw Hw'. pose proof (op_owner _ _ _ _ Hw) as A. pose proof (op_owner _ _ _ _ Hw') as B.
    assert (forall env rq i, op = OpAdmit env rq t i -> forall v, owner_at db v <> Some t) as Hno.
    { intros env rq i -> v Hv. by apply Hf, (H1 v). }
    destruct A as [A|(env & rq & i & ->)].
    + destruct B as [B|(env & rq & i & ->)]; [by apply (H2 w w' t)|]. by destruct (Hno _ _ _ eq_refl w).
    + assert (forall v, owner_at (apply_op (OpAdmit env rq t i) db) v = Some t -> v = rq_worktree rq) as Hv.
      { intros v Hv. destruct (decide (v = rq_worktree rq)) as [|Hne]; [done|]. unfold owner_at in Hv.
        rewrite admit_only_row in Hv by done. by destruct (Hno _ _ _ eq_refl v). }
      by rewrite (Hv w), (Hv w').
Qed.

Lemma tokens_reachable m db : Reachable m db -> tokens_ok (m, db).
Proof.
  unfold Reachable. generalize (m, db). intros s H.
  assert (tokens_ok (∅, empty_db)) as H0 by (split; intros; unfold owner_at in *; simpl in *; simplify_eq).
  revert H0. induction H as [|x y z Hxy _ IH]; [done|]. intros Hx. by apply IH, (tokens_step x).
Qed.

(** A token that was minted and does not hold the row never holds it again. *)
Lemma lost_for_ever m db m' db' w t :
  rtc mq_step (m, db) (m', db') -> t ∈ m -> owner_at db w <> Some t -> owner_at db' w <> Some t.
Proof.
  intros H. remember (m, db) as s eqn:Es. remember (m', db') as s' eqn:Es'. revert m db Es.
  induction H as [s|s1 s2 s3 H _ IH]; intros m db ->; [by simplify_eq|]. inversion H as [m0 db0 op Hf]; subst.
  intros Hm Ho. eapply IH; [done|done| |].
  - by apply (minted_grows op).
  - intros [?|(env & rq & i & ->)]%op_owner; [done|]. by apply Hf.
Qed.

Lemma update_where_false w p f db :
  (forall r, queue db !! w = Some r -> p r = false) -> update_where w p f db = (false, db).
Proof. intros H. unfold update_where. destruct (queue db !! w) as [r|]; [|done]. by rewrite H. Qed.

Lemma not_owned c db r : owner_at db (c_worktree c) <> Some (c_owner_token c) -> queue db !! c_worktree c = Some r -> owned_by c r = false.
Proof.
  unfold owner_at. intros Ho E. rewrite E in Ho. cbn in Ho. unfold owned_by. by rewrite bool_decide_eq_false_2.
Qed.

Lemma lost_update c db (p : QRow -> bool) f :
  owner_at db (c_worktree c) <> Some (c_owner_token c) -> (forall r, p r = true -> owned_by c r = true) ->
  update_where (c_worktree c) p f db = (false, db).
Proof.
  intros Ho Hp. apply update_where_false. intros r E. destruct (p r) eqn:Ep; [|done].
  apply Hp in Ep. by rewrite (not_owned c db r) in Ep.
Qed.

(** C23. A drain that lost its claim stays locked out.  Once the row of a claim
    belongs to nobody or to another token - taken over, released, reaped or
    deleted - then however the store goes on, also when the row is queued again
    and its generation starts over, nothing the old holder presents is accepted,
    and nothing it does changes the store. *)
Theorem superseded_claim_inert m db m' db' c env :
  Reachable m db -> c_owner_token c ∈ m -> owner_at db (c_worktree c) <> Some (c_owner_token c) ->
  rtc mq_step (m, db) (m', db') ->
  release_merge_claim c db' = (Err MERGE_CLAIM_LOST, db') /\
  settle_merge_claim_no_child c db' = (Err MERGE_CLAIM_LOST, db') /\
  (forall lease, exists e, renew_merge_claim env c lease db' = (Err e, db')) /\
  (forall max, consume_merge_agent_attempt env c max db' = (Ok ClaimLost, db')) /\
  refund_merge_agent_attempt env c db' = (Ok false, db') /\
  (forall s f base, exists e, write_merge_status_claimed env c s f base db' = (Err e, db')).
Proof.
  intros _ Hm Ho Hs. pose proof (lost_for_ever _ _ _ _ _ _ Hs Hm Ho) as Hl. clear Ho Hs.
  split_and!.
  - unfold release_merge_claim. rewrite lost_update; [done|done|]. intros r ?. by split_andb.
  - unfold settle_merge_claim_no_child. rewrite lost_update; [done|done|]. intros r ?. by split_andb.
  - intros lease. unfold renew_merge_claim. case_match; [|by eexists]. rewrite lost_update; [by eexists|done|].
    unfold live_for. intros r ?. by split_andb.
  - intros max. unfold consume_merge_agent_attempt. rewrite lost_update; [|done|unfold live_for; intros r ?; by split_andb].
    destruct (queue db' !! c_worktree c) as [r|] eqn:E; [|done]. unfold live_for. by rewrite (not_owned c db' r).
  - unfold refund_merge_agent_attempt. rewrite lost_update; [done|done|]. unfold live_for. intros r ?. by split_andb.
  - intros s f base. unfold write_merge_status_claimed. case_match; [|by eexists].
    rewrite lost_update; [by eexists|done|]. unfold writable_by. intros r ?. by split_andb.
Qed.

(** ** Exclusion *)

(** The row and token a claimed operation presents. *)
Definition acts_for (op : Op) : option (string * string) :=
  match op with
  | OpRenew _ c _ | OpSettle c | OpRelease c | OpConsume _ c _ | OpRefund _ c | OpWrite _ c _ _ _ =>
      Some (c_worktree c, c_owner_token c)
  | _ => None
  end.

(** The clock of the operations that look at leases they do not own. *)
Definition op_ms (op : Op) : option Z :=
  match op with
  | OpReap env _ | OpEnqueueIf env _ _ _ _ _ | OpAdmit env _ _ _ | OpRemove env _ _ => Some (now_ms env)
  | _ => None
  end.

(** Somebody else acts, while the lease runs. *)
Definition by_others (w token : string) (lease : Z) (op : Op) : Prop :=
  acts_for op <> Some (w, token) /\ forall ms, op_ms op = Some ms -> ms <= lease.

(** What others cannot change of a claimed row: everything but the tip of a
    folding row and the cleanup note of a landed one. *)
Record kept (r r' : QRow) : Prop := {
  k_branch : q_branch r' = q_branch r;
  k_target : q_target r' = q_target r;
  k_status : q_status r' = q_status r;
  k_queued : q_queued_at r' = q_queued_at r;
  k_location : q_location r' = q_location r;
  k_attempts : q_attempts r' = q_attempts r;
  k_claim : q_claim r' = q_claim r;
  k_landed : q_landed r' = q_landed r;
  k_result : result_oid (q_fields r') = result_oid (q_fields r);
  k_conflicts : conflict_paths (q_fields r') = conflict_paths (q_fields r);
  k_detail : q_status r <> "landed" -> q_fields r' = q_fields r;
  k_ident : q_status r <> "folding" -> q_ident r' = q_ident r /\ q_updated_at r' = q_updated_at r;
}.

Lemma kept_refl r : kept r r.
Proof. by split. Qed.

Lemma kept_trans a b c : kept a b -> kept b c -> kept a c.
Proof.
  intros Hab Hbc. pose proof (k_status _ _ Hab) as Es. destruct Hab, Hbc. split; try congruence.
  - intros H. rewrite k_detail1 by congruence. auto.
  - intros H. destruct (k_ident0 H), k_ident1; [congruence|]. split; congruence.
Qed.

Lemma unclaimed_owner r t : unclaimed r = true -> claim_owner (q_claim r) = Some t -> False.
Proof. rewrite unclaimed_iff. congruence. Qed.

Lemma becomes_kept w op r r' t lease :
  becomes w op r r' -> row_wf r -> claim_owner (q_claim r) = Some t -> claim_lease_until_ms (q_claim r) = Some lease ->
  by_others w t lease op -> kept r r'.
Proof.
  intros H Hwf Ht Hl [Ha Hms].
  assert (forall c, acts_for op = Some (c_worktree c, c_owner_token c) -> c_worktree c = w -> owned_by c r = true -> False) as Hno.
  { intros c Hc Hw Ho%owned_claimed. apply Ha. rewrite Hc, Hw. congruence. }
  assert (forall env, op_ms op = Some (now_ms env) -> lease_lt r (now_ms env) = true -> False) as Hlt.
  { intros env Hm. specialize (Hms _ Hm). unfold lease_lt. rewrite Hl. intros H'%Z.ltb_lt. lia. }
  destruct H; try (exfalso; eapply unclaimed_owner; eassumption); try (exfalso; unfold live_for, writable_by in *; split_andb; by eapply Hno).
  - exfalso. apply (Hlt env); [|done]. destruct H as [->|[(?&?&?&?& ->)|(? & ->)] ]; done.
  - split; try done.
  - exfalso. unfold admissible in *. split_andb. destruct (wf_claim r Hwf) as [(E & _)|(_ & _ & Hp & _)]; [congruence|].
    match goal with H : _ || _ = true |- _ => apply orb_true_iff in H as [H|H] end; split_andb.
    + destruct Hp as [E|E]; rewrite E in *; done.
    + by apply (Hlt env).
  - exfalso. pose proof (wf_landed r Hwf ltac:(done)). congruence.
  - split; try done.
Qed.

Lemma deletes_unclaimed w op r r' t :
  rtc (becomes w op) r r' -> row_wf r -> claim_owner (q_claim r) = Some t ->
  (exists l, claim_lease_until_ms (q_claim r) = Some l /\ by_others w t l op) -> kept r r' /\ row_wf r'.
Proof.
  induction 1 as [r|a b c Hab _ IH]; intros Hwf Ht (l & Hl & Ho); [split; [apply kept_refl|done]|].
  pose proof (becomes_kept _ _ _ _ _ _ Hab Hwf Ht Hl Ho) as Hk. pose proof (becomes_wf _ _ _ _ Hab Hwf) as Hwb.
  destruct IH as [Hk2 ?]; [done|by rewrite (k_claim _ _ Hk)|exists l; by rewrite (k_claim _ _ Hk)|].
  split; [by eapply kept_trans|done].
Qed.

Lemma op_kept op db w r t lease :
  db_wf db -> queue db !! w = Some r -> claim_owner (q_claim r) = Some t -> claim_lease_until_ms (q_claim r) = Some lease ->
  by_others w t lease op -> exists r', queue (apply_op op db) !! w = Some r' /\ kept r r'.
Proof.
  intros [Hq _] E Ht Hl Ho. pose proof (op_rows op db w) as He. rewrite E in He.
  destruct (queue (apply_op op db) !! w) as [r'|]; cbn in He.
  - exists r'. split; [done|]. eapply deletes_unclaimed; eauto.
  - exfalso. destruct He as (r1 & Hr & Hu & _). apply (deletes_unclaimed _ _ _ _ t) in Hr as [Hk _]; eauto.
    apply (unclaimed_owner r1 t Hu). by rewrite (k_claim _ _ Hk).
Qed.

Definition mq_run (ops : list Op) (db : MqDb) : MqDb := foldl (fun d op => apply_op op d) db ops.

Lemma run_wf ops db : db_wf db -> db_wf (mq_run ops db).
Proof. revert db. induction ops as [|op ops IH]; intros db H; [done|]. by apply IH, op_wf. Qed.

Lemma run_kept ops db w r t lease :
  db_wf db -> queue db !! w = Some r -> claim_owner (q_claim r) = Some t -> claim_lease_until_ms (q_claim r) = Some lease ->
  Forall (by_others w t lease) ops -> exists r', queue (mq_run ops db) !! w = Some r' /\ kept r r'.
Proof.
  intros Hwf E Ht Hl Ho. revert db r Hwf E Ht Hl. induction Ho as [|op ops Hop _ IH]; intros db r Hwf E Ht Hl; [by eauto using kept_refl|].
  destruct (op_kept op db w r t lease) as (r1 & E1 & K1); [done..|].
  destruct (IH (apply_op op db) r1) as (r2 & E2 & K2); [by apply op_wf|done|by rewrite (k_claim _ _ K1)..|].
  exists r2. split; [done|by eapply kept_trans].
Qed.

(** What an admission grants. *)
Lemma admit_spec env rq token i db c db' :
  admit_merge_claim_tx env rq token i db = (Ok (Some c), db') ->
  exists r, queue db !! rq_worktree rq = Some r /\ admissible rq (now_ms env) r = true /\ now_ms env < rq_lease_until_ms rq /\
    db' = set_queue (<[rq_worktree rq := taken rq token r]> (queue db)) db /\
    c_worktree c = rq_worktree rq /\ c_owner_token c = token /\ c_generation c = claim_generation (q_claim r) + 1 /\
    c_phase c = ClaimedNoChild /\ c_lease_until_ms c = rq_lease_until_ms rq.
Proof.
  unfold admit_merge_claim_tx. destruct (lease_in_range _ _) eqn:Hr; [|done]. destruct (identity_matches _ _ _); [|done]. cbn [negb].
  unfold update_where. destruct (queue db !! rq_worktree rq) as [r|] eqn:E; [|done].
  destruct (admissible rq (now_ms env) r) eqn:Ea; [|done]. unfold read_claim. cbn [set_queue queue].
  rewrite lookup_insert_eq. cbn. intros [= <- <-]. exists r. unfold lease_in_range in Hr. split_andb.
  split_and!; try done. by apply Z.ltb_lt.
Qed.

Lemma read_owned w repo db r t l :
  row_wf r -> queue db !! w = Some r -> claim_owner (q_claim r) = Some t -> claim_lease_until_ms (q_claim r) = Some l ->
  exists c, read_claim_or_lost w repo db = Ok c /\ c_generation c = claim_generation (q_claim r) /\ c_owner_token c = t /\ c_worktree c = w.
Proof.
  intros Hwf E Ht Hl. unfold read_claim_or_lost, read_claim, claim_from_row. rewrite E, Ht, Hl.
  destruct (wf_claim r Hwf) as [(? & _)|(_ & _ & [->| ->] & _)]; [congruence|..]; by eexists.
Qed.

(** A claim that holds its row with a running lease can write it. *)
Lemma holder_writes env c s f base db r :
  db_wf db -> queue db !! c_worktree c = Some r -> writable_by c (now_ms env) r = true -> is_Some (mq_parse s) ->
  (s = "landed" -> nonempty_oid (result_oid f) = true) ->
  exists c' db', write_merge_status_claimed env c s f base db = (Ok c', db') /\ c_generation c' = c_generation c /\
    c_owner_token c' = c_owner_token c /\ c_worktree c' = c_worktree c /\
    queue db' !! c_worktree c = Some (q_set_status s (now env) f (landing_cols s base r) r).
Proof.
  intros [Hq _] E Hw [m Hm] Hs. unfold write_merge_status_claimed, ensure_known_merge_status, landed_has_oid. rewrite Hm. cbn [rbind].
  rewrite (proj2 (ensure_ok _ _)); [|destruct (String.eqb_spec s "landed"); [rewrite Hs; done|done] ].
  unfold update_where. rewrite E, Hw. cbn [negb].
  match goal with |- context [commit (read_claim_or_lost _ _ ?x) _ _] => set (d := x) end.
  assert (queue d !! c_worktree c = Some (q_set_status s (now env) f (landing_cols s base r) r)) as Ed.
  { unfold d. case_match; cbn; by rewrite lookup_insert_eq. }
  assert (owned_by c r = true) as Ho by (unfold writable_by in Hw; by split_andb).
  pose proof (owned_claimed _ _ Ho) as Ht. unfold owned_by in Ho. split_andb.
  pose proof (Hq _ _ E) as Hwf. destruct (wf_claim r Hwf) as [(? & _)|(_ & [l Hl] & _)]; [congruence|].
  destruct (read_owned (c_worktree c) (c_repo_root c) d (q_set_status s (now env) f (landing_cols s base r) r) (c_owner_token c) l)
    as (c' & -> & G & T & W); [|done|done|done|].
  { eapply (becomes_wf (c_worktree c)); [apply (B_write _ env c s f base r); [done|done|by eexists|done]|done]. }
  exists c', d. split_and!; try done. rewrite G. cbn. by apply Z.eqb_eq.
Qed.

(** C6. A granted claim is exclusive until its lease runs out.  It is granted on
    a row that was free with the expected status, or whose claim had expired.
    Whatever others then do while the lease runs, the row keeps its branch,
    target, status, budget and claim, and the holder can still write any status. *)
Theorem claim_exclusive m db env rq token i c db1 ops :
  Reachable m db -> admit_merge_claim_tx env rq token i db = (Ok (Some c), db1) ->
  Forall (by_others (c_worktree c) token (c_lease_until_ms c)) ops ->
  exists r0 r1 r2,
    queue db !! c_worktree c = Some r0 /\ queue db1 !! c_worktree c = Some r1 /\ queue (mq_run ops db1) !! c_worktree c = Some r2 /\
    (claim_owner (q_claim r0) = None /\ q_status r0 = rq_expected_status rq \/ lease_lt r0 (now_ms env) = true) /\
    c_generation c = claim_generation (q_claim r0) + 1 /\ kept r1 r2 /\
    forall env' s f base, now_ms env' <= c_lease_until_ms c -> is_Some (mq_parse s) ->
      (s = "landed" -> nonempty_oid (result_oid f) = true) ->
      exists c' db3, write_merge_status_claimed env' c s f base (mq_run ops db1) = (Ok c', db3) /\
        c_generation c' = c_generation c /\
        queue db3 !! c_worktree c = Some (q_set_status s (now env') f (landing_cols s base r2) r2).
Proof.
  intros HR Ha Ho. pose proof (mq_reachable_wf _ _ HR) as Hwf.
  assert (db_wf db1) as Hwf1.
  { replace db1 with (apply_op (OpAdmit env rq token i) db) by (cbn [apply_op]; by rewrite Ha). by apply op_wf. }
  apply admit_spec in Ha as (r & E & Hp & Ht & -> & Ew & Et & Eg & _ & El). rewrite Ew, El in *.
  set (r1 := taken rq token r). set (db1 := set_queue _ db) in *.
  assert (queue db1 !! rq_worktree rq = Some r1) as E1 by apply lookup_insert_eq.
  destruct (run_kept ops db1 (rq_worktree rq) r1 token (rq_lease_until_ms rq)) as (r2 & E2 & K); [done..|].
  exists r, r1, r2. split_and!; try done.
  - unfold admissible in Hp. split_andb. pose proof (wf_claim r (proj1 Hwf _ _ E)) as Hc.
    match goal with H : _ || _ = true |- _ => apply orb_true_iff in H as [H|H] end; split_andb; [left|by right].
    split; [|by apply String.eqb_eq]. destruct Hc as [(? & _)|(_ & _ & [Hq|Hq] & _)]; [done|..]; by rewrite Hq in *.
  - intros env' s f base Hl Hs Hf. rewrite <- Ew in E2.
    destruct (holder_writes env' c s f base (mq_run ops db1) r2) as (c' & db3 & W & G & _ & _ & E3); [by apply run_wf|done| |done|done|].
    + unfold writable_by, owned_by, in_phase, lease_ge. rewrite (k_claim _ _ K). cbn. rewrite Et, Eg.
      rewrite bool_decide_eq_true_2, Z.eqb_refl by done. simpl. by apply Z.leb_le.
    + exists c', db3. rewrite <- Ew. by split_and!.
Qed.

(** ** A small run *)

Definition demo_env (t : Z) : Env := mkEnv t (1000 * t) 7.
Definition demo_rq : MergeClaimRequest := mkClaimRequest "/wt" "feature" "/repo" "main" "" "queued" 60000 None.
Definition demo_queued : MqDb :=
  apply_op (OpUpsert (demo_env 1) "/wt" "feature" "main" None (mkIdentCols None None None None)) empty_db.
Definition demo_claimed : MqDb := apply_op (OpAdmit (demo_env 2) demo_rq "token-a" UnregisteredLocal) demo_queued.
Definition demo_claim : MergeClaim := mkClaim "/wt" "feature" "/repo" "main" "" 1 ClaimedNoChild 60000 None "token-a".

Lemma demo_queued_reachable : Reachable ∅ demo_queued.
Proof.
  apply rtc_once. apply (Mq_step ∅ empty_db (OpUpsert (demo_env 1) "/wt" "feature" "main" None (mkIdentCols None None None None))). done.
Qed.

Lemma demo_claimed_reachable : Reachable {[ "token-a" ]} demo_claimed.
Proof.
  eapply rtc_r; [apply demo_queued_reachable|].
  replace {[ "token-a" ]} with (minted_after (OpAdmit (demo_env 2) demo_rq "token-a" UnregisteredLocal) ∅) by (cbn; set_solver).
  constructor. cbn. set_solver.
Qed.

Lemma claim_exclusive_witness :
  exists r, queue (mq_run [OpRemove (demo_env 30) "/wt" "someone"; OpRetry (demo_env 40) "/wt"] demo_claimed) !! "/wt" = Some r /\
    q_status r = "queued".
Proof.
  destruct (claim_exclusive ∅ demo_queued (demo_env 2) demo_rq "token-a" UnregisteredLocal demo_claim demo_claimed
              [OpRemove (demo_env 30) "/wt" "someone"; OpRetry (demo_env 40) "/wt"])
    as (r0 & r1 & r2 & _ & E1 & E2 & _ & _ & K & _).
  - apply demo_queued_reachable.
  - vm_compute. reflexivity.
  - repeat constructor; cbn; try done; intros ms [= <-]; lia.
  - exists r2. split; [exact E2|]. rewrite (k_status _ _ K).
    vm_compute in E1. injection E1 as <-. reflexivity.
Defined.

Lemma superseded_claim_inert_witness :
  release_merge_claim demo_claim (mq_run [OpSettle demo_claim; OpRelease demo_claim] demo_claimed) =
  (Err MERGE_CLAIM_LOST, mq_run [OpSettle demo_claim; OpRelease demo_claim] demo_claimed).
Proof.
  refine (proj1 (superseded_claim_inert {[ "token-a" ]} _ {[ "token-a" ]} _ demo_claim (demo_env 3) _ _ _ (rtc_refl _ _))).
  - eapply rtc_r; [|apply (Mq_step _ _ (OpRelease demo_claim)); exact I].
    eapply rtc_r; [apply demo_claimed_reachable|apply (Mq_step _ _ (OpSettle demo_claim)); exact I].
  - set_solver.
  - vm_compute. discriminate.
Defined.

Lemma merge_rows_sound_witness : (length (merge_queue_events "/wt" 9 demo_claimed) <= 200)%nat.
Proof. apply (proj2 (merge_rows_sound {[ "token-a" ]} demo_claimed demo_claimed_reachable)). Defined.
