(* ===== verification/MergeDrain.v ===== *)
(** * A drain of the merge queue and the operators beside it

    thegn-host/src/merge_driver_claim.rs: the claim a drain holds on a row, with
    its heartbeat and its record of having lost it, over the store of
    [MergeQueue].  The heartbeat thread is the event [ETick] of a run; its period
    is whatever the run says.  The second part relates the operator's retry and
    removal to the table of [MqOperation::transition], and a fold's outcome to
    what was observed before the fold. *)
From Stdlib Require Import Ascii String.
From stdpp Require Import gmap strings.
From S2P Require Import Prelude RustOrd RustStr RustText RustChars Attention AttentionProps MergeSweep MergeQueue MergeQueueProps.
Local Open Scope string_scope.
Local Open Scope list_scope.
Local Open Scope Z_scope.

Definition LEASE_MS : Z := MERGE_CLAIM_MAX_LEASE_MS - 10000.

(** ** The claim of a drain *)

(** A row to drain, as the queue listed it. *)
Record QueueItem := mkQueueItem { i_worktree : string; i_branch : string; i_location : string }.

Record RowClaim := mkRowClaim { rc_claim : MergeClaim; rc_lost : bool }.

Inductive Admission :=
| Claimed (rc : RowClaim)
| HeldElsewhere (generation lease : Z)
| NotAdmitted (unregistered : bool).

Definition admit_request (env : Env) (item : QueueItem) (repo_path status target : string) : MergeClaimRequest :=
  mkClaimRequest (i_worktree item) (i_branch item) repo_path target (i_location item) status (now_ms env + LEASE_MS)
    (Some (this_process env)).

(** [here], [tx] and [after] are the process as it makes the request, runs the
    transaction and looks at the row it was refused. *)
Definition admit_with (here tx after : Env) (token : string) (item : QueueItem) (repo_path status target : string)
    (unregistered : bool) : Call Admission := fun db =>
  let rq := admit_request here item repo_path status target in
  let '(answer, db) :=
    if unregistered then admit_unregistered_local_merge_claim tx rq token db else admit_merge_claim tx rq token db in
  (match answer with
   | Err e => Err e
   | Ok (Some c) => Ok (Claimed (mkRowClaim c false))
   | Ok None =>
       Ok (match observe_merge_claim (i_worktree item) db with
           | Some v =>
               match v_lease_until_ms v with
               | Some l => if negb (String.eqb (v_phase v) "unclaimed") && (now_ms after <? l) then HeldElsewhere (v_generation v) l
                           else NotAdmitted unregistered
               | None => NotAdmitted unregistered
               end
           | None => NotAdmitted unregistered
           end)
   end, db).

Definition is_lost (e : MqError) : bool := bool_decide (e = MERGE_CLAIM_LOST).

Definition renewed (rc : RowClaim) (answer : result MqError MergeClaim) : RowClaim :=
  match answer with
  | Ok c => mkRowClaim c (rc_lost rc)
  | Err _ => mkRowClaim (rc_claim rc) true
  end.

(** One beat of the heartbeat thread. *)
Definition tick (here tx : Env) (rc : RowClaim) (db : MqDb) : RowClaim * MqDb :=
  let '(answer, db) := renew_merge_claim tx (rc_claim rc) (now_ms here + LEASE_MS) db in (renewed rc answer, db).

Definition after_write (rc : RowClaim) (answer : result MqError MergeClaim) : result MqError unit * RowClaim :=
  match answer with
  | Ok c => (Ok tt, mkRowClaim c (rc_lost rc))
  | Err e => (Err e, mkRowClaim (rc_claim rc) (rc_lost rc || is_lost e))
  end.

Definition rc_write (env : Env) (status : MqStatus) (f : MergeStatusFields) (rc : RowClaim) (db : MqDb)
    : result MqError unit * RowClaim * MqDb :=
  let '(answer, db) := replace_merge_status_claimed env (rc_claim rc) (mq_as_str status) f db in (after_write rc answer, db).

Definition rc_write_landed (env : Env) (f : MergeStatusFields) (base : string) (rc : RowClaim) (db : MqDb)
    : result MqError unit * RowClaim * MqDb :=
  let '(answer, db) := land_merge_status_claimed env (rc_claim rc) f base db in (after_write rc answer, db).

Definition consume_attempt (env : Env) (max : N) (rc : RowClaim) (db : MqDb) : result MqError MergeAttemptResult * RowClaim * MqDb :=
  let '(answer, db) := consume_merge_agent_attempt env (rc_claim rc) max db in
  (answer, mkRowClaim (rc_claim rc)
             (rc_lost rc || match answer with Ok ClaimLost => true | Ok _ => false | Err e => is_lost e end), db).

Definition refund_attempt (env : Env) (rc : RowClaim) (db : MqDb) : result MqError bool * RowClaim * MqDb :=
  let '(answer, db) := refund_merge_agent_attempt env (rc_claim rc) db in
  (answer, mkRowClaim (rc_claim rc) (rc_lost rc || match answer with Ok b => negb b | Err e => is_lost e end), db).

Definition rc_finish (rc : RowClaim) : Call unit := fun db =>
  if rc_lost rc then (Err MERGE_CLAIM_LOST, db)
  else
    let '(answer, db) := settle_merge_claim_no_child (rc_claim rc) db in
    match answer with
    | Err e => (Err e, db)
    | Ok c => release_merge_claim c db
    end.

(** ** A drain among others *)

Inductive Event :=
| ETick (here tx : Env)
| EWrite (env : Env) (status : MqStatus) (f : MergeStatusFields)
| ELand (env : Env) (f : MergeStatusFields) (base : string)
| EConsume (env : Env) (max : N)
| ERefund (env : Env)
| EOther (op : Op).

Definition event (e : Event) (rc : RowClaim) (db : MqDb) : RowClaim * MqDb :=
  match e with
  | ETick here tx => tick here tx rc db
  | EWrite env s f => let '(_, rc, db) := rc_write env s f rc db in (rc, db)
  | ELand env f b => let '(_, rc, db) := rc_write_landed env f b rc db in (rc, db)
  | EConsume env m => let '(_, rc, db) := consume_attempt env m rc db in (rc, db)
  | ERefund env => let '(_, rc, db) := refund_attempt env rc db in (rc, db)
  | EOther op => (rc, apply_op op db)
  end.

Fixpoint drain_run (es : list Event) (rc : RowClaim) (db : MqDb) : RowClaim * MqDb :=
  match es with
  | [] => (rc, db)
  | e :: es => let '(rc, db) := event e rc db in drain_run es rc db
  end.

(** What the drain may do next: every clock that is read is within the lease it
    holds, a tick asks for no more than the longest lease, a landing names its
    result and base, and an attempt is given back only after one was taken. *)
Definition timely (e : Event) (rc : RowClaim) (db : MqDb) : Prop :=
  let c := rc_claim rc in
  let lease := c_lease_until_ms c in
  match e with
  | ETick here tx => now_ms tx <= lease /\ lease_in_range (now_ms here + LEASE_MS) (now_ms tx) = true
  | EWrite env s f => now_ms env <= lease /\ (s = MqLanded -> nonempty_oid (result_oid f) = true)
  | ELand env f b => now_ms env <= lease /\ nonempty_oid (result_oid f) = true /\ is_empty (trim b) = false
  | EConsume env _ => now_ms env <= lease
  | ERefund env => now_ms env <= lease /\ exists r, queue db !! c_worktree c = Some r /\ (0 < q_attempts r)%N
  | EOther op => by_others (c_worktree c) (c_owner_token c) lease op
  end.

Fixpoint all_timely (es : list Event) (rc : RowClaim) (db : MqDb) : Prop :=
  match es with
  | [] => True
  | e :: es => timely e rc db /\ let '(rc, db) := event e rc db in all_timely es rc db
  end.

(** ** The drain keeps its claim *)

Definition has (c : MergeClaim) (r : QRow) : Prop :=
  owned_by c r = true /\ in_phase ClaimedNoChild r = true /\ claim_lease_until_ms (q_claim r) = Some (c_lease_until_ms c).

Definition holds (rc : RowClaim) (db : MqDb) : Prop :=
  db_wf db /\ rc_lost rc = false /\ exists r, queue db !! c_worktree (rc_claim rc) = Some r /\ has (rc_claim rc) r.

Lemma has_live c r t : has c r -> t <= c_lease_until_ms c -> live_for c t r = true.
Proof. intros (Ho & Hp & Hl) Ht. unfold live_for, lease_ge. rewrite Ho, Hp, Hl. by apply Z.leb_le. Qed.

Lemma has_writable c r t : has c r -> t <= c_lease_until_ms c -> writable_by c t r = true.
Proof.
  intros H Ht. pose proof (has_live c r t H Ht) as [ [L1 L2]%andb_true_iff L3]%andb_true_iff. unfold writable_by.
  rewrite L1, L2, L3. apply orb_true_r.
Qed.

Lemma has_same c r r' : q_claim r' = q_claim r -> has c r -> has c r'.
Proof. intros E. unfold has, owned_by, in_phase. by rewrite E. Qed.

Lemma lookup_set_queue w x db : queue (set_queue (<[w := x]> (queue db)) db) !! w = Some x.
Proof. apply lookup_insert_eq. Qed.

Lemma has_claim c repo r :
  has c r -> exists c', claim_from_row (c_worktree c) repo r = Ok c' /\ c_worktree c' = c_worktree c /\ c_owner_token c' = c_owner_token c /\
    c_generation c' = c_generation c /\ c_lease_until_ms c' = c_lease_until_ms c.
Proof.
  intros (Ho & Hp & Hl). pose proof (owned_claimed _ _ Ho) as Ht. apply andb_true_iff in Ho as [_ Hg].
  unfold claim_from_row. apply String.eqb_eq in Hp. rewrite Hp, Hl, Ht. cbn.
  eexists. split_and!; [reflexivity|reflexivity|reflexivity| |reflexivity]. cbn. by apply Z.eqb_eq.
Qed.

(** The claim only matters through what identifies it and its lease. *)
Lemma has_ext c c' r :
  c_owner_token c' = c_owner_token c -> c_generation c' = c_generation c -> c_lease_until_ms c' = c_lease_until_ms c -> has c r -> has c' r.
Proof. unfold has, owned_by. by intros -> -> ->. Qed.

Lemma renew_holds env c l db :
  holds (mkRowClaim c false) db -> now_ms env <= c_lease_until_ms c -> lease_in_range l (now_ms env) = true ->
  exists c' db', renew_merge_claim env c l db = (Ok c', db') /\ holds (mkRowClaim c' false) db' /\
    c_worktree c' = c_worktree c /\ c_generation c' = c_generation c.
Proof.
  intros (Hwf & _ & r & E & Hr) Ht Hin. cbn [rc_claim] in *.
  pose proof (op_wf (OpRenew env c l) db Hwf) as Hwf'. cbn [apply_op] in Hwf'.
  set (r' := with_lease l r). set (db1 := set_queue (<[c_worktree c := r']> (queue db)) db).
  assert (has (with_lease_until l c) r') as Hr'.
  { destruct Hr as (Ho & Hp & _). split_and!; [exact Ho|exact Hp|reflexivity]. }
  destruct (has_claim _ (default (c_repo_root c) (worktrees db1 !! c_worktree c ≫= reg_repo_path)) _ Hr') as (c' & Ec & W & T & G & L).
  cbn [c_worktree with_lease_until] in Ec.
  assert (renew_merge_claim env c l db = (Ok (with_lease_until l c'), db1)) as En.
  { unfold renew_merge_claim. rewrite (proj2 (ensure_ok _ _) Hin). unfold update_where. rewrite E, (has_live c r _ Hr Ht).
    unfold read_claim_or_lost, read_claim. fold r'. fold db1.
    assert (queue db1 !! c_worktree c = Some r') as -> by apply lookup_set_queue. by rewrite Ec. }
  rewrite En in Hwf'. exists (with_lease_until l c'), db1. split_and!; [done| |done|done]. split_and!; [done|done|].
  exists r'. cbn [rc_claim with_lease_until c_worktree] in *. split; [rewrite W; apply lookup_set_queue|].
  eapply has_ext; [| | |exact Hr']; cbn; done.
Qed.

Lemma write_holds env c s f base db :
  holds (mkRowClaim c false) db -> now_ms env <= c_lease_until_ms c -> is_Some (mq_parse s) ->
  (s = "landed" -> nonempty_oid (result_oid f) = true) ->
  exists c' db', write_merge_status_claimed env c s f base db = (Ok c', db') /\
    holds (mkRowClaim c' false) db' /\ c_worktree c' = c_worktree c /\ c_generation c' = c_generation c.
Proof.
  intros (Hwf & _ & r & E & Hr) Ht Hs Hf. cbn [rc_claim] in *.
  destruct (holder_writes env c s f base db r) as (c' & db' & W & G & T & Wt & E'); [done|done|by apply has_writable|done|done|].
  exists c', db'. split_and!; [done| |done|done]. split_and!; [|done|].
  - pose proof (op_wf (OpWrite env c s f base) db Hwf) as H. cbn [apply_op] in H. by rewrite W in H.
  - cbn [rc_claim]. rewrite Wt. eexists. split; [exact E'|].
    assert (c_lease_until_ms c' = c_lease_until_ms c) as L.
    { unfold write_merge_status_claimed in W. case_match; [|done].
      destruct (update_where _ _ _ db) as [ [] d1]; [|done]. cbn [negb] in W.
      match type of W with commit ?x _ ?d = _ => destruct x as [c1|] eqn:R; [|done]; set (d2 := d) in * end.
      injection W as -> ->. unfold read_claim_or_lost, read_claim in R. rewrite E' in R. unfold claim_from_row in R. cbn in R.
      destruct Hr as (_ & _ & L). rewrite L in R. repeat case_match; try done. by simplify_eq/=. }
    eapply has_ext; [exact T|exact G|exact L|]. by apply (has_same c r).
Qed.

Lemma attempts_hold env c r n db :
  holds (mkRowClaim c false) db -> queue db !! c_worktree c = Some r ->
  db_wf (set_queue (<[c_worktree c := set_attempts n (now env) r]> (queue db)) db) ->
  holds (mkRowClaim c false) (set_queue (<[c_worktree c := set_attempts n (now env) r]> (queue db)) db).
Proof.
  intros (_ & _ & r0 & E & Hr) E0 Hwf. cbn [rc_claim] in *. simplify_eq. split_and!; [done|done|].
  eexists. split; [apply lookup_set_queue|]. eapply has_same; [|exact Hr]. done.
Qed.

Definition same_row (rc rc' : RowClaim) : Prop :=
  c_worktree (rc_claim rc') = c_worktree (rc_claim rc) /\ c_generation (rc_claim rc') = c_generation (rc_claim rc).

Lemma event_holds e rc db :
  holds rc db -> timely e rc db -> holds (event e rc db).1 (event e rc db).2 /\ same_row rc (event e rc db).1.
Proof.
  destruct rc as [c lost]. intros H Ht. assert (lost = false) as -> by apply H.
  destruct e as [here tx|env s f|env f b|env max|env|op]; cbn [timely rc_claim] in Ht; cbn [event].
  - destruct Ht as [Ht Hin]. unfold tick. cbn [rc_claim].
    destruct (renew_holds tx c _ db H Ht Hin) as (c' & db' & -> & Hh & ?). done.
  - destruct Ht as [Ht Hs]. unfold rc_write, replace_merge_status_claimed. cbn [rc_claim].
    destruct (write_holds env c (mq_as_str s) f None db H Ht) as (c' & db' & -> & Hh & ?); [by destruct s; eexists|by destruct s; auto|done].
  - destruct Ht as (Ht & Ho & Hb). unfold rc_write_landed, land_merge_status_claimed. cbn [rc_claim].
    rewrite (proj2 (ensure_ok _ _)) by (by rewrite Hb).
    destruct (write_holds env c "landed" f (Some b) db H Ht) as (c' & db' & -> & Hh & ?); [by eexists|done|done].
  - pose proof H as (Hwf & _ & r & E & Hr). cbn [rc_claim] in E, Hr.
    pose proof (op_wf (OpConsume env c max) db Hwf) as Hwf'. cbn [apply_op] in Hwf'.
    unfold consume_attempt, consume_merge_agent_attempt, update_where in *. cbn [rc_claim rc_lost orb] in *.
    rewrite E in *. rewrite (has_live c r _ Hr Ht) in *. cbn [andb] in *. destruct (q_attempts r <? max)%N eqn:El.
    + cbn [fst snd] in *. split; [by apply attempts_hold|done].
    + rewrite E, (has_live c r _ Hr Ht). rewrite (proj2 (N.leb_le _ _)) by (by apply N.ltb_ge). cbn. by split.
  - destruct Ht as [Ht (r' & E' & Ha)]. pose proof H as (Hwf & _ & r & E & Hr). cbn [rc_claim] in E, Hr.
    assert (r' = r) as -> by congruence. pose proof (op_wf (OpRefund env c) db Hwf) as Hwf'. cbn [apply_op] in Hwf'.
    unfold refund_attempt, refund_merge_agent_attempt, update_where in *. cbn [rc_claim rc_lost orb] in *.
    rewrite E in *. rewrite (has_live c r _ Hr Ht), (proj2 (N.ltb_lt _ _) Ha) in *. cbn [andb fst snd negb] in *.
    split; [by apply attempts_hold|done].
  - destruct H as (Hwf & _ & r & E & Hr). cbn [rc_claim] in *.
    destruct (op_kept op db (c_worktree c) r (c_owner_token c) (c_lease_until_ms c)) as (r' & E' & K); [done|done| | |done|].
    + apply owned_claimed, Hr.
    + apply Hr.
    + split; [|done]. split_and!; [by apply op_wf|done|]. exists r'. split; [done|]. eapply has_same; [apply (k_claim _ _ K)|done].
Qed.

Lemma drive_holds es rc db :
  holds rc db -> all_timely es rc db -> holds (drain_run es rc db).1 (drain_run es rc db).2 /\ same_row rc (drain_run es rc db).1.
Proof.
  revert rc db. induction es as [|e es IH]; intros rc db H Ht; [done|]. cbn [drain_run all_timely] in *. destruct Ht as [Ht Hts].
  destruct (event_holds e rc db H Ht) as [H' [S1 S2] ]. destruct (event e rc db) as [rc' db']. cbn [fst snd] in *.
  destruct (IH rc' db' H' Hts) as [Hh [S3 S4] ]. split; [done|]. split; congruence.
Qed.

(** Settling and releasing a claim that is held. *)
Lemma finish_releases rc db r :
  holds rc db -> queue db !! c_worktree (rc_claim rc) = Some r ->
  exists db', rc_finish rc db = (Ok tt, db') /\
    queue db' !! c_worktree (rc_claim rc) = Some (set_claim (claim_cleared (q_claim r)) r).
Proof.
  destruct rc as [c lost]. intros (Hwf & Hn & r0 & E & Ho & Hp & Hl) E0. cbn [rc_claim rc_lost] in *. subst lost.
  assert (r0 = r) as -> by congruence.
  unfold rc_finish. cbn [rc_lost rc_claim]. unfold settle_merge_claim_no_child, update_where. rewrite E, Ho, Hp. cbn [andb].
  pose proof (owned_claimed _ _ Ho) as Ht. apply andb_true_iff in Ho as [_ Hg]. apply Z.eqb_eq in Hg.
  unfold read_claim_or_lost, read_claim. rewrite lookup_set_queue. unfold claim_from_row. cbn [with_phase set_claim q_claim
    claim_phase claim_lease_until_ms claim_owner claim_generation claim_owner_hint]. rewrite Hl, Ht. cbn [phase_as_str phase_parse String.eqb Ascii.eqb Bool.eqb rbind commit].
  unfold release_merge_claim, update_where. cbn [c_worktree]. rewrite lookup_set_queue.
  unfold owned_by, in_phase. cbn [with_phase set_claim q_claim claim_owner claim_generation claim_phase c_owner_token c_generation].
  rewrite Ht, bool_decide_eq_true_2, Z.eqb_refl by done. cbn [andb]. eexists. split; [reflexivity|].
  rewrite lookup_set_queue. reflexivity.
Qed.

(** C14. A drain that keeps its heartbeat finishes.  However its writes, attempts
    and ticks interleave with whatever other processes do to the store, as long as
    every clock that is read falls within the lease held at that moment, the drain
    never takes its claim for lost, and finishing releases the row: unclaimed,
    with the generation of the claim and everything else as the drain left it. *)
Theorem timely_drain_finishes m db here tx after token item repo status target unregistered rc db1 es :
  Reachable m db ->
  admit_with here tx after token item repo status target unregistered db = (Ok (Claimed rc), db1) ->
  all_timely es rc db1 ->
  let '(rc', db2) := drain_run es rc db1 in
  rc_lost rc' = false /\
  exists r db3, queue db2 !! i_worktree item = Some r /\ rc_finish rc' db2 = (Ok tt, db3) /\
    queue db3 !! i_worktree item = Some (set_claim (claim_cleared (q_claim r)) r) /\
    claim_generation (q_claim r) = c_generation (rc_claim rc).
Proof.
  intros HR Ha Ht. pose proof (mq_reachable_wf _ _ HR) as Hwf.
  assert (exists i, admit_merge_claim_tx tx (admit_request here item repo status target) token i db = (Ok (Some (rc_claim rc)), db1) /\
            rc = mkRowClaim (rc_claim rc) false) as (i & Hi & Hrc).
  { unfold admit_with, admit_unregistered_local_merge_claim, admit_merge_claim in Ha. destruct unregistered.
    - exists UnregisteredLocal. revert Ha. destruct (let? _ := validate_claim_request _ in _); [|done].
      destruct (admit_merge_claim_tx _ _ _ UnregisteredLocal db) as [ [ [c|] |] d]; [by intros [= <- <-]| |done].
      repeat case_match; done.
    - exists Registered. revert Ha. destruct (validate_claim_request _); [|done].
      destruct (admit_merge_claim_tx _ _ _ Registered db) as [ [ [c|] |] d]; [by intros [= <- <-]| |done].
      repeat case_match; done. }
  assert (holds rc db1 /\ c_worktree (rc_claim rc) = i_worktree item) as [Hh Hw].
  { assert (db_wf db1) as Hwf1.
    { replace db1 with (apply_op (OpAdmit tx (admit_request here item repo status target) token i) db)
        by (cbn [apply_op]; by rewrite Hi). by apply op_wf. }
    apply admit_spec in Hi as (r & E & _ & _ & -> & W & T & G & P & L). split; [|done].
    rewrite Hrc. split_and!; [done|done|]. cbn [rc_claim]. rewrite W. eexists. split; [apply lookup_set_queue|].
    unfold has, owned_by, in_phase, taken. cbn [set_claim q_claim claim_owner claim_generation claim_phase claim_lease_until_ms].
    rewrite T, G, L, bool_decide_eq_true_2, Z.eqb_refl by done. done. }
  destruct (drive_holds es rc db1 Hh Ht) as [Hh2 [S1 S2] ]. destruct (drain_run es rc db1) as [rc' db2]. cbn [fst snd] in *.
  split; [apply Hh2|]. pose proof Hh2 as (_ & _ & r & E & Ho & _). rewrite S1, Hw in E.
  destruct (finish_releases rc' db2 r Hh2) as (db3 & F & E3); [by rewrite S1, Hw|].
  exists r, db3. rewrite S1, Hw in E3. split_and!; [done|done|done|].
  apply andb_true_iff in Ho as [_ Hg%Z.eqb_eq]. congruence.
Qed.

Definition demo_item : QueueItem := mkQueueItem "/wt" "feature" "".
Definition demo_events : list Event :=
  [EWrite (demo_env 10) MqFolding no_fields; EOther (OpRemove (demo_env 60) "/wt" "someone");
   ETick (demo_env 62) (demo_env 62); EOther (OpRetry (demo_env 300) "/wt");
   ELand (demo_env 340) (mkFields (Some "abc") None None) "def"].

Lemma timely_drain_finishes_witness :
  let '(rc, db2) := drain_run demo_events (mkRowClaim (mkClaim "/wt" "feature" "/repo" "main" "" 1 ClaimedNoChild 292000
                                                     (Some "thegn pid 7") "token-a") false)
    (apply_op (OpAdmit (demo_env 2) (admit_request (demo_env 2) demo_item "/repo" "queued" "main") "token-a" UnregisteredLocal)
       demo_queued) in
  rc_lost rc = false.
Proof.
  pose proof (timely_drain_finishes ∅ demo_queued (demo_env 2) (demo_env 2) (demo_env 2) "token-a" demo_item "/repo" "queued" "main" true
    (mkRowClaim (mkClaim "/wt" "feature" "/repo" "main" "" 1 ClaimedNoChild 292000 (Some "thegn pid 7") "token-a") false)
    (apply_op (OpAdmit (demo_env 2) (admit_request (demo_env 2) demo_item "/repo" "queued" "main") "token-a" UnregisteredLocal)
       demo_queued) demo_events demo_queued_reachable) as H.
  destruct (drain_run _ _ _) as [rc db2]. apply H.
  - vm_compute. reflexivity.
  - unfold demo_events. cbn [all_timely]. split; [split; [vm_compute; discriminate|done]|].
    vm_compute. repeat split; try discriminate; intros ms [= <-]; discriminate.
Defined.

(** ** Operators *)

Lemma record_newest e db : merge_queue_events (e_worktree e) 1 (record_merge_event e db) = [e].
Proof.
  unfold merge_queue_events. rewrite record_trail. unfold is_of at 1. rewrite String.eqb_refl. cbn zeta.
  set (l := List.filter _ (events db)). rewrite drop_app_le.
  - rewrite rev_app_distr. reflexivity.
  - rewrite length_app. simpl. unfold MERGE_QUEUE_EVENTS_PER_WORKTREE. lia.
Qed.

Lemma held_status_word s : held_status (mq_as_str s) = is_held s.
Proof. by destruct s. Qed.

Lemma held_words_word s : existsb (String.eqb (mq_as_str s)) held_words = is_held s.
Proof. by destruct s. Qed.

Lemma retry_table s claimed : mq_transition Attention.OpRetry s claimed = if negb claimed && is_held s then Requeue else Refuse.
Proof. by destruct claimed, s. Qed.

Lemma remove_table s claimed : mq_transition Attention.OpRemove s claimed = if claimed then Refuse else Delete.
Proof. by destruct claimed, s. Qed.

(** C31. The operator's retry and removal are the table.  On a row of any status,
    claimed or not, [retry_held_merge_entry] and [remove_merge_entry] do exactly
    what [MqOperation::transition] says - an expired claim of a landed row counts
    as none for the removal -, a refusal leaves the queue as it was, and either
    way the newest audit event of the worktree names the operation and the status
    the row had. *)
Theorem operator_table db env w r s :
  queue db !! w = Some r -> q_status r = mq_as_str s ->
  (let '(answer, db') := retry_held_merge_entry env w db in
   (exists e, merge_queue_events w 1 db' = [e] /\ e_operation e = "retry" /\ e_old_status e = mq_as_str s) /\
   match mq_transition Attention.OpRetry s (negb (unclaimed r)) with
   | Requeue => answer = Ok Rearmed /\ queue db' = <[w := rearmed (now env) r]> (queue db)
   | _ => (answer = Ok RetryClaimed \/ answer = Ok (NotRetryable (mq_as_str s))) /\ queue db' = queue db
   end) /\
  (let '(answer, db') := remove_merge_entry env w db in
   (exists e, merge_queue_events w 1 db' = [e] /\ e_operation e = "remove" /\ e_old_status e = mq_as_str s) /\
   match mq_transition Attention.OpRemove s
           (negb (unclaimed r) && negb (bool_decide (s = MqLanded) && lease_lt r (now_ms env))) with
   | Delete => answer = Ok tt /\ queue db' = delete w (queue db)
   | _ => answer = Err MergeClaimActive /\ queue db' = queue db
   end).
Proof.
  intros E Es. split.
  - rewrite retry_table, negb_involutive. unfold retry_held_merge_entry. rewrite E, Es. destruct (unclaimed r) eqn:U; cbn [negb andb].
    + rewrite held_status_word. destruct (is_held s) eqn:H; cbn [negb].
      * unfold update_where. rewrite E, U, Es, held_words_word, H. cbn [andb]. split; [|done].
        eexists. split_and!; [apply (record_newest (row_event w _ _ r _ _ _ _ _))|done|exact Es].
      * split; [|by auto]. eexists. split_and!; [apply (record_newest (row_event w _ _ r _ _ _ _ _))|done|exact Es].
    + split; [|by auto]. eexists. split_and!; [apply (record_newest (row_event w _ _ r _ _ _ _ _))|done|exact Es].
  - rewrite remove_table. unfold remove_merge_entry, remove_merge_entry_as, reap_expired_landed_claim, update_where. rewrite E.
    assert (String.eqb (q_status r) "landed" = bool_decide (s = MqLanded)) as -> by (rewrite Es; by destruct s).
    destruct (unclaimed r) eqn:U; cbn [negb andb].
    + rewrite andb_false_r. cbn [andb]. rewrite E, U. cbn [negb]. split; [|done].
      eexists. split_and!; [apply (record_newest (row_event w _ _ r _ _ _ _ _))|done|exact Es].
    + rewrite andb_true_r. destruct (bool_decide (s = MqLanded) && lease_lt r (now_ms env)); cbn [negb].
      * rewrite lookup_set_queue.
        assert (unclaimed (set_claim (claim_cleared (q_claim r)) r) = true) as -> by done. cbn [negb]. split.
        -- eexists. split_and!; [apply (record_newest (row_event w _ _ (set_claim _ r) _ _ _ _ _))|done|exact Es].
        -- split; [done|]. cbn. by rewrite delete_insert_eq.
      * rewrite E, U. cbn [negb]. split; [|done].
        eexists. split_and!; [apply (record_newest (row_event w _ _ r _ _ _ _ _))|done|exact Es].
Qed.

Lemma operator_table_witness :
  fst (remove_merge_entry (demo_env 3) "/wt" demo_claimed) = Err MergeClaimActive /\
  fst (retry_held_merge_entry (demo_env 3) "/wt" demo_claimed) <> Ok Rearmed.
Proof.
  destruct (queue demo_claimed !! "/wt") as [r|] eqn:E; [|vm_compute in E; discriminate].
  destruct (operator_table demo_claimed (demo_env 3) "/wt" r MqQueued E) as [H1 H2];
    [vm_compute in E; injection E as <-; reflexivity|].
  assert (unclaimed r = false) as U by (vm_compute in E; injection E as <-; reflexivity).
  assert (lease_lt r (now_ms (demo_env 3)) = false) as L by (vm_compute in E; injection E as <-; reflexivity).
  rewrite U in H1, H2. rewrite L in H2. destruct (remove_merge_entry _ _ _), (retry_held_merge_entry _ _ _).
  cbn in H1, H2. split; [apply H2|]. destruct H1 as [_ [ [->| ->] _] ]; discriminate.
Defined.

(** ** The outcome of a fold *)

(** A fold's outcome is written only onto what was observed before the fold:
    exactly when it is valid, nobody claims the row, and the registry entry and
    the row are still those of the observation.  Otherwise nothing changes.  A
    written outcome is the status of the row, whose place in the queue, budget
    and claim columns stay, and no other row is touched. *)
Theorem outcome_is_optimistic env obs o db :
  let '(answer, db') := persist_merge_outcome env obs o db in
  let w := f_worktree o in
  (answer = Ok Written <->
   validate_merge_outcome obs o = Ok tt /\ is_claimed w db = false /\ observe_merge_outcome w db = obs) /\
  (answer <> Ok Written -> db' = db) /\
  (answer = Ok Written -> exists r, queue db' !! w = Some r /\ q_status r = final_as_str (f_status o) /\
    forall old, queue db !! w = Some old ->
      q_queued_at r = q_queued_at old /\ q_attempts r = q_attempts old /\ q_claim r = q_claim old) /\
  (forall w', w' <> w -> queue db' !! w' = queue db !! w') /\ worktrees db' = worktrees db.
Proof.
  unfold persist_merge_outcome. destruct (validate_merge_outcome obs o) as [ []|e] eqn:V; [|split_and!; naive_solver].
  assert (o_worktree obs = f_worktree o) as Hw.
  { unfold validate_merge_outcome in V. apply rbind_ok in V as ([] & V & _). rewrite ensure_ok in V. split_andb. by apply String.eqb_eq. }
  set (w := f_worktree o) in *. destruct (is_claimed w db) eqn:C; [split_and!; naive_solver|].
  destruct (bool_decide_reflect (o_registry (observe_merge_outcome w db) = o_registry obs)) as [R|R]; cbn [negb];
    [|split_and!; try done; split; [done|]; intros (_ & _ & <-); done].
  destruct (bool_decide_reflect (o_queue (observe_merge_outcome w db) = o_queue obs)) as [Q|Q]; cbn [negb andb];
    [|split_and!; try done; split; [done|]; intros (_ & _ & <-); done].
  destruct (bool_decide_reflect (o_queue_location (observe_merge_outcome w db) = o_queue_location obs)) as [L|L]; cbn [negb andb];
    [|split_and!; try done; split; [done|]; intros (_ & _ & <-); done].
  assert (observe_merge_outcome w db = obs) as Eo.
  { destruct obs as [ow or oq ol]. cbn in *. unfold observe_merge_outcome. congruence. }
  match goal with |- context [if ?b then (Ok Written, _) else _] => destruct b eqn:Hl end.
  - apply andb_true_iff in Hl as [Hs%bool_decide_eq_true Hr]. split_and!; try done. intros _.
    destruct (queue db !! w) as [r|] eqn:E; [|done]. apply String.eqb_eq in Hr. exists r. rewrite Hs. split_and!; try done.
    intros old [= <-]. done.
  - cbn zeta. set (l := match o_registry obs with Some g => _ | None => _ end).
    match goal with |- context [?d = db] => set (db' := d) end.
    assert (queue db' = <[w := outcome_row env o l (queue db !! w)]> (queue db) /\ worktrees db' = worktrees db) as [Eq Ew]
      by (unfold db'; by match goal with |- context [if ?b then _ else _] => destruct b end).
    rewrite Eq, Ew. split_and!; try done.
    + intros _. rewrite lookup_insert_eq. eexists. split_and!; [done|by destruct (queue db !! w)|]. intros old ->. done.
    + intros w' Hne. by rewrite lookup_insert_ne.
Qed.

(** ** A landed row that a drain left claimed *)

(** The release of an expired claim on a landed row is documented as
    necessary because admission could never recover such a row.  Admission does:
    an expired claim is taken over whatever the status is, so a drain that listed
    the row as queued is granted it after it landed, and its first write drops the
    record of the landing. *)
Theorem landed_row_readmitted :
  let landed := (write_merge_status_claimed (demo_env 20) demo_claim "landed" (mkFields (Some "abc") None None) (Some "def") demo_claimed).2 in
  let rq := mkClaimRequest "/wt" "feature" "/repo" "main" "" "queued" 200000 None in
  merge_landed_provenance "/wt" landed = Some (mkProvenance None (Some "def") "abc") /\
  exists c db1 c' db2,
    admit_unregistered_local_merge_claim (demo_env 100) rq "token-b" landed = (Ok (Some c), db1) /\
    replace_merge_status_claimed (demo_env 101) c "folding" no_fields db1 = (Ok c', db2) /\
    merge_landed_provenance "/wt" db2 = None.
Proof.
  split; [reflexivity|]. do 4 eexists. split_and!; [vm_compute; reflexivity|vm_compute; reflexivity|reflexivity].
Qed.
