(* ===== verification/McpProxy.v ===== *)
(** * The MCP proxy hub

    thegn-core/src/mcp/proxy (filter, aggregate, route, breaker, reconcile and
    partition), the globs of grants.rs, and of thegn-host/src/mcp_proxy the parts
    of hub.rs and upstream.rs that route a call.  A tool is advertised and
    callable only where the exposure list of its upstream names it; a failing
    upstream is fenced by its breaker; the ids of several connections are kept
    apart on a shared upstream; a change of configuration is a plan of starts,
    restarts, refilters and stops.

    The round trip to an upstream is a parameter: the answers it gives. *)
From Stdlib Require Import Ascii String.
From stdpp Require Import gmap strings.
From S2P Require Import Prelude RustOrd RustStr RustText.
Local Open Scope string_scope.
Local Open Scope list_scope.

(** ** Globs and grants *)

(** [m] of grants.rs, on bytes. *)
Fixpoint glob_bytes (p : string) : string -> bool :=
  match p with
  | EmptyString => is_empty
  | String "*" p1 =>
      match p1 with
      | String "*" rest =>
          let go := glob_bytes rest in
          fix stars (v : string) : bool := go v || match v with String _ v => stars v | EmptyString => false end
      | _ =>
          let go := glob_bytes p1 in
          fix star (v : string) : bool :=
            go v || match v with String b v => negb (Ascii.eqb b "/") && star v | EmptyString => false end
      end
  | String a p1 => fun v => match v with String b v => Ascii.eqb b a && glob_bytes p1 v | EmptyString => false end
  end.

Definition grant_glob_match (pattern value : string) : bool := glob_bytes pattern value.

Inductive GrantKind := GExec | GDownload | GNpmInstall | GCargoInstall.

#[global] Instance GrantKind_eq_dec : EqDecision GrantKind.
Proof. solve_decision. Defined.

Definition grant_token (k : GrantKind) : string :=
  match k with
  | GExec => "process:exec" | GDownload => "download_file" | GNpmInstall => "npm:install" | GCargoInstall => "cargo:install"
  end.

Definition grant_parse (s : string) : option GrantKind :=
  if String.eqb s "process:exec" then Some GExec
  else if String.eqb s "download_file" then Some GDownload
  else if String.eqb s "npm:install" then Some GNpmInstall
  else if String.eqb s "cargo:install" then Some GCargoInstall
  else None.

Record CapGrant := mkGrant { g_kind : string; g_scope : string }.

Inductive GrantAction := AExec (r : string) | ADownload (r : string) | ANpm (r : string) | ACargo (r : string).

Definition action_kind (a : GrantAction) : GrantKind :=
  match a with AExec _ => GExec | ADownload _ => GDownload | ANpm _ => GNpmInstall | ACargo _ => GCargoInstall end.

Definition action_resource (a : GrantAction) : string :=
  match a with AExec r | ADownload r | ANpm r | ACargo r => r end.

Definition grants_allow (grants : list CapGrant) (a : GrantAction) : bool :=
  existsb (fun g => bool_decide (grant_parse (g_kind g) = Some (action_kind a)) && grant_glob_match (g_scope g) (action_resource a))
    grants.

(** ** The exposure filter *)

Definition tool_exposed (patterns : list string) (tool : string) : bool := existsb (fun p => grant_glob_match p tool) patterns.

Definition partition_tools (patterns tools : list string) : list string * list string :=
  (List.filter (tool_exposed patterns) tools, List.filter (fun t => negb (tool_exposed patterns t)) tools).

(** ** Aggregation *)

(** JSON as serde_json holds it; a number is the text it prints as. *)
Inductive JsonValue :=
| VNull
| VBool (b : bool)
| VNumber (text : string)
| VString (s : string)
| VArray (l : list JsonValue)
| VObject (fields : list (string * JsonValue)).

Fixpoint assoc (k : string) (l : list (string * JsonValue)) : option JsonValue :=
  match l with
  | [] => None
  | (k', v) :: l => if String.eqb k' k then Some v else assoc k l
  end.

Definition value_get (k : string) (v : JsonValue) : option JsonValue :=
  match v with VObject fields => assoc k fields | _ => None end.

Definition value_as_array (v : JsonValue) : option (list JsonValue) := match v with VArray l => Some l | _ => None end.
Definition value_as_str (v : JsonValue) : option string := match v with VString s => Some s | _ => None end.

(** Replaces the value of a key that is present. *)
Fixpoint assoc_set (k : string) (x : JsonValue) (l : list (string * JsonValue)) : list (string * JsonValue) :=
  match l with
  | [] => [(k, x)]
  | (k', v) :: l => if String.eqb k' k then (k, x) :: l else (k', v) :: assoc_set k x l
  end.

Definition namespaced (upstream tool : string) : string := (upstream ++ "__" ++ tool)%string.

Record UpstreamTools := mkUpstreamTools { u_name : string; u_tools : JsonValue; u_exposure : list string }.

Record UpstreamSummary := mkSummary {
  s_name : string; s_exposed : list string; s_hidden : list string; s_collisions : list string;
}.

Record ToolRoute := mkRoute { r_upstream : string; r_tool : string }.

Record Aggregate := mkAggregate {
  a_tools : list JsonValue;
  a_routes : gmap string ToolRoute;
  a_summary : list UpstreamSummary;
}.

Definition empty_aggregate : Aggregate := mkAggregate [] ∅ [].

Definition route (agg : Aggregate) (name : string) : option ToolRoute := a_routes agg !! name.

Definition tool_entries (result : JsonValue) : list JsonValue :=
  match value_get "tools" result ≫= value_as_array with
  | Some l => l
  | None => default [] (value_as_array result)
  end.

Definition advertise (entry : JsonValue) (ns : string) : JsonValue :=
  match entry with VObject fields => VObject (assoc_set "name" (VString ns) fields) | _ => entry end.

(** The lists of one upstream while its entries are read. *)
Record Lists := mkLists { l_exposed : list string; l_hidden : list string; l_collisions : list string }.

Definition aggregate_entry (up : UpstreamTools) (st : list JsonValue * gmap string ToolRoute * Lists) (entry : JsonValue)
    : list JsonValue * gmap string ToolRoute * Lists :=
  let '(tools, routes, ls) := st in
  match value_get "name" entry ≫= value_as_str with
  | None => st
  | Some tool =>
      if negb (tool_exposed (u_exposure up) tool) then
        (tools, routes, mkLists (l_exposed ls) (l_hidden ls ++ [tool]) (l_collisions ls))
      else
        let ns := namespaced (u_name up) tool in
        match routes !! ns with
        | Some _ => (tools, routes, mkLists (l_exposed ls) (l_hidden ls) (l_collisions ls ++ [ns]))
        | None =>
            (tools ++ [advertise entry ns], <[ns := mkRoute (u_name up) tool]> routes,
             mkLists (l_exposed ls ++ [tool]) (l_hidden ls) (l_collisions ls))
        end
  end.

Definition aggregate_one (agg : Aggregate) (up : UpstreamTools) : Aggregate :=
  let '(tools, routes, ls) :=
    fold_left (aggregate_entry up) (tool_entries (u_tools up)) (a_tools agg, a_routes agg, mkLists [] [] []) in
  mkAggregate tools routes (a_summary agg ++ [mkSummary (u_name up) (l_exposed ls) (l_hidden ls) (l_collisions ls)]).

Definition aggregate (ups : list UpstreamTools) : Aggregate := fold_left aggregate_one ups empty_aggregate.

(** ** The breaker *)

Inductive BreakerState := BClosed | BOpen | BHalfOpen.

#[global] Instance BreakerState_eq_dec : EqDecision BreakerState.
Proof. solve_decision. Defined.

Record BreakerConfig := mkBreakerConfig { failure_threshold : N; cooldown_ms : Z }.

Record Breaker := mkBreaker { b_cfg : BreakerConfig; b_state : BreakerState; consecutive_failures : N; opened_at : Z }.

Definition breaker_new (cfg : BreakerConfig) : Breaker :=
  mkBreaker (mkBreakerConfig (N.max (failure_threshold cfg) 1) (Z.max (cooldown_ms cfg) 0)) BClosed 0 0.

Definition cooled_down (b : Breaker) (now_ms : Z) : bool := (cooldown_ms (b_cfg b) <=? i64_sat_sub now_ms (opened_at b))%Z.

Definition breaker_state (b : Breaker) (now_ms : Z) : BreakerState :=
  match b_state b with
  | BOpen => if cooled_down b now_ms then BHalfOpen else BOpen
  | other => other
  end.

Definition breaker_allow (now_ms : Z) (b : Breaker) : bool * Breaker :=
  match b_state b with
  | BClosed | BHalfOpen => (true, b)
  | BOpen =>
      if cooled_down b now_ms then (true, mkBreaker (b_cfg b) BHalfOpen (consecutive_failures b) (opened_at b)) else (false, b)
  end.

Definition on_success (b : Breaker) : Breaker := mkBreaker (b_cfg b) BClosed 0 (opened_at b).

Definition on_failure (now_ms : Z) (b : Breaker) : Breaker :=
  let n := N.min (consecutive_failures b + 1) u32_max in
  match b_state b with
  | BHalfOpen => mkBreaker (b_cfg b) BOpen n now_ms
  | BClosed => if (failure_threshold (b_cfg b) <=? n)%N then mkBreaker (b_cfg b) BOpen n now_ms
               else mkBreaker (b_cfg b) BClosed n (opened_at b)
  | BOpen => mkBreaker (b_cfg b) BOpen n (opened_at b)
  end.

(** ** Reconciliation *)

Record InstanceSpec := mkInstance {
  is_upstream : string;
  is_partition_key : string;
  is_argv : list string;
  is_env : gmap string string;
  is_exposure : list string;
}.

#[global] Instance InstanceSpec_eq_dec : EqDecision InstanceSpec.
Proof. solve_decision. Defined.

Definition instance_key (s : InstanceSpec) : string * string := (is_upstream s, is_partition_key s).

Definition launch_differs (a b : InstanceSpec) : bool :=
  negb (bool_decide (is_argv a = is_argv b)) || negb (bool_decide (is_env a = is_env b)).

Inductive ReconcileAction :=
| Start (s : InstanceSpec)
| Stop (upstream partition_key : string)
| Restart (s : InstanceSpec)
| Refilter (s : InstanceSpec).

(** [collect] into a map: a later entry of a key replaces an earlier one. *)
Definition collect (l : list InstanceSpec) : gmap (string * string) InstanceSpec :=
  foldl (fun m s => <[instance_key s := s]> m) ∅ l.

Definition key_cmp : string * string -> string * string -> comparison :=
  lex (on fst String.compare) (on snd String.compare).

(** The entries of a [BTreeMap], in the order of its keys. *)
Definition in_key_order {A} (m : gmap (string * string) A) : list ((string * string) * A) :=
  sort_by (on fst key_cmp) (map_to_list m).

Definition reconcile (old new : list InstanceSpec) : list ReconcileAction :=
  let old_map := collect old in
  let new_map := collect new in
  concat (map (fun e => match old_map !! e.1 with
                        | None => [Start e.2]
                        | Some prev =>
                            if launch_differs prev e.2 then [Restart e.2]
                            else if negb (bool_decide (is_exposure prev = is_exposure e.2)) then [Refilter e.2]
                            else []
                        end) (in_key_order new_map)) ++
  concat (map (fun e => match new_map !! e.1 with
                        | Some _ => []
                        | None => [Stop (is_upstream e.2) e.1.2]
                        end) (in_key_order old_map)).

(** ** Partitions *)

Inductive ProxyScope := ScopeGlobal | ScopeWorkspace | ScopeWorktree.

#[global] Instance ProxyScope_eq_dec : EqDecision ProxyScope.
Proof. solve_decision. Defined.

Record WorktreeContext := mkContext {
  ctx_workspace : option string; ctx_worktree : option string; ctx_repo_root : option string; ctx_branch : option string;
}.

Definition ctx_value (ctx : WorktreeContext) (token : string) : option string :=
  if String.eqb token "workspace" then ctx_workspace ctx
  else if String.eqb token "worktree" then ctx_worktree ctx
  else if String.eqb token "repo_root" then ctx_repo_root ctx
  else if String.eqb token "branch" then ctx_branch ctx
  else None.

(** The reasons an upstream is withheld, without their prose. *)
Inductive Withheld :=
| NoWorkspace
| NoWorktree
| Unterminated (template : string)
| NoValue (token : string)
| UnknownPlaceholder (token : string)
| Unbalanced (template : string).

Definition partition_key (scope : ProxyScope) (ctx : WorktreeContext) : result Withheld string :=
  match scope with
  | ScopeGlobal => Ok "global"
  | ScopeWorkspace => match ctx_workspace ctx with Some w => Ok ("workspace:" ++ w)%string | None => Err NoWorkspace end
  | ScopeWorktree => match ctx_worktree ctx with Some w => Ok ("worktree:" ++ w)%string | None => Err NoWorktree end
  end.

Definition is_known_placeholder (token : string) : bool :=
  existsb (String.eqb token) ["workspace"; "worktree"; "repo_root"; "branch"].

Inductive Scan := Outside | Inside (token : string).

(** One pass over the template.  A character other than a brace is copied; its
    further bytes are never braces, so copying byte by byte copies it whole.
    [Inside] has read the bytes of a token and looks for its [}]. *)
Fixpoint expand_go (template : string) (ctx : WorktreeContext) (st : Scan) (s : string) : result Withheld string :=
  match st with
  | Inside token =>
      match s with
      | EmptyString => Err (Unterminated template)
      | String "}" s =>
          match ctx_value ctx token with
          | Some v => let? out := expand_go template ctx Outside s in Ok (v ++ out)%string
          | None => Err (if is_known_placeholder token then NoValue token else UnknownPlaceholder token)
          end
      | String a s => expand_go template ctx (Inside (token ++ ch a)%string) s
      end
  | Outside =>
      match s with
      | EmptyString => Ok ""
      | String "{" s1 =>
          match s1 with
          | String "{" s2 => let? out := expand_go template ctx Outside s2 in Ok (String "{" out)
          | _ => expand_go template ctx (Inside "") s1
          end
      | String "}" s1 =>
          match s1 with
          | String "}" s2 => let? out := expand_go template ctx Outside s2 in Ok (String "}" out)
          | _ => Err (Unbalanced template)
          end
      | String a s => let? out := expand_go template ctx Outside s in Ok (String a out)
      end
  end.

Definition expand_placeholders (template : string) (ctx : WorktreeContext) : result Withheld string :=
  expand_go template ctx Outside template.

Record McpProxyExposure := mkExposure { e_tools : list string; e_scope : ProxyScope }.

(** The part of a declared server the expansion reads; [env] in key order. *)
Record McpServerConfig := mkServer {
  sv_command : list string; sv_args : list string; sv_env : list (string * string); sv_proxy : option McpProxyExposure;
}.

Definition is_exposed (e : McpProxyExposure) : bool := match e_tools e with [] => false | _ => true end.

Definition is_proxy_exposed (srv : McpServerConfig) : bool := match sv_proxy srv with Some e => is_exposed e | None => false end.

Definition exposure (srv : McpServerConfig) : McpProxyExposure := default (mkExposure [] ScopeGlobal) (sv_proxy srv).

Fixpoint expand_all (ctx : WorktreeContext) (l : list string) : result Withheld (list string) :=
  match l with
  | [] => Ok []
  | a :: l => let? x := expand_placeholders a ctx in let? xs := expand_all ctx l in Ok (x :: xs)
  end.

Definition expand_spec (name : string) (srv : McpServerConfig) (ctx : WorktreeContext) : result Withheld InstanceSpec :=
  let? key := partition_key (e_scope (exposure srv)) ctx in
  let? argv := expand_all ctx (sv_command srv ++ sv_args srv) in
  let? values := expand_all ctx (map snd (sv_env srv)) in
  Ok (mkInstance name key argv (list_to_map (zip (map fst (sv_env srv)) values)) (e_tools (exposure srv))).

(** ** The hub *)

(** What a round trip gives: an answer, an error the upstream answered with, or a
    failure of the transport. *)
Inductive RpcOutcome := RpcOk (v : JsonValue) | RpcFailed (code : Z) (msg : string) | RpcTransport (e : string).

Record Upstream := mkUpstream {
  up_name : string;
  up_breaker : Breaker;
  up_tools : JsonValue;
  up_exposure : list string;
}.

Definition scope_str (s : ProxyScope) : string :=
  match s with ScopeGlobal => "global" | ScopeWorkspace => "workspace" | ScopeWorktree => "worktree" end.

(** One upstream's outcome; [health_age_ms] is left out, nothing sets it. *)
Record UpstreamReport := mkReport {
  rep_name : string;
  rep_scope : string;
  rep_partition_key : option string;
  rep_running : bool;
  rep_breaker : string;
  rep_exposed : list string;
  rep_hidden : list string;
  rep_withheld : option Withheld;
  rep_error : option string;
}.

Record Hub := mkHub { h_upstreams : list Upstream; h_aggregate : Aggregate; h_reports : list UpstreamReport }.

Definition with_lists (s : UpstreamSummary) (r : UpstreamReport) : UpstreamReport :=
  mkReport (rep_name r) (rep_scope r) (rep_partition_key r) (rep_running r) (rep_breaker r) (s_exposed s) (s_hidden s)
    (rep_withheld r) (rep_error r).

(** [iter_mut().find]: the first report of the name is written. *)
Fixpoint note_summary (rs : list UpstreamReport) (s : UpstreamSummary) : list UpstreamReport :=
  match rs with
  | [] => []
  | r :: rs => if String.eqb (rep_name r) (s_name s) then with_lists s r :: rs else r :: note_summary rs s
  end.

Definition rebuild_aggregate (h : Hub) : Hub :=
  let agg := aggregate (map (fun u => mkUpstreamTools (up_name u) (up_tools u) (up_exposure u)) (h_upstreams h)) in
  mkHub (h_upstreams h) agg (fold_left note_summary (a_summary agg) (h_reports h)).

Definition breaker_str (s : BreakerState) : string :=
  match s with BClosed => "closed" | BOpen => "open" | BHalfOpen => "half_open" end.

Definition with_breaker_str (b : string) (r : UpstreamReport) : UpstreamReport :=
  mkReport (rep_name r) (rep_scope r) (rep_partition_key r) (rep_running r) b (rep_exposed r) (rep_hidden r) (rep_withheld r) (rep_error r).

Definition hub_reports (now_ms : Z) (h : Hub) : list UpstreamReport :=
  map (fun r => if rep_running r then
                  match List.find (fun u => String.eqb (up_name u) (rep_name r)) (h_upstreams h) with
                  | Some u => with_breaker_str (breaker_str (breaker_state (up_breaker u) now_ms)) r
                  | None => r
                  end
                else r) (h_reports h).

Record McpProxyConfig := mkProxyConfig { px_failure_threshold : N; px_cooldown_secs : Z }.

Definition duration_millis (seconds : Z) : Z := Z.min (seconds * 1000) i64_max.

Definition breaker_config (c : McpProxyConfig) : BreakerConfig :=
  mkBreakerConfig (N.max (px_failure_threshold c) 1) (duration_millis (px_cooldown_secs c)).

(** The entries of a [BTreeMap] with string keys, in the order of its keys. *)
Definition name_entries {A} (m : gmap string A) : list (string * A) := sort_by (on fst String.compare) (map_to_list m).

Section Build.
(** The secret store: the value an entry of the environment stands for; and the
    launch of a server up to its tool list. *)
Context (resolve_env : string -> string -> result string string).
Context (launch : string -> list string -> gmap string string -> result string JsonValue).

Definition spawn (name : string) (argv : list string) (env : gmap string string) (exposed : list string) (cfg : BreakerConfig)
    : result string Upstream :=
  let? tools := launch name argv env in Ok (mkUpstream name (breaker_new cfg) tools exposed).

Fixpoint resolve_all (name : string) (env : list (string * string)) : result string (gmap string string) :=
  match env with
  | [] => Ok ∅
  | (k, v) :: env =>
      match resolve_env v ("mcp:" ++ name ++ ":" ++ k)%string with
      | Err e => Err ("env `" ++ k ++ "`: " ++ e)%string
      | Ok x => let? m := resolve_all name env in Ok (<[k := x]> m)
      end
  end.

(** One declared server: skipped, reported, or reported and running. *)
Definition build_one (cfg : BreakerConfig) (ctx : WorktreeContext) (acc : list Upstream * list UpstreamReport)
    (e : string * McpServerConfig) : list Upstream * list UpstreamReport :=
  let '(ups, reports) := acc in
  let '(name, srv) := e in
  if negb (is_proxy_exposed srv) then acc
  else
    let scope := scope_str (e_scope (exposure srv)) in
    match expand_spec name srv ctx with
    | Err w => (ups, reports ++ [mkReport name scope None false "n/a" [] [] (Some w) None])
    | Ok spec =>
        let key := Some (is_partition_key spec) in
        match resolve_all name (name_entries (is_env spec)) with
        | Err err => (ups, reports ++ [mkReport name scope key false "n/a" [] [] None (Some err)])
        | Ok env =>
            match spawn name (is_argv spec) env (is_exposure spec) cfg with
            | Ok up => (ups ++ [up], reports ++ [mkReport name scope key true "closed" [] [] None None])
            | Err err => (ups, reports ++ [mkReport name scope key false "n/a" [] [] None (Some err)])
            end
        end
    end.

Definition hub_build (pcfg : McpProxyConfig) (servers : gmap string McpServerConfig) (ctx : WorktreeContext) : Hub :=
  let '(ups, reports) := fold_left (build_one (breaker_config pcfg) ctx) (name_entries servers) ([], []) in
  rebuild_aggregate (mkHub ups empty_aggregate reports).

End Build.

Definition no_context : WorktreeContext := mkContext None None None None.

Definition effective_global_instances (servers : gmap string McpServerConfig) : list InstanceSpec :=
  omap (fun e : string * McpServerConfig =>
          if negb (is_proxy_exposed e.2) then None
          else if negb (bool_decide (e_scope (exposure e.2) = ScopeGlobal)) then None
          else match expand_spec e.1 e.2 no_context with Ok spec => Some spec | Err _ => None end) (name_entries servers).

(** ** Calls *)

Definition RpcError : Type := Z * string.

Definition unknown_tool_error (name : string) : RpcError :=
  ((-32601)%Z, "no such tool `" ++ name ++ "` — not advertised by any exposed upstream (check `thegn mcp list`)")%string.

Definition breaker_open_error (upstream : string) : RpcError :=
  ((-32000)%Z, "upstream `" ++ upstream ++ "` is temporarily unavailable (circuit breaker open) — retry shortly")%string.

Definition with_breaker (b : Breaker) (u : Upstream) : Upstream := mkUpstream (up_name u) b (up_tools u) (up_exposure u).

(** A call that reaches an upstream: the upstream, the tool and the arguments. *)
Record Sent := mkSent { sent_upstream : string; sent_tool : string; sent_args : JsonValue }.

Section Calls.
Context (rpc : Sent -> RpcOutcome).

(** The answer, what was sent if anything was, and the upstream afterwards. *)
Definition call_tool (tool : string) (args : JsonValue) (now_ms : Z) (u : Upstream)
    : result RpcError JsonValue * option Sent * Upstream :=
  let '(ok, b) := breaker_allow now_ms (up_breaker u) in
  let u := with_breaker b u in
  if negb ok then (Err (breaker_open_error (up_name u)), None, u)
  else
    let sent := mkSent (up_name u) tool args in
    match rpc sent with
    | RpcOk v => (Ok v, Some sent, with_breaker (on_success b) u)
    | RpcFailed code msg => (Err (code, msg), Some sent, with_breaker (on_success b) u)
    | RpcTransport e =>
        (Err ((-32000)%Z, ("upstream `" ++ up_name u ++ "` failed: " ++ e)%string), Some sent, with_breaker (on_failure now_ms b) u)
    end.

(** [iter_mut().find]: the first upstream of that name is called. *)
Fixpoint call_first (name tool : string) (args : JsonValue) (now_ms : Z) (us : list Upstream)
    : option (result RpcError JsonValue * option Sent * list Upstream) :=
  match us with
  | [] => None
  | u :: us =>
      if String.eqb (up_name u) name then
        let '(answer, sent, u) := call_tool tool args now_ms u in Some (answer, sent, u :: us)
      else
        match call_first name tool args now_ms us with
        | Some (answer, sent, us) => Some (answer, sent, u :: us)
        | None => None
        end
  end.

Definition tools_call (params : JsonValue) (now_ms : Z) (h : Hub) : result RpcError JsonValue * option Sent * Hub :=
  let name := default "" (value_get "name" params ≫= value_as_str) in
  let args := default (VObject []) (value_get "arguments" params) in
  match route (h_aggregate h) name with
  | None => (Err (unknown_tool_error name), None, h)
  | Some tr =>
      match call_first (r_upstream tr) (r_tool tr) args now_ms (h_upstreams h) with
      | None => (Err (breaker_open_error (r_upstream tr)), None, h)
      | Some (answer, sent, us) => (answer, sent, mkHub us (h_aggregate h) (h_reports h))
      end
  end.

Definition initialize_result (version : string) : JsonValue :=
  VObject [("protocolVersion", VString "2024-11-05");
           ("capabilities", VObject [("tools", VObject [("listChanged", VBool true)])]);
           ("serverInfo", VObject [("name", VString "thegn-mcp-proxy"); ("version", VString version)])].

(** The dispatch of one request; [version] is the version of the build. *)
Definition handle (version : string) (req : JsonValue) (now_ms : Z) (h : Hub) : option JsonValue * option Sent * Hub :=
  let method := default "" (value_get "method" req ≫= value_as_str) in
  match value_get "id" req with
  | None => (None, None, h)
  | Some id =>
      let '(answer, sent, h) :=
        if String.eqb method "initialize" then (Ok (initialize_result version), None, h)
        else if String.eqb method "tools/list" then (Ok (VObject [("tools", VArray (a_tools (h_aggregate h)))]), None, h)
        else if String.eqb method "tools/call" then tools_call (default VNull (value_get "params" req)) now_ms h
        else if String.eqb method "resources/list" then (Ok (VObject [("resources", VArray [])]), None, h)
        else if String.eqb method "resources/templates/list" then (Ok (VObject [("resourceTemplates", VArray [])]), None, h)
        else if String.eqb method "prompts/list" then (Ok (VObject [("prompts", VArray [])]), None, h)
        else if String.eqb method "ping" then (Ok (VObject []), None, h)
        else (Err ((-32601)%Z, ("method not found: " ++ method)%string), None, h) in
      (Some (VObject (("jsonrpc", VString "2.0") :: ("id", id) ::
               match answer with
               | Ok res => [("result", res)]
               | Err (code, msg) => [("error", VObject [("code", VNumber (fmt_i64 code)); ("message", VString msg)])]
               end)), sent, h)
  end.

End Calls.

(** ** Ids of a shared upstream *)

Record PendingId := mkPending { p_conn : N; p_orig : JsonValue }.
Record IdRewriter := mkRewriter { next_id : N; pending : gmap N PendingId }.

Definition rewriter_new : IdRewriter := mkRewriter 0 ∅.

Definition rewrite_id (conn : N) (orig : JsonValue) (r : IdRewriter) : N * IdRewriter :=
  let id := ((next_id r + 1) mod 18446744073709551616)%N in
  (id, mkRewriter id (<[id := mkPending conn orig]> (pending r))).

Definition resolve_id (id : N) (r : IdRewriter) : option PendingId * IdRewriter :=
  (pending r !! id, mkRewriter (next_id r) (delete id (pending r))).

Definition drop_connection (conn : N) (r : IdRewriter) : nat * IdRewriter :=
  let kept := filter (fun e : N * PendingId => p_conn e.2 <> conn) (pending r) in
  ((size (pending r) - size kept)%nat, mkRewriter (next_id r) kept).

Definition outstanding (r : IdRewriter) : nat := size (pending r).
