(* ===== verification/McpProxyProps.v ===== *)
(** * What the MCP proxy guarantees

    Discovery and invocation agree and stay within the exposure lists, an upstream
    that never answers is called at most so often, a response reaches the
    connection that asked and only once, a reconciliation reaches the new
    configuration and restarts nothing it need not, and a template is expanded
    exactly as written or not at all. *)
From Stdlib Require Import Ascii String.
From stdpp Require Import gmap strings.
From S2P Require Import Prelude RustOrd RustStr RustText McpProxy.
Local Open Scope string_scope.
Local Open Scope list_scope.

(** ** Aggregation *)

Definition entry_name (e : JsonValue) : option string := value_get "name" e ≫= value_as_str.

(** The tools an upstream lists. *)
Definition tool_names (up : UpstreamTools) : list string := omap entry_name (tool_entries (u_tools up)).

(** The tools of the upstreams that the filters let through. *)
Definition offered (ups : list UpstreamTools) (up : UpstreamTools) (tool : string) : Prop :=
  up ∈ ups /\ tool ∈ tool_names up /\ tool_exposed (u_exposure up) tool = true.

Lemma assoc_set_get k x l : assoc k (assoc_set k x l) = Some x.
Proof.
  induction l as [|[k' v] l IH]; simpl; [by rewrite String.eqb_refl|].
  destruct (String.eqb k' k) eqn:E; simpl; [by rewrite String.eqb_refl|by rewrite E].
Qed.

Lemma advertise_name e n tool : entry_name e = Some tool -> entry_name (advertise e n) = Some n.
Proof. unfold entry_name. destruct e; try done. intros _. simpl. by rewrite assoc_set_get. Qed.

(** What holds of the table while the entries are read; [P] says which tools were
    offered so far. *)
Record table_ok (P : string -> string -> Prop) (tools : list JsonValue) (routes : gmap string ToolRoute) : Prop := {
  t_sound : forall n r, routes !! n = Some r -> n = namespaced (r_upstream r) (r_tool r) /\ P (r_upstream r) (r_tool r);
  t_complete : forall u t, P u t -> is_Some (routes !! namespaced u t);
  t_names : exists ns, map entry_name tools = map Some ns /\ NoDup ns /\ forall n, n ∈ ns <-> is_Some (routes !! n);
}.

Lemma table_ext P Q tools routes : (forall u t, P u t <-> Q u t) -> table_ok P tools routes -> table_ok Q tools routes.
Proof. intros H [? ? ?]. split; [naive_solver|intros u t ?%H; auto|done]. Qed.

Lemma table_entry P up e tools routes ls :
  table_ok P tools routes ->
  let '(tools', routes', _) := aggregate_entry up (tools, routes, ls) e in
  table_ok (fun u t => P u t \/ (u = u_name up /\ entry_name e = Some t /\ tool_exposed (u_exposure up) t = true)) tools' routes'.
Proof.
  intros H. unfold aggregate_entry. fold (entry_name e). destruct (entry_name e) as [tool|] eqn:En.
  2: { eapply table_ext; [|exact H]. naive_solver. }
  destruct (tool_exposed (u_exposure up) tool) eqn:Ee; cbn [negb].
  2: { eapply table_ext; [|exact H]. intros u t. split; [by left|]. intros [?|(_ & [= <-] & ?)]; congruence. }
  destruct (routes !! namespaced (u_name up) tool) as [r0|] eqn:Er.
  - destruct H as [H1 H2 H3]. split; [naive_solver| |done]. intros u t [?|(-> & [= <-] & _)]; [auto|by eexists].
  - destruct H as [H1 H2 (ns & N1 & N2 & N3)]. split.
    + intros n r [ [<- <-]|[_ Hr] ]%lookup_insert_Some; [by auto|naive_solver].
    + intros u t [Hp|(-> & [= <-] & _)]; [|rewrite lookup_insert_eq; by eexists].
      destruct (decide (namespaced (u_name up) tool = namespaced u t)) as [->|]; [rewrite lookup_insert_eq; by eexists|].
      rewrite lookup_insert_ne by done. auto.
    + exists (ns ++ [namespaced (u_name up) tool]). split_and!.
      * rewrite !map_app, N1. simpl. by rewrite (advertise_name e _ tool).
      * apply NoDup_app. split_and!; [done| |apply NoDup_singleton]. intros n Hn ->%list_elem_of_singleton.
        apply N3 in Hn as [? Hn]. congruence.
      * intros n. rewrite elem_of_app, list_elem_of_singleton, N3, lookup_insert_is_Some.
        destruct (decide (namespaced (u_name up) tool = n)); naive_solver.
Qed.

Lemma table_entries P up es tools routes ls :
  table_ok P tools routes ->
  let '(tools', routes', _) := fold_left (aggregate_entry up) es (tools, routes, ls) in
  table_ok (fun u t => P u t \/ (u = u_name up /\ t ∈ omap entry_name es /\ tool_exposed (u_exposure up) t = true)) tools' routes'.
Proof.
  revert P tools routes ls. induction es as [|e es IH]; intros P tools routes ls H; cbn [fold_left].
  - eapply table_ext; [|exact H]. intros u t. split; [by left|]. intros [?|(_ & Hn & _)]; [done|]. by apply not_elem_of_nil in Hn.
  - pose proof (table_entry P up e tools routes ls H) as He. destruct (aggregate_entry up (tools, routes, ls) e) as [ [tools1 routes1] ls1].
    specialize (IH _ tools1 routes1 ls1 He). destruct (fold_left _ es _) as [ [tools2 routes2] ls2].
    eapply table_ext; [|exact IH]. intros u t. cbn [omap list_omap]. destruct (entry_name e) as [x|]; [|naive_solver].
    rewrite elem_of_cons. naive_solver.
Qed.

Lemma aggregate_table ups :
  table_ok (fun u t => exists up, u_name up = u /\ offered ups up t) (a_tools (aggregate ups)) (a_routes (aggregate ups)).
Proof.
  induction ups as [|up ups IH] using rev_ind.
  - split; [intros n r H; change (a_routes (aggregate [])) with (∅ : gmap string ToolRoute) in H; by rewrite lookup_empty in H|intros u t (up & _ & H & _); by apply not_elem_of_nil in H|].
    exists []. split_and!; [done|apply NoDup_nil_2|]. intros n. change (a_routes (aggregate [])) with (∅ : gmap string ToolRoute).
    rewrite lookup_empty. split; [intros H; by apply not_elem_of_nil in H|intros [? [=] ] ].
  - unfold aggregate in *. rewrite fold_left_app. cbn [fold_left]. set (agg := fold_left aggregate_one ups empty_aggregate) in *.
    unfold aggregate_one. pose proof (table_entries _ up (tool_entries (u_tools up)) _ _ (mkLists [] [] []) IH) as H.
    destruct (fold_left (aggregate_entry up) _ _) as [ [tools routes] ls]. cbn [a_tools a_routes].
    eapply table_ext; [|exact H]. intros u t. unfold offered. split.
    + intros [(up' & <- & Hin & ?)|(-> & ? & ?)]; [exists up'|exists up]; rewrite elem_of_app, list_elem_of_singleton; naive_solver.
    + intros (up' & <- & [Hin| ->%list_elem_of_singleton]%elem_of_app & ? & ?); [left; by exists up'|right; done].
Qed.

(** Discovery and invocation agree and stay within the filters.  Whatever the
    upstreams list - duplicate names, entries without a name, names that collide
    across upstreams -, the advertised names are distinct, they are exactly the
    names that can be called, each is routed to a tool some upstream listed under
    a pattern of its own exposure list, and every tool so listed is advertised
    under its name. *)
Theorem aggregate_exact ups :
  let agg := aggregate ups in
  (exists ns, map entry_name (a_tools agg) = map Some ns /\ NoDup ns /\ forall n, n ∈ ns <-> is_Some (route agg n)) /\
  (forall n r, route agg n = Some r ->
     n = namespaced (r_upstream r) (r_tool r) /\ exists up, u_name up = r_upstream r /\ offered ups up (r_tool r)) /\
  (forall up tool, offered ups up tool -> is_Some (route agg (namespaced (u_name up) tool))).
Proof.
  destruct (aggregate_table ups) as [H1 H2 H3]. split_and!; [done|done|]. intros up tool H. apply H2. by exists up.
Qed.

(** ** Calls *)

(** A request as it arrives: what the upstreams answer then, the request, the time. *)
Record Request := mkRequest { q_rpc : Sent -> RpcOutcome; q_json : JsonValue; q_now : Z }.

(** The calls that reach an upstream while the requests are served in order. *)
Fixpoint serve (version : string) (h : Hub) (qs : list Request) : list Sent * Hub :=
  match qs with
  | [] => ([], h)
  | q :: qs =>
      let '(_, sent, h) := handle (q_rpc q) version (q_json q) (q_now q) h in
      let '(sents, h) := serve version h qs in
      (option_list sent ++ sents, h)
  end.

(** The upstream a call by name reaches. *)
Definition first_named (name : string) (us : list Upstream) : option Upstream :=
  List.find (fun u => String.eqb (up_name u) name) us.

Lemma call_tool_name rpc tool args now u : up_name (call_tool rpc tool args now u).2 = up_name u.
Proof. unfold call_tool. destruct (breaker_allow now (up_breaker u)) as [ [] b]; simpl; [by destruct (rpc _)|done]. Qed.

Lemma call_tool_sent rpc tool args now u s :
  (call_tool rpc tool args now u).1.2 = Some s -> s = mkSent (up_name u) tool args.
Proof.
  unfold call_tool. destruct (breaker_allow now (up_breaker u)) as [ [] b]; simpl; [destruct (rpc _); simpl; congruence|done].
Qed.

Lemma call_first_some rpc name tool args now us answer sent us' :
  call_first rpc name tool args now us = Some (answer, sent, us') ->
  exists u u', first_named name us = Some u /\ call_tool rpc tool args now u = (answer, sent, u') /\
    first_named name us' = Some u' /\ forall n, n <> name -> first_named n us' = first_named n us.
Proof.
  revert us'. induction us as [|u us IH]; intros us'; simpl; [done|]. destruct (String.eqb (up_name u) name) eqn:E.
  - pose proof (call_tool_name rpc tool args now u) as Hn. destruct (call_tool rpc tool args now u) as [ [a s] u'] eqn:Ec.
    intros [= <- <- <-]. exists u, u'. simpl in Hn |- *. rewrite Hn, E. split_and!; try done.
    intros n Hne. apply String.eqb_eq in E. destruct (String.eqb_spec (up_name u) n); congruence.
  - destruct (call_first rpc name tool args now us) as [ [ [a s] us1]|]; [|done]. intros [= <- <- <-].
    destruct (IH us1 eq_refl) as (u0 & u' & H1 & H2 & H3 & H4). exists u0, u'. simpl. rewrite E. split_and!; try done.
    intros n Hne. by rewrite H4.
Qed.

(** What one request does to the hub: nothing, or one call of a routed tool to the
    first upstream of its name. *)
Inductive HandleStep (q : Request) (h : Hub) : option Sent -> Hub -> Prop :=
| StepIdle : HandleStep q h None h
| StepCall name tr args u answer sent u' us' :
    route (h_aggregate h) name = Some tr ->
    first_named (r_upstream tr) (h_upstreams h) = Some u ->
    call_tool (q_rpc q) (r_tool tr) args (q_now q) u = (answer, sent, u') ->
    first_named (r_upstream tr) us' = Some u' ->
    (forall n, n <> r_upstream tr -> first_named n us' = first_named n (h_upstreams h)) ->
    HandleStep q h sent (mkHub us' (h_aggregate h) (h_reports h)).

Lemma handle_step version q h :
  let '(_, sent, h') := handle (q_rpc q) version (q_json q) (q_now q) h in HandleStep q h sent h'.
Proof.
  unfold handle. destruct (value_get "id" (q_json q)) as [id|]; [|constructor].
  repeat match goal with |- context [if String.eqb ?a ?b then _ else _] => destruct (String.eqb a b); [try constructor|] end;
    try constructor.
  unfold tools_call. set (name := default "" _). destruct (route (h_aggregate h) name) as [tr|] eqn:Er; [|constructor].
  destruct (call_first _ _ _ _ _ _) as [ [ [a s] us']|] eqn:Ec; [|constructor].
  destruct (call_first_some _ _ _ _ _ _ _ _ _ Ec) as (u & u' & H1 & H2 & H3 & H4). by eapply StepCall.
Qed.

Lemma handle_aggregate q h sent h' : HandleStep q h sent h' -> h_aggregate h' = h_aggregate h.
Proof. by destruct 1. Qed.

Lemma handle_routed q h sent h' s :
  HandleStep q h sent h' -> sent = Some s -> exists name tr,
    route (h_aggregate h) name = Some tr /\ sent_upstream s = r_upstream tr /\ sent_tool s = r_tool tr.
Proof.
  destruct 1 as [|name tr args u answer sent u' us' H1 H2 H3]; [done|]. intros ->. exists name, tr. split; [done|].
  pose proof (call_tool_sent (q_rpc q) (r_tool tr) args (q_now q) u s) as Hs. rewrite H3 in Hs. rewrite (Hs eq_refl). simpl.
  apply find_some in H2 as [_ H2%String.eqb_eq]. done.
Qed.

(** The tools an upstream of the hub lists and its exposure list names. *)
Definition hub_offers (h : Hub) (name tool : string) : Prop :=
  exists u, u ∈ h_upstreams h /\ up_name u = name /\ tool_exposed (up_exposure u) tool = true /\
    tool ∈ omap entry_name (tool_entries (up_tools u)).

Lemma served_offered version h qs s :
  s ∈ (serve version (rebuild_aggregate h) qs).1 -> hub_offers h (sent_upstream s) (sent_tool s).
Proof.
  assert (Hg : forall hub, h_aggregate hub = h_aggregate (rebuild_aggregate h) ->
    s ∈ (serve version hub qs).1 -> hub_offers h (sent_upstream s) (sent_tool s)); [|by apply Hg].
  induction qs as [|q qs IH]; intros hub Ha; simpl; [by intros ?%not_elem_of_nil|].
  pose proof (handle_step version q hub) as Hs. destruct (handle _ _ _ _ hub) as [ [a sent] hub'].
  specialize (IH hub'). destruct (serve version hub' qs) as [sents hub'']. simpl in *.
  rewrite elem_of_app. intros [Hin|Hin]; [|apply IH; [|done]; rewrite (handle_aggregate _ _ _ _ Hs); done].
  destruct sent as [s0|]; [|by apply not_elem_of_nil in Hin]. apply list_elem_of_singleton in Hin as ->.
  destruct (handle_routed _ _ _ _ _ Hs eq_refl) as (name & tr & Hr & -> & ->). rewrite Ha in Hr.
  apply (t_sound _ _ _ (aggregate_table _)) in Hr as (_ & up & <- & Hup & Ht & He).
  apply list_elem_of_fmap in Hup as (u & -> & Hu). by exists u.
Qed.

Section Built.
Context (resolve_env : string -> string -> result string string).
Context (launch : string -> list string -> gmap string string -> result string JsonValue).

(** An upstream that runs for a declared server: the server opted in, its
    template was filled for this context, and it is the process launched from it. *)
Definition runs_for (servers : gmap string McpServerConfig) (ctx : WorktreeContext) (cfg : BreakerConfig) (u : Upstream) : Prop :=
  exists srv spec env, servers !! up_name u = Some srv /\ is_proxy_exposed srv = true /\
    expand_spec (up_name u) srv ctx = Ok spec /\
    launch (up_name u) (is_argv spec) env = Ok (up_tools u) /\
    up_exposure u = e_tools (exposure srv) /\ up_breaker u = breaker_new cfg.

Lemma expand_spec_exposure name srv ctx spec : expand_spec name srv ctx = Ok spec -> is_exposure spec = e_tools (exposure srv).
Proof.
  unfold expand_spec. destruct (partition_key _ _); [|done]; simpl. destruct (expand_all ctx (sv_command srv ++ sv_args srv)); [|done]; simpl.
  destruct (expand_all ctx (map snd (sv_env srv))); [|done]; simpl. by intros [= <-].
Qed.

Lemma build_runs servers ctx cfg es ups reports :
  (forall e, e ∈ es -> servers !! e.1 = Some e.2) -> (forall u, u ∈ ups -> runs_for servers ctx cfg u) ->
  forall u, u ∈ (fold_left (build_one resolve_env launch cfg ctx) es (ups, reports)).1 -> runs_for servers ctx cfg u.
Proof.
  revert ups reports. induction es as [|[name srv] es IH]; intros ups reports He Hups; simpl; [done|].
  assert (Hes : forall e, e ∈ es -> servers !! e.1 = Some e.2) by (intros; apply He; by right).
  destruct (is_proxy_exposed srv) eqn:Ex; simpl; [|by apply IH].
  destruct (expand_spec name srv ctx) as [spec|w] eqn:Esp; [|by apply IH].
  destruct (resolve_all _ _ _) as [env|]; [|by apply IH].
  unfold spawn. destruct (launch name (is_argv spec) env) as [tools|] eqn:El; simpl; [|by apply IH].
  apply IH; [done|]. intros u [Hu| ->%list_elem_of_singleton]%elem_of_app; [by apply Hups|].
  exists srv, spec, env. simpl. split_and!; try done; [apply (He (name, srv)); by left|by eapply expand_spec_exposure].
Qed.

(** C9. A client reaches only what its worktree may use.  Whatever requests a hub
    built from the configuration serves, in whatever order and with whatever
    answers, every call that leaves it goes to a declared server that opted in,
    whose template was filled from the calling worktree, and names a tool that
    the process launched for it listed and that a pattern of the server's own
    exposure list matches. *)
Theorem proxy_confined pcfg servers ctx version qs s :
  s ∈ (serve version (hub_build resolve_env launch pcfg servers ctx) qs).1 ->
  exists srv spec env tools, servers !! sent_upstream s = Some srv /\ is_proxy_exposed srv = true /\
    tool_exposed (e_tools (exposure srv)) (sent_tool s) = true /\
    expand_spec (sent_upstream s) srv ctx = Ok spec /\
    launch (sent_upstream s) (is_argv spec) env = Ok tools /\ sent_tool s ∈ omap entry_name (tool_entries tools).
Proof.
  unfold hub_build.
  pose proof (build_runs servers ctx (breaker_config pcfg) (name_entries servers) [] []) as Hb.
  destruct (fold_left _ _ _) as [ups reports]. intros (u & Hu & <- & Hx & Ht)%served_offered.
  destruct (Hb) with (u := u) as (srv & spec & env & H1 & H2 & H3 & H4 & H5 & _); [| |done|].
  - intros [k x]. unfold name_entries. rewrite elem_of_sort_by. apply elem_of_map_to_list.
  - by intros ? ?%not_elem_of_nil.
  - exists srv, spec, env, (up_tools u). rewrite <- H5. by split_and!.
Qed.

End Built.

(** *** The breaker *)

(** The calls to one upstream. *)
Definition calls_to (name : string) (sents : list Sent) : nat :=
  length (List.filter (fun s => String.eqb (sent_upstream s) name) sents).

Lemma calls_to_app name l1 l2 : calls_to name (l1 ++ l2) = (calls_to name l1 + calls_to name l2)%nat.
Proof. unfold calls_to. by rewrite List.filter_app, length_app. Qed.

(** A step reaches [name] as one call of its upstream, or leaves it alone. *)
Lemma step_at name q h sent h' :
  HandleStep q h sent h' ->
  (calls_to name (option_list sent) = 0%nat /\ first_named name (h_upstreams h') = first_named name (h_upstreams h)) \/
  (exists tool args u answer u', first_named name (h_upstreams h) = Some u /\ first_named name (h_upstreams h') = Some u' /\
     up_name u = name /\ call_tool (q_rpc q) tool args (q_now q) u = (answer, sent, u')).
Proof.
  destruct 1 as [|n tr args u answer sent u' us' H1 H2 H3 H4 H5]; [by left|].
  apply find_some in H2 as Hu. destruct Hu as [_ Hu%String.eqb_eq].
  destruct (decide (name = r_upstream tr)) as [->|Hne].
  - right. eexists (r_tool tr), args, u, answer, u'. by split_and!.
  - left. split; [|by apply H5]. destruct sent as [s|]; [|done].
    pose proof (call_tool_sent (q_rpc q) (r_tool tr) args (q_now q) u s) as Hs. rewrite H3 in Hs. rewrite (Hs eq_refl).
    unfold calls_to. simpl. rewrite Hu. destruct (String.eqb_spec (r_upstream tr) name); [congruence|done].
Qed.

(** The breaker of an upstream that has failed [k] calls since [t0] and answered
    none, at [t]. *)
Definition breaker_bound (cfg : BreakerConfig) (t0 t : Z) (k : nat) (b : Breaker) : Prop :=
  b_cfg b = cfg /\
  match b_state b with
  | BClosed => consecutive_failures b = N.of_nat k /\ (N.of_nat k < failure_threshold cfg)%N
  | BOpen => (t0 <= opened_at b <= t)%Z /\ (Z.of_nat k <= Z.of_N (failure_threshold cfg) + (opened_at b - t0) / cooldown_ms cfg)%Z
  | BHalfOpen => False
  end.

Lemma breaker_bound_mono cfg t0 t t' k b : (t <= t')%Z -> breaker_bound cfg t0 t k b -> breaker_bound cfg t0 t' k b.
Proof. unfold breaker_bound. destruct (b_state b); intros; intuition lia. Qed.

Lemma breaker_bound_count cfg t0 t k b :
  (0 < cooldown_ms cfg)%Z -> (t0 <= t)%Z -> breaker_bound cfg t0 t k b ->
  (Z.of_nat k <= Z.of_N (failure_threshold cfg) + (t - t0) / cooldown_ms cfg)%Z.
Proof.
  intros Hc Ht [_ H]. destruct (b_state b); [|destruct H as [H1 H2]|done].
  - pose proof (Z.div_pos (t - t0) (cooldown_ms cfg)). lia.
  - pose proof (Z.div_le_mono (opened_at b - t0) (t - t0) (cooldown_ms cfg)). lia.
Qed.

(** A probe is let through only a cooldown after the breaker opened. *)
Lemma probe_spaced cfg t0 k b now :
  (0 < cooldown_ms cfg)%Z -> b_cfg b = cfg -> cooled_down b now = true ->
  (Z.of_nat k <= Z.of_N (failure_threshold cfg) + (opened_at b - t0) / cooldown_ms cfg)%Z ->
  (Z.of_nat (S k) <= Z.of_N (failure_threshold cfg) + (now - t0) / cooldown_ms cfg)%Z.
Proof.
  intros Hc Hcfg Hcool Hk. unfold cooled_down in Hcool. rewrite Hcfg in Hcool. apply Z.leb_le in Hcool.
  unfold i64_sat_sub, i64_min, i64_max in Hcool.
  pose proof (Z.div_le_mono (opened_at b - t0 + 1 * cooldown_ms cfg) (now - t0) (cooldown_ms cfg)) as Hd.
  rewrite Z.div_add in Hd by lia. lia.
Qed.

Lemma failing_call cfg rpc tool args now u t0 t k answer sent u' :
  (0 < cooldown_ms cfg)%Z -> (failure_threshold cfg <= u32_max)%N -> (t0 <= t <= now)%Z ->
  (forall s, sent_upstream s = up_name u -> exists e, rpc s = RpcTransport e) ->
  breaker_bound cfg t0 t k (up_breaker u) -> call_tool rpc tool args now u = (answer, sent, u') ->
  breaker_bound cfg t0 now (k + calls_to (up_name u) (option_list sent)) (up_breaker u').
Proof.
  intros Hc Hth Ht Hrpc [Hcfg Hb]. unfold call_tool, breaker_allow.
  assert (Hf : forall a : string, calls_to (up_name u) (option_list (Some (mkSent (up_name u) tool args))) = 1%nat).
  { intros _. unfold calls_to. simpl. by rewrite String.eqb_refl. }
  destruct (Hrpc (mkSent (up_name u) tool args) eq_refl) as [e He].
  destruct (b_state (up_breaker u)) eqn:Es; [|destruct (cooled_down (up_breaker u) now) eqn:Ec|done]; simpl.
  - rewrite He. intros [= <- <- <-]. rewrite (Hf ""). unfold on_failure, breaker_bound. simpl. rewrite Es, Hcfg.
    destruct Hb as [Hn Hlt]. rewrite Hn.
    assert (Hmin : N.min (N.of_nat k + 1) u32_max = N.of_nat (k + 1)) by lia. rewrite Hmin.
    destruct (N.leb_spec (failure_threshold cfg) (N.of_nat (k + 1))); simpl; (split; [done|]); split; try lia.
    pose proof (Z.div_pos (now - t0) (cooldown_ms cfg)). lia.
  - rewrite He. intros [= <- <- <-]. rewrite (Hf ""). unfold on_failure, breaker_bound. simpl. split; [done|]. split; [lia|].
    rewrite Nat.add_1_r. eapply probe_spaced; [done|exact Hcfg|done|apply Hb].
  - intros [= <- <- <-]. unfold breaker_bound. simpl. rewrite Es, Hcfg. unfold calls_to. simpl. rewrite Nat.add_0_r. split; [done|]. intuition lia.
Qed.

(** The times of the requests do not go back and end by [t1]. *)
Fixpoint timed (t t1 : Z) (qs : list Request) : Prop :=
  match qs with
  | [] => (t <= t1)%Z
  | q :: qs => (t <= q_now q)%Z /\ timed (q_now q) t1 qs
  end.

Lemma serve_bound cfg name t0 t1 version qs t h k u :
  (0 < cooldown_ms cfg)%Z -> (failure_threshold cfg <= u32_max)%N -> (t0 <= t)%Z -> timed t t1 qs ->
  Forall (fun q => forall s, sent_upstream s = name -> exists e, q_rpc q s = RpcTransport e) qs ->
  first_named name (h_upstreams h) = Some u -> breaker_bound cfg t0 t k (up_breaker u) ->
  (Z.of_nat (k + calls_to name (serve version h qs).1) <= Z.of_N (failure_threshold cfg) + (t1 - t0) / cooldown_ms cfg)%Z.
Proof.
  intros Hc Hth. revert t h k u. induction qs as [|q qs IH]; intros t h k u Ht Htm Hr Hu Hb; simpl in Htm |- *.
  - change (calls_to name []) with 0%nat. rewrite Nat.add_0_r.
    apply (breaker_bound_count cfg t0 t1 k (up_breaker u)); [done|lia|by eapply breaker_bound_mono].
  - apply Forall_cons in Hr as [Hq Hr]. destruct Htm as [Hn Htm].
    pose proof (handle_step version q h) as Hs. destruct (handle _ _ _ _ h) as [ [a sent] h'].
    destruct (serve version h' qs) as [sents h''] eqn:Eserve. cbn [fst]. rewrite calls_to_app, Nat.add_assoc.
    assert (Hsents : sents = (serve version h' qs).1) by (by rewrite Eserve). rewrite Hsents.
    destruct (step_at name _ _ _ _ Hs) as [ [H0 Hsame]|(tool & args & v & answer & v' & H1 & H2 & H3 & H4)].
    + rewrite H0, Nat.add_0_r. apply (IH (q_now q) h' k u); [lia|done|done|congruence|by eapply breaker_bound_mono].
    + assert (v = u) as -> by congruence.
      apply (IH (q_now q) h' (k + calls_to name (option_list sent))%nat v'); [lia|done|done|done|].
      rewrite <- H3. apply (failing_call cfg (q_rpc q) tool args (q_now q) u t0 t k answer sent v'); [done|done|lia|by rewrite H3|done|done].
Qed.

(** C35. A dead upstream is left alone.  Whatever requests the hub serves between
    [t0] and [t1], an upstream whose round trips all fail is called at most as
    often as its failure threshold says and then once per cooldown: the breaker
    admits a single probe each time and a failed probe starts a whole new
    cooldown. *)
Theorem dead_upstream_bounded cfg name version h u qs t0 t1 :
  (0 < cooldown_ms cfg)%Z -> (failure_threshold cfg <= u32_max)%N ->
  first_named name (h_upstreams h) = Some u -> up_breaker u = breaker_new cfg ->
  timed t0 t1 qs ->
  Forall (fun q => forall s, sent_upstream s = name -> exists e, q_rpc q s = RpcTransport e) qs ->
  (Z.of_nat (calls_to name (serve version h qs).1)
     <= Z.max 1 (Z.of_N (failure_threshold cfg)) + (t1 - t0) / cooldown_ms cfg)%Z.
Proof.
  intros Hc Hth Hu Hb Ht Hr. pose proof (serve_bound (b_cfg (breaker_new cfg)) name t0 t1 version qs t0 h 0 u) as H.
  cbn [breaker_new b_cfg failure_threshold cooldown_ms] in H. rewrite Z.max_l in H by lia. rewrite N2Z.inj_max in H.
  rewrite Z.max_comm. apply H; try done; try (unfold u32_max in *; lia).
  rewrite Hb. split; [unfold breaker_new; simpl; by rewrite Z.max_l by lia|]. simpl. lia.
Qed.

(** The half-open state itself does not count probes: once one was admitted, every
    further question is answered yes until a result is recorded.  The hub asks
    and records within one call, so no second probe comes between. *)
Lemma half_open_unlimited b now now' :
  b_state b = BOpen -> (breaker_allow now b).1 = true -> breaker_allow now' (breaker_allow now b).2 = (true, (breaker_allow now b).2).
Proof. intros H. unfold breaker_allow at 1 3 4. rewrite H. destruct (cooled_down b now); simpl; [|done]. by intros _. Qed.

(** ** Ids *)

Inductive IdEvent := ERewrite (conn : N) (orig : JsonValue) | EResolve (id : N) | EDrop (conn : N).

Definition id_step (e : IdEvent) (r : IdRewriter) : IdRewriter :=
  match e with
  | ERewrite c o => (rewrite_id c o r).2
  | EResolve id => (resolve_id id r).2
  | EDrop c => (drop_connection c r).2
  end.

Definition id_run (es : list IdEvent) (r : IdRewriter) : IdRewriter := fold_left (fun r e => id_step e r) es r.

Definition is_rewrite (e : IdEvent) : bool := match e with ERewrite _ _ => true | _ => false end.
Definition rewrites (es : list IdEvent) : N := N.of_nat (length (List.filter is_rewrite es)).

(** What takes the request [id] of [conn] off the table. *)
Definition settles (conn id : N) (e : IdEvent) : bool :=
  match e with ERewrite _ _ => false | EResolve i => N.eqb i id | EDrop c => N.eqb c conn end.

Lemma rewrites_app l1 l2 : rewrites (l1 ++ l2) = (rewrites l1 + rewrites l2)%N.
Proof. unfold rewrites. rewrite List.filter_app, length_app. lia. Qed.

(** Ids are handed out in order until they wrap. *)
Lemma next_id_counts es : (rewrites es < 2 ^ 64)%N -> next_id (id_run es rewriter_new) = rewrites es.
Proof.
  induction es as [|e es IH] using rev_ind; [done|]. intros H. rewrite rewrites_app in *. unfold id_run in *.
  rewrite fold_left_app. simpl. destruct e; unfold rewrites in *; simpl in *; rewrite ?IH by lia; try lia.
  rewrite N.mod_small; lia.
Qed.

Lemma drop_lookup c r i : pending (drop_connection c r).2 !! i = (pending r !! i ≫= fun p => if N.eqb (p_conn p) c then None else Some p).
Proof.
  unfold drop_connection. simpl. rewrite map_lookup_filter. destruct (pending r !! i) as [p|]; [|done]. simpl.
  destruct (N.eqb_spec (p_conn p) c) as [E|E]; case_guard; try done; exfalso; auto.
Qed.

(** One more event: an id handed out earlier is settled or kept as it was. *)
Lemma pending_step e r c o i :
  (1 <= i <= next_id r)%N -> (is_rewrite e = true -> (next_id r + 1 < 2 ^ 64)%N) ->
  pending r !! i = Some (mkPending c o) \/ pending r !! i = None ->
  pending (id_step e r) !! i = if settles c i e then None else pending r !! i.
Proof.
  intros Hi Hlt Hp. destruct e as [c' o'|j|c']; simpl.
  - rewrite lookup_insert_ne; [done|]. rewrite N.mod_small by (specialize (Hlt eq_refl); lia). lia.
  - destruct (N.eqb_spec j i) as [->|]; [by rewrite lookup_delete_eq|by rewrite lookup_delete_ne].
  - pose proof (drop_lookup c' r i) as Hd. unfold drop_connection in Hd. simpl in Hd. rewrite Hd.
    destruct Hp as [->| ->]; simpl; [rewrite (N.eqb_sym c); done|by destruct (N.eqb c' c)].
Qed.

Lemma pending_run mid pre c o :
  let i := (rewrites pre + 1)%N in
  (rewrites pre + 1 + rewrites mid < 2 ^ 64)%N ->
  pending (id_run (pre ++ [ERewrite c o] ++ mid) rewriter_new) !! i =
    if existsb (settles c i) mid then None else Some (mkPending c o).
Proof.
  intros i. induction mid as [|e mid IH] using rev_ind; intros H.
  - change (rewrites []) with 0%N in H. rewrite app_nil_r. unfold id_run. rewrite fold_left_app. simpl.
    fold (id_run pre rewriter_new). rewrite next_id_counts, N.mod_small by lia. subst i. by rewrite lookup_insert_eq.
  - rewrite !app_assoc. unfold id_run. rewrite fold_left_app. simpl. rewrite <- app_assoc.
    fold (id_run (pre ++ [ERewrite c o] ++ mid) rewriter_new). rewrite rewrites_app in H.
    assert (Hlt : (rewrites pre + 1 + rewrites mid < 2 ^ 64)%N) by lia. specialize (IH Hlt).
    assert (Hn : next_id (id_run (pre ++ [ERewrite c o] ++ mid) rewriter_new) = (rewrites pre + 1 + rewrites mid)%N).
    { rewrite next_id_counts; rewrite !rewrites_app; change (rewrites [ERewrite c o]) with 1%N; lia. }
    rewrite (pending_step _ _ c o), existsb_app, IH; cbn [existsb].
    + rewrite orb_false_r. destruct (existsb _ mid), (settles c i e); done.
    + rewrite Hn. subst i. lia.
    + rewrite Hn. intros He. unfold rewrites in H. simpl in H. rewrite He in H. simpl in H. unfold rewrites. lia.
    + rewrite IH. destruct (existsb _ mid); auto.
Qed.

(** A response goes to the connection that asked, once.  However the requests
    of several connections, their responses and their disconnects interleave on
    a shared upstream, the id a request was given resolves to that connection
    and the id it had used, exactly as long as no response has claimed it and
    the connection is still there; after that it resolves to nothing.  The ids
    are those of the first 2^64 - 1 requests. *)
Theorem response_routed_once pre c o mid :
  (rewrites pre + 1 + rewrites mid < 2 ^ 64)%N ->
  let '(id, r) := rewrite_id c o (id_run pre rewriter_new) in
  (resolve_id id (id_run mid r)).1 = if existsb (settles c id) mid then None else Some (mkPending c o).
Proof.
  intros H. destruct (rewrite_id c o (id_run pre rewriter_new)) as [id r] eqn:E.
  pose proof (pending_run mid pre c o H) as Hp. unfold rewrite_id in E. rewrite next_id_counts, N.mod_small in E by lia.
  injection E as <- <-. unfold resolve_id. simpl. rewrite <- Hp. unfold id_run. rewrite !fold_left_app. simpl.
  fold (id_run pre rewriter_new). rewrite next_id_counts, N.mod_small by lia. done.
Qed.

(** ** Reconciliation *)

(** The running instances: the specification each was given and the process it
    runs as.  A start and a restart make a new process, a refilter keeps it. *)
Abbreviation Fleet := (gmap (string * string) (InstanceSpec * bool)).

Definition carry_out (f : Fleet) (a : ReconcileAction) : Fleet :=
  match a with
  | Start s | Restart s => <[instance_key s := (s, true)]> f
  | Stop u k => delete (u, k) f
  | Refilter s => match f !! instance_key s with Some (_, fresh) => <[instance_key s := (s, fresh)]> f | None => f end
  end.

(** The fleet a configuration describes, its processes already running. *)
Definition running (l : list InstanceSpec) : Fleet := (fun s => (s, false)) <$> collect l.

Lemma collect_key l k s : collect l !! k = Some s -> k = instance_key s.
Proof.
  unfold collect. induction l as [|x l IH] using rev_ind; simpl; [by rewrite lookup_empty|].
  rewrite foldl_app. simpl. intros [ [<- <-]|[_ H] ]%lookup_insert_Some; auto.
Qed.

(** The key an action is about. *)
Definition action_key (a : ReconcileAction) : string * string :=
  match a with Start s | Restart s | Refilter s => instance_key s | Stop u k => (u, k) end.

(** What an action does to the instance it is about. *)
Definition effect (o : option (InstanceSpec * bool)) (a : ReconcileAction) : option (InstanceSpec * bool) :=
  match a with
  | Start s | Restart s => Some (s, true)
  | Stop _ _ => None
  | Refilter s => (fun p => (s, p.2)) <$> o
  end.

Definition about (k : string * string) (a : ReconcileAction) : bool := bool_decide (action_key a = k).

Lemma carry_out_at f a k : carry_out f a !! k = if about k a then effect (f !! k) a else f !! k.
Proof.
  unfold about. case_bool_decide as H; [subst k|]; destruct a as [s|u k'|s|s]; simpl in *.
  - by rewrite lookup_insert_eq.
  - by rewrite lookup_delete_eq.
  - by rewrite lookup_insert_eq.
  - destruct (f !! instance_key s) as [ [? fresh]|] eqn:E; simpl; [by rewrite lookup_insert_eq|done].
  - by rewrite lookup_insert_ne.
  - by rewrite lookup_delete_ne.
  - by rewrite lookup_insert_ne.
  - destruct (f !! instance_key s) as [ [? fresh]|]; [by rewrite lookup_insert_ne|done].
Qed.

Lemma carry_out_all l f k : foldl carry_out f l !! k = foldl effect (f !! k) (List.filter (about k) l).
Proof.
  revert f. induction l as [|a l IH]; intros f; simpl; [done|]. rewrite IH, carry_out_at. by destruct (about k a).
Qed.

Lemma about_entry (k k' : string * string) l :
  (forall a, a ∈ l -> action_key a = k') -> List.filter (about k) l = if bool_decide (k' = k) then l else [].
Proof.
  induction l as [|a l IH]; intros H; simpl; [by destruct (bool_decide _)|].
  rewrite IH by (intros; apply H; by right). unfold about. rewrite (H a) by (by left). by destruct (bool_decide _).
Qed.

Lemma about_entries {A} (acts : (string * string) * A -> list ReconcileAction) k l :
  (forall e a, e ∈ l -> a ∈ acts e -> action_key a = e.1) ->
  List.filter (about k) (concat (map acts l)) = concat (map acts (List.filter (fun e => bool_decide (e.1 = k)) l)).
Proof.
  induction l as [|e l IH]; intros H; simpl; [done|].
  rewrite List.filter_app, IH by (intros; eapply H; [by right|done]).
  rewrite (about_entry k e.1) by (intros a; apply H; by left). by destruct (bool_decide (e.1 = k)).
Qed.

(** The entry of a key in the ordered listing of a map. *)
Lemma key_entry {A} (m : gmap (string * string) A) k :
  List.filter (fun e => bool_decide (e.1 = k)) (in_key_order m) = match m !! k with Some x => [(k, x)] | None => [] end.
Proof.
  assert (Hin : forall e, e ∈ List.filter (fun e => bool_decide (e.1 = k)) (in_key_order m) <-> m !! e.1 = Some e.2 /\ e.1 = k).
  { intros [k' x]. rewrite elem_of_filter_b, bool_decide_eq_true. unfold in_key_order. by rewrite elem_of_sort_by, elem_of_map_to_list. }
  destruct (m !! k) as [x|] eqn:E.
  - symmetry. apply Permutation_singleton_l. apply NoDup_Permutation.
    + apply NoDup_singleton.
    + apply NoDup_filter_b. unfold in_key_order. rewrite sort_by_perm. apply NoDup_map_to_list.
    + intros e. rewrite Hin, list_elem_of_singleton. destruct e as [k' y]. simpl. split; [intros [= -> ->]; done|].
      intros [H ->]. congruence.
  - destruct (List.filter _ _) as [|e l] eqn:El; [done|]. exfalso. destruct (proj1 (Hin e)) as [H <-]; [by left|]. congruence.
Qed.

Lemma plan_about {A} (acts : (string * string) * A -> list ReconcileAction) (m : gmap (string * string) A) k :
  (forall e a, m !! e.1 = Some e.2 -> a ∈ acts e -> action_key a = e.1) ->
  List.filter (about k) (concat (map acts (in_key_order m))) = match m !! k with Some x => acts (k, x) | None => [] end.
Proof.
  intros H. rewrite about_entries, key_entry; [destruct (m !! k); simpl; by rewrite ?app_nil_r|].
  intros [k' x] a He. apply H. unfold in_key_order in He. by rewrite elem_of_sort_by, elem_of_map_to_list in He.
Qed.

(** A plan reaches the new configuration and disturbs nothing it need not.
    Carried out in its order on the instances the old configuration runs, it
    leaves exactly the instances of the new one, each with its new
    specification; an instance keeps its process precisely when the old
    configuration had it with the same command line and environment, also when
    its exposure changed. *)
Theorem reconcile_reaches old new k :
  foldl carry_out (running old) (reconcile old new) !! k =
    (fun s => (s, match collect old !! k with Some prev => launch_differs prev s | None => true end)) <$> (collect new !! k).
Proof.
  rewrite carry_out_all. unfold reconcile. rewrite List.filter_app, foldl_app, !plan_about.
  - unfold running. rewrite lookup_fmap. simpl. destruct (collect new !! k) as [s|] eqn:En, (collect old !! k) as [p|] eqn:Eo; simpl; try done.
    destruct (launch_differs p s) eqn:El; simpl; [done|]. case_bool_decide as He; simpl; [|done].
    apply orb_false_iff in El as [E1 E2]. apply negb_false_iff, bool_decide_eq_true in E1, E2.
    apply collect_key in En, Eo. unfold instance_key in *. destruct p, s; simpl in *; naive_solver.
  - intros [k' s] a Hk. simpl in *. destruct (collect new !! k'); [by intros ?%not_elem_of_nil|].
    intros ->%list_elem_of_singleton. simpl. apply collect_key in Hk. by rewrite Hk.
  - intros [k' s] a Hk. simpl in *. apply collect_key in Hk. destruct (collect old !! k') as [p|].
    + repeat case_match; intros Ha; try (apply list_elem_of_singleton in Ha as ->; done); by apply not_elem_of_nil in Ha.
    + by intros ->%list_elem_of_singleton.
Qed.

(** ** Templates *)

(** What a template says: text to copy and placeholders to fill. *)
Inductive TplPiece := PText (s : string) | PToken (t : string).

Fixpoint escape_braces (s : string) : string :=
  match s with
  | EmptyString => ""
  | String a s => if Ascii.eqb a "{" || Ascii.eqb a "}" then String a (String a (escape_braces s)) else String a (escape_braces s)
  end.

Definition piece_text (p : TplPiece) : string :=
  match p with PText s => escape_braces s | PToken t => ("{" ++ t ++ "}")%string end.

Fixpoint pieces_text (ps : list TplPiece) : string :=
  match ps with [] => "" | p :: ps => (piece_text p ++ pieces_text ps)%string end.

Fixpoint braceless (s : string) : bool :=
  match s with EmptyString => true | String a s => negb (Ascii.eqb a "{" || Ascii.eqb a "}") && braceless s end.

Definition piece_ok (p : TplPiece) : bool := match p with PText _ => true | PToken t => braceless t end.

(** The text the pieces stand for, or why the first placeholder without a value
    withholds the upstream. *)
Fixpoint fill (ctx : WorktreeContext) (ps : list TplPiece) : result Withheld string :=
  match ps with
  | [] => Ok ""
  | PText s :: ps => let? out := fill ctx ps in Ok (s ++ out)%string
  | PToken t :: ps =>
      match ctx_value ctx t with
      | Some v => let? out := fill ctx ps in Ok (v ++ out)%string
      | None => Err (if is_known_placeholder t then NoValue t else UnknownPlaceholder t)
      end
  end.

Ltac ascii_cases a := destruct a as [ [] [] [] [] [] [] [] []].

Lemma expand_plain tpl ctx a s :
  (Ascii.eqb a "{" || Ascii.eqb a "}") = false ->
  expand_go tpl ctx Outside (String a s) = let? out := expand_go tpl ctx Outside s in Ok (String a out).
Proof. ascii_cases a; done. Qed.

Lemma expand_inside_plain tpl ctx acc a s :
  Ascii.eqb a "}" = false -> expand_go tpl ctx (Inside acc) (String a s) = expand_go tpl ctx (Inside (acc ++ ch a)%string) s.
Proof. ascii_cases a; done. Qed.

Lemma expand_text tpl ctx s rest :
  expand_go tpl ctx Outside (escape_braces s ++ rest)%string = let? out := expand_go tpl ctx Outside rest in Ok (s ++ out)%string.
Proof.
  induction s as [|a s IH]; [simpl; by destruct (expand_go _ _ _ rest)|]. cbn [escape_braces].
  destruct (Ascii.eqb a "{" || Ascii.eqb a "}") eqn:E.
  - apply orb_true_iff in E as [->%Ascii.eqb_eq| ->%Ascii.eqb_eq]; cbn [String.append expand_go]; rewrite IH; by destruct (expand_go _ _ _ rest).
  - cbn [String.append]. rewrite expand_plain by done. rewrite IH. by destruct (expand_go _ _ _ rest).
Qed.

Lemma expand_inside tpl ctx t acc rest :
  braceless t = true -> expand_go tpl ctx (Inside acc) (t ++ String "}" rest)%string = expand_go tpl ctx (Inside (acc ++ t)%string) (String "}" rest).
Proof.
  revert acc. induction t as [|a t IH]; intros acc; cbn [String.append braceless]; [by rewrite str_app_nil_r|].
  intros [ [_ Ha]%negb_true_iff%orb_false_iff H]%andb_true_iff.
  rewrite expand_inside_plain, IH, str_app_assoc by done. done.
Qed.

Lemma expand_token tpl ctx t rest :
  braceless t = true ->
  expand_go tpl ctx Outside ("{" ++ t ++ "}" ++ rest)%string =
    match ctx_value ctx t with
    | Some v => let? out := expand_go tpl ctx Outside rest in Ok (v ++ out)%string
    | None => Err (if is_known_placeholder t then NoValue t else UnknownPlaceholder t)
    end.
Proof.
  intros H. transitivity (expand_go tpl ctx (Inside "") (t ++ String "}" rest)%string); [|by rewrite expand_inside].
  cbn [String.append]. destruct t as [|a t]; [done|]. cbn [String.append]. cbn [braceless] in H.
  apply andb_true_iff in H as [ [Ha _]%negb_true_iff%orb_false_iff _]. ascii_cases a; done.
Qed.

(** A template is expanded exactly as it is written, or not at all.  Written from
    pieces - any text with its braces doubled, and placeholders -, it expands to
    that very text with each placeholder replaced by its value in the calling
    worktree; the first placeholder that has no value there, or that is not one
    of the four, withholds the upstream, and nothing is put in its place. *)
Theorem expand_pieces ctx ps :
  forallb piece_ok ps = true -> expand_placeholders (pieces_text ps) ctx = fill ctx ps.
Proof.
  unfold expand_placeholders. generalize (pieces_text ps) at 1 as tpl. intros tpl.
  induction ps as [|[s|t] ps IH]; cbn [forallb pieces_text piece_text piece_ok fill]; [done| |];
    intros [H1 H2]%andb_true_iff; rewrite ?str_app_assoc.
  - rewrite expand_text, IH by done. done.
  - rewrite expand_token, IH by done. done.
Qed.

(** ** Witnesses *)

Definition tool_entry (n : string) : JsonValue := VObject [("name", VString n)].
Definition listed : JsonValue := VObject [("tools", VArray [tool_entry "search"; tool_entry "push"])].

Definition memory : McpServerConfig :=
  mkServer ["mem"] ["--root"; "{repo_root}"] [("NS", "{{{worktree}}}")] (Some (mkExposure ["se*"] ScopeWorktree)).
Definition here : WorktreeContext := mkContext (Some "w") (Some "t") (Some "/r") None.

Definition plain_env (v _ : string) : result string string := Ok v.
Definition launch_ok (_ : string) (_ : list string) (_ : gmap string string) : result string JsonValue := Ok listed.
Definition two_servers : gmap string McpServerConfig :=
  list_to_map [("mem", memory); ("off", mkServer ["off"] [] [] None)].
Definition demo_hub : Hub := hub_build plain_env launch_ok (mkProxyConfig 2 1) two_servers here.

Definition call (tool : string) (now : Z) : Request :=
  mkRequest (fun _ => RpcTransport "timeout")
    (VObject [("id", VNumber "1"); ("method", VString "tools/call"); ("params", VObject [("name", VString tool)])]) now.

Lemma proxy_confined_witness :
  serve "0" demo_hub [call "mem__push" 0; call "off__search" 0; call "mem__search" 0] =
    ([mkSent "mem" "search" (VObject [])], (serve "0" demo_hub [call "mem__search" 0]).2) /\
  exists srv spec env tools, two_servers !! "mem" = Some srv /\ is_proxy_exposed srv = true /\
    tool_exposed (e_tools (exposure srv)) "search" = true /\ expand_spec "mem" srv here = Ok spec /\
    launch_ok "mem" (is_argv spec) env = Ok tools /\ "search" ∈ omap entry_name (tool_entries tools).
Proof.
  split; [vm_compute; reflexivity|].
  apply (proxy_confined plain_env launch_ok (mkProxyConfig 2 1) two_servers here "0" [call "mem__search" 0] (mkSent "mem" "search" (VObject []))).
  assert (E : (serve "0" demo_hub [call "mem__search" 0]).1 = [mkSent "mem" "search" (VObject [])]) by (vm_compute; reflexivity).
  fold demo_hub. rewrite E. by left.
Defined.

(** Two failures open the breaker; the third call is refused, the probe after a
    second is sent. *)
Lemma dead_upstream_bounded_witness :
  let qs := map (call "mem__search") [0; 10; 20; 1010; 1020]%Z in
  calls_to "mem" (serve "0" demo_hub qs).1 = 3%nat /\
  (Z.of_nat (calls_to "mem" (serve "0" demo_hub qs).1) <= Z.max 1 2 + (1500 - 0) / 1000)%Z.
Proof.
  split; [vm_compute; reflexivity|].
  eapply (dead_upstream_bounded (mkBreakerConfig 2 1000) "mem" "0" demo_hub _ _ 0 1500).
  - done.
  - done.
  - vm_compute; reflexivity.
  - vm_compute; reflexivity.
  - simpl; lia.
  - repeat constructor; simpl; eauto.
Defined.

Lemma response_routed_once_witness :
  (resolve_id 2 (id_run [ERewrite 9 VNull; EDrop 7; EResolve 1] (rewrite_id 8 (VString "a") (id_run [ERewrite 7 VNull] rewriter_new)).2)).1
    = Some (mkPending 8 (VString "a")).
Proof. apply (response_routed_once [ERewrite 7 VNull] 8 (VString "a") [ERewrite 9 VNull; EDrop 7; EResolve 1]). reflexivity. Defined.

Lemma expand_pieces_witness :
  expand_placeholders "{{{worktree}}}" here = Ok "{t}" /\ expand_placeholders "a{branch}" here = Err (NoValue "branch").
Proof.
  split.
  - apply (expand_pieces here [PText "{"; PToken "worktree"; PText "}"]). reflexivity.
  - apply (expand_pieces here [PText "a"; PToken "branch"]). reflexivity.
Defined.
