(* ===== verification/Chrono.v ===== *)
(** * Calendar dates

    The calendar of the program computes with the dates of the chrono crate.  A
    date is the number of its day, a date and time a number of seconds; the
    classes [Chrono] and [ChronoText] are the methods the code calls, [ChronoLaws]
    and [ChronoTextLaws] what their documentation promises and the code relies
    on.  Leap seconds and fractions of a second are not represented. *)
From Stdlib Require Import Ascii String.
From S2P Require Import Prelude RustStr RustText.
Local Open Scope Z_scope.

Inductive Weekday := Mon | Tue | Wed | Thu | Fri | Sat | Sun.

#[global] Instance Weekday_eq_dec : EqDecision Weekday.
Proof. solve_decision. Defined.

Definition num_days_from_monday (w : Weekday) : Z :=
  match w with Mon => 0 | Tue => 1 | Wed => 2 | Thu => 3 | Fri => 4 | Sat => 5 | Sun => 6 end.

Abbreviation NaiveDate := Z (only parsing).
Abbreviation NaiveDateTime := Z (only parsing).

Class Chrono := {
  MIN_DATE : NaiveDate;
  MAX_DATE : NaiveDate;
  year : NaiveDate -> Z;
  month : NaiveDate -> Z;
  day : NaiveDate -> Z;
  ordinal : NaiveDate -> Z;
  weekday_of : NaiveDate -> Weekday;
  iso_week : NaiveDate -> Z;
  from_ymd_opt : Z -> Z -> Z -> option NaiveDate;
  from_yo_opt : Z -> Z -> option NaiveDate;
  from_isoywd_opt : Z -> Z -> Weekday -> option NaiveDate;
  checked_add_months : NaiveDate -> Z -> option NaiveDate;
}.

Definition in_calendar `{Chrono} (d : NaiveDate) : Prop := MIN_DATE <= d <= MAX_DATE.

(** [checked_add_days] and [checked_sub_days]: [None] past the calendar. *)
Definition checked_add_days `{Chrono} (d n : Z) : option NaiveDate := if d + n <=? MAX_DATE then Some (d + n) else None.
Definition checked_sub_days `{Chrono} (d n : Z) : option NaiveDate := if MIN_DATE <=? d - n then Some (d - n) else None.

(** The months of a date, counted from the year 0. *)
Definition month_index `{Chrono} (d : NaiveDate) : Z := 12 * year d + month d.

Class ChronoLaws `{Chrono} : Prop := {
  calendar_nonempty : MIN_DATE <= MAX_DATE;
  month_range d : in_calendar d -> 1 <= month d <= 12;
  year_mono a b : in_calendar a -> in_calendar b -> a <= b -> year a <= year b;
  month_mono a b : in_calendar a -> in_calendar b -> a <= b -> year a = year b -> month a <= month b;
  ymd_sound y m n d : from_ymd_opt y m n = Some d -> in_calendar d /\ year d = y /\ month d = m /\ day d = n;
  ymd_complete d : in_calendar d -> from_ymd_opt (year d) (month d) (day d) = Some d;
  yo_sound y n d : from_yo_opt y n = Some d -> in_calendar d /\ year d = y;
  weekday_periodic d : weekday_of (d + 7) = weekday_of d;
  (** A date of a week of an ISO year lies in that year, at its end in the next
      or at its beginning in the one before, there by at most three days; and the
      weeks follow each other. *)
  iso_sound y w wd d : from_isoywd_opt y w wd = Some d -> in_calendar d /\ weekday_of d = wd /\ y - 1 <= year d <= y + 1;
  iso_after y w wd d t : from_isoywd_opt y w wd = Some d -> in_calendar t -> year t < y -> t <= d + 2;
  iso_order y w wd d y' w' wd' d' :
    from_isoywd_opt y w wd = Some d -> from_isoywd_opt y' w' wd' = Some d' -> y < y' -> d < d';
  (** The calendar ends with whole months, fewer than [2^32]. *)
  add_months_some d n : in_calendar d -> 0 <= n -> is_Some (checked_add_months d n) <-> month_index d + n <= month_index MAX_DATE;
  add_months_sound d n d' :
    in_calendar d -> 0 <= n -> checked_add_months d n = Some d' -> in_calendar d' /\ month_index d' = month_index d + n;
  calendar_months : month_index MAX_DATE - month_index MIN_DATE <= Z.of_N u32_max;
}.

(** ** Times of day *)

Definition DAY_SECS : Z := 86400.
Definition date_of (t : NaiveDateTime) : NaiveDate := t / DAY_SECS.
Definition time_of (t : NaiveDateTime) : Z := t mod DAY_SECS.
Definition hour (t : NaiveDateTime) : Z := time_of t / 3600.
Definition minute (t : NaiveDateTime) : Z := time_of t / 60 mod 60.
Definition second (t : NaiveDateTime) : Z := time_of t mod 60.

Definition and_hms_opt (d : NaiveDate) (h m s : Z) : option NaiveDateTime :=
  if (0 <=? h) && (h <? 24) && (0 <=? m) && (m <? 60) && (0 <=? s) && (s <? 60)
  then Some (d * DAY_SECS + h * 3600 + m * 60 + s) else None.

Lemma and_hms_date d h m s t : and_hms_opt d h m s = Some t -> date_of t = d.
Proof.
  unfold and_hms_opt. destruct (_ && _) eqn:E; [|done]. intros [= <-]. unfold date_of, DAY_SECS.
  rewrite !andb_true_iff, !Z.leb_le, !Z.ltb_lt in E. symmetry. apply Z.div_unique with (r := h * 3600 + m * 60 + s); lia.
Qed.

Lemma date_of_mono a b : a <= b -> date_of a <= date_of b.
Proof. intros. apply Z.div_le_mono; [done|lia]. Qed.

Lemma date_of_midnight d : date_of (d * DAY_SECS) = d.
Proof. unfold date_of. by rewrite Z.div_mul. Qed.

(** ** Texts *)

Definition is_digit (a : ascii) : bool := byte_in 48 57 a.

(** Reading and writing of "%Y%m%dT%H%M%S" and "%Y%m%d". *)
Class ChronoText := {
  parse_datetime : string -> option NaiveDateTime;
  parse_date : string -> option NaiveDate;
  fmt_datetime : NaiveDateTime -> string;
  fmt_date : NaiveDate -> string;
}.

(** The years %Y writes with four digits and no sign.  Past them it writes a sign,
    and reads one with all the digits that follow, so that in these formats, which
    separate nothing, such a text is not read back. *)
Definition four_digit_year `{Chrono} (d : NaiveDate) : Prop := 0 <= year d <= 9999.

Class ChronoTextLaws `{Chrono} `{ChronoText} : Prop := {
  datetime_has_t s u : parse_datetime s = Some u -> no_char "T" s = false;
  date_has_no_t s d : parse_date s = Some d -> no_char "T" s = true;
  datetime_text s u : parse_datetime s = Some u -> four_digit_year (date_of u) ->
    parse_datetime (fmt_datetime u) = Some u /\
    exists a b, fmt_datetime u = (a ++ "T" ++ b)%string /\ str_forall is_digit a = true /\ str_forall is_digit b = true /\ b <> EmptyString;
  date_text s d : parse_date s = Some d -> four_digit_year d ->
    parse_date (fmt_date d) = Some d /\ str_forall is_digit (fmt_date d) = true /\ fmt_date d <> EmptyString;
}.
