(* ===== verification/Gregorian.v ===== *)
(** * The proleptic Gregorian calendar

    An instance of the calendar classes: the laws of [ChronoLaws] and
    [ChronoTextLaws] hold of the civil calendar, its ISO weeks and its eight
    digit dates. *)
From Stdlib Require Import Ascii String.
From S2P Require Import Prelude RustStr RustText Chrono.
Local Open Scope Z_scope.

(** The day number of the first of January; the day 1 is the first of the year 1. *)
Definition jan1 (y : Z) : Z := 365 * (y - 1) + (y - 1) / 4 - (y - 1) / 100 + (y - 1) / 400 + 1.
Definition g_leap (y : Z) : bool := (y mod 4 =? 0) && (negb (y mod 100 =? 0) || (y mod 400 =? 0)).

Definition g_year (d : Z) : Z :=
  let y := 400 * (d - 1) / 146097 + 1 in
  if jan1 (y + 1) <=? d then y + 1 else if d <? jan1 y then y - 1 else y.

Ltac div_lia := Z.div_mod_to_equations; lia.

Lemma year_length y : jan1 (y + 1) = jan1 y + if g_leap y then 366 else 365.
Proof.
  unfold jan1, g_leap. replace (y + 1 - 1) with y by lia.
  destruct (Z.eqb_spec (y mod 4) 0), (Z.eqb_spec (y mod 100) 0), (Z.eqb_spec (y mod 400) 0); cbn [andb orb negb]; div_lia.
Qed.

Lemma jan1_step y : jan1 y + 365 <= jan1 (y + 1) <= jan1 y + 366.
Proof. rewrite year_length. destruct (g_leap y); lia. Qed.

Lemma jan1_mono a b : a <= b -> jan1 a <= jan1 b.
Proof. intros H. unfold jan1. div_lia. Qed.

Lemma g_year_spec d : jan1 (g_year d) <= d < jan1 (g_year d + 1).
Proof.
  unfold g_year. set (y := 400 * (d - 1) / 146097 + 1).
  assert (Hy : jan1 (y - 1) <= d < jan1 (y + 2)). { unfold jan1. subst y. div_lia. }
  destruct (Z.leb_spec (jan1 (y + 1)) d); [replace (y + 1 + 1) with (y + 2) by lia; lia|].
  destruct (Z.ltb_spec d (jan1 y)); [replace (y - 1 + 1) with y by lia; lia|lia].
Qed.

Lemma g_year_unique d y : jan1 y <= d < jan1 (y + 1) -> g_year d = y.
Proof.
  intros H. pose proof (g_year_spec d) as Hd. destruct (Z.lt_trichotomy (g_year d) y) as [Hl|[->|Hl]]; [|done|].
  - pose proof (jan1_mono (g_year d + 1) y). lia.
  - pose proof (jan1_mono (y + 1) (g_year d)). lia.
Qed.

(** The days of a year before its month [m]; [m] may be 13. *)
Definition cum (l : bool) (m : Z) : Z :=
  if m <=? 1 then 0 else if m =? 2 then 31 else 59 + Z.b2z l + (153 * (m - 3) + 2) / 5.

Definition month_of_day (l : bool) (o : Z) : Z :=
  if o <? 31 then 1 else if o <? 59 + Z.b2z l then 2 else (5 * (o - 59 - Z.b2z l) + 2) / 153 + 3.

Lemma cum_small l : cum l 1 = 0 /\ cum l 2 = 31 /\ cum l 3 = 59 + Z.b2z l.
Proof. by destruct l. Qed.

Lemma month_of_day_spec l o :
  0 <= o < 365 + Z.b2z l -> 1 <= month_of_day l o <= 12 /\ cum l (month_of_day l o) <= o < cum l (month_of_day l o + 1).
Proof.
  intros H. pose proof (cum_small l). unfold month_of_day. destruct (Z.ltb_spec o 31); [change (1 + 1) with 2; lia|].
  destruct (Z.ltb_spec o (59 + Z.b2z l)); [change (2 + 1) with 3; lia|].
  set (m := _ / 153). assert (0 <= m <= 9) by (subst m; destruct l; cbn [Z.b2z] in *; div_lia).
  unfold cum. rewrite !(proj2 (Z.leb_gt _ _)), !(proj2 (Z.eqb_neq _ _)) by lia. subst m. destruct l; cbn [Z.b2z] in *; div_lia.
Qed.

Lemma cum_mono l a b : a <= b -> cum l a <= cum l b.
Proof.
  intros H. unfold cum. destruct l; cbn [Z.b2z];
    repeat match goal with |- context [if ?c then _ else _] => destruct c eqn:? end;
    rewrite ?Z.leb_le, ?Z.leb_gt, ?Z.eqb_eq, ?Z.eqb_neq in *; div_lia.
Qed.

Lemma cum_last l : cum l 13 = 365 + Z.b2z l.
Proof. by destruct l. Qed.

Lemma month_unique l o m : 1 <= m <= 12 -> cum l m <= o < cum l (m + 1) -> month_of_day l o = m.
Proof.
  intros Hm H. assert (0 <= cum l m) by (change 0 with (cum l 1); apply cum_mono; lia).
  assert (cum l (m + 1) <= cum l 13) by (apply cum_mono; lia). rewrite cum_last in *.
  destruct (month_of_day_spec l o) as [Hr Hs]; [lia|].
  destruct (Z.lt_trichotomy (month_of_day l o) m) as [Hl|[->|Hl]]; [|done|].
  - pose proof (cum_mono l (month_of_day l o + 1) m). lia.
  - pose proof (cum_mono l (m + 1) (month_of_day l o)). lia.
Qed.

Definition g_month (d : Z) : Z := month_of_day (g_leap (g_year d)) (d - jan1 (g_year d)).
Definition g_day (d : Z) : Z := d - jan1 (g_year d) - cum (g_leap (g_year d)) (g_month d) + 1.
Definition g_ordinal (d : Z) : Z := d - jan1 (g_year d) + 1.

Definition g_weekday (d : Z) : Weekday :=
  match (d - 1) mod 7 with 0 => Mon | 1 => Tue | 2 => Wed | 3 => Thu | 4 => Fri | 5 => Sat | _ => Sun end.

Definition g_min : Z := jan1 (-262143).
Definition g_max : Z := jan1 262143 - 1.
Definition g_check (d : Z) : option Z := if (g_min <=? d) && (d <=? g_max) then Some d else None.

Definition g_ymd (y m n : Z) : option Z :=
  if (1 <=? m) && (m <=? 12) && (1 <=? n) && (n <=? cum (g_leap y) (m + 1) - cum (g_leap y) m)
  then g_check (jan1 y + cum (g_leap y) m + n - 1) else None.

Definition g_yo (y n : Z) : option Z :=
  if (1 <=? n) && (n <=? 365 + Z.b2z (g_leap y)) then g_check (jan1 y + n - 1) else None.

(** The Thursday of a date's week decides its ISO year. *)
Definition thursday (d : Z) : Z := d - (d - 1) mod 7 + 3.
Definition g_iso_week (d : Z) : Z := (thursday d - jan1 (g_year (thursday d))) / 7 + 1.

(** The Monday of the first week: the week of the fourth of January. *)
Definition week1 (y : Z) : Z := jan1 y + 3 - (jan1 y + 2) mod 7.
Definition g_isoywd (y w : Z) (wd : Weekday) : option Z :=
  let d := week1 y + 7 * (w - 1) + num_days_from_monday wd in
  if (1 <=? w) && (thursday d <? jan1 (y + 1)) then g_check d else None.

Definition g_add_months (d n : Z) : option Z :=
  let i := 12 * g_year d + g_month d - 1 + n in
  let '(y, m) := (i / 12, i mod 12 + 1) in
  g_ymd y m (Z.min (g_day d) (cum (g_leap y) (m + 1) - cum (g_leap y) m)).

#[global] Instance Gregorian : Chrono := {
  MIN_DATE := g_min; MAX_DATE := g_max; year := g_year; month := g_month; day := g_day; ordinal := g_ordinal;
  weekday_of := g_weekday; iso_week := g_iso_week; from_ymd_opt := g_ymd; from_yo_opt := g_yo; from_isoywd_opt := g_isoywd;
  checked_add_months := g_add_months;
}.

(** ** The laws *)

Lemma year_days y : jan1 (y + 1) = jan1 y + 365 + Z.b2z (g_leap y).
Proof. rewrite year_length. destruct (g_leap y); simpl; lia. Qed.

Lemma g_month_spec d :
  1 <= g_month d <= 12 /\
  cum (g_leap (g_year d)) (g_month d) <= d - jan1 (g_year d) < cum (g_leap (g_year d)) (g_month d + 1).
Proof. apply month_of_day_spec. pose proof (g_year_spec d) as H. rewrite year_days in H. lia. Qed.

Lemma g_year_mono a b : a <= b -> g_year a <= g_year b.
Proof.
  intros H. pose proof (g_year_spec a). pose proof (g_year_spec b).
  destruct (Z.le_gt_cases (g_year a) (g_year b)); [done|]. pose proof (jan1_mono (g_year b + 1) (g_year a)). lia.
Qed.

Lemma g_check_Some d x : g_check d = Some x <-> x = d /\ g_min <= d <= g_max.
Proof.
  unfold g_check. destruct (Z.leb_spec g_min d), (Z.leb_spec d g_max); cbn [andb]; (split; [try done|intros [-> ?]; try lia]).
  - intros [= ->]. lia.
  - done.
Qed.

Lemma g_ymd_sound y m n d : g_ymd y m n = Some d -> g_min <= d <= g_max /\ g_year d = y /\ g_month d = m /\ g_day d = n.
Proof.
  unfold g_ymd. destruct (_ && _) eqn:E; [|done]. rewrite !andb_true_iff, !Z.leb_le in E. intros [-> Hr]%g_check_Some.
  split; [done|]. set (l := g_leap y) in *.
  assert (0 <= cum l m) by (change 0 with (cum l 1); apply cum_mono; lia).
  assert (cum l (m + 1) <= cum l 13) by (apply cum_mono; lia). rewrite cum_last in *.
  assert (Hy : g_year (jan1 y + cum l m + n - 1) = y) by (apply g_year_unique; rewrite year_days; fold l; lia).
  assert (Hm : g_month (jan1 y + cum l m + n - 1) = m) by (unfold g_month; rewrite Hy; apply month_unique; [lia|fold l; lia]).
  split_and!; [done|done|]. unfold g_day. rewrite Hm, Hy. fold l. lia.
Qed.

Lemma g_ymd_complete d : g_min <= d <= g_max -> g_ymd (g_year d) (g_month d) (g_day d) = Some d.
Proof.
  intros H. destruct (g_month_spec d) as [Hm Hs]. unfold g_ymd, g_day. rewrite !(proj2 (Z.leb_le _ _)) by lia. cbn [andb].
  apply g_check_Some. lia.
Qed.

Lemma g_weekday_num d : num_days_from_monday (g_weekday d) = (d - 1) mod 7.
Proof.
  unfold g_weekday. pose proof (Z.mod_pos_bound (d - 1) 7 ltac:(lia)) as H.
  destruct ((d - 1) mod 7) as [|p|]; [done| |lia].
  do 3 (destruct p as [p|p|]; try done; try (exfalso; lia)).
Qed.

Lemma num_inj a b : num_days_from_monday a = num_days_from_monday b -> a = b.
Proof. by destruct a, b. Qed.

Lemma num_range w : 0 <= num_days_from_monday w <= 6.
Proof. destruct w; simpl; lia. Qed.

(** A date of an ISO week, by the Thursday of that week. *)
Lemma isoywd_week y w wd d :
  g_isoywd y w wd = Some d -> exists k, 0 <= k /\ d = week1 y + 7 * k + num_days_from_monday wd /\
    week1 y + 7 * k + 3 < jan1 (y + 1) /\ g_min <= d <= g_max.
Proof.
  unfold g_isoywd. destruct (_ && _) eqn:E; [|done]. rewrite andb_true_iff, Z.leb_le, Z.ltb_lt in E. intros [-> Hr]%g_check_Some.
  exists (w - 1). split_and!; try lia. destruct E as [_ E]. pose proof (num_range wd).
  revert E. unfold thursday, week1. generalize (jan1 (y + 1)). intros n. div_lia.
Qed.

Lemma week1_range y : jan1 y - 3 <= week1 y <= jan1 y + 3 /\ (week1 y - 1) mod 7 = 0.
Proof. unfold week1. generalize (jan1 y). intros n. div_lia. Qed.

Lemma g_add_months_sound d n d' :
  g_min <= d <= g_max -> 0 <= n -> g_add_months d n = Some d' ->
  (g_min <= d' <= g_max) /\ 12 * g_year d' + g_month d' = 12 * g_year d + g_month d + n.
Proof.
  intros Hd Hn. unfold g_add_months. intros (Hr & Hy & Hm & _)%g_ymd_sound. split; [done|]. rewrite Hy, Hm. div_lia.
Qed.

Lemma g_max_index : 12 * g_year g_max + g_month g_max = 12 * 262142 + 12.
Proof. vm_compute. reflexivity. Qed.

Lemma g_add_months_some d n :
  g_min <= d <= g_max -> 0 <= n -> is_Some (g_add_months d n) <-> 12 * g_year d + g_month d + n <= 12 * g_year g_max + g_month g_max.
Proof.
  intros Hd Hn. rewrite g_max_index. split.
  - intros [d' E]. apply g_add_months_sound in E as [Hr <-]; [|done|done].
    pose proof (g_year_mono d' g_max ltac:(lia)) as Hy. change (g_year g_max) with 262142 in Hy. pose proof (g_month_spec d'). lia.
  - intros Hi. unfold g_add_months. set (i := 12 * g_year d + g_month d - 1 + n) in *. set (y := i / 12). set (m := i mod 12 + 1).
    assert (Hm : 1 <= m <= 12) by (subst m; pose proof (Z.mod_pos_bound i 12); lia).
    assert (Hy : g_year d <= y <= 262142) by (pose proof (g_month_spec d); subst y; div_lia).
    destruct (g_month_spec d) as [Md Sd]. set (l := g_leap y). set (n' := Z.min _ _).
    assert (Hc : cum l m + 1 <= cum l (m + 1) /\ cum l (m + 1) <= 365 + Z.b2z l).
    { rewrite <- cum_last. split; [|apply cum_mono; lia]. unfold cum. destruct l; cbn [Z.b2z];
        repeat match goal with |- context [if ?c then _ else _] => destruct c eqn:? end;
        rewrite ?Z.leb_le, ?Z.leb_gt, ?Z.eqb_eq, ?Z.eqb_neq in *; div_lia. }
    assert (Hn' : 1 <= n' <= cum l (m + 1) - cum l m) by (subst n'; unfold g_day; lia).
    unfold g_ymd. fold l. rewrite !(proj2 (Z.leb_le _ _)) by lia. cbn [andb]. eexists. apply g_check_Some. split; [done|].
    assert (0 <= cum l m) by (change 0 with (cum l 1); apply cum_mono; lia).
    pose proof (year_days y) as Hl. fold l in Hl. pose proof (jan1_mono (y + 1) 262143). pose proof (jan1_mono (-262143) y).
    assert (-262143 <= g_year d) by (change (-262143) with (g_year g_min); apply g_year_mono; lia). unfold g_min, g_max. lia.
Qed.

#[global] Instance Gregorian_laws : ChronoLaws.
Proof.
  split; unfold in_calendar, month_index;
    cbn [Gregorian MIN_DATE MAX_DATE year month day weekday_of from_ymd_opt from_yo_opt from_isoywd_opt checked_add_months].
  - vm_compute. discriminate.
  - intros d _. apply g_month_spec.
  - intros a b _ _. apply g_year_mono.
  - intros a b _ _ H E. destruct (g_month_spec a) as [_ Ha], (g_month_spec b) as [_ Hb]. rewrite E in *.
    destruct (Z.le_gt_cases (g_month a) (g_month b)); [done|].
    pose proof (cum_mono (g_leap (g_year b)) (g_month b + 1) (g_month a)). lia.
  - apply g_ymd_sound.
  - apply g_ymd_complete.
  - intros y n d. unfold g_yo. destruct (_ && _) eqn:E; [|done]. rewrite andb_true_iff, !Z.leb_le in E.
    intros [-> Hr]%g_check_Some. split; [done|]. apply g_year_unique. rewrite year_days. lia.
  - intros d. apply num_inj. rewrite !g_weekday_num. replace (d + 7 - 1) with (d - 1 + 1 * 7) by lia. apply Z.mod_add. lia.
  - intros y w wd d (k & Hk & -> & Hj & Hr)%isoywd_week. split; [done|]. split; [|split].
    + apply num_inj. rewrite g_weekday_num.
      pose proof (week1_range y) as [_ Hw]. pose proof (num_range wd). revert Hw. generalize (week1 y). intros m Hw. div_lia.
    + pose proof (week1_range y). pose proof (num_range wd). pose proof (jan1_step (y - 1)) as Hs. replace (y - 1 + 1) with y in Hs by lia.
      rewrite <- (g_year_unique (jan1 (y - 1)) (y - 1)) by (replace (y - 1 + 1) with y by lia; lia). apply g_year_mono. lia.
    + pose proof (num_range wd). pose proof (jan1_step (y + 1)) as Hs.
      rewrite <- (g_year_unique (jan1 (y + 1 + 1) - 1) (y + 1)) by lia. apply g_year_mono. lia.
  - intros y w wd d t (k & Hk & -> & _)%isoywd_week _ Ht. pose proof (week1_range y). pose proof (num_range wd).
    pose proof (g_year_spec t). pose proof (jan1_mono (g_year t + 1) y). lia.
  - intros y w wd d y' w' wd' d' (k & _ & -> & Hk & _)%isoywd_week (k' & Hk' & -> & _)%isoywd_week Hy.
    pose proof (num_range wd). pose proof (num_range wd'). pose proof (week1_range y) as [_ H1]. pose proof (week1_range y') as [H2 H3].
    pose proof (jan1_mono (y + 1) y' ltac:(lia)). revert Hk H1 H2 H3 H4. generalize (week1 y), (week1 y'), (jan1 (y + 1)), (jan1 y').
    intros. div_lia.
  - apply g_add_months_some.
  - apply g_add_months_sound.
  - vm_compute. discriminate.
Qed.

(** ** Texts *)

Definition digit_val (a : ascii) : Z := Z.of_N (N_of_ascii a) - 48.
Definition digit_of (n : Z) : ascii := ascii_of_N (Z.to_N (n + 48)).

Fixpoint val_from (v : Z) (s : string) : Z :=
  match s with EmptyString => v | String a s => val_from (10 * v + digit_val a) s end.
Definition val (s : string) : Z := val_from 0 s.

Fixpoint pad (k : nat) (n : Z) : string :=
  match k with O => EmptyString | S k => (pad k (n / 10) ++ String (digit_of (n mod 10)) EmptyString)%string end.

Lemma digit_facts n : 0 <= n < 10 -> is_digit (digit_of n) = true /\ digit_val (digit_of n) = n.
Proof.
  intros H. assert (Hall : Forall (fun n => is_digit (digit_of n) = true /\ digit_val (digit_of n) = n) (seqZ 0 10)) by (repeat constructor).
  rewrite Forall_forall in Hall. apply Hall, elem_of_seqZ. lia.
Qed.

Lemma str_length_app a b : String.length (a ++ b)%string = (String.length a + String.length b)%nat.
Proof. induction a as [|x a IH]; [done|]. cbn [String.append String.length]. by rewrite IH. Qed.

Lemma val_from_app s t v : val_from v (s ++ t)%string = val_from (val_from v s) t.
Proof. revert v. induction s as [|a s IH]; intros v; simpl; [done|apply IH]. Qed.

Lemma pad_facts k n :
  0 <= n < 10 ^ Z.of_nat k -> val (pad k n) = n /\ str_forall is_digit (pad k n) = true /\ String.length (pad k n) = k.
Proof.
  revert n. induction k as [|k IH]; intros n H; [change (10 ^ Z.of_nat 0) with 1 in H; change (val (pad 0 n)) with 0; split_and!; [lia|done|done]|].
  rewrite Nat2Z.inj_succ, Z.pow_succ_r in H by lia.
  destruct (digit_facts (n mod 10)) as [D1 D2]; [apply Z.mod_pos_bound; lia|].
  destruct (IH (n / 10)) as (V & F & L); [split; [apply Z.div_pos; lia|apply Z.div_lt_upper_bound; lia]|].
  cbn [pad]. split_and!.
  - unfold val in *. rewrite val_from_app, V. cbn [val_from]. rewrite D2. pose proof (Z.div_mod n 10). lia.
  - rewrite str_forall_app, F. cbn [str_forall]. by rewrite D1.
  - rewrite str_length_app, L. simpl. lia.
Qed.

Lemma val_bound s : str_forall is_digit s = true -> forall v, 0 <= v -> 0 <= val_from v s < (v + 1) * 10 ^ Z.of_nat (String.length s).
Proof.
  induction s as [|a s IH]; intros H v Hv; cbn [String.length val_from]; [simpl; lia|].
  cbn [str_forall] in H. apply andb_true_iff in H as [Ha Hs]. rewrite Nat2Z.inj_succ, Z.pow_succ_r by lia.
  assert (0 <= digit_val a <= 9).
  { unfold is_digit, byte_in, digit_val in *. apply andb_true_iff in Ha as [?%N.leb_le ?%N.leb_le]. lia. }
  specialize (IH Hs (10 * v + digit_val a) ltac:(lia)). pose proof (Z.pow_pos_nonneg 10 (Z.of_nat (String.length s))). nia.
Qed.

Definition g_parse_date (s : string) : option Z :=
  if Nat.eqb (String.length s) 8 && str_forall is_digit s
  then g_ymd (val (str_take 4 s)) (val (str_take 2 (str_drop 4 s))) (val (str_drop 6 s)) else None.

Definition g_fmt_date (d : Z) : string := (pad 4 (g_year d) ++ pad 2 (g_month d) ++ pad 2 (g_day d))%string.

Definition g_parse_datetime (s : string) : option Z :=
  match split_once "T" s with
  | Some (l, r) =>
      if Nat.eqb (String.length r) 6 && str_forall is_digit r then
        match g_parse_date l with
        | Some d => and_hms_opt d (val (str_take 2 r)) (val (str_take 2 (str_drop 2 r))) (val (str_drop 4 r))
        | None => None
        end
      else None
  | None => None
  end.

Definition g_fmt_datetime (u : Z) : string :=
  (g_fmt_date (date_of u) ++ "T" ++ pad 2 (hour u) ++ pad 2 (minute u) ++ pad 2 (second u))%string.

#[global] Instance GregorianText : ChronoText := {
  parse_datetime := g_parse_datetime; parse_date := g_parse_date; fmt_datetime := g_fmt_datetime; fmt_date := g_fmt_date;
}.

Lemma str_take_app k a b : String.length a = k -> str_take k (a ++ b)%string = a.
Proof. intros <-. induction a as [|x a IH]; [by destruct b|]. cbn [String.length String.append str_take]. by rewrite IH. Qed.

Lemma str_drop_app k n a b : String.length a = k -> str_drop (k + n) (a ++ b)%string = str_drop n b.
Proof. intros <-. by induction a as [|x a IH]. Qed.

Lemma str_take_short n s : (String.length (str_take n s) <= n)%nat.
Proof. revert s. induction n as [|n IH]; intros [|a s]; simpl; try lia. specialize (IH s). lia. Qed.

Lemma str_forall_take p n s : str_forall p s = true -> str_forall p (str_take n s) = true.
Proof. intros H. rewrite <- (str_take_drop n s), str_forall_app in H. by apply andb_true_iff in H as [? _]. Qed.

Lemma str_forall_drop p n s : str_forall p s = true -> str_forall p (str_drop n s) = true.
Proof. intros H. rewrite <- (str_take_drop n s), str_forall_app in H. by apply andb_true_iff in H as [_ ?]. Qed.

Lemma val_take k s : str_forall is_digit s = true -> 0 <= val (str_take k s) < 10 ^ Z.of_nat k.
Proof.
  intros H. pose proof (val_bound (str_take k s) (str_forall_take _ _ _ H) 0 ltac:(lia)) as Hb. unfold val.
  pose proof (str_take_short k s). pose proof (Z.pow_le_mono_r 10 (Z.of_nat (String.length (str_take k s))) (Z.of_nat k)). lia.
Qed.

Lemma digits_no_t s : str_forall is_digit s = true -> no_char "T" s = true.
Proof.
  induction s as [|a s IH]; [done|]. cbn [str_forall no_char]. intros [Ha Hs]%andb_true_iff. rewrite IH by done.
  destruct (Ascii.eqb_spec a "T") as [->|]; [done|done].
Qed.

(** Three numbers of fixed width, read back. *)
Lemma three_numbers a b c x y z :
  0 <= x < 10 ^ Z.of_nat a -> 0 <= y < 10 ^ Z.of_nat b -> 0 <= z < 10 ^ Z.of_nat c ->
  let s := (pad a x ++ pad b y ++ pad c z)%string in
  String.length s = (a + b + c)%nat /\ str_forall is_digit s = true /\
  val (str_take a s) = x /\ val (str_take b (str_drop a s)) = y /\ val (str_drop (a + b) s) = z.
Proof.
  intros Hx Hy Hz s. destruct (pad_facts a x Hx) as (Vx & Fx & Lx), (pad_facts b y Hy) as (Vy & Fy & Ly), (pad_facts c z Hz) as (Vz & Fz & Lz).
  subst s. split_and!.
  - rewrite !str_length_app, Lx, Ly, Lz. lia.
  - by rewrite !str_forall_app, Fx, Fy, Fz.
  - by rewrite str_take_app.
  - rewrite <- (Nat.add_0_r a) at 1. rewrite str_drop_app by done. change (str_drop 0 ?s) with s. by rewrite str_take_app.
  - rewrite str_drop_app by done. rewrite <- (Nat.add_0_r b) at 1. rewrite str_drop_app by done. done.
Qed.

Lemma g_date_text s d :
  g_parse_date s = Some d -> g_parse_date (g_fmt_date d) = Some d /\ str_forall is_digit (g_fmt_date d) = true /\ g_fmt_date d <> EmptyString.
Proof.
  unfold g_parse_date at 1. destruct (_ && _) eqn:E; [|done]. apply andb_true_iff in E as [L%Nat.eqb_eq F].
  intros (Hr & Hy & Hm & Hd)%g_ymd_sound.
  pose proof (val_take 4 s F) as B1. pose proof (val_take 2 (str_drop 4 s) (str_forall_drop _ _ _ F)) as B2.
  assert (B3 : 0 <= val (str_drop 6 s) < 10 ^ Z.of_nat 2).
  { pose proof (val_bound (str_drop 6 s) (str_forall_drop _ _ _ F) 0 ltac:(lia)) as B. unfold val.
    replace (String.length (str_drop 6 s)) with 2%nat in B; [lia|]. do 9 (destruct s as [|? s]; try done). }
  rewrite <- Hy in B1. rewrite <- Hm in B2. rewrite <- Hd in B3.
  destruct (three_numbers 4 2 2 _ _ _ B1 B2 B3) as (N1 & N2 & N3 & N4 & N5). change (4 + 2)%nat with 6%nat in N5.
  fold (g_fmt_date d) in N1, N2, N3, N4, N5. split_and!; [|done|intros Ee; by rewrite Ee in N1].
  unfold g_parse_date. rewrite N1, N2. cbn [Nat.eqb Nat.add andb]. rewrite N3, N4, N5. by apply g_ymd_complete.
Qed.

Lemma and_hms_back d h m s t : and_hms_opt d h m s = Some t -> hour t = h /\ minute t = m /\ second t = s /\ 0 <= h < 24 /\ 0 <= m < 60 /\ 0 <= s < 60.
Proof.
  unfold and_hms_opt. destruct (_ && _) eqn:E; [|done]. rewrite !andb_true_iff, !Z.leb_le, !Z.ltb_lt in E. intros [= <-].
  unfold hour, minute, second, time_of, DAY_SECS.
  replace ((d * 86400 + h * 3600 + m * 60 + s) mod 86400) with (h * 3600 + m * 60 + s); [div_lia|div_lia].
Qed.

#[global] Instance Gregorian_text_laws : ChronoTextLaws.
Proof.
  split; cbn [GregorianText parse_datetime parse_date fmt_datetime fmt_date].
  - intros s u. unfold g_parse_datetime. destruct (split_once "T" s) as [ [l r]|] eqn:E; [|done]. intros _.
    apply split_once_sound in E as [-> _]. rewrite no_char_app. simpl. by rewrite andb_false_r.
  - intros s d. unfold g_parse_date. destruct (_ && _) eqn:E; [|done]. intros _. apply andb_true_iff in E as [_ F]. by apply digits_no_t.
  - intros s u. unfold g_parse_datetime at 1. destruct (split_once "T" s) as [ [l r]|] eqn:E; [|done].
    destruct (_ && _) eqn:Er; [|done]. apply andb_true_iff in Er as [L%Nat.eqb_eq F].
    destruct (g_parse_date l) as [d|] eqn:Ed; [|done]. intros Hu _. apply and_hms_date in Hu as Hd.
    apply and_hms_back in Hu as Hb. destruct Hb as (Hh & Hm & Hs & Rh & Rm & Rs).
    apply g_date_text in Ed as (D1 & D2 & D3).
    destruct (three_numbers 2 2 2 (hour u) (minute u) (second u)) as (N1 & N2 & N3 & N4 & N5); [simpl; lia..|].
    unfold g_fmt_datetime. rewrite Hd. split.
    + unfold g_parse_datetime. set (r' := (pad 2 (hour u) ++ _)%string) in *. change ("T" ++ r')%string with (String "T" r').
      rewrite (split_once_char "T"); [|by apply digits_no_t].
      rewrite N1, N2. cbn [Nat.eqb Nat.add andb]. rewrite D1. change (2 + 2)%nat with 4%nat in N5. rewrite N3, N4, N5, Hh, Hm, Hs. done.
    + eexists _, _. split_and!; [reflexivity|done|done|]. intros Ee. by rewrite Ee in N1.
  - intros s d Hd _. by eapply g_date_text.
Qed.
