(* ===== verification/RecurRule.v ===== *)
(** * Recurrence rules

    The [RRULE] of thegn-core/src/calendar/recur.rs: its data, its reader and its
    writer.  Rules are stored and sent as the text the writer makes, so what was
    read must be what is read back. *)
From Stdlib Require Import Ascii String DecimalString.
From S2P Require Import Prelude RustStr RustText Chrono.
Local Open Scope string_scope.
Local Open Scope list_scope.
Local Open Scope Z_scope.

Inductive Freq := Secondly | Minutely | Hourly | Daily | Weekly | Monthly | Yearly.

#[global] Instance Freq_eq_dec : EqDecision Freq.
Proof. solve_decision. Defined.

(** [s.to_ascii_uppercase()]. *)
Definition to_upper (a : ascii) : ascii := if byte_in 97 122 a then ascii_of_N (N_of_ascii a - 32) else a.
Fixpoint to_ascii_uppercase (s : string) : string :=
  match s with EmptyString => EmptyString | String a s => String (to_upper a) (to_ascii_uppercase s) end.

(** The first entry of a table of words. *)
Fixpoint word_of {A} (s : string) (l : list (string * A)) : option A :=
  match l with [] => None | (w, a) :: l => if String.eqb s w then Some a else word_of s l end.

Definition freq_parse (s : string) : option Freq :=
  word_of (to_ascii_uppercase (trim s))
    [("SECONDLY", Secondly); ("MINUTELY", Minutely); ("HOURLY", Hourly); ("DAILY", Daily); ("WEEKLY", Weekly);
     ("MONTHLY", Monthly); ("YEARLY", Yearly)].

Definition freq_str (f : Freq) : string :=
  match f with
  | Secondly => "SECONDLY" | Minutely => "MINUTELY" | Hourly => "HOURLY" | Daily => "DAILY" | Weekly => "WEEKLY"
  | Monthly => "MONTHLY" | Yearly => "YEARLY"
  end.

Record ByDay := mkByDay { nth : option Z; bd_weekday : Weekday }.

Inductive UntilForm := UDate | UFloating | UUtc.

Record RRule := mkRRule {
  freq : Freq;
  interval : Z;
  count : option Z;
  until : option NaiveDateTime;
  until_form : UntilForm;
  by_second : list Z;
  by_minute : list Z;
  by_hour : list Z;
  by_day : list ByDay;
  by_month_day : list Z;
  by_year_day : list Z;
  by_week_no : list Z;
  by_month : list Z;
  by_set_pos : list Z;
  wkst : Weekday;
}.

Definition rrule_default : RRule := mkRRule Weekly 1 None None UUtc [] [] [] [] [] [] [] [] [] Mon.

Definition set_freq (x : Freq) (r : RRule) : RRule :=
  mkRRule x (interval r) (count r) (until r) (until_form r) (by_second r) (by_minute r) (by_hour r) (by_day r) (by_month_day r) (by_year_day r) (by_week_no r) (by_month r) (by_set_pos r) (wkst r).
Definition set_interval (x : Z) (r : RRule) : RRule :=
  mkRRule (freq r) x (count r) (until r) (until_form r) (by_second r) (by_minute r) (by_hour r) (by_day r) (by_month_day r) (by_year_day r) (by_week_no r) (by_month r) (by_set_pos r) (wkst r).
Definition set_count (x : option Z) (r : RRule) : RRule :=
  mkRRule (freq r) (interval r) x (until r) (until_form r) (by_second r) (by_minute r) (by_hour r) (by_day r) (by_month_day r) (by_year_day r) (by_week_no r) (by_month r) (by_set_pos r) (wkst r).
Definition set_by_second (x : list Z) (r : RRule) : RRule :=
  mkRRule (freq r) (interval r) (count r) (until r) (until_form r) x (by_minute r) (by_hour r) (by_day r) (by_month_day r) (by_year_day r) (by_week_no r) (by_month r) (by_set_pos r) (wkst r).
Definition set_by_minute (x : list Z) (r : RRule) : RRule :=
  mkRRule (freq r) (interval r) (count r) (until r) (until_form r) (by_second r) x (by_hour r) (by_day r) (by_month_day r) (by_year_day r) (by_week_no r) (by_month r) (by_set_pos r) (wkst r).
Definition set_by_hour (x : list Z) (r : RRule) : RRule :=
  mkRRule (freq r) (interval r) (count r) (until r) (until_form r) (by_second r) (by_minute r) x (by_day r) (by_month_day r) (by_year_day r) (by_week_no r) (by_month r) (by_set_pos r) (wkst r).
Definition set_by_day (x : list ByDay) (r : RRule) : RRule :=
  mkRRule (freq r) (interval r) (count r) (until r) (until_form r) (by_second r) (by_minute r) (by_hour r) x (by_month_day r) (by_year_day r) (by_week_no r) (by_month r) (by_set_pos r) (wkst r).
Definition set_by_month_day (x : list Z) (r : RRule) : RRule :=
  mkRRule (freq r) (interval r) (count r) (until r) (until_form r) (by_second r) (by_minute r) (by_hour r) (by_day r) x (by_year_day r) (by_week_no r) (by_month r) (by_set_pos r) (wkst r).
Definition set_by_year_day (x : list Z) (r : RRule) : RRule :=
  mkRRule (freq r) (interval r) (count r) (until r) (until_form r) (by_second r) (by_minute r) (by_hour r) (by_day r) (by_month_day r) x (by_week_no r) (by_month r) (by_set_pos r) (wkst r).
Definition set_by_week_no (x : list Z) (r : RRule) : RRule :=
  mkRRule (freq r) (interval r) (count r) (until r) (until_form r) (by_second r) (by_minute r) (by_hour r) (by_day r) (by_month_day r) (by_year_day r) x (by_month r) (by_set_pos r) (wkst r).
Definition set_by_month (x : list Z) (r : RRule) : RRule :=
  mkRRule (freq r) (interval r) (count r) (until r) (until_form r) (by_second r) (by_minute r) (by_hour r) (by_day r) (by_month_day r) (by_year_day r) (by_week_no r) x (by_set_pos r) (wkst r).
Definition set_by_set_pos (x : list Z) (r : RRule) : RRule :=
  mkRRule (freq r) (interval r) (count r) (until r) (until_form r) (by_second r) (by_minute r) (by_hour r) (by_day r) (by_month_day r) (by_year_day r) (by_week_no r) (by_month r) x (wkst r).
Definition set_wkst (x : Weekday) (r : RRule) : RRule :=
  mkRRule (freq r) (interval r) (count r) (until r) (until_form r) (by_second r) (by_minute r) (by_hour r) (by_day r) (by_month_day r) (by_year_day r) (by_week_no r) (by_month r) (by_set_pos r) x.
Definition set_until (x : NaiveDateTime) (f : UntilForm) (r : RRule) : RRule :=
  mkRRule (freq r) (interval r) (count r) (Some x) f (by_second r) (by_minute r) (by_hour r) (by_day r) (by_month_day r) (by_year_day r) (by_week_no r) (by_month r) (by_set_pos r) (wkst r).

Inductive RecurError := BadFreq (s : string) | BadValue (s : string) | OutOfRange (s : string).

(** ** Reading *)

Definition weekday (s : string) : option Weekday :=
  word_of (to_ascii_uppercase (trim s))
    [("MO", Mon); ("TU", Tue); ("WE", Wed); ("TH", Thu); ("FR", Fri); ("SA", Sat); ("SU", Sun)].

Definition wd_str (w : Weekday) : string :=
  match w with Mon => "MO" | Tue => "TU" | Wed => "WE" | Thu => "TH" | Fri => "FR" | Sat => "SA" | Sun => "SU" end.

(** [s.parse()] of a signed integer with the given range. *)
Definition parse_int (lo hi : Z) (s : string) : option Z :=
  let '(negative, digits) :=
    match s with String "-" s => (true, s) | String "+" s => (false, s) | _ => (false, s) end in
  if is_empty digits then None
  else match NilEmpty.uint_of_string digits with
       | Some d => let n := if (negative : bool) then - Z.of_N (N.of_uint d) else Z.of_N (N.of_uint d) in
                   if (lo <=? n) && (n <=? hi) then Some n else None
       | None => None
       end.

Definition parse_i8 : string -> option Z := parse_int (-128) 127.
Definition parse_i64 : string -> option Z := parse_int i64_min i64_max.

(** A split inside a character leaves two bytes that name no weekday. *)
Definition parse_by_day (s : string) : option ByDay :=
  let t := trim s in
  if (String.length t <? 2)%nat then None
  else
    let split := (String.length t - 2)%nat in
    match weekday (str_drop split t) with
    | None => None
    | Some w =>
        let num := str_take split t in
        if is_empty num then Some (mkByDay None w)
        else match parse_i8 num with Some n => Some (mkByDay (Some n) w) | None => None end
    end.

Definition MAX_BY_LIST : nat := 400.

(** [collect] of results: the values, or the first error. *)
Fixpoint collect_results {A B E} (f : A -> result E B) (l : list A) : result E (list B) :=
  match l with
  | [] => Ok []
  | a :: l => let? b := f a in let? bs := collect_results f l in Ok (b :: bs)
  end.

Definition list_tokens (v : string) : list string := List.filter (fun s => negb (is_empty s)) (map trim (split_char "," v)).

(** The integer types of the lists. *)
Inductive IntTy := U32 | I8 | I16 | I32.
Definition ty_min (t : IntTy) : Z := match t with U32 => 0 | I8 => -128 | I16 => -32768 | I32 => -2147483648 end.
Definition ty_max (t : IntTy) : Z := match t with U32 => 4294967295 | I8 => 127 | I16 => 32767 | I32 => 2147483647 end.

Definition checked_token (ty : IntTy) (part : string) (lo hi : Z) (signed : bool) (t : string) : result RecurError Z :=
  match parse_i64 t with
  | None => Err (BadValue t)
  | Some n =>
      let ok := if signed then negb (n =? 0) && (Z.abs n <=? hi) else (lo <=? n) && (n <=? hi) in
      if negb ok then Err (OutOfRange (part ++ "=" ++ t)%string)
      else if (ty_min ty <=? n) && (n <=? ty_max ty) then Ok n
      else Err (OutOfRange (part ++ "=" ++ t)%string)
  end.

Definition checked_list (ty : IntTy) (part v : string) (lo hi : Z) (signed : bool) : result RecurError (list Z) :=
  let toks := list_tokens v in
  if (MAX_BY_LIST <? length toks)%nat then Err (OutOfRange (part ++ ": more than 400 values")%string)
  else collect_results (checked_token ty part lo hi signed) toks.

Definition checked_day (t : string) : result RecurError ByDay :=
  match parse_by_day t with
  | None => Err (BadValue t)
  | Some d =>
      match nth d with
      | Some n => if (n =? 0) || (53 <? Z.abs n) then Err (OutOfRange ("BYDAY=" ++ t)%string) else Ok d
      | None => Ok d
      end
  end.

Definition checked_by_day (v : string) : result RecurError (list ByDay) :=
  let toks := list_tokens v in
  if (MAX_BY_LIST <? length toks)%nat then Err (OutOfRange "BYDAY: more than 400 values")
  else collect_results checked_day toks.

Definition is_rule_part (name : string) : bool :=
  existsb (String.eqb name)
    ["FREQ"; "COUNT"; "UNTIL"; "INTERVAL"; "BYSECOND"; "BYMINUTE"; "BYHOUR"; "BYDAY"; "BYMONTHDAY"; "BYYEARDAY"; "BYWEEKNO";
     "BYMONTH"; "BYSETPOS"; "WKST"].

Definition until_form_of (v : string) : UntilForm :=
  let t := trim v in
  if no_char "T" t then UDate
  else match strip_suffix "Z" t with Some _ => UUtc | None => UFloating end.

Section Text.
Context `{ChronoText}.

Definition parse_ics_datetime (s : string) : option NaiveDateTime :=
  let t := trim_end_matches "Z" (trim s) in
  match parse_datetime t with
  | Some u => Some u
  | None => match parse_date t with Some d => and_hms_opt d 0 0 0 | None => None end
  end.

Definition ok_or {E A} (o : option A) (e : E) : result E A := match o with Some a => Ok a | None => Err e end.

(** The arm of one part; [true] when it was the frequency. *)
Definition apply_part (key v : string) (r : RRule) : result RecurError (bool * RRule) :=
  let set {A} (f : A -> RRule -> RRule) (x : result RecurError A) := let? x := x in Ok (false, f x r) in
  if String.eqb key "FREQ" then let? f := ok_or (freq_parse v) (BadFreq v) in Ok (true, set_freq f r)
  else if String.eqb key "INTERVAL" then
    match parse_u32 v with
    | Some 0%N => Err (OutOfRange ("INTERVAL=" ++ v)%string)
    | Some n => Ok (false, set_interval (Z.of_N n) r)
    | None => Err (BadValue v)
    end
  else if String.eqb key "COUNT" then set set_count (let? n := ok_or (parse_u32 v) (BadValue v) in Ok (Some (Z.of_N n)))
  else if String.eqb key "UNTIL" then
    let? u := ok_or (parse_ics_datetime v) (BadValue v) in Ok (false, set_until u (until_form_of v) r)
  else if String.eqb key "BYSECOND" then set set_by_second (checked_list U32 "BYSECOND" v 0 60 false)
  else if String.eqb key "BYMINUTE" then set set_by_minute (checked_list U32 "BYMINUTE" v 0 59 false)
  else if String.eqb key "BYHOUR" then set set_by_hour (checked_list U32 "BYHOUR" v 0 23 false)
  else if String.eqb key "BYDAY" then set set_by_day (checked_by_day v)
  else if String.eqb key "BYMONTHDAY" then set set_by_month_day (checked_list I8 "BYMONTHDAY" v 1 31 true)
  else if String.eqb key "BYYEARDAY" then set set_by_year_day (checked_list I16 "BYYEARDAY" v 1 366 true)
  else if String.eqb key "BYWEEKNO" then set set_by_week_no (checked_list I8 "BYWEEKNO" v 1 53 true)
  else if String.eqb key "BYMONTH" then set set_by_month (checked_list U32 "BYMONTH" v 1 12 false)
  else if String.eqb key "BYSETPOS" then set set_by_set_pos (checked_list I32 "BYSETPOS" v 1 366 true)
  else if String.eqb key "WKST" then set set_wkst (ok_or (weekday v) (BadValue v))
  else Ok (false, r).

Record RuleParse := mkRuleParse { rp_rule : RRule; saw_freq : bool; seen_parts : list string }.

(** One turn of the loop over the parts. *)
Definition parse_part (st : RuleParse) (part : string) : result RecurError RuleParse :=
  match split_once "=" part with
  | None =>
      let name := to_ascii_uppercase (trim part) in
      if is_rule_part name then Err (BadValue name) else Ok st
  | Some (k, v) =>
      let key := to_ascii_uppercase (trim k) in
      let v := trim v in
      if is_rule_part key && existsb (String.eqb key) (seen_parts st) then Err (BadValue ("duplicate " ++ key)%string)
      else
        let? (is_freq, r) := apply_part key v (rp_rule st) in
        Ok (mkRuleParse r (saw_freq st || is_freq) (if is_rule_part key then key :: seen_parts st else seen_parts st))
  end.

Fixpoint parse_parts (st : RuleParse) (parts : list string) : result RecurError RuleParse :=
  match parts with
  | [] => Ok st
  | p :: parts => let? st := parse_part st p in parse_parts st parts
  end.

Definition rrule_parse (input : string) : result RecurError RRule :=
  let body := default (trim input) (strip_prefix "RRULE:" (trim input)) in
  let? st := parse_parts (mkRuleParse rrule_default false []) (split_char ";" body) in
  if negb (saw_freq st) then Err (BadFreq body)
  else if bool_decide (is_Some (count (rp_rule st))) && bool_decide (is_Some (until (rp_rule st)))
  then Err (BadValue "COUNT with UNTIL")
  else Ok (rp_rule st).

(** ** Writing *)

Definition part {A} (name : string) (text : A -> string) (l : list A) : list string :=
  match l with [] => [] | _ => [(name ++ "=" ++ join "," (map text l))%string] end.

Definition by_day_str (d : ByDay) : string := ((match nth d with Some n => fmt_i64 n | None => "" end) ++ wd_str (bd_weekday d))%string.

Definition until_str (u : NaiveDateTime) (f : UntilForm) : string :=
  match f with
  | UDate => fmt_date (date_of u)
  | UFloating => fmt_datetime u
  | UUtc => (fmt_datetime u ++ "Z")%string
  end.

Definition rrule_parts (r : RRule) : list string :=
  [("FREQ=" ++ freq_str (freq r))%string] ++
  (if interval r =? 1 then [] else [("INTERVAL=" ++ fmt_i64 (interval r))%string]) ++
  (match count r with Some c => [("COUNT=" ++ fmt_i64 c)%string] | None => [] end) ++
  (match until r with Some u => [("UNTIL=" ++ until_str u (until_form r))%string] | None => [] end) ++
  part "BYSECOND" fmt_i64 (by_second r) ++ part "BYMINUTE" fmt_i64 (by_minute r) ++ part "BYHOUR" fmt_i64 (by_hour r) ++
  part "BYDAY" by_day_str (by_day r) ++ part "BYMONTHDAY" fmt_i64 (by_month_day r) ++ part "BYYEARDAY" fmt_i64 (by_year_day r) ++
  part "BYWEEKNO" fmt_i64 (by_week_no r) ++ part "BYMONTH" fmt_i64 (by_month r) ++ part "BYSETPOS" fmt_i64 (by_set_pos r) ++
  (if bool_decide (wkst r = Mon) then [] else [("WKST=" ++ wd_str (wkst r))%string]).

Definition to_rrule (r : RRule) : string := join ";" (rrule_parts r).

End Text.
