(* ===== verification/RecurRuleProps.v ===== *)
(** * A recurrence rule survives its text

    Whatever rule was read is within the domains of RFC 5545, and writing it and
    reading it again gives the same rule. *)
From Stdlib Require Import Ascii String DecimalString DecimalN.
From S2P Require Import Prelude RustStr RustText Chrono Gregorian RecurRule.
Local Open Scope string_scope.
Local Open Scope list_scope.
Local Open Scope Z_scope.

(** ** Characters of a value *)

Lemma str_forall_impl (p q : ascii -> bool) s : (forall a, p a = true -> q a = true) -> str_forall p s = true -> str_forall q s = true.
Proof. intros Hi. induction s as [|a s IH]; [done|]. cbn [str_forall]. intros [Ha Hs]%andb_true_iff. by rewrite Hi, IH. Qed.

Lemma no_char_of p c s : p c = false -> str_forall p s = true -> no_char c s = true.
Proof.
  intros Hc. induction s as [|a s IH]; [done|]. cbn [str_forall no_char]. intros [Ha Hs]%andb_true_iff. rewrite IH by done.
  destruct (Ascii.eqb_spec a c) as [->|]; [congruence|done].
Qed.

(** A character of a token: graphic, and no separator. *)
Definition token_char (a : ascii) : bool :=
  graphic a && negb (Ascii.eqb a ",") && negb (Ascii.eqb a ";") && negb (Ascii.eqb a "=").

(** A character of a value. *)
Definition value_char (a : ascii) : bool := graphic a && negb (Ascii.eqb a ";") && negb (Ascii.eqb a "=").

Lemma token_value a : token_char a = true -> value_char a = true.
Proof. unfold token_char, value_char. destruct (graphic a), (Ascii.eqb a ","), (Ascii.eqb a ";"), (Ascii.eqb a "="); done. Qed.

Lemma value_graphic a : value_char a = true -> graphic a = true.
Proof. unfold value_char. by destruct (graphic a). Qed.

Lemma digit_token a : is_digit a = true -> token_char a = true.
Proof.
  unfold is_digit, token_char, graphic, byte_in. intros [H1%N.leb_le H2%N.leb_le]%andb_true_iff.
  rewrite (proj2 (N.leb_le 33 _)), (proj2 (N.leb_le _ 126)) by lia. cbn [andb].
  destruct (Ascii.eqb_spec a ",") as [->|]; [simpl in *; lia|]. destruct (Ascii.eqb_spec a ";") as [->|]; [simpl in *; lia|].
  destruct (Ascii.eqb_spec a "=") as [->|]; [simpl in *; lia|done].
Qed.

Lemma digits_token s : str_forall is_digit s = true -> str_forall token_char s = true.
Proof. apply str_forall_impl, digit_token. Qed.

Lemma uint_digits d : str_forall is_digit (NilEmpty.string_of_uint d) = true.
Proof. induction d; [done|..]; cbn [NilEmpty.string_of_uint str_forall]; by rewrite IHd. Qed.

Lemma fmt_N_digits n : str_forall is_digit (fmt_N n) = true.
Proof. rewrite fmt_N_eq. apply uint_digits. Qed.

Lemma fmt_i64_token z : str_forall token_char (fmt_i64 z) = true.
Proof. unfold fmt_i64. destruct (z <? 0); cbn [String.append str_forall]; rewrite digits_token by apply fmt_N_digits; done. Qed.

Lemma fmt_i64_nonempty z : fmt_i64 z <> "".
Proof. unfold fmt_i64. destruct (z <? 0); [done|]. intros E. pose proof (fmt_N_nonempty (Z.to_N z)) as H. by rewrite E in H. Qed.

(** ** Numbers *)

Lemma digits_not_sign s : str_forall is_digit s = true -> forall b, match s with String "-" s => (true, s) | String "+" s => (false, s) | _ => (b, s) end = (b, s).
Proof. destruct s as [|a s]; [done|]. cbn [str_forall]. intros [Ha _]%andb_true_iff b. destruct a as [ [] [] [] [] [] [] [] []]; done. Qed.

Lemma parse_fmt_i64 lo hi z : lo <= z <= hi -> parse_int lo hi (fmt_i64 z) = Some z.
Proof.
  intros Hz. unfold parse_int, fmt_i64. destruct (Z.ltb_spec z 0).
  - cbn [String.append]. rewrite fmt_N_nonempty, fmt_N_eq, NilEmpty.usu, Unsigned.of_to.
    replace (- Z.of_N (Z.to_N (- z))) with z by lia. by rewrite (proj2 (Z.leb_le lo z)), (proj2 (Z.leb_le z hi)) by lia.
  - rewrite digits_not_sign by apply fmt_N_digits. rewrite fmt_N_nonempty, fmt_N_eq, NilEmpty.usu, Unsigned.of_to.
    rewrite Z2N.id by lia. by rewrite (proj2 (Z.leb_le lo z)), (proj2 (Z.leb_le z hi)) by lia.
Qed.

Lemma parse_u32_fmt_i64 z : 0 <= z <= Z.of_N u32_max -> parse_u32 (fmt_i64 z) = Some (Z.to_N z).
Proof.
  intros H. unfold fmt_i64. rewrite (proj2 (Z.ltb_ge z 0)) by lia. apply parse_fmt_u32. lia.
Qed.

Lemma parse_int_bound lo hi s n : parse_int lo hi s = Some n -> lo <= n <= hi.
Proof.
  unfold parse_int. destruct (match s with String "-" s => (true, s) | String "+" s => (false, s) | _ => (false, s) end) as [neg ds].
  destruct (is_empty ds); [done|]. destruct (NilEmpty.uint_of_string ds); [|done]. destruct (_ && _) eqn:E; [|done].
  intros [= <-]. rewrite andb_true_iff, !Z.leb_le in E. lia.
Qed.

(** ** Lists *)

Lemma tokens_join ts :
  ts <> [] -> Forall (fun t => str_forall token_char t = true /\ t <> "") ts -> list_tokens (join "," ts) = ts.
Proof.
  intros Hne Hf. unfold list_tokens. rewrite (split_join_id "," ts); [|done|].
  - clear Hne. induction Hf as [|t ts [Ht Hn] Hf IH]; [done|]. cbn [map List.filter].
    rewrite trim_graphic by (eapply str_forall_impl, Ht; intros; by apply value_graphic, token_value).
    rewrite IH. by destruct t.
  - eapply Forall_impl; [exact Hf|]. intros t [Ht _]. by eapply no_char_of, Ht.
Qed.

Lemma tokens_value ts :
  Forall (fun t => str_forall token_char t = true /\ t <> "") ts -> str_forall value_char (join "," ts) = true.
Proof.
  induction 1 as [|t ts [Ht _] Hf IH]; [done|]. assert (Hv : str_forall value_char t = true) by (eapply str_forall_impl, Ht; apply token_value).
  destruct ts; [done|]. rewrite join_cons by done. by rewrite !str_forall_app, Hv, IH.
Qed.

Lemma collect_map {A B E} (f : A -> result E B) (g : B -> A) l : (forall b, b ∈ l -> f (g b) = Ok b) -> collect_results f (map g l) = Ok l.
Proof.
  induction l as [|b l IH]; intros H; [done|]. cbn [map collect_results]. rewrite H by (by left). simpl.
  rewrite IH by (intros; apply H; by right). done.
Qed.

Lemma collect_forall {A B E} (f : A -> result E B) (P : B -> Prop) l bs :
  (forall a b, f a = Ok b -> P b) -> collect_results f l = Ok bs -> Forall P bs /\ length bs = length l.
Proof.
  intros Hf. revert bs. induction l as [|a l IH]; intros bs; cbn [collect_results]; [intros [= <-]; auto|].
  destruct (f a) as [b|] eqn:E'; [|done]. simpl. destruct (collect_results f l) as [bs'|]; [|done]. simpl. intros [= <-].
  destruct (IH bs' eq_refl) as [? ?]. split; [constructor; eauto|simpl; lia].
Qed.

(** A list within its domain. *)
Definition in_range (lo hi : Z) (signed : bool) (n : Z) : Prop := if signed then n <> 0 /\ Z.abs n <= hi else lo <= n <= hi.
Definition list_ok (lo hi : Z) (signed : bool) (l : list Z) : Prop := (length l <= MAX_BY_LIST)%nat /\ Forall (in_range lo hi signed) l.

Lemma checked_token_ok ty part lo hi signed t n : checked_token ty part lo hi signed t = Ok n -> in_range lo hi signed n.
Proof.
  unfold checked_token. destruct (parse_i64 t) as [m|]; [|done].
  destruct (if signed then _ else _) eqn:E; cbn [negb]; [|done]. destruct ((ty_min ty <=? m) && _); [|done].
  intros [= ->]. unfold in_range. destruct signed; [|rewrite andb_true_iff, !Z.leb_le in E; lia].
  rewrite andb_true_iff, negb_true_iff, Z.eqb_neq, Z.leb_le in E. lia.
Qed.

Lemma checked_list_ok ty part v lo hi signed l : checked_list ty part v lo hi signed = Ok l -> list_ok lo hi signed l.
Proof.
  unfold checked_list. destruct (Nat.ltb_spec MAX_BY_LIST (length (list_tokens v))); [done|].
  intros E. destruct (collect_forall _ (in_range lo hi signed) _ _ (checked_token_ok ty part lo hi signed) E). split; [lia|done].
Qed.

Lemma checked_list_text ty part lo hi signed l :
  0 <= lo -> 0 <= hi <= ty_max ty -> (signed = true -> ty_min ty <= - hi) -> ty_min ty <= 0 -> list_ok lo hi signed l -> l <> [] ->
  checked_list ty part (join "," (map fmt_i64 l)) lo hi signed = Ok l.
Proof.
  intros Hlo Hhi Hs Hm [Hlen Hf] Hne. unfold checked_list. rewrite tokens_join.
  - rewrite length_map, (proj2 (Nat.ltb_ge _ _)) by lia. apply collect_map. intros n Hn.
    rewrite Forall_forall in Hf. specialize (Hf n Hn). unfold checked_token, parse_i64.
    assert (ty_max ty <= i64_max /\ i64_min <= ty_min ty) by (destruct ty; vm_compute; split; discriminate).
    unfold in_range in Hf. rewrite parse_fmt_i64 by (destruct signed; [specialize (Hs eq_refl)|]; lia).
    assert (Hok : (if signed then negb (n =? 0) && (Z.abs n <=? hi) else (lo <=? n) && (n <=? hi)) = true).
    { destruct signed; [|by rewrite !(proj2 (Z.leb_le _ _)) by lia].
      by rewrite (proj2 (Z.eqb_neq n 0)), (proj2 (Z.leb_le _ _)) by lia. }
    rewrite Hok. cbn [negb]. rewrite !(proj2 (Z.leb_le _ _)) by (destruct signed; [specialize (Hs eq_refl)|]; lia). done.
  - by destruct l.
  - apply Forall_map, Forall_forall. intros n _. split; [apply fmt_i64_token|apply fmt_i64_nonempty].
Qed.

(** ** Weekdays and frequencies *)

Definition day_ok (d : ByDay) : Prop := match nth d with Some n => in_range 1 53 true n | None => True end.

Lemma wd_str_token w : str_forall token_char (wd_str w) = true /\ weekday (wd_str w) = Some w /\ String.length (wd_str w) = 2%nat.
Proof. by destruct w. Qed.

Lemma freq_str_token f : str_forall value_char (freq_str f) = true /\ freq_parse (freq_str f) = Some f.
Proof. by destruct f. Qed.

Lemma by_day_str_token d : str_forall token_char (by_day_str d) = true /\ by_day_str d <> "".
Proof.
  unfold by_day_str. destruct (wd_str_token (bd_weekday d)) as (H1 & _ & H2). rewrite str_forall_app, H1, andb_true_r. split.
  - destruct (nth d); [apply fmt_i64_token|done].
  - intros E. apply (f_equal String.length) in E. rewrite str_length_app, H2 in E. simpl in E. lia.
Qed.

Lemma parse_by_day_text d : day_ok d -> parse_by_day (by_day_str d) = Some d.
Proof.
  intros Hd. destruct (by_day_str_token d) as [Ht _]. destruct (wd_str_token (bd_weekday d)) as (_ & Hw & Hl).
  unfold parse_by_day. rewrite trim_graphic by (eapply str_forall_impl, Ht; intros; by apply value_graphic, token_value).
  unfold by_day_str in *. set (num := match nth d with Some n => fmt_i64 n | None => "" end) in *.
  rewrite str_length_app, Hl, (proj2 (Nat.ltb_ge _ _)), Nat.add_sub by lia.
  rewrite <- (Nat.add_0_r (String.length num)) at 1. rewrite str_drop_app, str_take_app by done. change (str_drop 0 ?s) with s. rewrite Hw.
  subst num. destruct d as [ [n|] w]; cbn [nth bd_weekday] in *; [|done]. unfold day_ok, in_range in Hd. cbn [nth] in Hd.
  pose proof (fmt_i64_nonempty n). destruct (fmt_i64 n) eqn:E; [done|]. cbn [is_empty]. rewrite <- E. unfold parse_i8. by rewrite parse_fmt_i64 by lia.
Qed.

Lemma checked_day_ok t d : checked_day t = Ok d -> day_ok d.
Proof.
  unfold checked_day, day_ok, in_range. destruct (parse_by_day t) as [d'|]; [|done]. destruct (nth d') as [n|] eqn:E.
  - destruct (_ || _) eqn:En; [done|]. intros [= <-]. rewrite E. rewrite orb_false_iff, Z.eqb_neq, Z.ltb_ge in En. lia.
  - intros [= <-]. by rewrite E.
Qed.

Definition days_ok (l : list ByDay) : Prop := (length l <= MAX_BY_LIST)%nat /\ Forall day_ok l.

Lemma checked_by_day_ok v l : checked_by_day v = Ok l -> days_ok l.
Proof.
  unfold checked_by_day. destruct (Nat.ltb_spec MAX_BY_LIST (length (list_tokens v))); [done|].
  intros E. destruct (collect_forall _ day_ok _ _ checked_day_ok E). split; [lia|done].
Qed.

Lemma checked_by_day_text l : days_ok l -> l <> [] -> checked_by_day (join "," (map by_day_str l)) = Ok l.
Proof.
  intros [Hlen Hf] Hne. unfold checked_by_day. rewrite tokens_join.
  - rewrite length_map, (proj2 (Nat.ltb_ge _ _)) by lia. apply collect_map. intros d Hd. rewrite Forall_forall in Hf.
    unfold checked_day. rewrite parse_by_day_text by auto. specialize (Hf d Hd). unfold day_ok, in_range in Hf.
    destruct (nth d) as [n|]; [|done]. by rewrite (proj2 (Z.eqb_neq n 0)), (proj2 (Z.ltb_ge 53 _)) by lia.
  - by destruct l.
  - apply Forall_map, Forall_forall. intros d _. apply by_day_str_token.
Qed.

(** ** Bounds *)

Section Text.
Context {CH : Chrono} {CT : ChronoText} {CL : ChronoTextLaws}.

(** The bound was read from a text of its form. *)
Definition until_ok (u : NaiveDateTime) (f : UntilForm) : Prop :=
  match f with
  | UDate => exists s d, parse_date s = Some d /\ u = d * DAY_SECS
  | UFloating | UUtc => exists s, parse_datetime s = Some u
  end.

Lemma no_char_suffix c x y : no_char c (x ++ y)%string = true -> no_char c x = true.
Proof. rewrite no_char_app. by intros [? _]%andb_true_iff. Qed.

Lemma no_char_strip c d s : c <> d -> no_char c (trim_end_matches d s) = no_char c s.
Proof.
  intros Hne. induction s as [|a s IH]; [done|]. cbn [trim_end_matches no_char].
  destruct (is_empty (trim_end_matches d s) && Ascii.eqb a d) eqn:E; [|cbn [no_char]; by rewrite IH].
  apply andb_true_iff in E as [E ->%Ascii.eqb_eq]. destruct (trim_end_matches d s); [|done].
  rewrite <- IH. destruct (Ascii.eqb_spec d c); [congruence|done].
Qed.

Lemma until_read v u : parse_ics_datetime v = Some u -> until_ok u (until_form_of v).
Proof.
  unfold parse_ics_datetime, until_form_of. set (t := trim v).
  assert (Ht : no_char "T" (trim_end_matches "Z" t) = no_char "T" t) by (by apply no_char_strip).
  destruct (parse_datetime (trim_end_matches "Z" t)) as [u'|] eqn:E.
  - intros [= <-]. rewrite <- Ht, (datetime_has_t _ _ E). destruct (strip_suffix "Z" t); by eexists.
  - destruct (parse_date (trim_end_matches "Z" t)) as [d|] eqn:Ed; [|done]. intros Hu. rewrite <- Ht, (date_has_no_t _ _ Ed).
    exists (trim_end_matches "Z" t), d. split; [done|]. injection Hu as <-. lia.
Qed.

Lemma strip_no_z s : no_char "Z" s = true -> trim_end_matches "Z" s = s.
Proof.
  induction s as [|a s IH]; [done|]. cbn [no_char trim_end_matches]. intros [Ha Hs]%andb_true_iff. rewrite IH by done.
  apply negb_true_iff in Ha. by rewrite Ha, andb_false_r.
Qed.

Lemma strip_one_z s : no_char "Z" s = true -> trim_end_matches "Z" (s ++ "Z")%string = s.
Proof.
  induction s as [|a s IH]; [done|]. cbn [no_char trim_end_matches String.append]. intros [Ha Hs]%andb_true_iff. rewrite IH by done.
  apply negb_true_iff in Ha. by rewrite Ha, andb_false_r.
Qed.

Lemma strip_suffix_none c s : no_char c s = true -> strip_suffix c s = None.
Proof.
  intros Hs. destruct (strip_suffix c s) as [t|] eqn:E; [|done]. apply strip_suffix_Some in E as ->.
  rewrite no_char_app in Hs. apply andb_true_iff in Hs as [_ Hs]. cbn [no_char] in Hs. by rewrite Ascii.eqb_refl in Hs.
Qed.

(** The text of a date and time: its characters, and that it is read back. *)
Lemma datetime_str s u :
  parse_datetime s = Some u -> four_digit_year (date_of u) ->
  parse_datetime (fmt_datetime u) = Some u /\ str_forall token_char (fmt_datetime u) = true /\ no_char "T" (fmt_datetime u) = false /\
  no_char "Z" (fmt_datetime u) = true.
Proof.
  intros E Hy. destruct (datetime_text _ _ E Hy) as (P & a & b & F & Ha & Hb & _). split; [done|]. rewrite F.
  rewrite !str_forall_app, !no_char_app, (digits_token a), (digits_token b) by done. split_and!; [done| |].
  - change (no_char "T" "T") with false. by rewrite andb_false_r.
  - by rewrite (no_char_of is_digit "Z" a), (no_char_of is_digit "Z" b).
Qed.

Lemma trim_token s : str_forall token_char s = true -> trim s = s.
Proof. intros Hs. apply trim_graphic. eapply str_forall_impl, Hs. intros. by apply value_graphic, token_value. Qed.

Lemma until_text u f :
  until_ok u f -> four_digit_year (date_of u) ->
  str_forall value_char (until_str u f) = true /\ parse_ics_datetime (until_str u f) = Some u /\ until_form_of (until_str u f) = f.
Proof.
  intros Hu Hy. unfold parse_ics_datetime, until_form_of. destruct f; cbn [until_ok until_str] in *.
  - destruct Hu as (s & d & Ep & ->). rewrite date_of_midnight in *. destruct (date_text _ _ Ep Hy) as (P & F & N). pose proof (digits_token _ F) as Ht.
    rewrite trim_token by done. pose proof (no_char_of is_digit "T" _ eq_refl F) as HT. pose proof (no_char_of is_digit "Z" _ eq_refl F) as HZ.
    rewrite strip_no_z, HT, P by done. split_and!; [eapply str_forall_impl, Ht; apply token_value| |done].
    destruct (parse_datetime (fmt_date d)) as [u'|] eqn:E; [apply datetime_has_t in E; congruence|]. unfold and_hms_opt. simpl. f_equal. lia.
  - destruct Hu as (s & Ep). destruct (datetime_str _ _ Ep Hy) as (P & F & HT & HZ). rewrite trim_token by done.
    rewrite strip_no_z, HT, P by done. split_and!; [eapply str_forall_impl, F; apply token_value|done|]. by rewrite strip_suffix_none.
  - destruct Hu as (s & Ep). destruct (datetime_str _ _ Ep Hy) as (P & F & HT & HZ).
    assert (F' : str_forall token_char (fmt_datetime u ++ "Z")%string = true) by (by rewrite str_forall_app, F).
    rewrite trim_token by done. rewrite strip_one_z, P by done. split_and!; [eapply str_forall_impl, F'; apply token_value|done|].
    rewrite no_char_app, HT. cbn [andb]. by rewrite strip_suffix_app.
Qed.

(** ** The parts in their order *)

Definition rule_keys : list string :=
  ["FREQ"; "INTERVAL"; "COUNT"; "UNTIL"; "BYSECOND"; "BYMINUTE"; "BYHOUR"; "BYDAY"; "BYMONTHDAY"; "BYYEARDAY"; "BYWEEKNO"; "BYMONTH";
   "BYSETPOS"; "WKST"].

Lemma key_facts key : key ∈ rule_keys ->
  to_ascii_uppercase (trim key) = key /\ no_char "=" key = true /\ is_rule_part key = true /\ str_forall value_char key = true.
Proof.
  intros Hk. assert (Hall : forallb (fun k => String.eqb (to_ascii_uppercase (trim k)) k && no_char "=" k && is_rule_part k && str_forall value_char k)
    rule_keys = true) by (vm_compute; reflexivity).
  rewrite forallb_forall in Hall. specialize (Hall key (proj1 (list_elem_of_In _ _) Hk)). rewrite !andb_true_iff, String.eqb_eq in Hall. tauto.
Qed.

Definition part_text (key : string) (o : option string) : list string :=
  match o with Some v => [(key ++ "=" ++ v)%string] | None => [] end.

(** The parts seen so far are among [before]. *)
Definition seen_in (before : list string) (st : RuleParse) : Prop := forall k, k ∈ seen_parts st -> k ∈ before.

Lemma parts_step before key o st r' b rest :
  key ∈ rule_keys -> existsb (String.eqb key) before = false -> seen_in before st ->
  (forall v, o = Some v -> str_forall value_char v = true /\ apply_part key v (rp_rule st) = Ok (b, r')) ->
  (o = None -> r' = rp_rule st /\ b = false) ->
  exists st', rp_rule st' = r' /\ saw_freq st' = saw_freq st || b /\ seen_in (key :: before) st' /\
    parse_parts st (part_text key o ++ rest) = parse_parts st' rest.
Proof.
  intros Hk Hnew Hseen Hv Hn. destruct (key_facts key Hk) as (K1 & K2 & K3 & _). destruct o as [v|].
  - destruct (Hv v eq_refl) as [V1 V2]. exists (mkRuleParse r' (saw_freq st || b) (key :: seen_parts st)). split_and!; [done..| |].
    { intros k [->|Hk']%elem_of_cons; [by left|right; by apply Hseen]. }
    cbn [part_text app parse_parts]. unfold parse_part. change (key ++ "=" ++ v)%string with (key ++ String "=" v)%string.
    rewrite (split_once_char "=" key v K2), K1, K3. rewrite trim_graphic by (eapply str_forall_impl, V1; apply value_graphic).
    assert (existsb (String.eqb key) (seen_parts st) = false) as ->.
    { apply not_true_is_false. intros (k & Hin & ->%String.eqb_eq)%existsb_exists. apply not_true_iff_false in Hnew. apply Hnew, existsb_exists.
      exists k. split; [|apply String.eqb_refl]. by apply list_elem_of_In, Hseen, list_elem_of_In. }
    cbn [andb]. rewrite V2. done.
  - destruct (Hn eq_refl) as [-> ->]. exists st. split_and!; [done|by rewrite orb_false_r| |done]. intros k ?. right. by apply Hseen.
Qed.

Definition list_text {A} (text : A -> string) (l : list A) : option string := match l with [] => None | _ => Some (join "," (map text l)) end.

Lemma part_list {A} key (text : A -> string) l : part key text l = part_text key (list_text text l).
Proof. by destruct l. Qed.

(** A rule within the domains. *)
Record in_domain (r : RRule) : Prop := {
  d_interval : 1 <= interval r <= Z.of_N u32_max;
  d_count c : count r = Some c -> 0 <= c <= Z.of_N u32_max;
  d_until u : until r = Some u -> until_ok u (until_form r);
  d_no_until : until r = None -> until_form r = UUtc;
  d_second : list_ok 0 60 false (by_second r);
  d_minute : list_ok 0 59 false (by_minute r);
  d_hour : list_ok 0 23 false (by_hour r);
  d_day : days_ok (by_day r);
  d_month_day : list_ok 1 31 true (by_month_day r);
  d_year_day : list_ok 1 366 true (by_year_day r);
  d_week_no : list_ok 1 53 true (by_week_no r);
  d_month : list_ok 1 12 false (by_month r);
  d_set_pos : list_ok 1 366 true (by_set_pos r);
}.

(** The bound is in a year of four digits. *)
Definition four_digit_until (r : RRule) : Prop := forall u, until r = Some u -> four_digit_year (date_of u).

Lemma domain_default : in_domain rrule_default.
Proof. split; cbn; try done; try (split; [cbn; lia|constructor]). Qed.

Ltac list_arm v D :=
  let E := fresh in destruct (checked_list _ _ v _ _ _) eqn:E; [|done]; intros [= <- <-]; apply checked_list_ok in E; by destruct D.

Lemma apply_part_domain key v r b r' : in_domain r -> apply_part key v r = Ok (b, r') -> in_domain r'.
Proof.
  intros D. unfold apply_part.
  repeat match goal with |- context [if String.eqb key ?k then _ else _] => destruct (String.eqb key k) end.
  - destruct (freq_parse v); [|done]. intros [= <- <-]. by destruct D.
  - destruct (parse_u32 v) as [ [|p]|] eqn:E; [done| |done]. intros [= <- <-]. apply parse_u32_bound in E. destruct D. constructor; try assumption. cbn [set_interval interval]. lia.
  - destruct (parse_u32 v) as [n|] eqn:E; [|done]. intros [= <- <-]. apply parse_u32_bound in E. destruct D. constructor; try assumption. intros c [= <-]. lia.
  - destruct (parse_ics_datetime v) as [u|] eqn:E; [|done]. intros [= <- <-]. apply until_read in E. destruct D. constructor; try assumption; [by intros ? [= <-]|done].
  - list_arm v D.
  - list_arm v D.
  - list_arm v D.
  - destruct (checked_by_day v) as [l|] eqn:E; [|done]. intros [= <- <-]. apply checked_by_day_ok in E. by destruct D.
  - list_arm v D.
  - list_arm v D.
  - list_arm v D.
  - list_arm v D.
  - list_arm v D.
  - destruct (weekday v); [|done]. intros [= <- <-]. by destruct D.
  - intros [= <- <-]. done.
Qed.

Lemma parse_parts_domain parts st st' : in_domain (rp_rule st) -> parse_parts st parts = Ok st' -> in_domain (rp_rule st').
Proof.
  revert st. induction parts as [|p parts IH]; intros st D; cbn [parse_parts]; [by intros [= <-]|].
  destruct (parse_part st p) as [st1|] eqn:E; [|done]. simpl. apply IH. revert E. unfold parse_part.
  destruct (split_once "=" p) as [ [k v]|]; [|destruct (is_rule_part _); [done|by intros [= <-] ] ].
  destruct (_ && _); [done|]. destruct (apply_part _ _ _) as [ [b r']|] eqn:Ea; [|done]. simpl. intros [= <-]. by eapply apply_part_domain.
Qed.

Lemma parse_domain s r : rrule_parse s = Ok r -> in_domain r /\ (count r = None \/ until r = None).
Proof.
  unfold rrule_parse. destruct (parse_parts _ _) as [st|] eqn:E; [|done]. simpl. destruct (saw_freq st); cbn [negb]; [|done].
  destruct (_ && _) eqn:Ec; [done|]. intros [= <-]. split; [by eapply parse_parts_domain, E; apply domain_default|].
  apply andb_false_iff in Ec as [Ec|Ec]; apply bool_decide_eq_false in Ec; [left|right]; by apply eq_None_not_Some.
Qed.

(** Each part, read back into a rule that does not have it yet. *)
Lemma list_part_read {A} (text : A -> string) l v :
  (forall a, str_forall token_char (text a) = true /\ text a <> "") -> list_text text l = Some v ->
  l <> [] /\ v = join "," (map text l) /\ str_forall value_char v = true.
Proof.
  intros Ht. destruct l as [|a l]; [done|]. intros [= <-]. split_and!; [done|done|]. apply (tokens_value (map text (a :: l))).
  apply Forall_map, Forall_forall. intros x _. apply Ht.
Qed.

Lemma fmt_part_read l v : list_text fmt_i64 l = Some v -> l <> [] /\ v = join "," (map fmt_i64 l) /\ str_forall value_char v = true.
Proof. apply list_part_read. intros a. split; [apply fmt_i64_token|apply fmt_i64_nonempty]. Qed.

Lemma fmt_value z : str_forall value_char (fmt_i64 z) = true.
Proof. eapply str_forall_impl, fmt_i64_token. apply token_value. Qed.

(** Reading the parts from a state ends with the rule [r']. *)
Definition reads (st : RuleParse) (parts : list string) (r' : RRule) : Prop :=
  exists st', parse_parts st parts = Ok st' /\ rp_rule st' = r' /\ saw_freq st' = true.

Lemma reads_part before key o st r1 rest r' :
  key ∈ rule_keys -> existsb (String.eqb key) before = false -> seen_in before st -> saw_freq st = true ->
  (forall v, o = Some v -> str_forall value_char v = true /\ apply_part key v (rp_rule st) = Ok (false, r1)) ->
  (o = None -> r1 = rp_rule st) ->
  (forall st', rp_rule st' = r1 -> saw_freq st' = true -> seen_in (key :: before) st' -> reads st' rest r') ->
  reads st (part_text key o ++ rest) r'.
Proof.
  intros Hk Hn Hs Hf Hv Ho Hr.
  destruct (parts_step before key o st r1 false rest) as (st' & R & F & S & E); [done..|by intros ->%Ho|].
  destruct (Hr st' R) as (st'' & H1 & H2); [by rewrite F, Hf|done|]. exists st''. by rewrite E.
Qed.

Definition rule_texts (r : RRule) : list string :=
  part_text "FREQ" (Some (freq_str (freq r))) ++ part_text "INTERVAL" (if interval r =? 1 then None else Some (fmt_i64 (interval r))) ++
  part_text "COUNT" (fmt_i64 <$> count r) ++ part_text "UNTIL" ((fun u => until_str u (until_form r)) <$> until r) ++
  part_text "BYSECOND" (list_text fmt_i64 (by_second r)) ++ part_text "BYMINUTE" (list_text fmt_i64 (by_minute r)) ++
  part_text "BYHOUR" (list_text fmt_i64 (by_hour r)) ++ part_text "BYDAY" (list_text by_day_str (by_day r)) ++
  part_text "BYMONTHDAY" (list_text fmt_i64 (by_month_day r)) ++ part_text "BYYEARDAY" (list_text fmt_i64 (by_year_day r)) ++
  part_text "BYWEEKNO" (list_text fmt_i64 (by_week_no r)) ++ part_text "BYMONTH" (list_text fmt_i64 (by_month r)) ++
  part_text "BYSETPOS" (list_text fmt_i64 (by_set_pos r)) ++ part_text "WKST" (if bool_decide (wkst r = Mon) then None else Some (wd_str (wkst r))) ++ [].

Lemma rule_texts_parts r : rrule_parts r = rule_texts r.
Proof.
  unfold rrule_parts, rule_texts. rewrite !part_list, app_nil_r. destruct (interval r =? 1), (count r), (until r), (bool_decide (wkst r = Mon)); done.
Qed.

(** The type of a list holds its domain. *)
Definition dom_fits (ty : IntTy) (lo hi : Z) (signed : bool) : bool :=
  (0 <=? lo) && (0 <=? hi) && (hi <=? ty_max ty) && (negb signed || (ty_min ty <=? - hi)) && (ty_min ty <=? 0).

Lemma reads_list ty lo hi signed set before key l st rest r' :
  key ∈ rule_keys -> existsb (String.eqb key) before = false -> seen_in before st -> saw_freq st = true ->
  (forall v r, apply_part key v r = let? x := checked_list ty key v lo hi signed in Ok (false, set x r)) ->
  dom_fits ty lo hi signed = true -> list_ok lo hi signed l -> set [] (rp_rule st) = rp_rule st ->
  (forall st', rp_rule st' = set l (rp_rule st) -> saw_freq st' = true -> seen_in (key :: before) st' -> reads st' rest r') ->
  reads st (part_text key (list_text fmt_i64 l) ++ rest) r'.
Proof.
  intros Hk Hn Hs Hf Ha Hd Hl He Hr. apply (reads_part before key _ st (set l (rp_rule st))); [done..| | |done].
  - intros v (Hne & -> & Hv)%fmt_part_read. split; [done|]. rewrite Ha.
    unfold dom_fits in Hd. rewrite !andb_true_iff, orb_true_iff, negb_true_iff, !Z.leb_le in Hd.
    rewrite checked_list_text; [done|lia|lia| |lia|done|done]. intros ->. destruct Hd as [ [_ [?|?] ] _]; [done|lia].
  - by destruct l.
Qed.

(** The parts before the [k]th, the latest first. *)
Definition before (k : nat) : list string := rev (firstn k rule_keys).

Ltac key_side := first [apply list_elem_of_In; simpl; tauto | assumption | reflexivity].
Ltac part_done := match goal with R : rp_rule ?st = _ |- _ => rewrite R; clear dependent st; intros st R F S;
    unfold set_freq, set_interval, set_count, set_until, set_by_second, set_by_minute, set_by_hour, set_by_day, set_by_month_day,
      set_by_year_day, set_by_week_no, set_by_month, set_by_set_pos, set_wkst in R; cbn in R end.
Ltac numeric_part ty lo hi sg set k key D :=
  apply (reads_list ty lo hi sg set (before k) key);
  [key_side..|exact D|match goal with R : rp_rule _ = _ |- _ => rewrite R; reflexivity end|part_done].

Definition lists_text (r : RRule) : list string := drop 0 (
  part_text "BYSECOND" (list_text fmt_i64 (by_second r)) ++ part_text "BYMINUTE" (list_text fmt_i64 (by_minute r)) ++
  part_text "BYHOUR" (list_text fmt_i64 (by_hour r)) ++ part_text "BYDAY" (list_text by_day_str (by_day r)) ++
  part_text "BYMONTHDAY" (list_text fmt_i64 (by_month_day r)) ++ part_text "BYYEARDAY" (list_text fmt_i64 (by_year_day r)) ++
  part_text "BYWEEKNO" (list_text fmt_i64 (by_week_no r)) ++ part_text "BYMONTH" (list_text fmt_i64 (by_month r)) ++
  part_text "BYSETPOS" (list_text fmt_i64 (by_set_pos r)) ++ part_text "WKST" (if bool_decide (wkst r = Mon) then None else Some (wd_str (wkst r))) ++ []).

Lemma reads_lists r st :
  in_domain r -> rp_rule st = mkRRule (freq r) (interval r) (count r) (until r) (until_form r) [] [] [] [] [] [] [] [] [] Mon ->
  saw_freq st = true -> seen_in (before 4) st -> reads st (lists_text r) r.
Proof.
  intros D R F S. unfold lists_text. cbn [drop].
  numeric_part U32 0 60 false set_by_second 4%nat "BYSECOND" (d_second r D).
  numeric_part U32 0 59 false set_by_minute 5%nat "BYMINUTE" (d_minute r D).
  numeric_part U32 0 23 false set_by_hour 6%nat "BYHOUR" (d_hour r D).
  apply (reads_part (before 7) "BYDAY" _ st (set_by_day (by_day r) (rp_rule st))); [key_side..| | |part_done].
  { intros v (Hne & -> & Hv)%(list_part_read by_day_str); [|intros d; apply by_day_str_token]. split; [done|].
    change (apply_part "BYDAY" ?v ?q) with (let? x := checked_by_day v in Ok (false, set_by_day x q)).
    by rewrite checked_by_day_text by (done || apply d_day, D). }
  { destruct (by_day r); [|done]. intros _. by rewrite R. }
  numeric_part I8 1 31 true set_by_month_day 8%nat "BYMONTHDAY" (d_month_day r D).
  numeric_part I16 1 366 true set_by_year_day 9%nat "BYYEARDAY" (d_year_day r D).
  numeric_part I8 1 53 true set_by_week_no 10%nat "BYWEEKNO" (d_week_no r D).
  numeric_part U32 1 12 false set_by_month 11%nat "BYMONTH" (d_month r D).
  numeric_part I32 1 366 true set_by_set_pos 12%nat "BYSETPOS" (d_set_pos r D).
  apply (reads_part (before 13) "WKST" _ st (set_wkst (wkst r) (rp_rule st))); [key_side..| | |part_done].
  { intros v. case_bool_decide; [done|]. intros [= <-]. destruct (wd_str_token (wkst r)) as (V & W & _).
    split; [eapply str_forall_impl, V; apply token_value|].
    change (apply_part "WKST" ?v ?q) with (let? x := ok_or (weekday v) (BadValue v) in Ok (false, set_wkst x q)). by rewrite W. }
  { case_bool_decide as Ew; [|done]. intros _. rewrite R, Ew. reflexivity. }
  exists st. split_and!; [done|rewrite R; by destruct r|done].
Qed.

Lemma rule_reads r : in_domain r -> four_digit_until r -> reads (mkRuleParse rrule_default false []) (rule_texts r) r.
Proof.
  intros D Hy. set (r0 := set_freq (freq r) rrule_default).
  destruct (parts_step [] "FREQ" (Some (freq_str (freq r))) (mkRuleParse rrule_default false []) r0 true
    (drop 1 (rule_texts r))) as (st & R & F & S & E); [by left|done|by intros k ?%not_elem_of_nil| |done|].
  { intros v [= <-]. destruct (freq_str_token (freq r)) as [V P]. split; [done|].
    change (apply_part "FREQ" ?v ?q) with (let? f := ok_or (freq_parse v) (BadFreq v) in Ok (true, set_freq f q)). by rewrite P. }
  cbn [saw_freq orb] in F. cut (reads st (drop 1 (rule_texts r)) r).
  { intros (st' & H1 & H2). exists st'. by rewrite <- H1, <- E. }
  clear E. unfold rule_texts. cbn [part_text app drop].
  apply (reads_part (before 1) "INTERVAL" _ st (set_interval (interval r) (rp_rule st))); [key_side..| | |part_done].
  { intros v. destruct (Z.eqb_spec (interval r) 1); [done|]. intros [= <-]. split; [apply fmt_value|]. unfold apply_part. cbn -[parse_u32 fmt_i64].
    destruct (d_interval r D). rewrite parse_u32_fmt_i64 by lia. destruct (Z.to_N (interval r)) eqn:En; [lia|]. do 3 f_equal. lia. }
  { destruct (Z.eqb_spec (interval r) 1) as [Ei|]; [|done]. intros _. by rewrite R, Ei. }
  apply (reads_part (before 2) "COUNT" _ st (set_count (count r) (rp_rule st))); [key_side..| | |part_done].
  { intros v. destruct (count r) as [c|] eqn:Ec; [|done]. intros [= <-]. split; [apply fmt_value|].
    change (apply_part "COUNT" ?v ?q) with (let? x := (let? n := ok_or (parse_u32 v) (BadValue v) in Ok (Some (Z.of_N n))) in Ok (false, set_count x q)).
    pose proof (d_count r D c Ec). rewrite parse_u32_fmt_i64 by lia. cbv beta iota delta [ok_or rbind]. by rewrite Z2N.id by lia. }
  { destruct (count r); [done|]. intros _. by rewrite R. }
  apply (reads_part (before 3) "UNTIL" _ st (match until r with Some u => set_until u (until_form r) (rp_rule st) | None => rp_rule st end));
    [key_side..| |by destruct (until r)|part_done].
  { intros v. destruct (until r) as [u|] eqn:Eu; [|done]. intros [= <-]. destruct (until_text u _ (d_until r D u Eu) (Hy u Eu)) as (V & P & Fm).
    split; [done|]. unfold apply_part. cbn -[parse_ics_datetime until_form_of until_str]. rewrite P, Fm. done. }
  apply (reads_lists r st D); [|done|done]. rewrite R. pose proof (d_no_until r D) as Hn. destruct (until r); [done|]. by rewrite Hn.
Qed.

(** ** The text as a whole *)

Definition part_char (a : ascii) : bool := graphic a && negb (Ascii.eqb a ";").

Lemma value_part_char a : value_char a = true -> part_char a = true.
Proof. unfold value_char, part_char. by destruct (graphic a), (Ascii.eqb a ";"). Qed.

Lemma part_text_clean key o :
  key ∈ rule_keys -> (forall v, o = Some v -> str_forall value_char v = true) -> Forall (fun p => str_forall part_char p = true) (part_text key o).
Proof.
  intros (_ & _ & _ & Hk)%key_facts Hv. destruct o as [v|]; [|constructor]. constructor; [|constructor].
  rewrite !str_forall_app. specialize (Hv v eq_refl).
  rewrite (str_forall_impl value_char part_char key), (str_forall_impl value_char part_char v) by (done || apply value_part_char). done.
Qed.

Lemma rule_texts_clean r : in_domain r -> four_digit_until r -> Forall (fun p => str_forall part_char p = true) (rule_texts r).
Proof.
  intros D Hy. unfold rule_texts. repeat (apply Forall_app; split); try apply part_text_clean;
    try (apply list_elem_of_In; simpl; tauto); try (intros v (_ & _ & ?)%fmt_part_read; done); [..|constructor]; intros v.
  - intros [= <-]. apply freq_str_token.
  - destruct (interval r =? 1); [done|]. intros [= <-]. apply fmt_value.
  - destruct (count r); [|done]. intros [= <-]. apply fmt_value.
  - destruct (until r) as [u|] eqn:E; [|done]. intros [= <-]. apply until_text; [by apply d_until|by apply Hy].
  - intros (_ & _ & ?)%(list_part_read by_day_str); [done|]. intros d. apply by_day_str_token.
  - case_bool_decide; [done|]. intros [= <-]. destruct (wd_str_token (wkst r)) as [V _]. eapply str_forall_impl, V. apply token_value.
Qed.

Lemma join_graphic sep ps :
  str_forall graphic sep = true -> Forall (fun p => str_forall part_char p = true) ps -> str_forall graphic (join sep ps) = true.
Proof.
  intros Hs. induction 1 as [|p ps Hp Hf IH]; [done|].
  assert (str_forall graphic p = true) by (eapply str_forall_impl, Hp; intros a; unfold part_char; by destruct (graphic a)).
  destruct ps; [done|]. rewrite join_cons by done. rewrite !str_forall_app, IH, Hs. by rewrite !andb_true_r.
Qed.

Lemma parse_to_rrule r : in_domain r -> four_digit_until r -> count r = None \/ until r = None -> rrule_parse (to_rrule r) = Ok r.
Proof.
  intros D Hy Hcu. unfold rrule_parse, to_rrule. rewrite rule_texts_parts. pose proof (rule_texts_clean r D Hy) as Hc.
  rewrite trim_graphic by (by apply join_graphic).
  assert (Hp : strip_prefix "RRULE:" (join ";" (rule_texts r)) = None).
  { destruct (strip_prefix _ _) as [rest|] eqn:E; [|done]. apply strip_prefix_Some in E. unfold rule_texts in E.
    cbn [part_text app] in E. destruct (_ ++ _)%list in E; discriminate E. }
  rewrite Hp. cbn [default]. rewrite (split_join_id ";"); [|done|].
  - destruct (rule_reads r D Hy) as (st & E & R & F). rewrite E. cbn [rbind]. rewrite F, R. cbn [negb].
    destruct Hcu as [-> | ->]; [done|]. rewrite andb_false_r. done.
  - eapply Forall_impl; [exact Hc|]. intros p Hp'. by eapply no_char_of, Hp'.
Qed.

(** C36. A recurrence rule survives its text.  Whatever text a rule was read from -
    with any case, spacing, order and unknown parts -, the text it is stored and
    sent as is read back as exactly the same rule: every part, the value type of
    its bound, and the order of every list, as long as the bound is in a year from
    0 to 9999; past those a year is written with a sign and is not read back. *)
Theorem rule_roundtrip s r : rrule_parse s = Ok r -> four_digit_until r -> rrule_parse (to_rrule r) = Ok r.
Proof. intros [D Hcu]%parse_domain Hy. by apply parse_to_rrule. Qed.

End Text.

Definition sample_text : string := "RRULE:FREQ=weekly;BYDAY=MO,-1FR; until=20260821;BYMONTHDAY=-1, 31,;X=3;WKST=SU".
Definition sample_rule : RRule :=
  mkRRule Weekly 1 None (Some 63922953600) UDate [] [] [] [mkByDay None Mon; mkByDay (Some (-1)) Fri] [-1; 31] [] [] [] [] Sun.

Lemma rule_roundtrip_witness :
  to_rrule sample_rule = "FREQ=WEEKLY;UNTIL=20260821;BYDAY=MO,-1FR;BYMONTHDAY=-1,31;WKST=SU" /\
  rrule_parse (to_rrule sample_rule) = Ok sample_rule.
Proof. split; [vm_compute; reflexivity|]. apply (rule_roundtrip sample_text); [vm_compute; reflexivity|].
  intros u [= <-]. vm_compute. split; discriminate.
Defined.
