(* ===== verification/RecurExpand.v ===== *)
(** * The expansion of recurrences

    The expander of thegn-core/src/calendar/recur.rs with the budget of mod.rs and
    the resolution of local times of tz.rs: which wall times a recurrence has in a
    window.  Zones come from the class [TzDb], which stands for the zone database
    of the chrono_tz crate.  Every period, candidate and result is charged to the
    budget, and a budget that runs out refuses the expansion. *)
From Stdlib Require Import Ascii String.
From S2P Require Import Prelude RustStr RustText Chrono RecurRule.
Local Open Scope string_scope.
Local Open Scope list_scope.
Local Open Scope Z_scope.

(** ** The budget *)

Inductive ExpansionLimit :=
| WindowDays | SourceVisits | RecurrenceWork | MaterializedOccurrences | BucketEntries | RetainedBytes | EventPayload | EventChildren.

Inductive ExpansionError := InvalidWindow | InvalidSpan | Arithmetic | Budget (l : ExpansionLimit).

#[global] Instance ExpansionLimit_eq_dec : EqDecision ExpansionLimit.
Proof. solve_decision. Defined.

#[global] Instance ExpansionError_eq_dec : EqDecision ExpansionError.
Proof. solve_decision. Defined.

(** The limits of one expansion and what was used of them. *)
Record ExpansionBudget := mkBudget {
  max_window_days : Z;
  max_source_visits : Z;
  max_recurrence_work : Z;
  max_occurrences : Z;
  max_bucket_entries : Z;
  max_retained_bytes : Z;
  b_source_visits : Z;
  b_recurrence_work : Z;
  b_occurrences : Z;
  b_expanded_locals : Z;
  b_bucket_entries : Z;
  b_retained_bytes : Z;
}.

Definition usize_max : Z := 18446744073709551615.

(** [checked_add] and [checked_mul] of [usize]. *)
Definition checked (n : Z) : option Z := if n <=? usize_max then Some n else None.
Definition checked_add (a b : Z) : option Z := checked (a + b).
Definition checked_mul (a b : Z) : option Z := checked (a * b).

(** A computation that charges the budget. *)
Definition Exp (A : Type) : Type := ExpansionBudget -> result ExpansionError A * ExpansionBudget.
Definition exp_ret {A} (a : A) : Exp A := fun b => (Ok a, b).
Definition exp_err {A} (e : ExpansionError) : Exp A := fun b => (Err e, b).
Definition exp_bind {A B} (m : Exp A) (k : A -> Exp B) : Exp B := fun b =>
  match m b with (Ok a, b) => k a b | (Err e, b) => (Err e, b) end.
Definition exp_of {A} (o : option A) (e : ExpansionError) : Exp A := match o with Some a => exp_ret a | None => exp_err e end.

Notation "'let!' x ':=' e 'in' k" := (exp_bind e (fun x => k)) (at level 10, x pattern, e at level 100, k at level 200).

Definition spend (used max amount : Z) (limit : ExpansionLimit) : result ExpansionError Z :=
  match checked_add used amount with
  | None => Err Arithmetic
  | Some next => if max <? next then Err (Budget limit) else Ok next
  end.

Definition with_source_visits (b : ExpansionBudget) (n : Z) : ExpansionBudget :=
  mkBudget (max_window_days b) (max_source_visits b) (max_recurrence_work b) (max_occurrences b) (max_bucket_entries b) (max_retained_bytes b)
    n (b_recurrence_work b) (b_occurrences b) (b_expanded_locals b) (b_bucket_entries b) (b_retained_bytes b).
Definition with_recurrence_work (b : ExpansionBudget) (n : Z) : ExpansionBudget :=
  mkBudget (max_window_days b) (max_source_visits b) (max_recurrence_work b) (max_occurrences b) (max_bucket_entries b) (max_retained_bytes b)
    (b_source_visits b) n (b_occurrences b) (b_expanded_locals b) (b_bucket_entries b) (b_retained_bytes b).
Definition with_occurrences (b : ExpansionBudget) (n : Z) : ExpansionBudget :=
  mkBudget (max_window_days b) (max_source_visits b) (max_recurrence_work b) (max_occurrences b) (max_bucket_entries b) (max_retained_bytes b)
    (b_source_visits b) (b_recurrence_work b) n (b_expanded_locals b) (b_bucket_entries b) (b_retained_bytes b).
Definition with_expanded_locals (b : ExpansionBudget) (n : Z) : ExpansionBudget :=
  mkBudget (max_window_days b) (max_source_visits b) (max_recurrence_work b) (max_occurrences b) (max_bucket_entries b) (max_retained_bytes b)
    (b_source_visits b) (b_recurrence_work b) (b_occurrences b) n (b_bucket_entries b) (b_retained_bytes b).
Definition with_bucket_entries (b : ExpansionBudget) (n : Z) : ExpansionBudget :=
  mkBudget (max_window_days b) (max_source_visits b) (max_recurrence_work b) (max_occurrences b) (max_bucket_entries b) (max_retained_bytes b)
    (b_source_visits b) (b_recurrence_work b) (b_occurrences b) (b_expanded_locals b) n (b_retained_bytes b).
Definition with_retained_bytes (b : ExpansionBudget) (n : Z) : ExpansionBudget :=
  mkBudget (max_window_days b) (max_source_visits b) (max_recurrence_work b) (max_occurrences b) (max_bucket_entries b) (max_retained_bytes b)
    (b_source_visits b) (b_recurrence_work b) (b_occurrences b) (b_expanded_locals b) (b_bucket_entries b) n.

Definition source_visit : Exp unit := fun b =>
  match spend (b_source_visits b) (max_source_visits b) 1 SourceVisits with Err e => (Err e, b) | Ok n => (Ok tt, with_source_visits b n) end.

Definition recurrence_work (amount : Z) : Exp unit := fun b =>
  match spend (b_recurrence_work b) (max_recurrence_work b) amount RecurrenceWork with Err e => (Err e, b) | Ok n => (Ok tt, with_recurrence_work b n) end.

Definition occurrence : Exp unit := fun b =>
  match spend (b_occurrences b) (max_occurrences b) 1 MaterializedOccurrences with Err e => (Err e, b) | Ok n => (Ok tt, with_occurrences b n) end.

Definition bucket_entry : Exp unit := fun b =>
  match spend (b_bucket_entries b) (max_bucket_entries b) 1 BucketEntries with Err e => (Err e, b) | Ok n => (Ok tt, with_bucket_entries b n) end.

Definition retain_bytes (amount : Z) : Exp unit := fun b =>
  match spend (b_retained_bytes b) (max_retained_bytes b) amount RetainedBytes with Err e => (Err e, b) | Ok n => (Ok tt, with_retained_bytes b n) end.

(** Two date-times of twelve bytes. *)
Definition CANDIDATE_BYTES : Z := 24.

Definition candidate : Exp unit := let! _ := recurrence_work 1 in retain_bytes CANDIDATE_BYTES.

Definition charge_local : Exp unit := fun b =>
  match spend (b_expanded_locals b) (max_occurrences b) 1 MaterializedOccurrences with Err e => (Err e, b) | Ok n => (Ok tt, with_expanded_locals b n) end.

Definition expanded_local : Exp unit := let! _ := charge_local in retain_bytes CANDIDATE_BYTES.

Definition work_exhausted : ExpansionError := Budget RecurrenceWork.

(** ** Sorted sets *)

(** [sort] and [dedup], and the iteration of a [BTreeSet]. *)
Fixpoint set_insert (x : Z) (l : list Z) : list Z :=
  match l with
  | [] => [x]
  | y :: l' => if x <? y then x :: l else if x =? y then l else y :: set_insert x l'
  end.
Definition sorted_set (l : list Z) : list Z := foldr set_insert [] l.

Definition mem (x : Z) (l : list Z) : bool := existsb (Z.eqb x) l.

(** ** Zones *)

Inductive GapPolicy := ShiftForward | GapSkip | Earliest.

Inductive LocalResult := LSingle (at_ : Z) | LAmbiguous (earlier later : Z) | LNone.

(** The zone database: the offset in force at an instant, the instants of a wall
    time, the exact name of a zone and the names of all zones. *)
Class TzDb := {
  Tz : Type;
  tz_eq_dec :: EqDecision Tz;
  UTC : Tz;
  offset_at : Tz -> Z -> Z;
  from_local_datetime : Tz -> NaiveDateTime -> LocalResult;
  tz_by_name : string -> option Tz;
  TZ_VARIANTS : list (string * Tz);
}.

Section Zones.
Context `{Chrono} `{TzDb}.

(** A date and time of the calendar. *)
Definition in_range_dt (t : NaiveDateTime) : option NaiveDateTime :=
  if (MIN_DATE <=? date_of t) && (date_of t <=? MAX_DATE) then Some t else None.

(** The halving of the window; thirty-two halvings are more than its thirty hours
    need. *)
Fixpoint bisect (fuel : nat) (zone : Tz) (before lo hi : Z) : Z :=
  match fuel with
  | O => hi
  | S fuel =>
      if 1 <? hi - lo then
        let mid := lo + (hi - lo) / 2 in
        if offset_at zone mid =? before then bisect fuel zone before mid hi else bisect fuel zone before lo mid
      else hi
  end.

Definition gap_transition (local : NaiveDateTime) (zone : Tz) : option (Z * Z) :=
  match in_range_dt (local - 54000), in_range_dt (local + 54000) with
  | Some lo, Some hi =>
      let before := offset_at zone lo in
      if offset_at zone hi =? before then None else Some (bisect 32 zone before lo hi, before)
  | _, _ => None
  end.

Definition resolve_local (local : NaiveDateTime) (zone : Tz) (gap : GapPolicy) : option Z :=
  match from_local_datetime zone local with
  | LSingle at_ => Some at_
  | LAmbiguous earlier _ => Some earlier
  | LNone =>
      match gap with
      | GapSkip => None
      | ShiftForward => match gap_transition local zone with Some (_, before) => Some (local - before) | None => None end
      | Earliest => match gap_transition local zone with Some (at_, _) => Some (at_ - 1) | None => None end
      end
  end.

(** [with_timezone(&z).naive_local()]. *)
Definition to_local (z : Tz) (at_ : Z) : NaiveDateTime := at_ + offset_at z at_.

Definition resolve_zone (name : string) : option Tz :=
  let n := trim name in
  if is_empty n then None
  else match tz_by_name n with
       | Some z => Some z
       | None => snd <$> List.find (fun e => eq_ignore_case (fst e) n) TZ_VARIANTS
       end.

Definition WINDOWS_TZ_ALIASES : list (string * string) :=
  [("Eastern Standard Time", "America/New_York"); ("Central Standard Time", "America/Chicago");
   ("Mountain Standard Time", "America/Denver"); ("Pacific Standard Time", "America/Los_Angeles");
   ("W. Europe Standard Time", "Europe/Berlin"); ("GMT Standard Time", "Europe/London");
   ("Tokyo Standard Time", "Asia/Tokyo"); ("China Standard Time", "Asia/Shanghai")].

Fixpoint trim_start_matches (c : ascii) (s : string) : string :=
  match s with String a s' => if Ascii.eqb a c then trim_start_matches c s' else s | EmptyString => s end.

(** The suffixes of a vendor path that have at least two parts, longest first. *)
Fixpoint zone_of_suffixes (parts : list string) : option Tz :=
  match parts with
  | _ :: ((_ :: _) as rest) =>
      match resolve_zone (join "/" parts) with Some z => Some z | None => zone_of_suffixes rest end
  | _ => None
  end.

Definition resolve_tzid (name : string) : option Tz :=
  let name := trim name in
  match resolve_zone name with
  | Some z => Some z
  | None =>
      match List.find (fun e => eq_ignore_case (fst e) name) WINDOWS_TZ_ALIASES with
      | Some (_, target) => resolve_zone target
      | None => if starts_with "/" name then zone_of_suffixes (split_char "/" (trim_start_matches "/" name)) else None
      end
  end.

(** ** Event times *)

Inductive EventTime := TDate (date : NaiveDate) | TZoned (local : NaiveDateTime) (zone : string) | TInstant (at_ : Z).

Record Recurrence := mkRecurrence { rules : list RRule; rdates : list EventTime; exdates : list EventTime }.

Definition until_bound (r : RRule) (zone : option Tz) : option NaiveDateTime :=
  match until r with
  | None => None
  | Some u =>
      Some match until_form r with
           | UDate => default u (and_hms_opt (date_of u) 23 59 59)
           | UFloating => u
           | UUtc => match zone with Some z => to_local z u | None => u end
           end
  end.

Definition instant_of (t : NaiveDateTime) (zone : option Tz) (gap : GapPolicy) : option Z :=
  match zone with Some z => resolve_local t z gap | None => Some t end.

Definition past_until (r : RRule) (zone : option Tz) (gap : GapPolicy) (t : NaiveDateTime) : bool :=
  match until r with
  | None => false
  | Some u =>
      match until_form r with
      | UDate | UFloating => match until_bound r zone with Some bound => bound <? t | None => false end
      | UUtc => match instant_of t zone gap with Some at_ => u <? at_ | None => false end
      end
  end.

Definition local_of (t : EventTime) (zone : option Tz) : option NaiveDateTime :=
  match t with
  | TDate d => and_hms_opt d 0 0 0
  | TZoned local z =>
      match resolve_tzid z, zone with
      | Some from, Some to_ =>
          if bool_decide (from = to_) then Some local
          else to_local to_ <$> resolve_local local from ShiftForward
      | _, _ => Some local
      end
  | TInstant at_ => Some (match zone with Some z => to_local z at_ | None => at_ end)
  end.

Definition series_zone (start : EventTime) (home : Tz) : option Tz :=
  match start with
  | TZoned _ z => if is_empty (trim z) then Some home else resolve_tzid z
  | TInstant _ | TDate _ => Some UTC
  end.

Definition seed_of (start : EventTime) : option NaiveDateTime :=
  match start with TZoned local _ => Some local | TDate d => and_hms_opt d 0 0 0 | TInstant at_ => Some at_ end.

Definition instance_time (local : NaiveDateTime) (start : EventTime) : EventTime :=
  match start with TDate _ => TDate (date_of local) | TZoned _ z => TZoned local z | TInstant _ => TInstant local end.

Definition is_all_day (t : EventTime) : bool := match t with TDate _ => true | _ => false end.

Inductive InstantError := UnknownInstantZone | Nonexistent.

Definition try_instant_in (t : EventTime) (home : Tz) (gap : GapPolicy) : result InstantError Z :=
  match t with
  | TInstant at_ => Ok at_
  | TDate d =>
      match and_hms_opt d 0 0 0 with
      | None => Err Nonexistent
      | Some midnight => match resolve_local midnight home gap with Some at_ => Ok at_ | None => Err Nonexistent end
      end
  | TZoned local zone =>
      match (if is_empty (trim zone) then Some home else resolve_tzid zone) with
      | None => Err UnknownInstantZone
      | Some z => match resolve_local local z gap with Some at_ => Ok at_ | None => Err Nonexistent end
      end
  end.

Definition instant_in (t : EventTime) (home : Tz) (gap : GapPolicy) : option Z :=
  match try_instant_in t home gap with Ok at_ => Some at_ | Err _ => None end.

Definition date_in (t : EventTime) (home : Tz) : option NaiveDate :=
  match t with
  | TDate d => Some d
  | _ => match instant_in t home ShiftForward with Some at_ => Some (date_of (to_local home at_)) | None => None end
  end.

(** ** The values of a recurrence *)

Inductive RecurProperty := Rdate | Exdate.
Inductive RecurValueDefect := ShapeMismatch | UnknownZone.
Record RecurValueError := mkValueError { property : RecurProperty; v_index : nat; defect : RecurValueDefect }.

(** The first position whose value has a defect. *)
Fixpoint first_defect (check : EventTime -> option RecurValueDefect) (i : nat) (l : list EventTime) : option (nat * RecurValueDefect) :=
  match l with
  | [] => None
  | x :: l => match check x with Some d => Some (i, d) | None => first_defect check (S i) l end
  end.

(** A day where the series has times, or the other way round. *)
Definition shape_defect (start value : EventTime) : option RecurValueDefect :=
  if Bool.eqb (is_all_day start) (is_all_day value) then None else Some ShapeMismatch.

Definition zone_defect (start value : EventTime) : option RecurValueDefect :=
  match value with
  | TZoned _ zone =>
      if is_empty (trim zone) && is_all_day start then Some ShapeMismatch
      else if negb (is_empty (trim zone)) && negb (bool_decide (is_Some (resolve_tzid zone))) &&
              negb match start with TZoned _ z => String.eqb z zone | _ => false end
      then Some UnknownZone
      else None
  | _ => None
  end.

Definition diagnose_values (rec : Recurrence) (start : EventTime) : result RecurValueError unit :=
  match first_defect (shape_defect start) 0 (rdates rec) with
  | Some (i, d) => Err (mkValueError Rdate i d)
  | None =>
      match first_defect (zone_defect start) 0 (rdates rec) with
      | Some (i, d) => Err (mkValueError Rdate i d)
      | None => match first_defect (zone_defect start) 0 (exdates rec) with
                | Some (i, d) => Err (mkValueError Exdate i d)
                | None => Ok tt
                end
      end
  end.

Definition check_values (rec : Recurrence) (start : EventTime) : result ExpansionError unit :=
  match diagnose_values rec start with Ok u => Ok u | Err _ => Err InvalidSpan end.

End Zones.

(** ** Dates of a period *)

Section Dates.
Context `{Chrono}.

Definition next_month (y m : Z) : option (Z * Z) :=
  if (1 <=? m) && (m <=? 12) then
    if m =? 12 then (if y + 1 <=? 2147483647 then Some (y + 1, 1) else None) else Some (y, m + 1)
  else None.

Definition days_in_month (y m : Z) : option Z :=
  match from_ymd_opt y m 1, next_month y m with
  | Some first, Some (y', m') => match from_ymd_opt y' m' 1 with Some next => Some (next - first) | None => None end
  | _, _ => None
  end.

Definition days_in (y m : Z) : Z := default 30 (days_in_month y m).
Definition is_leap (y : Z) : bool := match from_ymd_opt y 2 29 with Some _ => true | None => false end.
Definition weeks_in_iso_year (y : Z) : Z := match from_ymd_opt y 12 28 with Some d => iso_week d | None => 52 end.

(** [lo..=hi]. *)
Definition z_range (lo hi : Z) : list Z := map (fun k => lo + Z.of_nat k) (seq 0 (Z.to_nat (hi - lo + 1))).

Definition all_weekdays_in_month (y m : Z) (wd : Weekday) : list NaiveDate :=
  List.filter (fun d => bool_decide (weekday_of d = wd)) (omap (from_ymd_opt y m) (z_range 1 (days_in y m))).

Definition nth_weekday_in_month (y m : Z) (wd : Weekday) (n : Z) : option NaiveDate :=
  let all := all_weekdays_in_month y m wd in
  if 0 <? n then all !! Z.to_nat (n - 1)
  else if n <? 0 then
    let idx := Z.of_nat (length all) + n in if 0 <=? idx then all !! Z.to_nat idx else None
  else None.

(** The dates of one [BYDAY] entry in a month. *)
Definition day_dates (y m : Z) (bd : ByDay) : list NaiveDate :=
  match nth bd with
  | None => all_weekdays_in_month y m (bd_weekday bd)
  | Some n => option_list (nth_weekday_in_month y m (bd_weekday bd) n)
  end.

Definition month_day_matches (l : list Z) (d : NaiveDate) : bool :=
  let dim := days_in (year d) (month d) in
  existsb (fun n => (0 <? n) && (n =? day d) || (n <? 0) && (dim + n + 1 =? day d)) l.

Definition year_day_matches (l : list Z) (d : NaiveDate) : bool :=
  let diy := if is_leap (year d) then 366 else 365 in
  existsb (fun n => (0 <? n) && (n =? ordinal d) || (n <? 0) && (diy + n + 1 =? ordinal d)) l.

Definition is_nil {A} (l : list A) : bool := match l with [] => true | _ => false end.

Definition day_matches (r : RRule) (d : NaiveDate) : bool :=
  if bool_decide (freq r = Monthly) || bool_decide (freq r = Yearly) then true
  else if negb (is_nil (by_month_day r)) && negb (month_day_matches (by_month_day r) d) then false
  else if negb (is_nil (by_year_day r)) && negb (year_day_matches (by_year_day r) d) then false
  else if negb (is_nil (by_day r)) &&
          negb (existsb (fun bd => bool_decide (nth bd = None) && bool_decide (bd_weekday bd = weekday_of d)) (by_day r)) &&
          negb (bool_decide (freq r = Weekly)) then false
  else if negb (is_nil (by_week_no r)) then
    let wk := iso_week d in
    let weeks := weeks_in_iso_year (year d) in
    existsb (fun n => (n =? wk) || (n <? 0) && (weeks + n + 1 =? wk)) (by_week_no r)
  else true.

Definition week_start_of (d : NaiveDate) (wkst : Weekday) : NaiveDate :=
  let back := (num_days_from_monday (weekday_of d) - num_days_from_monday wkst) mod 7 in
  default d (checked_sub_days d back).

Definition week_dates (r : RRule) (period : NaiveDate) : list NaiveDate :=
  if is_nil (by_day r) then [period]
  else
    let base := week_start_of period (wkst r) in
    List.filter (fun d => existsb (fun bd => bool_decide (bd_weekday bd = weekday_of d)) (by_day r))
      (omap (checked_add_days base) (z_range 0 6)).

(** The [BYMONTHDAY] entries that exist in a month. *)
Definition month_day_dates (y m : Z) (l : list Z) : list NaiveDate :=
  let dim := days_in y m in
  omap (fun n => let day := if 0 <? n then n else dim + n + 1 in
                 if (1 <=? day) && (day <=? dim) then from_ymd_opt y m day else None) l.

Definition month_dates (r : RRule) (start : NaiveDateTime) (period : NaiveDate) : list NaiveDate :=
  let '(y, m) := (year period, month period) in
  let out :=
    if negb (is_nil (by_day r)) then
      let out := concat (map (day_dates y m) (by_day r)) in
      if negb (is_nil (by_month_day r)) then List.filter (month_day_matches (by_month_day r)) out else out
    else if negb (is_nil (by_month_day r)) then month_day_dates y m (by_month_day r)
    else option_list (from_ymd_opt y m (day (date_of start))) in
  let out := if negb (is_nil (by_month r)) then List.filter (fun d => mem (month d) (by_month r)) out else out in
  sorted_set out.

Definition year_day_dates (y : Z) (l : list Z) : list NaiveDate :=
  let diy := if is_leap y then 366 else 365 in
  omap (fun n => let doy := if 0 <? n then n else diy + n + 1 in
                 if (1 <=? doy) && (doy <=? diy) then from_yo_opt y doy else None) l.

Definition week_no_dates (r : RRule) (start : NaiveDateTime) (y : Z) : list NaiveDate :=
  let weeks := weeks_in_iso_year y in
  let days := if is_nil (by_day r) then [weekday_of (date_of start)] else map bd_weekday (by_day r) in
  concat (map (fun n => let wk := if 0 <? n then n else weeks + n + 1 in
                        if (wk <? 1) || (weeks <? wk) then [] else omap (from_isoywd_opt y wk) days) (by_week_no r)).

(** The turn of one month; the [retain] is over all that was collected so far. *)
Definition year_month (r : RRule) (start : NaiveDateTime) (y : Z) (out : list NaiveDate) (m : Z) : list NaiveDate :=
  if negb (is_nil (by_day r)) then
    let out := out ++ concat (map (day_dates y m) (by_day r)) in
    if negb (is_nil (by_month_day r)) then List.filter (month_day_matches (by_month_day r)) out else out
  else if negb (is_nil (by_month_day r)) then out ++ month_day_dates y m (by_month_day r)
  else out ++ option_list (from_ymd_opt y m (day (date_of start))).

Definition year_dates (r : RRule) (start : NaiveDateTime) (period : NaiveDate) : list NaiveDate :=
  let y := year period in
  let ordinal_form := negb (is_nil (by_year_day r)) || negb (is_nil (by_week_no r)) in
  let out := year_day_dates y (by_year_day r) ++ week_no_dates r start y in
  let out :=
    if is_nil out && negb ordinal_form then
      fold_left (year_month r start y) (if is_nil (by_month r) then [month (date_of start)] else by_month r) out
    else out in
  sorted_set out.

Definition period_dates (r : RRule) (start : NaiveDateTime) (period : NaiveDate) : list NaiveDate :=
  match freq r with
  | Secondly | Minutely | Hourly | Daily => [period]
  | Weekly => week_dates r period
  | Monthly => month_dates r start period
  | Yearly => year_dates r start period
  end.

(** The filters every frequency but the yearly takes the month through. *)
Definition date_passes (r : RRule) (d : NaiveDate) : bool :=
  (is_nil (by_month r) || bool_decide (freq r = Yearly) || mem (month d) (by_month r)) && day_matches r d.

Definition or_default (l : list Z) (fallback : Z) : list Z := if is_nil l then [fallback] else sorted_set l.

(** The candidates of a time of day, in the order of the four loops. *)
Definition time_grid (r : RRule) (start : NaiveDateTime) (dates : list NaiveDate) : list (NaiveDate * Z * Z * Z) :=
  concat (map (fun d => concat (map (fun h => concat (map (fun mi => map (fun s => (d, h, mi, s))
    (or_default (by_second r) (second start))) (or_default (by_minute r) (minute start)))) (or_default (by_hour r) (hour start)))) dates).

Definition set_positions (positions : list Z) (out : list NaiveDateTime) : list NaiveDateTime :=
  let n := Z.of_nat (length out) in
  let picked := sorted_set (omap (fun p => if p =? 0 then None
                                           else if (0 <? p) && (p <=? n) then Some (p - 1)
                                           else if (p <? 0) && (- p <=? n) then Some (n + p) else None) positions) in
  omap (fun i => out !! Z.to_nat i) picked.

(** ** Periods *)

Definition advance (r : RRule) (period : NaiveDate) : option NaiveDate :=
  let n := Z.max (interval r) 1 in
  match freq r with
  | Secondly | Minutely | Hourly | Daily => checked_add_days period n
  | Weekly => checked_add_days period (n * 7)
  | Monthly => checked_add_months period n
  | Yearly => if n * 12 <=? Z.of_N u32_max then checked_add_months period (n * 12) else None
  end.

Definition initial_period (r : RRule) (start from : NaiveDate) : NaiveDate :=
  if bool_decide (is_Some (count r)) || (from <=? start) then start
  else
    let interval := Z.max (interval r) 1 in
    default start
      match freq r with
      | Daily | Weekly =>
          let step := if bool_decide (freq r = Weekly) then interval * 7 else interval in
          let elapsed := from - start in
          let periods := Z.max 0 (elapsed / step - 1) in
          checked_add_days start (periods * step)
      | Monthly | Yearly =>
          let step := if bool_decide (freq r = Yearly) then interval * 12 else interval in
          let elapsed := Z.max 0 ((year from - year start) * 12 + month from - month start) in
          let periods := Z.max 0 (elapsed / step - 1) in
          if periods * step <=? Z.of_N u32_max then checked_add_months start (periods * step) else None
      | Secondly | Minutely | Hourly => None
      end.

(** ** Costs *)

Definition len {A} (l : list A) : Z := Z.of_nat (length l).

Record RuleCost := mkCost { c_period : Z; c_filter : Z }.

Definition per_month_cost (r : RRule) : option Z :=
  a ← checked_mul (len (by_day r)) 31;
  b ← checked_mul (len (by_day r)) 5;
  c ← checked_add (len (by_month_day r)) (len (by_month r));
  d ← checked_mul b (Z.max c 1);
  e ← checked_add a d;
  f ← checked_add e (len (by_month_day r));
  checked_add f 1.

Definition dates_cost (r : RRule) : option Z :=
  p ← per_month_cost r;
  match freq r with
  | Secondly | Minutely | Hourly | Daily => Some 1
  | Weekly => checked_mul (Z.max (len (by_day r)) 1) 7
  | Monthly => Some p
  | Yearly =>
      a ← checked_mul (Z.max (len (by_month r)) 1) p;
      b ← checked_add a (len (by_year_day r));
      c ← checked_mul (len (by_week_no r)) (Z.max (len (by_day r)) 1);
      checked_add b c
  end.

Definition cost_of (r : RRule) : option RuleCost :=
  d ← dates_cost r;
  a ← checked_add d (len (by_hour r));
  b ← checked_add a (len (by_minute r));
  c ← checked_add b (len (by_second r));
  e ← checked_add c (len (by_set_pos r));
  p ← checked_add e 1;
  f1 ← checked_add 1 (len (by_month_day r));
  f2 ← checked_add f1 (len (by_year_day r));
  f3 ← checked_add f2 (len (by_day r));
  f4 ← checked_add f3 (len (by_week_no r));
  f5 ← checked_add f4 (len (by_month r));
  Some (mkCost p f5).

End Dates.

(** ** The expansion *)

Section Expand.
Context `{Chrono} `{TzDb}.

(** Every candidate is charged before it is built. *)
Fixpoint build_candidates (grid : list (NaiveDate * Z * Z * Z)) : Exp (list NaiveDateTime) :=
  match grid with
  | [] => exp_ret []
  | (d, h, mi, s) :: grid =>
      let! _ := candidate in
      let! rest := build_candidates grid in
      exp_ret (option_list (and_hms_opt d h mi s) ++ rest)
  end.

Definition period_candidates (r : RRule) (start : NaiveDateTime) (period : NaiveDate) (cost : RuleCost) : Exp (list NaiveDateTime) :=
  let dates := period_dates r start period in
  let! filtering := exp_of (checked_mul (len dates) (c_filter cost)) work_exhausted in
  let! _ := recurrence_work filtering in
  let! out := build_candidates (time_grid r start (List.filter (date_passes r) dates)) in
  let out := sorted_set out in
  exp_ret (if is_nil (by_set_pos r) then out else set_positions (by_set_pos r) out).

Section Rule.
Context (r : RRule) (start : NaiveDateTime) (from to : NaiveDate) (zone : option Tz) (gap : GapPolicy).

Definition in_window (t : NaiveDateTime) : bool := (from <=? date_of t) && (date_of t <=? to).

(** The candidates of one period: those to keep, how many were counted, and
    whether the expansion ends here. *)
Fixpoint scan (emitted : Z) (cands : list NaiveDateTime) : Exp (list NaiveDateTime * Z * bool) :=
  match cands with
  | [] => exp_ret ([], emitted, false)
  | t :: cands =>
      if t <? start then scan emitted cands
      else if past_until r zone gap t then exp_ret ([], emitted, true)
      else
        let full := match count r with Some c => c <=? emitted | None => false end in
        if full then exp_ret ([], emitted, true)
        else
          let emitted := match count r with Some _ => emitted + 1 | None => emitted end in
          if in_window t then
            let! _ := expanded_local in
            let! (out, emitted, done) := scan emitted cands in
            exp_ret (t :: out, emitted, done)
          else scan emitted cands
  end.

(** The loop over the periods; [None] when the fuel is used up. *)
Fixpoint walk (fuel : nat) (cost : RuleCost) (emitted : Z) (period : NaiveDate) : Exp (option (list NaiveDateTime)) :=
  match fuel with
  | O => exp_ret None
  | S fuel =>
      let! _ := recurrence_work (c_period cost) in
      let! cands := period_candidates r start period cost in
      let! (out, emitted, done) := scan emitted cands in
      if (done : bool) then exp_ret (Some out)
      else if match checked_sub_days period 7 with Some p => to <? p | None => false end then exp_ret (Some out)
      else match advance r period with
           | None => exp_ret (Some out)
           | Some next =>
               if next <=? period then exp_err work_exhausted
               else let! rest := walk fuel cost emitted next in exp_ret (app out <$> rest)
           end
  end.

(** One period costs at least one unit of work. *)
Definition walk_fuel (b : ExpansionBudget) : nat := S (Z.to_nat (max_recurrence_work b - b_recurrence_work b)).

(** *** Rules that step the clock *)

Definition unit_secs : Z := match freq r with Secondly => 1 | Minutely => 60 | _ => 3600 end.

Definition keep_time (t : NaiveDateTime) : bool :=
  day_matches r (date_of t) &&
  (is_nil (by_month r) || mem (month (date_of t)) (by_month r)) &&
  (is_nil (by_hour r) || mem (hour t) (by_hour r)) &&
  (is_nil (by_minute r) || mem (minute t) (by_minute r)) &&
  (is_nil (by_second r) || mem (second t) (by_second r)).

(** [cur.checked_add_signed(step)]. *)
Definition next_time (t step : Z) : option NaiveDateTime := in_range_dt (t + step).

Definition MAX_SUBDAILY_STEPS : nat := Z.to_nat 200000.

Fixpoint walk_times (steps : nat) (cost : RuleCost) (step emitted : Z) (cur : NaiveDateTime) : Exp (list NaiveDateTime) :=
  match steps with
  | O => exp_err work_exhausted
  | S steps =>
      let! _ := recurrence_work (c_filter cost) in
      if past_until r zone gap cur then
        if match until_bound r zone with
           | Some bound => match in_range_dt (bound + DAY_SECS) with Some safe_end => safe_end <? cur | None => false end
           | None => false
           end then exp_ret []
        else match next_time cur step with Some next => walk_times steps cost step emitted next | None => exp_ret [] end
      else if to <? date_of cur then exp_ret []
      else
        let continue (emitted : Z) :=
          match next_time cur step with Some next => walk_times steps cost step emitted next | None => exp_ret [] end in
        if keep_time cur then
          if match count r with Some c => c <=? emitted | None => false end then exp_ret []
          else
            let emitted := match count r with Some _ => emitted + 1 | None => emitted end in
            if from <=? date_of cur then
              let! _ := expanded_local in
              let! rest := continue emitted in
              exp_ret (cur :: rest)
            else continue emitted
        else continue emitted
  end.

Definition expand_subdaily (cost : RuleCost) : Exp (list NaiveDateTime) :=
  let step := unit_secs * Z.max (interval r) 1 in
  let cur :=
    match count r, and_hms_opt from 0 0 0 with
    | None, Some window_start =>
        if start <? window_start then start + (window_start - start) / step * step else start
    | _, _ => start
    end in
  walk_times MAX_SUBDAILY_STEPS cost step 0 cur.

Definition expand_rule : Exp (list NaiveDateTime) :=
  let! cost := exp_of (cost_of r) work_exhausted in
  match freq r with
  | Secondly | Minutely | Hourly => expand_subdaily cost
  | _ => fun b =>
      match walk (walk_fuel b) cost 0 (initial_period r (date_of start) from) b with
      | (Ok (Some out), b) => (Ok out, b)
      | (Ok None, b) => (Err work_exhausted, b)
      | (Err e, b) => (Err e, b)
      end
  end.

End Rule.

Fixpoint expand_rules (rs : list RRule) (start : NaiveDateTime) (from to : NaiveDate) (zone : option Tz) (gap : GapPolicy)
    : Exp (list NaiveDateTime) :=
  match rs with
  | [] => exp_ret []
  | r :: rs =>
      let! out := expand_rule r start from to zone gap in
      let! rest := expand_rules rs start from to zone gap in
      exp_ret (out ++ rest)
  end.

(** An exclusion: a date takes its whole day, an instant what resolves to it, and
    any other time its wall time in the series' zone. *)
Definition excludes (zone : option Tz) (gap : GapPolicy) (t : NaiveDateTime) (x : EventTime) : bool :=
  match x with
  | TDate d => d =? date_of t
  | TInstant at_ => match instant_of t zone gap with Some i => at_ =? i | None => false end
  | TZoned _ _ => match local_of x zone with Some u => u =? t | None => false end
  end.

Definition expand_local_with_gap (rec : Recurrence) (start : NaiveDateTime) (zone : option Tz) (from to : NaiveDate) (gap : GapPolicy)
    : Exp (list NaiveDateTime) :=
  if to <? from then exp_err InvalidWindow
  else
    let! listed := exp_of (checked_add (len (rdates rec)) (len (exdates rec))) work_exhausted in
    let! _ := recurrence_work listed in
    let! out := expand_rules (rules rec) start from to zone gap in
    let extra := List.filter (in_window from to) (omap (fun x => local_of x zone) (rdates rec)) in
    let single := if is_nil (rules rec) && is_nil (rdates rec) && in_window from to start then [start] else [] in
    exp_ret (List.filter (fun t => negb (existsb (excludes zone gap t) (exdates rec))) (sorted_set (out ++ extra ++ single))).

Definition expand_local_in (rec : Recurrence) (start : NaiveDateTime) (zone : option Tz) (from to : NaiveDate) : Exp (list NaiveDateTime) :=
  expand_local_with_gap rec start zone from to ShiftForward.

Definition expand_local_bounded (rec : Recurrence) (start : NaiveDateTime) (from to : NaiveDate) : Exp (list NaiveDateTime) :=
  expand_local_in rec start None from to.

End Expand.
