(* ===== verification/RecurProps.v ===== *)
(** * What an expansion contains

    The expander jumps to the window, stops after it and stops at the first
    occurrence past the bound.  None of that changes the answer: it is the window
    of the plain recurrence from its start, in order.  And it always ends. *)
From Stdlib Require Import Ascii String.
From S2P Require Import Prelude RustOrd RustStr RustText Chrono Gregorian RecurRule RecurExpand.
Local Open Scope string_scope.
Local Open Scope list_scope.
Local Open Scope Z_scope.

(** ** Sorted sets *)

Lemma elem_of_concat_map {A B} (f : A -> list B) l x : x ∈ concat (map f l) <-> exists a, a ∈ l /\ x ∈ f a.
Proof.
  rewrite list_elem_of_In, in_concat. split.
  - intros (y & (a & <- & Ha)%in_map_iff & Hx). exists a. by rewrite !list_elem_of_In.
  - intros (a & Ha & Hx). exists (f a). split; [by apply in_map, list_elem_of_In|by apply list_elem_of_In].
Qed.

Abbreviation increasing := (StronglySorted Z.lt).

Lemma elem_of_set_insert x y l : y ∈ set_insert x l <-> y = x \/ y ∈ l.
Proof.
  induction l as [|z l IH]; cbn [set_insert]; [by rewrite list_elem_of_singleton, elem_of_nil; tauto|].
  destruct (Z.ltb_spec x z); [by rewrite elem_of_cons|]. destruct (Z.eqb_spec x z) as [->|]; rewrite ?elem_of_cons; [tauto|rewrite IH; tauto].
Qed.

Lemma set_insert_increasing x l : increasing l -> increasing (set_insert x l).
Proof.
  induction 1 as [|z l Hl IH Hz]; cbn [set_insert]; [repeat constructor|].
  destruct (Z.ltb_spec x z).
  - constructor; [by constructor|]. constructor; [done|]. eapply Forall_impl; [exact Hz|]. intros. cbn in *. lia.
  - destruct (Z.eqb_spec x z) as [->|]; [by constructor|]. constructor; [done|]. apply Forall_forall. intros y [->|Hy]%elem_of_set_insert; [lia|].
    rewrite Forall_forall in Hz. by apply Hz.
Qed.

Lemma elem_of_sorted_set x l : x ∈ sorted_set l <-> x ∈ l.
Proof. induction l as [|y l IH]; cbn [sorted_set foldr]; [done|]. rewrite elem_of_set_insert, elem_of_cons. by rewrite IH. Qed.

Lemma sorted_set_increasing l : increasing (sorted_set l).
Proof. induction l as [|y l IH]; cbn [sorted_set foldr]; [constructor|by apply set_insert_increasing]. Qed.

(** An increasing list is a sorted set already. *)
Lemma increasing_app l1 l2 : increasing l1 -> increasing l2 -> (forall a b, a ∈ l1 -> b ∈ l2 -> a < b) -> increasing (l1 ++ l2).
Proof.
  induction 1 as [|a l1 H1 IH Ha]; intros H2 H; [done|]. cbn [app]. constructor.
  - apply IH; [done|]. intros x y Hx. apply H. by right.
  - apply Forall_app. split; [done|]. apply Forall_forall. intros b Hb. apply H; [by left|done].
Qed.

Lemma existsb_none {A} (p : A -> bool) l : existsb p l = false <-> forall x, x ∈ l -> p x = false.
Proof.
  induction l as [|a l IH]; cbn [existsb]; [split; [intros _ x Hx; by apply not_elem_of_nil in Hx|done]|].
  rewrite orb_false_iff, IH. split; [intros [Ha Hl] x [->|Hx]%elem_of_cons; auto|]. intros Hx. split; [apply Hx; by left|intros x ?; apply Hx; by right].
Qed.

Lemma mem_true x l : mem x l = true <-> x ∈ l.
Proof. unfold mem. rewrite existsb_exists, list_elem_of_In. split; [intros (y & Hy & ->%Z.eqb_eq); done|intros; exists x; split; [done|apply Z.eqb_refl] ]. Qed.

(** Picking an increasing list of positions keeps the order. *)
Lemma lookup_increasing l i j x y : increasing l -> l !! i = Some x -> l !! j = Some y -> (i < j)%nat -> x < y.
Proof.
  intros H. revert i j. induction H as [|a l Hl IH Ha]; intros i j Hi Hj Hij; [done|]. destruct j as [|j]; [lia|].
  destruct i as [|i]; [|apply (IH i j); [done|done|lia] ]. injection Hi as ->. rewrite Forall_forall in Ha. apply Ha. by eapply list_elem_of_lookup_2.
Qed.

Lemma pick_increasing l idx :
  increasing l -> increasing idx -> Forall (fun i => 0 <= i) idx -> increasing (omap (fun i => l !! Z.to_nat i) idx).
Proof.
  intros Hl. induction 1 as [|i idx Hidx IH Hi]; intros Hp; [constructor|]. apply Forall_cons in Hp as [Hp0 Hp]. cbn [omap list_omap].
  destruct (l !! Z.to_nat i) as [x|] eqn:E; [|by apply IH]. constructor; [by apply IH|]. apply Forall_forall.
  intros y (j & Hj & Ey)%list_elem_of_omap. rewrite Forall_forall in Hi, Hp. specialize (Hi j Hj). specialize (Hp j Hj). cbn in Hi.
  apply (lookup_increasing l (Z.to_nat i) (Z.to_nat j)); [done..|]. lia.
Qed.

Lemma set_positions_increasing ps l : increasing l -> increasing (set_positions ps l).
Proof.
  intros Hl. unfold set_positions. apply pick_increasing; [done|apply sorted_set_increasing|]. apply Forall_forall.
  intros i Hi. rewrite elem_of_sorted_set in Hi. apply list_elem_of_omap in Hi as (p & _ & E).
  repeat match type of E with context [if ?c then _ else _] => destruct c eqn:? end; try done; injection E as <-;
    repeat match goal with H : _ && _ = true |- _ => apply andb_true_iff in H as [] end; rewrite ?Z.ltb_lt, ?Z.leb_le in *; lia.
Qed.

Lemma elem_of_set_positions ps l t : t ∈ set_positions ps l -> t ∈ l.
Proof. unfold set_positions. intros (i & _ & E)%list_elem_of_omap. by eapply list_elem_of_lookup_2. Qed.

(** ** Candidates of a period *)

Section Laws.
Context `{ChronoLaws}.

Definition grid_time (g : NaiveDate * Z * Z * Z) : option NaiveDateTime := let '(d, h, mi, s) := g in and_hms_opt d h mi s.

Definition period_times (r : RRule) (start : NaiveDateTime) (p : NaiveDate) : list NaiveDateTime :=
  let out := sorted_set (omap grid_time (time_grid r start (List.filter (date_passes r) (period_dates r start p)))) in
  if is_nil (by_set_pos r) then out else set_positions (by_set_pos r) out.

Lemma period_times_increasing r start p : increasing (period_times r start p).
Proof.
  unfold period_times. destruct (is_nil (by_set_pos r)); [apply sorted_set_increasing|]. apply set_positions_increasing, sorted_set_increasing.
Qed.

Lemma elem_of_time_grid r start dates g : g ∈ time_grid r start dates -> g.1.1.1 ∈ dates.
Proof.
  unfold time_grid. intros (d & Hd & Hg)%elem_of_concat_map. apply elem_of_concat_map in Hg as (h & _ & Hg).
  apply elem_of_concat_map in Hg as (mi & _ & Hg). by apply list_elem_of_fmap in Hg as (s & -> & _).
Qed.

Lemma period_times_date r start p t : t ∈ period_times r start p -> date_of t ∈ period_dates r start p.
Proof.
  intros Ht. assert (Hs : t ∈ omap grid_time (time_grid r start (List.filter (date_passes r) (period_dates r start p)))).
  { unfold period_times in Ht. destruct (is_nil (by_set_pos r)); [|apply elem_of_set_positions in Ht]; by rewrite elem_of_sorted_set in Ht. }
  apply list_elem_of_omap in Hs as ([ [ [d h] mi] s] & Hg & Et). apply and_hms_date in Et as ->.
  apply elem_of_time_grid, elem_of_filter_b in Hg as [Hg _]. done.
Qed.

(** ** The dates of a period *)

Lemma month_index_mono a b : in_calendar a -> in_calendar b -> a <= b -> month_index a <= month_index b.
Proof.
  intros Ha Hb Hl. pose proof (year_mono a b Ha Hb Hl). pose proof (month_range a Ha). pose proof (month_range b Hb). unfold month_index.
  destruct (decide (year a = year b)) as [E|]; [pose proof (month_mono a b Ha Hb Hl E)|]; lia.
Qed.

Lemma month_index_lt a b : in_calendar a -> in_calendar b -> month_index a < month_index b -> a < b.
Proof. intros Ha Hb Hi. destruct (Z.lt_ge_cases a b) as [|Hl]; [done|]. pose proof (month_index_mono b a Hb Ha Hl). lia. Qed.

Lemma year_lt a b : in_calendar a -> in_calendar b -> year a < year b -> a < b.
Proof. intros Ha Hb Hi. destruct (Z.lt_ge_cases a b) as [|Hl]; [done|]. pose proof (year_mono b a Hb Ha Hl). lia. Qed.

Lemma month_index_eq a b : in_calendar a -> in_calendar b -> month_index a = month_index b -> year a = year b /\ month a = month b.
Proof. intros Ha Hb. pose proof (month_range a Ha). pose proof (month_range b Hb). unfold month_index. lia. Qed.

Lemma month_index_year a b n : in_calendar a -> in_calendar b -> month_index a + 12 * n <= month_index b -> year a + n <= year b.
Proof. intros Ha Hb. pose proof (month_range a Ha). pose proof (month_range b Hb). unfold month_index. lia. Qed.

Definition in_month (y m d : Z) : Prop := in_calendar d /\ year d = y /\ month d = m.

Lemma ymd_in_month y m n d : from_ymd_opt y m n = Some d -> in_month y m d.
Proof. intros E%ymd_sound. unfold in_month. tauto. Qed.

Lemma day_dates_month y m bd d : d ∈ day_dates y m bd -> in_month y m d.
Proof.
  assert (Hall : forall wd d, d ∈ all_weekdays_in_month y m wd -> in_month y m d).
  { intros wd x [Hx _]%elem_of_filter_b. apply list_elem_of_omap in Hx as (n & _ & E). by eapply ymd_in_month. }
  unfold day_dates. destruct (nth bd) as [n|]; [|apply Hall]. destruct (nth_weekday_in_month y m (bd_weekday bd) n) as [x|] eqn:E; [|by intros ?%not_elem_of_nil].
  intros ->%list_elem_of_singleton. apply (Hall (bd_weekday bd)). unfold nth_weekday_in_month in E.
  repeat match type of E with context [if ?c then _ else _] => destruct c end; try done; by eapply list_elem_of_lookup_2.
Qed.

Lemma month_day_dates_month y m l d : d ∈ month_day_dates y m l -> in_month y m d.
Proof.
  unfold month_day_dates. intros (n & _ & E)%list_elem_of_omap. destruct (_ && _); [by eapply ymd_in_month|done].
Qed.

Lemma option_month y m n d : d ∈ option_list (from_ymd_opt y m n) -> in_month y m d.
Proof. destruct (from_ymd_opt y m n) as [x|] eqn:E; [|by intros ?%not_elem_of_nil]. intros ->%list_elem_of_singleton. by eapply ymd_in_month. Qed.

Lemma month_dates_month r start p d : d ∈ month_dates r start p -> in_month (year p) (month p) d.
Proof.
  unfold month_dates. rewrite elem_of_sorted_set. intros Hd.
  set (out := if negb (is_nil (by_day r)) then _ else _) in Hd.
  assert (Ho : forall x, x ∈ out -> in_month (year p) (month p) x).
  { subst out. intros x. destruct (negb (is_nil (by_day r))).
    - intros Hx. assert (Hc : x ∈ concat (map (day_dates (year p) (month p)) (by_day r)))
        by (destruct (negb (is_nil (by_month_day r))); [by apply elem_of_filter_b in Hx as [? _]|done]).
      apply elem_of_concat_map in Hc as (bd & _ & Hc). by eapply day_dates_month.
    - destruct (negb (is_nil (by_month_day r))); [apply month_day_dates_month|apply option_month]. }
  destruct (negb (is_nil (by_month r))); [apply elem_of_filter_b in Hd as [Hd _]|]; by apply Ho.
Qed.

Definition in_year (y d : Z) : Prop := in_calendar d /\ year d = y.

Lemma is_nil_true {A} (l : list A) : is_nil l = true <-> l = [].
Proof. by destruct l. Qed.

Lemma year_month_year r start y out m :
  (forall d, d ∈ out -> in_year y d) -> forall d, d ∈ year_month r start y out m -> in_year y d.
Proof.
  intros Ho d. assert (Hm : forall x, in_month y m x -> in_year y x) by (intros x (? & ? & _); done). unfold year_month.
  destruct (negb (is_nil (by_day r))).
  - intros Hd. assert (Hc : d ∈ out ++ concat (map (day_dates y m) (by_day r)))
      by (destruct (negb (is_nil (by_month_day r))); [by apply elem_of_filter_b in Hd as [? _]|done]).
    apply elem_of_app in Hc as [?|Hc]; [by apply Ho|]. apply elem_of_concat_map in Hc as (bd & _ & Hc). by eapply Hm, day_dates_month.
  - destruct (negb (is_nil (by_month_day r))); intros [?|Hd]%elem_of_app; try (by apply Ho); apply Hm; [by eapply month_day_dates_month|by eapply option_month].
Qed.

Lemma year_months_year r start y ms out :
  (forall d, d ∈ out -> in_year y d) -> forall d, d ∈ fold_left (year_month r start y) ms out -> in_year y d.
Proof. revert out. induction ms as [|m ms IH]; intros out Ho; [done|]. cbn [fold_left]. apply IH. by apply year_month_year. Qed.

Lemma year_day_dates_year y l d : d ∈ year_day_dates y l -> in_year y d /\ l <> [].
Proof.
  unfold year_day_dates. intros (n & Hn & E)%list_elem_of_omap. destruct (_ && _); [|done]. split; [by apply yo_sound in E|].
  intros ->. by apply not_elem_of_nil in Hn.
Qed.

Lemma week_no_dates_iso r start y d : d ∈ week_no_dates r start y -> (exists w wd, from_isoywd_opt y w wd = Some d) /\ by_week_no r <> [].
Proof.
  unfold week_no_dates. intros (n & Hn & Hd)%elem_of_concat_map. split; [|intros E; rewrite E in Hn; by apply not_elem_of_nil in Hn].
  destruct (_ || _); [by apply not_elem_of_nil in Hd|]. apply list_elem_of_omap in Hd as (wd & _ & E). by eexists _, _.
Qed.

(** A yearly date lies in the year of its period, or is one of its ISO weeks. *)
Lemma year_dates_cases r start p d :
  d ∈ year_dates r start p ->
  (in_year (year p) d /\ (by_week_no r = [] \/ by_year_day r <> [])) \/
  ((exists w wd, from_isoywd_opt (year p) w wd = Some d) /\ by_week_no r <> []).
Proof.
  unfold year_dates. rewrite elem_of_sorted_set.
  destruct (is_nil _ && negb _) eqn:E; intros Hd.
  - apply andb_true_iff in E as [En Eo]. apply is_nil_true in En. rewrite En in Hd. left.
    apply negb_true_iff, orb_false_iff in Eo as [_ Eo]. apply negb_false_iff, is_nil_true in Eo.
    split; [|by left]. eapply year_months_year, Hd. by intros x ?%not_elem_of_nil.
  - apply elem_of_app in Hd as [ [? ?]%year_day_dates_year|Hd%week_no_dates_iso]; [left; auto|by right].
Qed.

Lemma z_range_elem lo hi k : k ∈ z_range lo hi -> lo <= k <= hi.
Proof.
  unfold z_range. intros (i & -> & Hi)%list_elem_of_fmap. apply list_elem_of_In, in_seq in Hi. lia.
Qed.

Lemma week_start_range p w : p - 6 <= week_start_of p w <= p.
Proof.
  unfold week_start_of, checked_sub_days. pose proof (Z.mod_pos_bound (num_days_from_monday (weekday_of p) - num_days_from_monday w) 7 ltac:(lia)).
  destruct (MIN_DATE <=? _); simpl; lia.
Qed.

Lemma week_start_shift p w k : MIN_DATE + 6 <= p -> 0 <= k -> week_start_of (p + 7 * k) w = week_start_of p w + 7 * k.
Proof.
  intros Hp Hk. assert (Hw : weekday_of (p + 7 * k) = weekday_of p).
  { revert k Hk. apply natlike_ind; [by rewrite Z.mul_0_r, Z.add_0_r|]. intros k Hk IH.
    replace (p + 7 * Z.succ k) with (p + 7 * k + 7) by lia. by rewrite weekday_periodic. }
  unfold week_start_of, checked_sub_days. rewrite Hw.
  pose proof (Z.mod_pos_bound (num_days_from_monday (weekday_of p) - num_days_from_monday w) 7 ltac:(lia)).
  rewrite !(proj2 (Z.leb_le _ _)) by lia. simpl. lia.
Qed.

(** A weekly date lies in the week of its period; without [BYDAY] it is the period. *)
Lemma week_dates_range r p d :
  in_calendar p -> d ∈ week_dates r p ->
  in_calendar d /\ ((is_nil (by_day r) = true /\ d = p) \/ (is_nil (by_day r) = false /\ week_start_of p (wkst r) <= d <= week_start_of p (wkst r) + 6)).
Proof.
  intros Hp. unfold week_dates. destruct (is_nil (by_day r)); [intros ->%list_elem_of_singleton; auto|].
  intros [Hd _]%elem_of_filter_b. apply list_elem_of_omap in Hd as (k & Hk%z_range_elem & E). unfold checked_add_days in E.
  destruct (Z.leb_spec (week_start_of p (wkst r) + k) MAX_DATE); [|done]. injection E as <-.
  assert (MIN_DATE <= week_start_of p (wkst r)).
  { unfold week_start_of, checked_sub_days. destruct (Z.leb_spec MIN_DATE (p - (num_days_from_monday (weekday_of p) - num_days_from_monday (wkst r)) mod 7)); [done|apply Hp]. }
  split; [split; lia|]. right. split; [done|lia].
Qed.

(** ** Periods *)

Definition calendar_freq (r : RRule) : Prop := freq r = Daily \/ freq r = Weekly \/ freq r = Monthly \/ freq r = Yearly.

Definition stepping (r : RRule) : Z :=
  let n := Z.max (interval r) 1 in
  match freq r with Weekly => n * 7 | Yearly => n * 12 | _ => n end.

(** Where a period stands: its day, or its month. *)
Definition index (r : RRule) (p : NaiveDate) : Z := match freq r with Monthly | Yearly => month_index p | _ => p end.

Lemma stepping_pos r : 1 <= stepping r.
Proof. unfold stepping. destruct (freq r); lia. Qed.

Lemma advance_index r p q :
  calendar_freq r -> in_calendar p -> advance r p = Some q -> in_calendar q /\ index r q = index r p + stepping r /\ p < q.
Proof.
  intros Hf Hp. unfold advance, index, stepping. pose proof (Z.le_max_r (interval r) 1) as Hn. set (n := Z.max (interval r) 1) in *.
  assert (Hd : forall k, 0 < k -> checked_add_days p k = Some q -> in_calendar q /\ q = p + k /\ p < q).
  { intros k Hk. unfold checked_add_days, in_calendar in *. destruct (Z.leb_spec (p + k) MAX_DATE); [|done]. intros [= <-]. lia. }
  assert (Hm : forall k, 0 < k -> checked_add_months p k = Some q -> in_calendar q /\ month_index q = month_index p + k /\ p < q).
  { intros k Hk E. destruct (add_months_sound p k q Hp ltac:(lia) E) as [Hq Hi]. split_and!; [apply Hq..|done|]. apply month_index_lt; [done|done|lia]. }
  destruct (freq r) eqn:Ef; try (exfalso; destruct Hf as [?|[?|[?|?] ] ]; congruence).
  - apply Hd. lia.
  - apply Hd. lia.
  - apply Hm. lia.
  - destruct (n * 12 <=? Z.of_N u32_max); [|done]. apply Hm. lia.
Qed.

(** Two periods of the same index have the same candidates. *)
Lemma same_times r start p q :
  calendar_freq r -> in_calendar p -> in_calendar q -> index r p = index r q -> period_times r start p = period_times r start q.
Proof.
  intros Hf Hp Hq Hi. unfold period_times. assert (period_dates r start p = period_dates r start q) as ->; [|done].
  unfold index in Hi. unfold period_dates. destruct (freq r); try (by subst).
  - destruct (month_index_eq p q Hp Hq Hi) as [Ey Em]. unfold month_dates. by rewrite Ey, Em.
  - destruct (month_index_eq p q Hp Hq Hi) as [Ey Em]. unfold year_dates. by rewrite Ey.
Qed.

(** A yearly rule does not mix days of the year with ISO weeks, whose years
    overlap the calendar's. *)
Definition regular (r : RRule) : Prop := freq r = Yearly -> by_week_no r = [] \/ by_year_day r = [].

(** [q] is a later period than [p]. *)
Definition later (r : RRule) (p q : NaiveDate) : Prop := exists k, 1 <= k /\ index r q = index r p + k * stepping r.

Ltac by_freq r Hf Ef := destruct (freq r) eqn:Ef; try (exfalso; destruct Hf as [?|[?|[?|?] ] ]; congruence).

Lemma dates_order r start p q d d' :
  calendar_freq r -> regular r -> in_calendar p -> in_calendar q -> (freq r = Weekly -> MIN_DATE + 6 <= p) -> later r p q ->
  d ∈ period_dates r start p -> d' ∈ period_dates r start q -> d < d'.
Proof.
  intros Hf Hr Hp Hq Hm (k & Hk & Hi). unfold period_dates, index, stepping in *. pose proof (Z.le_max_r (interval r) 1).
  set (n := Z.max (interval r) 1) in *. assert (1 <= k * n) by nia. by_freq r Hf Ef.
  - intros ->%list_elem_of_singleton ->%list_elem_of_singleton. nia.
  - intros Hd Hd'. apply week_dates_range in Hd as [_ Hd]; [|done]. apply week_dates_range in Hd' as [_ Hd']; [|done].
    replace q with (p + 7 * (k * n)) in Hd' by lia.
    destruct Hd as [ [? ->]|[? Hd] ], Hd' as [ [? ->]|[? Hd'] ]; try congruence; [lia|].
    rewrite week_start_shift in Hd' by (auto; lia). lia.
  - intros (? & Ey & Em)%month_dates_month (? & Ey' & Em')%month_dates_month. apply month_index_lt; [done|done|].
    unfold month_index in *. rewrite Ey, Em, Ey', Em'. lia.
  - assert (Hy : year p < year q) by (pose proof (month_index_year p q (k * n) Hp Hq ltac:(lia)); lia).
    intros Hd%year_dates_cases Hd'%year_dates_cases. specialize (Hr Ef).
    destruct Hd as [ [ [Hc Ey] Hw]|[(w & wd & E) Hw] ], Hd' as [ [ [Hc' Ey'] Hw']|[(w' & wd' & E') Hw'] ]; try (exfalso; tauto).
    + apply year_lt; [done|done|lia].
    + by eapply iso_order.
Qed.

Lemma dates_after_window r start p q d' to :
  calendar_freq r -> in_calendar p -> in_calendar q -> to < p - 7 -> later r p q -> d' ∈ period_dates r start q -> to < d'.
Proof.
  intros Hf Hp Hq Hto (k & Hk & Hi). unfold period_dates, index, stepping in *. pose proof (Z.le_max_r (interval r) 1).
  set (n := Z.max (interval r) 1) in *. assert (1 <= k * n) by nia. by_freq r Hf Ef.
  - intros ->%list_elem_of_singleton. nia.
  - intros Hd'. apply week_dates_range in Hd' as [_ Hd']; [|done]. pose proof (week_start_range q (wkst r)). lia.
  - intros (? & Ey' & Em')%month_dates_month. enough (p < d') by lia. apply month_index_lt; [done|done|]. unfold month_index in *. rewrite Ey', Em'. lia.
  - assert (Hy : year p < year q) by (pose proof (month_index_year p q (k * n) Hp Hq ltac:(lia)); lia).
    intros [ [ [Hc' Ey'] _]|[(w' & wd' & E') _] ]%year_dates_cases.
    + enough (p < d') by lia. apply year_lt; [done|done|lia].
    + pose proof (iso_after _ _ _ _ p E' Hp Hy). lia.
Qed.

Lemma dates_before_window r start q from d :
  calendar_freq r -> in_calendar q -> in_calendar from -> index r q + 2 * stepping r <= index r from -> d ∈ period_dates r start q -> d < from.
Proof.
  intros Hf Hq Hfrom Hi. unfold period_dates, index, stepping in *. pose proof (Z.le_max_r (interval r) 1).
  set (n := Z.max (interval r) 1) in *. by_freq r Hf Ef.
  - intros ->%list_elem_of_singleton. lia.
  - intros Hd. apply week_dates_range in Hd as [_ Hd]; [|done]. pose proof (week_start_range q (wkst r)). lia.
  - intros (? & Ey' & Em')%month_dates_month. apply month_index_lt; [done|done|]. unfold month_index in *. rewrite Ey', Em'. lia.
  - assert (Hy : year q + 2 <= year from) by (pose proof (month_index_year q from 2 Hq Hfrom ltac:(lia)); lia).
    intros [ [ [Hc' Ey'] _]|[(w' & wd' & E') _] ]%year_dates_cases.
    + apply year_lt; [done|done|lia].
    + destruct (iso_sound _ _ _ _ E') as (? & _ & ?). apply year_lt; [done|done|lia].
Qed.

(** ** The plain recurrence *)

Section Rule.
Context `{TzDb} (r : RRule) (start : NaiveDateTime).

Fixpoint periods (n : nat) (p : NaiveDate) : list NaiveDate :=
  match n with
  | O => []
  | S n => p :: match advance r p with Some q => periods n q | None => [] end
  end.

(** All candidates of the first [n] periods, in order. *)
Definition times (n : nat) (p : NaiveDate) : list NaiveDateTime := concat (map (period_times r start) (periods n p)).

Lemma times_S n p :
  times (S n) p = period_times r start p ++ match advance r p with Some q => times n q | None => [] end.
Proof. unfold times. cbn [periods map concat]. by destruct (advance r p). Qed.

Lemma periods_index n p x :
  calendar_freq r -> in_calendar p -> x ∈ periods n p -> in_calendar x /\ p <= x /\ exists k, 0 <= k /\ index r x = index r p + k * stepping r.
Proof.
  intros Hf. revert p. induction n as [|n IH]; intros p Hp; cbn [periods]; [by intros ?%not_elem_of_nil|].
  intros [->|Hx]%elem_of_cons; [split_and!; [apply Hp..|lia|exists 0; lia]|].
  destruct (advance r p) as [q|] eqn:E; [|by apply not_elem_of_nil in Hx]. apply advance_index in E as (Hq & Hi & Hl); [|done|done].
  destruct (IH q Hq Hx) as (Hc & Hle & k & Hk & Hix). split; [done|]. split; [lia|]. exists (k + 1). lia.
Qed.

Lemma times_later n p q t :
  calendar_freq r -> in_calendar p -> advance r p = Some q -> t ∈ times n q ->
  exists x, in_calendar x /\ later r p x /\ date_of t ∈ period_dates r start x.
Proof.
  intros Hf Hp E Ht. apply advance_index in E as (Hq & Hi & Hl); [|done|done]. unfold times in Ht.
  apply elem_of_concat_map in Ht as (x & Hx & Ht). destruct (periods_index n q x Hf Hq Hx) as (Hc & _ & k & Hk & Hix).
  exists x. split; [done|]. split; [|by apply period_times_date]. exists (k + 1). lia.
Qed.

Lemma times_ordered n p q t t' :
  calendar_freq r -> regular r -> in_calendar p -> (freq r = Weekly -> MIN_DATE + 6 <= p) -> advance r p = Some q ->
  t ∈ period_times r start p -> t' ∈ times n q -> t < t'.
Proof.
  intros Hf Hr Hp Hm E Ht Ht'. destruct (times_later n p q t' Hf Hp E Ht') as (x & Hx & Hl & Hd).
  pose proof (dates_order r start p x _ _ Hf Hr Hp Hx Hm Hl (period_times_date _ _ _ _ Ht) Hd) as Ho.
  destruct (Z.lt_ge_cases t t') as [|Hge]; [done|]. pose proof (date_of_mono t' t Hge). lia.
Qed.

Lemma times_after_window n p q to t :
  calendar_freq r -> in_calendar p -> advance r p = Some q -> to < p - 7 -> t ∈ times n q -> to < date_of t.
Proof.
  intros Hf Hp E Hto Ht. destruct (times_later n p q t Hf Hp E Ht) as (x & Hx & Hl & Hd). by eapply (dates_after_window r start p x).
Qed.

(** The candidates depend on the index only. *)
Lemma times_same n p q : calendar_freq r -> in_calendar p -> in_calendar q -> index r p = index r q -> times n p = times n q.
Proof.
  intros Hf. revert p q. induction n as [|n IH]; intros p q Hp Hq Hi; [done|]. rewrite !times_S, (same_times r start p q) by done. f_equal.
  assert (Hs : is_Some (advance r p) <-> is_Some (advance r q)).
  { unfold advance, index in *. pose proof (Z.le_max_r (interval r) 1). by_freq r Hf Ef.
    - by subst.
    - by subst.
    - rewrite !add_months_some by (done || lia). by rewrite Hi.
    - destruct (_ <=? Z.of_N u32_max); [|done]. rewrite !add_months_some by (done || lia). by rewrite Hi. }
  destruct (advance r p) as [p'|] eqn:Ep, (advance r q) as [q'|] eqn:Eq; [|naive_solver|naive_solver|done].
  apply advance_index in Ep as (? & Ip & _); [|done|done]. apply advance_index in Eq as (? & Iq & _); [|done|done]. apply IH; [done|done|lia].
Qed.

(** ** The walk *)

Context (from to : NaiveDate) (zone : option Tz) (gap : GapPolicy).

Lemma bind_ok {A B} (m : Exp A) (k : A -> Exp B) b x b' :
  exp_bind m k b = (Ok x, b') -> exists a b1, m b = (Ok a, b1) /\ k a b1 = (Ok x, b').
Proof. unfold exp_bind. destruct (m b) as [ [a|e] b1]; [eauto|done]. Qed.

Lemma build_ok grid b l b' : build_candidates grid b = (Ok l, b') -> l = omap grid_time grid.
Proof.
  revert b l. induction grid as [|[ [ [d h] mi] s] grid IH]; intros b l; cbn [build_candidates]; [by intros [= <- <-]|].
  intros (u & b1 & _ & (rest & b2 & Er & E)%bind_ok)%bind_ok. injection E as <- <-. cbn [omap list_omap grid_time].
  rewrite (IH _ _ Er). by destruct (and_hms_opt d h mi s).
Qed.

Lemma candidates_ok p cost b l b' : period_candidates r start p cost b = (Ok l, b') -> l = period_times r start p.
Proof.
  unfold period_candidates. intros (f & b1 & _ & (u & b2 & _ & (out & b3 & Eo & E)%bind_ok)%bind_ok)%bind_ok.
  apply build_ok in Eo as ->. injection E as <- <-. unfold period_times. by destruct (is_nil (by_set_pos r)).
Qed.

(** The occurrences that count: from the start on and up to the bound. *)
Definition counted (t : NaiveDateTime) : bool := (start <=? t) && negb (past_until r zone gap t).

Definition limit (emitted : Z) (l : list NaiveDateTime) : list NaiveDateTime :=
  match count r with Some c => take (Z.to_nat (c - emitted)) l | None => l end.

Definition window (l : list NaiveDateTime) : list NaiveDateTime := List.filter (in_window from to) l.

Lemma limit_nil e : limit e [] = [].
Proof. unfold limit. destruct (count r); [apply take_nil|done]. Qed.

Lemma limit_sub e l t : t ∈ limit e l -> t ∈ l.
Proof. unfold limit. destruct (count r) as [c|]; [|done]. intros Ht. rewrite <- (take_drop (Z.to_nat (c - e)) l). apply elem_of_app. by left. Qed.

(** Once past the bound, always past it. *)
Definition until_monotone : Prop := forall a b, a <= b -> past_until r zone gap a = true -> past_until r zone gap b = true.

Lemma past_nothing t l : until_monotone -> past_until r zone gap t = true -> Forall (Z.le t) l -> List.filter counted l = [].
Proof.
  intros Hmono Hp Hl. apply filter_false. intros x Hx. rewrite Forall_forall in Hl. specialize (Hl x Hx).
  unfold counted. by rewrite (Hmono t x Hl Hp), andb_false_r.
Qed.

Lemma scan_spec cands emitted b out emitted' done b' rest :
  until_monotone -> increasing cands -> (forall t t', t ∈ cands -> t' ∈ rest -> t < t') ->
  scan r start from to zone gap emitted cands b = (Ok (out, emitted', done), b') ->
  window (limit emitted (List.filter counted (cands ++ rest))) =
    out ++ (if done then [] else window (limit emitted' (List.filter counted rest))).
Proof.
  intros Hmono. revert emitted b out emitted' done b'. induction cands as [|t cands IH]; intros emitted b out emitted' done b' Hs Ho; cbn [scan app].
  { by intros [= <- <- <- <-]. }
  apply StronglySorted_inv in Hs as [Hs Ht].
  assert (Ho' : forall x t', x ∈ cands -> t' ∈ rest -> x < t') by (intros; apply Ho; [by right|done]).
  destruct (Z.ltb_spec t start) as [Hlt|Hge].
  { intros E. cbn [List.filter]. unfold counted at 1. rewrite (proj2 (Z.leb_gt start t)) by lia. by eapply IH. }
  destruct (past_until r zone gap t) eqn:Ep.
  { intros [= <- <- <- <-]. rewrite (past_nothing t (t :: cands ++ rest)); [by rewrite limit_nil|done|done|]. constructor; [lia|].
    apply Forall_app. split; [eapply Forall_impl; [exact Ht|]; cbn; lia|]. apply Forall_forall. intros x Hx. specialize (Ho t x). apply Z.lt_le_incl, Ho; [by left|done]. }
  assert (Hc : counted t = true) by (unfold counted; rewrite Ep, (proj2 (Z.leb_le start t)) by lia; done).
  cbn [List.filter]. rewrite Hc. set (tail := List.filter counted (cands ++ rest)) in *.
  destruct (match count r with Some c => c <=? emitted | None => false end) eqn:Efull.
  { intros [= <- <- <- <-]. unfold limit. destruct (count r) as [c|]; [|done]. apply Z.leb_le in Efull.
    replace (Z.to_nat (c - emitted)) with 0%nat by lia. done. }
  set (e1 := match count r with Some _ => emitted + 1 | None => emitted end) in *.
  assert (Hl : limit emitted (t :: tail) = t :: limit e1 tail).
  { unfold limit, e1. destruct (count r) as [c|]; [|done]. apply Z.leb_gt in Efull.
    replace (Z.to_nat (c - emitted)) with (S (Z.to_nat (c - (emitted + 1)))) by lia. done. }
  rewrite Hl. unfold window at 1. cbn [List.filter]. fold (window (limit e1 tail)). destruct (in_window from to t).
  - intros (u & b1 & _ & ([ [o e'] d'] & b2 & E & E')%bind_ok)%bind_ok. injection E' as <- <- <- <-. cbn [app]. f_equal. by eapply IH.
  - intros E. by eapply IH.
Qed.

Lemma window_nothing l : Forall (fun t => to < date_of t) l -> forall e, window (limit e (List.filter counted l)) = [].
Proof.
  intros Hl e. apply filter_false. intros t Ht%limit_sub. apply elem_of_filter_b in Ht as [Ht _].
  rewrite Forall_forall in Hl. specialize (Hl t Ht). unfold in_window. rewrite (proj2 (Z.leb_gt (date_of t) to)) by lia. apply andb_false_r.
Qed.

Lemma walk_spec fuel cost emitted p b out b' :
  until_monotone -> calendar_freq r -> regular r -> in_calendar p -> (freq r = Weekly -> MIN_DATE + 6 <= p) ->
  walk r start from to zone gap fuel cost emitted p b = (Ok (Some out), b') ->
  exists N, forall n, (N <= n)%nat -> window (limit emitted (List.filter counted (times n p))) = out.
Proof.
  intros Hmono Hf Hr. revert emitted p b out b'. induction fuel as [|fuel IH]; intros emitted p b out b' Hp Hm; cbn [walk]; [done|].
  intros (u & b1 & _ & (cands & b2 & Ec%candidates_ok & ([ [o e'] d'] & b3 & Es & E)%bind_ok)%bind_ok)%bind_ok. subst cands.
  assert (Hscan : forall n, window (limit emitted (List.filter counted (times (S n) p))) =
    o ++ (if d' then [] else window (limit e' (List.filter counted (match advance r p with Some q => times n q | None => [] end))))).
  { intros n. rewrite times_S. eapply scan_spec; [done|apply period_times_increasing| |exact Es]. intros t t' Ht Ht'.
    destruct (advance r p) as [q|] eqn:Ea; [by eapply times_ordered|by apply not_elem_of_nil in Ht']. }
  assert (Hone : forall x, (forall n, window (limit emitted (List.filter counted (times (S n) p))) = x) ->
    exists N, forall n, (N <= n)%nat -> window (limit emitted (List.filter counted (times n p))) = x).
  { intros x Hx. exists 1%nat. intros [|n] Hn; [lia|apply Hx]. }
  destruct d'; [injection E as <- <-; apply Hone; intros n; by rewrite Hscan, app_nil_r|].
  destruct (advance r p) as [q|] eqn:Ea.
  2: { assert (o = out) as ->; [|apply Hone; intros n; rewrite Hscan; cbn [List.filter]; by rewrite limit_nil, app_nil_r].
       destruct (match checked_sub_days p 7 with Some _ => _ | None => _ end); by injection E as <- <-. }
  destruct (match checked_sub_days p 7 with Some p7 => to <? p7 | None => false end) eqn:E7.
  - injection E as <- <-. apply Hone. intros n. rewrite Hscan, window_nothing, app_nil_r; [done|]. apply Forall_forall. intros t Ht.
    unfold checked_sub_days in E7. destruct (_ <=? _); [|done]. apply Z.ltb_lt in E7. by eapply times_after_window.
  - destruct (advance_index r p q Hf Hp Ea) as (Hq & _ & Hlt). rewrite (proj2 (Z.leb_gt q p)) in E by lia.
    apply bind_ok in E as (rest & b4 & Ew & E). destruct rest as [rest|]; [|done]. injection E as <- <-.
    destruct (IH e' q _ rest _ Hq ltac:(intros Ew'; specialize (Hm Ew'); lia) Ew) as [N HN]. exists (S N). intros [|n] Hn; [lia|]. rewrite Hscan, HN by lia. done.
Qed.

(** *** The jump to the window *)

Lemma advance_some s w :
  calendar_freq r -> in_calendar s -> in_calendar w -> index r s + stepping r <= index r w -> is_Some (advance r s).
Proof.
  intros Hf Hs Hw. unfold index, stepping, advance. pose proof (Z.le_max_r (interval r) 1). set (n := Z.max (interval r) 1) in *.
  assert (Hmax : month_index w <= month_index MAX_DATE).
  { apply month_index_mono; [done| |apply Hw]. unfold in_calendar. pose proof calendar_nonempty. lia. }
  assert (Hmin : month_index MIN_DATE <= month_index s).
  { apply month_index_mono; [|done|apply Hs]. unfold in_calendar. pose proof calendar_nonempty. lia. }
  pose proof calendar_months. unfold checked_add_days, in_calendar in *. by_freq r Hf Ef; intros Hi.
  - rewrite (proj2 (Z.leb_le _ _)) by lia. by eexists.
  - rewrite (proj2 (Z.leb_le _ _)) by lia. by eexists.
  - apply add_months_some; [done|lia|lia].
  - rewrite (proj2 (Z.leb_le _ _)) by lia. apply add_months_some; [done|lia|lia].
Qed.

(** The periods before the [j]th: their candidates come first. *)
Lemma times_skip j n s w :
  calendar_freq r -> in_calendar s -> in_calendar w -> index r s + Z.of_nat j * stepping r <= index r w ->
  exists q pre, in_calendar q /\ index r q = index r s + Z.of_nat j * stepping r /\ times (j + n) s = pre ++ times n q /\
    forall t, t ∈ pre -> exists x, in_calendar x /\ index r x + stepping r <= index r q /\ date_of t ∈ period_dates r start x.
Proof.
  intros Hf. revert s. induction j as [|j IH]; intros s Hs Hw Hi.
  { exists s, []. split_and!; [apply Hs..|lia|done|]. by intros t ?%not_elem_of_nil. }
  pose proof (stepping_pos r). destruct (advance_some s w Hf Hs Hw) as [s' E]; [nia|].
  apply advance_index in E as Ha; [|done|done]. destruct Ha as (Hs' & Hi' & _).
  destruct (IH s' Hs' Hw ltac:(lia)) as (q & pre & Hq & Hiq & Ht & Hpre). exists q, (period_times r start s ++ pre).
  split; [done|]. split; [lia|]. split; [cbn [Nat.add]; by rewrite times_S, E, Ht, app_assoc|].
  intros t [Hts|Htp]%elem_of_app; [|by apply Hpre]. exists s. split; [done|]. split; [nia|]. by apply period_times_date.
Qed.

(** [p] is the [j]th period after [s], and what lies before it cannot reach [from]. *)
Definition jumped (s p : NaiveDate) : Prop :=
  in_calendar p /\ (freq r = Weekly -> s <= p) /\ exists j, index r p = index r s + Z.of_nat j * stepping r /\
    (j = 0%nat \/ count r = None /\ index r s + (Z.of_nat j + 1) * stepping r <= index r from).

Lemma jumped_here s : in_calendar s -> jumped s s.
Proof. intros Hs. split; [done|]. split; [lia|]. exists 0%nat. split; [lia|by left]. Qed.

Lemma jumped_by s p elapsed :
  count r = None -> in_calendar p -> (freq r = Weekly -> s <= p) -> 0 <= elapsed ->
  index r p = index r s + Z.max 0 (elapsed / stepping r - 1) * stepping r -> index r s + elapsed <= index r from \/ elapsed = 0 ->
  jumped s p.
Proof.
  intros Hc Hp Hle He Hip Hel. split; [done|]. split; [done|]. exists (Z.to_nat (Z.max 0 (elapsed / stepping r - 1))).
  rewrite Z2Nat.id by lia. split; [done|]. pose proof (stepping_pos r). pose proof (Z.mul_div_le elapsed (stepping r) ltac:(lia)).
  destruct (Z.le_gt_cases (elapsed / stepping r) 1); [left; lia|right]. split; [done|].
  destruct Hel as [Hel| ->]; [|rewrite Z.div_0_l in *; lia]. rewrite Z.max_r by lia. nia.
Qed.

Lemma jump_days s :
  count r = None -> in_calendar s -> in_calendar from -> s < from -> (forall x, index r x = x) ->
  jumped s (default s (checked_add_days s (Z.max 0 ((from - s) / stepping r - 1) * stepping r))).
Proof.
  intros Hc Hs Hw Hlt Hx. pose proof (stepping_pos r). pose proof (Z.mul_div_le (from - s) (stepping r) ltac:(lia)).
  pose proof (Z.div_pos (from - s) (stepping r) ltac:(lia) ltac:(lia)).
  set (k := Z.max 0 ((from - s) / stepping r - 1) * stepping r) in *. assert (0 <= k <= from - s) by (subst k; nia).
  unfold in_calendar in *. unfold checked_add_days. rewrite (proj2 (Z.leb_le _ _)) by lia. simpl.
  apply (jumped_by s (s + k) (from - s)); rewrite ?Hx; try done; try lia. unfold in_calendar. lia.
Qed.

Lemma jump_months s :
  count r = None -> in_calendar s -> freq r <> Weekly -> (forall x, index r x = month_index x) ->
  let elapsed := Z.max 0 ((year from - year s) * 12 + month from - month s) in
  let k := Z.max 0 (elapsed / stepping r - 1) * stepping r in
  jumped s (default s (if k <=? Z.of_N u32_max then checked_add_months s k else None)).
Proof.
  intros Hc Hs Hf Hx elapsed k. pose proof (stepping_pos r). assert (0 <= k) by (subst k; nia).
  destruct (k <=? Z.of_N u32_max); [|by apply jumped_here]. destruct (checked_add_months s k) as [p|] eqn:E; simpl; [|by apply jumped_here].
  destruct (add_months_sound s k p Hs ltac:(lia) E) as [Hp Hip].
  apply (jumped_by s p elapsed); rewrite ?Hx; try done; [lia|]. unfold elapsed, month_index.
  destruct (Z.le_gt_cases ((year from - year s) * 12 + month from - month s) 0); [right|left]; lia.
Qed.

Lemma jump_spec s : calendar_freq r -> in_calendar s -> in_calendar from -> jumped s (initial_period r s from).
Proof.
  intros Hf Hs Hw. unfold initial_period. case_bool_decide as Hc; cbn [orb]; [by apply jumped_here|]. apply eq_None_not_Some in Hc.
  destruct (Z.leb_spec from s) as [|Hlt]; [by apply jumped_here|].
  pose proof (jump_days s Hc Hs Hw Hlt) as Hd. pose proof (jump_months s Hc Hs) as Hm. unfold stepping, index in Hd, Hm.
  destruct Hf as [Ef|[Ef|[Ef|Ef] ] ]; rewrite !Ef in *.
  - by apply Hd.
  - rewrite bool_decide_eq_true_2 by done. by apply Hd.
  - rewrite bool_decide_eq_false_2 by done. by apply Hm.
  - rewrite bool_decide_eq_true_2 by done. by apply Hm.
Qed.

Lemma times_from_jump s p N :
  calendar_freq r -> in_calendar s -> in_calendar from -> jumped s p -> exists j, forall n, (N <= n)%nat ->
    window (limit 0 (List.filter counted (times (j + n) s))) = window (limit 0 (List.filter counted (times n p))).
Proof.
  intros Hf Hs Hw (Hp & _ & j & Hi & Hj). exists j. intros n Hn.
  destruct Hj as [->|[Hc Hj] ].
  { cbn [Nat.add]. rewrite (times_same n s p); [done|done|done|done|lia]. }
  pose proof (stepping_pos r).
  destruct (times_skip j n s from Hf Hs Hw) as (q & pre & Hq & Hiq & -> & Hpre); [nia|].
  rewrite (times_same n q p) by (done || lia). unfold limit. rewrite Hc. unfold window. rewrite !List.filter_app.
  rewrite (filter_false (in_window from to) (List.filter counted pre)); [done|].
  intros t [Ht _]%elem_of_filter_b. destruct (Hpre t Ht) as (x & Hx & Hxi & Hd).
  pose proof (dates_before_window r start x from _ Hf Hx Hw ltac:(nia) Hd). unfold in_window.
  by rewrite (proj2 (Z.leb_gt from (date_of t))) by lia.
Qed.

(** *** The walk ends *)

(** The limit of the work stays, and what was used of it does not shrink. *)
Definition grows {A} (m : Exp A) : Prop := forall b,
  max_recurrence_work (m b).2 = max_recurrence_work b /\ b_recurrence_work b <= b_recurrence_work (m b).2.

Lemma grows_ret {A} (a : A) : grows (exp_ret a).
Proof. intros b. simpl. lia. Qed.

Lemma grows_err {A} e : grows (exp_err e : Exp A).
Proof. intros b. simpl. lia. Qed.

Lemma grows_bind {A B} (m : Exp A) (k : A -> Exp B) : grows m -> (forall a, grows (k a)) -> grows (exp_bind m k).
Proof.
  intros Hm Hk b. unfold exp_bind. specialize (Hm b). destruct (m b) as [ [a|e] b1]; simpl in *; [|done].
  destruct (Hk a b1) as [-> ?]. lia.
Qed.

Lemma grows_of {A} (o : option A) e : grows (exp_of o e).
Proof. destruct o; [apply grows_ret|apply grows_err]. Qed.

Lemma spend_ok used max amount l n : spend used max amount l = Ok n -> n = used + amount /\ n <= max.
Proof.
  unfold spend, checked_add, checked. destruct (_ <=? usize_max); [|done]. destruct (Z.ltb_spec max (used + amount)); [done|]. intros [= <-]. lia.
Qed.

Lemma grows_work n : 0 <= n -> grows (recurrence_work n).
Proof.
  intros Hn b. unfold recurrence_work. destruct (spend _ _ _ _) as [k|e] eqn:E; simpl; [|lia]. apply spend_ok in E. lia.
Qed.

Lemma grows_bytes n : grows (retain_bytes n).
Proof. intros b. unfold retain_bytes. destruct (spend _ _ _ _); simpl; lia. Qed.

Lemma grows_local : grows expanded_local.
Proof.
  apply grows_bind; [|intros; apply grows_bytes]. intros b. unfold charge_local. destruct (spend _ _ _ _); simpl; lia.
Qed.

Lemma grows_build grid : grows (build_candidates grid).
Proof.
  induction grid as [|[ [ [d h] mi] s] grid IH]; [apply grows_ret|]. cbn [build_candidates].
  apply grows_bind; [apply grows_bind; [by apply grows_work|intros; apply grows_bytes]|]. intros _.
  apply grows_bind; [done|]. intros. apply grows_ret.
Qed.

Lemma checked_mul_ok a b c : checked_mul a b = Some c -> c = a * b.
Proof. unfold checked_mul, checked. destruct (_ <=? _); [by intros [= <-]|done]. Qed.

Lemma checked_add_ok a b c : checked_add a b = Some c -> c = a + b.
Proof. unfold checked_add, checked. destruct (_ <=? _); [by intros [= <-]|done]. Qed.

Lemma grows_candidates p cost : 0 <= c_filter cost -> grows (period_candidates r start p cost).
Proof.
  intros Hc. unfold period_candidates. set (dates := period_dates r start p).
  destruct (checked_mul (len dates) (c_filter cost)) as [f|] eqn:E; [|intros b; simpl; lia].
  apply checked_mul_ok in E. assert (0 <= f) by (unfold len in E; nia).
  match goal with |- grows (exp_bind _ ?k) => change (grows (k f)) end.
  apply grows_bind; [by apply grows_work|]. intros _. apply grows_bind; [apply grows_build|]. intros. apply grows_ret.
Qed.

Lemma grows_scan emitted cands : grows (scan r start from to zone gap emitted cands).
Proof.
  revert emitted. induction cands as [|t cands IH]; intros emitted; cbn [scan]; [apply grows_ret|].
  destruct (t <? start); [apply IH|]. destruct (past_until r zone gap t); [apply grows_ret|].
  destruct (match count r with Some c => c <=? emitted | None => false end); [apply grows_ret|].
  destruct (in_window from to t); [|apply IH]. apply grows_bind; [apply grows_local|]. intros _.
  apply grows_bind; [apply IH|]. intros [ [? ?] ?]. apply grows_ret.
Qed.

Lemma walk_total fuel cost emitted p b :
  0 <= c_filter cost -> 1 <= c_period cost -> (Z.to_nat (max_recurrence_work b - b_recurrence_work b) < fuel)%nat ->
  forall b', walk r start from to zone gap fuel cost emitted p b <> (Ok None, b').
Proof.
  intros Hf Hp. revert emitted p b. induction fuel as [|fuel IH]; intros emitted p b Hb b'; [lia|]. cbn [walk].
  intros (u & b1 & E1 & (cands & b2 & E2 & ([ [o e'] d'] & b3 & E3 & E)%bind_ok)%bind_ok)%bind_ok.
  assert (Hw1 : b_recurrence_work b + 1 <= b_recurrence_work b1 <= max_recurrence_work b /\ max_recurrence_work b1 = max_recurrence_work b).
  { unfold recurrence_work in E1. destruct (spend _ _ _ _) as [k|] eqn:Es; [|done]. apply spend_ok in Es. injection E1 as _ <-. simpl. lia. }
  pose proof (grows_candidates p cost Hf b1) as G2. rewrite E2 in G2. pose proof (grows_scan emitted cands b2) as G3. rewrite E3 in G3. simpl in G2, G3.
  destruct d'; [done|]. destruct (match checked_sub_days p 7 with Some _ => _ | None => _ end); [done|].
  destruct (advance r p) as [q|]; [|done]. destruct (q <=? p); [done|]. apply bind_ok in E as (rest & b4 & Ew & E).
  destruct rest; [done|]. eapply (IH e' q b3), Ew. lia.
Qed.

Ltac cost_steps := repeat match goal with
  | H : _ ≫= _ = Some _ |- _ => apply bind_Some in H as (? & ? & H)
  | H : checked_add _ _ = Some _ |- _ => apply checked_add_ok in H
  | H : checked_mul _ _ = Some _ |- _ => apply checked_mul_ok in H
  end.

Lemma len_pos {A} (l : list A) : 0 <= len l.
Proof. unfold len. lia. Qed.

Lemma per_month_pos x : per_month_cost r = Some x -> 0 <= x.
Proof.
  unfold per_month_cost. intros E. cost_steps. subst.
  pose proof (len_pos (by_day r)). pose proof (len_pos (by_month_day r)). pose proof (len_pos (by_month r)). nia.
Qed.

Lemma dates_cost_pos x : dates_cost r = Some x -> 0 <= x.
Proof.
  unfold dates_cost. intros (p & Hp%per_month_pos & E)%bind_Some. pose proof (len_pos (by_day r)). pose proof (len_pos (by_month r)).
  pose proof (len_pos (by_year_day r)). pose proof (len_pos (by_week_no r)).
  destruct (freq r); try (injection E as <-; lia); cost_steps; subst; nia.
Qed.

Lemma cost_pos c : cost_of r = Some c -> 1 <= c_period c /\ 1 <= c_filter c.
Proof.
  unfold cost_of. intros (d & Hd%dates_cost_pos & E)%bind_Some. cost_steps. injection E as <-. simpl. subst.
  pose proof (len_pos (by_hour r)). pose proof (len_pos (by_minute r)). pose proof (len_pos (by_second r)). pose proof (len_pos (by_set_pos r)).
  pose proof (len_pos (by_month_day r)). pose proof (len_pos (by_year_day r)). pose proof (len_pos (by_day r)).
  pose proof (len_pos (by_week_no r)). pose proof (len_pos (by_month r)). lia.
Qed.

Lemma rule_walk b :
  calendar_freq r -> exists cost, (cost_of r = Some cost /\ 1 <= c_period cost /\ 1 <= c_filter cost /\
    forall out b', expand_rule r start from to zone gap b = (Ok out, b') <->
      walk r start from to zone gap (walk_fuel b) cost 0 (initial_period r (date_of start) from) b = (Ok (Some out), b')) \/
    (cost_of r = None /\ expand_rule r start from to zone gap b = (Err work_exhausted, b)).
Proof.
  intros Hf. unfold expand_rule. destruct (cost_of r) as [cost|] eqn:Ec; [|exists (mkCost 0 0); right; done].
  exists cost. left. destruct (cost_pos cost Ec) as [? ?]. split; [done|]. split; [done|]. split; [done|]. intros out b'.
  pose proof (walk_total (walk_fuel b) cost 0 (initial_period r (date_of start) from) b ltac:(lia) ltac:(lia)) as Ht.
  unfold exp_bind, exp_of, exp_ret. by_freq r Hf Ef;
    (destruct (walk _ _ _ _ _ _ _ _ _ _ b) as [ [ [l|]|e] b1]; [split; intros [= <- <-]; done|exfalso; apply (Ht ltac:(unfold walk_fuel; lia) b1); done|done]).
Qed.

(** *** What is enough *)

(** The budget has [n] left of every counter. *)
Definition affords (n : Z) (b : ExpansionBudget) : Prop :=
  (b_recurrence_work b + n <= max_recurrence_work b <= usize_max) /\
  (b_expanded_locals b + n <= max_occurrences b <= usize_max) /\
  (b_retained_bytes b + n <= max_retained_bytes b <= usize_max).

(** [m] returns [a] whenever [n] is left, and takes no more than that. *)
Definition costs {A} (m : Exp A) (a : A) (n : Z) : Prop :=
  0 <= n /\ forall k b, 0 <= k -> affords (n + k) b -> exists b', m b = (Ok a, b') /\ affords k b'.

Lemma costs_ret {A} (a : A) : costs (exp_ret a) a 0.
Proof. split; [done|]. intros k b _ Hb. by exists b. Qed.

Lemma costs_bind {A B} (m : Exp A) (f : A -> Exp B) a c n1 n2 : costs m a n1 -> costs (f a) c n2 -> costs (exp_bind m f) c (n1 + n2).
Proof.
  intros [Hn1 Hm] [Hn2 Hf]. split; [lia|]. intros k b Hk Hb.
  destruct (Hm (n2 + k) b ltac:(lia)) as (b1 & E1 & Hb1); [by replace (n1 + (n2 + k)) with (n1 + n2 + k) by lia|].
  destruct (Hf k b1 Hk Hb1) as (b2 & E2 & Hb2). exists b2. unfold exp_bind. by rewrite E1.
Qed.

Lemma spend_enough used max amount l : used + amount <= max -> max <= usize_max -> spend used max amount l = Ok (used + amount).
Proof.
  intros H1' H2'. unfold spend, checked_add, checked. rewrite (proj2 (Z.leb_le _ _)) by lia. by rewrite (proj2 (Z.ltb_ge _ _)) by lia.
Qed.

Ltac charged m := split; [lia|]; intros k b Hk (? & ? & ?); unfold m; rewrite spend_enough by lia; eexists;
  split; [done|]; unfold affords; simpl; lia.

Lemma costs_work n m : 0 <= n <= m -> costs (recurrence_work n) tt m.
Proof. intros ?. charged recurrence_work. Qed.

Lemma costs_bytes n m : 0 <= n <= m -> costs (retain_bytes n) tt m.
Proof. intros ?. charged retain_bytes. Qed.

Lemma costs_charge : costs charge_local tt 1.
Proof. charged charge_local. Qed.

Lemma costs_build grid : exists n, costs (build_candidates grid) (omap grid_time grid) n.
Proof.
  induction grid as [|[ [ [d h] mi] s] grid [n IH] ]; [exists 0; apply costs_ret|]. eexists. cbn [build_candidates].
  eapply costs_bind; [eapply costs_bind; [apply (costs_work 1 1); lia|apply (costs_bytes _ CANDIDATE_BYTES); unfold CANDIDATE_BYTES; lia]|].
  eapply costs_bind; [exact IH|]. cbn [omap list_omap grid_time].
  destruct (and_hms_opt d h mi s); apply costs_ret.
Qed.

Lemma costs_candidates p cost :
  0 <= c_filter cost -> len (period_dates r start p) * c_filter cost <= usize_max ->
  exists n, costs (period_candidates r start p cost) (period_times r start p) n.
Proof.
  intros Hc Hfit. unfold period_candidates, checked_mul, checked. rewrite (proj2 (Z.leb_le _ _)) by done.
  set (f := len (period_dates r start p) * c_filter cost). assert (0 <= f) by (unfold f, len; nia).
  destruct (costs_build (time_grid r start (List.filter (date_passes r) (period_dates r start p)))) as [n Hn].
  eexists. eapply costs_bind; [apply costs_ret|]. eapply costs_bind; [apply (costs_work f f); lia|].
  eapply costs_bind; [exact Hn|]. unfold period_times. destruct (is_nil (by_set_pos r)); apply costs_ret.
Qed.

Lemma costs_scan emitted cands : exists x n, costs (scan r start from to zone gap emitted cands) x n.
Proof.
  revert emitted. induction cands as [|t cands IH]; intros emitted; cbn [scan]; [do 2 eexists; apply costs_ret|].
  destruct (t <? start); [apply IH|]. destruct (past_until r zone gap t); [do 2 eexists; apply costs_ret|].
  destruct (match count r with Some c => c <=? emitted | None => false end); [do 2 eexists; apply costs_ret|].
  set (e := match count r with Some _ => emitted + 1 | None => emitted end). destruct (IH e) as ([ [o e'] d'] & n & Hn).
  destruct (in_window from to t); [|by do 2 eexists]. do 2 eexists.
  eapply costs_bind; [eapply costs_bind; [apply costs_charge|apply (costs_bytes _ CANDIDATE_BYTES); unfold CANDIDATE_BYTES; lia]|].
  eapply costs_bind; [exact Hn|]. apply costs_ret.
Qed.

(** The calendar bounds the number of periods. *)
Lemma costs_walk cost :
  calendar_freq r -> 0 <= c_filter cost -> 1 <= c_period cost -> (forall p, len (period_dates r start p) * c_filter cost <= usize_max) ->
  forall k p emitted, in_calendar p -> MAX_DATE - p < Z.of_nat k ->
  exists out n, forall fuel, (k <= fuel)%nat -> costs (walk r start from to zone gap fuel cost emitted p) (Some out) n.
Proof.
  intros Hf Hc Hp Hfit. induction k as [|k IH]; intros p emitted Hin Hk; [unfold in_calendar in Hin; lia|].
  destruct (costs_candidates p cost Hc (Hfit p)) as [n2 H2]. destruct (costs_scan emitted (period_times r start p)) as ([ [o e'] d'] & n3 & H3).
  assert (Hstep : forall out n4, (forall fuel, (k <= fuel)%nat -> costs
      (if d' then exp_ret (Some o)
       else if match checked_sub_days p 7 with Some p => to <? p | None => false end then exp_ret (Some o)
       else match advance r p with
            | None => exp_ret (Some o)
            | Some next => if next <=? p then exp_err work_exhausted
                           else let! rest := walk r start from to zone gap fuel cost e' next in exp_ret (app o <$> rest)
            end) (Some out) n4) ->
    exists out n, forall fuel, (S k <= fuel)%nat -> costs (walk r start from to zone gap fuel cost emitted p) (Some out) n).
  { intros out n4 Hm. exists out, (c_period cost + (n2 + (n3 + n4))). intros [|fuel] Hfu; [lia|]. cbn [walk].
    eapply costs_bind; [apply costs_work; lia|]. eapply costs_bind; [exact H2|]. eapply costs_bind; [exact H3|]. apply Hm. lia. }
  destruct d'; [eapply Hstep; intros; apply costs_ret|].
  destruct (match checked_sub_days p 7 with Some _ => _ | None => _ end); [eapply Hstep; intros; apply costs_ret|].
  destruct (advance r p) as [q|] eqn:Ea; [|eapply Hstep; intros; apply costs_ret].
  destruct (advance_index r p q Hf Hin Ea) as (Hq & _ & Hlt). destruct (IH q e' Hq ltac:(lia)) as (out & n & Hn).
  rewrite (proj2 (Z.leb_gt q p)) in Hstep by lia. eapply Hstep. intros fuel Hfu. eapply costs_bind; [by apply Hn|]. apply costs_ret.
Qed.

Lemma affords_fuel n b : 0 <= n -> affords n b -> (Z.to_nat n < walk_fuel b)%nat.
Proof. intros Hn (? & _). unfold walk_fuel. lia. Qed.

Lemma affords_weaken n m b : n <= m -> affords m b -> affords n b.
Proof. unfold affords. lia. Qed.

(** A bound on the wall clock does not come back. *)
Lemma local_until_monotone : until_form r <> UUtc \/ zone = None -> until_monotone.
Proof.
  intros Hu a b Hab. unfold past_until. destruct (until r) as [u|]; [|done]. destruct (until_form r) eqn:Ef.
  3: { destruct Hu as [?| ->]; [done|]. simpl. rewrite !Z.ltb_lt. lia. }
  all: destruct (until_bound r zone); [rewrite !Z.ltb_lt; lia|done].
Qed.

(** The list a stepping of the calendar ends with. *)
Definition plain (out : list NaiveDateTime) : Prop :=
  exists N, forall n, (N <= n)%nat -> out = window (limit 0 (List.filter counted (times n (date_of start)))).

Lemma plain_unique o1 o2 : plain o1 -> plain o2 -> o1 = o2.
Proof. intros [N1 H1'] [N2 H2']. rewrite (H1' (N1 + N2)%nat), (H2' (N1 + N2)%nat); [done|lia|lia]. Qed.

(** C15. A rule that repeats by days, weeks, months or years expands to exactly the
    occurrences a plain stepping from its start gives: the candidates of the
    periods in order, from the start on and up to the bound of UNTIL, the first
    COUNT of them, and of those the ones in the window.  Two kinds of rules are
    left out, because for them the early stops do lose occurrences: a yearly rule
    that mixes days of the year with ISO weeks, and one with a bound that, once
    passed, is not passed any more by a later wall time - never the case for a
    bound that is a date or a wall time, or without a zone, but possible for a
    bound in UTC where the clocks skip.  For all others, jumping ahead to the
    window, stopping a week after it, at the first occurrence past the bound or
    when the count is reached changes nothing.  No budget gives another answer, a
    budget that is large enough gives this one, and the calendar's end is the only
    other thing that stops the walk. *)
Theorem expand_rule_exact cost :
  calendar_freq r -> regular r -> until_monotone -> in_calendar (date_of start) -> in_calendar from ->
  (freq r = Weekly -> MIN_DATE + 6 <= date_of start) ->
  cost_of r = Some cost -> (forall p, len (period_dates r start p) * c_filter cost <= usize_max) ->
  exists out, plain out /\
    (forall b out' b', expand_rule r start from to zone gap b = (Ok out', b') -> out' = out) /\
    exists n, forall b, affords n b -> exists b', expand_rule r start from to zone gap b = (Ok out, b').
Proof.
  intros Hf Hr Hu Hs Hw Hm Hc Hfit. pose proof (jump_spec (date_of start) Hf Hs Hw) as Hj. remember (initial_period r (date_of start) from) as p eqn:Ep.
  assert (Hin : in_calendar p) by apply Hj.
  assert (Hok : forall b out b', expand_rule r start from to zone gap b = (Ok out, b') -> plain out).
  { intros b out b' E. destruct (rule_walk b Hf) as (cost' & [(_ & _ & _ & Hiff)|[? _] ]); [|congruence].
    apply Hiff in E. rewrite <- Ep in E. destruct (walk_spec _ _ _ _ _ _ _ Hu Hf Hr Hin ltac:(intros Ew; specialize (Hm Ew); destruct Hj as (_ & Hj & _); specialize (Hj Ew); lia) E) as [N HN].
    destruct (times_from_jump _ p N Hf Hs Hw Hj) as [j Hjn]. exists (j + N)%nat. intros n Hn.
    replace n with (j + (n - j))%nat by lia. rewrite Hjn by lia. symmetry. apply HN. lia. }
  destruct (cost_pos cost Hc) as [Hcp Hcf].
  destruct (costs_walk cost Hf ltac:(lia) Hcp Hfit (Z.to_nat (MAX_DATE - p + 1)) p 0 Hin ltac:(unfold in_calendar in Hin; lia)) as (out & n & Hn).
  assert (Hbig : forall b, affords (n + (MAX_DATE - p + 1)) b -> exists b', expand_rule r start from to zone gap b = (Ok out, b')).
  { unfold in_calendar in Hin. intros b Hb. destruct (rule_walk b Hf) as (cost' & [(Hc' & _ & _ & Hiff)|[? _] ]); [|congruence].
    rewrite Hc in Hc'. injection Hc' as <-. destruct (Hn (walk_fuel b)) as [Hn0 Hrun].
    { destruct (Hn (Z.to_nat (MAX_DATE - p + 1)) ltac:(lia)) as [? _]. assert (Hq : 0 <= n + (MAX_DATE - p + 1)) by lia. pose proof (affords_fuel _ b Hq Hb). lia. }
    assert (Hq : 0 <= MAX_DATE - p + 1) by lia. destruct (Hrun _ b Hq Hb) as (b' & E & _). exists b'. apply Hiff. by rewrite <- Ep. }
  exists out. assert (Hpl : plain out).
  { destruct (Hbig (mkBudget 0 0 0 0 0 0 0 (- (n + (MAX_DATE - p + 1))) 0 (- (n + (MAX_DATE - p + 1))) 0 (- (n + (MAX_DATE - p + 1))))) as [b' E]; [|by apply Hok in E].
    unfold affords, usize_max. simpl. lia. }
  split; [done|]. split; [intros b out' b' E; apply plain_unique; [by eapply Hok|done]|]. by exists (n + (MAX_DATE - p + 1)).
Qed.

End Rule.
End Laws.

(** ** The whole recurrence *)

Section Whole.
Context `{Chrono} `{TzDb}.

(** Every rule's occurrences, the extra dates of the window and, where there is
    neither, the start itself; each once, in order, and none of the excluded. *)
Theorem expansion_is_set rec start zone from to gap b out b' :
  expand_local_with_gap rec start zone from to gap b = (Ok out, b') ->
  from <= to /\ increasing out /\ exists b1 ruled b2, expand_rules (rules rec) start from to zone gap b1 = (Ok ruled, b2) /\
    forall t, t ∈ out <->
      (t ∈ ruled \/ (exists x, x ∈ rdates rec /\ local_of x zone = Some t /\ in_window from to t = true) \/
       (rules rec = [] /\ rdates rec = [] /\ t = start /\ in_window from to start = true)) /\
      forall x, x ∈ exdates rec -> excludes zone gap t x = false.
Proof.
  unfold expand_local_with_gap. destruct (Z.ltb_spec to from); [done|].
  intros (n & b1 & _ & (u & b2 & _ & (ruled & b3 & Er & E)%bind_ok)%bind_ok)%bind_ok. injection E as <- <-.
  split; [done|]. split; [apply StronglySorted_filter, sorted_set_increasing|]. exists b2, ruled, b3. split; [done|]. intros t.
  rewrite elem_of_filter_b, elem_of_sorted_set, !elem_of_app, elem_of_filter_b, list_elem_of_omap.
  assert (Hex : negb (existsb (excludes zone gap t) (exdates rec)) = true <-> forall x, x ∈ exdates rec -> excludes zone gap t x = false).
  { by rewrite negb_true_iff, existsb_none. }
  rewrite Hex. f_equiv. f_equiv. f_equiv; [naive_solver|].
  destruct (rules rec), (rdates rec); cbn [is_nil andb]; try (rewrite elem_of_nil; naive_solver).
  destruct (in_window from to start) eqn:Ew; [rewrite list_elem_of_singleton|rewrite elem_of_nil]; naive_solver.
Qed.

Lemma first_defect_none check i l : first_defect check i l = None <-> forall x, x ∈ l -> check x = None.
Proof.
  revert i. induction l as [|a l IH]; intros i; cbn [first_defect]; [split; [intros _ x Hx; by apply not_elem_of_nil in Hx|done]|].
  destruct (check a) as [d|] eqn:E; [split; [done|intros Hx; rewrite (Hx a) in E; [done|by left] ]|].
  rewrite IH. split; [intros Hl x [->|Hx]%elem_of_cons; auto|intros Hx x ?; apply Hx; by right].
Qed.

(** Values that were accepted keep their meaning: days go with a series of days
    and times with one of times, and reading a value in the series' zone never
    falls back on its digits for want of a zone, given that the series' own zone is
    known. *)
Theorem checked_values_mean rec start zone x :
  check_values rec start = Ok tt -> series_zone start zone <> None -> x ∈ rdates rec ++ exdates rec ->
  (x ∈ rdates rec -> is_all_day x = is_all_day start) /\
  forall local z, x = TZoned local z -> is_empty (trim z) = false -> exists tz, resolve_tzid z = Some tz.
Proof.
  unfold check_values, diagnose_values. intros Hc Hz Hx.
  destruct (first_defect (shape_defect start) 0 (rdates rec)) as [ [? ?]|] eqn:E1; [done|].
  destruct (first_defect (zone_defect start) 0 (rdates rec)) as [ [? ?]|] eqn:E2; [done|].
  destruct (first_defect (zone_defect start) 0 (exdates rec)) as [ [? ?]|] eqn:E3; [done|].
  rewrite first_defect_none in E1, E2, E3. split.
  { intros Hr. specialize (E1 x Hr). unfold shape_defect in E1. destruct (is_all_day start), (is_all_day x); done. }
  intros local z -> Ht. assert (Hd : zone_defect start (TZoned local z) = None) by (apply elem_of_app in Hx as [?|?]; auto).
  unfold zone_defect in Hd. rewrite Ht in Hd. cbn [andb negb] in Hd. destruct (resolve_tzid z) as [tz|] eqn:Er; [by exists tz|].
  rewrite bool_decide_eq_false_2 in Hd by (by intros [? ?]). cbn [negb andb] in Hd.
  destruct start as [d|l0 z0|a]; [done| |done]. destruct (String.eqb_spec z0 z) as [->|]; [|done].
  unfold series_zone in Hz. rewrite Ht in Hz. congruence.
Qed.

(** The halving ends at the first second of another offset, within the window. *)
Lemma bisect_spec fuel zone before lo hi :
  lo < hi -> hi - lo <= 2 ^ Z.of_nat fuel -> offset_at zone lo = before -> offset_at zone hi <> before ->
  let at_ := bisect fuel zone before lo hi in
  lo < at_ <= hi /\ offset_at zone (at_ - 1) = before /\ offset_at zone at_ <> before.
Proof.
  revert lo hi. induction fuel as [|fuel IH]; intros lo hi Hlt Hd Hlo Hhi; cbn [bisect].
  { replace (hi - 1) with lo by (simpl in Hd; lia). simpl. split_and!; [lia|lia|done|done]. }
  rewrite Nat2Z.inj_succ, Z.pow_succ_r in Hd by lia.
  destruct (Z.ltb_spec 1 (hi - lo)); [|replace (hi - 1) with lo by lia; simpl; split_and!; [lia|lia|done|done] ].
  pose proof (Z.div_mod (hi - lo) 2 ltac:(lia)). pose proof (Z.mod_pos_bound (hi - lo) 2 ltac:(lia)).
  set (mid := lo + (hi - lo) / 2) in *. destruct (Z.eqb_spec (offset_at zone mid) before) as [E|E].
  - destruct (IH mid hi ltac:(lia) ltac:(lia) E Hhi) as (? & ? & ?). split_and!; [lia|lia|done|done].
  - destruct (IH lo mid ltac:(lia) ltac:(lia) Hlo E) as (? & ? & ?). split_and!; [lia|lia|done|done].
Qed.

(** A wall time the clocks skipped, under the two policies that keep it: shifted
    forward it is read with the offset in force before the change; the earliest is
    the last second of the old offset. *)
Theorem gap_resolution local zone at_ before :
  from_local_datetime zone local = LNone -> gap_transition local zone = Some (at_, before) ->
  (local - 54000 < at_ <= local + 54000) /\ offset_at zone (at_ - 1) = before /\ offset_at zone at_ <> before /\
  resolve_local local zone ShiftForward = Some (local - before) /\ resolve_local local zone Earliest = Some (at_ - 1) /\
  resolve_local local zone GapSkip = None.
Proof.
  intros Hn Hg. unfold resolve_local. rewrite Hn, Hg. unfold gap_transition, in_range_dt in Hg.
  destruct (_ && _); [|done]. destruct (_ && _); [|done]. destruct (Z.eqb_spec (offset_at zone (local + 54000)) (offset_at zone (local - 54000))); [done|].
  apply (inj Some), pair_equal_spec in Hg as [<- <-]. pose proof (bisect_spec 32 zone _ (local - 54000) (local + 54000) ltac:(lia) ltac:(simpl; lia) eq_refl ltac:(done)) as Hb.
  cbv zeta in Hb. destruct Hb as (Hr & Ho & Hn'). split; [exact Hr|]. split; [exact Ho|]. split; [exact Hn'|]. split_and!; reflexivity.
Qed.

End Whole.

(** ** Instances *)

(** A database with the one zone every platform has. *)
Definition UtcOnly : TzDb := {|
  Tz := unit; UTC := tt; offset_at _ _ := 0; from_local_datetime _ t := LSingle t; tz_by_name _ := None; TZ_VARIANTS := []
|}.

Definition budget_of (n : Z) : ExpansionBudget := mkBudget n n n n n n 0 0 0 0 0 0.

(** Every other week on Tuesday and Sunday, four times. *)
Definition fortnight : RRule :=
  mkRRule Weekly 2 (Some 4) None UUtc [] [] [] [mkByDay None Tue; mkByDay None Sun] [] [] [] [] [] Mon.

Definition at_ymd (y m d : Z) : NaiveDate := default 0 (from_ymd_opt y m d).
Definition nine (d : NaiveDate) : NaiveDateTime := default 0 (and_hms_opt d 9 0 0).

Definition year_of_mondays : RRule :=
  mkRRule Yearly 1 None None UUtc [] [] [] [mkByDay (Some 20) Mon] [] [] [] [] [] Mon.

(** The twentieth Monday of a year is a date of every year, but the expansion takes
    the ordinal within the month of the start and finds none. *)
Example yearly_ordinal_lost : let _ := UtcOnly in
  fst (expand_rule year_of_mondays (nine (at_ymd 2026 5 18)) (at_ymd 2026 1 1) (at_ymd 2028 12 31) None ShiftForward (budget_of 10000)) = Ok [].
Proof. vm_compute. reflexivity. Qed.

Lemma length_omap_le {A B} (f : A -> option B) l : (length (omap f l) <= length l)%nat.
Proof. induction l as [|a l IH]; cbn [omap list_omap length]; [done|]. destruct (f a); cbn [length]; lia. Qed.

Lemma week_len r start p : freq r = Weekly -> len (period_dates r start p) <= 7.
Proof.
  intros E. unfold period_dates, week_dates, len. rewrite E. destruct (is_nil (by_day r)); [simpl; lia|].
  match goal with |- Z.of_nat (length (List.filter ?f (omap ?g ?l))) <= _ =>
    pose proof (List.filter_length_le f (omap g l)); pose proof (length_omap_le g l) end. simpl in *. lia.
Qed.

Lemma expand_rule_exact_witness : let _ := UtcOnly in
  let start := nine (at_ymd 2026 8 4) in let from := at_ymd 2026 8 5 in let to := at_ymd 2026 12 31 in
  fst (expand_rule fortnight start from to None ShiftForward (budget_of 10000)) =
    Ok [nine (at_ymd 2026 8 9); nine (at_ymd 2026 8 18); nine (at_ymd 2026 8 23)] /\
  exists out, plain fortnight start from to None ShiftForward out /\
    (forall b out' b', expand_rule fortnight start from to None ShiftForward b = (Ok out', b') -> out' = out) /\
    exists n, forall b, affords n b -> exists b', expand_rule fortnight start from to None ShiftForward b = (Ok out, b').
Proof.
  cbv zeta. split; [vm_compute; reflexivity|].
  apply (@expand_rule_exact _ _ UtcOnly fortnight _ _ _ None ShiftForward (mkCost 15 3)).
  - right. by left.
  - done.
  - apply local_until_monotone. by right.
  - vm_compute. done.
  - vm_compute. done.
  - intros _. vm_compute. done.
  - vm_compute. done.
  - intros p. pose proof (week_len fortnight (nine (at_ymd 2026 8 4)) p eq_refl). unfold usize_max. cbn [c_filter]. lia.
Defined.

(** ** A bound inside a gap *)

Definition clock (d : NaiveDate) (h mi : Z) : NaiveDateTime := default 0 (and_hms_opt d h mi 0).

(** A zone five hours behind that goes to four on the eighth of March 2026 at
    07:00Z, so its clocks skip from two to three. *)
Definition OneGap : TzDb :=
  let change := clock (at_ymd 2026 3 8) 7 0 in
  {| Tz := unit; UTC := tt;
     offset_at _ i := if i <? change then -18000 else -14400;
     from_local_datetime _ t :=
       if t <? change - 18000 then LSingle (t + 18000) else if t <? change - 14400 then LNone else LSingle (t + 14400);
     tz_by_name _ := None; TZ_VARIANTS := [] |}.

Definition morning (f : Freq) : RRule :=
  mkRRule f 1 None (Some (clock (at_ymd 2026 3 8) 7 15)) UUtc [] [0; 30] [2; 3] [] [] [] [] [] [] Mon.

(** Shifted forward, half past two is an instant after three o'clock.  With a bound
    between the two, the daily rule ends at half past two and loses three o'clock,
    which is within the bound; the same times as a rule of minutes keep it. *)
Example until_in_gap_lost : let _ := OneGap in
  let day := at_ymd 2026 3 8 in
  let run f := fst (expand_rule (morning f) (clock day 2 0) day day (Some tt) ShiftForward (budget_of 100000)) in
  past_until (morning Daily) (Some tt) ShiftForward (clock day 3 0) = false /\
  run Daily = Ok [clock day 2 0] /\ run Minutely = Ok [clock day 2 0; clock day 3 0].
Proof. vm_compute. split_and!; reflexivity. Qed.

(** ** Weeks and days of the year *)

(** The Saturday of week 53 of 2020 is the second of January 2021. *)
Definition weeks_and_days : RRule :=
  mkRRule Yearly 1 None (Some (clock (at_ymd 2021 1 1) 0 0)) UDate [] [] [] [mkByDay None Sat] [] [1] [53] [] [] Mon.

(** The walk meets it in the year 2020, takes it for the end of the rule, and loses
    the first of January 2021, a day of the rule within the bound. *)
Example week_ends_year_days : let _ := UtcOnly in
  let lost := clock (at_ymd 2021 1 1) 9 0 in
  past_until weeks_and_days None ShiftForward lost = false /\
  lost ∈ period_times weeks_and_days (nine (at_ymd 2020 1 1)) (at_ymd 2021 1 1) /\
  fst (expand_rule weeks_and_days (nine (at_ymd 2020 1 1)) (at_ymd 2020 1 1) (at_ymd 2021 12 31) None ShiftForward (budget_of 10000)) =
    Ok [nine (at_ymd 2020 1 1)].
Proof. split_and!; [vm_compute; reflexivity| |vm_compute; reflexivity]. apply list_elem_of_In. vm_compute. tauto. Qed.
