(* ===== verification/ProxyPool.v ===== *)
(** * Rotation among the keys of a provider

    thegn-core/src/proxy/creds.rs: a provider with several keys is several lanes
    that share one pool, and the pool orders them anew for each request.  The
    order is always a rotation, so every lane is tried at most once, and the
    weighted strategy is the smooth weighted round robin, which gives every lane
    exactly its share.  The cursor and the counters are the pool's state; both are
    behind a lock or an atomic, so a call to [order] is one step. *)
From Stdlib Require Import Ascii String.
From S2P Require Import Prelude RustStr RustText.
Local Open Scope string_scope.
Local Open Scope list_scope.

Inductive KeyStrategy := RoundRobin | Failover | KeyRandom | Weighted.

#[global] Instance KeyStrategy_eq_dec : EqDecision KeyStrategy.
Proof. solve_decision. Defined.

Definition strategy_str (s : KeyStrategy) : string :=
  match s with RoundRobin => "roundrobin" | Failover => "failover" | KeyRandom => "random" | Weighted => "weighted" end.

Section Parse.
(** [str::to_lowercase], which is Unicode's. *)
Context (to_lowercase : string -> string).

Definition strategy_parse (s : string) : KeyStrategy :=
  let w := to_lowercase (trim s) in
  if String.eqb w "failover" || String.eqb w "sequential" then Failover
  else if String.eqb w "random" then KeyRandom
  else if String.eqb w "weighted" || String.eqb w "weight" then Weighted
  else RoundRobin.
End Parse.

Record CredPool := mkPool { strategy : KeyStrategy; weights : list N; cursor : N; swrr : list Z }.

Definition pool_new (s : KeyStrategy) (ws : list N) : CredPool := mkPool s ws 0 [].

Definition natural_order (n : nat) : list nat := seq 0 n.
Definition rotated (n start : nat) : list nat := map (fun i => (start + i) mod n) (seq 0 n).

(** A missing or zero weight is one. *)
Definition lane_weight (ws : list N) (i : nat) : Z :=
  match ws !! i with Some w => if (0 <? w)%N then Z.of_N w else 1%Z | None => 1%Z end.

Definition counter (l : list Z) (i : nat) : Z := default 0%Z (l !! i).

(** The loop over the lanes: counters, their total weight and the best so far. *)
Fixpoint weigh (ws : list N) (lanes : list nat) (l : list Z) (total : Z) (best : nat) : list Z * Z * nat :=
  match lanes with
  | [] => (l, total, best)
  | i :: lanes =>
      let w := lane_weight ws i in
      let l := alter (Z.add w) i l in
      weigh ws lanes l (total + w)%Z (if (counter l best <? counter l i)%Z then i else best)
  end.

Definition weighted_start (p : CredPool) (n : nat) : nat * CredPool :=
  let l := if (length (swrr p) =? n)%nat then swrr p else replicate n 0%Z in
  let '(l, total, best) := weigh (weights p) (seq 0 n) l 0 0 in
  (best, mkPool (strategy p) (weights p) (cursor p) (alter (fun x => x - total)%Z best l)).

(** [fetch_add] wraps. *)
Definition next_cursor (p : CredPool) : CredPool :=
  mkPool (strategy p) (weights p) ((cursor p + 1) mod (u64_max + 1))%N (swrr p).

Definition pool_order (p : CredPool) (n rand_start : nat) : list nat * CredPool :=
  if (n <=? 1)%nat then (seq 0 n, p)
  else match strategy p with
       | Failover => (natural_order n, p)
       | KeyRandom => (rotated n (rand_start mod n), p)
       | Weighted => let '(start, p) := weighted_start p n in (rotated n start, p)
       | RoundRobin => (rotated n (N.to_nat (cursor p) mod n), next_cursor p)
       end.

(** The name up to a key suffix. *)
Fixpoint provider_base (name : string) : string :=
  match name with
  | EmptyString => EmptyString
  | String a rest => if Ascii.eqb a "#" then EmptyString else String a (provider_base rest)
  end.

Definition is_key_separator (a : ascii) : bool :=
  existsb (Ascii.eqb a) ["010"; "013"; "009"; " "; ","; ";"]%char.

(** [str::split] on a set of characters. *)
Fixpoint split_on (sep : ascii -> bool) (s : string) : list string :=
  match s with
  | EmptyString => [EmptyString]
  | String a s =>
      if sep a then EmptyString :: split_on sep s
      else match split_on sep s with w :: ws => String a w :: ws | [] => [String a EmptyString] end
  end.

Fixpoint keep_new (seen : list string) (ks : list string) : list string :=
  match ks with
  | [] => []
  | k :: ks =>
      let k := trim k in
      if is_empty k || bool_decide (k ∈ seen) then keep_new seen ks else k :: keep_new (k :: seen) ks
  end.

Definition split_keys (raw : string) : list string := keep_new [] (split_on is_key_separator raw).

(** ** Orders are permutations *)

Lemma rotated_perm n start : (start < n)%nat -> rotated n start ≡ₚ seq 0 n.
Proof.
  intros Hs. assert (rotated n start = seq start (n - start) ++ seq 0 start) as ->.
  { unfold rotated. apply list_eq. intros i. destruct (decide (i < n)%nat) as [Hi|Hi].
    - rewrite list_lookup_fmap, lookup_seq_lt by done. cbn [fmap option_fmap option_map]. destruct (decide (i < n - start)%nat).
      + rewrite lookup_app_l by (by rewrite length_seq). rewrite lookup_seq_lt by done. f_equal. apply Nat.mod_small. lia.
      + rewrite lookup_app_r by (rewrite length_seq; lia). rewrite length_seq, lookup_seq_lt by lia. f_equal.
        replace (start + (0 + i))%nat with (i - (n - start) + 1 * n)%nat by lia. rewrite Nat.Div0.mod_add. apply Nat.mod_small. lia.
    - rewrite !lookup_ge_None_2; [done|rewrite length_app, !length_seq; lia|rewrite length_fmap, length_seq; lia]. }
  rewrite Permutation_app_comm. replace n with (start + (n - start))%nat at 2 by lia. by rewrite seq_app.
Qed.

Definition total_weight (ws : list N) (n : nat) : Z := foldr Z.add 0%Z (map (lane_weight ws) (seq 0 n)).

Lemma lane_weight_pos ws i : (1 <= lane_weight ws i)%Z.
Proof. unfold lane_weight. destruct (ws !! i) as [w|]; [|lia]. destruct (N.ltb_spec 0 w); lia. Qed.

Lemma counter_alter f l i j : (j < length l)%nat -> counter (alter f j l) i = if decide (i = j) then f (counter l j) else counter l i.
Proof.
  intros Hj. unfold counter. destruct (decide (i = j)) as [->|Hne]; [|by rewrite list_lookup_alter_ne].
  rewrite list_lookup_alter_eq. destruct (l !! j) eqn:E; [done|]. apply lookup_ge_None in E. lia.
Qed.

Lemma foldr_add_app (l1 l2 : list Z) : foldr Z.add 0%Z (l1 ++ l2) = (foldr Z.add 0 l1 + foldr Z.add 0 l2)%Z.
Proof. induction l1 as [|x l1 IH]; simpl; [done|]. rewrite IH. lia. Qed.

Lemma weigh_spec ws m k l total best l' total' best' :
  (k + m <= length l)%nat -> (best < k \/ k = 0 /\ best = 0)%nat -> (forall i, (i < k)%nat -> counter l i <= counter l best)%Z ->
  weigh ws (seq k m) l total best = (l', total', best') ->
  length l' = length l /\ total' = (total + foldr Z.add 0 (map (lane_weight ws) (seq k m)))%Z /\
  (best' < k + m \/ k + m = 0 /\ best' = 0)%nat /\
  (forall i, counter l' i = counter l i + (if decide (k <= i < k + m)%nat then lane_weight ws i else 0))%Z /\
  (forall i, (i < k + m)%nat -> counter l' i <= counter l' best')%Z.
Proof.
  revert k l total best. induction m as [|m IH]; intros k l total best Hk Hb Hmax; cbn [seq weigh].
  { intros [= <- <- <-]. split_and!; [done|simpl; lia|lia| |].
    - intros i. rewrite decide_False by lia. lia.
    - intros i Hi. apply Hmax. lia. }
  set (l1 := alter (Z.add (lane_weight ws k)) k l). intros E.
  assert (Hc : forall i, counter l1 i = if decide (i = k) then (lane_weight ws k + counter l k)%Z else counter l i) by (intros; apply counter_alter; lia).
  apply IH in E; [|unfold l1; rewrite length_alter; lia|destruct (_ <? _)%Z eqn:E1; [lia|]|].
  - destruct E as (Hl & Ht & Hb' & Hc' & Hm'). unfold l1 in Hl. rewrite length_alter in Hl. split_and!; [done|simpl; lia|lia| |].
    + intros i. rewrite Hc', Hc. destruct (decide (i = k)) as [->|]; [rewrite decide_False, decide_True by lia; lia|].
      destruct (decide (S k <= i < S k + m)%nat), (decide (k <= i < k + S m)%nat); lia.
    + intros i Hi. apply Hm'. lia.
  - destruct Hb as [?|[-> ->] ]; [lia|]. lia.
  - intros i Hi. pose proof (Hc i) as Hci. destruct (Z.ltb_spec (counter l1 best) (counter l1 k)) as [Hlt|Hge].
    + destruct (decide (i = k)) as [->|]; [lia|]. specialize (Hmax i ltac:(lia)). rewrite (Hc best) in Hlt. destruct (decide (best = k)); lia.
    + destruct (decide (i = k)) as [->|]; [lia|]. specialize (Hmax i ltac:(lia)). rewrite (Hc best) in *. destruct (decide (best = k)); lia.
Qed.

(** The first choices of [k] requests in a row. *)
Fixpoint picks (k : nat) (p : CredPool) (n : nat) : list nat * CredPool :=
  match k with
  | O => ([], p)
  | S k => let '(ps, p) := picks k p n in let '(i, p) := weighted_start p n in (ps ++ [i], p)
  end.

Definition picked (ps : list nat) (i : nat) : Z := Z.of_nat (count_occ Nat.eq_dec ps i).

Lemma picked_app ps qs i : picked (ps ++ qs) i = (picked ps i + picked qs i)%Z.
Proof. unfold picked. rewrite count_occ_app. lia. Qed.

Definition sum_over (n : nat) (f : nat -> Z) : Z := foldr Z.add 0%Z (map f (seq 0 n)).

Lemma sum_over_S n f : sum_over (S n) f = (sum_over n f + f n)%Z.
Proof. unfold sum_over. rewrite seq_S, map_app, foldr_add_app. simpl. lia. Qed.

Lemma sum_over_ext n f g : (forall i, (i < n)%nat -> f i = g i) -> sum_over n f = sum_over n g.
Proof. induction n as [|n IH]; intros H; [done|]. rewrite !sum_over_S, IH by (intros; apply H; lia). rewrite (H n) by lia. done. Qed.

Lemma sum_over_lin n (a b : Z) f g : (sum_over n (fun i => a * f i - b * g i) = a * sum_over n f - b * sum_over n g)%Z.
Proof. induction n as [|n IH]; [unfold sum_over; simpl; lia|]. rewrite !sum_over_S, IH. lia. Qed.

Lemma sum_over_le n f g : (forall i, (i < n)%nat -> f i <= g i)%Z -> (sum_over n f <= sum_over n g)%Z.
Proof. induction n as [|n IH]; intros H; [done|]. rewrite !sum_over_S. specialize (IH ltac:(intros; apply H; lia)). specialize (H n ltac:(lia)). lia. Qed.

(** A sum that is reached by smaller parts is reached part by part. *)
Lemma sum_over_tight n f g :
  (forall i, (i < n)%nat -> f i <= g i)%Z -> sum_over n f = sum_over n g -> forall i, (i < n)%nat -> f i = g i.
Proof.
  induction n as [|n IH]; intros H E i Hi; [lia|]. rewrite !sum_over_S in E.
  pose proof (sum_over_le n f g ltac:(intros; apply H; lia)). pose proof (H n ltac:(lia)).
  destruct (decide (i = n)) as [->|]; [lia|]. apply IH; [intros; apply H; lia|lia|lia].
Qed.

Lemma sum_picked ps n : Forall (fun i => (i < n)%nat) ps -> sum_over n (picked ps) = Z.of_nat (length ps).
Proof.
  induction 1 as [|x ps Hx Hps IH]; [unfold picked; simpl; induction n as [|n IH]; [done|by rewrite sum_over_S, IH]|].
  rewrite (sum_over_ext n _ (fun i => picked ps i + (if decide (i = x) then 1 else 0))%Z).
  2: { intros i Hi. unfold picked. simpl. destruct (Nat.eq_dec x i), (decide (i = x)); lia. }
  assert (Hsum : forall m, sum_over m (fun i => picked ps i + (if decide (i = x) then 1 else 0))%Z = (sum_over m (picked ps) + (if decide (x < m)%nat then 1 else 0))%Z).
  { induction m as [|m IHm]; [done|]. rewrite !sum_over_S, IHm. destruct (decide (m = x)), (decide (x < m)%nat), (decide (x < S m)%nat); lia. }
  rewrite Hsum, IH, decide_True by done. simpl. lia.
Qed.

(** Counters that were never used or are back where they began. *)
Definition fresh (p : CredPool) (n : nat) : Prop := length (swrr p) <> n \/ forall i, counter (swrr p) i = 0%Z.

Lemma total_weight_pos ws n : (0 < n)%nat -> (0 < total_weight ws n)%Z.
Proof.
  intros Hn. assert (forall m, Z.of_nat m <= sum_over m (lane_weight ws))%Z as H.
  { induction m as [|m IH]; [done|]. rewrite sum_over_S. pose proof (lane_weight_pos ws m). lia. }
  specialize (H n). unfold total_weight, sum_over in *. lia.
Qed.

(** One pick: the counters grow by the weights, and the lane with the most pays
    the whole weight. *)
Lemma weighted_start_spec p n i q :
  (0 < n)%nat -> weighted_start p n = (i, q) ->
  let before j := (if (length (swrr p) =? n)%nat then counter (swrr p) j else 0)%Z in
  let due j := (before j + lane_weight (weights p) j)%Z in
  (i < n)%nat /\ weights q = weights p /\ length (swrr q) = n /\ (forall j, (j < n)%nat -> due j <= due i)%Z /\
  forall j, (j < n)%nat -> counter (swrr q) j = (due j - (if decide (j = i) then total_weight (weights p) n else 0))%Z.
Proof.
  intros Hn. unfold weighted_start. set (l := if (length (swrr p) =? n)%nat then swrr p else replicate n 0%Z).
  assert (Hl : length l = n) by (unfold l; destruct (Nat.eqb_spec (length (swrr p)) n); [done|apply length_replicate]).
  assert (Hbefore : forall j, (j < n)%nat -> counter l j = (if (length (swrr p) =? n)%nat then counter (swrr p) j else 0)%Z).
  { intros j Hj. unfold l. destruct (_ =? n)%nat; [done|]. unfold counter. by rewrite lookup_replicate_2. }
  destruct (weigh _ _ _ _ _) as [ [l' total] best] eqn:E. intros [= <- <-]. apply weigh_spec in E; [|lia|lia|lia].
  destruct E as (Hl' & Ht & Hb & Hc & Hm). cbn [Nat.add] in *.
  assert (Hdue : forall j, (j < n)%nat -> counter l' j = ((if (length (swrr p) =? n)%nat then counter (swrr p) j else 0) + lane_weight (weights p) j)%Z).
  { intros j Hj. rewrite Hc, decide_True by lia. by rewrite Hbefore. }
  split_and!; [lia|done|cbn [swrr]; rewrite length_alter; lia| |].
  - intros j Hj. rewrite <- !Hdue by lia. by apply Hm.
  - intros j Hj. cbn [swrr]. rewrite counter_alter by lia. rewrite <- Hdue by lia. unfold total_weight. rewrite Ht.
    destruct (decide (j = best)) as [->|]; lia.
Qed.

(** After [k] picks every counter is the share that is due less what was taken,
    and never short of it by a whole round. *)
Lemma picks_inv p n k ps q :
  (0 < n)%nat -> fresh p n -> picks k p n = (ps, q) ->
  length ps = k /\ Forall (fun i => (i < n)%nat) ps /\ weights q = weights p /\
  (k <> 0%nat -> length (swrr q) = n) /\ (k = 0%nat -> q = p) /\
  forall i, (i < n)%nat ->
    (picked ps i * total_weight (weights p) n < Z.of_nat k * lane_weight (weights p) i + total_weight (weights p) n)%Z /\
    (k <> 0%nat -> counter (swrr q) i = Z.of_nat k * lane_weight (weights p) i - total_weight (weights p) n * picked ps i)%Z.
Proof.
  intros Hn Hfresh. pose proof (total_weight_pos (weights p) n Hn) as HW. set (W := total_weight (weights p) n) in *.
  revert ps q. induction k as [|k IH]; intros ps q; cbn [picks].
  { intros [= <- <-]. split_and!; [done|constructor|done|done|done|]. intros i Hi. unfold picked. simpl. lia. }
  destruct (picks k p n) as [ps0 q0] eqn:E0. destruct (weighted_start q0 n) as [i q1] eqn:E1. intros [= <- <-].
  destruct (IH _ _ eq_refl) as (Hlen & Hall & Hw & Hl & Hz & Hc). apply weighted_start_spec in E1; [|done]. cbv zeta in E1.
  destruct E1 as (Hi & Hw1 & Hl1 & Hmax & Hc1). rewrite Hw in *. fold W in Hc1.
  assert (Hbefore : forall j, (j < n)%nat -> (if (length (swrr q0) =? n)%nat then counter (swrr q0) j else 0)%Z = (Z.of_nat k * lane_weight (weights p) j - W * picked ps0 j)%Z).
  { intros j Hj. destruct (decide (k = 0%nat)) as [->|Hk]; [|rewrite Hl, Nat.eqb_refl by done; by apply Hc].
    rewrite Hz by done. destruct ps0; [|done]. unfold picked. simpl. destruct Hfresh as [Hne|Hf]; [rewrite (proj2 (Nat.eqb_neq _ _)) by done; lia|].
    rewrite Hf. destruct (length (swrr p) =? n)%nat; lia. }
  assert (Hpos : (0 < Z.of_nat (S k) * lane_weight (weights p) i - W * picked ps0 i)%Z).
  { assert (Hs : sum_over n (fun j => Z.of_nat (S k) * lane_weight (weights p) j - W * picked ps0 j)%Z = W).
    { rewrite sum_over_lin, sum_picked, Hlen by done. unfold sum_over. fold (total_weight (weights p) n). fold W. lia. }
    apply Znot_ge_lt. intros Hge. pose proof (sum_over_le n (fun j => Z.of_nat (S k) * lane_weight (weights p) j - W * picked ps0 j)%Z (fun _ => 0%Z)) as Hle.
    rewrite Hs in Hle. assert (sum_over n (fun _ => 0%Z) = 0%Z) as H0 by (clear; induction n as [|n IH]; [done|by rewrite sum_over_S, IH]).
    rewrite H0 in Hle. assert (W <= 0)%Z; [|lia]. apply Hle. intros j Hj. specialize (Hmax j Hj). rewrite !Hbefore in Hmax by done. lia. }
  split_and!; [rewrite length_app; simpl; lia|apply Forall_app; split; [done|by repeat constructor]|congruence|done|done|].
  intros j Hj. rewrite picked_app. assert (Hone : picked [i] j = if decide (j = i) then 1%Z else 0%Z).
  { unfold picked. simpl. destruct (Nat.eq_dec i j), (decide (j = i)); try lia; congruence. }
  rewrite Hone. specialize (Hc j Hj). rewrite Hc1, Hbefore by done. destruct (decide (j = i)) as [->|]; [split; lia|]. split; [|lia].
  pose proof (lane_weight_pos (weights p) j). lia.
Qed.

(** C27. A pool whose keys have weights spreads the first choices exactly by them:
    of any run of requests that begins with unused counters, no key is ever a whole
    pick ahead of its share, and when the run is as long as the weights together,
    every key was first exactly as often as its weight says and the counters are
    back where they began, so the pattern repeats. *)
Theorem weighted_fair p n k ps q :
  (0 < n)%nat -> fresh p n -> picks k p n = (ps, q) ->
  (forall i, (i < n)%nat ->
     picked ps i * total_weight (weights p) n < Z.of_nat k * lane_weight (weights p) i + total_weight (weights p) n)%Z /\
  (Z.of_nat k = total_weight (weights p) n ->
     (forall i, (i < n)%nat -> picked ps i = lane_weight (weights p) i) /\ fresh q n).
Proof.
  intros Hn Hf Hp. pose proof (total_weight_pos (weights p) n Hn) as HW. apply picks_inv in Hp as (Hlen & Hall & Hw & Hl & _ & Hc); [|done|done].
  split; [intros i Hi; by apply Hc|]. intros Hk.
  assert (Heq : forall i, (i < n)%nat -> picked ps i = lane_weight (weights p) i).
  { apply sum_over_tight; [|rewrite sum_picked, Hlen by done; exact Hk]. intros i Hi. destruct (Hc i Hi) as [Hlt _]. rewrite Hk in Hlt. nia. }
  split; [done|]. right. intros i. destruct (decide (i < n)%nat) as [Hi|Hi].
  - destruct (Hc i Hi) as [_ Hci]. rewrite Hci, Heq, Hk by (done || lia). lia.
  - unfold counter. rewrite lookup_ge_None_2; [done|]. rewrite Hl by lia. lia.
Qed.

Lemma weighted_fair_witness : let p := pool_new Weighted [5; 1; 1]%N in
  fst (picks 7 p 3) = [0; 0; 1; 0; 2; 0; 0]%nat /\
  (forall i, (i < 3)%nat -> picked (fst (picks 7 p 3)) i * total_weight (weights p) 3 < 7 * lane_weight (weights p) i + total_weight (weights p) 3)%Z /\
  (7 = total_weight (weights p) 3 ->
     (forall i, (i < 3)%nat -> picked (fst (picks 7 p 3)) i = lane_weight (weights p) i) /\ fresh (snd (picks 7 p 3)) 3)%Z.
Proof.
  cbv zeta. split; [vm_compute; reflexivity|].
  apply (weighted_fair (pool_new Weighted [5; 1; 1]%N) 3 7); [lia|left; done|apply surjective_pairing].
Defined.

(** The order of a pool's lanes names each of them once. *)
Lemma pool_order_perm p n r l q : pool_order p n r = (l, q) -> l ≡ₚ seq 0 n.
Proof.
  unfold pool_order. destruct (Nat.leb_spec n 1); [by intros [= <- <-]|]. destruct (strategy p).
  - intros [= <- <-]. apply rotated_perm. apply Nat.mod_upper_bound. lia.
  - by intros [= <- <-].
  - intros [= <- <-]. apply rotated_perm. apply Nat.mod_upper_bound. lia.
  - destruct (weighted_start p n) as [i q'] eqn:E. intros [= <- <-]. apply rotated_perm. apply weighted_start_spec in E; [|lia]. apply E.
Qed.
