(* ===== verification/ProxyLimit.v ===== *)
(** * Limits of the model proxy

    thegn-core/src/proxy/ratelimit.rs (token buckets and the count of requests in
    flight), thegn-core/src/backoff.rs and thegn-proxy/src/health.rs (how long a
    lane that failed is left alone).  Instants and durations are nanoseconds, wall
    clock times milliseconds.  Every operation runs under its own lock and is one
    step. *)
From Stdlib Require Import Ascii String SpecFloat.
From S2P Require Import Prelude RustFloat RustStr RustText.
Local Open Scope string_scope.
Local Open Scope list_scope.
Local Open Scope Z_scope.

(** ** Durations *)

Definition nanos_per_sec : Z := 1000000000.
Definition nanos_per_milli : Z := 1000000.
Definition DURATION_MAX : Z := 18446744073709551616 * nanos_per_sec - 1.

(** [Duration::as_secs_f64]. *)
Definition as_secs_f64 (d : Z) : f64 :=
  F64.add (F64.of_Z (d / nanos_per_sec)) (F64.div (F64.of_Z (d mod nanos_per_sec)) (F64.of_Z nanos_per_sec)).

(** The nearest integer of a quotient, ties to even. *)
Definition div_half_even (a b : Z) : Z :=
  let q := a / b in
  match Z.compare (2 * (a mod b)) b with Lt => q | Gt => q + 1 | Eq => if Z.even q then q else q + 1 end.

(** [Duration::try_from_secs_f64]: to the nearest nanosecond; none for what is
    negative, not finite or too long. *)
Definition try_from_secs_f64 (f : f64) : option Z :=
  match f with
  | S754_zero _ => Some 0
  | S754_finite false m e =>
      let n := Zpos m * nanos_per_sec in
      let d := if 0 <=? e then n * 2 ^ e else div_half_even n (2 ^ (- e)) in
      if d <=? DURATION_MAX then Some d else None
  | _ => None
  end.

(** [now.saturating_duration_since(last)]. *)
Definition since (now start : Z) : Z := Z.max 0 (now - start).

(** ** Token buckets *)

Definition MAX_RATE : f64 := F64.of_Z 1000000000.
Definition MIN_RPM : f64 := F64.lit 1 1000000.
Definition sixty : f64 := F64.of_Z 60.

(** [(lo..=hi).contains(&x)]. *)
Definition in_closed (lo hi x : f64) : bool := SFleb lo x && SFleb x hi.

Record TokenBucket := mkBucket { rps : f64; burst : f64; tokens : f64; b_last : Z }.

Definition bucket_new (r b : f64) (now : Z) : option TokenBucket :=
  if negb (in_closed (F64.div MIN_RPM sixty) MAX_RATE r) || negb (is_finite b) || negb (in_closed F64.one MAX_RATE b)
  then None else Some (mkBucket r b b now).

Definition refill (b : TokenBucket) (now : Z) : TokenBucket :=
  let elapsed := as_secs_f64 (since now (b_last b)) in
  if SFltb F64.zero elapsed
  then mkBucket (rps b) (burst b) (fmin (F64.add (tokens b) (F64.mul elapsed (rps b))) (burst b)) now
  else b.

Definition set_tokens (b : TokenBucket) (t : f64) : TokenBucket := mkBucket (rps b) (burst b) t (b_last b).

Definition try_take (b : TokenBucket) (now : Z) : bool * TokenBucket :=
  let b := refill b now in
  if SFleb F64.one (tokens b) then (true, set_tokens b (F64.sub (tokens b) F64.one)) else (false, b).

Definition bucket_refund (b : TokenBucket) (now : Z) : TokenBucket :=
  let b := refill b now in set_tokens b (fmin (F64.add (tokens b) F64.one) (burst b)).

Definition bucket_reserve (b : TokenBucket) (now : Z) : Z * TokenBucket :=
  let b := refill b now in
  if SFleb F64.one (tokens b) then (0, b)
  else
    let secs := F64.div (F64.sub F64.one (tokens b)) (rps b) in
    (Z.max (default DURATION_MAX (try_from_secs_f64 (fmax secs F64.zero))) nanos_per_milli, b).

Record RatePolicy := mkRatePolicy { rpm : f64; p_burst : f64 }.

Definition policy_rps (p : RatePolicy) : f64 := F64.div (rpm p) sixty.

Definition policy_valid (p : RatePolicy) : bool :=
  is_finite (rpm p) && in_closed MIN_RPM MAX_RATE (rpm p) && is_finite (p_burst p) && in_closed F64.one MAX_RATE (p_burst p) &&
  is_finite (policy_rps p) && SFltb F64.zero (policy_rps p).

Section Policy.
(** [str::parse::<f64>]. *)
Context (parse_f64 : string -> option f64).

Definition parse_rate_policy (s : string) : option RatePolicy :=
  let s := trim s in
  if is_empty s then None
  else
    let '(rpm_str, burst_str) := match split_once ":" s with Some (r, b) => (r, Some b) | None => (s, None) end in
    match parse_f64 (trim rpm_str) with
    | None => None
    | Some r =>
        if negb (is_finite r) || negb (in_closed MIN_RPM MAX_RATE r) then None
        else match burst_str with
             | None => Some (mkRatePolicy r (F64.of_Z 5))
             | Some b =>
                 match parse_f64 (trim b) with
                 | None => None
                 | Some b => if negb (is_finite b) || negb (in_closed F64.one MAX_RATE b) then None else Some (mkRatePolicy r b)
                 end
             end
    end.
End Policy.

(** ** The limiter *)

Abbreviation Buckets := (gmap string TokenBucket).

(** The bucket of an identity, made on first use; no bucket is the panic of the
    [expect]. *)
Definition bucket_of (bs : Buckets) (identity : string) (p : RatePolicy) (now : Z) : option TokenBucket :=
  match bs !! identity with Some b => Some b | None => bucket_new (policy_rps p) (p_burst p) now end.

Definition limiter_try_acquire (bs : Buckets) (identity : string) (p : RatePolicy) (now : Z) : option (bool * Buckets) :=
  if negb (policy_valid p) then Some (false, bs)
  else b ← bucket_of bs identity p now; let '(ok, b) := try_take b now in Some (ok, <[identity := b]> bs).

Definition limiter_reserve (bs : Buckets) (identity : string) (p : RatePolicy) (now : Z) : option (Z * Buckets) :=
  if negb (policy_valid p) then Some (0, bs)
  else b ← bucket_of bs identity p now; let '(d, b) := bucket_reserve b now in Some (d, <[identity := b]> bs).

Definition limiter_refund (bs : Buckets) (identity : string) (now : Z) : Buckets :=
  alter (fun b => bucket_refund b now) identity bs.

(** ** Requests in flight *)

Abbreviation Inflight := (gmap string N).

(** The permit is the identity it was given for. *)
Definition inflight_try_acquire (m : Inflight) (identity : string) (cap : N) : option string * Inflight :=
  let count := default 0%N (m !! identity) in
  if ((0 <? cap) && (cap <=? count) || (u32_max <=? count))%N then (None, <[identity := count]> m)
  else (Some identity, <[identity := (count + 1)%N]> m).

Definition inflight_get (m : Inflight) (identity : string) : N := default 0%N (m !! identity).

(** Dropping a permit. *)
Definition inflight_drop (m : Inflight) (permit : string) : Inflight := alter N.pred permit m.

(** ** Backoff *)

Inductive ExhaustionKind := KUnknown | KRateLimit | KPayment | KAuth | KServerError | KClientError.

#[global] Instance ExhaustionKind_eq_dec : EqDecision ExhaustionKind.
Proof. solve_decision. Defined.

Definition is_stale (k : ExhaustionKind) : bool := match k with KAuth | KClientError => true | _ => false end.

Section Classify.
Context (to_lowercase : string -> string).

Definition classify_exhaustion (reason : string) (status_code : Z) : ExhaustionKind :=
  let r := to_lowercase reason in
  let has := existsb (fun n => contains n r) in
  if has ["401"; "403"; "unauthorized"; "forbidden"; "invalid api key"] then KAuth
  else if has ["402"; "payment"; "credit"; "billing"; "usage limit"; "insufficient_quota"] then KPayment
  else if has ["429"; "rate limit"; "rate_limit"; "quota"] then KRateLimit
  else if has ["500"; "501"; "502"; "503"; "outage"; "upstream"] then KServerError
  else if has ["400"; "no key"; "no api key"; "not found"; "not_supported"; "unsupported"] then KClientError
  else if (status_code =? 401) || (status_code =? 403) then KAuth
  else if status_code =? 402 then KPayment
  else if status_code =? 429 then KRateLimit
  else if (500 <=? status_code) && (status_code <=? 503) then KServerError
  else if status_code =? 400 then KClientError
  else KUnknown.
End Classify.

Record BackoffConfig := mkBackoff { bo_initial : Z; bo_multiplier : f64; bo_ceiling : Z; bo_jitter : f64 }.

Definition secs (n : Z) : Z := n * nanos_per_sec.

Definition RATE_LIMIT_BACKOFF : BackoffConfig := mkBackoff (secs 30) (F64.of_Z 2) (secs 300) (F64.lit 2 10).
Definition PAYMENT_BACKOFF : BackoffConfig := mkBackoff (secs 21600) F64.one (secs 86400) (F64.lit 1 10).
Definition SERVER_ERROR_BACKOFF : BackoffConfig := mkBackoff (secs 10) (F64.lit 15 10) (secs 120) (F64.lit 3 10).
Definition AUTH_BACKOFF : BackoffConfig := mkBackoff (secs 600) F64.one (secs 1800) (F64.lit 1 10).
Definition CLIENT_ERROR_BACKOFF : BackoffConfig := mkBackoff (secs 300) F64.one (secs 900) F64.zero.

Definition backoff_config_for (k : ExhaustionKind) : BackoffConfig :=
  match k with
  | KRateLimit | KUnknown => RATE_LIMIT_BACKOFF
  | KPayment => PAYMENT_BACKOFF
  | KAuth => AUTH_BACKOFF
  | KServerError => SERVER_ERROR_BACKOFF
  | KClientError => CLIENT_ERROR_BACKOFF
  end.

(** The multiplication loop, which stops at the ceiling. *)
Fixpoint ramp_loop (times : nat) (nanos mult ceiling : f64) : f64 :=
  match times with
  | O => nanos
  | S times => let nanos := F64.mul nanos mult in if SFltb ceiling nanos then ceiling else ramp_loop times nanos mult ceiling
  end.

Definition duration_from_nanos_wide (n : Z) : Z := Z.min n DURATION_MAX.

(** [f as u128] of a number that is finite and not negative; the callers look. *)
Definition f64_as_u128 (f : f64) : Z := Z.min (Z.max 0 (float_trunc f)) (2 ^ 128 - 1).

Definition backoff_ramp (c : BackoffConfig) (failures : N) : Z :=
  if (3 <=? failures)%N then bo_ceiling c
  else
    let nanos := ramp_loop (N.to_nat failures) (F64.of_Z (bo_initial c)) (bo_multiplier c) (F64.of_Z (bo_ceiling c)) in
    if negb (is_finite nanos) || SFltb nanos F64.zero then bo_ceiling c
    else duration_from_nanos_wide (Z.min (f64_as_u128 nanos) (bo_ceiling c)).

Definition apply_jitter (backoff : Z) (factor : f64) (jitter_ns : Z) : Z :=
  if negb (is_finite factor) || SFleb factor F64.zero then backoff
  else
    let jitter_max := float_trunc (F64.mul (F64.of_Z backoff) (fmin factor F64.one)) in
    if jitter_max <=? 0 then backoff
    else
      let j := jitter_ns mod (jitter_max * 2) - jitter_max in
      duration_from_nanos_wide (Z.max (backoff + j) nanos_per_sec).

Definition backoff_from_config_jittered (c : BackoffConfig) (failures : N) (jitter_ns : Z) : Z :=
  if (3 <=? failures)%N then bo_ceiling c else apply_jitter (backoff_ramp c failures) (bo_jitter c) jitter_ns.

(** ** Health *)

Record Marker := mkMarker { m_reason : string; next_probe_ms : Z; consecutive_failures : Z }.

Abbreviation Markers := (gmap string Marker).

Definition health_key (backend model : string) : string := (backend ++ ":" ++ model)%string.

Definition is_exhausted (h : Markers) (backend model : string) (now : Z) : bool :=
  match h !! health_key backend model with Some m => now <? next_probe_ms m | None => false end.

Definition i64_sat_add (a b : Z) : Z := Z.max i64_min (Z.min i64_max (a + b)).
Definition saturating_i64 (n : Z) : Z := Z.min n i64_max.
Definition as_millis (d : Z) : Z := d / nanos_per_milli.

(** How many failures came before this one in a row. *)
Definition next_consecutive (h : Markers) (k : string) : Z :=
  match h !! k with Some m => consecutive_failures m + 1 | None => 0 end.

(** [consecutive as u32]. *)
Definition as_u32 (z : Z) : N := Z.to_N (z mod 4294967296).

Section Health.
Context (to_lowercase : string -> string).

Definition mark_exhausted (h : Markers) (backend model reason : string) (until : option Z) (now jitter_ns : Z) : Markers :=
  let k := health_key backend model in
  let consecutive := next_consecutive h k in
  let next :=
    match until with
    | Some t => t
    | None =>
        let c := backoff_config_for (classify_exhaustion to_lowercase reason 0) in
        i64_sat_add now (saturating_i64 (as_millis (backoff_from_config_jittered c (as_u32 consecutive) jitter_ns)))
    end in
  <[k := mkMarker reason next consecutive]> h.
End Health.

Definition soft_config (base : Z) : BackoffConfig := mkBackoff base (F64.of_Z 2) (base * 8) (F64.lit 2 10).

Definition mark_soft_cooldown (h : Markers) (backend model reason : string) (base now jitter_ns : Z) : Markers :=
  if base =? 0 then h
  else
    let k := health_key backend model in
    let consecutive := next_consecutive h k in
    let b := backoff_from_config_jittered (soft_config base) (as_u32 consecutive) jitter_ns in
    <[k := mkMarker reason (i64_sat_add now (saturating_i64 (as_millis b))) consecutive]> h.

Definition record_success (h : Markers) (backend model : string) : Markers := delete (health_key backend model) h.

Definition health_status (h : Markers) (now : Z) : list (string * string * Z * bool) :=
  map (fun '(k, m) => (k, m_reason m, next_probe_ms m, next_probe_ms m <=? now)) (map_to_list h).
