(* ===== verification/ProxyLimitProps.v ===== *)
(** * What the limits of the proxy guarantee

    Requests in flight are counted exactly under every interleaving, and a lane
    that failed is left alone for a bounded time. *)
From Stdlib Require Import Ascii String SpecFloat.
From S2P Require Import Prelude RustFloat RustStr RustText ProxyLimit.
Local Open Scope string_scope.
Local Open Scope list_scope.
Local Open Scope Z_scope.

(** ** Requests in flight *)

(** The tracker and the permits that are alive, as the requests hold them. *)
Record Flight := mkFlight { counts : Inflight; live : list string }.

(** One step of some request: an attempt to enter with a cap it may use, or the
    end of a permit. *)
Inductive flight_step (allowed : string -> N -> Prop) : Flight -> Flight -> Prop :=
| Enter f identity cap permit m : allowed identity cap -> inflight_try_acquire (counts f) identity cap = (Some permit, m) ->
    flight_step allowed f (mkFlight m (permit :: live f))
| Shed f identity cap m : inflight_try_acquire (counts f) identity cap = (None, m) -> flight_step allowed f (mkFlight m (live f))
| Leave f permit rest : live f ≡ₚ permit :: rest -> flight_step allowed f (mkFlight (inflight_drop (counts f) permit) rest).

Definition alive (i : string) (l : list string) : N := N.of_nat (count_occ String.string_dec l i).

Definition flight_inv (allowed : string -> N -> Prop) (f : Flight) : Prop := forall i,
  inflight_get (counts f) i = alive i (live f) /\ (alive i (live f) <= u32_max)%N /\
  forall c, (forall cap, allowed i cap -> 0 < cap <= c)%N -> (alive i (live f) <= c)%N.

Lemma alive_cons i x l : alive i (x :: l) = ((if decide (i = x) then 1 else 0) + alive i l)%N.
Proof. unfold alive. simpl. destruct (String.string_dec x i), (decide (i = x)); try congruence; lia. Qed.

Lemma get_insert m i j n : inflight_get (<[i := n]> m) j = if decide (j = i) then n else inflight_get m j.
Proof. unfold inflight_get. destruct (decide (j = i)) as [->|]; [by rewrite lookup_insert_eq|by rewrite lookup_insert_ne]. Qed.

Lemma get_drop m i j : inflight_get (inflight_drop m i) j = if decide (j = i) then N.pred (inflight_get m j) else inflight_get m j.
Proof.
  unfold inflight_get, inflight_drop. destruct (decide (j = i)) as [->|]; [|by rewrite lookup_alter_ne].
  rewrite lookup_alter_eq. by destruct (m !! i).
Qed.

Lemma enter_spec m i cap o m' :
  inflight_try_acquire m i cap = (o, m') ->
  (o = Some i /\ (0 < cap -> inflight_get m i < cap)%N /\ (inflight_get m i < u32_max)%N /\
     (forall j, inflight_get m' j = (if decide (j = i) then 1 else 0) + inflight_get m j)%N) \/
  (o = None /\ (0 < cap <= inflight_get m i \/ u32_max <= inflight_get m i)%N /\ forall j, inflight_get m' j = inflight_get m j).
Proof.
  unfold inflight_try_acquire. fold (inflight_get m i). set (n := inflight_get m i).
  destruct ((0 <? cap) && (cap <=? n) || (u32_max <=? n))%N eqn:E; intros [= <- <-].
  - right. apply orb_true_iff in E. rewrite andb_true_iff, N.ltb_lt, !N.leb_le in E. split_and!; [done|lia|].
    intros j. rewrite get_insert. destruct (decide (j = i)) as [->|]; done.
  - left. apply orb_false_iff in E as [E1 E2]. apply N.leb_gt in E2. split_and!; [done| |done|].
    + intros Hc. apply andb_false_iff in E1 as [E1|E1]; [apply N.ltb_ge in E1; lia|by apply N.leb_gt in E1].
    + intros j. rewrite get_insert. destruct (decide (j = i)) as [->|]; [unfold n|]; lia.
Qed.

Lemma flight_step_inv allowed f f' : flight_inv allowed f -> flight_step allowed f f' -> flight_inv allowed f'.
Proof.
  intros Hi Hs j. destruct Hs as [f i cap o m Ha E|f i cap m E|f x rest Hl].
  - apply enter_spec in E as [([= ->] & Hcap & Hmax & Hget)|[? _] ]; [|done]. cbn [counts live]. rewrite Hget, alive_cons.
    destruct (Hi j) as (Hc & Hu & Hb). split_and!; [lia|destruct (decide (j = i)) as [->|]; lia|]. intros c Hall. specialize (Hb c Hall).
    destruct (decide (j = i)) as [->|]; [|lia]. specialize (Hall cap Ha). specialize (Hcap ltac:(lia)). lia.
  - apply enter_spec in E as [ [? _]|(_ & _ & Hget)]; [done|]. cbn [counts live]. rewrite Hget. apply Hi.
  - cbn [counts live]. rewrite get_drop. destruct (Hi j) as (Hc & Hu & Hb).
    assert (Ha : alive j (live f) = ((if decide (j = x) then 1 else 0) + alive j rest)%N).
    { rewrite <- alive_cons. unfold alive. f_equal. by apply (Permutation_count_occ String.string_dec). }
    rewrite Hc, Ha. rewrite Ha in Hu, Hb. split_and!; [destruct (decide (j = x)); lia|destruct (decide (j = x)); lia|].
    intros c Hall. specialize (Hb c Hall). destruct (decide (j = x)); lia.
Qed.

(** C28. Whatever requests run at the same time, the tracker's count for an
    identity is exactly the number of its permits that are alive, none is lost
    when a request ends, and when every request enters that identity with a cap
    of at most [c], no more than [c] of them are ever in flight. *)
Theorem inflight_capped allowed f i :
  rtc (flight_step allowed) (mkFlight ∅ []) f ->
  inflight_get (counts f) i = alive i (live f) /\
  forall c, (forall cap, allowed i cap -> 0 < cap <= c)%N -> (alive i (live f) <= c)%N.
Proof.
  intros Hr. assert (Hi : flight_inv allowed f); [|destruct (Hi i) as (? & _ & ?); done].
  assert (H0 : flight_inv allowed (mkFlight ∅ [])).
  { intros j. cbn [counts live]. unfold inflight_get, alive. rewrite lookup_empty. simpl. unfold u32_max. split_and!; [done|lia|lia]. }
  induction Hr as [f|f0 f1 f Hs Hr IH]; [done|]. apply IH. by eapply flight_step_inv.
Qed.

Lemma inflight_capped_witness : let one (_ : string) (cap : N) := cap = 1%N in
  exists f, rtc (flight_step one) (mkFlight ∅ []) f /\ live f = ["a"] /\
    inflight_get (counts f) "a" = 1%N /\ (forall c, (forall cap, one "a" cap -> 0 < cap <= c)%N -> (alive "a" (live f) <= c)%N).
Proof.
  cbv zeta. set (one := fun (_ : string) (cap : N) => cap = 1%N).
  set (f1 := mkFlight (snd (inflight_try_acquire ∅ "a" 1)) ["a"]). set (f2 := mkFlight (snd (inflight_try_acquire (counts f1) "a" 1)) ["a"]).
  assert (Hr : rtc (flight_step one) (mkFlight ∅ []) f2).
  { eapply rtc_l; [apply (Enter one _ "a" 1 "a" (counts f1)); done|]. eapply rtc_l; [apply (Shed one _ "a" 1 (counts f2)); done|]. apply rtc_refl. }
  exists f2. split; [exact Hr|]. split; [done|]. exact (inflight_capped one f2 "a" Hr).
Defined.

(** ** Cooldowns *)

Lemma apply_jitter_range r factor j jm :
  is_finite factor = true -> SFleb factor F64.zero = false -> float_trunc (F64.mul (F64.of_Z r) (fmin factor F64.one)) = jm ->
  0 < jm -> r + jm <= DURATION_MAX -> Z.max (r - jm) nanos_per_sec <= apply_jitter r factor j <= Z.max (r + jm) nanos_per_sec.
Proof.
  intros Hf Hp Hm Hpos Hmax. unfold apply_jitter. rewrite Hf, Hp, Hm. cbn [negb orb]. rewrite (proj2 (Z.leb_gt _ _)) by lia.
  pose proof (Z.mod_pos_bound j (jm * 2) ltac:(lia)). unfold duration_from_nanos_wide, DURATION_MAX, nanos_per_sec in *. lia.
Qed.

(** The ramp of every kind of failure, in seconds or fractions of them, and the
    most its jitter adds or takes. *)
Definition ramp_table (k : ExhaustionKind) : list (Z * Z) :=
  match k with
  | KRateLimit | KUnknown => [(30000, 6000); (60000, 12000); (120000, 24000)]
  | KPayment => [(21600000, 2160000); (21600000, 2160000); (21600000, 2160000)]
  | KAuth => [(600000, 60000); (600000, 60000); (600000, 60000)]
  | KServerError => [(10000, 3000); (15000, 4500); (22500, 6750)]
  | KClientError => [(300000, 0); (300000, 0); (300000, 0)]
  end.

Lemma ramp_table_ok k n r jm : ramp_table k !! n = Some (r, jm) ->
  backoff_ramp (backoff_config_for k) (N.of_nat n) = r * nanos_per_milli /\
  (jm = 0 /\ SFleb (bo_jitter (backoff_config_for k)) F64.zero = true \/
   0 < jm /\ is_finite (bo_jitter (backoff_config_for k)) = true /\ SFleb (bo_jitter (backoff_config_for k)) F64.zero = false /\
   float_trunc (F64.mul (F64.of_Z (r * nanos_per_milli)) (fmin (bo_jitter (backoff_config_for k)) F64.one)) = jm * nanos_per_milli).
Proof.
  destruct k, n as [|[|[|n] ] ]; intros [= <- <-]; (split; [vm_compute; reflexivity|]);
    first [right; split_and!; [lia|vm_compute; reflexivity..]|left; split; [done|vm_compute; reflexivity] ].
Qed.

(** The shortest and the longest cooldown after [n] failures in a row, in
    milliseconds; from the fourth on it is the ceiling. *)
Definition cooldown_range (k : ExhaustionKind) (n : N) : Z * Z :=
  match ramp_table k !! N.to_nat n with
  | Some (r, jm) => (r - jm, r + jm)
  | None => (as_millis (bo_ceiling (backoff_config_for k)), as_millis (bo_ceiling (backoff_config_for k)))
  end.

Lemma backoff_range k n j :
  let '(lo, hi) := cooldown_range k n in
  7000 <= lo <= hi /\ hi <= 86400000 /\ lo <= as_millis (backoff_from_config_jittered (backoff_config_for k) n j) <= hi.
Proof.
  unfold cooldown_range, backoff_from_config_jittered. destruct (ramp_table k !! N.to_nat n) as [ [r jm]|] eqn:E.
  - assert (Hn : (n < 3)%N) by (apply lookup_lt_Some in E; destruct k; simpl in E; lia).
    rewrite (proj2 (N.leb_gt _ _)) by done. destruct (ramp_table_ok k (N.to_nat n) r jm E) as [Hr Hj]. rewrite N2Nat.id in Hr. rewrite Hr.
    assert (Hb : 7000 <= r - jm /\ r + jm <= 86400000 /\ 0 <= jm).
    { clear -E Hn. destruct k; simpl in E; repeat (destruct (N.to_nat n) as [|m]; [by injection E as <- <-; lia|]; clear Hn; rename m into m0;
        destruct m0 as [|m0]; [by injection E as <- <-; lia|]; destruct m0; [by injection E as <- <-; lia|done]). }
    unfold as_millis. destruct Hj as [ [-> Hz]|(Hpos & Hf & Hz & Hm)].
    + unfold apply_jitter. rewrite Hz, orb_true_r, Z.div_mul by done. lia.
    + pose proof (apply_jitter_range _ _ j _ Hf Hz Hm ltac:(unfold nanos_per_milli; lia) ltac:(unfold DURATION_MAX, nanos_per_sec, nanos_per_milli; lia)) as Ha.
      unfold nanos_per_sec, nanos_per_milli in *. set (d := apply_jitter _ _ _) in *.
      split; [lia|]. split; [lia|]. split; [apply Z.div_le_lower_bound; lia|]. assert (d / 1000000 < r + jm + 1); [apply Z.div_lt_upper_bound; lia|lia].
  - assert (Hn : (3 <= n)%N) by (apply lookup_ge_None in E; destruct k; simpl in E; lia).
    rewrite (proj2 (N.leb_le _ _)) by done. destruct k; vm_compute; split_and!; congruence.
Qed.

Section Cooldown.
Context (to_lowercase : string -> string).

(** A lane that failed for lack of availability, without the upstream saying
    for how long, is left alone at once, for at least seven seconds, never longer
    than a day, and within the range of its kind of failure and the number of
    failures in a row; the other lanes are not touched, and a success ends it. *)
Theorem cooldown_bounded h backend model reason now jitter :
  i64_min <= now <= i64_max - 86400000 ->
  let h' := mark_exhausted to_lowercase h backend model reason None now jitter in
  let '(lo, hi) := cooldown_range (classify_exhaustion to_lowercase reason 0) (as_u32 (next_consecutive h (health_key backend model))) in
  (7000 <= lo <= hi /\ hi <= 86400000) /\
  (forall t, t < now + lo -> is_exhausted h' backend model t = true) /\
  (forall t, now + hi <= t -> is_exhausted h' backend model t = false) /\
  (forall b m t, health_key b m <> health_key backend model -> is_exhausted h' b m t = is_exhausted h b m t) /\
  forall t, is_exhausted (record_success h' backend model) backend model t = false.
Proof.
  intros Hnow h'. pose proof (backoff_range (classify_exhaustion to_lowercase reason 0) (as_u32 (next_consecutive h (health_key backend model))) jitter) as Hr.
  destruct (cooldown_range _ _) as [lo hi]. destruct Hr as (Hlo & Hhi & Hd). set (d := as_millis _) in Hd.
  assert (Hm : h' !! health_key backend model = Some (mkMarker reason (now + d) (next_consecutive h (health_key backend model)))).
  { unfold h', mark_exhausted. rewrite lookup_insert_eq. fold d. unfold i64_sat_add, saturating_i64, i64_max, i64_min in *. do 2 f_equal. lia. }
  split; [done|]. unfold is_exhausted. rewrite Hm. cbn [next_probe_ms]. split; [intros t Ht; apply Z.ltb_lt; lia|].
  split; [intros t Ht; apply Z.ltb_ge; lia|]. split.
  - intros b m t Hne. unfold h', mark_exhausted. by rewrite lookup_insert_ne.
  - intros t. unfold record_success. by rewrite lookup_delete_eq.
Qed.
End Cooldown.

Lemma cooldown_bounded_witness : i64_min <= 1000 <= i64_max - 86400000 /\
  let h' := mark_exhausted to_ascii_lowercase ∅ "openrouter" "m" "HTTP 429 (rate limit)" None 1000 0 in
  let '(lo, hi) := cooldown_range (classify_exhaustion to_ascii_lowercase "HTTP 429 (rate limit)" 0) (as_u32 (next_consecutive ∅ (health_key "openrouter" "m"))) in
  (7000 <= lo <= hi /\ hi <= 86400000) /\
  (forall t, t < 1000 + lo -> is_exhausted h' "openrouter" "m" t = true) /\
  (forall t, 1000 + hi <= t -> is_exhausted h' "openrouter" "m" t = false) /\
  (forall b m t, health_key b m <> health_key "openrouter" "m" -> is_exhausted h' b m t = is_exhausted ∅ b m t) /\
  forall t, is_exhausted (record_success h' "openrouter" "m") "openrouter" "m" t = false.
Proof. split; [unfold i64_min, i64_max; lia|]. apply (cooldown_bounded to_ascii_lowercase). unfold i64_min, i64_max. lia. Defined.

(** The brief cooldown of a stream is neither brief nor escalating: the floor of
    the jitter lifts the first three to a second, above their own ceiling, and the
    fourth is shorter. *)
Example soft_cooldown_shrinks : forall jitter,
  let d n := backoff_from_config_jittered (soft_config (100 * nanos_per_milli)) n jitter in
  d 0%N = nanos_per_sec /\ d 1%N = nanos_per_sec /\ d 2%N = nanos_per_sec /\ d 3%N = 800 * nanos_per_milli.
Proof.
  intros jitter d. assert (Hd : forall n r jm, (n < 3)%N -> backoff_ramp (soft_config (100 * nanos_per_milli)) n = r ->
    float_trunc (F64.mul (F64.of_Z r) (fmin (F64.lit 2 10) F64.one)) = jm -> 0 < jm -> r + jm <= nanos_per_sec -> d n = nanos_per_sec).
  { intros n r jm Hn Hr Hj Hpos Hle. unfold d, backoff_from_config_jittered. rewrite (proj2 (N.leb_gt _ _)) by done. rewrite Hr.
    pose proof (apply_jitter_range r (F64.lit 2 10) jitter jm eq_refl eq_refl Hj Hpos ltac:(unfold DURATION_MAX, nanos_per_sec in *; lia)).
    cbn [bo_jitter soft_config]. lia. }
  split_and!; [apply (Hd 0%N 100000000 20000000)|apply (Hd 1%N 200000000 40000000)|apply (Hd 2%N 400000000 80000000)|reflexivity];
    solve [lia|unfold nanos_per_sec; lia|vm_compute; reflexivity].
Qed.
