(* ===== verification/ProxyBudget.v ===== *)
(** * Who a request is charged to, and whether it may run

    thegn-core/src/proxy/attribution.rs (the signed keys agents present),
    thegn-proxy/src/budget.rs (identity, the check before routing and the
    attribution of spend), thegn-core/src/budget_alert.rs and the budget table of
    db_model_proxy.rs.  HMAC-SHA256 and serde_json are parameters; the table is a
    finite map by scope and its statements never fail.  Token counts are [i64] and
    wrap as in a release build. *)
From Stdlib Require Import Ascii String SpecFloat.
From S2P Require Import Prelude RustOrd RustFloat RustStr RustText.
Local Open Scope string_scope.
Local Open Scope list_scope.
Local Open Scope Z_scope.

(** ** Hexadecimal *)

(** [char::from_digit(d, 16)]. *)
Definition hex_digit (d : N) : ascii := ascii_of_N (if (d <? 10)%N then 48 + d else 87 + d)%N.

(** [char::to_digit(16)]. *)
Definition from_hex_digit (a : ascii) : option N :=
  let n := N_of_ascii a in
  if ((48 <=? n) && (n <=? 57))%N then Some (n - 48)%N
  else if ((65 <=? n) && (n <=? 70))%N then Some (n - 55)%N
  else if ((97 <=? n) && (n <=? 102))%N then Some (n - 87)%N
  else None.

Fixpoint hex_encode (bytes : string) : string :=
  match bytes with
  | EmptyString => EmptyString
  | String b bytes => String (hex_digit (N_of_ascii b / 16)) (String (hex_digit (N_of_ascii b mod 16)) (hex_encode bytes))
  end.

(** The loop over pairs; the length is even when it is called. *)
Fixpoint hex_pairs (hex : string) : option string :=
  match hex with
  | String h (String l rest) =>
      match from_hex_digit h, from_hex_digit l with
      | Some h, Some l => String (ascii_of_N (h * 16 + l)) <$> hex_pairs rest
      | _, _ => None
      end
  | _ => Some EmptyString
  end.

Definition hex_decode (hex : string) : option string :=
  if is_empty hex || negb (Nat.even (String.length hex)) then None else hex_pairs hex.

Definition parse_secret_hex (value : string) : option string :=
  if negb (String.length value =? 64)%nat || negb (str_forall (fun a => bool_decide (is_Some (from_hex_digit a))) value)
  then None else hex_decode value.

(** ** Keys *)

Definition KEY_PREFIX : string := "mpk_".
Definition SIGNED_PREFIX : string := "mpk2_".
Definition ATTR_DOMAIN : string := "thegn-attribution-v2:".
Definition IDENTITY_DOMAIN : string := "tgproxy-identity-v1:".

Inductive AttrError := AMalformed | ABadSignature | AExpired.

Record AttributionScope := mkScope {
  a_scope : string;
  a_agent : option string;
  a_workspace : option string;
  a_zone : option string;
  a_upstream : option string;
  a_nonce : string;
  a_exp_ms : option Z;
}.

Definition with_expiry (s : AttributionScope) (e : Z) : AttributionScope :=
  mkScope (a_scope s) (a_agent s) (a_workspace s) (a_zone s) (a_upstream s) (a_nonce s) (Some e).

Record Identity := mkIdentity {
  i_scope : string;
  i_agent_scope : option string;
  i_workspace : option string;
  i_zone : option string;
  i_upstream : option string;
  i_rejected : option string;
}.

Definition identity_global : Identity := mkIdentity "global" None None None None None.

Definition rejected_identity (reason : string) : Identity := mkIdentity "global" None None None None (Some reason).

Section Keys.
(** HMAC-SHA256 of a message under a key, and serde_json for the payload. *)
Context (hmac : string -> string -> string) (to_vec : AttributionScope -> string) (from_slice : string -> option AttributionScope).

Definition identity_proof (secret challenge : string) : string := hex_encode (hmac secret (IDENTITY_DOMAIN ++ challenge)%string).

Definition verify_identity_proof (secret challenge proof : string) : bool :=
  match hex_decode proof with
  | Some bytes => String.eqb bytes (hmac secret (IDENTITY_DOMAIN ++ challenge)%string)
  | None => false
  end.

Definition encode_signed (s : AttributionScope) (secret : string) (expires_ms : Z) : string :=
  let body := hex_encode (to_vec (with_expiry s expires_ms)) in
  (SIGNED_PREFIX ++ body ++ "." ++ hex_encode (hmac secret (ATTR_DOMAIN ++ body)))%string.

Definition attr_verify (token secret : string) (now_ms : Z) : result AttrError AttributionScope :=
  match strip_prefix SIGNED_PREFIX token with
  | None => Err AMalformed
  | Some token =>
      match split_once "." token with
      | None => Err AMalformed
      | Some (body, signature) =>
          match hex_decode signature with
          | None => Err AMalformed
          | Some signature =>
              if negb (String.eqb signature (hmac secret (ATTR_DOMAIN ++ body)%string)) then Err ABadSignature
              else match hex_decode body ≫= from_slice with
                   | None => Err AMalformed
                   | Some payload =>
                       match a_exp_ms payload with
                       | Some e => if now_ms <? e then Ok payload else Err AExpired
                       | None => Err AMalformed
                       end
                   end
          end
      end
  end.

(** The tokens without a signature that older versions wrote. *)
Definition attr_encode (s : AttributionScope) : string := (KEY_PREFIX ++ hex_encode (to_vec s))%string.

Definition attr_decode (token : string) : option AttributionScope :=
  match strip_prefix KEY_PREFIX token with Some hex => hex_decode hex ≫= from_slice | None => None end.

(** The secret is the one the host installed, if it did. *)
Definition resolve_identity (secret : option string) (virtual_key : option string) (now_ms : Z) : Identity :=
  match secret with
  | None => rejected_identity "proxy attribution secret is unavailable"
  | Some secret =>
      match virtual_key with
      | None => rejected_identity "missing proxy attribution key"
      | Some key =>
          match attr_verify key secret now_ms with
          | Ok a => mkIdentity (if is_empty (a_scope a) then "global" else a_scope a) (a_agent a) (a_workspace a) (a_zone a) (a_upstream a) None
          | Err _ => rejected_identity "invalid or expired proxy attribution key"
          end
      end
  end.
End Keys.

(** ** Identities *)

Definition or_else {A} (o : option A) (x : option A) : option A := match o with Some a => Some a | None => x end.

Definition identity_agent (i : Identity) : option string :=
  or_else (i_agent_scope i ≫= strip_prefix "agent:") (strip_prefix "agent:" (i_scope i)).
Definition identity_worktree (i : Identity) : option string := strip_prefix "worktree:" (i_scope i).
Definition identity_workspace_label (i : Identity) : option string :=
  or_else (strip_prefix "workspace:" (i_scope i)) (i_workspace i ≫= strip_prefix "workspace:").

(** Appends what is not there yet. *)
Definition push_absent (out : list string) (s : string) : list string := if bool_decide (s ∈ out) then out else out ++ [s].

Definition budget_scopes (i : Identity) : list string :=
  push_absent (foldl push_absent [i_scope i] (option_list (i_agent_scope i) ++ option_list (i_workspace i) ++ option_list (i_zone i))) "global".

(** ** Spend *)

Record BudgetRow := mkBudgetRow { window_start_ms : Z; spent_tokens : Z; spent_cost : f64; killed : bool }.

Abbreviation BudgetTable := (gmap string BudgetRow).

Inductive BudgetBreach := BWarn | BRefuse | BDowngrade.

#[global] Instance BudgetBreach_eq_dec : EqDecision BudgetBreach.
Proof. solve_decision. Defined.

Record BudgetSettings := mkBudgetSettings {
  bs_enabled : bool;
  on_breach : BudgetBreach;
  window_len_ms : Z;
  bs_scopes : gmap string (option Z * option f64);
}.

Definition refuses (s : BudgetSettings) : bool := bs_enabled s && bool_decide (on_breach s = BRefuse).
Definition downgrades (s : BudgetSettings) : bool := bs_enabled s && bool_decide (on_breach s = BDowngrade).

Record CapBreaches := mkBreaches { br_tokens : bool; br_cost : bool }.

Definition any_breach (b : CapBreaches) : bool := br_tokens b || br_cost b.

Definition cap_breaches (tokens : Z) (cost : f64) (token_cap : option Z) (cost_cap : option f64) : CapBreaches :=
  mkBreaches (match token_cap with Some cap => cap <=? tokens | None => false end)
    (match cost_cap with Some cap => SFleb cap cost | None => false end).

Definition window_lapsed (len start now : Z) : bool := (0 <? len) && (len <=? i64_sat_sub now start).

Definition current_spend (db : BudgetTable) (scope : string) (len now : Z) : option (Z * f64 * bool) :=
  match db !! scope with
  | None => None
  | Some row =>
      if window_lapsed len (window_start_ms row) now then Some (0, F64.zero, killed row)
      else Some (spent_tokens row, spent_cost row, killed row)
  end.

Inductive BudgetVerdict := BAllow | BRefused (reason : string) | BDowngraded.

(** The loop over the scopes. *)
Fixpoint check_scopes (db : BudgetTable) (s : BudgetSettings) (now : Z) (scopes : list string) : BudgetVerdict :=
  match scopes with
  | [] => BAllow
  | scope :: rest =>
      match current_spend db scope (window_len_ms s) now with
      | None => check_scopes db s now rest
      | Some (tokens, cost, k) =>
          if (k : bool) then BRefused ("budget kill-switch active for scope '" ++ scope ++ "'")
          else if negb (bs_enabled s) then check_scopes db s now rest
          else match bs_scopes s !! scope with
               | None => check_scopes db s now rest
               | Some (tok_cap, cost_cap) =>
                   if any_breach (cap_breaches tokens cost tok_cap cost_cap) then
                     if refuses s then BRefused ("budget cap reached for scope '" ++ scope ++ "'")
                     else if downgrades s then BDowngraded
                     else BAllow
                   else check_scopes db s now rest
               end
      end
  end.

Definition check_budget (db : BudgetTable) (s : BudgetSettings) (i : Identity) (now : Z) : BudgetVerdict :=
  match i_rejected i with Some reason => BRefused reason | None => check_scopes db s now (budget_scopes i) end.

(** [i64] addition of a release build. *)
Definition i64_wrap (z : Z) : Z := (z + 9223372036854775808) mod 18446744073709551616 - 9223372036854775808.

Definition add_model_proxy_spend (db : BudgetTable) (scope : string) (tokens : Z) (cost : f64) (now len : Z) : BudgetTable :=
  let '(start, base_tokens, base_cost, k) :=
    match db !! scope with
    | Some r => if window_lapsed len (window_start_ms r) now then (now, 0, F64.zero, killed r)
                else (window_start_ms r, spent_tokens r, spent_cost r, killed r)
    | None => (now, 0, F64.zero, false)
    end in
  <[scope := mkBudgetRow start (i64_wrap (base_tokens + tokens)) (F64.add base_cost cost) k]> db.

Definition set_model_proxy_kill_switch (db : BudgetTable) (scope : string) (k : bool) : BudgetTable :=
  <[scope := match db !! scope with
             | Some r => mkBudgetRow (window_start_ms r) (spent_tokens r) (spent_cost r) k
             | None => mkBudgetRow 0 0 F64.zero k
             end]> db.

Definition record_spend (db : BudgetTable) (s : BudgetSettings) (i : Identity) (tokens : Z) (cost : f64) (now : Z) : BudgetTable :=
  foldl (fun db scope => add_model_proxy_spend db scope tokens cost now (window_len_ms s)) db (budget_scopes i).

(** ** Alerts *)

Inductive BudgetDimension := DTokens | DCost.

Record BudgetBreachFact := mkFact {
  f_scope : string; f_window_start : Z; f_tokens : Z; f_cost : f64; f_dimension : BudgetDimension;
}.

Definition dimension_rank (d : BudgetDimension) : Z := match d with DTokens => 0 | DCost => 1 end.

Definition fact_cmp : BudgetBreachFact -> BudgetBreachFact -> comparison :=
  lex (on f_scope String.compare) (lex (on f_window_start Z.compare) (on (fun f => dimension_rank (f_dimension f)) Z.compare)).

(** The facts of one row. *)
Definition row_facts (s : BudgetSettings) (now : Z) (scope : string) (row : BudgetRow) : list BudgetBreachFact :=
  match bs_scopes s !! scope with
  | None => []
  | Some (tok_cap, cost_cap) =>
      if window_lapsed (window_len_ms s) (window_start_ms row) now then []
      else
        let crossed := cap_breaches (spent_tokens row) (spent_cost row) tok_cap cost_cap in
        let fact := mkFact scope (window_start_ms row) (spent_tokens row) (spent_cost row) in
        (if br_tokens crossed then [fact DTokens] else []) ++ (if br_cost crossed then [fact DCost] else [])
  end.

Definition classify_breaches (s : BudgetSettings) (rows : list (string * BudgetRow)) (now : Z) : list BudgetBreachFact :=
  if negb (bs_enabled s) then []
  else sort_by fact_cmp (concat (map (fun '(scope, row) => row_facts s now scope row) rows)).
