(* ===== verification/ProxyBudgetProps.v ===== *)
(** * Attribution and budgets hold what they promise *)
From Stdlib Require Import Ascii String SpecFloat.
From S2P Require Import Prelude RustOrd RustFloat RustStr RustText ProxyBudget.
Local Open Scope string_scope.
Local Open Scope list_scope.
Local Open Scope Z_scope.

(** ** Keys *)

Lemma hex_digit_back d : (d < 16)%N -> from_hex_digit (hex_digit d) = Some d /\ Ascii.eqb (hex_digit d) "." = false.
Proof.
  intros Hd. assert (Hall : Forall (fun d => from_hex_digit (hex_digit d) = Some d /\ Ascii.eqb (hex_digit d) "." = false) (map N.of_nat (seq 0 16))).
  { repeat constructor. }
  rewrite Forall_forall in Hall. apply Hall. apply list_elem_of_fmap. exists (N.to_nat d). split; [lia|]. apply elem_of_seq. lia.
Qed.

Lemma hex_pairs_encode s : hex_pairs (hex_encode s) = Some s.
Proof.
  induction s as [|a s IH]; [done|]. cbn [hex_encode hex_pairs].
  assert (Ha : (N_of_ascii a < 256)%N) by apply N_ascii_bounded.
  rewrite (proj1 (hex_digit_back (N_of_ascii a / 16) ltac:(apply N.Div0.div_lt_upper_bound; lia))).
  rewrite (proj1 (hex_digit_back (N_of_ascii a mod 16) ltac:(apply N.mod_lt; lia))). rewrite IH. cbn [fmap option_fmap option_map]. f_equal. f_equal.
  rewrite (N.mul_comm _ 16), <- (N.div_mod (N_of_ascii a) 16) by lia. apply ascii_N_embedding.
Qed.

Lemma hex_encode_even s : Nat.even (String.length (hex_encode s)) = true.
Proof. induction s as [|a s IH]; [done|]. exact IH. Qed.

Lemma hex_decode_encode s : s <> "" -> hex_decode (hex_encode s) = Some s.
Proof.
  intros Hs. unfold hex_decode. rewrite hex_encode_even, hex_pairs_encode. by destruct s.
Qed.

Lemma hex_encode_no_dot s : no_char "." (hex_encode s) = true.
Proof.
  induction s as [|a s IH]; [done|]. cbn [hex_encode no_char]. assert (Ha : (N_of_ascii a < 256)%N) by apply N_ascii_bounded.
  rewrite (proj2 (hex_digit_back (N_of_ascii a / 16) ltac:(apply N.Div0.div_lt_upper_bound; lia))).
  rewrite (proj2 (hex_digit_back (N_of_ascii a mod 16) ltac:(apply N.mod_lt; lia))). exact IH.
Qed.

Section Keys.
Context (hmac : string -> string -> string) (to_vec : AttributionScope -> string) (from_slice : string -> option AttributionScope).

(** What is used of the libraries: a MAC has bytes, an empty text is no JSON, and
    a payload is read back as it was written. *)
Definition libraries_ok : Prop :=
  (forall k m, hmac k m <> "") /\ from_slice "" = None /\ forall p, from_slice (to_vec p) = Some p.

(** C29. A key the host signed is accepted until it expires and gives back the
    scope it was made for, and whatever is accepted, under any secret, is a body
    with the MAC of exactly that body under that secret, whose payload is returned
    and has not expired. *)
Theorem signed_key token secret s expires now :
  libraries_ok ->
  attr_verify hmac from_slice (encode_signed hmac to_vec s secret expires) secret now =
    (if now <? expires then Ok (with_expiry s expires) else Err AExpired) /\
  forall p, attr_verify hmac from_slice token secret now = Ok p ->
    exists body signature, token = (SIGNED_PREFIX ++ body ++ "." ++ signature)%string /\
      hex_decode signature = Some (hmac secret (ATTR_DOMAIN ++ body)%string) /\
      hex_decode body ≫= from_slice = Some p /\ exists e, a_exp_ms p = Some e /\ now < e.
Proof.
  intros (Hmac & Hempty & Hjson). split.
  - unfold attr_verify, encode_signed. set (body := hex_encode _). rewrite (proj2 (strip_prefix_Some _ _ _) eq_refl).
    change ("." ++ ?x)%string with (String "." x) in *. unfold body at 1 2. rewrite split_once_char by apply hex_encode_no_dot. fold body.
    rewrite hex_decode_encode by apply Hmac. rewrite String.eqb_refl. cbn [negb]. unfold body. rewrite hex_decode_encode.
    + cbn [mbind option_bind]. by rewrite Hjson.
    + intros E. pose proof (Hjson (with_expiry s expires)) as Hj. rewrite E, Hempty in Hj. done.
  - unfold attr_verify. intros p. destruct (strip_prefix SIGNED_PREFIX token) as [t|] eqn:Et; [|done]. apply strip_prefix_Some in Et as ->.
    destruct (split_once "." t) as [ [body signature]|] eqn:Es; [|done]. apply split_once_sound in Es as Hs. destruct Hs as [-> _].
    destruct (hex_decode signature) as [sg|] eqn:Eg; [|done]. destruct (String.eqb_spec sg (hmac secret (ATTR_DOMAIN ++ body)%string)) as [->|]; [|done].
    cbn [negb]. destruct (hex_decode body ≫= from_slice) as [payload|] eqn:Eb; [|done].
    destruct (a_exp_ms payload) as [e|] eqn:Ee; [|done]. destruct (Z.ltb_spec now e); [|done]. intros [= <-].
    exists body, signature. split_and!; [done|done|done|]. by exists e.
Qed.
End Keys.

(** A concrete writer of payloads, for the instance. *)
Definition scope_tuple (s : AttributionScope) := (a_scope s, a_agent s, a_workspace s, a_zone s, a_upstream s, a_nonce s, a_exp_ms s).

#[global] Instance AttributionScope_eq_dec : EqDecision AttributionScope.
Proof. solve_decision. Defined.

#[global] Instance AttributionScope_countable : Countable AttributionScope.
Proof.
  refine (inj_countable' scope_tuple (fun '(a, b, c, d, e, f, g) => mkScope a b c d e f g) _). by intros [].
Defined.

Fixpoint bits_str (p : positive) : string :=
  match p with xH => "." | xO p => String "0" (bits_str p) | xI p => String "1" (bits_str p) end.

Fixpoint bits_of (s : string) : option positive :=
  match s with
  | String "." EmptyString => Some xH
  | String "0" s => xO <$> bits_of s
  | String "1" s => xI <$> bits_of s
  | _ => None
  end.

Lemma bits_back p : bits_of (bits_str p) = Some p.
Proof. induction p as [p IH|p IH|]; simpl; [by rewrite IH|by rewrite IH|done]. Qed.

Definition demo_to_vec (s : AttributionScope) : string := bits_str (encode s).
Definition demo_from_slice (s : string) : option AttributionScope := bits_of s ≫= decode.
Definition demo_hmac (k m : string) : string := ("#" ++ k ++ m)%string.

Lemma demo_libraries : libraries_ok demo_hmac demo_to_vec demo_from_slice.
Proof.
  split; [done|]. split; [done|]. intros p. unfold demo_from_slice, demo_to_vec. rewrite bits_back. apply decode_encode.
Qed.

Definition demo_scope : AttributionScope := mkScope "worktree:/w" (Some "agent:r") (Some "workspace:/w") None None "n" None.

Lemma signed_key_witness : libraries_ok demo_hmac demo_to_vec demo_from_slice /\
  attr_verify demo_hmac demo_from_slice (encode_signed demo_hmac demo_to_vec demo_scope "k" 50) "k" 49 = Ok (with_expiry demo_scope 50).
Proof.
  split; [apply demo_libraries|].
  exact (proj1 (signed_key demo_hmac demo_to_vec demo_from_slice "" "k" demo_scope 50 49 demo_libraries)).
Defined.

(** ** The scopes of a request *)

Lemma elem_of_push x out s : x ∈ push_absent out s <-> x ∈ out \/ x = s.
Proof. unfold push_absent. case_bool_decide; [naive_solver|]. rewrite elem_of_app, list_elem_of_singleton. done. Qed.

Lemma push_absent_nodup out s : NoDup out -> NoDup (push_absent out s).
Proof. intros H. unfold push_absent. case_bool_decide; [done|]. apply NoDup_app. split_and!; [done|set_solver|by apply NoDup_singleton]. Qed.

Lemma foldl_push_absent x out l : x ∈ foldl push_absent out l <-> x ∈ out \/ x ∈ l.
Proof. revert out. induction l as [|a l IH]; intros out; simpl; [set_solver|]. rewrite IH, elem_of_push, elem_of_cons. tauto. Qed.

Lemma foldl_push_nodup out l : NoDup out -> NoDup (foldl push_absent out l).
Proof. revert out. induction l as [|a l IH]; intros out H; simpl; [done|]. by apply IH, push_absent_nodup. Qed.

Lemma elem_of_optional {A} (o : option A) x : x ∈ option_list o <-> o = Some x.
Proof. destruct o; simpl; set_solver. Qed.

Lemma elem_of_scopes i x :
  x ∈ budget_scopes i <-> x = i_scope i \/ i_agent_scope i = Some x \/ i_workspace i = Some x \/ i_zone i = Some x \/ x = "global".
Proof.
  unfold budget_scopes. rewrite elem_of_push, foldl_push_absent, list_elem_of_singleton, !elem_of_app, !elem_of_optional. tauto.
Qed.

Lemma scopes_nodup i : NoDup (budget_scopes i).
Proof. unfold budget_scopes. apply push_absent_nodup, foldl_push_nodup, NoDup_singleton. Qed.

(** ** The check *)

(** A scope is out of budget: its spend in the window that runs at [now] has
    reached one of its caps. *)
Definition over_cap (db : BudgetTable) (s : BudgetSettings) (now : Z) (scope : string) : Prop :=
  exists row tok cost, db !! scope = Some row /\ bs_scopes s !! scope = Some (tok, cost) /\
    if window_lapsed (window_len_ms s) (window_start_ms row) now then any_breach (cap_breaches 0 F64.zero tok cost) = true
    else any_breach (cap_breaches (spent_tokens row) (spent_cost row) tok cost) = true.

Definition switched_off (db : BudgetTable) (scope : string) : Prop := exists row, db !! scope = Some row /\ killed row = true.

Lemma check_scopes_refuse db s now scopes :
  refuses s = true ->
  (check_scopes db s now scopes = BAllow /\ (forall x, x ∈ scopes -> ~ switched_off db x /\ ~ over_cap db s now x)) \/
  ((exists r, check_scopes db s now scopes = BRefused r) /\ exists x, x ∈ scopes /\ (switched_off db x \/ over_cap db s now x)).
Proof.
  intros Hr. assert (He : bs_enabled s = true) by (by apply andb_true_iff in Hr as [? _]).
  induction scopes as [|x scopes IH]; cbn [check_scopes]; [left; split; [done|set_solver]|].
  assert (Hskip : ~ switched_off db x -> ~ over_cap db s now x ->
    (check_scopes db s now scopes = BAllow /\ (forall y, y ∈ x :: scopes -> ~ switched_off db y /\ ~ over_cap db s now y)) \/
    ((exists r, check_scopes db s now scopes = BRefused r) /\ exists y, y ∈ x :: scopes /\ (switched_off db y \/ over_cap db s now y))).
  { intros Hk Ho. destruct IH as [ [Ha Hall]|[Hx (y & Hy & Hbad)] ]; [left|right].
    - split; [done|]. intros y [->|Hy]%elem_of_cons; [done|by apply Hall].
    - split; [done|]. exists y. split; [by right|done]. }
  unfold current_spend. destruct (db !! x) as [row|] eqn:Ex.
  2: { apply Hskip; [intros (? & ? & _)|intros (? & ? & ? & ? & _)]; congruence. }
  set (lap := window_lapsed (window_len_ms s) (window_start_ms row) now).
  replace (if lap then Some (0, F64.zero, killed row) else Some (spent_tokens row, spent_cost row, killed row))
    with (Some (if lap then 0 else spent_tokens row, if lap then F64.zero else spent_cost row, killed row)) by (by destruct lap).
  destruct (killed row) eqn:Ek.
  { right. split; [by eexists|]. exists x. split; [by left|]. left. by exists row. }
  assert (Hk : ~ switched_off db x) by (intros (r' & Hr' & Hkr'); congruence). rewrite He. cbn [negb].
  destruct (bs_scopes s !! x) as [ [tok cost]|] eqn:Ec; [|apply Hskip; [done|]; intros (? & ? & ? & ? & ? & _); congruence].
  destruct (any_breach _) eqn:Eb.
  - rewrite Hr. right. split; [by eexists|]. exists x. split; [by left|]. right. exists row, tok, cost. split; [done|]. split; [done|]. fold lap. by destruct lap.
  - apply Hskip; [done|]. intros (row' & tok' & cost' & Hrow & Hcap & Hb). rewrite Ex in Hrow. injection Hrow as <-. rewrite Ec in Hcap. injection Hcap as <- <-.
    fold lap in Hb. destruct lap; congruence.
Qed.

(** C26. With refusal configured, a request is let through exactly when it is
    authenticated and no scope it is charged to - its own, its agent's, its
    workspace's, its zone's or the global one - is switched off or has reached a
    cap in the window that runs; it is never merely downgraded. *)
Theorem budget_gate db s i now :
  refuses s = true ->
  check_budget db s i now <> BDowngraded /\
  (check_budget db s i now = BAllow <->
    i_rejected i = None /\
    forall x, x = i_scope i \/ i_agent_scope i = Some x \/ i_workspace i = Some x \/ i_zone i = Some x \/ x = "global" ->
      ~ switched_off db x /\ ~ over_cap db s now x).
Proof.
  intros Hr. unfold check_budget. destruct (i_rejected i) as [reason|]; [split; [done|split; [done|by intros [? _] ] ]|].
  setoid_rewrite <- elem_of_scopes. destruct (check_scopes_refuse db s now (budget_scopes i) Hr) as [ [-> Hall]|[ [r ->] (x & Hx & Hbad)] ].
  - split; [done|]. split; [done|done].
  - split; [done|]. split; [done|]. intros [_ Hall]. destruct (Hall x Hx) as [? ?]. tauto.
Qed.

Definition demo_budget : BudgetSettings := mkBudgetSettings true BRefuse 1000 {["global" := (Some 100, None)]}.

Lemma budget_gate_witness : refuses demo_budget = true /\
  check_budget {["global" := mkBudgetRow 5 100 F64.zero false]} demo_budget identity_global 2000 = BAllow.
Proof.
  split; [reflexivity|].
  refine (proj2 (proj2 (budget_gate {["global" := mkBudgetRow 5 100 F64.zero false]} demo_budget identity_global 2000 eq_refl)) _).
  split; [reflexivity|]. intros x Hx. assert (x = "global") as -> by (cbn in Hx; naive_solver).
  split; [intros (r & Hr & Hk)|intros (r & t & c & Hr & Hc & Hb)]; vm_compute in Hr; injection Hr as <-; [discriminate Hk|].
  vm_compute in Hc. injection Hc as <- <-. vm_compute in Hb. discriminate Hb.
Defined.

(** Below refusal, the first scope over its cap settles the verdict: a request of
    a worktree that is over budget runs although the global kill-switch is on,
    and the same request within its budget is refused. *)
Example kill_switch_bypassed :
  let db spent : BudgetTable := {["worktree:/w" := mkBudgetRow 0 spent F64.zero false; "global" := mkBudgetRow 0 0 F64.zero true]} in
  let s b := mkBudgetSettings true b 0 {["worktree:/w" := (Some 100, None)]} in
  let i := mkIdentity "worktree:/w" None None None None None in
  check_budget (db 100) (s BWarn) i 7 = BAllow /\ check_budget (db 100) (s BDowngrade) i 7 = BDowngraded /\
  check_budget (db 99) (s BWarn) i 7 = BRefused "budget kill-switch active for scope 'global'".
Proof. split_and!; reflexivity. Qed.

(** ** Spend is accounted for *)

(** What happens to the table: requests that are charged, and the switch. *)
Inductive BudgetOp :=
| OSpend (i : Identity) (tok : Z) (cost : f64) (now : Z)
| OKill (scope : string) (k : bool).

Definition budget_op (s : BudgetSettings) (db : BudgetTable) (o : BudgetOp) : BudgetTable :=
  match o with
  | OSpend i tok cost now => record_spend db s i tok cost now
  | OKill scope k => set_model_proxy_kill_switch db scope k
  end.

(** What one request adds to a scope whose window begins at [from], and all of it
    in order: the tokens are summed, the costs added up one after the other. *)
Definition op_charges (scope : string) (from : Z) (o : BudgetOp) : list (Z * f64) :=
  match o with
  | OSpend i tok cost now => if bool_decide (scope ∈ budget_scopes i) && (from <=? now) then [(tok, cost)] else []
  | OKill _ _ => []
  end.

Definition charges_since (scope : string) (from : Z) (ops : list BudgetOp) : list (Z * f64) := concat (map (op_charges scope from) ops).

Definition total_tokens (l : list (Z * f64)) : Z := foldr Z.add 0 (map fst l).
Definition total_cost (l : list (Z * f64)) : f64 := foldl F64.add F64.zero (map snd l).

(** The clock does not run backwards, from [t0] on, and the counts fit. *)
Fixpoint ops_ok (t0 : Z) (room : Z) (ops : list BudgetOp) : Prop :=
  match ops with
  | [] => True
  | OSpend _ tok _ now :: ops => t0 <= now <= i64_max /\ 0 <= tok <= room /\ ops_ok now (room - tok) ops
  | OKill _ _ :: ops => ops_ok t0 room ops
  end.

(** The row a charge leaves. *)
Definition charged_row (len tok : Z) (cost : f64) (now : Z) (o : option BudgetRow) : BudgetRow :=
  let '(start, base_tokens, base_cost, k) :=
    match o with
    | Some r => if window_lapsed len (window_start_ms r) now then (now, 0, F64.zero, killed r)
                else (window_start_ms r, spent_tokens r, spent_cost r, killed r)
    | None => (now, 0, F64.zero, false)
    end in
  mkBudgetRow start (i64_wrap (base_tokens + tok)) (F64.add base_cost cost) k.

Lemma lookup_add_spend db scope tok cost now len x :
  add_model_proxy_spend db scope tok cost now len !! x = if decide (x = scope) then Some (charged_row len tok cost now (db !! x)) else db !! x.
Proof.
  unfold add_model_proxy_spend, charged_row. destruct (decide (x = scope)) as [->|Hne].
  - destruct (db !! scope) as [r|]; [destruct (window_lapsed _ _ _)|]; by rewrite lookup_insert_eq.
  - destruct (db !! scope) as [r|]; [destruct (window_lapsed _ _ _)|]; by rewrite lookup_insert_ne by done.
Qed.

Lemma lookup_record_spend db s i tok cost now x :
  record_spend db s i tok cost now !! x =
  if bool_decide (x ∈ budget_scopes i) then Some (charged_row (window_len_ms s) tok cost now (db !! x)) else db !! x.
Proof.
  unfold record_spend. pose proof (scopes_nodup i) as Hnd. revert db. induction Hnd as [|a l Ha Hnd IH]; intros db; [done|]. cbn [foldl].
  rewrite IH, lookup_add_spend. destruct (decide (x = a)) as [->|Hne].
  - rewrite (bool_decide_false (a ∈ l)), (bool_decide_true (a ∈ a :: l)) by (done || left). done.
  - rewrite (bool_decide_ext (x ∈ a :: l) (x ∈ l)) by set_solver. done.
Qed.

Lemma i64_wrap_small z : 0 <= z <= i64_max -> i64_wrap z = z.
Proof. unfold i64_wrap, i64_max. intros H. rewrite Z.mod_small; lia. Qed.

Lemma charges_since_snoc scope from ops o : charges_since scope from (ops ++ [o]) = charges_since scope from ops ++ op_charges scope from o.
Proof. unfold charges_since. rewrite map_app, concat_app. cbn [map concat]. by rewrite app_nil_r. Qed.

Lemma total_tokens_app l l' : total_tokens (l ++ l') = total_tokens l + total_tokens l'.
Proof. unfold total_tokens. rewrite map_app. induction (map fst l) as [|z m IH]; cbn [foldr app]; lia. Qed.

Lemma total_cost_snoc l tok cost : total_cost (l ++ [(tok, cost)]) = F64.add (total_cost l) cost.
Proof. unfold total_cost. by rewrite map_app, foldl_app. Qed.

(** ** Windows *)

Lemma lapsed_mono len start from now : from <= now -> window_lapsed len start from = true -> window_lapsed len start now = true.
Proof. unfold window_lapsed, i64_sat_sub. rewrite !andb_true_iff, !Z.leb_le. intros ? [? ?]. split; [done|lia]. Qed.

Lemma lapsed_later len start start' from : start <= start' -> window_lapsed len start' from = true -> window_lapsed len start from = true.
Proof. unfold window_lapsed, i64_sat_sub. rewrite !andb_true_iff, !Z.leb_le. intros ? [? ?]. split; [done|lia]. Qed.

Lemma lapsed_after len start from : window_lapsed len start from = true -> start < from.
Proof. unfold window_lapsed, i64_sat_sub. rewrite andb_true_iff, Z.leb_le, Z.ltb_lt. unfold i64_min, i64_max. lia. Qed.

(** The row of a scope after a history up to [t]: it began no later, its counts are
    what was charged since it began, and once it has lapsed nothing was charged. *)
Definition row_ok (len t : Z) (ops : list BudgetOp) (scope : string) (o : option BudgetRow) : Prop :=
  match o with
  | None => forall from, charges_since scope from ops = []
  | Some r =>
      let charges := charges_since scope (window_start_ms r) ops in
      0 <= window_start_ms r <= t /\ spent_tokens r = total_tokens charges /\ spent_cost r = total_cost charges /\
      (len <= 0 -> charges = charges_since scope 0 ops) /\
      forall from, window_lapsed len (window_start_ms r) from = true -> charges_since scope from ops = []
  end.

Lemma row_ok_charge len t ops scope o i tok cost now :
  row_ok len t ops scope o -> 0 <= t <= now -> scope ∈ budget_scopes i ->
  (forall from, 0 <= total_tokens (charges_since scope from ops) + tok <= i64_max) ->
  row_ok len now (ops ++ [OSpend i tok cost now]) scope (Some (charged_row len tok cost now o)).
Proof.
  intros Hrow Ht Hin Hfit.
  assert (Hop : forall from, op_charges scope from (OSpend i tok cost now) = if from <=? now then [(tok, cost)] else [])
    by (intros from; simpl; by rewrite bool_decide_true).
  assert (Hnew : forall k, (forall from, now <= from -> charges_since scope from ops = []) -> (len <= 0 -> charges_since scope 0 ops = []) ->
    row_ok len now (ops ++ [OSpend i tok cost now]) scope (Some (mkBudgetRow now (i64_wrap (0 + tok)) (F64.add F64.zero cost) k))).
  { intros k H0 Hz. simpl. setoid_rewrite charges_since_snoc. setoid_rewrite Hop. specialize (Hfit now). rewrite (H0 now) in * by lia.
    rewrite Z.leb_refl, (proj2 (Z.leb_le 0 now)) by lia. cbn [app]. unfold total_tokens, total_cost in *. cbn in *.
    rewrite i64_wrap_small by lia. split_and!; [lia..|done|intros Hlen; by rewrite Hz|]. intros from Hf%lapsed_after. rewrite H0 by lia.
    by rewrite (proj2 (Z.leb_gt from now)) by lia. }
  unfold charged_row. destruct o as [r|]; [|by apply Hnew; intros; rewrite Hrow].
  destruct Hrow as (Hs & Hc & Hcost & Hz & Hl). destruct (window_lapsed len (window_start_ms r) now) eqn:El.
  - apply Hnew; [intros from Hf; apply Hl; by eapply lapsed_mono|]. intros Hlen. unfold window_lapsed in El. lia.
  - simpl. setoid_rewrite charges_since_snoc. setoid_rewrite Hop. specialize (Hfit (window_start_ms r)).
    rewrite (proj2 (Z.leb_le (window_start_ms r) now)), (proj2 (Z.leb_le 0 now)), total_tokens_app, total_cost_snoc, Hc, Hcost by lia.
    unfold total_tokens at 3. cbn [map foldr fst]. rewrite i64_wrap_small by lia. split_and!; [lia..|done|intros Hlen; by rewrite Hz|].
    intros from Hf. rewrite Hl by done. destruct (Z.leb_spec from now) as [Hle|]; [|done]. rewrite (lapsed_mono _ _ _ _ Hle Hf) in El. done.
Qed.

(** A history that does not touch a scope. *)
Lemma row_ok_skip len t t' ops scope o op :
  t <= t' -> (forall from, op_charges scope from op = []) -> row_ok len t ops scope o -> row_ok len t' (ops ++ [op]) scope o.
Proof.
  intros Ht H0. unfold row_ok. destruct o as [r|]; cbv zeta; setoid_rewrite charges_since_snoc; setoid_rewrite H0; setoid_rewrite app_nil_r; [|done].
  intros (? & ? & ? & ? & ?). split_and!; [lia..|done|done|done].
Qed.

Lemma row_ok_kill len t ops scope o k sc :
  0 <= t -> row_ok len t ops scope o ->
  row_ok len t (ops ++ [OKill sc k]) scope
    (Some (match o with Some r => mkBudgetRow (window_start_ms r) (spent_tokens r) (spent_cost r) k | None => mkBudgetRow 0 0 F64.zero k end)).
Proof.
  intros Ht Hrow. destruct o as [r|]; simpl in *; setoid_rewrite charges_since_snoc; setoid_rewrite app_nil_r; [done|].
  rewrite Hrow. split_and!; [lia..|done|done|done|]. intros. apply Hrow.
Qed.

Lemma history_ok s ops done db t room :
  ops_ok t room ops -> 0 <= t -> 0 <= room <= i64_max ->
  (forall scope, row_ok (window_len_ms s) t done scope (db !! scope)) ->
  (forall scope from, 0 <= total_tokens (charges_since scope from done) <= i64_max - room) ->
  forall scope, exists t', row_ok (window_len_ms s) t' (done ++ ops) scope (foldl (budget_op s) db ops !! scope).
Proof.
  revert done db t room. induction ops as [|o ops IH]; intros done db t room Hok Ht Hroom Hrows Hfit scope.
  { exists t. rewrite app_nil_r. apply Hrows. }
  cbn [foldl]. replace (done ++ o :: ops) with ((done ++ [o]) ++ ops) by (by rewrite <- app_assoc).
  destruct o as [i tok cost now|sc k]; cbn [ops_ok] in Hok; cbn [budget_op].
  - destruct Hok as (Hnow & Htok & Hok). apply (IH _ _ now (room - tok)); [done|lia|lia| |].
    + intros x. rewrite lookup_record_spend. case_bool_decide as Hx.
      * apply (row_ok_charge _ t); [done|lia|done|]. intros from. specialize (Hfit x from). lia.
      * apply (row_ok_skip _ t); [lia| |done]. intros from. simpl. by rewrite bool_decide_false.
    + intros x from. rewrite charges_since_snoc, total_tokens_app. specialize (Hfit x from). simpl. case_match; unfold total_tokens at 2 4; cbn; lia.
  - apply (IH _ _ t room); [done..| |].
    + intros x. unfold set_model_proxy_kill_switch. destruct (decide (x = sc)) as [->|Hne].
      * rewrite lookup_insert_eq. by apply row_ok_kill.
      * rewrite lookup_insert_ne by done. by apply (row_ok_skip _ t).
    + intros x from. rewrite charges_since_snoc, app_nil_r. apply Hfit.
Qed.

(** When the window of a scope began: at its first charge or, when that window had
    lapsed, at the charge that found it lapsed; a scope first seen by the kill
    switch has a window from the epoch on. *)
Definition op_window (len : Z) (scope : string) (began : option Z) (o : BudgetOp) : option Z :=
  match o with
  | OSpend i _ _ now =>
      if bool_decide (scope ∈ budget_scopes i) then
        match began with Some start => if window_lapsed len start now then Some now else Some start | None => Some now end
      else began
  | OKill sc _ => if String.eqb sc scope then Some (default 0 began) else began
  end.

Definition window_began (len : Z) (scope : string) (ops : list BudgetOp) : option Z := foldl (op_window len scope) None ops.

Lemma window_tracked s ops scope : window_start_ms <$> foldl (budget_op s) ∅ ops !! scope = window_began (window_len_ms s) scope ops.
Proof.
  unfold window_began. induction ops as [|o ops IH] using rev_ind; [done|]. rewrite !foldl_app. cbn [foldl]. rewrite <- IH.
  destruct o as [i tok cost now|sc k]; cbn [budget_op op_window].
  - rewrite lookup_record_spend. case_bool_decide; [|done]. destruct (foldl _ _ _ !! scope) as [r|]; [|done].
    unfold charged_row. cbn. by destruct (window_lapsed _ _ _).
  - unfold set_model_proxy_kill_switch. destruct (String.eqb_spec sc scope) as [->|Hne].
    + rewrite lookup_insert_eq. by destruct (foldl _ _ _ !! scope).
    + by rewrite lookup_insert_ne.
Qed.

(** C12. The budget table accounts for every charge: after any history of charged
    requests and kill switches, with a clock that does not run backwards and counts
    that fit, the check compares with the caps of a scope exactly what was charged
    to it - as own, agent's, workspace's, zone's or global scope - since its window
    began, the sum of the tokens and the costs added up in order, or nothing once
    that window has lapsed; without windows, all of it.  The window began at the
    charge [window_began] says.  A scope without a row was never charged. *)
Theorem spend_accounted s ops scope now :
  ops_ok 0 i64_max ops ->
  let db := foldl (budget_op s) ∅ ops in
  window_start_ms <$> db !! scope = window_began (window_len_ms s) scope ops /\
  match db !! scope with
  | None => forall from, charges_since scope from ops = []
  | Some row =>
      let lapsed := window_lapsed (window_len_ms s) (window_start_ms row) now in
      let charges := charges_since scope (if lapsed then now else window_start_ms row) ops in
      current_spend db scope (window_len_ms s) now = Some (total_tokens charges, total_cost charges, killed row) /\
      (lapsed = true -> charges = []) /\
      (window_len_ms s <= 0 -> charges = charges_since scope 0 ops)
  end.
Proof.
  intros Hok db. split; [apply window_tracked|]. destruct (history_ok s ops [] ∅ 0 i64_max Hok) with (scope := scope) as [t Hrow].
  { lia. } { unfold i64_max. lia. } { intros x. by rewrite lookup_empty. } { intros x from. cbn. unfold i64_max. lia. }
  fold db in Hrow. cbn [app] in Hrow. unfold current_spend. destruct (db !! scope) as [row|]; [|exact Hrow].
  destruct Hrow as (Hs & Hc & Hcost & Hz & Hl). destruct (window_lapsed _ _ now) eqn:El; cbv zeta.
  - rewrite Hl by done. split_and!; [done..|]. unfold window_lapsed in El. lia.
  - split_and!; [by rewrite Hc, Hcost|done|done].
Qed.

Definition demo_ops : list BudgetOp :=
  let usd := F64.of_Z 3 in
  [OSpend (mkIdentity "worktree:/w" None (Some "workspace:/s") None None None) 10 usd 100; OKill "global" true;
   OSpend identity_global 7 usd 250; OSpend (mkIdentity "worktree:/w" None None None None None) 5 usd 1150;
   OSpend identity_global 2 usd 1160].

Lemma spend_accounted_witness :
  ops_ok 0 i64_max demo_ops /\
  current_spend (foldl (budget_op demo_budget) ∅ demo_ops) "global" 1000 1200 = Some (7, F64.of_Z 6, true).
Proof.
  assert (Hok : ops_ok 0 i64_max demo_ops) by (vm_compute; intuition discriminate).
  split; [exact Hok|]. pose proof (spend_accounted demo_budget demo_ops "global" 1200 Hok) as H.
  exact (proj1 (proj2 H)).
Defined.
