(* ===== verification/ProxyRoute.v ===== *)
(** * Choosing and reading: the pure parts of the model router

    thegn-core/src/proxy/{route_select,classify,transform,usage_order,cost}.rs,
    thegn-core/src/time_policy.rs (deadlines), thegn-proxy/src/{model,headers,
    reset}.rs and the helpers of router.rs and server.rs that touch no shared
    state.  serde_json's reader and printer, chrono's two date readers, the regular
    expressions, [str::parse::<f64>] and Unicode lower case are parameters. *)
From Stdlib Require Import Ascii String SpecFloat.
From S2P Require Import Prelude RustOrd RustFloat RustStr RustText RustChars McpProxy ProxyPool ProxyLimit ProxyBudget.
Local Open Scope string_scope.
Local Open Scope list_scope.
Local Open Scope Z_scope.

(** A text written with single quotes for double ones. *)
Fixpoint double_quotes (s : string) : string :=
  match s with EmptyString => EmptyString | String a s => String (if Ascii.eqb a "'" then "034" else a) (double_quotes s) end.

(** ** Objects

    serde_json keeps the fields of an object sorted by key. *)

Abbreviation Object := (list (string * JsonValue)).

Fixpoint obj_insert (k : string) (x : JsonValue) (l : Object) : Object :=
  match l with
  | [] => [(k, x)]
  | (k', v) :: l' =>
      match String.compare k k' with Lt => (k, x) :: l | Eq => (k, x) :: l' | Gt => (k', v) :: obj_insert k x l' end
  end.

Definition obj_remove (k : string) (l : Object) : Object := List.filter (fun '(k', _) => negb (String.eqb k' k)) l.

Definition value_as_bool (v : JsonValue) : option bool := match v with VBool b => Some b | _ => None end.
Definition value_as_u64 (v : JsonValue) : option N := match v with VNumber t => parse_u64 t | _ => None end.

(** [Value::as_i64]. *)
Definition number_as_i64 (t : string) : option Z :=
  match strip_prefix "-" t with
  | Some t => n ← parse_uint 9223372036854775808%N t; Some (- Z.of_N n)
  | None => n ← parse_uint 9223372036854775807%N t; Some (Z.of_N n)
  end.

(** ** [String::from_utf8_lossy]

    Every maximal prefix of a character that breaks off becomes U+FFFD. *)

Definition replacement (s : string) : string := push_char 65533 s.

Definition second_ok (x : N) (b : ascii) : bool :=
  if (x =? 224)%N then byte_in 160 191 b else if (x =? 237)%N then byte_in 128 159 b
  else if (x =? 240)%N then byte_in 144 191 b else if (x =? 244)%N then byte_in 128 143 b else byte_in 128 191 b.

Fixpoint from_utf8_lossy (s : string) : string :=
  match s with
  | EmptyString => EmptyString
  | String a s1 =>
      let x := N_of_ascii a in
      if (x <? 128)%N then String a (from_utf8_lossy s1)
      else if ((x <? 194) || (244 <? x))%N then replacement (from_utf8_lossy s1)
      else match s1 with
           | EmptyString => replacement EmptyString
           | String b s2 =>
               if negb (second_ok x b) then replacement (from_utf8_lossy s1)
               else if (x <? 224)%N then String a (String b (from_utf8_lossy s2))
               else match s2 with
                    | EmptyString => replacement EmptyString
                    | String c s3 =>
                        if negb (byte_in 128 191 c) then replacement (from_utf8_lossy s2)
                        else if (x <? 240)%N then String a (String b (String c (from_utf8_lossy s3)))
                        else match s3 with
                             | EmptyString => replacement EmptyString
                             | String d s4 =>
                                 if negb (byte_in 128 191 d) then replacement (from_utf8_lossy s3)
                                 else String a (String b (String c (String d (from_utf8_lossy s4))))
                             end
                    end
           end
  end.

(** [str::from_utf8] accepts what the lossy reading leaves alone. *)
Definition is_utf8 (s : string) : bool := String.eqb (from_utf8_lossy s) s.

(** ** Tiers *)

Record AutoTier := mkTier { t_name : string; t_max_tokens : option N }.

Record RequestFeatures := mkFeatures { est_tokens : N; has_tools : bool; streaming : bool; mode_hint : option string }.

Definition TOOL_TOKEN_BUMP : N := 8192.

Definition capacity (t : AutoTier) : N := default u64_max (t_max_tokens t).

Definition smaller_tier : AutoTier -> AutoTier -> comparison := lex (on capacity N.compare) (on t_name String.compare).
Definition larger_tier : AutoTier -> AutoTier -> comparison := lex (on capacity N.compare) (reverse (on t_name String.compare)).

(** [Iterator::min_by]: of several least elements, the first; [max_by]: of
    several greatest, the last. *)
Definition min_by {A} (cmp : A -> A -> comparison) (l : list A) : option A :=
  fold_left (fun best x => match best with None => Some x | Some b => match cmp b x with Gt => Some x | _ => Some b end end) l None.
Definition max_by {A} (cmp : A -> A -> comparison) (l : list A) : option A :=
  fold_left (fun best x => match best with None => Some x | Some b => match cmp b x with Gt => Some b | _ => Some x end end) l None.

Definition effective_tokens (f : RequestFeatures) : N := u64_sat_add (est_tokens f) (if has_tools f then TOOL_TOKEN_BUMP else 0).

(** The tier a client names. *)
Definition hinted_tier (tiers : list AutoTier) (f : RequestFeatures) : option AutoTier :=
  match mode_hint f with
  | Some hint => let hint := trim hint in if is_empty hint then None else List.find (fun t => eq_ignore_case (t_name t) hint) tiers
  | None => None
  end.

Definition route_select (tiers : list AutoTier) (f : RequestFeatures) : option string :=
  match tiers with
  | [] => None
  | _ =>
      match hinted_tier tiers f with
      | Some t => Some (t_name t)
      | None =>
          match min_by smaller_tier (List.filter (fun t => (effective_tokens f <=? capacity t)%N) tiers) with
          | Some best => Some (t_name best)
          | None => t_name <$> max_by larger_tier tiers
          end
      end
  end.

(** ** Backends, routes and the configuration *)

Inductive Wire := WOpenAi | WAnthropic.

Inductive RoutingStrategy := Sequential | LoadBalanced | CostAware.

(** A shared pool: which one it is, and what of it never changes. *)
Record PoolRef := mkPoolRef { pool_id : nat; pool_strategy : KeyStrategy; pool_weights : list N }.

Record Backend := mkBackend {
  b_name : string;
  key_id : string;
  base_url : string;
  b_model : string;
  api_key : string;
  wire : Wire;
  context_limit : N;
  defaults : Object;
  rate : RatePolicy;
  inflight_cap : N;
  b_pool : option PoolRef;
}.

Definition identity (b : Backend) : string := (b_name b ++ key_id b)%string.
Definition is_anthropic (b : Backend) : bool := match wire b with WAnthropic => true | WOpenAi => false end.

Record Route := mkRouteOf {
  rt_name : string;
  priority : list Backend;
  rt_strategy : RoutingStrategy;
  order_pool : option PoolRef;
  rt_last_resort : bool;
}.

(** ** Prices *)

Record PricePoint := mkPrice { input_usd_per_mtok : f64; output_usd_per_mtok : f64 }.

Record Usage := mkUsage { prompt_tokens : N; completion_tokens : N; cache_read_tokens : N; cache_creation_tokens : N }.

Definition usage_default : Usage := mkUsage 0 0 0 0.

(** [u64] addition wraps in a release build. *)
Definition usage_total (u : Usage) : N := ((prompt_tokens u + completion_tokens u) mod (u64_max + 1))%N.
Definition usage_is_empty (u : Usage) : bool := (prompt_tokens u =? 0)%N && (completion_tokens u =? 0)%N.

Inductive CostSource := SrcSubscription | SrcHeader | SrcEstimate | SrcUnknown.

Definition source_str (s : CostSource) : string :=
  match s with
  | SrcSubscription => "subscription" | SrcHeader => "header" | SrcEstimate => "estimate" | SrcUnknown => "unknown"
  end.

Record PriceTable := mkPrices { cost_bearing : gset string; prices : gmap string PricePoint }.

Definition add_cost_bearing (t : PriceTable) (provider : string) : PriceTable := mkPrices ({[provider]} ∪ cost_bearing t) (prices t).
Definition set_price (t : PriceTable) (key : string) (p : PricePoint) : PriceTable := mkPrices (cost_bearing t) (<[key := p]> (prices t)).

Definition is_cost_bearing (t : PriceTable) (backend : string) : bool := bool_decide (provider_base backend ∈ cost_bearing t).

Definition pricing_for (t : PriceTable) (backend model : string) : option PricePoint :=
  match prices t !! (provider_base backend ++ ":" ++ model)%string with Some p => Some p | None => prices t !! model end.

Definition cost_usd (t : PriceTable) (backend model : string) (u : Usage) (header_cost : option f64) : f64 * CostSource :=
  if negb (is_cost_bearing t backend) then (F64.zero, SrcSubscription)
  else match header_cost with
       | Some c => (c, SrcHeader)
       | None =>
           if usage_is_empty u then (F64.zero, SrcUnknown)
           else match pricing_for t backend model with
                | Some p =>
                    (F64.div (F64.add (F64.mul (F64.of_Z (Z.of_N (prompt_tokens u))) (input_usd_per_mtok p))
                                      (F64.mul (F64.of_Z (Z.of_N (completion_tokens u))) (output_usd_per_mtok p)))
                             (F64.of_Z 1000000), SrcEstimate)
                | None => (F64.zero, SrcUnknown)
                end
       end.

Record ProxyConfig := mkConfig {
  routes : list Route;
  first_byte : Z;
  idle : Z;
  aliases : gmap string string;
  last_resort : bool;
  usage_aware : bool;
  auto_tiers : list AutoTier;
  price_table : PriceTable;
  budget : BudgetSettings;
}.

Definition AUTO_TARGET : string := "@auto".

(** The client's model without the prefix of this proxy. *)
Definition bare_model (model : string) : string := default model (strip_prefix "model-proxy/" model).

Definition alias_of (c : ProxyConfig) (model : string) : option string :=
  match aliases c !! model with Some t => Some t | None => aliases c !! bare_model model end.

Definition lookup_route (c : ProxyConfig) (model : string) : option Route :=
  let target := default (bare_model model) (alias_of c model) in
  match List.find (fun r => String.eqb (rt_name r) target) (routes c) with Some r => Some r | None => head (routes c) end.

Definition is_auto (c : ProxyConfig) (model : string) : bool := bool_decide (alias_of c model = Some AUTO_TARGET).

(** ** Transforms *)

Definition MIN_MAX_TOKENS : Z := 32768.

Definition request_has_tools (body : JsonValue) : bool :=
  match value_get "tools" body ≫= value_as_array with Some (_ :: _) => true | _ => false end.

Definition estimated_request_tokens (len : N) : N := (len / 4)%N.
Definition exceeds_context_limit (limit est : N) : bool := ((0 <? limit) && (limit <? est))%N.

Definition apply_backend_defaults (fields defaults : Object) : Object :=
  fold_left (fun fields '(k, v) => match assoc k fields with Some _ => fields | None => obj_insert k v fields end) defaults fields.

Definition ensure_stream_usage (body : JsonValue) : JsonValue :=
  match body with
  | VObject fields =>
      let opts := match assoc "stream_options" fields with
                  | Some (VObject o) => VObject (obj_insert "include_usage" (VBool true) o)
                  | None => VObject [("include_usage", VBool true)]
                  | Some _ => VObject [("include_usage", VBool true)]
                  end in
      VObject (obj_insert "stream_options" opts fields)
  | _ => body
  end.

Section Numbers.
Context (parse_f64 : string -> option f64).

(** [f as i64] of a number that is positive and integral. *)
Definition f64_as_i64 (f : f64) : Z := Z.max i64_min (Z.min i64_max (float_trunc f)).

Definition is_integral (f : f64) : bool := is_finite f && SFeqb (F64.of_Z (float_trunc f)) f.

(** [as_f64] of an integer too large for [i64] is its conversion, which is what
    its text reads as. *)
Definition positive_int (v : JsonValue) : option Z :=
  match v with
  | VNumber t =>
      match number_as_i64 t with
      | Some i => if 0 <? i then Some i else None
      | None => f ← parse_f64 t; if SFltb F64.zero f && is_integral f then Some (f64_as_i64 f) else None
      end
  | _ => None
  end.

Definition current_max_tokens (fields : Object) : Z :=
  default 0 (match assoc "max_tokens" fields ≫= positive_int with
             | Some i => Some i
             | None => assoc "max_completion_tokens" fields ≫= positive_int
             end).

Definition ensure_max_tokens (fields : Object) : Object :=
  let current := current_max_tokens fields in
  let floor := VNumber (fmt_i64 MIN_MAX_TOKENS) in
  if (0 <? current) && (current <? MIN_MAX_TOKENS) then obj_remove "max_completion_tokens" (obj_insert "max_tokens" floor fields)
  else if current =? 0 then obj_insert "max_tokens" floor fields
  else fields.

Context (to_vec : JsonValue -> string).

Definition apply_transforms (b : Backend) (parsed : JsonValue) (original : string) : string :=
  match parsed with
  | VObject fields =>
      let fields := if is_empty (b_model b) then fields else obj_insert "model" (VString (b_model b)) fields in
      to_vec (VObject (apply_backend_defaults (ensure_max_tokens fields) (defaults b)))
  | _ => original
  end.
End Numbers.

(** ** Account headroom *)

Definition usage_order (used : list (option f32)) (warn crit : f32) : list nat :=
  let past t i := match used !! i with Some (Some p) => SFleb t p | _ => false end in
  let fresh := List.filter (fun i => negb (past crit i) && negb (past warn i)) (seq 0 (length used)) in
  let warned := List.filter (fun i => negb (past crit i) && past warn i) (seq 0 (length used)) in
  match fresh ++ warned with [] => seq 0 (length used) | order => order end.
