(* ===== verification/ProxyReply.v ===== *)
(** * Reading what an upstream answered

    thegn-core/src/proxy/classify.rs, the deadlines of
    thegn-core/src/time_policy.rs, thegn-proxy/src/{headers,reset}.rs and the usage
    block of relay.rs.  Which parts of the outside are parameters is said at each
    section. *)
From Stdlib Require Import Ascii String SpecFloat.
From S2P Require Import Prelude RustOrd RustFloat RustStr RustText RustChars McpProxy ProxyLimit ProxyBudget ProxyRoute.
Local Open Scope string_scope.
Local Open Scope list_scope.
Local Open Scope Z_scope.

(** ** Classification *)

Inductive FailKind := Serve | Soft | Exhausted.

#[global] Instance FailKind_eq_dec : EqDecision FailKind.
Proof. solve_decision. Defined.

Definition AVAILABILITY_KEYWORDS : list string :=
  ["insufficient_quota"; "out of credits"; "credit"; "billing"; "payment required"; "rate limit"; "rate_limit"; "quota";
   "exhausted"; "invalid api key"; "unauthorized"; "forbidden"; "model is not supported"; "not supported when using"].

Definition truncate_log_message (s : string) (max : nat) : string :=
  if (length (chars s) <=? max)%nat then s else (of_chars (take max (chars s)) ++ push_char 8230 "")%string.

Definition error_body_snippet (body : string) : string :=
  truncate_log_message (join " " (split_whitespace (from_utf8_lossy body))) 200.

Section Classify.
(** serde_json's reader and [str::to_lowercase]. *)
Context (from_slice : string -> option JsonValue) (to_lowercase : string -> string).

Definition error_body_message (body : string) : option string :=
  v ← from_slice body;
  err ← value_get "error" v;
  match err with
  | VNull => None
  | _ =>
      let field k := default "" (value_get k err ≫= value_as_str) in
      Some (to_lowercase (trim (field "message" ++ " " ++ field "code" ++ " " ++ field "type")))
  end.

(** [HTTP <status> (<label>)], with the message when there is one. *)
Definition labelled (status : Z) (label : string) (msg : option string) : string :=
  ("HTTP " ++ fmt_i64 status ++ " (" ++ label ++ ")" ++ match msg with Some m => ": " ++ m | None => "" end)%string.

Definition classify_response (status : Z) (body : string) : FailKind * string :=
  let msg := error_body_message body in
  if (status =? 429) || (status =? 402) then (Exhausted, labelled status "rate limit" msg)
  else if (status =? 401) || (status =? 403) then (Exhausted, labelled status "auth" msg)
  else
    let available := match msg with Some m => existsb (fun kw => contains kw m) AVAILABILITY_KEYWORDS | None => false end in
    if available then (Exhausted, default "" msg)
    else if bool_decide (is_Some msg) && (200 <=? status) && (status <? 300) then (Soft, default "" msg)
    else
      let snippet := error_body_snippet body in
      if 500 <=? status then
        (Exhausted, labelled status "upstream outage" (if is_empty snippet then None else Some snippet))
      else if 400 <=? status then
        (Soft, ("HTTP " ++ fmt_i64 status ++ if is_empty snippet then "" else ": " ++ snippet)%string)
      else (Serve, "").

Definition is_auth_exhaustion_reason (reason : string) : bool :=
  let r := to_lowercase reason in
  existsb (fun n => contains n r) ["(auth)"; "401"; "403"; "unauthorized"; "forbidden"; "invalid api key"].
End Classify.

(** ** Usage *)

Definition u64_at (v : JsonValue) (k : string) : N := default 0%N (value_get k v ≫= value_as_u64).

Definition parse_openai_usage (usage : JsonValue) : Usage :=
  let translated := u64_at usage "cache_read_tokens" in
  let cache_read :=
    if (0 <? translated)%N then translated
    else match value_get "prompt_tokens_details" usage with Some d => u64_at d "cached_tokens" | None => 0%N end in
  mkUsage (u64_at usage "prompt_tokens") (u64_at usage "completion_tokens") cache_read (u64_at usage "cache_creation_tokens").

Definition parse_usage (from_slice : string -> option JsonValue) (body : string) : Usage :=
  match from_slice body with
  | None => usage_default
  | Some v => match value_get "usage" v with Some VNull | None => usage_default | Some u => parse_openai_usage u end
  end.

(** ** Deadlines *)

Definition MAX_DURATION_SECS : Z := 315360000.
Definition MAX_DURATION_MILLIS : Z := MAX_DURATION_SECS * 1000.

(** [f.ceil() as u64] of a number the callers have found to be finite, not
    negative and below [2^53]. *)
Definition ceil_u64 (f : f64) : Z := let t := float_trunc f in if SFeqb (F64.of_Z t) f then t else t + 1.

Definition deadline_millis (now_ms delay_ms : Z) : option Z :=
  if (now_ms <? 0) || (MAX_DURATION_MILLIS <? delay_ms) then None
  else if i64_max <? now_ms + delay_ms then None else Some (now_ms + delay_ms).

Definition deadline_millis_from_seconds (now_ms : Z) (seconds : f64) : option Z :=
  if negb (is_finite seconds) || negb (in_closed F64.zero (F64.of_Z MAX_DURATION_SECS) seconds) then None
  else deadline_millis now_ms (ceil_u64 (F64.mul seconds (F64.of_Z 1000))).

(** ** Headers

    A header whose value is no visible ASCII is present without a text. *)

Abbreviation HeaderMap := (gmap string (option string)).

Definition COST_HEADERS : list string :=
  ["x-nanogpt-cost"; "x_nanogpt_pricing"; "x-upstream-cost-usd"; "x_upstream_cost_usd"; "x-openrouter-cost"].

Definition header_text (h : HeaderMap) (name : string) : option string := mjoin (h !! name).

Section Headers.
(** [str::parse::<f64>] and chrono's reader of RFC 2822 dates, in milliseconds. *)
Context (parse_f64 : string -> option f64) (parse_rfc2822 : string -> option Z).

Definition cost_value (h : HeaderMap) (name : string) : option f64 :=
  s ← header_text h name;
  c ← parse_f64 (trim s);
  if is_finite c && SFleb F64.zero c then Some c else None.

Fixpoint first_some {A B} (f : A -> option B) (l : list A) : option B :=
  match l with [] => None | a :: l => match f a with Some b => Some b | None => first_some f l end end.

Definition header_cost (h : HeaderMap) : option f64 := first_some (cost_value h) COST_HEADERS.

Definition retry_after_ms (h : HeaderMap) (now_ms : Z) : option Z :=
  v ← header_text h "retry-after";
  let v := trim v in
  match parse_f64 v with
  | Some secs => if SFltb F64.zero secs then deadline_millis_from_seconds now_ms secs else None
  | None => ts ← parse_rfc2822 v; if now_ms <? ts then Some ts else None
  end.
End Headers.

(** ** Resets named in a body *)

Inductive ResetPattern := QUOTA_RESET_TIMESTAMP | RESETS_AT | RESETS_IN_SECONDS | QUOTA_RESET_DELAY | RETRY_DELAY.

Section Reset.
(** The first group of a pattern's first match, chrono's reader of RFC 3339 dates
    and [str::parse::<f64>]. *)
Context (captures : ResetPattern -> string -> option string) (parse_rfc3339 : string -> option Z)
  (parse_f64 : string -> option f64).

(** [from_utf8(&c[1])]. *)
Definition capture_text (p : ResetPattern) (body : string) : option string :=
  c ← captures p body; if is_utf8 c then Some c else None.

Definition is_duration_digit (c : N) : bool := char_in 48 57 c || (c =? 46)%N.
Definition is_unit_char (c : N) : bool := char_in 65 90 c || char_in 97 122 c || (c =? 181)%N.

(** The milliseconds of one number with its unit, added to the total. *)
Definition add_unit (total : f64) (num unit : list N) : option f64 :=
  v ← parse_f64 (of_chars num);
  let u := of_chars unit in
  let ms :=
    if String.eqb u "h" then Some (F64.mul v (F64.of_Z 3600000))
    else if String.eqb u "m" then Some (F64.mul v (F64.of_Z 60000))
    else if String.eqb u "s" then Some (F64.mul v (F64.of_Z 1000))
    else if String.eqb u "ms" then Some v
    else if String.eqb u "us" || String.eqb u (push_char 181 "s") then Some (F64.div v (F64.of_Z 1000))
    else if String.eqb u "ns" then Some (F64.div v (F64.of_Z 1000000))
    else None in
  F64.add total <$> ms.

(** The scan: the number and the unit collected so far.  A unit ends at the first
    character that is none of its letters; what is neither digit nor letter gives
    an empty unit, which nothing reads. *)
Fixpoint go_duration (l : list N) (num unit : list N) (total : f64) : option f64 :=
  match l with
  | [] =>
      match unit with
      | [] => match num with [] => Some total | _ => None end
      | _ => add_unit total num unit
      end
  | c :: l =>
      match unit with
      | [] =>
          if is_duration_digit c then go_duration l (num ++ [c]) [] total
          else if is_unit_char c then go_duration l num [c] total
          else None
      | _ =>
          if is_unit_char c then go_duration l num (unit ++ [c]) total
          else total ← add_unit total num unit; if is_duration_digit c then go_duration l [c] [] total else None
      end
  end.

Definition parse_go_duration_ms (s : string) : option Z :=
  total ← go_duration (chars s) [] [] F64.zero;
  if negb (is_finite total) || negb (in_closed F64.zero (F64.of_Z MAX_DURATION_MILLIS) total) then None
  else Some (ceil_u64 total).

Definition reset_timestamp (body : string) : option Z := capture_text QUOTA_RESET_TIMESTAMP body ≫= parse_rfc3339.

Definition reset_at (body : string) : option Z :=
  ts ← capture_text RESETS_AT body ≫= parse_uint 9223372036854775807%N;
  if (0 <? ts)%N then Some (if 1000000000000 <? Z.of_N ts then Z.of_N ts else Z.of_N ts * 1000) else None.

Definition reset_in_seconds (body : string) : option f64 :=
  secs ← capture_text RESETS_IN_SECONDS body ≫= parse_f64; if SFltb F64.zero secs then Some secs else None.

Definition reset_delay (p : ResetPattern) (body : string) : option Z :=
  ms ← capture_text p body ≫= parse_go_duration_ms; if 0 <? ms then Some ms else None.

Definition parse_reset_from_body (body : string) (now_ms : Z) : option Z :=
  if is_empty body then None
  else match reset_timestamp body with
  | Some t => Some t
  | None =>
  match reset_at body with
  | Some t => Some t
  | None =>
  match reset_in_seconds body with
  | Some secs => deadline_millis_from_seconds now_ms secs
  | None =>
  match first_some (fun p => reset_delay p body) [QUOTA_RESET_DELAY; RETRY_DELAY] with
  | Some ms => deadline_millis now_ms ms
  | None => None
  end end end end.
End Reset.
