(* ===== verification/ProxyRelay.v ===== *)
(** * The streaming relay of the model proxy

    thegn-proxy/src/relay.rs and anthropic_stream.rs: reading server-sent events,
    the two sinks that turn upstream lines into client bytes, the peek before a
    lane is committed to, and the relay after it.  What arrives, and which timer
    fires when, is a list of events; the channel to the client is how many more
    frames it takes.  serde_json's reader and printer are parameters. *)
From Stdlib Require Import Ascii String.
From S2P Require Import Prelude RustStr RustText McpProxy ProxyBudget ProxyRoute ProxyReply.
Local Open Scope string_scope.
Local Open Scope list_scope.

(** ** Lines of server-sent events *)

Record ToolCallDelta := mkToolCall { tc_index : N; tc_id : option string; tc_name : option string; args_fragment : string }.

Record OpenAiChunk := mkChunk {
  content : option string;
  tool_calls : list ToolCallDelta;
  ck_finish_reason : option string;
  ck_usage : option Usage;
}.

Definition tool_call_of (tc : JsonValue) : ToolCallDelta :=
  let f := value_get "function" tc in
  mkToolCall (default 0%N (value_get "index" tc ≫= value_as_u64)) (value_get "id" tc ≫= value_as_str)
    ((f ≫= value_get "name") ≫= value_as_str) (default "" ((f ≫= value_get "arguments") ≫= value_as_str)).

Definition first_choice (v : JsonValue) : option JsonValue := (value_get "choices" v ≫= value_as_array) ≫= head.

Definition non_empty (s : string) : option string := if is_empty s then None else Some s.

Definition chunk_of (v : JsonValue) : OpenAiChunk :=
  let usage := match value_get "usage" v with Some VNull | None => None | Some u => Some (parse_openai_usage u) end in
  match first_choice v with
  | None => mkChunk None [] None usage
  | Some choice =>
      let delta := value_get "delta" choice in
      mkChunk (((delta ≫= value_get "content") ≫= value_as_str) ≫= non_empty)
        (map tool_call_of (default [] ((delta ≫= value_get "tool_calls") ≫= value_as_array)))
        (value_get "finish_reason" choice ≫= value_as_str) usage
  end.

(** The bytes up to and with each line feed, and what is left. *)
Fixpoint drain_lines (s : string) : list string * string :=
  match s with
  | EmptyString => ([], EmptyString)
  | String a s =>
      let '(ls, rest) := drain_lines s in
      if Ascii.eqb a "010" then (String a EmptyString :: ls, rest)
      else match ls with [] => ([], String a rest) | l :: ls => (String a l :: ls, rest) end
  end.

Definition lf : string := String "010" "".

(** ** Sinks *)

(** What the relay asks of a surface. *)
Class StreamSink (S : Type) := {
  heartbeat_frame : S -> string;
  process : S -> string -> S * string;
  finish : S -> S * string;
  sink_usage : S -> Usage;
  sink_finish_reason : S -> option string;
}.

(** Lines in order, their output appended. *)
Definition process_all {S} `{StreamSink S} (s : S) (ls : list string) : S * string :=
  foldl (fun '(s, out) l => let '(s, o) := process s l in (s, (out ++ o)%string)) (s, EmptyString) ls.

Section Lines.
Context (from_str : string -> option JsonValue).

Definition parse_sse_data_line (line : string) : option OpenAiChunk :=
  if negb (is_utf8 line) then None
  else
    payload ← strip_prefix "data:" (trim line);
    let payload := trim payload in
    if is_empty payload || String.eqb payload "[DONE]" then None else chunk_of <$> from_str payload.

Definition sse_chunk_has_output (line : string) : bool :=
  match parse_sse_data_line line with
  | Some c =>
      match content c with Some s => negb (is_empty (trim s)) | None => false end ||
      match tool_calls c with [] => false | _ => true end ||
      match ck_finish_reason c with Some r => String.eqb r "tool_calls" | None => false end
  | None => false
  end.

Record OpenAiSink := mkOpenAiSink { oa_usage : Usage; oa_finish_reason : option string }.

Definition openai_sink : OpenAiSink := mkOpenAiSink usage_default None.

Definition openai_process (s : OpenAiSink) (line : string) : OpenAiSink * string :=
  match parse_sse_data_line line with
  | Some c => (mkOpenAiSink (default (oa_usage s) (ck_usage c)) (ProxyBudget.or_else (ck_finish_reason c) (oa_finish_reason s)), line)
  | None => (s, line)
  end.
End Lines.

Definition KEEP_ALIVE : string := (": keep-alive" ++ lf ++ lf)%string.

Definition OpenAiSink_StreamSink (from_str : string -> option JsonValue) : StreamSink OpenAiSink := {|
  heartbeat_frame _ := KEEP_ALIVE;
  process := openai_process from_str;
  finish s := (s, EmptyString);
  sink_usage := oa_usage;
  sink_finish_reason := oa_finish_reason;
|}.

(** ** Anthropic events *)

Inductive Block := NoBlock | TextBlock | ToolBlock.

#[global] Instance Block_eq_dec : EqDecision Block.
Proof. solve_decision. Defined.

(** The events of the Anthropic stream, with what their data varies in. *)
Inductive AEvent :=
| MessageStart
| TextStart (index : N)
| ToolStart (index : N) (id name : string)
| TextDelta (index : N) (text : string)
| InputDelta (index : N) (partial_json : string)
| BlockStop (index : N)
| MessageDelta (stop_reason : string) (output_tokens : N)
| MessageStop.

Record AnthropicSink := mkAnthropicSink {
  msg_id : string;
  as_model : string;
  input_tokens_estimate : N;
  started : bool;
  block : Block;
  next_index : N;
  open_index : N;
  tool_block : gmap N N;
  as_usage : Usage;
  as_finish_reason : option string;
  as_done : bool;
}.

Definition anthropic_sink (msg_id model : string) (est : N) : AnthropicSink :=
  mkAnthropicSink msg_id model est false NoBlock 0 0 ∅ usage_default None false.

Definition set_started s := mkAnthropicSink (msg_id s) (as_model s) (input_tokens_estimate s) true (block s) (next_index s) (open_index s) (tool_block s) (as_usage s) (as_finish_reason s) (as_done s).
Definition set_block b o s := mkAnthropicSink (msg_id s) (as_model s) (input_tokens_estimate s) (started s) b (next_index s) o (tool_block s) (as_usage s) (as_finish_reason s) (as_done s).
Definition bump_index s := mkAnthropicSink (msg_id s) (as_model s) (input_tokens_estimate s) (started s) (block s) (next_index s + 1)%N (open_index s) (tool_block s) (as_usage s) (as_finish_reason s) (as_done s).
Definition set_tools t s := mkAnthropicSink (msg_id s) (as_model s) (input_tokens_estimate s) (started s) (block s) (next_index s) (open_index s) t (as_usage s) (as_finish_reason s) (as_done s).
Definition set_totals u f s := mkAnthropicSink (msg_id s) (as_model s) (input_tokens_estimate s) (started s) (block s) (next_index s) (open_index s) (tool_block s) u f (as_done s).
Definition set_done s := mkAnthropicSink (msg_id s) (as_model s) (input_tokens_estimate s) (started s) (block s) (next_index s) (open_index s) (tool_block s) (as_usage s) (as_finish_reason s) true.

Definition close_open_block (s : AnthropicSink) : AnthropicSink * list AEvent :=
  if decide (block s = NoBlock) then (s, []) else (set_block NoBlock (open_index s) s, [BlockStop (open_index s)]).

Definition ensure_started (s : AnthropicSink) : AnthropicSink * list AEvent :=
  if started s then (s, []) else (set_started s, [MessageStart]).

Definition handle_text (s : AnthropicSink) (text : string) : AnthropicSink * list AEvent :=
  if decide (block s = TextBlock) then (s, [TextDelta (open_index s) text])
  else
    let '(s, closed) := close_open_block s in
    let idx := next_index s in
    (bump_index (set_block TextBlock idx s), closed ++ [TextStart idx; TextDelta idx text]).

Definition handle_tool (s : AnthropicSink) (tc : ToolCallDelta) : AnthropicSink * list AEvent :=
  let '(s, opened) :=
    match tool_block s !! tc_index tc with
    | None =>
        let '(s, closed) := close_open_block s in
        let idx := next_index s in
        (set_block ToolBlock idx (set_tools (<[tc_index tc := idx]> (tool_block s)) (bump_index s)),
         closed ++ [ToolStart idx (default "" (tc_id tc)) (default "" (tc_name tc))])
    | Some idx => (set_block ToolBlock idx s, [])
    end in
  (s, opened ++ if is_empty (args_fragment tc) then [] else [InputDelta (open_index s) (args_fragment tc)]).

Fixpoint handle_tools (s : AnthropicSink) (tcs : list ToolCallDelta) : AnthropicSink * list AEvent :=
  match tcs with
  | [] => (s, [])
  | tc :: tcs => let '(s, e1) := handle_tool s tc in let '(s, e2) := handle_tools s tcs in (s, e1 ++ e2)
  end.

Definition handle_chunk (s : AnthropicSink) (c : OpenAiChunk) : AnthropicSink * list AEvent :=
  let '(s, e0) := ensure_started s in
  let '(s, e1) := match content c with Some text => handle_text s text | None => (s, []) end in
  let '(s, e2) := handle_tools s (tool_calls c) in
  (set_totals (default (as_usage s) (ck_usage c)) (or_else (ck_finish_reason c) (as_finish_reason s)) s, e0 ++ e1 ++ e2).

Definition map_stop_reason (finish : string) : string :=
  if String.eqb finish "length" then "max_tokens"
  else if String.eqb finish "tool_calls" || String.eqb finish "function_call" then "tool_use"
  else "end_turn".

Definition anthropic_finish (s : AnthropicSink) : AnthropicSink * list AEvent :=
  if as_done s then (s, [])
  else
    let '(s, e0) := ensure_started (set_done s) in
    let '(s, e1) := close_open_block s in
    (s, e0 ++ e1 ++ [MessageDelta (map_stop_reason (default "stop" (as_finish_reason s))) (completion_tokens (as_usage s)); MessageStop]).

(** *** Their text *)

Definition obj (fields : Object) : JsonValue := VObject (foldl (fun o '(k, v) => obj_insert k v o) [] fields).
Definition num (n : N) : JsonValue := VNumber (fmt_N n).

Definition event_name (e : AEvent) : string :=
  match e with
  | MessageStart => "message_start"
  | TextStart _ | ToolStart _ _ _ => "content_block_start"
  | TextDelta _ _ | InputDelta _ _ => "content_block_delta"
  | BlockStop _ => "content_block_stop"
  | MessageDelta _ _ => "message_delta"
  | MessageStop => "message_stop"
  end.

Definition event_data (s : AnthropicSink) (e : AEvent) : JsonValue :=
  let typed fields := obj (("type", VString (event_name e)) :: fields) in
  match e with
  | MessageStart =>
      typed [("message", obj
        [("id", VString (msg_id s)); ("type", VString "message"); ("role", VString "assistant"); ("model", VString (as_model s));
         ("content", VArray []); ("stop_reason", VNull); ("stop_sequence", VNull);
         ("usage", obj [("input_tokens", num (input_tokens_estimate s)); ("output_tokens", num 0)])])]
  | TextStart i => typed [("index", num i); ("content_block", obj [("type", VString "text"); ("text", VString "")])]
  | ToolStart i id name =>
      typed [("index", num i);
        ("content_block", obj [("type", VString "tool_use"); ("id", VString id); ("name", VString name); ("input", obj [])])]
  | TextDelta i text => typed [("index", num i); ("delta", obj [("type", VString "text_delta"); ("text", VString text)])]
  | InputDelta i part => typed [("index", num i); ("delta", obj [("type", VString "input_json_delta"); ("partial_json", VString part)])]
  | BlockStop i => typed [("index", num i)]
  | MessageDelta stop n =>
      typed [("delta", obj [("stop_reason", VString stop); ("stop_sequence", VNull)]); ("usage", obj [("output_tokens", num n)])]
  | MessageStop => typed []
  end.

Definition PING : string := ("event: ping" ++ lf ++ double_quotes "data: {'type':'ping'}" ++ lf ++ lf)%string.

Section Anthropic.
Context (from_str : string -> option JsonValue) (to_string : JsonValue -> string).

Definition event (name : string) (data : JsonValue) : string := ("event: " ++ name ++ lf ++ "data: " ++ to_string data ++ lf ++ lf)%string.

Definition render_events (s : AnthropicSink) (es : list AEvent) : string :=
  String.concat "" (map (fun e => event (event_name e) (event_data s e)) es).

Definition anthropic_process (s : AnthropicSink) (line : string) : AnthropicSink * string :=
  match parse_sse_data_line from_str line with
  | None => (s, EmptyString)
  | Some c => let '(s', es) := handle_chunk s c in (s', render_events s es)
  end.

Definition AnthropicSink_StreamSink : StreamSink AnthropicSink := {|
  heartbeat_frame _ := PING;
  process := anthropic_process;
  finish s := let '(s', es) := anthropic_finish s in (s', render_events s es);
  sink_usage := as_usage;
  sink_finish_reason := as_finish_reason;
|}.
End Anthropic.

(** ** Peeking *)

(** What the upstream does while it is peeked at; when the list ends, so does the
    stream. *)
Inductive PeekEvent := PArrives (chunk : string) | PBreaks (e : string) | PDeadline.

(** What happens to a stream that was committed to. *)
Inductive RelayEvent := RArrives (chunk : string) | RBreaks | RBeat (idle_reached : bool) | RTotal.

Inductive Peek (S : Type) := PCommit (prefix_out : string) (sink : S) | PEmpty | PTimedOut | PErrored (e : string).
Arguments PCommit {S}.
Arguments PEmpty {S}.
Arguments PTimedOut {S}.
Arguments PErrored {S}.

Definition PEEK_CAP : nat := 1024.

Record RelayStats := mkStats { st_usage : Usage; st_finish_reason : option string }.

(** A frame to the client: data, or a sign of life. *)
Inductive Frame := Data (bytes : string) | Beat (bytes : string).

Section Relay.
Context {S : Type} {sink_of : StreamSink S} (from_str : string -> option JsonValue).

(** The loop; the buffer holds what has no line feed yet. *)
Fixpoint peek_loop (evs : list PeekEvent) (s : S) (line_buf prefix_out : string) (total : nat) (committed : bool) : Peek S :=
  match evs with
  | PArrives chunk :: evs =>
      let total := (total + String.length chunk)%nat in
      let '(ls, line_buf) := drain_lines (line_buf ++ chunk) in
      let committed := committed || existsb (sse_chunk_has_output from_str) ls in
      let '(s, out) := process_all s ls in
      let prefix_out := (prefix_out ++ out)%string in
      if committed || (PEEK_CAP <=? total)%nat then PCommit prefix_out s
      else peek_loop evs s line_buf prefix_out total committed
  | PBreaks e :: _ => PErrored e
  | PDeadline :: _ => PTimedOut
  | [] =>
      let '(s, prefix_out, committed) :=
        if is_empty line_buf then (s, prefix_out, committed)
        else let '(s', out) := process s line_buf in (s', (prefix_out ++ out)%string, committed || sse_chunk_has_output from_str line_buf) in
      if committed then PCommit prefix_out s else PEmpty
  end.

Definition peek (s : S) (evs : list PeekEvent) : Peek S := peek_loop evs s "" "" 0 false.

(** ** Relaying *)

(** The channel: the frames it took, and how many more it takes if the client
    leaves. *)
Record Channel := mkChannel { ch_sent : list Frame; ch_room : option nat }.

(** No channel: the client is gone. *)
Definition send (ch : Channel) (f : Frame) : option Channel :=
  match ch_room ch with
  | Some O => None
  | r => Some (mkChannel (ch_sent ch ++ [f]) (pred <$> r))
  end.

Definition send_data (ch : Channel) (out : string) : option Channel := if is_empty out then Some ch else send ch (Data out).

Fixpoint relay_lines (s : S) (ch : Channel) (ls : list string) : Channel * option S :=
  match ls with
  | [] => (ch, Some s)
  | l :: ls =>
      let '(s, out) := process s l in
      match send_data ch out with Some ch => relay_lines s ch ls | None => (ch, None) end
  end.

(** The loop; no sink is the early return when the client is gone. *)
Fixpoint relay_loop (evs : list RelayEvent) (s : S) (line_buf : string) (ch : Channel) : Channel * option (S * string) :=
  match evs with
  | RArrives chunk :: evs =>
      let '(ls, line_buf) := drain_lines (line_buf ++ chunk) in
      match relay_lines s ch ls with
      | (ch, Some s) => relay_loop evs s line_buf ch
      | (ch, None) => (ch, None)
      end
  | RBeat true :: _ => (ch, Some (s, line_buf))
  | RBeat false :: evs =>
      let frame := heartbeat_frame s in
      match (if is_empty frame then Some ch else send ch (Beat frame)) with
      | Some ch => relay_loop evs s line_buf ch
      | None => (ch, None)
      end
  | RBreaks :: _ | RTotal :: _ | [] => (ch, Some (s, line_buf))
  end.

(** Sending without looking whether the client is there. *)
Definition send_best_effort (ch : Channel) (out : string) : Channel := default ch (send_data ch out).

(** The task: what the client was sent, and what [on_finish] is called with, if it
    is. *)
Definition spawn_relay (prefix_out : string) (s : S) (room : option nat) (evs : list RelayEvent) : list Frame * option RelayStats :=
  match send_data (mkChannel [] room) prefix_out with
  | None => ([], None)
  | Some ch =>
      match relay_loop evs s "" ch with
      | (ch, None) => (ch_sent ch, None)
      | (ch, Some (s, line_buf)) =>
          let '(s, ch) :=
            if is_empty line_buf then (s, ch) else let '(s, out) := process s line_buf in (s, send_best_effort ch out) in
          let '(s, tail) := finish s in
          let ch := send_best_effort ch tail in
          (ch_sent ch, Some (mkStats (sink_usage s) (sink_finish_reason s)))
      end
  end.
End Relay.
