(* ===== verification/ProxyRelayProps.v ===== *)
(** * What the relay passes on

    The passthrough of the OpenAI surface, byte for byte but for one line, for
    clients that stay and clients that hang up, and the usage it reports. *)
From Stdlib Require Import Ascii String.
From S2P Require Import Prelude RustStr RustText McpProxy ProxyBudget ProxyRoute ProxyReply ProxyRelay.
Local Open Scope string_scope.
Local Open Scope list_scope.

(** ** Lines *)

Definition cat (ls : list string) : string := foldr String.append "" ls.

Lemma cat_app l1 l2 : cat (l1 ++ l2) = (cat l1 ++ cat l2)%string.
Proof. induction l1 as [|s l1 IH]; simpl; [done|]. by rewrite IH, str_app_assoc. Qed.

Lemma drain_lines_cat s ls rest : drain_lines s = (ls, rest) -> s = (cat ls ++ rest)%string /\ no_char "010" rest = true.
Proof.
  revert ls rest. induction s as [|a s IH]; simpl; intros ls rest; [by intros [= <- <-]|].
  destruct (drain_lines s) as [ls' rest'] eqn:E. destruct (IH _ _ eq_refl) as [Hs Hn].
  destruct (Ascii.eqb_spec a "010") as [->|Ha]; [intros [= <- <-]; simpl; by rewrite Hs|].
  destruct ls' as [|l ls']; intros [= <- <-]; simpl in *.
  - split; [by rewrite Hs|]. apply andb_true_iff. split; [|done]. destruct (Ascii.eqb_spec a "010"); done.
  - split; [|done]. by rewrite Hs, str_app_assoc.
Qed.

Lemma drain_lines_app s t ls r :
  drain_lines s = (ls, r) -> drain_lines (s ++ t) = let '(ls', r') := drain_lines (r ++ t) in (ls ++ ls', r').
Proof.
  revert ls r. induction s as [|a s IH]; cbn [drain_lines String.append]; intros ls r.
  { intros [= <- <-]. cbn [String.append app]. by destruct (drain_lines t). }
  destruct (drain_lines s) as [ls0 r0] eqn:E0. specialize (IH _ _ eq_refl). rewrite IH.
  destruct (drain_lines (r0 ++ t)) as [ls' r'] eqn:E1. destruct (Ascii.eqb a "010") eqn:Ea.
  { intros [= <- <-]. by rewrite E1. }
  destruct ls0 as [|l ls0]; intros [= <- <-]; cbn [app drain_lines String.append]; rewrite E1; [|done]. by rewrite Ea; destruct ls'.
Qed.

(** All lines, the last one also without its line feed. *)
Definition all_lines (s : string) : list string := let '(ls, r) := drain_lines s in ls ++ option_list (non_empty r).

Lemma cat_last r : cat (option_list (non_empty r)) = r.
Proof. unfold non_empty. destruct r; simpl; [done|]. by rewrite str_app_nil_r. Qed.

Lemma cat_all_lines s : cat (all_lines s) = s.
Proof. unfold all_lines. destruct (drain_lines s) as [ls r] eqn:E. apply drain_lines_cat in E as [-> _]. by rewrite cat_app, cat_last. Qed.

(** ** The passthrough *)

Section Passthrough.
Context (from_str : string -> option JsonValue).
#[local] Instance sink_instance : StreamSink OpenAiSink := OpenAiSink_StreamSink from_str.

(** The sink after some lines. *)
Definition sink_after (s : OpenAiSink) (ls : list string) : OpenAiSink := foldl (fun s l => (openai_process from_str s l).1) s ls.

Lemma process_line s l : process s l = (sink_after s [l], l).
Proof. cbn. unfold openai_process. by destruct (parse_sse_data_line from_str l). Qed.

Lemma process_all_lines s ls : process_all s ls = (sink_after s ls, cat ls).
Proof.
  unfold process_all. enough (forall out, foldl (fun '(s, out) l => let '(s, o) := process s l in (s, (out ++ o)%string)) (s, out) ls
    = (sink_after s ls, (out ++ cat ls)%string)) as -> by done.
  revert s. induction ls as [|l ls IH]; intros s out; cbn [foldl cat foldr]; [by rewrite str_app_nil_r|].
  rewrite process_line, IH. cbn [sink_after foldl]. by rewrite str_app_assoc.
Qed.

Lemma peek_loop_commits evs s buf pre total committed out s' :
  no_char "010" buf = true ->
  peek_loop from_str evs s buf pre total committed = PCommit out s' ->
  exists cs tail ls partial, evs = map PArrives cs ++ tail /\ out = (pre ++ cat ls)%string /\ s' = sink_after s ls /\
    (buf ++ cat cs = cat ls ++ partial)%string /\ no_char "010" partial = true.
Proof.
  revert s buf pre total committed. induction evs as [|[chunk|e|] evs IH]; intros s buf pre total committed Hbuf; cbn [peek_loop]; [| |done..].
  - unfold is_empty. destruct buf as [|a buf].
    + destruct committed; [|done]. intros [= <- <-]. exists [], [], [], "". split_and!; try done. simpl. by rewrite str_app_nil_r.
    + rewrite process_line. destruct (_ || _); [|done]. intros [= <- <-]. exists [], [], [String a buf], "". simpl. by rewrite !str_app_nil_r.
  - destruct (drain_lines (buf ++ chunk)) as [ls buf'] eqn:Ed. pose proof (drain_lines_cat _ _ _ Ed) as [Hcat Hn].
    rewrite process_all_lines. destruct (_ || _).
    + intros [= <- <-]. exists [chunk], evs, ls, buf'. split_and!; try done. simpl. by rewrite str_app_nil_r.
    + intros H. destruct (IH _ _ _ _ _ Hn H) as (cs & tail & ls' & partial & -> & -> & -> & Hc & Hp).
      exists (chunk :: cs), tail, (ls ++ ls'), partial. rewrite cat_app. split_and!; [done|by rewrite str_app_assoc|unfold sink_after; by rewrite foldl_app| |done].
      cbn [cat foldr]. fold (cat cs). by rewrite <- str_app_assoc, Hcat, str_app_assoc, Hc, str_app_assoc.
Qed.

(** What of the events reaches the loop. *)
Fixpoint delivered (evs : list RelayEvent) : string :=
  match evs with RArrives c :: evs => (c ++ delivered evs)%string | RBeat false :: evs => delivered evs | _ => "" end.

Definition data_of (fs : list Frame) : string := cat (omap (fun f => match f with Data b => Some b | Beat _ => None end) fs).

Lemma data_of_snoc fs f : data_of (fs ++ [f]) = (data_of fs ++ match f with Data b => b | Beat _ => "" end)%string.
Proof. unfold data_of. rewrite omap_app, cat_app. f_equal. destruct f; simpl; [by rewrite str_app_nil_r|done]. Qed.

(** The channel of a client that takes [room] frames, or all of them. *)
Definition takes (room : option nat) (ch : Channel) : Prop :=
  match room with None => ch_room ch = None | Some n => exists k, ch_room ch = Some k /\ (length (ch_sent ch) + k = n)%nat end.

(** It has taken all it takes: the client is gone. *)
Definition gone (room : option nat) (ch : Channel) : Prop := room = Some (length (ch_sent ch)).

Lemma send_takes room ch f : takes room ch ->
  match send ch f with Some ch' => takes room ch' /\ ch_sent ch' = ch_sent ch ++ [f] | None => gone room ch end.
Proof.
  unfold takes, gone, send. destruct room as [n|].
  - intros (k & -> & Hk). destruct k as [|k]; [f_equal; lia|]. split; [|done]. exists k. cbn. rewrite length_app. cbn. split; [done|lia].
  - intros ->. done.
Qed.

Lemma send_data_takes room ch out : takes room ch ->
  match send_data ch out with
  | Some ch' => takes room ch' /\ data_of (ch_sent ch') = (data_of (ch_sent ch) ++ out)%string
  | None => gone room ch
  end.
Proof.
  intros H. unfold send_data. destruct (is_empty out) eqn:E; [destruct out; [|done]; by rewrite str_app_nil_r|].
  pose proof (send_takes room ch (Data out) H) as Hs. destruct (send ch (Data out)) as [ch'|]; [|done].
  destruct Hs as [? ->]. split; [done|]. apply data_of_snoc.
Qed.

Lemma relay_lines_takes room s ch ls : takes room ch ->
  match relay_lines s ch ls with
  | (ch', Some s') => takes room ch' /\ s' = sink_after s ls /\ data_of (ch_sent ch') = (data_of (ch_sent ch) ++ cat ls)%string
  | (ch', None) => gone room ch' /\ exists rest, (data_of (ch_sent ch) ++ cat ls = data_of (ch_sent ch') ++ rest)%string
  end.
Proof.
  revert s ch. induction ls as [|l ls IH]; intros s ch Hr; cbn [relay_lines]; [by rewrite str_app_nil_r|].
  rewrite process_line. pose proof (send_data_takes room ch l Hr) as Hs. destruct (send_data ch l) as [ch1|]; [|split; [done|by eexists] ].
  destruct Hs as [Hr1 Hd1]. specialize (IH (sink_after s [l]) ch1 Hr1). cbn [cat foldr]. fold (cat ls). rewrite Hd1, str_app_assoc in IH.
  by destruct (relay_lines _ ch1 ls) as [ch2 [s2|] ].
Qed.

Lemma drain_partial b : no_char "010" b = true -> drain_lines b = ([], b).
Proof.
  induction b as [|a b IH]; [done|]. simpl. intros [Ha Hn]%andb_true_iff. rewrite (IH Hn). by destruct (Ascii.eqb a "010").
Qed.

Lemma relay_loop_takes room evs s buf ch : takes room ch -> no_char "010" buf = true ->
  match relay_loop evs s buf ch with
  | (ch', Some (s', r)) => takes room ch' /\ exists ls, s' = sink_after s ls /\ drain_lines (buf ++ delivered evs) = (ls, r) /\
      data_of (ch_sent ch') = (data_of (ch_sent ch) ++ cat ls)%string
  | (ch', None) => gone room ch' /\ exists rest, (data_of (ch_sent ch) ++ buf ++ delivered evs = data_of (ch_sent ch') ++ rest)%string
  end.
Proof.
  assert (Hstop : forall s buf ch, takes room ch -> no_char "010" buf = true ->
    takes room ch /\ exists ls, s = sink_after s ls /\ drain_lines (buf ++ "") = (ls, buf) /\
      data_of (ch_sent ch) = (data_of (ch_sent ch) ++ cat ls)%string).
  { intros s0 b0 c0 Hc Hn. split; [done|]. exists []. rewrite !str_app_nil_r. split_and!; [done|by apply drain_partial|done]. }
  revert s buf ch. induction evs as [|[chunk| |[|]|] evs IH]; intros s buf ch Hr Hn; cbn [relay_loop delivered]; [by apply Hstop| |by apply Hstop..| |by apply Hstop].
  - destruct (drain_lines (buf ++ chunk)) as [ls b1] eqn:Ed. pose proof (drain_lines_cat _ _ _ Ed) as [Hcat Hn1].
    pose proof (relay_lines_takes room s ch ls Hr) as Hl. destruct (relay_lines s ch ls) as [ch1 [s1|] ].
    + destruct Hl as (Hr1 & -> & Hd1). specialize (IH (sink_after s ls) b1 ch1 Hr1 Hn1).
      destruct (relay_loop evs _ b1 ch1) as [ch2 [ [s2 r]|] ].
      * destruct IH as (Hr2 & ls2 & -> & Hd2 & Hc2). split; [done|]. exists (ls ++ ls2). unfold sink_after. rewrite foldl_app. split_and!; [done| |].
        -- rewrite <- str_app_assoc, (drain_lines_app _ _ _ _ Ed), Hd2. done.
        -- by rewrite Hc2, Hd1, cat_app, str_app_assoc.
      * destruct IH as (Hg & rest & Hrest). split; [done|]. exists rest. rewrite <- Hrest, Hd1. rewrite <- (str_app_assoc buf chunk), Hcat. by rewrite !str_app_assoc.
    + destruct Hl as (Hg & rest & Hrest). split; [done|]. exists (rest ++ b1 ++ delivered evs)%string.
      rewrite <- (str_app_assoc buf chunk), Hcat, (str_app_assoc (cat ls)), <- (str_app_assoc _ (cat ls)), Hrest, str_app_assoc. done.
  - change (heartbeat_frame s) with KEEP_ALIVE. change (is_empty KEEP_ALIVE) with false. cbv zeta iota. pose proof (send_takes room ch (Beat KEEP_ALIVE) Hr) as Hs. destruct (send ch (Beat KEEP_ALIVE)) as [ch1|]; [|split; [done|by eexists] ].
    destruct Hs as [Hr1 Hs1]. specialize (IH s buf ch1 Hr1 Hn). rewrite Hs1, data_of_snoc, str_app_nil_r in IH. exact IH.
Qed.

(** The usage block of the last line that has one. *)
Definition last_usage (ls : list string) : Usage := default usage_default (last (omap (fun l => parse_sse_data_line from_str l ≫= ck_usage) ls)).

Lemma sink_after_usage ls : oa_usage (sink_after openai_sink ls) = last_usage ls.
Proof.
  induction ls as [|l ls IH] using rev_ind; [done|]. unfold sink_after, last_usage in *. rewrite foldl_app, omap_app. cbn [foldl omap list_omap].
  unfold openai_process at 1. destruct (parse_sse_data_line from_str l) as [ck|]; cbn [mbind option_bind fst oa_usage]; [|by rewrite app_nil_r].
  destruct (ck_usage ck) as [u|]; cbn [default]; [by rewrite last_snoc|by rewrite app_nil_r].
Qed.

Lemma spawn_relay_takes prefix s room revs :
  let '(frames, stats) := spawn_relay prefix s room revs in
  exists rest, (prefix ++ delivered revs = data_of frames ++ rest)%string /\
  match stats with
  | Some st => st_usage st = oa_usage (sink_after s (all_lines (delivered revs))) /\ no_char "010" rest = true /\ (room = None -> rest = "")
  | None => room = Some (length frames)
  end.
Proof.
  unfold spawn_relay. assert (H0 : takes room (mkChannel [] room)) by (destruct room as [n|]; [by exists n|done]).
  pose proof (send_data_takes room _ prefix H0) as H1. destruct (send_data _ prefix) as [ch1|]; [|by eexists].
  destruct H1 as [Hr1 Hd1]. cbn [ch_sent] in Hd1. change (data_of []) with "" in Hd1. cbn [String.append] in Hd1.
  pose proof (relay_loop_takes room revs s "" ch1 Hr1 eq_refl) as H2. destruct (relay_loop revs s "" ch1) as [ch2 [ [s2 r]|] ].
  - destruct H2 as (Hr2 & ls & -> & Hd2 & Hc2). cbn [String.append] in Hd2. unfold all_lines. rewrite Hd2.
    apply drain_lines_cat in Hd2 as [Hcat Hn]. cbn [finish sink_instance OpenAiSink_StreamSink].
    assert (Htail : forall ch, send_best_effort ch "" = ch) by done. unfold is_empty, non_empty. destruct r as [|a r]; cbn [option_list].
    + rewrite Htail. exists "". rewrite app_nil_r, str_app_nil_r, Hc2, Hd1, Hcat, str_app_nil_r. done.
    + rewrite process_line, Htail. unfold send_best_effort. pose proof (send_data_takes room ch2 (String a r) Hr2) as H3. rewrite Hcat.
      destruct (send_data ch2 (String a r)) as [ch3|]; cbn [default st_usage sink_usage sink_instance OpenAiSink_StreamSink].
      * exists "". change (id ch3) with ch3. destruct H3 as [_ ->]. rewrite Hc2, Hd1, !str_app_assoc. unfold sink_after. rewrite foldl_app. by rewrite str_app_nil_r.
      * exists (String a r). cbn [default]. rewrite Hc2, Hd1, str_app_assoc. unfold sink_after. rewrite foldl_app. split_and!; [done|done|done|].
        intros ->. unfold gone in H3. done.
  - destruct H2 as (Hg & rest & Hrest). exists rest. rewrite Hd1 in Hrest. done.
Qed.
End Passthrough.

(** C20. On the OpenAI surface the client of a stream that was committed to gets,
    signs of life apart, the bytes of the upstream in order, with exactly one
    piece left out: what had arrived, when the lane was committed to, of a line
    that was not finished.  A client that stays gets all of it and is charged by the
    last usage block among the lines it got.  A client that hangs up has got a
    beginning of it: when that is noticed before the end the request is not charged
    at all, otherwise only an unfinished last line is missing. *)
Theorem passthrough_exact from_str evs prefix s room revs :
  peek (sink_of := OpenAiSink_StreamSink from_str) from_str openai_sink evs = PCommit prefix s ->
  exists cs tail partial ls,
    evs = map PArrives cs ++ tail /\ cat cs = (prefix ++ partial)%string /\ no_char "010" partial = true /\ cat ls = prefix /\
    let '(frames, stats) := spawn_relay (sink_of := OpenAiSink_StreamSink from_str) prefix s room revs in
    exists rest, (prefix ++ delivered revs = data_of frames ++ rest)%string /\
    match stats with
    | Some st => st_usage st = last_usage from_str (ls ++ all_lines (delivered revs)) /\ no_char "010" rest = true /\ (room = None -> rest = "")
    | None => room = Some (length frames)
    end.
Proof.
  intros H. destruct (peek_loop_commits from_str evs openai_sink "" "" 0 false prefix s eq_refl H) as (cs & tail & ls & partial & -> & -> & -> & Hc & Hp).
  pose proof (spawn_relay_takes from_str (cat ls) (sink_after from_str openai_sink ls) room revs) as E.
  exists cs, tail, partial, ls. split_and!; [done..|]. destruct (spawn_relay _ _ _ _) as [frames stats]. destruct E as (rest & Hd & E).
  exists rest. split; [done|]. destruct stats as [st|]; [|done]. destruct E as (E & ? & ?). split_and!; [|done|done].
  rewrite E, <- (sink_after_usage from_str). unfold sink_after. by rewrite foldl_app.
Qed.

(** A reader for the examples: an x is a chunk with text, a u one with usage. *)
Definition demo_from_str (p : string) : option JsonValue :=
  if String.eqb p "x" then Some (obj [("choices", VArray [obj [("delta", obj [("content", VString "hi")])]])])
  else if String.eqb p "u" then Some (obj [("usage", obj [("prompt_tokens", num 3); ("completion_tokens", num 4)])])
  else None.

Definition sse (payload : string) : string := ("data: " ++ payload ++ lf)%string.

Lemma passthrough_exact_witness :
  let prefix := (": hello" ++ lf ++ sse "x")%string in
  let revs := [RArrives "da"; RBeat false; RArrives ("ta: u" ++ lf)%string] in
  peek (sink_of := OpenAiSink_StreamSink demo_from_str) demo_from_str openai_sink [PArrives ": hello"; PArrives (lf ++ sse "x")%string] = PCommit prefix openai_sink /\
  exists frames st, spawn_relay (sink_of := OpenAiSink_StreamSink demo_from_str) prefix openai_sink None revs = (frames, Some st) /\
    st_usage st = mkUsage 3 4 0 0 /\ data_of frames = (prefix ++ sse "u")%string.
Proof.
  intros prefix revs. split; [vm_compute; reflexivity|].
  destruct (passthrough_exact demo_from_str [PArrives ": hello"; PArrives (lf ++ sse "x")%string] prefix openai_sink None revs eq_refl)
    as (cs & tail & partial & ls & _ & _ & _ & _ & E).
  assert (Hu : st_usage <$> (spawn_relay (sink_of := OpenAiSink_StreamSink demo_from_str) prefix openai_sink None revs).2 = Some (mkUsage 3 4 0 0))
    by (vm_compute; reflexivity).
  destruct (spawn_relay _ _ _ _) as [frames [st|] ]; [|done]. destruct E as (rest & Hd & _ & _ & Hn). rewrite (Hn eq_refl), str_app_nil_r in Hd.
  exists frames, st. split; [done|]. cbn in Hu. split; [congruence|]. by rewrite <- Hd.
Defined.

(** A chunk that commits the lane and ends within the next line: those bytes are in
    nobody's hands, and the client is sent a line that was never written. *)
Example commit_loses_partial_line :
  let up := [sse "x" ++ "data: "; "u" ++ lf]%string in
  peek (sink_of := OpenAiSink_StreamSink demo_from_str) demo_from_str openai_sink (map PArrives up) = PCommit (sse "x") openai_sink /\
  spawn_relay (sink_of := OpenAiSink_StreamSink demo_from_str) (sse "x") openai_sink None [RArrives ("u" ++ lf)%string] =
    ([Data (sse "x"); Data ("u" ++ lf)%string], Some (mkStats usage_default None)) /\
  (cat up = sse "x" ++ sse "u")%string.
Proof. split_and!; reflexivity. Qed.

(** A client that hangs up ends the relay without the call that charges the
    request, although the upstream had reported its usage. *)
Example hang_up_uncharged :
  spawn_relay (sink_of := OpenAiSink_StreamSink demo_from_str) (sse "x") openai_sink (Some 2) [RArrives (sse "u"); RArrives (sse "[DONE]")] =
    ([Data (sse "x"); Data (sse "u")], None).
Proof. reflexivity. Qed.
