(* ===== verification/ProxyEventsProps.v ===== *)
(** * The shape of the Anthropic stream

    The events the Anthropic sink writes are read by a small automaton of the
    protocol: one message, blocks with consecutive indices, one open at a time,
    deltas of the open block only, every block stopped.  The sink is shown to stay
    in step with it as long as the upstream finishes a tool call before it goes on
    to something else. *)
From Stdlib Require Import Ascii String.
From S2P Require Import Prelude RustStr RustText McpProxy ProxyBudget ProxyRoute ProxyReply ProxyRelay.
Local Open Scope string_scope.
Local Open Scope list_scope.
Local Open Scope N_scope.

(** ** The protocol *)

Inductive Reader := RBefore | RBetween (next : N) | RIn (tool : bool) (index next : N) | RClosing | REnd.

Definition read_event (r : Reader) (e : AEvent) : option Reader :=
  match r, e with
  | RBefore, MessageStart => Some (RBetween 0)
  | RBetween n, TextStart i => if i =? n then Some (RIn false n (n + 1)) else None
  | RBetween n, ToolStart i _ _ => if i =? n then Some (RIn true n (n + 1)) else None
  | RIn false i n, TextDelta j _ => if j =? i then Some r else None
  | RIn true i n, InputDelta j _ => if j =? i then Some r else None
  | RIn _ i n, BlockStop j => if j =? i then Some (RBetween n) else None
  | RBetween _, MessageDelta _ _ => Some RClosing
  | RClosing, MessageStop => Some REnd
  | _, _ => None
  end.

Fixpoint read_events (r : Reader) (es : list AEvent) : option Reader :=
  match es with [] => Some r | e :: es => r ← read_event r e; read_events r es end.

Lemma read_events_app r es es' : read_events r (es ++ es') = (r ← read_events r es; read_events r es').
Proof. revert r. induction es as [|e es IH]; intros r; simpl; [done|]. destruct (read_event r e); simpl; [apply IH|done]. Qed.

(** ** What the upstream may send *)

(** The tool call that is open, and those that were begun. *)
Definition Progress : Type := option N * gset N.

Definition after_text (c : OpenAiChunk) (p : Progress) : Progress := match content c with Some _ => (None, p.2) | None => p end.
Definition after_tool (p : Progress) (tc : ToolCallDelta) : Progress := (Some (tc_index tc), {[tc_index tc]} ∪ p.2).

(** A tool call that was begun goes on only while it is the open one. *)
Definition tool_in_order (p : Progress) (tc : ToolCallDelta) : bool :=
  bool_decide (tc_index tc ∉ p.2) || bool_decide (p.1 = Some (tc_index tc)).

Fixpoint tools_in_order (p : Progress) (tcs : list ToolCallDelta) : bool :=
  match tcs with [] => true | tc :: tcs => tool_in_order p tc && tools_in_order (after_tool p tc) tcs end.

Definition after_chunk (p : Progress) (c : OpenAiChunk) : Progress := foldl after_tool (after_text c p) (tool_calls c).

Fixpoint in_order (p : Progress) (cs : list OpenAiChunk) : bool :=
  match cs with [] => true | c :: cs => tools_in_order (after_text c p) (tool_calls c) && in_order (after_chunk p c) cs end.

(** ** The sink and the reader *)

Definition events_of (s : AnthropicSink) (cs : list OpenAiChunk) : AnthropicSink * list AEvent :=
  foldl (fun '(s, es) c => let '(s, e) := handle_chunk s c in (s, es ++ e)) (s, []) cs.

(** The sink, the reader of its events and the progress of the upstream. *)
Definition in_step (s : AnthropicSink) (r : Reader) (p : Progress) : Prop :=
  dom (tool_block s) = p.2 /\
  match block s with
  | NoBlock => r = RBetween (next_index s) /\ p.1 = None
  | TextBlock => r = RIn false (open_index s) (next_index s) /\ p.1 = None
  | ToolBlock => r = RIn true (open_index s) (next_index s) /\ exists k, p.1 = Some k /\ tool_block s !! k = Some (open_index s)
  end.

Lemma close_in_step s r p s' es :
  in_step s r p -> close_open_block s = (s', es) ->
  read_events r es = Some (RBetween (next_index s')) /\ block s' = NoBlock /\ next_index s' = next_index s /\ tool_block s' = tool_block s.
Proof.
  unfold in_step, close_open_block. intros [_ H]. destruct (block s) eqn:Eb; case_decide as Hd; try done; intros [= <- <-].
  - destruct H as [-> _]. done.
  - destruct H as [-> _]. cbn. by rewrite N.eqb_refl.
  - destruct H as [-> _]. cbn. by rewrite N.eqb_refl.
Qed.

Lemma text_in_step s r p text s' es :
  in_step s r p -> handle_text s text = (s', es) -> exists r', read_events r es = Some r' /\ in_step s' r' (None, p.2).
Proof.
  intros H. unfold handle_text. case_decide as Hb.
  - intros [= <- <-]. destruct H as [Hd H]. rewrite Hb in H. destruct H as [-> Hp]. exists (RIn false (open_index s) (next_index s)).
    cbn. rewrite N.eqb_refl. split; [done|]. split; [done|]. by rewrite Hb.
  - destruct (close_open_block s) as [s1 closed] eqn:Ec. destruct (close_in_step _ _ _ _ _ H Ec) as (Hr & Hnb & Hn & Ht). intros [= <- <-].
    exists (RIn false (next_index s1) (next_index s1 + 1)). rewrite read_events_app, Hr. cbn. rewrite !N.eqb_refl. cbn. rewrite N.eqb_refl.
    split; [done|]. destruct H as [Hd _]. split; [cbn; by rewrite Ht|done].
Qed.

Lemma tool_in_step s r p tc s' es :
  in_step s r p -> tool_in_order p tc = true -> handle_tool s tc = (s', es) ->
  exists r', read_events r es = Some r' /\ in_step s' r' (after_tool p tc).
Proof.
  intros H Hok. pose proof H as [Hd Hblk].
  enough (forall s1 opened, (match tool_block s !! tc_index tc with
      | None => let '(s, closed) := close_open_block s in
          (set_block ToolBlock (next_index s) (set_tools (<[tc_index tc := next_index s]> (tool_block s)) (bump_index s)),
           closed ++ [ToolStart (next_index s) (default "" (tc_id tc)) (default "" (tc_name tc))])
      | Some idx => (set_block ToolBlock idx s, []) end) = (s1, opened) ->
    exists r1, read_events r opened = Some r1 /\ in_step s1 r1 (after_tool p tc) /\ r1 = RIn true (open_index s1) (next_index s1)) as Hopen.
  { unfold handle_tool. destruct (match tool_block s !! _ with Some _ => _ | None => _ end) as [s1 opened] eqn:E in |- *.
    destruct (Hopen _ _ E) as (r1 & Hr & Hs & ->). intros [= <- <-]. exists (RIn true (open_index s1) (next_index s1)).
    rewrite read_events_app, Hr. split; [|done]. destruct (is_empty (args_fragment tc)); cbn; [done|by rewrite N.eqb_refl]. }
  intros s1 opened. destruct (tool_block s !! tc_index tc) as [idx|] eqn:Et.
  - intros [= <- <-]. assert (Hin : tc_index tc ∈ p.2) by (rewrite <- Hd; by apply elem_of_dom_2 in Et).
    unfold tool_in_order in Hok. rewrite (bool_decide_false (_ ∉ _)) in Hok by (by intros ?). apply bool_decide_eq_true in Hok.
    destruct (block s) eqn:Eb; [by destruct Hblk; congruence|by destruct Hblk; congruence|]. destruct Hblk as (-> & k & Hk & Hkt).
    assert (k = tc_index tc) as -> by congruence. assert (idx = open_index s) as -> by congruence.
    exists (RIn true (open_index s) (next_index s)). split; [done|]. split; [|done]. split; [cbn; set_solver|]. cbn. split; [done|]. by exists (tc_index tc).
  - destruct (close_open_block s) as [s2 closed] eqn:Ec. destruct (close_in_step _ _ _ _ _ H Ec) as (Hr & Hnb & Hn & Ht). intros [= <- <-].
    exists (RIn true (next_index s2) (next_index s2 + 1)). rewrite read_events_app, Hr. cbn. rewrite N.eqb_refl. split; [done|]. split; [|done].
    split; [cbn; rewrite dom_insert_L, Ht, Hd; done|]. cbn. split; [done|]. exists (tc_index tc). split; [done|]. by rewrite lookup_insert_eq.
Qed.

Lemma tools_in_step tcs s r p s' es :
  in_step s r p -> tools_in_order p tcs = true -> handle_tools s tcs = (s', es) ->
  exists r', read_events r es = Some r' /\ in_step s' r' (foldl after_tool p tcs).
Proof.
  revert s r p s' es. induction tcs as [|tc tcs IH]; intros s r p s' es H; cbn [handle_tools tools_in_order foldl]; [intros _ [= <- <-]; by exists r|].
  intros [Ho Hos]%andb_true_iff. destruct (handle_tool s tc) as [s1 e1] eqn:E1. destruct (handle_tools s1 tcs) as [s2 e2] eqn:E2. intros [= <- <-].
  destruct (tool_in_step _ _ _ _ _ _ H Ho E1) as (r1 & Hr1 & H1). destruct (IH _ _ _ _ _ H1 Hos E2) as (r2 & Hr2 & H2).
  exists r2. by rewrite read_events_app, Hr1.
Qed.

(** Before the first event, and after. *)
Definition ready (s : AnthropicSink) (r : Reader) (p : Progress) : Prop :=
  if started s then in_step s r p else r = RBefore /\ in_step s (RBetween 0) p.

Lemma start_in_step s r p s' es : ready s r p -> ensure_started s = (s', es) -> exists r', read_events r es = Some r' /\ in_step s' r' p /\ started s' = true.
Proof.
  unfold ready, ensure_started. destruct (started s) eqn:Es; [intros H [= <- <-]; by exists r|]. intros [-> H] [= <- <-]. by exists (RBetween 0).
Qed.

(** What blocks and tools leave alone. *)
Section Stable.
Context {A : Type} (f : AnthropicSink -> A).
Hypothesis f_block : forall b o s, f (set_block b o s) = f s.
Hypothesis f_index : forall s, f (bump_index s) = f s.
Hypothesis f_tools : forall t s, f (set_tools t s) = f s.

Lemma close_stable s : f (close_open_block s).1 = f s.
Proof. unfold close_open_block. case_decide; [done|apply f_block]. Qed.

Lemma text_stable s text : f (handle_text s text).1 = f s.
Proof.
  unfold handle_text. case_decide; [done|]. pose proof (close_stable s) as Hc. destruct (close_open_block s). cbn [fst] in *.
  by rewrite f_index, f_block.
Qed.

Lemma tool_stable s tc : f (handle_tool s tc).1 = f s.
Proof.
  unfold handle_tool. destruct (tool_block s !! tc_index tc); [apply f_block|]. pose proof (close_stable s) as Hc.
  destruct (close_open_block s). cbn [fst] in *. by rewrite f_block, f_tools, f_index.
Qed.

Lemma tools_stable s tcs : f (handle_tools s tcs).1 = f s.
Proof.
  revert s. induction tcs as [|tc tcs IH]; intros s; cbn [handle_tools]; [done|]. pose proof (tool_stable s tc) as H.
  destruct (handle_tool s tc) as [s1 e1]. specialize (IH s1). destruct (handle_tools s1 tcs) as [s2 e2]. cbn [fst] in *. congruence.
Qed.
End Stable.

Definition text_started s text : started (handle_text s text).1 = started s := text_stable started (fun _ _ _ => eq_refl) (fun _ => eq_refl) s text.
Definition tools_started s tcs : started (handle_tools s tcs).1 = started s :=
  tools_stable started (fun _ _ _ => eq_refl) (fun _ => eq_refl) (fun _ _ => eq_refl) s tcs.

Lemma chunk_in_step s r p c s' es :
  ready s r p -> tools_in_order (after_text c p) (tool_calls c) = true -> handle_chunk s c = (s', es) ->
  exists r', read_events r es = Some r' /\ ready s' r' (after_chunk p c).
Proof.
  intros H Ho. unfold handle_chunk. destruct (ensure_started s) as [s0 e0] eqn:E0. destruct (start_in_step _ _ _ _ _ H E0) as (r0 & Hr0 & H0 & Hst).
  destruct (match content c with Some _ => _ | None => _ end) as [s1 e1] eqn:E1.
  assert (exists r1, read_events r0 e1 = Some r1 /\ in_step s1 r1 (after_text c p) /\ started s1 = true) as (r1 & Hr1 & H1 & Hst1).
  { unfold after_text. destruct (content c) as [text|].
    - destruct (text_in_step _ _ _ _ _ _ H0 E1) as (r1 & Hr1 & H1). exists r1. split_and!; [done|done|]. pose proof (text_started s0 text) as Ht. rewrite E1 in Ht. cbn in Ht. congruence.
    - injection E1 as <- <-. by exists r0. }
  destruct (handle_tools s1 (tool_calls c)) as [s2 e2] eqn:E2. destruct (tools_in_step _ _ _ _ _ _ H1 Ho E2) as (r2 & Hr2 & H2). intros [= <- <-].
  exists r2. rewrite !read_events_app, Hr0. cbn [mbind option_bind]. rewrite read_events_app, Hr1. split; [done|]. unfold ready. cbn [started set_totals].
  pose proof (tools_started s1 (tool_calls c)) as Ht. rewrite E2 in Ht. cbn in Ht. rewrite Ht, Hst1. exact H2.
Qed.

Lemma events_of_snoc s cs c : events_of s (cs ++ [c]) = let '(s', es) := events_of s cs in let '(s'', e) := handle_chunk s' c in (s'', es ++ e).
Proof. unfold events_of. rewrite foldl_app. cbn [foldl]. by destruct (foldl _ _ cs). Qed.

Lemma in_order_snoc p cs c : in_order p (cs ++ [c]) = in_order p cs && tools_in_order (after_text c (foldl after_chunk p cs)) (tool_calls c).
Proof. revert p. induction cs as [|x cs IH]; intros p; cbn [app in_order foldl]; [by rewrite andb_true_r|]. by rewrite IH, andb_assoc. Qed.

Lemma events_in_step s r p cs s' es :
  ready s r p -> in_order p cs = true -> events_of s cs = (s', es) -> exists r', read_events r es = Some r' /\ ready s' r' (foldl after_chunk p cs).
Proof.
  intros H. revert s' es. induction cs as [|c cs IH] using rev_ind; intros s' es; [intros _ [= <- <-]; by exists r|].
  rewrite in_order_snoc, events_of_snoc, foldl_app. intros [Ho Hc]%andb_true_iff. destruct (events_of s cs) as [s1 es1].
  destruct (IH _ _ Ho eq_refl) as (r1 & Hr1 & H1). destruct (handle_chunk s1 c) as [s2 e2] eqn:E2. intros [= <- <-].
  destruct (chunk_in_step _ _ _ _ _ _ H1 Hc E2) as (r2 & Hr2 & H2). exists r2. by rewrite read_events_app, Hr1.
Qed.

(** ** Nothing of the text is lost *)

Definition texts (es : list AEvent) : list string := omap (fun e => match e with TextDelta _ t => Some t | _ => None end) es.

Lemma texts_app es es' : texts (es ++ es') = texts es ++ texts es'.
Proof. apply omap_app. Qed.

Lemma close_texts s : texts (close_open_block s).2 = [].
Proof. unfold close_open_block. by case_decide. Qed.

Lemma text_texts s text : texts (handle_text s text).2 = [text].
Proof. unfold handle_text. case_decide; [done|]. pose proof (close_texts s) as Hc. destruct (close_open_block s). cbn [fst snd] in *. by rewrite texts_app, Hc. Qed.

Lemma tool_texts s tc : texts (handle_tool s tc).2 = [].
Proof.
  unfold handle_tool. destruct (tool_block s !! tc_index tc); [by case_match|]. pose proof (close_texts s) as H.
  destruct (close_open_block s). cbn [fst snd] in *. rewrite !texts_app, H. by case_match.
Qed.

Lemma tools_texts s tcs : texts (handle_tools s tcs).2 = [].
Proof.
  revert s. induction tcs as [|tc tcs IH]; intros s; cbn [handle_tools]; [done|]. pose proof (tool_texts s tc) as H.
  destruct (handle_tool s tc) as [s1 e1]. specialize (IH s1). destruct (handle_tools s1 tcs) as [s2 e2]. cbn [fst snd] in *. by rewrite texts_app, H, IH.
Qed.

Lemma chunk_texts s c : texts (handle_chunk s c).2 = option_list (content c).
Proof.
  unfold handle_chunk. destruct (ensure_started s) as [s0 e0] eqn:E0. assert (texts e0 = []) as H0 by (unfold ensure_started in E0; case_match; by injection E0 as _ <-).
  destruct (content c) as [text|]; cbn [option_list].
  - pose proof (text_texts s0 text) as H1. destruct (handle_text s0 text) as [s1 e1]. pose proof (tools_texts s1 (tool_calls c)) as H2.
    destruct (handle_tools s1 (tool_calls c)) as [s2 e2]. cbn [fst snd] in *. by rewrite !texts_app, H0, H1, H2.
  - pose proof (tools_texts s0 (tool_calls c)) as H2. destruct (handle_tools s0 (tool_calls c)) as [s2 e2]. cbn [fst snd] in *. by rewrite !texts_app, H0, H2.
Qed.

Lemma events_texts s cs : texts (events_of s cs).2 = omap content cs.
Proof.
  induction cs as [|c cs IH] using rev_ind; [done|]. rewrite events_of_snoc, omap_app. destruct (events_of s cs) as [s1 es1].
  pose proof (chunk_texts s1 c) as H. destruct (handle_chunk s1 c) as [s2 e2]. cbn [fst snd] in *. rewrite texts_app, IH, H. cbn. by destruct (content c).
Qed.

(** ** The totals *)

(** The totals of a chunk, over the old ones. *)
Lemma chunk_totals s c :
  as_done (handle_chunk s c).1 = as_done s /\ as_usage (handle_chunk s c).1 = default (as_usage s) (ck_usage c) /\
  as_finish_reason (handle_chunk s c).1 = or_else (ck_finish_reason c) (as_finish_reason s).
Proof.
  set (f s := (as_done s, as_usage s, as_finish_reason s)).
  unfold handle_chunk. destruct (ensure_started s) as [s0 e0] eqn:E0. assert (f s0 = f s) as H0 by (unfold ensure_started in E0; case_match; by injection E0 as <- _).
  destruct (match content c with Some _ => _ | None => _ end) as [s1 e1] eqn:E1.
  assert (f s1 = f s0) as H1.
  { destruct (content c) as [text|]; [|by injection E1 as <- _]. pose proof (text_stable f (fun _ _ _ => eq_refl) (fun _ => eq_refl) s0 text) as H. by rewrite E1 in H. }
  pose proof (tools_stable f (fun _ _ _ => eq_refl) (fun _ => eq_refl) (fun _ _ => eq_refl) s1 (tool_calls c)) as H2.
  destruct (handle_tools s1 (tool_calls c)) as [s2 e2]. cbn [fst] in *. rewrite H1, H0 in H2. unfold f in H2. injection H2 as Hd Hu Hf.
  cbn. by rewrite Hd, Hu, Hf.
Qed.

Lemma events_totals m model est cs :
  let s := (events_of (anthropic_sink m model est) cs).1 in
  as_done s = false /\ as_usage s = default usage_default (last (omap ck_usage cs)) /\ as_finish_reason s = last (omap ck_finish_reason cs).
Proof.
  induction cs as [|c cs IH] using rev_ind; [done|]. rewrite events_of_snoc, !omap_app. destruct (events_of _ cs) as [s1 es1].
  destruct (chunk_totals s1 c) as (Hd & Hu & Hf). destruct (handle_chunk s1 c) as [s2 e2]. cbn in *. destruct IH as (IHd & IHu & IHf).
  rewrite Hd, Hu, Hf, IHd, IHu, IHf. split_and!; [done|destruct (ck_usage c)|destruct (ck_finish_reason c)]; cbn; by rewrite ?last_snoc, ?app_nil_r.
Qed.

(** C21. For every sequence of chunks in which a tool call is finished before the
    upstream turns to something else, the Anthropic client is sent one message of
    the protocol: its start, then blocks numbered from zero on, one open at a time,
    with deltas of the open block only and each stopped before the next, then the
    last stop reason with the output tokens of the last usage block, and the end;
    and the text deltas are the texts of the chunks, in order. *)
Theorem anthropic_events_wellformed m model est cs s es s' es' :
  in_order (None, ∅) cs = true ->
  events_of (anthropic_sink m model est) cs = (s, es) -> anthropic_finish s = (s', es') ->
  read_events RBefore (es ++ es') = Some REnd /\ texts (es ++ es') = omap content cs /\
  exists closing, es' = closing ++
    [MessageDelta (map_stop_reason (default "stop" (last (omap ck_finish_reason cs))))
       (completion_tokens (default usage_default (last (omap ck_usage cs)))); MessageStop].
Proof.
  intros Ho E Ef. assert (Hr0 : ready (anthropic_sink m model est) RBefore (None, ∅)) by done.
  destruct (events_in_step _ _ _ _ _ _ Hr0 Ho E) as (r & Hr & Hs). pose proof (events_texts (anthropic_sink m model est) cs) as Ht.
  pose proof (events_totals m model est cs) as Htot. rewrite E in Ht, Htot. cbn [fst snd] in Ht, Htot. destruct Htot as (Hd & Hu & Hf).
  unfold anthropic_finish in Ef. rewrite Hd in Ef. destruct (ensure_started (set_done s)) as [s1 e1] eqn:E1.
  destruct (start_in_step (set_done s) r _ _ _ Hs E1) as (r1 & Hr1 & H1 & _). destruct (close_open_block s1) as [s2 e2] eqn:E2.
  destruct (close_in_step _ _ _ _ _ H1 E2) as (Hr2 & _). injection Ef as <- <-. split_and!.
  - rewrite read_events_app, Hr. cbn [mbind option_bind]. rewrite read_events_app, Hr1. cbn [mbind option_bind]. by rewrite read_events_app, Hr2.
  - rewrite !texts_app, Ht. assert (texts e1 = []) as -> by (unfold ensure_started in E1; case_match; by injection E1 as _ <-).
    pose proof (close_texts s1) as Hc. rewrite E2 in Hc. cbn [snd] in Hc. rewrite Hc. by rewrite app_nil_r.
  - exists (e1 ++ e2). rewrite <- app_assoc. do 2 f_equal.
    assert (as_usage s2 = as_usage s /\ as_finish_reason s2 = as_finish_reason s) as [-> ->].
    { unfold ensure_started, close_open_block in *. repeat case_match; repeat case_decide; simplify_eq; done. }
    by rewrite Hu, Hf.
Qed.

Definition text_chunk (t : string) : OpenAiChunk := mkChunk (Some t) [] None None.
Definition tool_chunk (i : N) (id : option string) (part : string) : OpenAiChunk := mkChunk None [mkToolCall i id id part] None None.

Definition demo_chunks : list OpenAiChunk :=
  [text_chunk "hi"; tool_chunk 0 (Some "t0") ""; tool_chunk 0 None "{}"; tool_chunk 1 (Some "t1") "[]"; mkChunk None [] (Some "tool_calls") None].

Lemma anthropic_events_wellformed_witness :
  in_order (None, ∅) demo_chunks = true /\
  exists s es s' es', events_of (anthropic_sink "m" "x" 0) demo_chunks = (s, es) /\ anthropic_finish s = (s', es') /\ read_events RBefore (es ++ es') = Some REnd.
Proof.
  assert (Ho : in_order (None, ∅) demo_chunks = true) by (vm_compute; reflexivity). split; [exact Ho|].
  destruct (events_of (anthropic_sink "m" "x" 0) demo_chunks) as [s es] eqn:E. destruct (anthropic_finish s) as [s' es'] eqn:E'.
  exists s, es, s', es'. split; [reflexivity|]. split; [exact E'|].
  exact (proj1 (anthropic_events_wellformed "m" "x" 0 demo_chunks s es s' es' Ho E E')).
Defined.

(** Two tool calls whose fragments alternate: the block that goes on was stopped,
    is stopped again at the end, and the second one never is. *)
Example interleaved_tools_malformed :
  let cs := [tool_chunk 0 (Some "t0") ""; tool_chunk 1 (Some "t1") ""; tool_chunk 0 None "{}"] in
  let '(s, es) := events_of (anthropic_sink "m" "x" 0) cs in
  let '(_, es') := anthropic_finish s in
  es ++ es' = [MessageStart; ToolStart 0 "t0" "t0"; BlockStop 0; ToolStart 1 "t1" "t1"; InputDelta 0 "{}"; BlockStop 0; MessageDelta "end_turn" 0; MessageStop] /\
  read_events RBefore (es ++ es') = None.
Proof. vm_compute; split; reflexivity. Qed.
