(* ===== verification/ProxyRouter.v ===== *)
(** * The cascade of the model proxy

    thegn-proxy/src/router.rs: the order in which a request tries the lanes of its
    route, the loop over them, and what a request that was served or failed leaves
    behind.  Many requests run at once on several threads: a request is a program
    over the shared state in which every access to that state is one step, and
    before each step the environment may do whatever the other requests do.  The
    environment also answers the clocks, the jitter and the upstreams.  A program
    that fails is the panic of the limiter's [expect]. *)
From Stdlib Require Import Ascii String SpecFloat.
From S2P Require Import Prelude RustOrd RustFloat RustStr RustText McpProxy ProxyPool ProxyLimit ProxyBudget ProxyRoute ProxyReply ProxyRelay.
Local Open Scope string_scope.
Local Open Scope list_scope.
Local Open Scope Z_scope.

(** ** Shared state *)

Record RequestRow := mkRequestRow {
  ts_ms : Z;
  rr_protocol : string;
  rr_route : string;
  rr_agent : option string;
  rr_worktree : option string;
  rr_workspace : option string;
  client_model : string;
  rr_backend : string;
  backend_model : string;
  input_tokens : Z;
  output_tokens : Z;
  rr_cache_read : Z;
  rr_cache_creation : Z;
  rr_cost : f64;
  cost_source : string;
  outcome : string;
  error_code : option string;
  duration_ms : Z;
  ttfb_ms : option Z;
}.

(** What changes of a pool: its cursor and its counters; a pool nobody has used is
    absent. *)
Abbreviation Pools := (gmap nat (N * list Z)).

Record Shared := mkShared {
  sh_health : Markers;
  sh_limiter : Buckets;
  sh_inflight : Inflight;
  sh_budget : BudgetTable;
  sh_requests : list RequestRow;
  sh_resolved : gmap string string;
  sh_usage : gmap string f32;
  sh_pools : Pools;
}.

Definition with_health f s := mkShared (f (sh_health s)) (sh_limiter s) (sh_inflight s) (sh_budget s) (sh_requests s) (sh_resolved s) (sh_usage s) (sh_pools s).
Definition with_limiter l s := mkShared (sh_health s) l (sh_inflight s) (sh_budget s) (sh_requests s) (sh_resolved s) (sh_usage s) (sh_pools s).
Definition with_inflight i s := mkShared (sh_health s) (sh_limiter s) i (sh_budget s) (sh_requests s) (sh_resolved s) (sh_usage s) (sh_pools s).
Definition with_budget f s := mkShared (sh_health s) (sh_limiter s) (sh_inflight s) (f (sh_budget s)) (sh_requests s) (sh_resolved s) (sh_usage s) (sh_pools s).
Definition with_requests f s := mkShared (sh_health s) (sh_limiter s) (sh_inflight s) (sh_budget s) (f (sh_requests s)) (sh_resolved s) (sh_usage s) (sh_pools s).
Definition with_resolved f s := mkShared (sh_health s) (sh_limiter s) (sh_inflight s) (sh_budget s) (sh_requests s) (f (sh_resolved s)) (sh_usage s) (sh_pools s).
Definition with_pools f s := mkShared (sh_health s) (sh_limiter s) (sh_inflight s) (sh_budget s) (sh_requests s) (sh_resolved s) (sh_usage s) (f (sh_pools s)).

(** ** The upstreams *)

Inductive DispatchTimeout := TFirstByte | TIdle.

(** An error: the deadline it carries, and of the reqwest errors in its chain
    whether each [is_connect] and [is_timeout]. *)
Record DispatchError := mkDispatchError { de_timeout : option DispatchTimeout; de_causes : list (bool * bool) }.

Record Response := mkResponse { status : Z; r_body : string; r_headers : HeaderMap }.

Inductive Attempt := Responded (r : Response) | DispatchFailed (e : DispatchError) | TotalTimeout.

(** What opening a stream gives: the events of a successful one, or the status and
    the body of a refusal as it is read ([None]: reading breaks off, no list: it
    stalls). *)
Inductive Opened :=
| OpenTimeout
| OpenFailed (e : DispatchError)
| OpenRefused (st : Z) (h : HeaderMap) (body : option (list (option string)))
| OpenOk (h : HeaderMap) (evs : list PeekEvent).

Definition dispatch_timeout_reason (e : DispatchError) : option string :=
  (fun t => match t with TFirstByte => "first_byte_timeout" | TIdle => "idle_timeout" end) <$> de_timeout e.

Definition is_connect_error (e : DispatchError) : bool := existsb fst (de_causes e).
Definition is_connect_timeout (e : DispatchError) : bool := existsb (fun c => fst c && snd c) (de_causes e).
Definition should_refund_connect_failure (is_connect took_token : bool) : bool := is_connect && took_token.

(** ** Programs *)

(** What a request does that others can see beyond the shared state: the
    counters it raises, the requests it sends, the spend and the rows it
    writes. *)
Inductive Effect :=
| EFallthrough (ident reason : string)
| EAttempt (ident result : string)
| ERequest (route backend result : string)
| EDuration (ms : Z)
| ETokens (ident kind : string) (n : N)
| ECost (ident source : string) (cost : f64)
| EDispatch (b : Backend) (body : string)
| ESpend (tokens : Z) (cost : f64)
| ERow (row : RequestRow).

(** At step [n]: what the others have done since the step before, the clocks, the
    jitter, and the answer of the upstream a body is sent to within a time, at once
    or as a stream. *)
Record Env := mkEnv {
  interfere : nat -> Shared -> Shared;
  wall_ms : nat -> Z;
  instant : nat -> Z;
  subsec_nanos : nat -> nat;
  jitter_ns : nat -> Z;
  upstream : nat -> Z -> Backend -> string -> Attempt;
  open_upstream : nat -> Z -> Backend -> string -> Opened;
}.

Definition M (A : Type) : Type := Env -> nat -> Shared -> option (A * nat * Shared * list Effect).

#[global] Instance M_ret : MRet M := fun A a env n s => Some (a, n, s, []).
#[global] Instance M_bind : MBind M := fun A B k m env n s =>
  match m env n s with
  | None => None
  | Some (a, n, s, l) => match k a env n s with None => None | Some (b, n, s, l') => Some (b, n, s, l ++ l') end
  end.

(** Asking the environment. *)
Definition ask {A} (f : Env -> nat -> A) : M A := fun env n s => Some (f env n, S n, s, []).

(** One step on the shared state, after what the others did. *)
Definition atomic {A} (f : Shared -> option (A * Shared)) : M A := fun env n s =>
  match f (interfere env n s) with None => None | Some (a, s) => Some (a, S n, s, []) end.
Definition modify (f : Shared -> Shared) : M unit := atomic (fun s => Some ((), f s)).
Definition reads {A} (f : Shared -> A) : M A := atomic (fun s => Some (f s, s)).

Definition emit (e : Effect) : M unit := fun env n s => Some ((), n, s, [e]).

Definition now_ms : M Z := ask wall_ms.
Definition now_instant : M Z := ask instant.

(** [elapsed] since an instant. *)
Definition elapsed (start : Z) : M Z := t ← now_instant; mret (since t start).

Fixpoint traverse {A B} (f : A -> M B) (l : list A) : M (list B) :=
  match l with [] => mret [] | a :: l => b ← f a; bs ← traverse f l; mret (b :: bs) end.

(** ** The order of the lanes *)

Definition pool_at (ps : Pools) (p : PoolRef) : CredPool :=
  let '(c, w) := default (0%N, []) (ps !! pool_id p) in mkPool (pool_strategy p) (pool_weights p) c w.

Definition take_order (p : PoolRef) (n rand : nat) : M (list nat) := atomic (fun s =>
  let '(order, cp) := pool_order (pool_at (sh_pools s) p) n rand in
  Some (order, with_pools <[pool_id p := (cursor cp, swrr cp)]> s)).

(** The slots: a pool and how many lanes in a row share it, or one lane. *)
Fixpoint slot_runs (lanes : list (option PoolRef)) : list (option PoolRef * nat) :=
  match lanes with
  | [] => []
  | None :: lanes => (None, 1%nat) :: slot_runs lanes
  | Some p :: lanes =>
      match slot_runs lanes with
      | (Some q, k) :: runs => if (pool_id p =? pool_id q)%nat then (Some p, S k) :: runs else (Some p, 1%nat) :: (Some q, k) :: runs
      | runs => (Some p, 1%nat) :: runs
      end
  end.

(** The slots in order, each in the order of its keys. *)
Fixpoint slots_from (rand i : nat) (runs : list (option PoolRef * nat)) : M (list (list nat)) :=
  match runs with
  | [] => mret []
  | (None, _) :: runs => rest ← slots_from rand (S i) runs; mret ([i] :: rest)
  | (Some p, k) :: runs =>
      order ← take_order p k rand;
      rest ← slots_from rand (i + k) runs;
      mret (map (Nat.add i) order :: rest)
  end.

Definition slot_cost (t : PriceTable) (b : Backend) : f64 := (cost_usd t (b_name b) (b_model b) (mkUsage 1000000 1000000 0 0) None).1.

(** The price of a slot is the one of its first lane; slots are never empty and
    their indices are those of the lanes. *)
Definition cost_of_slot (t : PriceTable) (lanes : list Backend) (slot : list nat) : f64 :=
  match head slot ≫= (lanes !!.) with Some b => slot_cost t b | None => F64.zero end.

Definition order_slots (route : Route) (rand : nat) (t : PriceTable) (force_cost : bool) (slots : list (list nat)) : M (list (list nat)) :=
  match (if force_cost then CostAware else rt_strategy route) with
  | Sequential => mret slots
  | LoadBalanced =>
      match order_pool route with
      | Some pool => order ← take_order pool (length slots) rand; mret (omap (slots !!.) order)
      | None => mret slots
      end
  | CostAware => mret (sort_by (on (cost_of_slot t (priority route)) total_cmp) slots)
  end.

Definition ordered_priority (route : Route) (rand : nat) (t : PriceTable) (force_cost : bool) : M (list nat) :=
  slots ← slots_from rand 0 (slot_runs (map b_pool (priority route)));
  ordered ← order_slots route rand t force_cost slots;
  mret (concat ordered).

Definition rand_start : M nat := ask subsec_nanos.

Definition DEFAULT_WARN_PERCENT : f32 := F32.lit 75 1.
Definition DEFAULT_CRIT_PERCENT : f32 := F32.lit 90 1.

(** The lanes an account is bound to lead. *)
Definition pin_upstream (i : Identity) (lanes : list Backend) : list Backend :=
  match i_upstream i with
  | Some up => sort_by (on (fun b => negb (String.eqb (provider_base (b_name b)) up)) cmp_bool) lanes
  | None => lanes
  end.

Definition attempt_lanes (c : ProxyConfig) (route : Route) (i : Identity) (force_cost : bool) : M (list Backend) :=
  rand ← rand_start;
  order ← ordered_priority route rand (price_table c) force_cost;
  let lanes := omap (priority route !!.) order in
  lanes ← (if usage_aware c then
             used ← traverse (fun b => reads (fun s => sh_usage s !! provider_base (b_name b))) lanes;
             mret (omap (lanes !!.) (usage_order used DEFAULT_WARN_PERCENT DEFAULT_CRIT_PERCENT))
           else mret lanes);
  mret (pin_upstream i lanes).

(** Of the other routes, the lanes whose identity is new. *)
Fixpoint unseen_lanes (seen : gset string) (lanes : list Backend) : list Backend :=
  match lanes with
  | [] => []
  | b :: lanes => if bool_decide (identity b ∈ seen) then unseen_lanes seen lanes else b :: unseen_lanes ({[identity b]} ∪ seen) lanes
  end.

Definition last_resort_lanes (c : ProxyConfig) (route_name : string) (tried : gset string) : list Backend :=
  unseen_lanes tried (concat (map priority (List.filter (fun r => negb (String.eqb (rt_name r) route_name)) (routes c)))).

(** ** One request *)

Record RouteResult := mkResult { res_status : Z; res_body : string; served_by : string }.

(** The parts of the outside a request reads and prints with. *)
Record Libraries := mkLibraries {
  l_from_slice : string -> option JsonValue;
  l_to_vec : JsonValue -> string;
  l_to_lowercase : string -> string;
  l_parse_f64 : string -> option f64;
  l_rfc2822 : string -> option Z;
  l_rfc3339 : string -> option Z;
  l_captures : ResetPattern -> string -> option string;
}.

Section Router.
Context (L : Libraries) (c : ProxyConfig) (buffered_total : Z).
Context (i : Identity) (protocol : string) (route : Route).

Definition put_audit_row (row : RequestRow) : M unit := modify (with_requests (fun l => l ++ [row])) ;; emit (ERow row).

Definition build_row (b : Backend) (u : Usage) (cost : f64) (source : CostSource) (out : string) (dur : Z) (ttfb : option Z) : M RequestRow :=
  ts ← now_ms;
  mret (mkRequestRow ts protocol (rt_name route) (identity_agent i) (identity_worktree i) (identity_workspace_label i)
    ("model-proxy/" ++ rt_name route)%string (b_name b) (b_model b)
    (i64_wrap (Z.of_N (prompt_tokens u))) (i64_wrap (Z.of_N (completion_tokens u)))
    (i64_wrap (Z.of_N (cache_read_tokens u))) (i64_wrap (Z.of_N (cache_creation_tokens u)))
    cost (source_str source) out None dur ttfb).

Definition spend (tokens : Z) (cost : f64) : M unit :=
  now ← now_ms; modify (with_budget (fun db => record_spend db (budget c) i tokens cost now)) ;; emit (ESpend tokens cost).

Definition finalize_success (b : Backend) (body : string) (upstream_cost : option f64) (dur : Z) (ttfb : option Z) : M unit :=
  let u := parse_usage (l_from_slice L) body in
  let '(cost, source) := cost_usd (price_table c) (b_name b) (b_model b) u upstream_cost in
  emit (ETokens (identity b) "prompt" (prompt_tokens u)) ;;
  emit (ETokens (identity b) "completion" (completion_tokens u)) ;;
  emit (ECost (identity b) (source_str source) cost) ;;
  spend (i64_wrap (Z.of_N (usage_total u))) cost ;;
  row ← build_row b u cost source "ok" dur ttfb;
  put_audit_row row ;;
  modify (with_resolved <[rt_name route := identity b]>).

Definition audit_failure (started : Z) : M unit :=
  ts ← now_ms;
  e ← elapsed started;
  put_audit_row (mkRequestRow ts protocol (rt_name route) (identity_agent i) (identity_worktree i) (identity_workspace_label i)
    ("model-proxy/" ++ rt_name route)%string "none" "" 0 0 0 0 F64.zero "" "all_failed" (Some "503") (saturating_i64 (as_millis e)) None).

(** Falling through a lane. *)
Definition fall_through (ident reason : string) : M (option RouteResult) := emit (EFallthrough ident reason) ;; mret None.

Definition refund_connect_failure (ident : string) (is_connect took_token : bool) : M unit :=
  if should_refund_connect_failure is_connect took_token
  then t ← now_instant; modify (fun s => with_limiter (limiter_refund (sh_limiter s) ident t) s)
  else mret ().

Definition classify_dispatch_error (ident : string) (e : DispatchError) (took_token : bool) : M string :=
  match dispatch_timeout_reason e with
  | Some reason => mret reason
  | None =>
      refund_connect_failure ident (is_connect_error e) took_token ;;
      mret (if is_connect_timeout e then "connect_timeout" else "network_error")
  end.

Definition limiter_acquire (b : Backend) : M bool :=
  t ← now_instant;
  atomic (fun s => '(ok, l) ← limiter_try_acquire (sh_limiter s) (identity b) (rate b) t; Some (ok, with_limiter l s)).

Definition limiter_wait (b : Backend) : M Z :=
  t ← now_instant;
  atomic (fun s => '(d, l) ← limiter_reserve (sh_limiter s) (identity b) (rate b) t; Some (d, with_limiter l s)).

(** What the rate limit says of a lane: go, with a token or without one, or not. *)
Inductive Gate := Go (took_token : bool) | Shed (reason : string).

Definition rate_gate (b : Backend) (is_last : bool) (attempt_started : Z) : M Gate :=
  took ← limiter_acquire b;
  if (took : bool) then mret (Go true)
  else if negb is_last then mret (Shed "loadshed")
  else
    wait ← limiter_wait b;
    e ← elapsed attempt_started;
    if Z.max 0 (buffered_total - e) <? wait then mret (Shed "rate_wait_exceeds_deadline")
    else took ← limiter_acquire b; mret (Go took).

(** Sending the request, and what becomes of the answer. *)
Definition dispatch (b : Backend) (body : string) (attempt_started : Z) : M Attempt :=
  e ← elapsed attempt_started;
  emit (EDispatch b body) ;;
  ask (fun env n => upstream env n (Z.max 0 (buffered_total - e)) b body).

Definition settle (b : Backend) (r : Response) (now started : Z) : M (option RouteResult) :=
  let ident := identity b in
  let '(kind, reason) := classify_response (l_from_slice L) (l_to_lowercase L) (status r) (r_body r) in
  match kind with
  | Serve =>
      modify (with_health (fun h => record_success h ident (b_model b))) ;;
      emit (EAttempt ident "ok") ;;
      emit (ERequest (rt_name route) ident "ok") ;;
      e ← elapsed started;
      let dur := saturating_i64 (as_millis e) in
      emit (EDuration dur) ;;
      finalize_success b (r_body r) (header_cost (l_parse_f64 L) (r_headers r)) dur None ;;
      mret (Some (mkResult (status r) (r_body r) ident))
  | Exhausted =>
      let until := or_else (parse_reset_from_body (l_captures L) (l_rfc3339 L) (l_parse_f64 L) (r_body r) now)
                           (retry_after_ms (l_parse_f64 L) (l_rfc2822 L) (r_headers r) now) in
      j ← ask jitter_ns;
      modify (with_health (fun h => mark_exhausted (l_to_lowercase L) h ident (b_model b) reason until now j)) ;;
      emit (EAttempt ident "exhausted") ;;
      fall_through ident "exhausted"
  | Soft => emit (EAttempt ident "soft_fail") ;; fall_through ident "soft_fail"
  end.

(** The lane while its permit is held. *)
Definition attempt_lane (b : Backend) (is_last : bool) (parsed : JsonValue) (body : string) (now attempt_started started : Z)
    : M (option RouteResult) :=
  let ident := identity b in
  gate ← rate_gate b is_last attempt_started;
  match gate with
  | Shed reason => fall_through ident reason
  | Go took =>
      a ← dispatch b (apply_transforms (l_parse_f64 L) (l_to_vec L) b parsed body) attempt_started;
      match a with
      | Responded r => settle b r now started
      | DispatchFailed e =>
          reason ← classify_dispatch_error ident e took;
          emit (EAttempt ident reason) ;; fall_through ident reason
      | TotalTimeout => emit (EAttempt ident "total_timeout") ;; fall_through ident "total_timeout"
      end
  end.

Definition take_permit (b : Backend) : M (option string) :=
  atomic (fun s => let '(p, m) := inflight_try_acquire (sh_inflight s) (identity b) (inflight_cap b) in Some (p, with_inflight m s)).

Definition drop_permit (p : string) : M unit := modify (fun s => with_inflight (inflight_drop (sh_inflight s) p) s).

(** One turn of the loop. *)
Definition try_lane (b : Backend) (is_last : bool) (parsed : JsonValue) (body : string) (est : N) (started : Z) : M (option RouteResult) :=
  attempt_started ← now_instant;
  now ← now_ms;
  let ident := identity b in
  cooling ← reads (fun s => is_exhausted (sh_health s) ident (b_model b) now);
  if (cooling : bool) then fall_through ident "skipped_exhausted"
  else if exceeds_context_limit (context_limit b) est then fall_through ident "skipped_context"
  else
    permit ← take_permit b;
    match permit with
    | None => fall_through ident "loadshed_inflight"
    | Some p => r ← attempt_lane b is_last parsed body now attempt_started started; drop_permit p ;; mret r
    end.

Fixpoint try_chain (lanes : list Backend) (parsed : JsonValue) (body : string) (est : N) (started : Z) (tried : gset string)
    : M (option RouteResult * gset string) :=
  match lanes with
  | [] => mret (None, tried)
  | b :: lanes =>
      r ← try_lane b (match lanes with [] => true | _ => false end) parsed body est started;
      match r with
      | Some r => mret (Some r, {[identity b]} ∪ tried)
      | None => try_chain lanes parsed body est started ({[identity b]} ∪ tried)
      end
  end.

Definition all_failed : RouteResult :=
  mkResult 503 (double_quotes "{'error':{'message':'all backends failed','type':'proxy_error'}}") "none".

Definition route_nonstreaming (body : string) (downgrade : bool) : M RouteResult :=
  started ← now_instant;
  let parsed := default VNull (l_from_slice L body) in
  let est := estimated_request_tokens (N.of_nat (String.length body)) in
  lanes ← attempt_lanes c route i downgrade;
  '(r, tried) ← try_chain lanes parsed body est started ∅;
  r ← (match r with
       | Some r => mret (Some r)
       | None =>
           if last_resort c then
             let fallback := last_resort_lanes c (rt_name route) tried in
             match fallback with
             | [] => mret None
             | _ => '(r, _) ← try_chain fallback parsed body est started tried; mret r
             end
           else mret None
       end);
  match r with
  | Some r => mret r
  | None => emit (ERequest (rt_name route) "none" "all_failed") ;; audit_failure started ;; mret all_failed
  end.
End Router.
