(* ===== verification/ProxyRouterProps.v ===== *)
(** * What the cascade guarantees

    Programs are specified by what they return and what they emit, for every
    environment: [runs] also says that they return.  From the specification of one
    lane follow the one of the chain and the one of a request. *)
From Stdlib Require Import Ascii String SpecFloat.
From S2P Require Import Prelude RustOrd RustFloat RustStr RustText McpProxy ProxyPool ProxyLimit ProxyBudget ProxyRoute ProxyReply ProxyRouter.
Local Open Scope string_scope.
Local Open Scope list_scope.
Local Open Scope Z_scope.

(** ** Programs that return *)

Definition runs {A} (m : M A) (P : Env -> A -> list Effect -> Prop) : Prop :=
  forall env n s, exists a n' s' l, m env n s = Some (a, n', s', l) /\ P env a l.

Section Runs.
Context {A B : Type}.

Lemma runs_ret (a : A) (P : Env -> A -> list Effect -> Prop) : (forall env, P env a []) -> runs (mret a) P.
Proof. intros H env n s. by exists a, n, s, []. Qed.

Lemma runs_bind (m : M A) (k : A -> M B) Q P :
  runs m Q -> (forall a, runs (k a) (fun env b l' => forall l, Q env a l -> P env b (l ++ l'))) -> runs (m ≫= k) P.
Proof.
  intros Hm Hk env n s. destruct (Hm env n s) as (a & n1 & s1 & l & E & HQ).
  destruct (Hk a env n1 s1) as (b & n2 & s2 & l' & E' & HP). exists b, n2, s2, (l ++ l').
  split; [|by apply HP]. unfold mbind, M_bind. by rewrite E, E'.
Qed.

Lemma runs_impl (m : M A) (Q P : Env -> A -> list Effect -> Prop) :
  runs m Q -> (forall env a l, Q env a l -> P env a l) -> runs m P.
Proof. intros H HQ env n s. destruct (H env n s) as (a & n' & s' & l & E & Hq). eauto 10. Qed.

Lemma runs_ask (f : Env -> nat -> A) P : (forall env n, P env (f env n) []) -> runs (ask f) P.
Proof. intros H env n s. repeat eexists. apply H. Qed.

Lemma runs_atomic (f : Shared -> option (A * Shared)) P :
  (forall s, exists a s', f s = Some (a, s') /\ forall env, P env a []) -> runs (atomic f) P.
Proof. intros H env n s. unfold atomic. destruct (H (interfere env n s)) as (a & s' & -> & HP). repeat eexists. apply HP. Qed.

Lemma runs_reads (f : Shared -> A) P : (forall env a, P env a []) -> runs (reads f) P.
Proof. intros H. apply runs_atomic. eauto. Qed.
End Runs.

Lemma runs_modify f P : (forall env, P env () []) -> runs (modify f) P.
Proof. intros H. apply runs_atomic. eauto. Qed.

Lemma runs_emit e P : (forall env, P env () [e]) -> runs (emit e) P.
Proof. intros H env n s. repeat eexists. apply H. Qed.

(** A program that emits nothing. *)
Definition silent {A} : Env -> A -> list Effect -> Prop := fun _ _ l => l = [].

Lemma runs_quiet {A B} (m : M A) (k : A -> M B) (Q : Env -> A -> Prop) P :
  runs m (fun env a l => l = [] /\ Q env a) -> (forall a, runs (k a) (fun env b l => Q env a -> P env b l)) -> runs (m ≫= k) P.
Proof.
  intros Hm Hk. eapply runs_bind; [exact Hm|]. intros a. eapply runs_impl; [apply Hk|]. intros env b l H l' [-> HQ]. by apply H.
Qed.

Lemma runs_pure {A B} (m : M A) (k : A -> M B) (Q : A -> Prop) P :
  runs m (fun _ a l => l = [] /\ Q a) -> (forall a, Q a -> runs (k a) P) -> runs (m ≫= k) P.
Proof.
  intros Hm Hk env n s. destruct (Hm env n s) as (a & n1 & s1 & l & E & -> & HQ).
  destruct (Hk a HQ env n1 s1) as (b & n2 & s2 & l' & E' & HP). exists b, n2, s2, l'.
  split; [|done]. unfold mbind, M_bind. by rewrite E, E'.
Qed.

Lemma runs_then {A B} (m : M A) (k : A -> M B) P : runs m silent -> (forall a, runs (k a) P) -> runs (m ≫= k) P.
Proof.
  intros Hm Hk. eapply runs_bind; [exact Hm|]. intros a. eapply runs_impl; [apply Hk|]. by intros env b l H l' ->.
Qed.

Lemma runs_emit_then {B} e (k : unit -> M B) P : runs (k ()) (fun env b l => P env b (e :: l)) -> runs (emit e ≫= k) P.
Proof.
  intros Hk. eapply (runs_bind _ _ (fun _ _ l => l = [e])); [by apply runs_emit|]. intros []. eapply runs_impl; [apply Hk|].
  by intros env b l H l' ->.
Qed.

Lemma ask_silent {A} (f : Env -> nat -> A) : runs (ask f) silent.
Proof. by apply runs_ask. Qed.

Lemma modify_silent f : runs (modify f) silent.
Proof. by apply runs_modify. Qed.

Lemma reads_silent {A} (f : Shared -> A) : runs (reads f) silent.
Proof. by apply runs_reads. Qed.

Lemma ret_silent {A} (a : A) : runs (mret a) silent.
Proof. by apply runs_ret. Qed.

Lemma then_silent {A B} (m : M A) (k : A -> M B) : runs m silent -> (forall a, runs (k a) silent) -> runs (m ≫= k) silent.
Proof. apply runs_then. Qed.

Create HintDb silent.
#[export] Hint Resolve ask_silent modify_silent reads_silent ret_silent then_silent : silent.

Lemma elapsed_silent start : runs (elapsed start) silent.
Proof. unfold elapsed, now_instant. auto with silent. Qed.
#[export] Hint Resolve elapsed_silent : silent.
#[export] Hint Unfold now_ms now_instant : silent.

(** ** The order is complete *)

Lemma omap_lookup_from {A} (pre l : list A) : omap ((pre ++ l) !!.) (seq (length pre) (length l)) = l.
Proof.
  revert pre. induction l as [|a l IH]; intros pre; [done|]. cbn [length seq omap list_omap]. rewrite list_lookup_middle by done.
  f_equal. specialize (IH (pre ++ [a])). rewrite <- app_assoc, length_app, Nat.add_1_r in IH. exact IH.
Qed.

Lemma omap_lookup_perm {A} (l : list A) order : order ≡ₚ seq 0 (length l) -> omap (l !!.) order ≡ₚ l.
Proof. intros ->. pose proof (omap_lookup_from [] l) as E. cbn [app length] in E. by rewrite E. Qed.

Lemma concat_perm {A} (l1 l2 : list (list A)) : l1 ≡ₚ l2 -> concat l1 ≡ₚ concat l2.
Proof. induction 1; simpl; [done|by apply Permutation_app_head|rewrite !app_assoc; apply Permutation_app_tail, Permutation_app_comm|by etrans]. Qed.

Lemma take_order_runs p n r : runs (take_order p n r) (fun _ o l => l = [] /\ o ≡ₚ seq 0 n).
Proof.
  apply runs_atomic. intros s. destruct (pool_order _ n r) as [o cp] eqn:E. apply pool_order_perm in E. eauto 10.
Qed.

(** How many lanes a slot has. *)
Definition slot_width (run : option PoolRef * nat) : nat := match run with (None, _) => 1 | (Some _, k) => k end.

Lemma slot_runs_width lanes : sum_list_with slot_width (slot_runs lanes) = length lanes.
Proof.
  induction lanes as [|[p|] lanes IH]; simpl; [done| |by rewrite IH].
  destruct (slot_runs lanes) as [|[ [q|] k] rs]; simpl in *; [by rewrite <- IH| |by rewrite <- IH].
  destruct (pool_id p =? pool_id q)%nat; simpl; by rewrite <- IH.
Qed.

Lemma slots_from_runs rand i rs :
  runs (slots_from rand i rs) (fun _ slots l => l = [] /\ concat slots ≡ₚ seq i (sum_list_with slot_width rs)).
Proof.
  revert i. induction rs as [|[ [p|] k] rs IH]; intros i; cbn [slots_from].
  - apply runs_ret. done.
  - eapply runs_bind; [apply take_order_runs|]. intros o. eapply runs_bind; [apply IH|]. intros rest. apply runs_ret.
    intros _ l [-> Hrest] l' [-> Ho]. split; [done|]. simpl. rewrite seq_app, Hrest, Ho. apply Permutation_app_tail.
    pose proof (fmap_add_seq i 0 k) as E. rewrite Nat.add_0_r in E. by rewrite <- E.
  - eapply runs_bind; [apply IH|]. intros rest. apply runs_ret. intros _ l [-> Hrest]. split; [done|]. simpl. by rewrite Hrest.
Qed.

Lemma order_slots_runs route rand t force slots :
  runs (order_slots route rand t force slots) (fun _ slots' l => l = [] /\ slots' ≡ₚ slots).
Proof.
  unfold order_slots. destruct (if force then CostAware else rt_strategy route); [by apply runs_ret| |].
  - destruct (order_pool route) as [p|]; [|by apply runs_ret]. eapply runs_bind; [apply take_order_runs|]. intros o. apply runs_ret.
    intros _ l [-> Ho]. split; [done|by apply omap_lookup_perm].
  - apply runs_ret. intros _. split; [done|apply sort_by_perm].
Qed.

Lemma ordered_priority_runs route rand t force :
  runs (ordered_priority route rand t force) (fun _ o l => l = [] /\ o ≡ₚ seq 0 (length (priority route))).
Proof.
  unfold ordered_priority. eapply runs_bind; [apply slots_from_runs|]. intros slots. eapply runs_bind; [apply order_slots_runs|].
  intros slots'. apply runs_ret. intros _ l [-> Hs] l' [-> Hc]. split; [done|]. rewrite (concat_perm _ _ Hs), Hc, slot_runs_width, length_map. done.
Qed.

Lemma traverse_silent {A B} (f : A -> M B) (l : list A) :
  (forall a, runs (f a) silent) -> runs (traverse f l) (fun _ bs e => e = [] /\ length bs = length l).
Proof.
  intros Hf. induction l as [|a l IH]; [by apply runs_ret|]. cbn [traverse]. eapply runs_bind; [apply Hf|]. intros b.
  eapply runs_bind; [apply IH|]. intros bs. apply runs_ret. intros _ l1 [-> Hl] l2 ->. split; [done|]. simpl. by rewrite Hl.
Qed.

(** Lanes are dropped only for their account, and never all of them. *)
Lemma usage_order_spec used warn crit :
  (forall i, i ∈ usage_order used warn crit -> (i < length used)%nat) /\ (used <> [] -> usage_order used warn crit <> []).
Proof.
  unfold usage_order. set (f := List.filter _ _). set (w := List.filter _ _).
  assert (Hin : forall i, i ∈ f ++ w -> (i < length used)%nat).
  { intros i Hi. apply elem_of_app in Hi as [Hi|Hi]; apply list_elem_of_In, filter_In, proj1, in_seq in Hi; lia. }
  destruct (f ++ w) as [|x r]; [|split; [done|done] ]. split; [intros i Hi%elem_of_seq; lia|]. intros Hu E.
  destruct used; [done|discriminate E].
Qed.

Definition lanes_of (c : ProxyConfig) (route : Route) (lanes : list Backend) : Prop :=
  (usage_aware c = false -> lanes ≡ₚ priority route) /\ (forall b, b ∈ lanes -> b ∈ priority route) /\
  (priority route <> [] -> lanes <> []).

Lemma pin_perm i lanes : pin_upstream i lanes ≡ₚ lanes.
Proof. unfold pin_upstream. destruct (i_upstream i); [apply sort_by_perm|done]. Qed.

Lemma attempt_lanes_runs c route i force : runs (attempt_lanes c route i force) (fun _ lanes l => l = [] /\ lanes_of c route lanes).
Proof.
  unfold attempt_lanes. eapply runs_bind; [by apply (runs_ask _ silent)|]. intros rand.
  eapply runs_bind; [apply ordered_priority_runs|]. intros o.
  eapply (runs_bind _ _ (fun _ lanes l => l = [] /\ (o ≡ₚ seq 0 (length (priority route)) -> lanes_of c route lanes))).
  - destruct (usage_aware c) eqn:Eu.
    + eapply runs_bind; [apply traverse_silent; intros b; by apply runs_reads|]. intros used. apply runs_ret. intros _ l [-> Hl].
      split; [done|]. intros Ho. apply (omap_lookup_perm (priority route)) in Ho. set (ls := omap _ o) in *.
      destruct (usage_order_spec used DEFAULT_WARN_PERCENT DEFAULT_CRIT_PERCENT) as [Hlt Hne]. split_and!; [congruence| |].
      * intros b Hb. apply list_elem_of_omap in Hb as (j & _ & Hj). rewrite <- Ho. by eapply list_elem_of_lookup_2.
      * intros Hp. assert (Hls : ls <> []) by (intros E; rewrite E in Ho; by apply Permutation_nil in Ho).
        assert (used <> []) as Hu%Hne by (destruct used, ls; done). destruct (usage_order used _ _) as [|j r] eqn:E; [done|].
        assert (j < length used)%nat as Hj by (apply Hlt; left). rewrite Hl in Hj. apply lookup_lt_is_Some in Hj as [b Hb]. simpl. by rewrite Hb.
    + apply runs_ret. intros _. split; [done|]. intros Ho%omap_lookup_perm. split_and!; [done|intros b; by rewrite Ho|].
      intros Hp E. rewrite E in Ho. by apply Permutation_nil in Ho.
  - intros lanes. apply runs_ret. intros _ l [-> H] l1 [-> Ho] l2 ->. split; [done|]. destruct (H Ho) as (H1 & H2 & H3). split_and!.
    + intros E. by rewrite pin_perm, H1.
    + intros b. rewrite pin_perm. apply H2.
    + intros Hp E. pose proof (pin_perm i lanes) as Hpp. rewrite E in Hpp. apply Permutation_nil in Hpp. by apply H3.
Qed.

(** ** One lane *)

Definition fallthroughs : list Effect -> list string := omap (fun e => match e with EFallthrough i _ => Some i | _ => None end).
Definition dispatched : list Effect -> list Backend := omap (fun e => match e with EDispatch b _ => Some b | _ => None end).
Definition spends : list Effect -> list (Z * f64) := omap (fun e => match e with ESpend t c => Some (t, c) | _ => None end).
Definition rows : list Effect -> list RequestRow := omap (fun e => match e with ERow r => Some r | _ => None end).

Lemma fallthroughs_app l l' : fallthroughs (l ++ l') = fallthroughs l ++ fallthroughs l'.
Proof. apply omap_app. Qed.
Lemma dispatched_app l l' : dispatched (l ++ l') = dispatched l ++ dispatched l'.
Proof. apply omap_app. Qed.
Lemma spends_app l l' : spends (l ++ l') = spends l ++ spends l'.
Proof. apply omap_app. Qed.
Lemma rows_app l l' : rows (l ++ l') = rows l ++ rows l'.
Proof. apply omap_app. Qed.

(** The limiter can make the bucket of a lane whose policy it accepts. *)
Definition rate_ok (b : Backend) : bool :=
  negb (policy_valid (rate b)) || bool_decide (is_Some (bucket_new (policy_rps (rate b)) (p_burst (rate b)) 0)).

Lemma bucket_of_ok b bs t : rate_ok b = true -> policy_valid (rate b) = true ->
  exists k, bucket_of bs (identity b) (rate b) t = Some k.
Proof.
  unfold rate_ok, bucket_of. intros H Hv. rewrite Hv in H. apply bool_decide_eq_true in H as [k Hk].
  destruct (bs !! identity b); [eauto|]. unfold bucket_new in *. case_match; [done|eauto].
Qed.

Lemma limiter_acquire_silent b : rate_ok b = true -> runs (limiter_acquire b) silent.
Proof.
  intros H. apply runs_then; [apply ask_silent|]. intros t. apply runs_atomic. intros s. unfold limiter_try_acquire.
  destruct (policy_valid (rate b)) eqn:Ev; cbn [negb]; [|by repeat eexists].
  destruct (bucket_of_ok b (sh_limiter s) t H Ev) as [k ->]. simpl. destruct (try_take k t). by repeat eexists.
Qed.

Lemma limiter_wait_silent b : rate_ok b = true -> runs (limiter_wait b) silent.
Proof.
  intros H. apply runs_then; [apply ask_silent|]. intros t. apply runs_atomic. intros s. unfold limiter_reserve.
  destruct (policy_valid (rate b)) eqn:Ev; cbn [negb]; [|by repeat eexists].
  destruct (bucket_of_ok b (sh_limiter s) t H Ev) as [k ->]. simpl. destruct (bucket_reserve k t). by repeat eexists.
Qed.

Lemma rate_gate_silent total b is_last t : rate_ok b = true -> runs (rate_gate total b is_last t) silent.
Proof.
  intros H. unfold rate_gate. apply then_silent; [by apply limiter_acquire_silent|]. intros [|]; [apply ret_silent|].
  destruct is_last; cbn [negb]; [|apply ret_silent]. apply then_silent; [by apply limiter_wait_silent|]. intros w.
  apply then_silent; [apply elapsed_silent|]. intros e. case_match; [apply ret_silent|].
  apply then_silent; [by apply limiter_acquire_silent|]. intros. apply ret_silent.
Qed.

Lemma classify_error_silent ident e took : runs (classify_dispatch_error ident e took) silent.
Proof.
  unfold classify_dispatch_error. destruct (dispatch_timeout_reason e); [apply ret_silent|].
  apply then_silent; [|intros; apply ret_silent]. unfold refund_connect_failure, now_instant. case_match; auto with silent.
Qed.

Lemma take_permit_silent b : runs (take_permit b) silent.
Proof. apply runs_atomic. intros s. destruct (inflight_try_acquire _ _ _). by repeat eexists. Qed.

Lemma drop_permit_silent p : runs (drop_permit p) silent.
Proof. apply modify_silent. Qed.

#[export] Hint Resolve drop_permit_silent limiter_acquire_silent limiter_wait_silent rate_gate_silent classify_error_silent take_permit_silent : silent.

(** The program so far emits nothing, or emits one effect. *)
Ltac quiet := eapply runs_then; [by auto with silent|].
Ltac noisy := apply runs_emit_then.

Section Lane.
Context (L : Libraries) (c : ProxyConfig) (total : Z) (i : Identity) (protocol : string) (route : Route).
Context (parsed : JsonValue) (body : string).

Definition charge (b : Backend) (r : Response) : f64 :=
  (cost_usd (price_table c) (b_name b) (b_model b) (parse_usage (l_from_slice L) (r_body r)) (header_cost (l_parse_f64 L) (r_headers r))).1.

Definition tokens_of (r : Response) : Z := i64_wrap (Z.of_N (usage_total (parse_usage (l_from_slice L) (r_body r)))).

Definition usable (r : Response) : Prop := (classify_response (l_from_slice L) (l_to_lowercase L) (status r) (r_body r)).1 = Serve.

(** The lane answered, and its answer is what the client gets; it is charged once
    and leaves one row. *)
Definition served (b : Backend) (env : Env) (res : RouteResult) (l : list Effect) : Prop :=
  exists r row n t,
    upstream env n t b (apply_transforms (l_parse_f64 L) (l_to_vec L) b parsed body) = Responded r /\ usable r /\
    res = mkResult (status r) (r_body r) (identity b) /\
    spends l = [(tokens_of r, charge b r)] /\ rows l = [row] /\ outcome row = "ok" /\ rr_backend row = b_name b /\ rr_cost row = charge b r.

Definition lane_post (b : Backend) (env : Env) (o : option RouteResult) (l : list Effect) : Prop :=
  match o with
  | None => fallthroughs l = [identity b] /\ spends l = [] /\ rows l = [] /\ dispatched l `sublist_of` [b]
  | Some res => fallthroughs l = [] /\ dispatched l = [b] /\ served b env res l
  end.

Lemma fall_through_runs (b : Backend) reason P :
  (forall env, P env None [EFallthrough (identity b) reason]) -> runs (fall_through (identity b) reason) P.
Proof. intros H. noisy. by apply runs_ret. Qed.

Lemma finalize_runs b r dur ttfb :
  runs (finalize_success L c i protocol route b (r_body r) (header_cost (l_parse_f64 L) (r_headers r)) dur ttfb)
    (fun _ _ l => fallthroughs l = [] /\ dispatched l = [] /\ spends l = [(tokens_of r, charge b r)] /\
      exists row, rows l = [row] /\ outcome row = "ok" /\ rr_backend row = b_name b /\ rr_cost row = charge b r).
Proof.
  unfold finalize_success, charge, tokens_of. destruct (cost_usd _ _ _ _ _) as [cost source]. cbn [fst]. do 3 noisy.
  eapply (runs_bind _ _ (fun _ _ l => l = [ESpend (i64_wrap (Z.of_N (usage_total (parse_usage (l_from_slice L) (r_body r))))) cost])).
  - unfold spend, now_ms. quiet. intros now. quiet. intros _. by apply runs_emit.
  - intros []. eapply (runs_quiet _ _ (fun _ row => outcome row = "ok" /\ rr_backend row = b_name b /\ rr_cost row = cost)).
    + unfold build_row, now_ms. quiet. intros ts. by apply runs_ret.
    + intros row. eapply (runs_bind _ _ (fun _ _ l => l = [ERow row])).
      * unfold put_audit_row. quiet. intros _. by apply runs_emit.
      * intros []. apply runs_modify. intros env l -> H l' ->. simpl. eauto 10.
Qed.

Lemma settle_runs b r now started :
  runs (settle L c i protocol route b r now started)
    (fun env o l => forall n t body', body' = apply_transforms (l_parse_f64 L) (l_to_vec L) b parsed body ->
      upstream env n t b body' = Responded r -> lane_post b env o (EDispatch b body' :: l)).
Proof.
  unfold settle. destruct (classify_response _ _ _ _) as [kind reason] eqn:Ek. destruct kind.
  - quiet. intros _. do 2 noisy. quiet. intros e. noisy. eapply runs_bind; [apply finalize_runs|]. intros []. apply runs_ret.
    intros env l (Hf & Hd & Hs & row & Hr & Hrow) n t body' -> Hup. rewrite app_nil_r. unfold lane_post, served, usable. simpl.
    split_and!; [done|by f_equal|]. exists r, row, n, t. rewrite Ek. done.
  - noisy. apply fall_through_runs. intros env n t body' -> _. done.
  - quiet. intros j. quiet. intros _. noisy. apply fall_through_runs. intros env n t body' -> _. done.
Qed.

Lemma attempt_lane_runs b is_last now attempt_started started :
  rate_ok b = true -> runs (attempt_lane L c total i protocol route b is_last parsed body now attempt_started started) (lane_post b).
Proof.
  intros Hr. unfold attempt_lane. quiet. intros [took|reason].
  2: { apply fall_through_runs. intros env. simpl. split_and!; try done. apply sublist_nil_l. }
  set (body' := apply_transforms _ _ _ _ _).
  eapply (runs_bind _ _ (fun env a l => exists n t, upstream env n t b body' = a /\ l = [EDispatch b body'])).
  - unfold dispatch. quiet. intros e. noisy. apply runs_ask. eauto.
  - intros [r|e|].
    + eapply runs_impl; [apply settle_runs|]. intros env o l H l' (n & t & Hup & ->). by eapply H.
    + quiet. intros reason. noisy. apply fall_through_runs. intros env l (n & t & _ & ->). done.
    + noisy. apply fall_through_runs. intros env l (n & t & _ & ->). done.
Qed.

Lemma try_lane_runs b is_last est started :
  rate_ok b = true -> runs (try_lane L c total i protocol route b is_last parsed body est started) (lane_post b).
Proof.
  intros Hr. unfold try_lane, now_ms, now_instant. quiet. intros t. quiet. intros now. quiet. intros [|].
  { apply fall_through_runs. intros env. simpl. split_and!; try done. apply sublist_nil_l. }
  case_match. { apply fall_through_runs. intros env. simpl. split_and!; try done. apply sublist_nil_l. }
  quiet. intros [p|]. 2: { apply fall_through_runs. intros env. simpl. split_and!; try done. apply sublist_nil_l. }
  eapply runs_bind; [by apply attempt_lane_runs|]. intros r. quiet. intros _. apply runs_ret.
  intros env l Hl. by rewrite app_nil_r.
Qed.

(** ** The chain *)

(** What the effects of a chain over [lanes] look like. *)
Definition chain_post (lanes : list Backend) (env : Env) (o : option RouteResult) (l : list Effect) : Prop :=
  match o with
  | None => fallthroughs l = map identity lanes /\ spends l = [] /\ rows l = [] /\ dispatched l `sublist_of` lanes
  | Some res => exists pre b post, lanes = pre ++ b :: post /\ fallthroughs l = map identity pre /\ served b env res l /\
      exists before, dispatched l = before ++ [b] /\ before `sublist_of` pre
  end.

Lemma served_after b env res l l' : spends l = [] -> rows l = [] -> served b env res l' -> served b env res (l ++ l').
Proof.
  intros Hs Hr (r & row & n & t & H1 & H2 & H3 & H4 & H5 & H6). exists r, row, n, t. unfold spends, rows in *. rewrite !omap_app, Hs, Hr. done.
Qed.

Lemma chain_cons b lanes env o l l' : lane_post b env None l -> chain_post lanes env o l' -> chain_post (b :: lanes) env o (l ++ l').
Proof.
  intros (Hf & Hs & Hr & Hd). unfold chain_post. unfold fallthroughs, spends, rows, dispatched in *. rewrite !omap_app, Hf, Hs, Hr.
  destruct o as [res|].
  - intros (pre & b' & post & -> & Hf' & Hserved & before & Hb & Hsub). exists (b :: pre), b', post. rewrite Hf', Hb.
    split_and!; [done|done|by apply served_after|]. eexists. rewrite app_assoc. split; [done|]. by apply (sublist_app _ [b]).
  - intros (-> & -> & -> & Hd'). split_and!; [done..|]. by apply (sublist_app _ [b]).
Qed.

Lemma try_chain_runs lanes est started tried :
  Forall (fun b => rate_ok b = true) lanes ->
  runs (try_chain L c total i protocol route lanes parsed body est started tried)
    (fun env '(o, tried') l => chain_post lanes env o l /\ (o = None -> tried' = list_to_set (map identity lanes) ∪ tried)).
Proof.
  intros Hok. revert tried. induction Hok as [|b lanes Hb Hok IH]; intros tried; cbn [try_chain].
  { apply runs_ret. intros env. split; [by repeat split|]. intros _. simpl. set_solver. }
  eapply runs_bind; [by apply try_lane_runs|]. intros [res|].
  - apply runs_ret. intros env l (Hf & Hd & Hs). rewrite app_nil_r. split; [|done]. exists [], b, lanes. split_and!; [done|done|done|].
    exists []. by rewrite Hd.
  - eapply runs_impl; [apply IH|]. intros env [o tried'] l' [Hc Ht] l Hl. split; [by apply chain_cons|]. intros ->%Ht. simpl. set_solver.
Qed.
End Lane.

(** ** A request *)

Lemma unseen_lanes_spec seen lanes b :
  (b ∈ unseen_lanes seen lanes -> b ∈ lanes) /\
  (b ∈ lanes -> identity b ∈ seen \/ identity b ∈ map identity (unseen_lanes seen lanes)).
Proof.
  revert seen. induction lanes as [|x lanes IH]; intros seen; simpl; [set_solver|]. case_bool_decide as Hx.
  - destruct (IH seen) as [H1 H2]. split; [set_solver|]. intros [->|Hb]%elem_of_cons; [by left|by apply H2].
  - destruct (IH ({[identity x]} ∪ seen)) as [H1 H2]. split; [set_solver|]. simpl. rewrite !elem_of_cons.
    intros [->|Hb]; [by right; left|]. destruct (H2 Hb) as [ [Hs|Hs]%elem_of_union|Hs]; [right; left; set_solver|by left|by right; right].
Qed.

Lemma other_lanes c name b :
  b ∈ concat (map priority (List.filter (fun r => negb (String.eqb (rt_name r) name)) (routes c))) <->
  exists r, r ∈ routes c /\ rt_name r <> name /\ b ∈ priority r.
Proof.
  rewrite list_elem_of_In, in_concat. setoid_rewrite in_map_iff. setoid_rewrite filter_In. setoid_rewrite negb_true_iff.
  setoid_rewrite String.eqb_neq. setoid_rewrite <- list_elem_of_In. naive_solver.
Qed.

Section Request.
Context (L : Libraries) (c : ProxyConfig) (total : Z) (i : Identity) (protocol : string) (route : Route) (body : string).

(** The lanes of the other routes, where they are lent. *)
Definition lent (b : Backend) : Prop := last_resort c = true /\ exists r, r ∈ routes c /\ rt_name r <> rt_name route /\ b ∈ priority r.

Abbreviation parsed := (default VNull (l_from_slice L body)).

(** The tier of last resort, after a chain that served nothing. *)
Definition last_tier (est : N) (started : Z) (tried : gset string) : M (option RouteResult) :=
  if last_resort c then
    let fallback := last_resort_lanes c (rt_name route) tried in
    match fallback with
    | [] => mret None
    | _ => '(r, _) ← try_chain L c total i protocol route fallback parsed body est started tried; mret r
    end
  else mret None.

Definition lanes_ok : Prop := forall b, b ∈ priority route \/ lent b -> rate_ok b = true.

Lemma last_tier_runs est started tried :
  lanes_ok ->
  runs (last_tier est started tried) (fun env o l =>
    match o with
    | Some res => exists b, lent b /\ served L c parsed body b env res l
    | None => spends l = [] /\ rows l = [] /\ forall b, lent b -> identity b ∈ tried \/ identity b ∈ fallthroughs l
    end).
Proof.
  intros Hok. unfold last_tier. cbv zeta. destruct (last_resort c) eqn:El.
  2: { apply runs_ret. intros env. split_and!; [done..|]. intros b [Hl _]. congruence. }
  assert (Hfb : forall b, b ∈ last_resort_lanes c (rt_name route) tried -> lent b).
  { intros b Hb. split; [done|]. by apply other_lanes, (unseen_lanes_spec tried). }
  assert (Hall : forall b, lent b -> identity b ∈ tried \/ identity b ∈ map identity (last_resort_lanes c (rt_name route) tried)).
  { intros b [_ Hb]. apply unseen_lanes_spec. by apply other_lanes. }
  destruct (last_resort_lanes c (rt_name route) tried) as [|x fb] eqn:Ef.
  { apply runs_ret. intros env. split_and!; [done..|]. intros b Hb. by destruct (Hall b Hb) as [?|?]; [left|set_solver]. }
  eapply runs_bind; [apply try_chain_runs, Forall_forall; intros b Hb; apply Hok; right; by apply Hfb|]. intros [o tried']. apply runs_ret.
  intros env l [Hc _]. rewrite app_nil_r. destruct o as [res|].
  - destruct Hc as (pre & b & post & E & _ & Hs & _). exists b. split; [|done]. apply Hfb. rewrite E. set_solver.
  - destruct Hc as (Hf & Hs & Hr & _). split_and!; [done..|]. intros b Hb. rewrite Hf. by apply Hall.
Qed.

Definition request_failed (l : list Effect) : Prop :=
  spends l = [] /\ (exists row, rows l = [row] /\ outcome row = "all_failed") /\
  (priority route <> [] -> fallthroughs l <> []) /\
  (usage_aware c = false -> forall b, b ∈ priority route -> identity b ∈ fallthroughs l) /\
  (forall b, lent b -> identity b ∈ fallthroughs l).

Lemma audit_failure_runs started :
  runs (audit_failure i protocol route started) (fun _ _ l => exists row, l = [ERow row] /\ outcome row = "all_failed").
Proof.
  unfold audit_failure, now_ms. quiet. intros ts. quiet. intros e. unfold put_audit_row. quiet. intros _. apply runs_emit. intros env.
  by eexists.
Qed.

Lemma route_runs downgrade :
  lanes_ok ->
  runs (route_nonstreaming L c total i protocol route body downgrade) (fun env res l =>
    (exists b, (b ∈ priority route \/ lent b) /\ served L c parsed body b env res l) \/ (res = all_failed /\ request_failed l)).
Proof.
  intros Hok. unfold route_nonstreaming, now_instant. quiet. intros started.
  eapply (runs_pure _ _ (lanes_of c route)); [apply attempt_lanes_runs|]. intros lanes (Hperm & Hsub & Hne).
  set (est := estimated_request_tokens _).
  eapply runs_bind; [apply try_chain_runs, Forall_forall; intros b Hb; apply Hok; left; by apply Hsub|]. intros [o tried].
  destruct o as [res|].
  { eapply (runs_pure _ _ (eq (Some res))); [by apply runs_ret|]. intros r <-. apply runs_ret.
    intros env l [ (pre & b & post & E & _ & Hs & _) _]. left. exists b. rewrite app_nil_r. split; [|done]. left. apply Hsub. rewrite E. set_solver. }
  eapply runs_bind; [exact (last_tier_runs est started tried Hok)|]. intros [res|].
  { apply runs_ret. intros env l' (b & Hb & Hs) l [ (_ & Hs0 & Hr0 & _) _]. left. exists b. rewrite app_nil_r. split; [by right|by apply served_after]. }
  noisy. eapply runs_bind; [apply audit_failure_runs|]. intros []. apply runs_ret.
  intros env l3 (row & -> & Hrow) l2 (Hs2 & Hr2 & Hl2) l1 [ (Hf1 & Hs1 & Hr1 & _) Ht]. right. split; [done|].
  rewrite app_nil_r. unfold request_failed, spends, rows, fallthroughs in *. rewrite !omap_app, Hs1, Hr1, Hf1, Hs2, Hr2. simpl. split_and!.
  - done.
  - by exists row.
  - intros Hp. specialize (Hne Hp). by destruct lanes.
  - intros Hu b Hb. apply elem_of_app. left. apply list_elem_of_fmap_2. by rewrite (Hperm Hu).
  - intros b [Hb|Hb]%Hl2; [|set_solver]. rewrite (Ht eq_refl) in Hb. set_solver.
Qed.
End Request.

(** C11. Whatever the other requests, the clocks and the upstreams do, a request
    returns, and in one of two ways.  Either it is served: the client gets status
    and body of a lane of its route - or, where lanes are lent, of another route -
    whose answer to the request as rewritten for that lane was usable, the request
    is charged once for the tokens that answer reports, and one row says so.  Or it
    gets the 503, is charged nothing, leaves one row, and every lane it may use was
    tried and given up: all lent ones, and all of its own route unless account
    headroom left some out, which never leaves out all. *)
Theorem cascade_complete L c total i protocol route body downgrade env n s :
  lanes_ok c route ->
  exists res n' s' l, route_nonstreaming L c total i protocol route body downgrade env n s = Some (res, n', s', l) /\
    ((exists b, (b ∈ priority route \/ lent c route b) /\ served L c (default VNull (l_from_slice L body)) body b env res l) \/
     (res = all_failed /\ request_failed c route l)).
Proof. intros Hok. exact (route_runs L c total i protocol route body downgrade Hok env n s). Qed.

(** Two lanes: the first upstream is down, the second answers. *)
Definition demo_lane (name : string) : Backend :=
  mkBackend name "" "" "m" "" WOpenAi 0 [] (mkRatePolicy (F64.of_Z 60) (F64.of_Z 5)) 0 None.
Definition demo_route : Route := mkRouteOf "r" [demo_lane "a"; demo_lane "b"] Sequential None false.
Definition demo_proxy : ProxyConfig := mkConfig [demo_route] 0 0 ∅ false false [] (mkPrices ∅ ∅) (mkBudgetSettings false BWarn 0 ∅).
Definition demo_libs : Libraries :=
  mkLibraries (fun _ => None) (fun _ => "") (fun s => s) (fun _ => None) (fun _ => None) (fun _ => None) (fun _ _ => None).
Definition demo_env : Env :=
  mkEnv (fun _ s => s) (fun n => Z.of_nat n) (fun n => Z.of_nat n) (fun _ => 0%nat) (fun _ => 0)
    (fun _ _ b _ => if String.eqb (b_name b) "a" then Responded (mkResponse 502 "" ∅) else Responded (mkResponse 200 "hi" ∅)) (fun _ _ _ _ => OpenTimeout).
Definition demo_shared : Shared := mkShared ∅ ∅ ∅ ∅ [] ∅ ∅ ∅.

Lemma cascade_complete_witness :
  lanes_ok demo_proxy demo_route /\
  exists res n' s' l, route_nonstreaming demo_libs demo_proxy 300 identity_global "openai" demo_route "x" false demo_env 0%nat demo_shared = Some (res, n', s', l) /\
    res = mkResult 200 "hi" "b" /\ fallthroughs l = ["a"] /\ (map_to_list (sh_health s')).*1 = ["a:m"] /\
    ((exists b, (b ∈ priority demo_route \/ lent demo_proxy demo_route b) /\
       served demo_libs demo_proxy VNull "x" b demo_env res l) \/ (res = all_failed /\ request_failed demo_proxy demo_route l)).
Proof.
  assert (Hok : lanes_ok demo_proxy demo_route).
  { intros b [Hb|[Hl _] ]; [|discriminate Hl]. apply elem_of_cons in Hb as [->|Hb]; [reflexivity|].
    apply list_elem_of_singleton in Hb as ->. reflexivity. }
  split; [exact Hok|].
  destruct (cascade_complete demo_libs demo_proxy 300 identity_global "openai" demo_route "x" false demo_env 0%nat demo_shared Hok) as (res & n' & s' & l & E & H).
  exists res, n', s', l. split; [exact E|].
  assert (Hres : match route_nonstreaming demo_libs demo_proxy 300 identity_global "openai" demo_route "x" false demo_env 0%nat demo_shared with
    | Some (res, _, s', l) => res = mkResult 200 "hi" "b" /\ fallthroughs l = ["a"] /\ (map_to_list (sh_health s')).*1 = ["a:m"] | None => False end)
    by (vm_compute; auto).
  rewrite E in Hres. destruct Hres as (H1 & H2 & H3). split; [exact H1|]. split; [exact H2|]. split; [exact H3|exact H].
Defined.

(** A default of the backend for [max_tokens] finds the floor already there. *)
Example default_max_tokens_ignored :
  let b := mkBackend "p" "" "" "" "" WOpenAi 0 [("max_tokens", VNumber "64000")] (mkRatePolicy (F64.of_Z 60) (F64.of_Z 5)) 0 None in
  apply_transforms (fun _ => None) (fun v => match value_get "max_tokens" v with Some (VNumber t) => t | _ => "" end) b (VObject []) "" = "32768".
Proof. reflexivity. Qed.
