(* ===== verification/ProxyStream.v ===== *)
(** * Streams of the model proxy, and its OpenAI endpoint

    The streaming half of thegn-proxy/src/router.rs, the synthesis of a stream from
    a buffered completion (thegn-core/src/proxy/translate.rs) and the handler of
    [/v1/chat/completions] in thegn-proxy/src/server.rs, over the same programs as
    the buffered cascade. *)
From Stdlib Require Import Ascii String SpecFloat.
From S2P Require Import Prelude RustOrd RustFloat RustStr RustText McpProxy ProxyPool ProxyLimit ProxyBudget ProxyRoute ProxyReply ProxyRelay ProxyRouter.
Local Open Scope string_scope.
Local Open Scope list_scope.
Local Open Scope Z_scope.

(** ** A stream from a completion *)

Definition value_as_i64 (v : JsonValue) : option Z := match v with VNumber t => number_as_i64 t | _ => None end.

(** A text that is there and not empty, or another. *)
Definition or_text (v : option JsonValue) (d : string) : string := default d ((v ≫= value_as_str) ≫= non_empty).

Definition str_field (v : option JsonValue) (k : string) : string := default "" ((v ≫= value_get k) ≫= value_as_str).

Definition tool_delta (i : nat) (tc : JsonValue) : JsonValue :=
  let f := value_get "function" tc in
  obj [("tool_calls", VArray [obj
    [("index", num (N.of_nat i)); ("id", VString (str_field (Some tc) "id")); ("type", VString (or_text (value_get "type" tc) "function"));
     ("function", obj [("name", VString (str_field f "name")); ("arguments", VString (str_field f "arguments"))])]])].

(** [split_after_newline], for a text that is not empty. *)
Definition split_after_newline (s : string) : list string := let '(ls, rest) := drain_lines s in ls ++ option_list (non_empty rest).

Section Synthesis.
Context (from_slice : string -> option JsonValue) (to_string : JsonValue -> string).

Definition data_line (v : JsonValue) : string := ("data: " ++ to_string v ++ lf ++ lf)%string.

Definition openai_completion_to_stream (raw : string) (now_unix : Z) (fallback_id : string) : option string :=
  resp ← from_slice raw;
  choice ← first_choice resp;
  let created := match value_get "created" resp ≫= value_as_i64 with Some c => if c =? 0 then now_unix else c | None => now_unix end in
  let id := or_text (value_get "id" resp) fallback_id in
  let model := str_field (Some resp) "model" in
  let index := default 0 (value_get "index" choice ≫= value_as_i64) in
  let envelope choices rest :=
    data_line (obj ([("id", VString id); ("object", VString "chat.completion.chunk"); ("created", VNumber (fmt_i64 created));
      ("model", VString model); ("choices", VArray choices)] ++ rest)) in
  let chunk delta finish := envelope [obj [("index", VNumber (fmt_i64 index)); ("delta", delta); ("finish_reason", finish)]] [] in
  let message := value_get "message" choice in
  let texts := match ((message ≫= value_get "content") ≫= value_as_str) ≫= non_empty with Some s => split_after_newline s | None => [] end in
  let tools := default [] ((message ≫= value_get "tool_calls") ≫= value_as_array) in
  let usage :=
    match value_get "usage" resp with
    | None => ""
    | Some u =>
        let at_ k := default 0 (value_get k u ≫= value_as_i64) in
        let prompt := at_ "prompt_tokens" in
        let completion := at_ "completion_tokens" in
        let total := at_ "total_tokens" in
        if (0 <? total) || (0 <? prompt) || (0 <? completion) then
          let total := if total =? 0 then i64_wrap (prompt + completion) else total in
          envelope [] [("usage", obj [("prompt_tokens", VNumber (fmt_i64 prompt)); ("completion_tokens", VNumber (fmt_i64 completion));
            ("total_tokens", VNumber (fmt_i64 total))])]
        else ""
    end in
  Some (chunk (obj [("role", VString "assistant")]) VNull ++
    String.concat "" (map (fun line => chunk (obj [("content", VString line)]) VNull) texts) ++
    String.concat "" (map (fun '(i, tc) => chunk (tool_delta i tc) VNull) (imap pair tools)) ++
    chunk (obj []) (VString (or_text (value_get "finish_reason" choice) "stop")) ++
    usage ++ "data: [DONE]" ++ lf ++ lf)%string.

Definition synthesize_anthropic_sse (completion client_model : string) (input_est : N) (now_unix : Z) : string :=
  match openai_completion_to_stream completion now_unix "chatcmpl-proxy" with
  | None => EmptyString
  | Some sse =>
      let '(ls, rest) := drain_lines sse in
      let ls := ls ++ option_list (non_empty rest) in
      let sink : StreamSink AnthropicSink := AnthropicSink_StreamSink from_slice to_string in
      let '(s, out) := process_all (anthropic_sink ("msg_" ++ fmt_i64 now_unix)%string client_model input_est) ls in
      (out ++ (finish s).2)%string
  end.
End Synthesis.

(** ** The streaming cascade *)

Inductive Surface := SOpenAi | SAnthropic.

Definition protocol_of (f : Surface) : string := match f with SOpenAi => "openai" | SAnthropic => "anthropic" end.

(** A lane that was committed to: the sink with what it has written. *)
Inductive Committed := COpenAi (prefix_out : string) (s : OpenAiSink) | CAnthropic (prefix_out : string) (s : AnthropicSink).

(** What [finalize_closure] holds until the stream ends. *)
Record Pending := mkPending { pd_backend : Backend; pd_cost : option f64; pd_started : Z; pd_ttfb : Z }.

(** The body of the answer: whole, or live with the permit it keeps and the work
    left for its end. *)
Inductive StreamBody := Whole (bytes : string) | Live (c : Committed) (permit : string) (p : Pending).

Inductive StreamOutcome := SBody (b : StreamBody) | SFailed.

(** Reading at most [cap] bytes of an error. *)
Fixpoint read_error_body (cap : nat) (body : string) (chunks : list (option string)) : option string :=
  if (cap <=? String.length body)%nat then Some body
  else match chunks with
       | [] => Some body
       | None :: _ => None
       | Some chunk :: chunks => read_error_body cap (body ++ str_take (cap - String.length body) chunk)%string chunks
       end.

Definition ERROR_BODY_CAP : nat := 64 * 1024.
Definition SOFT_BASE : Z := 100 * nanos_per_milli.

(** What one turn of the loop ends with: the next lane, or the chain returns. *)
Inductive Turn := NextLane | Returned (b : option StreamBody).

Section Stream.
Context (L : Libraries) (c : ProxyConfig) (buffered_total : Z).
Context (i : Identity) (surface : Surface) (route : Route) (client_model body : string).

Definition next_lane (ident reason : string) : M Turn := emit (EFallthrough ident reason) ;; mret NextLane.

Definition now_unix : M Z := t ← now_ms; mret (t / 1000).

(** The client's bytes for a completion. *)
Definition synthesize (completion : string) (est : N) : M (option string) :=
  t ← now_unix;
  mret (match surface with
        | SOpenAi => openai_completion_to_stream (l_from_slice L) (l_to_vec L) completion t "chatcmpl-proxy"
        | SAnthropic => Some (synthesize_anthropic_sse (l_from_slice L) (l_to_vec L) completion client_model est t)
        end).

(** A lane that answers at once, while its permit is held. *)
Definition buffered_lane (b : Backend) (est : N) (took : bool) (body' permit : string) (now attempt_started started : Z) : M Turn :=
  let ident := identity b in
  a ← dispatch buffered_total b body' attempt_started;
  match a with
  | Responded r =>
      let '(kind, reason) := classify_response (l_from_slice L) (l_to_lowercase L) (status r) (r_body r) in
      match kind with
      | Serve =>
          modify (with_health (fun h => record_success h ident (b_model b))) ;;
          e ← elapsed started;
          let dur := saturating_i64 (as_millis e) in
          emit (EDuration dur) ;;
          finalize_success L c i (protocol_of surface) route b (r_body r) (header_cost (l_parse_f64 L) (r_headers r)) dur None ;;
          emit (ERequest (rt_name route) ident "ok") ;;
          sse ← synthesize (r_body r) est;
          drop_permit permit ;;
          mret (Returned (Whole <$> sse))
      | Exhausted =>
          let until := or_else (parse_reset_from_body (l_captures L) (l_rfc3339 L) (l_parse_f64 L) (r_body r) now)
                               (retry_after_ms (l_parse_f64 L) (l_rfc2822 L) (r_headers r) now) in
          j ← ask jitter_ns;
          modify (with_health (fun h => mark_exhausted (l_to_lowercase L) h ident (b_model b) reason until now j)) ;;
          t ← next_lane ident "exhausted"; drop_permit permit ;; mret t
      | Soft => t ← next_lane ident "soft_fail"; drop_permit permit ;; mret t
      end
  | DispatchFailed e =>
      reason ← classify_dispatch_error ident e took;
      emit (EAttempt ident reason) ;;
      t ← next_lane ident reason; drop_permit permit ;; mret t
  | TotalTimeout =>
      emit (EAttempt ident "total_timeout") ;;
      t ← next_lane ident "total_timeout"; drop_permit permit ;; mret t
  end.

(** A refusal: what can be read of its body is classified. *)
Definition refused_lane (b : Backend) (st : Z) (h : HeaderMap) (chunks : option (list (option string))) (now : Z) : M Turn :=
  let ident := identity b in
  let '(bytes, read_reason) :=
    match chunks with
    | None => ("", Some "idle_timeout")
    | Some chunks => match read_error_body ERROR_BODY_CAP "" chunks with Some bytes => (bytes, None) | None => ("", Some "network_error") end
    end in
  (match read_reason with
   | Some r => emit (EAttempt ident r) ;; emit (EFallthrough ident r)
   | None => mret ()
   end) ;;
  let '(kind, reason) := classify_response (l_from_slice L) (l_to_lowercase L) st bytes in
  if decide (kind = Exhausted) then
    let until := or_else (parse_reset_from_body (l_captures L) (l_rfc3339 L) (l_parse_f64 L) bytes now)
                         (retry_after_ms (l_parse_f64 L) (l_rfc2822 L) h now) in
    j ← ask jitter_ns;
    modify (with_health (fun m => mark_exhausted (l_to_lowercase L) m ident (b_model b) reason until now j)) ;;
    next_lane ident "exhausted"
  else next_lane ident "soft_fail".

(** A stream that gave nothing to commit to. *)
Definition note_stream_fallthrough {S} (b : Backend) (p : Peek S) : M unit :=
  let ident := identity b in
  now ← now_ms;
  let cool reason := j ← ask jitter_ns; modify (with_health (fun h => mark_soft_cooldown h ident (b_model b) reason SOFT_BASE now j)) in
  match p with
  | PEmpty => cool "stream empty completion" ;; emit (EFallthrough ident "empty")
  | PTimedOut => cool "stream first byte timeout" ;; emit (EFallthrough ident "ttfb")
  | PErrored _ => emit (EFallthrough ident "network_error")
  | PCommit _ _ => mret ()
  end.

(** Peeking with the sink of the surface. *)
Definition peek_surface (b : Backend) (est : N) (evs : list PeekEvent) : M (option Committed) :=
  match surface with
  | SOpenAi =>
      match peek (sink_of := OpenAiSink_StreamSink (l_from_slice L)) (l_from_slice L) openai_sink evs with
      | PCommit prefix s => mret (Some (COpenAi prefix s))
      | other => note_stream_fallthrough b other ;; mret None
      end
  | SAnthropic =>
      t ← now_unix;
      match peek (sink_of := AnthropicSink_StreamSink (l_from_slice L) (l_to_vec L)) (l_from_slice L)
              (anthropic_sink ("msg_" ++ fmt_i64 t)%string client_model est) evs with
      | PCommit prefix s => mret (Some (CAnthropic prefix s))
      | other => note_stream_fallthrough b other ;; mret None
      end
  end.

(** A lane that streams, while its permit is held. *)
Definition live_lane (b : Backend) (est : N) (took : bool) (body' permit : string) (now attempt_started started : Z) : M Turn :=
  let ident := identity b in
  e ← elapsed attempt_started;
  emit (EDispatch b body') ;;
  opened ← ask (fun env n => open_upstream env n (Z.max 0 (first_byte c - e)) b body');
  match opened with
  | OpenOk h evs =>
      committed ← peek_surface b est evs;
      match committed with
      | Some k =>
          ttfb ← elapsed started;
          modify (with_health (fun m => record_success m ident (b_model b))) ;;
          modify (with_resolved <[rt_name route := ident]>) ;;
          emit (ERequest (rt_name route) ident "ok_stream") ;;
          mret (Returned (Some (Live k permit
            (mkPending b (header_cost (l_parse_f64 L) h) started (saturating_i64 (as_millis ttfb))))))
      | None => drop_permit permit ;; mret NextLane
      end
  | OpenRefused st h chunks => t ← refused_lane b st h chunks now; drop_permit permit ;; mret t
  | OpenFailed e =>
      reason ← classify_dispatch_error ident e took;
      emit (EAttempt ident reason) ;;
      t ← next_lane ident reason; drop_permit permit ;; mret t
  | OpenTimeout =>
      emit (EAttempt ident "first_byte_timeout") ;;
      t ← next_lane ident "first_byte_timeout"; drop_permit permit ;; mret t
  end.

Definition try_stream_lane (b : Backend) (is_last : bool) (parsed : JsonValue) (est : N) (started : Z) : M Turn :=
  attempt_started ← now_instant;
  now ← now_ms;
  let ident := identity b in
  cooling ← reads (fun s => is_exhausted (sh_health s) ident (b_model b) now);
  if (cooling : bool) then next_lane ident "skipped_exhausted"
  else if exceeds_context_limit (context_limit b) est then next_lane ident "skipped_context"
  else
    permit ← take_permit b;
    match permit with
    | None => next_lane ident "loadshed_inflight"
    | Some p =>
        gate ← rate_gate (first_byte c) b is_last attempt_started;
        match gate with
        | Shed reason => t ← next_lane ident reason; drop_permit p ;; mret t
        | Go took =>
            let body' := apply_transforms (l_parse_f64 L) (l_to_vec L) b parsed body in
            if is_anthropic b then buffered_lane b est took body' p now attempt_started started
            else live_lane b est took body' p now attempt_started started
        end
    end.

Fixpoint try_stream_chain (lanes : list Backend) (parsed : JsonValue) (est : N) (started : Z) (tried : gset string)
    : M (option StreamBody * gset string) :=
  match lanes with
  | [] => mret (None, tried)
  | b :: lanes =>
      t ← try_stream_lane b (match lanes with [] => true | _ => false end) parsed est started;
      match t with
      | Returned r => mret (r, {[identity b]} ∪ tried)
      | NextLane => try_stream_chain lanes parsed est started ({[identity b]} ∪ tried)
      end
  end.

Definition route_streaming (downgrade : bool) : M StreamOutcome :=
  started ← now_instant;
  let parsed := default VNull (l_from_slice L body) in
  let est := estimated_request_tokens (N.of_nat (String.length body)) in
  lanes ← attempt_lanes c route i downgrade;
  '(r, tried) ← try_stream_chain lanes parsed est started ∅;
  r ← (match r with
       | Some b => mret (Some b)
       | None =>
           if last_resort c then
             let fallback := last_resort_lanes c (rt_name route) tried in
             match fallback with
             | [] => mret None
             | _ => '(r, _) ← try_stream_chain fallback parsed est started tried; mret r
             end
           else mret None
       end);
  match r with
  | Some b => mret (SBody b)
  | None => emit (ERequest (rt_name route) "none" "all_failed") ;; mret SFailed
  end.

(** The end of a live stream: the call of [finalize_closure], if the relay makes
    it, and the permit that goes with the body. *)
Definition finalize_closure (p : Pending) (stats : RelayStats) : M unit :=
  let b := pd_backend p in
  let u := st_usage stats in
  e ← elapsed (pd_started p);
  let dur := saturating_i64 (as_millis e) in
  let '(cost, source) := cost_usd (price_table c) (b_name b) (b_model b) u (pd_cost p) in
  emit (ETokens (identity b) "prompt" (prompt_tokens u)) ;;
  emit (ETokens (identity b) "completion" (completion_tokens u)) ;;
  emit (ECost (identity b) (source_str source) cost) ;;
  emit (EDuration dur) ;;
  spend c i (i64_wrap (Z.of_N (usage_total u))) cost ;;
  row ← build_row i (protocol_of surface) route b u cost source "ok_stream" dur (Some (pd_ttfb p));
  put_audit_row row.

Definition end_stream (k : Committed) (p : Pending) (permit : string) (room : option nat) (evs : list RelayEvent) : M (list Frame) :=
  let '(frames, stats) :=
    match k with
    | COpenAi prefix s => spawn_relay (sink_of := OpenAiSink_StreamSink (l_from_slice L)) prefix s room evs
    | CAnthropic prefix s => spawn_relay (sink_of := AnthropicSink_StreamSink (l_from_slice L) (l_to_vec L)) prefix s room evs
    end in
  (match stats with Some st => finalize_closure p st | None => mret () end) ;;
  drop_permit permit ;;
  mret frames.
End Stream.

(** ** The endpoint *)

(** [Authorization: Bearer] first, then [x-api-key]. *)
Definition virtual_key (h : HeaderMap) : option string :=
  match header_text h "authorization" ≫= strip_prefix "Bearer " with
  | Some rest => Some (trim rest)
  | None => header_text h "x-api-key"
  end.

(** An answer: its status with a body, an error of a kind, or a stream. *)
Inductive HttpAnswer := JsonAnswer (st : Z) (bytes : string) | ErrorAnswer (st : Z) (message kind : string) | SseAnswer (b : StreamBody).

Section Endpoint.
Context (L : Libraries) (c : ProxyConfig) (buffered_total : Z).
(** What a key is verified with, and the secret the host installed. *)
Context (hmac : string -> string -> string) (from_payload : string -> option AttributionScope) (secret : option string).

Definition model_of (body : string) : string := default "" ((l_from_slice L body ≫= value_get "model") ≫= value_as_str).
Definition wants_stream (body : string) : bool := default false ((l_from_slice L body ≫= value_get "stream") ≫= value_as_bool).

Definition features_of (h : HeaderMap) (body : string) : RequestFeatures :=
  mkFeatures (estimated_request_tokens (N.of_nat (String.length body))) (request_has_tools (default VNull (l_from_slice L body)))
    (wants_stream body) (header_text h "x-thegn-mode").

Definition resolve_route (model : string) (h : HeaderMap) (body : string) : option Route :=
  match (if is_auto c model then route_select (auto_tiers c) (features_of h body) else None) with
  | Some tier => lookup_route c tier
  | None => lookup_route c model
  end.

(** [json_response]: a number that is no status becomes 502. *)
Definition http_status (st : Z) : Z := if (100 <=? st) && (st <? 1000) then st else 502.

(** The rows of the scopes a request is charged to, each looked up in a step of its
    own; a request that is refused for its key looks up none. *)
Definition budget_rows (i : Identity) : M BudgetTable :=
  rows ← traverse (fun scope => reads (fun s => (scope, sh_budget s !! scope))) (match i_rejected i with Some _ => [] | None => budget_scopes i end);
  mret (list_to_map (omap (fun '(scope, r) => pair scope <$> r) rows)).

Definition chat_completions (h : HeaderMap) (body : string) : M HttpAnswer :=
  key_now ← now_ms;
  let i := resolve_identity hmac from_payload secret (virtual_key h) key_now in
  now ← now_ms;
  db ← budget_rows i;
  let verdict := check_budget db (budget c) i now in
  match verdict with
  | BRefused msg => mret (ErrorAnswer 402 msg "budget_exceeded")
  | _ =>
      let downgrade := match verdict with BDowngraded => true | _ => false end in
      let model := model_of body in
      match resolve_route model h body with
      | None => mret (ErrorAnswer 400 "no route for model" "invalid_request")
      | Some route =>
          if wants_stream body then
            o ← route_streaming L c buffered_total i SOpenAi route model body downgrade;
            mret (match o with SBody b => SseAnswer b | SFailed => ErrorAnswer 503 "all backends failed" "proxy_error" end)
          else
            r ← route_nonstreaming L c buffered_total i "openai" route body downgrade;
            mret (JsonAnswer (http_status (res_status r)) (res_body r))
      end
  end.
End Endpoint.
