(* ===== verification/ProxyStreamProps.v ===== *)
(** * What streams and the endpoint guarantee

    The streaming counterpart of the cascade's theorem - who answers, who is
    charged and when - and the gate in front of both: nothing is sent upstream for
    a request whose key does not verify or whose budget refuses it. *)
From Stdlib Require Import Ascii String SpecFloat.
From S2P Require Import Prelude RustOrd RustFloat RustStr RustText McpProxy ProxyPool ProxyLimit ProxyBudget ProxyRoute ProxyReply ProxyRelay ProxyRouter ProxyRouterProps ProxyStream ProxyBudgetProps.
Local Open Scope string_scope.
Local Open Scope list_scope.
Local Open Scope Z_scope.

(** Nothing is charged and no row is written. *)
Definition free (l : list Effect) : Prop := spends l = [] /\ rows l = [].

Lemma free_app l l' : free l -> free l' -> free (l ++ l').
Proof. intros [H1 H2] [H3 H4]. unfold free. by rewrite spends_app, rows_app, H1, H2, H3, H4. Qed.

Lemma now_unix_silent : runs now_unix silent.
Proof. unfold now_unix, now_ms. auto with silent. Qed.
#[export] Hint Resolve now_unix_silent : silent.

Section StreamLane.
Context (L : Libraries) (c : ProxyConfig) (total : Z) (i : Identity) (surface : Surface) (route : Route) (client_model body : string).
Context (parsed : JsonValue) (est : N).

(** One charge and one row with an outcome. *)
Definition charged_once (out : string) (l : list Effect) : Prop :=
  exists t cost row, spends l = [(t, cost)] /\ rows l = [row] /\ outcome row = out /\ rr_cost row = cost.

(** No stream can be made of a completion, at any time. *)
Definition unstreamable (bytes : string) : Prop :=
  forall t, openai_completion_to_stream (l_from_slice L) (l_to_vec L) bytes t "chatcmpl-proxy" = None.

Lemma unstreamable_once bytes t : openai_completion_to_stream (l_from_slice L) (l_to_vec L) bytes t "chatcmpl-proxy" = None -> unstreamable bytes.
Proof.
  intros H t'. unfold openai_completion_to_stream in *. destruct (l_from_slice L bytes) as [resp|]; [|done]. cbn [mbind option_bind] in *.
  by destruct (first_choice resp).
Qed.

(** A lane answered, usably, what no stream can be made of. *)
Definition answered_unstreamable (env : Env) (b : Backend) : Prop :=
  exists n within sent r, upstream env n within b sent = Responded r /\
    (classify_response (l_from_slice L) (l_to_lowercase L) (status r) (r_body r)).1 = Serve /\ unstreamable (r_body r).

(** A lane given up is free of charge, and noted. *)
Definition lane_given_up (b : Backend) (l : list Effect) : Prop := free l /\ fallthroughs l <> [] /\ Forall (eq (identity b)) (fallthroughs l).

(** What one turn may leave: besides a lane given up, one that streams, free of
    charge so far; one that answered at once and was charged for it; and of those,
    one that speaks the Anthropic protocol may have answered an OpenAI client what no
    stream can be made of. *)
Definition turn_post (env : Env) (b : Backend) (t : Turn) (l : list Effect) : Prop :=
  match t with
  | NextLane => lane_given_up b l
  | Returned (Some (Live _ permit p)) => free l /\ fallthroughs l = [] /\ dispatched l = [b] /\ permit = identity b /\ pd_backend p = b
  | Returned (Some (Whole _)) => charged_once "ok" l /\ fallthroughs l = [] /\ dispatched l = [b] /\ is_anthropic b = true
  | Returned None => charged_once "ok" l /\ dispatched l = [b] /\ is_anthropic b = true /\ surface = SOpenAi /\ answered_unstreamable env b
  end.

Lemma next_lane_runs b reason (P : Env -> Turn -> list Effect -> Prop) :
  (forall env, P env NextLane [EFallthrough (identity b) reason]) -> runs (next_lane (identity b) reason) P.
Proof. intros H. noisy. by apply runs_ret. Qed.

(** Giving up a lane and its permit. *)
Lemma give_up_runs b reason permit (P : Env -> Turn -> list Effect -> Prop) :
  (forall env, P env NextLane [EFallthrough (identity b) reason]) ->
  runs (t ← next_lane (identity b) reason; drop_permit permit ;; mret t) P.
Proof.
  intros H. eapply (runs_bind _ _ (fun _ t l => t = NextLane /\ l = [EFallthrough (identity b) reason])); [by apply next_lane_runs|].
  intros t. quiet. intros _. apply runs_ret. intros env l [-> ->]. apply H.
Qed.

Lemma one_fallthrough b reason l : free l -> fallthroughs l = [] -> lane_given_up b (l ++ [EFallthrough (identity b) reason]).
Proof.
  intros Hf H. split; [by apply free_app|]. unfold fallthroughs in *. rewrite omap_app, H. simpl. split; [done|by constructor].
Qed.

Lemma one_turn env b reason l : free l -> fallthroughs l = [] -> turn_post env b NextLane (l ++ [EFallthrough (identity b) reason]).
Proof. apply one_fallthrough. Qed.

Lemma buffered_lane_runs b took body' permit now attempt_started started :
  is_anthropic b = true ->
  runs (buffered_lane L c total i surface route client_model b est took body' permit now attempt_started started) (fun env => turn_post env b).
Proof.
  intros Ha. unfold buffered_lane.
  eapply (runs_bind _ _ (fun env a l => l = [EDispatch b body'] /\ exists n within, upstream env n within b body' = a)).
  { unfold dispatch. quiet. intros e. noisy. apply runs_ask. eauto. }
  intros [r|e|].
  - destruct (classify_response _ _ _ _) as [kind reason] eqn:Ek. destruct kind.
    + quiet. intros _. quiet. intros e. noisy. eapply runs_bind; [apply (finalize_runs L c i (protocol_of surface) route b r)|]. intros []. noisy.
      eapply (runs_quiet _ _ (fun _ sse => sse = None -> surface = SOpenAi /\ unstreamable (r_body r))).
      { unfold synthesize. quiet. intros t. apply runs_ret. intros _. split; [done|]. destruct surface; [|done]. intros Hn. split; [done|]. by eapply unstreamable_once. }
      intros sse. quiet. intros _. apply runs_ret. intros env Hsse l (Hf & Hd & Hs & row & Hr & Ho & _ & Hc) l0 [-> (n & within & Hup)].
      unfold turn_post, charged_once, spends, rows, fallthroughs, dispatched in *. cbn [app omap list_omap]. rewrite !omap_app, Hf, Hd, Hs, Hr.
      destruct sse; cbn; [by eauto 10|]. destruct (Hsse eq_refl) as [Hsur Hun]. split_and!; [by eauto 10|done|done|done|].
      exists n, within, body', r. by rewrite Ek.
    + apply give_up_runs. intros env l [-> _]. by apply (one_turn env b _ [EDispatch b body']).
    + quiet. intros j. quiet. intros _. apply give_up_runs. intros env l [-> _]. by apply (one_turn env b _ [EDispatch b body']).
  - quiet. intros reason. noisy. apply give_up_runs. intros env l [-> _]. by apply (one_turn env b _ [EDispatch b body'; EAttempt (identity b) reason]).
  - noisy. apply give_up_runs. intros env l [-> _]. by apply (one_turn env b _ [EDispatch b body'; EAttempt (identity b) "total_timeout"]).
Qed.

Lemma refused_lane_runs b st h chunks now :
  runs (refused_lane L b st h chunks now) (fun _ t l => t = NextLane /\ lane_given_up b l).
Proof.
  unfold refused_lane. destruct (match chunks with Some _ => _ | None => _ end) as [bytes read_reason].
  eapply (runs_bind _ _ (fun _ _ l => free l /\ Forall (eq (identity b)) (fallthroughs l))).
  { destruct read_reason as [r|]; [|by apply runs_ret]. noisy. apply runs_emit. intros _. split; [done|]. by constructor. }
  intros []. destruct (classify_response _ _ _ _) as [kind reason].
  assert (Hlast : forall reason' (P := fun (_ : Env) (t : Turn) l' => forall l, free l /\ Forall (eq (identity b)) (fallthroughs l) -> t = NextLane /\ lane_given_up b (l ++ l')),
    runs (next_lane (identity b) reason') P).
  { intros reason' P. apply next_lane_runs. intros env l [Hf Hl]. split; [done|]. split; [by apply free_app|]. unfold fallthroughs in *. rewrite omap_app.
    split; [by destruct (omap _ l)|]. apply Forall_app. split; [done|by constructor]. }
  case_decide; [|apply Hlast]. quiet. intros j. quiet. intros _. apply Hlast.
Qed.

Lemma note_runs {S} b (p : Peek S) :
  (forall prefix s, p <> PCommit prefix s) ->
  runs (note_stream_fallthrough b p) (fun _ _ l => lane_given_up b l).
Proof.
  intros Hp. unfold note_stream_fallthrough, now_ms. quiet. intros now. destruct p as [prefix s| | |e]; [by destruct (Hp prefix s)| | |].
  - eapply runs_then; [apply then_silent; [apply ask_silent|intros; apply modify_silent]|]. intros _. apply runs_emit. intros env. by apply (one_fallthrough b _ []).
  - eapply runs_then; [apply then_silent; [apply ask_silent|intros; apply modify_silent]|]. intros _. apply runs_emit. intros env. by apply (one_fallthrough b _ []).
  - apply runs_emit. intros env. by apply (one_fallthrough b _ []).
Qed.

Lemma peek_surface_runs b evs :
  runs (peek_surface L surface client_model b est evs) (fun _ o l => match o with Some _ => l = [] | None => lane_given_up b l end).
Proof.
  assert (Hgive : forall {S} (p : Peek S), (forall prefix s, p <> PCommit prefix s) ->
    runs (note_stream_fallthrough b p ;; mret (None : option Committed)) (fun _ o l => match o with Some _ => l = [] | None => lane_given_up b l end)).
  { intros S p Hp. eapply runs_bind; [by apply note_runs|]. intros []. apply runs_ret. intros env l. by rewrite app_nil_r. }
  unfold peek_surface. destruct surface.
  - destruct (peek _ _ _); [by apply runs_ret|by apply Hgive..].
  - quiet. intros t. destruct (peek _ _ _); [by apply runs_ret|by apply Hgive..].
Qed.

Lemma live_lane_runs b took body' permit now attempt_started started :
  permit = identity b ->
  runs (live_lane L c surface route client_model b est took body' permit now attempt_started started) (fun env => turn_post env b).
Proof.
  intros Hp. unfold live_lane. quiet. intros e. noisy. quiet. intros [|err|st h chunks|h evs].
  - noisy. apply give_up_runs. intros env. by apply (one_turn env b _ [EDispatch b body'; EAttempt (identity b) "first_byte_timeout"]).
  - quiet. intros reason. noisy. apply give_up_runs. intros env. by apply (one_turn env b _ [EDispatch b body'; EAttempt (identity b) reason]).
  - eapply runs_bind; [apply refused_lane_runs|]. intros t. quiet. intros _. apply runs_ret. intros env l [-> H]. rewrite app_nil_r. exact H.
  - eapply runs_bind; [apply peek_surface_runs|]. intros [k|].
    + quiet. intros ttfb. quiet. intros _. quiet. intros _. noisy. apply runs_ret. intros env l ->. by split_and!.
    + quiet. intros _. apply runs_ret. intros env l H. rewrite app_nil_r. exact H.
Qed.

Lemma take_permit_own b : runs (take_permit b) (fun _ o l => l = [] /\ match o with Some p => p = identity b | None => True end).
Proof.
  apply runs_atomic. intros s. unfold inflight_try_acquire. destruct (_ || _); (eexists _, _; split; [reflexivity|done]).
Qed.

Lemma try_stream_lane_runs b is_last started :
  rate_ok b = true -> runs (try_stream_lane L c total i surface route client_model body b is_last parsed est started) (fun env => turn_post env b).
Proof.
  intros Hr. unfold try_stream_lane, now_ms, now_instant. quiet. intros t. quiet. intros now. quiet. intros [|].
  { apply next_lane_runs. intros env. by apply (one_turn env b _ []). }
  case_match. { apply next_lane_runs. intros env. by apply (one_turn env b _ []). }
  eapply (runs_pure _ _ (fun o => match o with Some p => p = identity b | None => True end)); [apply take_permit_own|].
  intros [p|]; [|intros _; apply next_lane_runs; intros env; by apply (one_turn env b _ [])]. intros ->. quiet. intros [took|reason].
  - destruct (is_anthropic b) eqn:Ea; [by apply buffered_lane_runs|by apply live_lane_runs].
  - apply give_up_runs. intros env. by apply (one_turn env b _ []).
Qed.

(** The chain: free of charge up to the lane that ended it, if one did. *)
Definition stream_post (env : Env) (lanes : list Backend) (o : option (Backend * option StreamBody)) (l : list Effect) : Prop :=
  match o with
  | None => free l /\ forall b, b ∈ lanes -> identity b ∈ fallthroughs l
  | Some (b, r) => b ∈ lanes /\ exists l1 l2, l = l1 ++ l2 /\ free l1 /\ turn_post env b (Returned r) l2
  end.

Lemma try_stream_chain_runs lanes started tried :
  Forall (fun b => rate_ok b = true) lanes ->
  runs (try_stream_chain L c total i surface route client_model body lanes parsed est started tried)
    (fun env '(r, tried') l => exists o, stream_post env lanes o l /\
       match o with Some (_, r') => r = r' | None => r = None /\ tried' = list_to_set (map identity lanes) ∪ tried end).
Proof.
  intros Hok. revert tried. induction Hok as [|b lanes Hb Hok IH]; intros tried; cbn [try_stream_chain].
  { apply runs_ret. intros env. exists None. split; [split; [done|set_solver]|]. split; [done|]. simpl. set_solver. }
  eapply runs_bind; [by apply try_stream_lane_runs|]. intros [|r].
  - eapply runs_impl; [apply IH|]. intros env [r tried'] l' (o & Ho & Hr) l (Hf & Hne & Hall). exists o. destruct o as [ [b' r']|].
    + split; [|done]. destruct Ho as (Hin & l1 & l2 & -> & H1 & H2). split; [by right|]. exists (l ++ l1), l2. rewrite app_assoc. split_and!; [done|by apply free_app|done].
    + destruct Hr as [-> ->]. destruct Ho as [Hf' Hin]. split; [|split; [done|simpl; set_solver] ]. split; [by apply free_app|].
      unfold fallthroughs in *. rewrite omap_app. intros x [->|Hx]%elem_of_cons; apply elem_of_app; [left|right; by apply Hin].
      destruct (omap _ l) as [|y ys]; [done|]. apply Forall_cons in Hall as [<- _]. left.
  - apply runs_ret. intros env l H. rewrite app_nil_r. exists (Some (b, r)). split; [|done]. split; [left|]. by exists [], l.
Qed.
End StreamLane.

Section StreamRequest.
Context (L : Libraries) (c : ProxyConfig) (total : Z) (i : Identity) (surface : Surface) (route : Route) (client_model body : string).

Abbreviation parsed := (default VNull (l_from_slice L body)).

(** A lane the request may use. *)
Definition allowed (b : Backend) : Prop := b ∈ priority route \/ lent c route b.

(** A tier that ended with an Anthropic lane that answered an OpenAI client what no
    stream can be made of: that one answer was charged, once. *)
Definition stranded (env : Env) (l : list Effect) : Prop :=
  surface = SOpenAi /\ exists b l1 l2, l = l1 ++ l2 /\ allowed b /\ is_anthropic b = true /\ answered_unstreamable L env b /\
    free l1 /\ dispatched l2 = [b] /\ charged_once "ok" l2.

(** What the tier that answered leaves. *)
Definition body_post (o : StreamBody) (l : list Effect) : Prop :=
  match o with
  | Live _ permit p => allowed (pd_backend p) /\ permit = identity (pd_backend p) /\ last (dispatched l) = Some (pd_backend p) /\ free l
  | Whole _ => exists b, allowed b /\ is_anthropic b = true /\ last (dispatched l) = Some b /\ charged_once "ok" l
  end.

(** How a streaming request can end. *)
Definition stream_result (env : Env) (o : StreamOutcome) (l : list Effect) : Prop :=
  exists l0 l1, l = l0 ++ l1 /\ (free l0 \/ stranded env l0) /\
  match o with
  | SBody b => body_post b l1
  | SFailed => (free l1 \/ stranded env l1) /\
      (free l -> (usage_aware c = false -> forall b, b ∈ priority route -> identity b ∈ fallthroughs l) /\
        (forall b, lent c route b -> identity b ∈ fallthroughs l))
  end.

(** The second tier. *)
Definition last_stream_tier (est : N) (started : Z) (tried : gset string) : M (option StreamBody) :=
  if last_resort c then
    let fallback := last_resort_lanes c (rt_name route) tried in
    match fallback with
    | [] => mret None
    | _ => '(r, _) ← try_stream_chain L c total i surface route client_model body fallback parsed est started tried; mret r
    end
  else mret None.

(** A chain over lanes the request may use, seen from the request. *)
Definition tier_post (env : Env) (o : option StreamBody) (l : list Effect) : Prop :=
  match o with Some b => body_post b l | None => free l \/ stranded env l end.

Lemma turn_tier env b r l1 l2 : allowed b -> free l1 -> turn_post L surface env b (Returned r) l2 -> tier_post env r (l1 ++ l2).
Proof.
  intros Hb [Hs Hr]. destruct r as [ [bytes|k permit p]|]; cbn [turn_post tier_post body_post].
  - intros (Hc & _ & Hd & Ha). exists b. unfold charged_once. rewrite dispatched_app, spends_app, rows_app, Hs, Hr, Hd, last_snoc. by split_and!.
  - intros ([Hs2 Hr2] & _ & Hd & -> & <-). unfold free. rewrite dispatched_app, spends_app, rows_app, Hs, Hr, Hd, last_snoc. by split_and!.
  - intros (Hc & Hd & Ha & Hsur & Hun). right. split; [done|]. by exists b, l1, l2.
Qed.

Lemma last_stream_tier_runs est started tried :
  lanes_ok c route ->
  runs (last_stream_tier est started tried) (fun env o l =>
    tier_post env o l /\ (o = None -> free l -> forall b, lent c route b -> identity b ∈ tried \/ identity b ∈ fallthroughs l)).
Proof.
  intros Hok. unfold last_stream_tier. cbv zeta. destruct (last_resort c) eqn:El.
  2: { apply runs_ret. intros env. split; [by left|]. intros _ _ b [Hl _]. congruence. }
  assert (Hfb : forall b, b ∈ last_resort_lanes c (rt_name route) tried -> lent c route b).
  { intros b Hb. split; [done|]. by apply other_lanes, (unseen_lanes_spec tried). }
  assert (Hall : forall b, lent c route b -> identity b ∈ tried \/ identity b ∈ map identity (last_resort_lanes c (rt_name route) tried)).
  { intros b [_ Hb]. apply unseen_lanes_spec. by apply other_lanes. }
  destruct (last_resort_lanes c (rt_name route) tried) as [|x fb] eqn:Ef.
  { apply runs_ret. intros env. split; [by left|]. intros _ _ b Hb. by destruct (Hall b Hb) as [?|?]; [left|set_solver]. }
  eapply runs_bind; [apply try_stream_chain_runs, Forall_forall; intros b Hb; apply Hok; right; by apply Hfb|]. intros [r tried']. apply runs_ret.
  intros env l (o & Ho & Hr). rewrite app_nil_r. destruct o as [ [b r']|].
  - subst r'. destruct Ho as (Hin & l1 & l2 & -> & H1 & H2).
    assert (Ht : tier_post env r (l1 ++ l2)) by (apply (turn_tier _ b); [right; by apply Hfb|done|done]). split; [done|].
    intros -> [Hs _]. exfalso. destruct H2 as ((t & cost & row & Hc & _) & _). rewrite spends_app, Hc in Hs. by destruct (spends l1).
  - destruct Hr as [-> _]. destruct Ho as [Hf Hin]. split; [by left|]. intros _ _ b Hb. destruct (Hall b Hb) as [?|Hm]; [by left|right].
    apply list_elem_of_fmap in Hm as (b' & -> & Hb'). by apply Hin.
Qed.

Lemma stream_runs downgrade :
  lanes_ok c route -> runs (route_streaming L c total i surface route client_model body downgrade) stream_result.
Proof.
  intros Hok. unfold route_streaming, now_instant. quiet. intros started.
  eapply (runs_pure _ _ (lanes_of c route)); [apply attempt_lanes_runs|]. intros lanes (Hperm & Hsub & Hne).
  set (est := estimated_request_tokens _).
  eapply runs_bind; [apply try_stream_chain_runs, Forall_forall; intros b Hb; apply Hok; left; by apply Hsub|]. intros [r tried].
  (* the first tier, as the request sees it *)
  assert (Hfirst : forall env l o, stream_post L surface env lanes o l -> match o with Some (_, r') => r = r' | None => r = None /\ tried = list_to_set (map identity lanes) ∪ ∅ end ->
    tier_post env r l /\ (r = None -> free l -> (forall b, b ∈ lanes -> identity b ∈ fallthroughs l) /\ tried = list_to_set (map identity lanes))).
  { intros env l [ [b r']|] Ho Hr.
    - subst r'. destruct Ho as (Hin & l1 & l2 & -> & H1 & H2). split; [apply (turn_tier _ b); [left; by apply Hsub|done|done]|].
      intros -> [Hs _]. exfalso. destruct H2 as ((t & cost & row & Hc & _) & _). rewrite spends_app, Hc in Hs. by destruct (spends l1).
    - destruct Hr as [-> ->]. destruct Ho as [Hf Hin]. split; [by left|]. intros _ _. split; [done|set_solver]. }
  destruct r as [b0|].
  { eapply (runs_pure _ _ (eq (Some b0))); [by apply runs_ret|]. intros ? <-. apply runs_ret.
    intros env l (o & Ho & Hr). rewrite app_nil_r. destruct (Hfirst env l o Ho Hr) as [H _]. exists [], l. split; [done|]. split; [by left|exact H]. }
  eapply runs_bind; [exact (last_stream_tier_runs est started tried Hok)|]. intros [b0|].
  { apply runs_ret. intros env l' [Ht _] l (o & Ho & Hr). rewrite app_nil_r. destruct (Hfirst env l o Ho Hr) as [H _]. by exists l, l'. }
  noisy. apply runs_ret. intros env l2 [H2 Hl2] l1 (o & Ho & Hr). destruct (Hfirst env l1 o Ho Hr) as [H1 Hl1].
  set (e := ERequest _ _ _). change (tier_post env None l1) in H1. exists l1, (l2 ++ [e]). split; [done|]. split; [exact H1|]. split.
  { destruct H2 as [H2|(Hsur & b & m1 & m2 & -> & Hb & Ha & Hun & Hf & Hd & Hc)]; [left; by apply free_app|right].
    split; [done|]. exists b, m1, (m2 ++ [e]). rewrite app_assoc. unfold charged_once. rewrite dispatched_app, spends_app, rows_app. cbn. rewrite !app_nil_r. by split_and!. }
  intros [Hs Hrw]. rewrite !spends_app in Hs. rewrite !rows_app in Hrw.
  apply app_eq_nil in Hs as [Hs1 [Hs2 _]%app_eq_nil]. apply app_eq_nil in Hrw as [Hr1 [Hr2 _]%app_eq_nil].
  destruct (Hl1 eq_refl (conj Hs1 Hr1)) as [Hcov ->]. specialize (Hl2 eq_refl (conj Hs2 Hr2)). rewrite !fallthroughs_app. split.
  - intros Hu b Hb. apply elem_of_app. left. apply Hcov. by rewrite (Hperm Hu).
  - intros b [Hb|Hb]%Hl2; apply elem_of_app; [left|right; apply elem_of_app; by left].
    apply elem_of_list_to_set, list_elem_of_fmap in Hb as (b' & -> & Hb'). by apply Hcov.
Qed.
End StreamRequest.

(** C19. Whatever the others do, a streaming request returns.  If a live stream
    comes of it, its lane is one the request may use, it is the last one anything
    was sent to, the permit it keeps is its own, and the stream is not charged yet;
    if a whole answer, it comes from an Anthropic lane and was charged once; if
    neither and nothing was charged, every lane was given up: all lent ones, and
    all of the route unless account headroom left some out.  Nothing else is
    charged, with one exception: an Anthropic lane that answered an OpenAI client
    what no stream can be made of is charged, once for that answer, and ends its
    tier, of which there are two; the request then goes on to the lent lanes or
    fails. *)
Theorem stream_cascade L c total i surface route client_model body downgrade env n s :
  lanes_ok c route ->
  exists o n' s' l, route_streaming L c total i surface route client_model body downgrade env n s = Some (o, n', s', l) /\
    stream_result L c surface route env o l.
Proof. intros Hok. exact (stream_runs L c total i surface route client_model body downgrade Hok env n s). Qed.

Definition live_env : Env :=
  mkEnv (fun _ s => s) (fun n => Z.of_nat n) (fun n => Z.of_nat n) (fun _ => 0%nat) (fun _ => 0) (fun _ _ _ _ => TotalTimeout)
    (fun _ _ b _ => if String.eqb (b_name b) "a" then OpenOk ∅ [] else OpenOk ∅ [PArrives (String.concat "" (replicate 120 ": hi there")); PDeadline]).

Lemma stream_cascade_witness :
  lanes_ok demo_proxy demo_route /\
  exists k p n' s' l, route_streaming demo_libs demo_proxy 300 identity_global SOpenAi demo_route "r" "x" false live_env 0%nat demo_shared =
    Some (SBody (Live k "b" p), n', s', l) /\ fallthroughs l = ["a"] /\ inflight_get (sh_inflight s') "b" = 1%N /\
    stream_result demo_libs demo_proxy SOpenAi demo_route live_env (SBody (Live k "b" p)) l.
Proof.
  assert (Hok : lanes_ok demo_proxy demo_route).
  { intros b [Hb|[Hl _] ]; [|discriminate Hl]. apply elem_of_cons in Hb as [->|Hb]; [reflexivity|].
    apply list_elem_of_singleton in Hb as ->. reflexivity. }
  split; [exact Hok|].
  destruct (stream_cascade demo_libs demo_proxy 300 identity_global SOpenAi demo_route "r" "x" false live_env 0%nat demo_shared Hok) as (o & n' & s' & l & E & H).
  assert (Ho : match route_streaming demo_libs demo_proxy 300 identity_global SOpenAi demo_route "r" "x" false live_env 0%nat demo_shared with
    | Some (SBody (Live _ q _), _, s', l) => q = "b" /\ fallthroughs l = ["a"] /\ inflight_get (sh_inflight s') "b" = 1%N | _ => False end)
    by (vm_compute; auto).
  rewrite E in Ho. destruct o as [ [bytes|k q p]|]; [contradiction Ho| |contradiction Ho]. destruct Ho as (H1 & H2 & H3). subst q.
  exists k, p, n', s', l. split; [exact E|]. split; [exact H2|]. split; [exact H3|exact H].
Defined.

(** ** The end of a live stream *)

Lemma finalize_closure_runs c i surface route p stats :
  runs (finalize_closure c i surface route p stats) (fun _ _ l => fallthroughs l = [] /\ dispatched l = [] /\
    exists row, rows l = [row] /\ outcome row = "ok_stream" /\ rr_backend row = b_name (pd_backend p) /\
      spends l = [(i64_wrap (Z.of_N (usage_total (st_usage stats))), rr_cost row)]).
Proof.
  unfold finalize_closure. quiet. intros e. destruct (cost_usd _ _ _ _ _) as [cost source]. do 4 noisy.
  eapply (runs_bind _ _ (fun _ _ l => l = [ESpend (i64_wrap (Z.of_N (usage_total (st_usage stats)))) cost])).
  { unfold spend, now_ms. quiet. intros now. quiet. intros _. by apply runs_emit. }
  intros []. eapply (runs_quiet _ _ (fun _ row => outcome row = "ok_stream" /\ rr_backend row = b_name (pd_backend p) /\ rr_cost row = cost)).
  { unfold build_row, now_ms. quiet. intros ts. by apply runs_ret. }
  intros row. unfold put_audit_row. quiet. intros _. apply runs_emit. intros env (H1 & H2 & H3) l ->. simpl. split_and!; [done..|]. exists row. by rewrite H3.
Qed.

(** ** The gate *)

Section Gate.
Context (env : Env).

(** The environment leaves the budget table alone. *)
Definition budget_still : Prop := forall m s, sh_budget (interfere env m s) = sh_budget s.

Lemma traverse_rows scopes n s : exists rs n' s', traverse (fun scope => reads (fun s => (scope, sh_budget s !! scope))) scopes env n s = Some (rs, n', s', []) /\
  rs.*1 = scopes /\ (budget_still -> rs = map (fun scope => (scope, sh_budget s !! scope)) scopes).
Proof.
  revert n s. induction scopes as [|x scopes IH]; intros n s; cbn [traverse]; [by exists [], n, s|].
  destruct (IH (S n) (interfere env n s)) as (rs & n' & s' & E & H1 & H2). exists ((x, sh_budget (interfere env n s) !! x) :: rs), n', s'.
  unfold mbind, M_bind. cbn [reads atomic]. rewrite E. cbn. split_and!; [done|by rewrite H1|]. intros Hq. by rewrite (H2 Hq), Hq.
Qed.

Lemma rows_lookup (db : BudgetTable) scopes x : x ∈ scopes ->
  (list_to_map (omap (fun '(scope, r) => pair scope <$> r) (map (fun scope => (scope, db !! scope)) scopes)) : BudgetTable) !! x = db !! x.
Proof.
  induction scopes as [|y scopes IH]; [by intros ?%elem_of_nil|]. cbn [map omap list_omap]. destruct (decide (x = y)) as [->|Hne].
  - intros _. destruct (db !! y) as [r|] eqn:Ey; cbn; [by rewrite lookup_insert_eq|]. destruct (decide (y ∈ scopes)) as [Hin|Hin]; [rewrite IH; done|].
    apply not_elem_of_list_to_map_1. intros (p & -> & Hp)%list_elem_of_fmap. apply list_elem_of_omap in Hp as ([z o] & Hz & Hp). destruct o; [|done].
    injection Hp as <-. apply list_elem_of_fmap in Hz as (z' & [= -> _] & Hz). done.
  - intros [?|Hin]%elem_of_cons; [done|]. destruct (db !! y); cbn; [rewrite lookup_insert_ne by done|]; by apply IH.
Qed.

Lemma check_scopes_ext db db' st now scopes : (forall x, x ∈ scopes -> db !! x = db' !! x) -> check_scopes db st now scopes = check_scopes db' st now scopes.
Proof.
  induction scopes as [|x scopes IH]; intros H; [done|]. cbn [check_scopes]. unfold current_spend. rewrite (H x) by left.
  rewrite IH by (intros y Hy; apply H; by right). done.
Qed.

Lemma budget_rows_spec i n s : exists db n' s', budget_rows i env n s = Some (db, n', s', []) /\
  (budget_still -> forall st now, check_budget db st i now = check_budget (sh_budget s) st i now).
Proof.
  unfold budget_rows, check_budget. destruct (traverse_rows (match i_rejected i with Some _ => [] | None => budget_scopes i end) n s) as (rs & n' & s' & E & _ & H2).
  eexists _, n', s'. unfold mbind, M_bind. rewrite E. split; [done|]. intros Hq st now. destruct (i_rejected i); [done|]. rewrite (H2 Hq).
  apply check_scopes_ext. intros x Hx. by apply rows_lookup.
Qed.
End Gate.

Lemma lookup_route_in c model r : lookup_route c model = Some r -> r ∈ routes c.
Proof.
  unfold lookup_route. destruct (List.find _ _) as [x|] eqn:E.
  - intros [= <-]. apply find_some in E as [Hin _]. by apply list_elem_of_In.
  - destruct (routes c); [done|]. intros [= <-]. left.
Qed.

Lemma resolve_route_in L c model h body r : resolve_route L c model h body = Some r -> r ∈ routes c.
Proof. unfold resolve_route. case_match; apply lookup_route_in. Qed.

(** Who a request is, when it is let through. *)
Lemma resolve_identity_accepts hmac from_payload secret key now :
  i_rejected (resolve_identity hmac from_payload secret key now) = None ->
  exists sec k a, secret = Some sec /\ key = Some k /\ attr_verify hmac from_payload k sec now = Ok a.
Proof.
  unfold resolve_identity. destruct secret as [sec|]; [|done]. destruct key as [k|]; [|done]. destruct (attr_verify hmac from_payload k sec now) eqn:E; cbn; intros; solve [done|eauto 10].
Qed.

(** What the endpoint does with a request it lets through. *)
Lemma endpoint_rest_runs L c total i h body downgrade :
  (forall r, r ∈ routes c -> lanes_ok c r) ->
  runs (match resolve_route L c (model_of L body) h body with
        | None => mret (ErrorAnswer 400 "no route for model" "invalid_request")
        | Some route =>
            if wants_stream L body then
              o ← route_streaming L c total i SOpenAi route (model_of L body) body downgrade;
              mret (match o with SBody b => SseAnswer b | SFailed => ErrorAnswer 503 "all backends failed" "proxy_error" end)
            else
              r ← route_nonstreaming L c total i "openai" route body downgrade;
              mret (JsonAnswer (http_status (res_status r)) (res_body r))
        end) (fun _ _ _ => True).
Proof.
  intros Hok. destruct (resolve_route L c (model_of L body) h body) as [r|] eqn:Er; [|by apply runs_ret]. apply resolve_route_in, Hok in Er.
  destruct (wants_stream L body).
  - eapply runs_bind; [by apply stream_runs|]. intros o. by apply runs_ret.
  - eapply runs_bind; [by apply route_runs|]. intros o. by apply runs_ret.
Qed.

(** C10. The endpoint answers every request, and whatever it sends upstream, charges
    or records is for a request whose key the host signed and which has not
    expired, and which the budget, as it stands while others leave it alone, does
    not refuse; any other request gets the refusal and leaves no trace. *)
Theorem endpoint_gated L c total hmac from_payload secret h body env n s :
  (forall r, r ∈ routes c -> lanes_ok c r) ->
  let i := resolve_identity hmac from_payload secret (virtual_key h) (wall_ms env n) in
  exists ans n' s' l, chat_completions L c total hmac from_payload secret h body env n s = Some (ans, n', s', l) /\
    (l <> [] ->
      (exists sec key a, secret = Some sec /\ virtual_key h = Some key /\ attr_verify hmac from_payload key sec (wall_ms env n) = Ok a) /\
      (budget_still env -> forall msg, check_budget (sh_budget s) (budget c) i (wall_ms env (S n)) <> BRefused msg)) /\
    (forall msg, budget_still env -> check_budget (sh_budget s) (budget c) i (wall_ms env (S n)) = BRefused msg ->
      ans = ErrorAnswer 402 msg "budget_exceeded" /\ l = []).
Proof.
  intros Hok i. unfold chat_completions. unfold mbind at 1, M_bind at 1. cbn [now_ms ask]. unfold mbind at 1, M_bind at 1. cbn [now_ms ask]. fold i.
  destruct (budget_rows_spec env i (S (S n)) s) as (db & n1 & s1 & E1 & Hdb). unfold mbind at 1, M_bind at 1. rewrite E1. cbv zeta.
  assert (Hacc : forall st now, (forall msg, check_budget db st i now <> BRefused msg) -> i_rejected i = None).
  { intros st now Hv. unfold check_budget in Hv. destruct (i_rejected i) as [msg|]; [by destruct (Hv msg)|done]. }
  destruct (check_budget db (budget c) i (wall_ms env (S n))) as [|msg|] eqn:Ev.
  2: { eexists _, _, _, []. split; [done|]. split; [done|]. intros msg' Hq. rewrite <- (Hdb Hq), Ev. by intros [= <-]. }
  - destruct (endpoint_rest_runs L c total i h body false Hok env n1 s1) as (ans & n2 & s2 & l & E & _). rewrite E. exists ans, n2, s2, l. split; [done|].
    split; [intros _; split; [apply resolve_identity_accepts; apply (Hacc (budget c) (wall_ms env (S n))); by rewrite Ev|] |]; intros Hx; [|intros Hq]; rewrite <- Hdb, Ev by done; done.
  - destruct (endpoint_rest_runs L c total i h body true Hok env n1 s1) as (ans & n2 & s2 & l & E & _). rewrite E. exists ans, n2, s2, l. split; [done|].
    split; [intros _; split; [apply resolve_identity_accepts; apply (Hacc (budget c) (wall_ms env (S n))); by rewrite Ev|] |]; intros Hx; [|intros Hq]; rewrite <- Hdb, Ev by done; done.
Qed.

Definition demo_headers : HeaderMap := {["x-api-key" := Some (encode_signed demo_hmac demo_to_vec demo_scope "k" 50)]}.

Lemma endpoint_gated_witness :
  (forall r, r ∈ routes demo_proxy -> lanes_ok demo_proxy r) /\ budget_still demo_env /\
  exists ans n' s' l, chat_completions demo_libs demo_proxy 300 demo_hmac demo_from_slice (Some "k") demo_headers "x" demo_env 0%nat demo_shared = Some (ans, n', s', l) /\
    ans = JsonAnswer 200 "hi" /\ l <> [] /\
    exists sec key a, Some "k" = Some sec /\ virtual_key demo_headers = Some key /\ attr_verify demo_hmac demo_from_slice key sec 0 = Ok a.
Proof.
  assert (Hok : forall r, r ∈ routes demo_proxy -> lanes_ok demo_proxy r).
  { intros r Hr. apply list_elem_of_singleton in Hr as ->. intros b [Hb|[Hl _] ]; [|discriminate Hl].
    apply elem_of_cons in Hb as [->|Hb]; [reflexivity|]. apply list_elem_of_singleton in Hb as ->. reflexivity. }
  split; [exact Hok|]. split; [intros m s; reflexivity|].
  destruct (endpoint_gated demo_libs demo_proxy 300 demo_hmac demo_from_slice (Some "k") demo_headers "x" demo_env 0%nat demo_shared Hok)
    as (ans & n' & s' & l & E & Hl & _).
  exists ans, n', s', l. split; [exact E|].
  assert (Hans : match chat_completions demo_libs demo_proxy 300 demo_hmac demo_from_slice (Some "k") demo_headers "x" demo_env 0%nat demo_shared with
    | Some (ans, _, _, l) => ans = JsonAnswer 200 "hi" /\ l <> [] | None => False end) by (vm_compute; split; [reflexivity|discriminate]).
  rewrite E in Hans. destruct Hans as [H1 H2]. split; [exact H1|]. split; [exact H2|]. exact (proj1 (Hl H2)).
Defined.

(** An answer that is no success but below 400 counts as one. *)
Example not_modified_served : classify_response (fun _ => None) (fun s => s) 304 "" = (Serve, "").
Proof. reflexivity. Qed.
